(* ===== verification/_CoqProject ===== *)
-Q . S2P
Prelude.v
SortedMap.v
Wildcmp.v
Json.v
Store.v
World.v
Scan.v
Frames.v
Cache.v
CoreRead.v
CoreWrite.v
CoreLists.v
V8Search.v
V8Engine.v
Orm.v
Threads.v
ThreadedJoin.v
Sockets.v
FileSocket.v
Geohash.v
Geo.v
Http.v
Trie.v
TrieFile.v
Distance.v
Elastic.v
JsonOut.v
Searcher.v
TestRun.v
Base64.v
Upload.v
Mustache.v
Pages.v
HttpClient.v
WsClient.v
WsOpen.v
TaskQueue.v
Tcp.v
TcpSite.v
TcpServer.v
Start.v
WrenHost.v
ScriptEngine.v
Cloud.v
