(* ===== verification/Prelude.v ===== *)
(** * Quarks: a verification development

    Quarks is a server that keeps JSON documents under string keys in RocksDB
    and answers queries over ranges of keys, over HTTP, TCP and web sockets,
    alone or as a node of a cloud that replicates the changes.  The program's
    own logic is in src/src/quarks.cpp (the class [Core], the free functions it
    stands on, the socket interceptor), src/include/quarkscloud.hpp (the
    replication), src/include/httprouting.hpp, src/src/routing.cpp and
    src/include/routing.hpp (the routes), src/src/geohash.cpp,
    src/include/orm.hpp, src/include/qsorter.hpp, src/include/qsocket.hpp and
    src/include/qsearch.hpp (the two search indexes); its JSON values are those
    of src/third-party/crow/include/crow/json.h.  This library models that
    logic and proves what it promises, and where it does not keep a promise,
    exactly how.

    ** The program and the files

    - This file: outcomes of C++ computations, state monads with their loops,
      the wrap-around of [int], windows over lists ([page]), lemmas on strings
      and lists, tactics.
    - SortedMap.v: [std::map] and the contents of the store, as lists sorted
      by key.
    - Wildcmp.v: [wildcmp], the matcher of key patterns (quarks.cpp).
    - Json.v: [load], [dump], [rvalue], [wvalue] (json.h).  JsonOut.v: the room
      [dump] reserves, the comparisons and the stream operator.
    - Store.v: the calls of RocksDB as a class of operations [RocksDB], what
      they are documented to do as a class of laws [RocksDBLaws], and an
      instance kept in memory.
    - World.v: the globals of quarks.cpp and the fields of [Core] in one record
      [world]: database handle, status, options, cache, the messages handed to
      the cloud.  [setEnvironment], [run], [openDB], [putRequest],
      [removeRequest] and what a node does with a message it receives.
    - Scan.v: the window arithmetic and the loop bodies the queries share.
    - Frames.v: which computations leave which part of the state as it was.
    - Cache.v: [_GetCachedKeys], queries answered from the cache.
    - CoreRead.v: [getAll], [getKeys], [getKeysReversed], [getCount], [iter],
      [iterReversed], [prefixIter].
    - CoreWrite.v: [get], [exists], [insert], [put], [dump], [putAtom],
      [remove], [removeAll], [removeAtom], [makePair], [atom], [increment],
      [incrementValue], [backup], [restore].
    - CoreLists.v: [getJson], [getList], [getItems], [getAfter],
      [getKeysAfter], [getLast], [getKeysLast], [getJoinedMap],
      [getJoinedMapWildcardOnly], [searchJson].  V8Search.v: the [searchJson] of
      the build with V8, over any engine.  V8Engine.v: v8engine.cpp, which gives
      it one, and [fileTransfer].
    - Orm.v: the filters of orm.hpp, the comparer of qsorter.hpp, [getSorted].
    - Threads.v: [getKeysMulti] and [getKeysInThread] as a step relation.
    - ThreadedJoin.v: [getJoinedMapThreaded], its two threads as moves at the
      shared accesses, under any schedule.
    - Sockets.v: [QSocket] and [SocketInterceptor] as a transition system.
    - FileSocket.v: the handlers of [QSocket] over any interceptor (qsocket.hpp)
      and the interceptors of that file: the default one and the one that
      writes what it receives to files.
    - Geohash.v: geohash.cpp.  Geo.v: [geoput] and [geonear] of the core.
    - Http.v: the routes of httprouting.hpp as handlers from a request to an
      answer, and [serve], the dispatch of crow over their table.
    - Trie.v: the word index [MMapTrie] of qsearch.hpp; TrieFile.v: its file.
    - Distance.v: the edit distance and the near matching of texts, and
      Elastic.v: the document index [ElasticSearch], of qsearch.hpp; the index
      is one [wvalue] and the file behind it a text with a length.
    - Searcher.v: the routes of the two indexes (qsearch.cpp); TestRun.v: its
      test run, and what that prints.
    - Upload.v: the uploads of httprouting.hpp and the route that gives files
      back.  Base64.v: base64.cpp.
    - Mustache.v: the templates of crow's mustache.h, compiled and printed.
      Pages.v: the pages and files of httprouting.hpp made from them, the other
      routes that do not call the core, their dispatch, and [serve_site], which
      puts them beside the routes of Http.v.
    - HttpClient.v: the client of HTTPRequest.hpp, with [httpPost] and
      [httpGet] of quarks.cpp, by which changes reach the logger.
    - WsClient.v: a connection of the web socket client of easywsclient.cpp:
      the frames it sends and reads, and [poll] over scripts of what the system
      does.  WsOpen.v: how such a connection is opened from an address.
    - WrenHost.v: Wren++.hpp and Wren++.cpp: calls between C++ and scripts, who
      owns the handles of a machine, the loading of modules.
    - ScriptEngine.v: wrenengine.hpp and plugins.hpp: the machines that threads
      use, what scripts can call, the plugins, and the handler that runs before
      the routes; the registry of functions of Wren++.cpp.
    - TaskQueue.v: the task queue of quarkstaskqueue.hpp and its workers as a
      step relation.
    - Tcp.v: the request, the routes and the dispatch of the TCP server
      (routing.hpp, routing.cpp) and [handle_read] of quarkstcp.hpp.  TcpSite.v:
      the routes of routing.cpp that write a file, open a socket or sleep.
      TcpServer.v: the connections of quarkstcp.hpp and quarkstcp.cpp under any
      order of events, over any dispatcher.
    - Start.v: main.cpp as a step relation: the threads it starts and how it
      tells the TCP server to end; the end of [Core].
    - Cloud.v: the frames of quarkscloud.hpp, the broker, the writers and the
      readers as processes, and a line of them as a step relation.

    The queries of CoreRead.v and CoreLists.v are loops over an iterator of the
    store: a prefix is sought, each key that [wildcmp] matches gets the next
    number, and the entries whose number is in the window of [skip] and [limit]
    are read as JSON and appended to the result.  With the option -cached they
    go to the map of Cache.v instead.  Writes go through [insertKeyValuePair]
    or [dump] to the store, then through [putRequest] to the cache and the
    cloud; removals through [removeRequest] to the cloud only.  Cloud.v carries
    a message from there to [node_message] of the nodes behind.  The sockets
    call [dump] and [getKeys] of the core; the handlers of Http.v and Tcp.v
    call its operations with the parameters they have read.  A definition bears
    the name of the function it models; a part of a long function has a name of
    its own and says where it belongs.

    ** How the code is modelled

    - A computation has an [outcome]: a value, an exception, undefined
      behaviour (reading past a vector, [end()] dereferenced, a null pointer
      followed), or, in the model only, no fuel left.  State is passed by the
      monad [SM]: after an exception the state is what the code had done up to
      the throw.  Functions that only read take the [world] as an argument.
    - An [int] is an integer kept in its range by [int32].  The program is built
      without trapping, and signed overflow is taken to wrap; the theorems on
      pages assume that the number of entries and the window stay in range, and
      those on counters state the wrap.
    - Texts are byte strings; [c_str] cuts them at the first zero byte where the
      program goes through a [char*].
    - Loops over the store and of [wildcmp] have fuel, one unit a turn.  For
      [wildcmp] the definition computes enough fuel from the lengths and the
      theorem shows that it always ends; for the parser the lemma [load_total]
      shows the same; for the reader of responses, [feed_ends]; for the scans the number of entries of the store is enough, and the
      theorems ask for one unit more than that and conclude a result, so none
      is about runs that stop early.  The searches of Trie.v recur on the
      trie.
    - Threads, workers, sockets and the processes of the cloud are step
      relations or moves under a schedule: every interleaving of their actions
      is an execution.  What the system answers to the HTTP client is a script,
      and the theorems hold for all scripts, or all that serve it.  The messages on a
      link of the cloud keep their order; that they arrive is a hypothesis of
      [all_delivered] and [replica_converges] only.
    - A decoded text of crow shares its buffer with the copies of its value; where
      copies are compared (Orm.v) the buffers are part of the state.
    - [dlopen], [dlclose] and [dlsym] do what POSIX says, failures on a closed
      handle included.
    - Parameters: the class [Platform] (text and order of numbers and of the
      members of a hash map), the classes of RocksDB, the operations on
      doubles that geonear uses, the sorting algorithm of [std::sort], the clock
      of the sockets, the number of worker threads, the room in the blocks of
      the allocator, where a hash map lists a new entry, the size of a page and
      what becomes of bytes written behind the end of a mapped file.  Their laws
      are fields of the classes or hypotheses of the theorems; the witnesses
      instantiate all of them with concrete functions.

    ** What the theorems show

    - Matching, parsing and printing: [wildcmp] decides the patterns
      ([wildcmp_correct]); the parser answers on all texts (lemma [load_total])
      and reads back what the printer writes ([load_dump]), which is as long as the
      room reserved for it allows (lemma [dump_reserves]).
    - Queries: each is a page, in the stated order, of the hits of its pattern:
      [getAll_page], [v8_search_page] (without a leading star that search reads
      released memory); the like for the other queries, the sorted
      and joined ones, those around a place (lemma [geonear_page]) and those
      answered from the cache, is proved as lemmas.  The statements
      include the cases in which the code answers otherwise: a reversed query
      at the end of the store, a cached query whose first entry does not match.
    - Changes: [get_after_put], [put_merges], [remove_effect],
      [increment_effect], and the lemma [removeAll_effect]; on every path, failures of the
      store included, the contents and the cache afterwards, and exactly what was
      published ([put_published], [removal_published]).
    - Nodes and the cloud: over all executions of a line of nodes
      [saved_in_order]: a node saves a part, in order, of what the writer
      published; [all_delivered]: it saves all of it when no message is lost;
      [replica_converges]: its store then has the contents of the writer's.
    - Routes: [put_then_get] through the HTTP dispatch, [bad_requests] for
      unknown paths, methods and parameters that are no numbers,
      [transports_agree] for the paths of both transports that need no body,
      [upload_then_get] for files;
      as lemmas, that the routes that read change nothing and that nothing can
      be stored over TCP.
    - Filters and sorting: [validate_spec] against the meaning of a filter,
      [comparer_order] for the sorting, and for what decoding in place does to it.
    - Threads: for every interleaving [multi_results] (and the lemma [multi_joins]);
      [threaded_join_results] and [threaded_join_ends] for the join, with the
      keys it can lose and the memory it can read after its release.
    - Task queue: the lemmas [stop_never_joins] for the workers that sleep when it
      is stopped, [tasks_in_order] and [queue_drained].
    - Sockets: in every execution [no_dangling]; [send_reaches] for messages,
      and the lemma [file_received] for files.
    - HTTP client: [response_in_pieces]: a framed response is read whatever
      pieces it comes in, with the framing header anywhere; [put_logged]: a change reaches the logger byte for
      byte; the lemma [urlEncode_decoded].
    - Web socket client: [frames_received]: the messages of a stream of frames,
      however it is cut and dispatched; [messages_carried] from one end of a
      connection to the other; [socket_opened]: the handshake.
    - TCP server: [blocks_answered]: each block of each connection is answered in
      its order, whatever the others do; [server_ended]: what ends the server and
      with it all connections; the other routes are the lemma [tcp_other_routes].
    - Program: [shutdown]: from the end of the HTTP server on, [main] comes to rest
      under every schedule, and where.
    - Pages: the lemmas [page_printed] and [asset_served]; that the pages and the routes of
      the core do not take each other's paths is the lemma [site_apart].
    - Scripts: [scripts_isolated] for the requests scripts see, [plugin_handles]
      for the plugins; what a script answers is the lemma [script_answers], who owns the
      handles of a machine [handles_owned]; that a module of V8 answers as
      [searchJson] takes it to is [engine_answers].
    - Geohashes: [geohash_decode_encode], [geohash_neighbor].
    - Word index: [trie_delete] for the words and their metadata; what the
      searches list (lemma [trie_fuzzySearch]) and the other operations as lemmas.
    - Document index: [levenshtein_least] against the fewest edits,
      words in order (lemma [near_matched]), [search_documents],
      [elastic_refines] against lists of documents, [persist_file] for the
      contents and the faults of the mapped file, [index_then_search] through
      the routes.

    Each theorem with hypotheses is followed by a witness that applies it to a
    concrete store, text or execution.

    ** What is not modelled

    - boost::asio and ZeroMQ themselves: the model starts at what they give and
      take.
    - The interpreters of scripts, Wren and V8, which are classes here, with
      their header wren.h; of Wren++ the templates that bind classes of the host,
      which nothing uses.
    - [getCountThreaded] of quarks.cpp, which is commented out.
    - filter.cpp and the routes to it, which call OpenCV behind a build flag, and
      matrix.hpp, which nothing includes.
    - In crow's json.h, who owns the text a parsed value points into: values are
      held with their texts here. *)

From Stdlib Require Export ZArith Lia Ascii String.
From Stdlib Require Import DecimalString DecimalZ.
From stdpp Require Export base list strings option sorting.
#[global] Open Scope string_scope.
#[global] Open Scope list_scope.
#[global] Arguments String.append !_ _ : simpl nomatch.
#[global] Arguments Ascii.eqb : simpl never.

Declare Scope quarks_scope.
Delimit Scope quarks_scope with quarks.

Create HintDb quarks.

(** ** Outcomes of a C++ computation

    A call ends normally, throws one of the exception classes the program
    distinguishes, runs into behaviour the C++ standard leaves undefined, or
    (in the model only) runs out of loop fuel. *)

Inductive exn :=
  | RuntimeError (what : string)   (* std::runtime_error *)
  | BadLexicalCast                 (* boost::bad_lexical_cast, a std::bad_cast *)
  | InvalidArgument                (* std::invalid_argument *)
  | OutOfRange                     (* std::out_of_range *)
  | LogicError (what : string)     (* std::logic_error, std::length_error *)
  | BadAlloc                       (* std::bad_alloc *)
  | TemplateError (what : string). (* crow::mustache::invalid_template_exception *)

Inductive outcome (A : Type) :=
  | Ok (a : A)
  | Throw (e : exn)
  | Undef
  | Fuel.
Arguments Ok {A} a.
Arguments Throw {A} e.
Arguments Undef {A}.
Arguments Fuel {A}.

#[export] Instance exn_eq_dec : EqDecision exn.
Proof. solve_decision. Defined.

Definition obind {A B} (m : outcome A) (k : A -> outcome B) : outcome B :=
  match m with
  | Ok a => k a
  | Throw e => Throw e
  | Undef => Undef
  | Fuel => Fuel
  end.

Definition is_ok {A} (m : outcome A) : bool :=
  match m with Ok _ => true | _ => false end.

Notation "'let?' x ':=' m 'in' k" := (obind m (fun x => k))
  (at level 10, x pattern, m at level 100, k at level 200) : quarks_scope.

(** ** Stateful computations

    [SM S A] threads a state [S] (the store, a reference parameter, ...).
    The state survives an exception, as the objects a handler sees do. *)

Definition SM (S A : Type) : Type := S -> outcome A * S.

Section state_monad.
Context {S : Type}.

Definition ret {A} (a : A) : SM S A := fun s => (Ok a, s).
Definition throw {A} (e : exn) : SM S A := fun s => (Throw e, s).
Definition undef {A} : SM S A := fun s => (Undef, s).
Definition bind {A B} (m : SM S A) (k : A -> SM S B) : SM S B :=
  fun s => match m s with
           | (Ok a, s') => k a s'
           | (Throw e, s') => (Throw e, s')
           | (Undef, s') => (Undef, s')
           | (Fuel, s') => (Fuel, s')
           end.
Definition get_st : SM S S := fun s => (Ok s, s).
Definition put_st (s : S) : SM S unit := fun _ => (Ok tt, s).
Definition modify (f : S -> S) : SM S unit := fun s => (Ok tt, f s).
Definition lift {A} (o : outcome A) : SM S A := fun s => (o, s).

(** [try { m } catch (const std::runtime_error& error) { h }] *)
Definition try_runtime {A} (m : SM S A) (h : string -> SM S A) : SM S A :=
  fun s => match m s with
           | (Throw (RuntimeError msg), s') => h msg s'
           | r => r
           end.

(** One turn of a loop body: fall through to the next turn, or [break]. *)
Inductive ctrl := Continue | Break.

(** [for (; cond(x); x = step(x)) body(x)], the state changed by the body. *)
Fixpoint for_loop {X} (fuel : nat) (cond : X -> bool) (step : X -> X)
    (body : X -> SM S ctrl) (x : X) : SM S unit :=
  match fuel with
  | O => fun s => (Fuel, s)
  | Datatypes.S fuel =>
      if cond x then
        bind (body x) (fun c =>
          match c with
          | Continue => for_loop fuel cond step body (step x)
          | Break => ret tt
          end)
      else ret tt
  end.

(** The same, giving the final value of [x]. *)
Fixpoint for_loop_x {X} (fuel : nat) (cond : X -> bool) (step : X -> X)
    (body : X -> SM S ctrl) (x : X) : SM S X :=
  match fuel with
  | O => fun s => (Fuel, s)
  | Datatypes.S fuel =>
      if cond x then
        bind (body x) (fun c =>
          match c with
          | Continue => for_loop_x fuel cond step body (step x)
          | Break => ret x
          end)
      else ret x
  end.

(** [for (auto& v : l) body(v)] over a sequence that the body does not change. *)
Fixpoint for_each {X} (body : X -> SM S ctrl) (l : list X) : SM S unit :=
  match l with
  | [] => ret tt
  | x :: l => bind (body x) (fun c =>
                match c with
                | Continue => for_each body l
                | Break => ret tt
                end)
  end.
End state_monad.

Notation "'let!' x ':=' m 'in' k" := (bind m (fun x => k))
  (at level 10, x pattern, m at level 100, k at level 200) : quarks_scope.
Notation "'do!' m ';' k" := (bind m (fun _ => k))
  (at level 10, m at level 100, k at level 200) : quarks_scope.

(** ** Machine integers *)

Definition INT_MAX : Z := 2147483647.
Definition INT_MIN : Z := -2147483648.

(** The value an [int] holds after an operation whose exact result is [z]
    (two's complement, what the compiler emits for the program's [int]s). *)
Definition int32 (z : Z) : Z := (z + 2147483648) mod 4294967296 - 2147483648.

Definition in_int32 (z : Z) : Prop := (INT_MIN <= z <= INT_MAX)%Z.

#[export] Instance in_int32_dec z : Decision (in_int32 z).
Proof. unfold in_int32. apply _. Defined.

Lemma int32_id z : in_int32 z -> int32 z = z.
Proof.
  unfold in_int32, INT_MIN, INT_MAX, int32. intros H.
  rewrite Z.mod_small; lia.
Qed.

Lemma int32_range z : in_int32 (int32 z).
Proof.
  unfold in_int32, INT_MIN, INT_MAX, int32.
  pose proof (Z.mod_pos_bound (z + 2147483648) 4294967296). lia.
Qed.

Lemma int32_int32 z : int32 (int32 z) = int32 z.
Proof. apply int32_id, int32_range. Qed.

Lemma int32_add a b : int32 (int32 a + b) = int32 (a + b).
Proof.
  unfold int32. f_equal.
  replace ((a + 2147483648) mod 4294967296 - 2147483648 + b + 2147483648)%Z
    with ((a + 2147483648) mod 4294967296 + b)%Z by lia.
  rewrite Z.add_mod_idemp_l by lia. f_equal. lia.
Qed.

(** ** Bytes and strings

    [std::string] is a sequence of bytes: [string] here.  A C string is read
    up to its first NUL. *)

Definition NUL : ascii := "000"%char.
Definition byte (c : ascii) : Z := Z.of_N (N_of_ascii c).
Definition of_byte (z : Z) : ascii := ascii_of_N (Z.to_N (z mod 256)).

(** The value of a [char] used as a number ([char] is signed here). *)
Definition schar (c : ascii) : Z := if (byte c <? 128)%Z then byte c else (byte c - 256)%Z.

Fixpoint c_str (s : string) : string :=
  match s with
  | EmptyString => EmptyString
  | String c s => if Ascii.eqb c NUL then EmptyString else String c (c_str s)
  end.

Definition peek (s : string) : ascii :=
  match s with EmptyString => NUL | String c _ => c end.
Definition advance (s : string) : string :=
  match s with EmptyString => EmptyString | String _ s => s end.

Fixpoint no_nul (s : string) : bool :=
  match s with
  | EmptyString => true
  | String c s => negb (Ascii.eqb c NUL) && no_nul s
  end.

(** [wild.find("*")] *)
Fixpoint find_char (c : ascii) (s : string) : option nat :=
  match s with
  | EmptyString => None
  | String d s => if Ascii.eqb d c then Some 0 else S <$> find_char c s
  end.

(** [s.substr(0, n)] with [n = std::string::npos] for [None] *)
Fixpoint str_take (n : nat) (s : string) : string :=
  match n, s with
  | S n, String c s => String c (str_take n s)
  | _, _ => EmptyString
  end.
Fixpoint str_drop (n : nat) (s : string) : string :=
  match n, s with
  | S n, String _ s => str_drop n s
  | _, _ => s
  end.
Definition substr0 (s : string) (n : option nat) : string :=
  match n with Some n => str_take n s | None => s end.

(** [key().starts_with(prefix)] *)
Fixpoint starts_with (prefix s : string) : bool :=
  match prefix, s with
  | EmptyString, _ => true
  | String a prefix, String b s => Ascii.eqb a b && starts_with prefix s
  | _, _ => false
  end.

(** [++s[s.length() - 1]]; on an empty string the index is out of range. *)
Fixpoint incr_last (s : string) : option string :=
  match s with
  | EmptyString => None
  | String c EmptyString => Some (String (of_byte (byte c + 1)) EmptyString)
  | String c s => String c <$> incr_last s
  end.

(** [out[out.size() - 1] = c] *)
Fixpoint set_last (c : ascii) (s : string) : option string :=
  match s with
  | EmptyString => None
  | String _ EmptyString => Some (String c EmptyString)
  | String d s => String d <$> set_last c s
  end.

(** [std::to_string] *)
Definition to_string (z : Z) : string := NilZero.string_of_int (Z.to_int z).

(** [std::stoi]: leading blanks, an optional sign, decimal digits; the rest of
    the text is ignored. *)
Definition is_digit (c : ascii) : bool := (48 <=? byte c)%Z && (byte c <=? 57)%Z.
Definition is_space (c : ascii) : bool :=
  (byte c =? 32)%Z || ((9 <=? byte c)%Z && (byte c <=? 13)%Z).

Fixpoint skip_space (s : string) : string :=
  match s with
  | String c s' => if is_space c then skip_space s' else s
  | EmptyString => EmptyString
  end.

Fixpoint digits_value (acc : Z) (s : string) : Z :=
  match s with
  | String c s => if is_digit c then digits_value (acc * 10 + (byte c - 48)) s else acc
  | EmptyString => acc
  end.

Definition stoi (s : string) : outcome Z :=
  let s := skip_space (c_str s) in
  let '(neg, s) := match s with
                   | String "-" s' => (true, s')
                   | String "+" s' => (false, s')
                   | _ => (false, s)
                   end in
  if is_digit (peek s) then
    let v := digits_value 0 s in
    let v := if neg : bool then (- v)%Z else v in
    if decide (in_int32 v) then Ok v else Throw OutOfRange
  else Throw InvalidArgument.

Lemma stoi_outcome s :
  (exists z, stoi s = Ok z /\ in_int32 z) \/
  stoi s = Throw InvalidArgument \/ stoi s = Throw OutOfRange.
Proof.
  unfold stoi. destruct (match skip_space (c_str s) with
    | String "-" s' => (true, s') | String "+" s' => (false, s')
    | _ => (false, skip_space (c_str s)) end) as [neg t].
  destruct (is_digit (peek t)); [|by right; left]. case_decide; [|by right; right]. by left; eexists.
Qed.

(** A double quote, and string literals of the source that hold quotes: in
    [q] below every backquote of the literal stands for a double quote. *)
Definition DQUOTE : ascii := "034"%char.
Fixpoint q (s : string) : string :=
  match s with
  | EmptyString => EmptyString
  | String c s => String (if Ascii.eqb c "`" then DQUOTE else c) (q s)
  end.

(** ** Lists: longest prefix satisfying a test *)

Section while.
Context {A : Type} (f : A -> bool).

Fixpoint take_while (l : list A) : list A :=
  match l with
  | [] => []
  | x :: l => if f x then x :: take_while l else []
  end.

Fixpoint drop_while (l : list A) : list A :=
  match l with
  | [] => []
  | x :: l' => if f x then drop_while l' else l
  end.

Lemma take_drop_while l : take_while l ++ drop_while l = l.
Proof. induction l as [|x l IH]; simpl; [done|]. destruct (f x); simpl; congruence. Qed.

Lemma take_while_all l : Forall (fun x => f x = true) l -> take_while l = l.
Proof. induction 1 as [|x l Hx _ IH]; simpl; [done|]. by rewrite Hx, IH. Qed.

Lemma take_while_app l k :
  Forall (fun x => f x = true) l -> take_while (l ++ k) = l ++ take_while k.
Proof. induction 1 as [|x l Hx _ IH]; simpl; [done|]. by rewrite Hx, IH. Qed.

Lemma take_while_none l : Forall (fun x => f x = false) l -> take_while l = [].
Proof. destruct 1 as [|x l Hx _]; simpl; [done|]. by rewrite Hx. Qed.

Lemma filter_none (l : list A) :
  Forall (fun x => f x = false) l -> filter (fun x => f x = true) l = [].
Proof. induction 1 as [|x l Hx _ IH]; [done|]. by rewrite filter_cons, Hx. Qed.

Lemma filter_every (l : list A) :
  Forall (fun x => f x = true) l -> filter (fun x => f x = true) l = l.
Proof. induction 1 as [|x l Hx _ IH]; [done|]. by rewrite filter_cons, Hx, IH. Qed.
End while.

(** A lifted outcome that is a value *)
Lemma bind_lift_ok {S A B} (o : outcome A) (a : A) (k : A -> SM S B) s :
  o = Ok a -> bind (lift o) k s = k a s.
Proof. by intros ->. Qed.

(** The elements a boolean test keeps. *)
Abbreviation filterb f l := (filter (fun x => f x = true) l).

Lemma filterb_length {X} (f : X -> bool) (l : list X) : length (filterb f l) <= length l.
Proof. apply length_filter. Qed.

(** ** The byte-wise order on strings

    [char_traits<char>::compare] and RocksDB's [BytewiseComparator] both
    compare with [memcmp]: bytes are unsigned. *)

Definition sltb (a b : string) : bool := String.ltb a b.
Definition slt (a b : string) : Prop := sltb a b = true.

Lemma sltb_cons a s b t :
  sltb (String a s) (String b t) =
  ((byte a <? byte b)%Z || ((byte a =? byte b)%Z && sltb s t)).
Proof.
  unfold sltb, String.ltb, byte; simpl. unfold Ascii.compare.
  rewrite <- N2Z.inj_compare.
  destruct (Z.compare_spec (Z.of_N (N_of_ascii a)) (Z.of_N (N_of_ascii b))) as [H|H|H].
  - rewrite H, Z.ltb_irrefl, Z.eqb_refl. by destruct (String.compare s t).
  - by rewrite (proj2 (Z.ltb_lt _ _) H).
  - rewrite (proj2 (Z.ltb_ge _ _)) by lia. by rewrite (proj2 (Z.eqb_neq _ _)) by lia.
Qed.

Lemma sltb_nil_r s : sltb s EmptyString = false.
Proof. by destruct s. Qed.
Lemma sltb_nil_cons a s : sltb EmptyString (String a s) = true.
Proof. done. Qed.

Lemma byte_inj a b : byte a = byte b -> a = b.
Proof.
  unfold byte. intros H%N2Z.inj. rewrite <- (ascii_N_embedding a), <- (ascii_N_embedding b).
  by rewrite H.
Qed.

Lemma byte_range a : (0 <= byte a < 256)%Z.
Proof.
  unfold byte. pose proof (N_ascii_bounded a). lia.
Qed.

Lemma byte_of_byte z : byte (of_byte z) = (z mod 256)%Z.
Proof.
  unfold byte, of_byte.
  pose proof (Z.mod_pos_bound z 256).
  rewrite N_ascii_embedding; lia.
Qed.

Lemma of_byte_byte c : of_byte (byte c) = c.
Proof. apply byte_inj. rewrite byte_of_byte. apply Z.mod_small, byte_range. Qed.

Ltac sltb_cases :=
  repeat match goal with
  | |- context [(byte ?a <? byte ?b)%Z] => destruct (Z.ltb_spec (byte a) (byte b))
  | |- context [(byte ?a =? byte ?b)%Z] => destruct (Z.eqb_spec (byte a) (byte b))
  | H : context [(byte ?a <? byte ?b)%Z] |- _ => destruct (Z.ltb_spec (byte a) (byte b))
  | H : context [(byte ?a =? byte ?b)%Z] |- _ => destruct (Z.eqb_spec (byte a) (byte b))
  end.

Lemma slt_irrefl s : ~ slt s s.
Proof.
  unfold slt. induction s as [|a s IH]; [done|]. rewrite sltb_cons, Z.ltb_irrefl, Z.eqb_refl. done.
Qed.

Lemma slt_trans s t u : slt s t -> slt t u -> slt s u.
Proof.
  unfold slt. revert t u. induction s as [|a s IH]; intros [|b t] [|c u]; try done.
  rewrite !sltb_cons. intros H1 H2.
  sltb_cases; simpl in *; try done; try lia; eauto.
Qed.

Lemma slt_total s t : slt s t \/ s = t \/ slt t s.
Proof.
  unfold slt. revert t. induction s as [|a s IH]; intros [|b t]; try (by auto).
  rewrite !sltb_cons. sltb_cases; simpl; try (by auto); try lia.
  destruct (IH t) as [?|[->|?]]; auto.
  right; left. f_equal. by apply byte_inj.
Qed.

#[export] Instance slt_dec s t : Decision (slt s t).
Proof. unfold slt. apply _. Defined.
#[global] Typeclasses Opaque slt.

Lemma slt_not_ge s t : sltb s t = false -> s = t \/ slt t s.
Proof. intros H. destruct (slt_total s t) as [?|[?|?]]; auto. unfold slt in *. congruence. Qed.

Lemma slt_asym s t : slt s t -> slt t s -> False.
Proof. intros H1 H2. eapply slt_irrefl, slt_trans; eauto. Qed.

(** ** Prefixes and the order *)

Lemma eqb_byte a b : Ascii.eqb a b = (byte a =? byte b)%Z.
Proof.
  destruct (Ascii.eqb_spec a b) as [->|H]; symmetry; [apply Z.eqb_refl|].
  apply Z.eqb_neq. intros E. by apply H, byte_inj.
Qed.

Lemma starts_with_refl s : starts_with s s = true.
Proof. induction s; simpl; [done|]. by rewrite Ascii.eqb_refl. Qed.

Lemma starts_with_app p s : starts_with p (p +:+ s) = true.
Proof. induction p as [|a p IH]; simpl; [done|]. by rewrite Ascii.eqb_refl. Qed.

Lemma starts_with_spec p s : starts_with p s = true <-> exists t, s = p +:+ t.
Proof.
  split; [|intros [t ->]; apply starts_with_app].
  revert s. induction p as [|a p IH]; intros s; [by exists s|].
  destruct s as [|b s]; [done|]. simpl. intros [Ha Hp]%andb_prop.
  apply Ascii.eqb_eq in Ha as ->. destruct (IH _ Hp) as [t ->]. by exists t.
Qed.

(** A string with prefix [p] is not below [p]. *)
Lemma starts_with_not_slt p s : starts_with p s = true -> sltb s p = false.
Proof.
  revert s. induction p as [|a p IH]; intros [|b s]; try done.
  simpl. rewrite eqb_byte, sltb_cons. intros [Ha Hp]%andb_prop.
  rewrite IH by done. sltb_cases; try done; lia.
Qed.

(** The strings with a given prefix are a convex set. *)
Lemma starts_with_convex p a b :
  starts_with p b = true -> sltb a p = false -> slt a b -> starts_with p a = true.
Proof.
  unfold slt. revert a b. induction p as [|c p IH]; intros [|x a] [|y b]; try done.
  simpl. rewrite !eqb_byte, !sltb_cons. intros [H1 H2]%andb_prop H3 H4.
  sltb_cases; simpl in *; try done; try lia; eauto.
Qed.

(** [++s[s.length() - 1]] gives the least string above every extension of
    [s], as long as the last byte is not [0xFF]. *)
Fixpoint last_byte (s : string) : Z :=
  match s with
  | EmptyString => 255
  | String c EmptyString => byte c
  | String _ s => last_byte s
  end.

Lemma incr_last_range p p' s :
  last_byte p <> 255%Z -> incr_last p = Some p' ->
  starts_with p s = negb (sltb s p) && sltb s p'.
Proof.
  revert p' s. induction p as [|c p IH]; intros p' s Hl Hp; [done|].
  destruct p as [|d p].
  - simpl in Hl, Hp. injection Hp as <-. pose proof (byte_range c).
    destruct s as [|x s]; [done|]. simpl. rewrite !sltb_cons, sltb_nil_r, eqb_byte.
    rewrite byte_of_byte, Z.mod_small by lia.
    sltb_cases; simpl; try done; try lia.
    all: repeat match goal with
         | |- context [(?x <? ?y)%Z] => destruct (Z.ltb_spec x y)
         | |- context [(?x =? ?y)%Z] => destruct (Z.eqb_spec x y) end;
         rewrite ?sltb_nil_r; simpl; try done; try lia.
  - change (incr_last (String c (String d p))) with (String c <$> incr_last (String d p)) in Hp.
    destruct (incr_last (String d p)) as [r|] eqn:Er; [|done]. injection Hp as <-.
    change (last_byte (String c (String d p))) with (last_byte (String d p)) in Hl.
    destruct s as [|x s]; [done|].
    change (starts_with (String c (String d p)) (String x s))
      with (Ascii.eqb c x && starts_with (String d p) s).
    rewrite (IH r s Hl eq_refl), !sltb_cons, eqb_byte.
    sltb_cases; simpl; try done; try lia.
Qed.

(** ** Appending strings *)

Lemma sapp_assoc a b c : (a +:+ b) +:+ c = a +:+ (b +:+ c).
Proof. induction a; simpl; congruence. Qed.
Lemma set_last_snoc c d s : set_last c (s +:+ String d EmptyString) = Some (s +:+ String c EmptyString).
Proof. induction s as [|a [|b s] IH]; [done..|]. simpl in *. by rewrite IH. Qed.

Lemma sapp_nil_r a : a +:+ EmptyString = a.
Proof. induction a; simpl; congruence. Qed.

Lemma slength_app a b : String.length (a +:+ b) = String.length a + String.length b.
Proof. induction a; simpl; congruence. Qed.

Lemma str_take_drop n m : str_take n m +:+ str_drop n m = m.
Proof. revert m. induction n as [|n IH]; intros [|c m]; simpl; [done..|by rewrite IH]. Qed.
Lemma str_take_length n m : String.length (str_take n m) = Nat.min n (String.length m).
Proof. revert m. induction n as [|n IH]; intros [|c m]; simpl; [done..|by rewrite IH]. Qed.
Lemma str_drop_length n s : String.length (str_drop n s) = String.length s - n.
Proof. revert s. induction n; intros [|c s]; simpl; auto. Qed.
Lemma str_take_all n s : String.length s <= n -> str_take n s = s.
Proof.
  revert n. induction s as [|c s IH]; intros [|n] H; cbn in *; try done; [lia|]. by rewrite IH by lia.
Qed.
Lemma str_drop_all n s : String.length s <= n -> str_drop n s = EmptyString.
Proof. revert n. induction s as [|c s IH]; intros [|n] H; cbn in *; try done; [lia|]. apply IH. lia. Qed.

Lemma sapp_inj_length a b c d :
  String.length a = String.length c -> a +:+ b = c +:+ d -> a = c /\ b = d.
Proof.
  revert c. induction a as [|x a IH]; intros [|y c]; try done. simpl.
  intros [= Hl] [= -> H]. by destruct (IH _ Hl H) as [-> ->].
Qed.

Definition suffix (t s : string) : Prop := exists u, s = u +:+ t.

Lemma suffix_refl s : suffix s s.
Proof. by exists EmptyString. Qed.

Lemma suffix_cons t c s : suffix t s -> suffix t (String c s).
Proof. intros [u ->]. by exists (String c u). Qed.

Lemma suffix_cons_inv t c s : suffix t (String c s) -> t = String c s \/ suffix t s.
Proof. intros [[|d u] H]; simpl in H; [by left|]. injection H as <- ->. right. by exists u. Qed.

Lemma suffix_app_r t u s : suffix t s -> suffix t (u +:+ s).
Proof. intros [x ->]. exists (u +:+ x). by rewrite sapp_assoc. Qed.

Lemma suffix_length t s : suffix t s -> String.length t <= String.length s.
Proof. intros [u ->]. rewrite slength_app. lia. Qed.

(** Of two suffixes of the same string the shorter is a suffix of the longer. *)
Lemma suffix_shorter t u s :
  suffix t (u +:+ s) -> String.length t <= String.length s -> suffix t s.
Proof.
  revert t. induction u as [|c u IH]; intros t; [done|].
  intros [->|H]%suffix_cons_inv Hl; [|by apply IH].
  simpl in Hl. rewrite slength_app in Hl. lia.
Qed.

Lemma suffix_trans a b c : suffix a b -> suffix b c -> suffix a c.
Proof. intros [u ->] [v ->]. exists (v +:+ u). by rewrite sapp_assoc. Qed.

Lemma c_str_no_nul s : no_nul (c_str s) = true.
Proof.
  induction s as [|c s IH]; simpl; [done|].
  destruct (Ascii.eqb c NUL) eqn:E; simpl; [done|]. by rewrite E, IH.
Qed.

Lemma no_nul_app a b : no_nul (a +:+ b) = no_nul a && no_nul b.
Proof. induction a; simpl; [done|]. by rewrite IHa, andb_assoc. Qed.

Lemma c_str_id s : no_nul s = true -> c_str s = s.
Proof.
  induction s as [|c s IH]; simpl; [done|].
  destruct (Ascii.eqb c NUL); simpl; [done|]. intros H. by rewrite IH.
Qed.

Lemma digits_value_uint d acc :
  digits_value (Zpos acc) (NilEmpty.string_of_uint d) = Zpos (Pos.of_uint_acc d acc).
Proof.
  revert acc. induction d; intros acc; [done|..].
  all: cbn [NilEmpty.string_of_uint digits_value Pos.of_uint_acc].
  all: match goal with |- context [is_digit ?c] => change (is_digit c) with true end.
  all: cbv iota; rewrite <- IHd; f_equal; unfold byte; cbn; lia.
Qed.

Lemma digits_value_uint0 d :
  digits_value 0 (NilEmpty.string_of_uint d) = Z.of_N (Pos.of_uint d).
Proof.
  induction d; [done|..].
  all: cbn [NilEmpty.string_of_uint digits_value Pos.of_uint].
  all: match goal with |- context [is_digit ?c] => change (is_digit c) with true end.
  all: cbv iota; try exact IHd; apply (digits_value_uint d _).
Qed.

Lemma string_of_uint_digit d : is_digit (peek (NilZero.string_of_uint d)) = true /\
  digits_value 0 (NilZero.string_of_uint d) = Z.of_N (Pos.of_uint d).
Proof.
  split; [by destruct d|]. destruct d; [done|apply digits_value_uint0..].
Qed.

Lemma no_nul_uint d : no_nul (NilEmpty.string_of_uint d) = true.
Proof. induction d; simpl; done. Qed.

(** [std::stoi] reads back what [std::to_string] prints. *)
Lemma stoi_to_string z : in_int32 z -> stoi (to_string z) = Ok z.
Proof.
  intros Hz. pose proof (DecimalZ.of_to z) as Hof. unfold to_string, stoi.
  assert (forall d, c_str (NilZero.string_of_uint d) = NilZero.string_of_uint d) as Hc.
  { intros d. apply c_str_id. destruct d; [done|apply no_nul_uint..]. }
  destruct (Z.to_int z) as [d|d]; simpl in Hof; destruct (string_of_uint_digit d) as [Hd Hv].
  - cbn [NilZero.string_of_int]. rewrite Hc.
    assert (skip_space (NilZero.string_of_uint d) = NilZero.string_of_uint d) as -> by by destruct d.
    assert ((match NilZero.string_of_uint d with
             | String "-" s' => (true, s') | String "+" s' => (false, s')
             | _ => (false, NilZero.string_of_uint d) end) = (false, NilZero.string_of_uint d)) as ->
      by by destruct d.
    rewrite Hd, Hv. unfold Z.of_uint in Hof. rewrite Hof. by rewrite decide_True.
  - cbn [NilZero.string_of_int c_str skip_space]. change (Ascii.eqb "-" NUL) with false.
    cbv iota. cbn [skip_space]. change (is_space "-") with false. cbv iota.
    rewrite Hc, Hd, Hv. unfold Z.of_uint in Hof.
    replace (- Z.of_N (Pos.of_uint d))%Z with z by lia. by rewrite decide_True.
Qed.

Lemma c_str_app_nul s t : no_nul s = true -> c_str (s +:+ String NUL t) = s.
Proof.
  induction s as [|c s IH]; simpl; [done|].
  destruct (Ascii.eqb c NUL); simpl; [done|]. intros H. by rewrite IH.
Qed.

Lemma str_drop_app a b : str_drop (String.length a) (a +:+ b) = b.
Proof. induction a; simpl; auto. Qed.

Lemma str_take_app a b : str_take (String.length a) (a +:+ b) = a.
Proof. induction a as [|c a IH]; simpl; [by destruct b|]. by rewrite IH. Qed.

Lemma str_take_app_le i d r : i <= String.length d -> str_take i (d +:+ r) = str_take i d.
Proof.
  revert d. induction i as [|i IH]; intros [|c d] H; cbn in *; try lia; try (by destruct r).
  by rewrite IH by lia.
Qed.
Lemma str_drop_app_le i d r : i <= String.length d -> str_drop i (d +:+ r) = str_drop i d +:+ r.
Proof.
  revert d. induction i as [|i IH]; intros [|c d] H; cbn in *; try done; try lia. apply IH. lia.
Qed.
Lemma str_take_take i j d : str_take i d +:+ str_take j (str_drop i d) = str_take (i + j) d.
Proof.
  revert d. induction i as [|i IH]; intros [|c d]; cbn; try done; [by destruct j|]. by rewrite IH.
Qed.
Lemma str_drop_drop i j d : str_drop j (str_drop i d) = str_drop (i + j) d.
Proof. revert d. induction i as [|i IH]; intros [|c d]; cbn; rewrite ?IH; by try destruct j. Qed.

Lemma sapp_split a b c d : a +:+ b = c +:+ d ->
  (exists t, c = a +:+ t /\ b = t +:+ d) \/ (exists t, a = c +:+ t /\ d = t +:+ b).
Proof.
  revert c. induction a as [|x a IH]; intros [|y c] H; cbn in *.
  - left. by exists EmptyString.
  - left. by exists (String y c).
  - right. by exists (String x a).
  - injection H as <- H. destruct (IH _ H) as [(t & -> & ->)|(t & -> & ->)]; [left|right]; by exists t.
Qed.

(** ** Association lists in order of insertion *)

Section assoc.
Context {A : Type}.

Fixpoint assoc (k : string) (l : list (string * A)) : option A :=
  match l with
  | [] => None
  | (k', v) :: l => if decide (k = k') then Some v else assoc k l
  end.

(** Assign: replace the value of a present key, append a new one. *)
Fixpoint assoc_set (k : string) (v : A) (l : list (string * A)) : list (string * A) :=
  match l with
  | [] => [(k, v)]
  | (k', v') :: l => if decide (k = k') then (k, v) :: l else (k', v') :: assoc_set k v l
  end.

(** [emplace]: a present key keeps its value. *)
Definition assoc_emplace (k : string) (v : A) (l : list (string * A)) : list (string * A) :=
  match assoc k l with Some _ => l | None => l ++ [(k, v)] end.

Lemma assoc_None k l : assoc k l = None <-> k ∉ l.*1.
Proof.
  induction l as [|[k' v'] l IH]; simpl; [by split; [intros _ ?%not_elem_of_nil|]|].
  rewrite not_elem_of_cons, <- IH. case_decide; [split; [done|by intros []]|tauto].
Qed.

Lemma assoc_set_eq k v l : assoc k (assoc_set k v l) = Some v.
Proof.
  induction l as [|[k' v'] l IH]; simpl; [by rewrite decide_True|].
  case_decide; simpl; [by rewrite decide_True|by rewrite decide_False].
Qed.

Lemma assoc_set_ne k k' v l : k <> k' -> assoc k' (assoc_set k v l) = assoc k' l.
Proof.
  intros Hne. induction l as [|[k2 v2] l IH]; simpl; [by rewrite decide_False|].
  destruct (decide (k = k2)) as [<-|]; simpl; [by rewrite !decide_False|]. by rewrite IH.
Qed.

Lemma assoc_set_keys k v l x : x ∈ (assoc_set k v l).*1 <-> x = k \/ x ∈ l.*1.
Proof.
  induction l as [|[k' v'] l IH]; simpl; [by rewrite list_elem_of_singleton, elem_of_nil; tauto|].
  destruct (decide (k = k')) as [<-|Hne]; simpl; rewrite !elem_of_cons; [|rewrite IH]; tauto.
Qed.

Lemma assoc_set_NoDup k v l : NoDup l.*1 -> NoDup (assoc_set k v l).*1.
Proof.
  induction l as [|[k' v'] l IH]; simpl; [intros _; apply NoDup_singleton|].
  rewrite NoDup_cons. intros [Hn Hd].
  destruct (decide (k = k')) as [<-|Hne]; simpl; rewrite NoDup_cons; [done|].
  rewrite assoc_set_keys. split; [|by apply IH]. by intros [|].
Qed.

Lemma assoc_emplace_NoDup k v l : NoDup l.*1 -> NoDup (assoc_emplace k v l).*1.
Proof.
  unfold assoc_emplace. destruct (assoc k l) eqn:E; [done|]. intros H.
  apply assoc_None in E. rewrite fmap_app. apply NoDup_app.
  split_and!; [done| |apply NoDup_singleton]. by intros x Hx ->%list_elem_of_singleton.
Qed.

Lemma assoc_elem k v l : NoDup l.*1 -> assoc k l = Some v <-> (k, v) ∈ l.
Proof.
  induction l as [|[k' v'] l IH]; simpl.
  - intros _. split; [done|by intros ?%not_elem_of_nil].
  - rewrite NoDup_cons. intros [Hn Hd]. rewrite elem_of_cons, <- IH by done.
    case_decide as E; simplify_eq.
    + split; [intros [= ->]; by left|]. intros [[= ->]|Ha]; [done|].
      apply IH in Ha; [|done]. by apply (list_elem_of_fmap_2 fst) in Ha.
    + split; [by right|]. by intros [[= -> ->]|?].
Qed.
End assoc.

(** Decide the equalities of literal keys that [assoc] leaves. *)
Ltac eval_keys :=
  repeat match goal with
  | |- context [decide (?a = ?b)] =>
      (rewrite (decide_True (P := a = b)) by reflexivity) ||
      (rewrite (decide_False (P := a = b)) by discriminate)
  end.
