(* ===== verification/SortedMap.v ===== *)
(** * Maps ordered by their string keys

    [std::map<std::string, A>] and the contents of a RocksDB column family are
    both finite maps traversed in increasing byte order of the keys.  Here
    they are lists of pairs with strictly increasing keys; an iterator of
    [std::map] is a position, [end()] being the length.  The lemmas relate
    lookup, insertion, erasure and [lower_bound], and describe the range of
    keys with a given prefix. *)

From S2P Require Import Prelude.

Abbreviation smap A := (list (string * A)).

Section smap.
Context {A : Type}.
Implicit Types (m : smap A) (k : string) (v : A).

Definition key_lt (x y : string * A) : Prop := slt x.1 y.1.
Definition sm_wf m : Prop := StronglySorted key_lt m.

Fixpoint sm_lookup k m : option A :=
  match m with
  | [] => None
  | (k', v) :: m => if decide (k = k') then Some v else sm_lookup k m
  end.

Fixpoint sm_insert k v m : smap A :=
  match m with
  | [] => [(k, v)]
  | (k', v') :: m' =>
      if sltb k k' then (k, v) :: m
      else if decide (k = k') then (k, v) :: m'
      else (k', v') :: sm_insert k v m'
  end.

Fixpoint sm_delete k m : smap A :=
  match m with
  | [] => []
  | (k', v') :: m' => if decide (k = k') then m' else (k', v') :: sm_delete k m'
  end.

(** [m.lower_bound(k)]: the position of the first key that is not below [k] *)
Definition sm_lower_bound k m : nat := length (take_while (fun x => sltb x.1 k) m).

Lemma sm_wf_cons x m :
  sm_wf (x :: m) <-> sm_wf m /\ Forall (fun y => slt x.1 y.1) m.
Proof. unfold sm_wf. split; [by inversion 1|intros []; by constructor]. Qed.

Lemma sm_lookup_above k m :
  Forall (fun y => slt k y.1) m -> sm_lookup k m = None.
Proof.
  induction 1 as [|[k' v] m Hk _ IH]; simpl; [done|].
  rewrite decide_False; [done|]. intros ->. by eapply slt_irrefl.
Qed.

Lemma sm_nodup m : sm_wf m -> NoDup m.
Proof.
  induction m as [|x m IH]; intros Hwf; [constructor|].
  apply sm_wf_cons in Hwf as [Hwf Hf]. constructor; [|by apply IH].
  intros Hx. rewrite Forall_forall in Hf. by eapply slt_irrefl, (Hf x).
Qed.

Lemma sm_lookup_In k v m : sm_wf m -> sm_lookup k m = Some v <-> (k, v) ∈ m.
Proof.
  induction m as [|[k' v'] m IH]; simpl; intros Hwf.
  - split; [done|]. by intros ?%not_elem_of_nil.
  - apply sm_wf_cons in Hwf as [Hwf Hf]. rewrite elem_of_cons, <- IH by done.
    case_decide as Hk; simplify_eq.
    + rewrite sm_lookup_above by done. split; [intros [= ->]; by left|intros [[= ->]|?]; done].
    + split; [by right|intros [[= -> ->]|?]; done].
Qed.

Lemma sm_lookup_insert_eq k v m : sm_lookup k (sm_insert k v m) = Some v.
Proof.
  induction m as [|[k' v'] m IH]; simpl; [by rewrite decide_True|].
  destruct (sltb k k'); simpl; [by rewrite decide_True|].
  case_decide; simpl; [by rewrite decide_True|]. by rewrite decide_False.
Qed.

Lemma sm_lookup_insert_ne k k' v m :
  k <> k' -> sm_lookup k' (sm_insert k v m) = sm_lookup k' m.
Proof.
  intros Hne. induction m as [|[k2 v2] m IH]; simpl; [by rewrite decide_False|].
  destruct (sltb k k2); simpl; [by rewrite decide_False|].
  case_decide; simplify_eq; simpl; [by rewrite !decide_False|].
  by rewrite IH.
Qed.

Lemma sm_lookup_insert k k' v m :
  sm_lookup k' (sm_insert k v m) = if decide (k = k') then Some v else sm_lookup k' m.
Proof.
  case_decide; simplify_eq; [apply sm_lookup_insert_eq|by apply sm_lookup_insert_ne].
Qed.

Lemma sm_insert_Forall (P : string * A -> Prop) k v m :
  Forall P m -> P (k, v) -> Forall P (sm_insert k v m).
Proof.
  intros Hf Hp. induction Hf as [|[k' v'] m Hx Hf IH]; simpl; [by constructor|].
  destruct (sltb k k'); [by repeat constructor|]. case_decide; by constructor.
Qed.

Lemma sm_insert_wf k v m : sm_wf m -> sm_wf (sm_insert k v m).
Proof.
  induction m as [|[k' v'] m IH]; simpl; intros Hwf; [repeat constructor|].
  pose proof Hwf as [Hwf' Hf]%sm_wf_cons.
  destruct (sltb k k') eqn:Hlt.
  - apply sm_wf_cons. split; [done|]. constructor; [done|].
    eapply Forall_impl; [done|]. intros ??. eapply slt_trans; eauto.
  - case_decide; simplify_eq.
    + by apply sm_wf_cons.
    + apply sm_wf_cons. split; [by apply IH|]. apply sm_insert_Forall; [done|].
      destruct (slt_not_ge _ _ Hlt) as [|]; done.
Qed.

Lemma sm_lookup_delete k k' m :
  sm_wf m -> sm_lookup k' (sm_delete k m) = if decide (k = k') then None else sm_lookup k' m.
Proof.
  induction m as [|[k2 v2] m IH]; simpl; intros Hwf; [by case_decide|].
  apply sm_wf_cons in Hwf as [Hwf Hf].
  destruct (decide (k = k2)) as [->|Hk].
  - destruct (decide (k2 = k')) as [<-|]; [by apply sm_lookup_above|]. by rewrite decide_False.
  - simpl. rewrite IH by done. destruct (decide (k = k')) as [<-|]; [by rewrite decide_False|done].
Qed.

Lemma sm_delete_Forall (P : string * A -> Prop) k m : Forall P m -> Forall P (sm_delete k m).
Proof.
  induction 1 as [|[k' v'] m Hx Hf IH]; simpl; [done|]. case_decide; [done|by constructor].
Qed.

Lemma sm_delete_wf k m : sm_wf m -> sm_wf (sm_delete k m).
Proof.
  induction m as [|[k' v'] m IH]; simpl; intros Hwf; [done|].
  apply sm_wf_cons in Hwf as [Hwf Hf].
  case_decide; [done|]. apply sm_wf_cons. split; [by apply IH|]. by apply sm_delete_Forall.
Qed.

Lemma sm_delete_notin k m : sm_lookup k m = None -> sm_delete k m = m.
Proof.
  induction m as [|[k' v'] m IH]; simpl; [done|]. case_decide; [done|]. intros ?. by rewrite IH.
Qed.

(** Two well-formed maps with the same lookups are the same list. *)
Lemma sm_ext m1 m2 :
  sm_wf m1 -> sm_wf m2 -> (forall k, sm_lookup k m1 = sm_lookup k m2) -> m1 = m2.
Proof.
  revert m2. induction m1 as [|[k1 v1] m1 IH]; intros [|[k2 v2] m2] W1 W2 H; [done| | |].
  - specialize (H k2). simpl in H. by rewrite decide_True in H.
  - specialize (H k1). simpl in H. by rewrite decide_True in H.
  - apply sm_wf_cons in W1 as [W1 F1]. apply sm_wf_cons in W2 as [W2 F2].
    assert (k1 = k2) as <-.
    { destruct (slt_total k1 k2) as [Hl|[?|Hl]]; [exfalso|done|exfalso].
      - specialize (H k1). simpl in H. rewrite decide_True in H by done.
        rewrite decide_False in H by (intros ->; by eapply slt_irrefl).
        rewrite sm_lookup_above in H; [done|].
        eapply Forall_impl; [exact F2|]. intros ??; eapply slt_trans; eauto.
      - specialize (H k2). simpl in H. rewrite (decide_True (P := k2 = k2)) in H by done.
        rewrite decide_False in H by (intros ->; by eapply slt_irrefl).
        rewrite sm_lookup_above in H; [done|].
        eapply Forall_impl; [exact F1|]. intros ??; eapply slt_trans; eauto. }
    pose proof (H k1) as Hk. simpl in Hk. rewrite !decide_True in Hk by done. injection Hk as ->.
    f_equal. apply IH; [done..|]. intros k. specialize (H k). simpl in H.
    case_decide; [|done]. simplify_eq. by rewrite !sm_lookup_above.
Qed.

Lemma sm_insert_delete_eq k v m :
  sm_wf m -> sm_insert k v (sm_delete k m) = sm_insert k v m.
Proof.
  intros Hwf. apply sm_ext.
  - by apply sm_insert_wf, sm_delete_wf.
  - by apply sm_insert_wf.
  - intros k'. rewrite !sm_lookup_insert, sm_lookup_delete by done. by case_decide.
Qed.

Lemma sm_insert_id k v m : sm_wf m -> sm_lookup k m = Some v -> sm_insert k v m = m.
Proof.
  intros Hwf Hk. apply sm_ext; [by apply sm_insert_wf|done|]. intros k'.
  rewrite sm_lookup_insert. case_decide; congruence.
Qed.

(** ** Ranges *)

Lemma sm_above k m : sm_wf m ->
  drop_while (fun x => sltb x.1 k) m = filterb (fun x => negb (sltb x.1 k)) m.
Proof.
  induction m as [|[k' v'] m IH]; intros Hwf; [done|].
  pose proof Hwf as [Hwf' Hf]%sm_wf_cons. rewrite filter_cons. simpl.
  destruct (sltb k' k) eqn:Hlt; simpl; [by apply IH|].
  f_equal. symmetry. apply filter_every. eapply Forall_impl; [exact Hf|].
  intros [k2 v2] H2; simpl in *. apply negb_true_iff. destruct (sltb k2 k) eqn:E; [|done].
  exfalso. destruct (slt_not_ge _ _ Hlt) as [->|Hlt2]; eapply slt_irrefl.
  - eapply slt_trans; [exact H2|exact E].
  - eapply slt_trans; [exact Hlt2|]. eapply slt_trans; [exact H2|exact E].
Qed.

(** The keys a forward scan from [lower_bound(p)] meets while they start
    with [p] are all the keys that start with [p]. *)
Lemma sm_prefix_range p m : sm_wf m ->
  take_while (fun x => starts_with p x.1) (drop_while (fun x => sltb x.1 p) m)
  = filterb (fun x => starts_with p x.1) m.
Proof.
  induction m as [|[k v] m IH]; intros Hwf; [done|].
  pose proof Hwf as [Hwf' Hf]%sm_wf_cons. rewrite filter_cons. simpl.
  destruct (sltb k p) eqn:Hlt.
  - rewrite IH by done. destruct (starts_with p k) eqn:Hp; [|done].
    by rewrite starts_with_not_slt in Hlt.
  - simpl. destruct (starts_with p k) eqn:Hp.
    + f_equal. rewrite <- IH by done. f_equal. rewrite sm_above by done.
      symmetry. apply filter_every. eapply Forall_impl; [exact Hf|].
      intros [k2 v2] H2; simpl in *. apply negb_true_iff. destruct (sltb k2 p) eqn:E; [|done].
      destruct (slt_not_ge _ _ Hlt) as [->|Hl]; exfalso.
      * by eapply slt_asym.
      * eapply slt_asym; [exact Hl|]. by eapply slt_trans.
    + symmetry. apply filter_none. eapply Forall_impl; [exact Hf|].
      intros [k2 v2] H2; simpl in *. destruct (starts_with p k2) eqn:E; [|done].
      by rewrite (starts_with_convex p k k2) in Hp.
Qed.

Lemma sm_filter_wf (f : string * A -> bool) m : sm_wf m -> sm_wf (filterb f m).
Proof.
  induction m as [|x m IH]; intros Hwf; [constructor|].
  pose proof Hwf as [Hwf' Hf]%sm_wf_cons. rewrite filter_cons.
  case_decide; [|by apply IH]. apply sm_wf_cons. split; [by apply IH|].
  rewrite Forall_forall in *. intros y [_ Hy]%list_elem_of_filter. by apply Hf.
Qed.

(** The keys strictly below a bound come first. *)
Lemma sm_below k m : sm_wf m ->
  take_while (fun x => sltb x.1 k) m = filterb (fun x => sltb x.1 k) m.
Proof.
  induction m as [|[k' v'] m IH]; intros Hwf; [done|].
  pose proof Hwf as [Hwf' Hf]%sm_wf_cons. rewrite filter_cons. simpl.
  destruct (sltb k' k) eqn:Hlt; [by rewrite IH|].
  symmetry. apply filter_none. eapply Forall_impl; [exact Hf|].
  intros [k2 v2] H2; simpl in *. destruct (sltb k2 k) eqn:E; [|done].
  destruct (slt_not_ge _ _ Hlt) as [->|Hl]; exfalso.
  - by eapply slt_asym.
  - eapply slt_asym; [exact Hl|]. by eapply slt_trans.
Qed.
End smap.

Create HintDb smap.
#[export] Hint Resolve sm_insert_wf sm_delete_wf sm_filter_wf : smap.
