(* ===== verification/Wildcmp.v ===== *)
(** * Wildcard matching of keys

    [wildcmp] of [src/src/quarks.cpp]: a loop over two C strings that
    backtracks to the last star.  The pointers [wild], [str], [mp] and [cp]
    are the suffixes they point at; [mp] is [None] while it is [NULL].  The
    theorems show that the loop ends, never dereferences [NULL] and decides
    the declarative relation [glob]. *)

From S2P Require Import Prelude.
Open Scope quarks_scope.

(** ** The code *)

(** The first loop: the characters before the first star. [None]: return 0. *)
Fixpoint wild_head (wild str : string) : option (string * string) :=
  match str with
  | EmptyString => Some (wild, str)
  | String c str' =>
      if Ascii.eqb c NUL || Ascii.eqb (peek wild) "*" then Some (wild, str)
      else if negb (Ascii.eqb (peek wild) c) && negb (Ascii.eqb (peek wild) "?") then None
      else wild_head (advance wild) str'
  end.

(** The last loop, over the stars left in the pattern, and the final [return]:
    1 at the end of the pattern, 0 before it. *)
Fixpoint wild_tail (wild : string) : Z :=
  match wild with
  | EmptyString => 1
  | String c wild' =>
      if Ascii.eqb c "*" then wild_tail wild'
      else if Ascii.eqb c NUL then 1 else 0
  end.

(** The second loop, one turn per unit of [fuel]. *)
Fixpoint wild_loop (fuel : nat) (wild str : string) (mp : option string) (cp : string)
    : outcome Z :=
  match fuel with
  | O => Fuel
  | S fuel =>
      if Ascii.eqb (peek str) NUL then Ok (wild_tail wild)
      else if Ascii.eqb (peek wild) "*" then
        let wild := advance wild in
        if Ascii.eqb (peek wild) NUL then Ok 1%Z
        else wild_loop fuel wild str (Some wild) (advance str)
      else if Ascii.eqb (peek wild) (peek str) || Ascii.eqb (peek wild) "?" then
        wild_loop fuel (advance wild) (advance str) mp cp
      else
        match mp with
        | None => Undef
        | Some m => wild_loop fuel m cp mp (advance cp)
        end
  end.

Definition wild_fuel (wild str : string) : nat :=
  S (String.length str) * S (String.length wild) + String.length wild + 2.

Definition wildcmp (wild str : string) : outcome Z :=
  match wild_head wild str with
  | None => Ok 0%Z
  | Some (w, s) => wild_loop (wild_fuel w s) w s None EmptyString
  end.

(** The test [wildcmp(wild.c_str(), key.c_str())] of the scanning loops. *)
Definition wild_match (wild key : string) : bool :=
  match wildcmp (c_str wild) (c_str key) with
  | Ok r => negb (r =? 0)%Z
  | _ => false
  end.

(** ** What it means for a pattern to match *)

Inductive glob : string -> string -> Prop :=
  | glob_nil : glob EmptyString EmptyString
  | glob_char c w s : c <> "*"%char -> glob w s -> glob (String c w) (String c s)
  | glob_any d w s : glob w s -> glob (String "?" w) (String d s)
  | glob_star w t s : suffix t s -> glob w t -> glob (String "*" w) s.

(** Star-free patterns match character by character. *)
Inductive segment : string -> string -> Prop :=
  | segment_nil : segment EmptyString EmptyString
  | segment_cons c d w s :
      c <> "*"%char -> c = d \/ c = "?"%char -> segment w s ->
      segment (String c w) (String d s).

Lemma segment_length w s : segment w s -> String.length w = String.length s.
Proof. induction 1; simpl; congruence. Qed.

Lemma segment_snoc w s c d :
  segment w s -> c <> "*"%char -> c = d \/ c = "?"%char ->
  segment (w +:+ String c EmptyString) (s +:+ String d EmptyString).
Proof.
  induction 1; intros; simpl; [constructor; [done..|constructor]|constructor; auto].
Qed.

Lemma glob_cons_inv c w d s :
  c <> "*"%char -> glob (String c w) (String d s) <-> (c = d \/ c = "?"%char) /\ glob w s.
Proof.
  intros Hc. split; [inversion 1; simplify_eq; eauto|].
  intros [[->| ->] H]; by constructor.
Qed.

Lemma glob_segment seg u w s : segment seg u -> glob (seg +:+ w) (u +:+ s) <-> glob w s.
Proof.
  induction 1 as [|c d seg u Hc Hcd _ IH]; [done|]. simpl.
  rewrite glob_cons_inv, IH by done. tauto.
Qed.

(** A match of [seg ++ w] splits where the segment ends. *)
Lemma glob_segment_inv seg u w t :
  segment seg u -> glob (seg +:+ w) t ->
  exists u' t', t = u' +:+ t' /\ String.length u' = String.length seg /\ glob w t'.
Proof.
  intros Hs. revert t. induction Hs as [|c d seg u Hc Hcd _ IH]; intros t Hg.
  - by exists EmptyString, t.
  - simpl in Hg. destruct t as [|x t]; [inversion Hg; simplify_eq|].
    apply glob_cons_inv in Hg as [_ Hg]; [|done].
    destruct (IH _ Hg) as (u' & t' & -> & Hl & Ht).
    exists (String x u'), t'. simpl. auto.
Qed.

Lemma glob_star_inv w s : glob (String "*" w) s <-> exists t, suffix t s /\ glob w t.
Proof.
  split; [inversion 1; simplify_eq; eauto|]. intros (t & ? & ?). by econstructor.
Qed.

(** The empty string is matched by stars only. *)
Lemma wild_tail_glob w : no_nul w = true ->
  (wild_tail w = 1%Z <-> glob w EmptyString) /\ (wild_tail w = 0%Z \/ wild_tail w = 1%Z).
Proof.
  induction w as [|c w IH]; simpl; [intros _; split; [|by right]; split; [constructor|done]|].
  intros [Hc Hw]%andb_prop. apply IH in Hw as [IH1 IH2].
  destruct (Ascii.eqb_spec c "*") as [->|Hs].
  - split; [|done]. rewrite IH1, glob_star_inv. split; [eauto using suffix_refl|].
    intros (t & Ht%suffix_length & Hg). destruct t; [done|simpl in Ht; lia].
  - apply negb_true_iff in Hc. rewrite Hc. split; [|by left].
    split; [done|]. intros H; inversion H; simplify_eq.
Qed.

Lemma peek_nul s : no_nul s = true -> Ascii.eqb (peek s) NUL = true <-> s = EmptyString.
Proof.
  destruct s as [|c s]; simpl; [by split|]. intros [Hc _]%andb_prop.
  split; [|done]. intros E. by rewrite E in Hc.
Qed.

Lemma no_nul_advance s : no_nul s = true -> no_nul (advance s) = true.
Proof. destruct s; simpl; [done|]. by intros [_ ?]%andb_prop. Qed.

(** ** The loop invariant

    [b] is the string the current attempt started at: the segment read from
    [mp] so far matches the part of [b] before [str], and [cp] is [b] less its
    first character. *)

Definition wild_inv (wild str mp b : string) : Prop :=
  exists seg u, mp = seg +:+ wild /\ b = u +:+ str /\ segment seg u.

Lemma wild_inv_start w s : wild_inv w s w s.
Proof. exists EmptyString, EmptyString. repeat split. constructor. Qed.

Lemma wild_inv_step c w d s mp b :
  wild_inv (String c w) (String d s) mp b -> c <> "*"%char -> c = d \/ c = "?"%char ->
  wild_inv w s mp b.
Proof.
  intros (seg & u & -> & -> & Hs) Hc Hcd.
  exists (seg +:+ String c EmptyString), (u +:+ String d EmptyString).
  rewrite !sapp_assoc. repeat split. by apply segment_snoc.
Qed.

(** A new star forgets the older one without losing a match. *)
Lemma glob_restart wild str mp b :
  wild_inv (String "*" wild) str mp b ->
  glob (String "*" mp) b <-> glob (String "*" wild) str.
Proof.
  intros (seg & u & -> & -> & Hs). rewrite !glob_star_inv. split.
  - intros (t & Ht & Hg).
    destruct (glob_segment_inv _ _ _ _ Hs Hg) as (u' & t' & -> & Hl & Hg').
    apply glob_star_inv in Hg' as (x & Hx & Hg'). exists x. split; [|done].
    eapply suffix_shorter; [eapply suffix_trans; [exact Hx|]|].
    + eapply suffix_trans; [by exists u'|exact Ht].
    + apply suffix_length in Hx, Ht. apply segment_length in Hs.
      rewrite !slength_app in Ht. lia.
  - intros (t & Ht & Hg). exists (u +:+ str). split; [apply suffix_refl|].
    apply glob_segment; [done|]. by econstructor.
Qed.

(** At the end of the text only the current attempt can still succeed. *)
Lemma glob_at_end wild mp b :
  wild_inv wild EmptyString mp b -> glob (String "*" mp) b <-> glob wild EmptyString.
Proof.
  intros (seg & u & -> & -> & Hs). rewrite sapp_nil_r, glob_star_inv. split.
  - intros (t & Ht & Hg).
    destruct (glob_segment_inv _ _ _ _ Hs Hg) as (u' & t' & -> & Hl & Hg').
    apply suffix_length in Ht. apply segment_length in Hs.
    rewrite slength_app in Ht. destruct t' as [|c t']; [done|]. simpl in Ht. lia.
  - intros Hg. exists u. split; [apply suffix_refl|].
    rewrite <- (sapp_nil_r u). by apply glob_segment.
Qed.

(** After a mismatch the next attempt starts one character later. *)
Lemma glob_retry wild str mp b :
  wild_inv wild str mp b -> ~ glob wild str -> b <> EmptyString ->
  glob (String "*" mp) b <-> glob (String "*" mp) (advance b).
Proof.
  intros (seg & u & -> & Hb & Hs) Hno Hne. rewrite !glob_star_inv.
  destruct b as [|c b]; [done|]. simpl. split.
  - intros (t & [->|Ht]%suffix_cons_inv & Hg); [|eauto].
    rewrite Hb in Hg. by apply glob_segment in Hg.
  - intros (t & Ht & Hg). eauto using suffix_cons.
Qed.

Lemma glob_mismatch wild str :
  peek wild <> "*"%char -> peek wild <> peek str -> peek wild <> "?"%char ->
  str <> EmptyString -> ~ glob wild str.
Proof. destruct wild, str; simpl; intros; inversion 1; simplify_eq. Qed.

(** A potential that every turn of the second loop decreases. *)
Definition wild_potential (W : nat) (wild cp : string) : nat :=
  String.length cp * S W + String.length wild.

Lemma wild_loop_correct fuel wild str mp b :
  no_nul wild = true -> no_nul str = true -> no_nul mp = true -> no_nul b = true ->
  wild_inv wild str mp b ->
  wild_potential (String.length mp) wild (advance b) + 1 < fuel ->
  exists r, wild_loop fuel wild str (Some mp) (advance b) = Ok r /\ (r = 0%Z \/ r = 1%Z) /\
            (r = 1%Z <-> glob (String "*" mp) b).
Proof.
  revert wild str mp b. induction fuel as [|fuel IH]; [lia|].
  intros wild str mp b Nw Ns Nm Nb Hinv Hf. simpl.
  destruct (Ascii.eqb (peek str) NUL) eqn:Es.
  { apply peek_nul in Es as ->; [|done]. destruct (wild_tail_glob wild Nw) as [H1 H2].
    eexists; split; [done|]. split; [done|]. by rewrite H1, (glob_at_end wild mp b). }
  destruct str as [|d str]; [done|]. simpl.
  destruct (Ascii.eqb_spec (peek wild) "*") as [Hstar|Hstar].
  { destruct wild as [|c wild]; [done|]. simpl in Hstar. subst c. simpl in *.
    setoid_rewrite (glob_restart _ _ _ _ Hinv).
    destruct (Ascii.eqb (peek wild) NUL) eqn:Ew.
    { apply peek_nul in Ew as ->; [|done]. exists 1%Z. split_and!; [done|by right|].
      split; [|done]. intros _. econstructor; [|constructor].
      exists (String d str). by rewrite sapp_nil_r. }
    apply (IH wild (String d str) wild (String d str)); [done..|apply wild_inv_start|].
    destruct Hinv as (seg & u & -> & -> & Hs). apply segment_length in Hs.
    unfold wild_potential in *. rewrite ?slength_app in *. simpl in *.
    assert (String.length str <= String.length (advance (u +:+ String d str))).
    { destruct u; simpl; [done|]. rewrite slength_app. simpl. lia. }
    nia. }
  destruct (Ascii.eqb (peek wild) d || Ascii.eqb (peek wild) "?") eqn:Em.
  { destruct wild as [|c wild].
    { simpl in *. apply andb_prop in Ns as [Ns _]. apply negb_true_iff in Ns.
      change (Ascii.eqb NUL "?") with false in Em.
      rewrite orb_false_r in Em. apply Ascii.eqb_eq in Em as <-. done. }
    simpl in *. apply andb_prop in Nw as [_ Nw]. apply andb_prop in Ns as [_ Ns].
    apply IH; [done..| |].
    - eapply wild_inv_step; [done|done|].
      apply orb_prop in Em as [E%Ascii.eqb_eq|E%Ascii.eqb_eq]; auto.
    - unfold wild_potential in *. simpl in *. lia. }
  apply orb_false_elim in Em as [Em1 Em2].
  assert (~ glob wild (String d str)) as Hno.
  { apply glob_mismatch; [done| | |done]; intros E; rewrite E in *.
    - by rewrite Ascii.eqb_refl in Em1.
    - done. }
  assert (b <> EmptyString) as Hb.
  { destruct Hinv as (? & [|] & _ & -> & _); done. }
  setoid_rewrite (glob_retry _ _ _ _ Hinv Hno Hb).
  destruct b as [|c b]; [done|]. simpl in *. apply andb_prop in Nb as [_ Nb].
  destruct b as [|c' b].
  - destruct fuel as [|fuel]; [unfold wild_potential in *; lia|]. simpl.
    destruct (wild_tail_glob mp Nm) as [H1 H2].
    eexists; split; [done|]. split; [done|]. rewrite H1. symmetry.
    apply glob_at_end, wild_inv_start.
  - apply IH; [done..|apply wild_inv_start|].
    unfold wild_potential in *. simpl in *. lia.
Qed.

(** Before the first star there is nothing to backtrack to. *)
Lemma wild_head_correct wild str :
  no_nul wild = true -> no_nul str = true ->
  match wild_head wild str with
  | None => ~ glob wild str
  | Some (w, s) =>
      no_nul w = true /\ no_nul s = true /\ (glob wild str <-> glob w s) /\
      (s = EmptyString \/ peek w = "*"%char)
  end.
Proof.
  revert wild. induction str as [|d str IH]; intros wild Nw Ns; simpl in *; [by auto|].
  pose proof Ns as [Hd%negb_true_iff Ns']%andb_prop. rewrite Hd. simpl.
  destruct (Ascii.eqb_spec (peek wild) "*") as [Hs|Hs]; [by auto|].
  destruct (Ascii.eqb_spec (peek wild) d) as [Hm|Hm]; simpl.
  - destruct wild as [|c wild]; simpl in *; [by subst|]. subst c.
    specialize (IH wild (proj2 (andb_prop _ _ Nw)) Ns').
    destruct (wild_head wild str) as [[w s]|].
    + destruct IH as (?&?&IH&?). split_and!; auto. rewrite glob_cons_inv, IH by done. tauto.
    + rewrite glob_cons_inv by done. tauto.
  - destruct (Ascii.eqb_spec (peek wild) "?") as [Hq|Hq]; simpl; [|by apply glob_mismatch].
    destruct wild as [|c wild]; simpl in *; [done|]. subst c.
    specialize (IH wild (proj2 (andb_prop _ _ Nw)) Ns').
    destruct (wild_head wild str) as [[w s]|].
    + destruct IH as (?&?&IH&?). split_and!; auto. rewrite glob_cons_inv, IH by done. tauto.
    + rewrite glob_cons_inv by done. tauto.
Qed.

Lemma wildcmp_glob wild str :
  no_nul wild = true -> no_nul str = true ->
  exists r, wildcmp wild str = Ok r /\ (r = 0%Z \/ r = 1%Z) /\ (r = 1%Z <-> glob wild str).
Proof.
  intros Nw Ns. unfold wildcmp. pose proof (wild_head_correct wild str Nw Ns) as H.
  destruct (wild_head wild str) as [[w s]|]; [|exists 0%Z; split_and!; [done|by left|done]].
  destruct H as (Hw & Hs & Hg & Hor). setoid_rewrite Hg. clear Hg.
  assert (exists n, wild_fuel w s = S n /\
            String.length s * S (String.length w) + String.length w < n) as (n & -> & Hn).
  { exists (S (String.length s) * S (String.length w) + String.length w + 1).
    unfold wild_fuel. split; lia. }
  simpl. destruct (Ascii.eqb (peek s) NUL) eqn:Es.
  { apply peek_nul in Es as ->; [|done]. destruct (wild_tail_glob w Hw). eauto. }
  destruct Hor as [->|Hstar]; [done|]. rewrite Hstar. change (Ascii.eqb "*" "*") with true. simpl.
  destruct w as [|c w]; [done|]. simpl in Hstar |- *. subst c. simpl in Hw.
  destruct (Ascii.eqb (peek w) NUL) eqn:Ew.
  { apply peek_nul in Ew as ->; [|done]. exists 1%Z. split_and!; [done|by right|].
    split; [|done]. intros _. econstructor; [|constructor]. exists s. by rewrite sapp_nil_r. }
  apply wild_loop_correct; [done..|apply wild_inv_start|].
  unfold wild_potential. destruct s; simpl in *; lia.
Qed.

(** ** Properties *)

Lemma wild_match_glob wild key :
  wild_match wild key = true <-> glob (c_str wild) (c_str key).
Proof.
  destruct (wildcmp_glob (c_str wild) (c_str key)) as (r & Hr & H01 & Hg);
    [apply c_str_no_nul..|].
  unfold wild_match. rewrite Hr, <- Hg. by destruct H01 as [->| ->].
Qed.

(** C1: [wildcmp] ends on every pair of C strings, never dereferences a null
    pointer, and returns 1 exactly when the pattern matches: [?] stands for
    one character, a star for any run of characters. *)
Theorem wildcmp_correct (wild key : string) :
  exists r, wildcmp (c_str wild) (c_str key) = Ok r /\
            r = (if wild_match wild key then 1 else 0)%Z /\
            (wild_match wild key = true <-> glob (c_str wild) (c_str key)).
Proof.
  destruct (wildcmp_glob (c_str wild) (c_str key)) as (r & Hr & H01 & Hg);
    [apply c_str_no_nul..|].
  exists r. unfold wild_match. rewrite Hr, <- Hg. destruct H01 as [->| ->]; by split_and!.
Qed.

(** The part of the pattern before its first star is a literal prefix of
    every key it matches, unless it holds a [?]. *)
Lemma glob_literal_prefix p w s :
  no_nul p = true -> find_char "*" p = None -> find_char "?" p = None ->
  glob (p +:+ w) s -> starts_with p s = true.
Proof.
  revert s. induction p as [|c p IH]; intros s Np Hs Hq Hg; [done|]. simpl in *.
  destruct (Ascii.eqb_spec c "*") as [|Hc]; [done|]. destruct (find_char "*" p); [done|].
  destruct (Ascii.eqb_spec c "?") as [|Hc']; [done|]. destruct (find_char "?" p); [done|].
  destruct s as [|d s]; [inversion Hg; simplify_eq|].
  apply glob_cons_inv in Hg as [[->|] Hg]; [|done..].
  rewrite Ascii.eqb_refl. apply IH; auto. by apply andb_prop in Np as [_ ?].
Qed.
