(* ===== verification/Json.v ===== *)
(** * JSON values, parser and printer

    The part of [src/third-party/crow/include/crow/json.h] that the core
    stands on: [rvalue] (what [load] returns, read with accessors that throw),
    [wvalue] (what handlers build), the recursive-descent parser, string
    escapes and the printer [dump].

    An [rvalue] is [None] when its error bit is set.  A string holds the raw
    text of its literal and [s()] decodes it (the code decodes in place on the
    first call); a member's key is decoded by the parser.  Members of an
    object keep the order of the text: that [has] and the subscript sort them by
    key in place, once, is left out.  It decides which of two members with the
    same key is found (here the first one), and the order in which members are
    visited after a lookup, nothing else.  A
    wvalue object is an [unordered_map]: its members are listed in the order
    of insertion and printed in the order [hash_order] gives.

    Numbers: the parser keeps the text of a number; conversions to [double]
    and [int64_t] are [boost::lexical_cast], and doubles themselves are the
    platform's.  They are the operations of the class [Platform]. *)

From S2P Require Import Prelude.
Open Scope quarks_scope.
#[local] Set Warnings "-register-all".

Class Platform := {
  double : Type;
  (** [boost::lexical_cast]; [None]: it throws [bad_lexical_cast] *)
  lexical_cast_double : string -> option double;
  lexical_cast_int64 : string -> option Z;
  (** [(double) n] *)
  double_of_int : Z -> double;
  (** [(int) d] *)
  int_of_double : double -> Z;
  double_eqb : double -> double -> bool;
  (** [sprintf("%0.10g", d)] *)
  printf_g : double -> string;
  (** the order in which an [unordered_map] filled with these keys is traversed *)
  hash_order : list string -> list string;
  hash_order_perm keys : Permutation (hash_order keys) keys
}.

(** ** Values *)

Inductive json :=
  | JNull
  | JFalse
  | JTrue
  | JNum (text : string)
  | JStr (raw : string)
  | JList (l : list json)
  | JObj (ms : list (string * json)).

(** [crow::json::rvalue]; [None] when the error bit is set *)
Definition rvalue : Type := option json.

Inductive jtype := TNull | TFalse | TTrue | TNumber | TString | TList | TObject.

#[export] Instance jtype_eq_dec : EqDecision jtype.
Proof. solve_decision. Defined.

Definition type_of (j : json) : jtype :=
  match j with
  | JNull => TNull | JFalse => TFalse | JTrue => TTrue | JNum _ => TNumber
  | JStr _ => TString | JList _ => TList | JObj _ => TObject
  end.

(** [get_type_str] *)
Definition get_type_str (t : jtype) : string :=
  match t with
  | TNumber => "Number" | TFalse => "False" | TTrue => "True" | TList => "List"
  | TString => "String" | TObject => "Object" | _ => "Unknown"
  end.

(** ** Lexing *)

Definition BACKSLASH : ascii := "092"%char.

(** [ws_skip] *)
Fixpoint ws_skip (data : string) : string :=
  match data with
  | String c rest =>
      if (byte c =? 32)%Z || (byte c =? 9)%Z || (byte c =? 13)%Z || (byte c =? 10)%Z
      then ws_skip rest else data
  | EmptyString => data
  end.

Definition is_hex (c : ascii) : bool :=
  ((48 <=? byte c) && (byte c <=? 57))%Z || ((97 <=? byte c) && (byte c <=? 102))%Z ||
  ((65 <=? byte c) && (byte c <=? 70))%Z.

Definition is_escape (c : ascii) : bool :=
  Ascii.eqb c DQUOTE || Ascii.eqb c BACKSLASH || Ascii.eqb c "/" || Ascii.eqb c "b" ||
  Ascii.eqb c "f" || Ascii.eqb c "n" || Ascii.eqb c "r" || Ascii.eqb c "t".

(** The loop of [decode_string] after the opening quote: the raw text and what
    follows the closing quote. *)
Fixpoint string_body (data : string) : option (string * string) :=
  match data with
  | EmptyString => None
  | String c rest =>
      if Ascii.eqb c DQUOTE then Some (EmptyString, rest)
      else if Ascii.eqb c NUL then None
      else if Ascii.eqb c BACKSLASH then
        match rest with
        | String e rest =>
            if Ascii.eqb e "u" then
              match rest with
              | String h1 (String h2 (String h3 (String h4 rest))) =>
                  if is_hex h1 && is_hex h2 && is_hex h3 && is_hex h4 then
                    (fun p => (String c (String e (String h1 (String h2 (String h3
                                (String h4 p.1))))), p.2)) <$> string_body rest
                  else None
              | _ => None
              end
            else if is_escape e then
              (fun p => (String c (String e p.1), p.2)) <$> string_body rest
            else None
        | EmptyString => None
        end
      else (fun p => (String c p.1, p.2)) <$> string_body rest
  end.

Definition from_hex (c : ascii) : Z :=
  if (97 <=? byte c)%Z then byte c - 97 + 10
  else if (65 <=? byte c)%Z then byte c - 65 + 10
  else byte c - 48.

Definition utf8 (code : Z) : string :=
  if (0x800 <=? code)%Z then
    String (of_byte (Z.lor 0xE0 (Z.shiftr code 12)))
      (String (of_byte (Z.lor 0x80 (Z.land (Z.shiftr code 6) 0x3F)))
        (String (of_byte (Z.lor 0x80 (Z.land code 0x3F))) EmptyString))
  else if (0x80 <=? code)%Z then
    String (of_byte (Z.lor 0xC0 (Z.shiftr code 6)))
      (String (of_byte (Z.lor 0x80 (Z.land code 0x3F))) EmptyString)
  else String (of_byte code) EmptyString.

Definition unescape_char (e : ascii) : string :=
  if Ascii.eqb e DQUOTE then String DQUOTE EmptyString
  else if Ascii.eqb e BACKSLASH then String BACKSLASH EmptyString
  else if Ascii.eqb e "/" then "/"
  else if Ascii.eqb e "b" then String "008" EmptyString
  else if Ascii.eqb e "f" then String "012" EmptyString
  else if Ascii.eqb e "n" then String "010" EmptyString
  else if Ascii.eqb e "r" then String "013" EmptyString
  else if Ascii.eqb e "t" then String "009" EmptyString
  else EmptyString.

(** [rvalue::unescape]: the raw text of a string literal decoded. *)
Fixpoint unescape (raw : string) : string :=
  match raw with
  | EmptyString => EmptyString
  | String c rest =>
      if Ascii.eqb c BACKSLASH then
        match rest with
        | EmptyString => EmptyString
        | String e rest =>
            if Ascii.eqb e "u" then
              match rest with
              | String h1 (String h2 (String h3 (String h4 rest))) =>
                  utf8 (Z.shiftl (from_hex h1) 12 + Z.shiftl (from_hex h2) 8 +
                        Z.shiftl (from_hex h3) 4 + from_hex h4) +:+ unescape rest
              | _ => EmptyString
              end
            else unescape_char e +:+ unescape rest
        end
      else String c (unescape rest)
  end.

(** [decode_string]: the opening quote, then the loop; the raw text and the rest. *)
Definition decode_string (data : string) : option (string * string) :=
  match data with
  | String c rest => if Ascii.eqb c DQUOTE then string_body rest else None
  | EmptyString => None
  end.

Inductive nstate :=
  | Minus | AfterMinus | ZeroFirst | Digits | DigitsAfterPoints | E | DigitsAfterE | Invalid.

#[export] Instance nstate_eq_dec : EqDecision nstate.
Proof. solve_decision. Defined.

(** The transition tables of [decode_number], one per character class. *)
Definition next_zero (s : nstate) : nstate :=
  match s with
  | Minus => ZeroFirst | AfterMinus => ZeroFirst | ZeroFirst => Invalid | Digits => Digits
  | DigitsAfterPoints => DigitsAfterPoints | E => DigitsAfterE | DigitsAfterE => DigitsAfterE
  | Invalid => Invalid
  end.
Definition next_digit (s : nstate) : nstate :=
  match s with
  | Minus => Digits | AfterMinus => Digits | ZeroFirst => Invalid | Digits => Digits
  | DigitsAfterPoints => DigitsAfterPoints | E => DigitsAfterE | DigitsAfterE => DigitsAfterE
  | Invalid => Invalid
  end.
Definition next_point (s : nstate) : nstate :=
  match s with ZeroFirst | Digits => DigitsAfterPoints | _ => Invalid end.
Definition next_minus (s : nstate) : nstate :=
  match s with Minus => AfterMinus | E => DigitsAfterE | _ => Invalid end.
Definition next_plus (s : nstate) : nstate :=
  match s with E => DigitsAfterE | _ => Invalid end.
Definition next_e (s : nstate) : nstate :=
  match s with Digits | DigitsAfterPoints => E | _ => Invalid end.

Definition number_ends (s : nstate) : bool :=
  match s with ZeroFirst | Digits | DigitsAfterPoints | DigitsAfterE => true | _ => false end.

(** The next state on a character that may occur in a number. *)
Definition number_step (s : nstate) (c : ascii) : option nstate :=
  if Ascii.eqb c "0" then Some (next_zero s)
  else if is_digit c then Some (next_digit s)
  else if Ascii.eqb c "." then Some (next_point s)
  else if Ascii.eqb c "-" then Some (next_minus s)
  else if Ascii.eqb c "+" then Some (next_plus s)
  else if Ascii.eqb c "e" || Ascii.eqb c "E" then Some (next_e s)
  else None.

(** The loop of [decode_number]; [run] is set inside the inner loop that skips
    the digits after a digit 1 to 9.  The result is the text of the number. *)
Fixpoint number_loop (s : nstate) (run : bool) (data : string) : option (string * string) :=
  if decide (s = Invalid) then None
  else match data with
       | EmptyString => if number_ends s then Some (EmptyString, EmptyString) else None
       | String c rest =>
           if run && is_digit c then (fun p => (String c p.1, p.2)) <$> number_loop s true rest
           else match number_step s c with
                | Some s' =>
                    (fun p => (String c p.1, p.2)) <$>
                      number_loop s' (is_digit c && negb (Ascii.eqb c "0")) rest
                | None => if number_ends s then Some (EmptyString, data) else None
                end
       end.

Definition decode_number (data : string) : option (string * string) :=
  number_loop Minus false data.

(** ** The parser *)

Inductive pres (A : Type) :=
  | POk (a : A) (rest : string)
  | PErr
  | PFuel.
Arguments POk {A} a rest.
Arguments PErr {A}.
Arguments PFuel {A}.

Definition pbind {A B} (m : pres A) (k : A -> string -> pres B) : pres B :=
  match m with POk a rest => k a rest | PErr => PErr | PFuel => PFuel end.

(** [consume(c)] *)
Definition consume (c : ascii) (data : string) : pres unit :=
  if Ascii.eqb (peek data) c then POk tt (advance data) else PErr.

Definition literal (text : string) (j : json) (data : string) : pres json :=
  if starts_with text data then
    POk j (str_drop (String.length text) data)
  else PErr.

(** [decode_value], and the loops of [decode_list] and [decode_object] *)
Fixpoint decode_value (fuel : nat) (data : string) : pres json :=
  match fuel with
  | O => PFuel
  | S fuel =>
      let c := peek data in
      if Ascii.eqb c "[" then
        let data := ws_skip (advance data) in
        if Ascii.eqb (peek data) "]" then POk (JList []) (advance data)
        else pbind (list_items fuel data) (fun l rest => POk (JList l) rest)
      else if Ascii.eqb c "{" then
        let data := ws_skip (advance data) in
        if Ascii.eqb (peek data) "}" then POk (JObj []) (advance data)
        else pbind (object_members fuel data) (fun l rest => POk (JObj l) rest)
      else if Ascii.eqb c DQUOTE then
        match decode_string data with
        | Some (s, rest) => POk (JStr s) rest
        | None => PErr
        end
      else if Ascii.eqb c "t" then literal "true" JTrue data
      else if Ascii.eqb c "f" then literal "false" JFalse data
      else if Ascii.eqb c "n" then literal "null" JNull data
      else match decode_number data with
           | Some (text, rest) => POk (JNum text) rest
           | None => PErr
           end
  end
with list_items (fuel : nat) (data : string) : pres (list json) :=
  match fuel with
  | O => PFuel
  | S fuel =>
      pbind (decode_value fuel data) (fun v rest =>
        let rest := ws_skip rest in
        if Ascii.eqb (peek rest) "]" then POk [v] (advance rest)
        else pbind (consume "," rest) (fun _ rest =>
          pbind (list_items fuel (ws_skip rest)) (fun l rest => POk (v :: l) rest)))
  end
with object_members (fuel : nat) (data : string) : pres (list (string * json)) :=
  match fuel with
  | O => PFuel
  | S fuel =>
      match decode_string data with
      | None => PErr
      | Some (key, rest) =>
          pbind (consume ":" (ws_skip rest)) (fun _ rest =>
            pbind (decode_value fuel (ws_skip rest)) (fun v rest =>
              let rest := ws_skip rest in
              if Ascii.eqb (peek rest) "}" then POk [(unescape key, v)] (advance rest)
              else pbind (consume "," rest) (fun _ rest =>
                pbind (object_members fuel (ws_skip rest)) (fun l rest =>
                  POk ((unescape key, v) :: l) rest))))
      end
  end.

(** [Parser::parse]: one value, then nothing but blanks before the NUL. *)
Definition parse (fuel : nat) (data : string) : pres json :=
  pbind (decode_value fuel (ws_skip data)) (fun v rest =>
    let rest := ws_skip rest in
    if Ascii.eqb (peek rest) NUL then POk v rest else PErr).

Definition load_fuel (s : string) : nat := S (2 * String.length s).

(** [crow::json::load] *)
Definition load (s : string) : rvalue :=
  match parse (load_fuel s) s with POk j _ => Some j | _ => None end.

(** ** Reading an [rvalue] *)

Definition err_invalid : exn := RuntimeError "invalid json object".
Definition err_container : exn := RuntimeError "value is not a container".

(** [rvalue::t] *)
Definition r_t (r : rvalue) : outcome jtype :=
  match r with Some j => Ok (type_of j) | None => Throw err_invalid end.

(** [rvalue::s] *)
Definition r_s (r : rvalue) : outcome string :=
  match r with
  | Some (JStr raw) => Ok (unescape raw)
  | Some _ => Throw (RuntimeError "value is not string")
  | None => Throw err_invalid
  end.

(** [rvalue::b] *)
Definition r_b (r : rvalue) : outcome bool :=
  match r with
  | Some JTrue => Ok true
  | Some JFalse => Ok false
  | Some _ => Throw (RuntimeError "value is not boolean")
  | None => Throw err_invalid
  end.

(** [rvalue::has].  The comparator reads the keys of the elements: those of
    list elements are never initialised. *)
Definition r_has (r : rvalue) (k : string) : outcome bool :=
  match r with
  | Some (JObj ms) => Ok (bool_decide (is_Some (assoc k ms)))
  | Some (JList []) => Ok false
  | Some (JList _) => Undef
  | Some _ => Throw err_container
  | None => Throw err_invalid
  end.

(** [rvalue::operator\[\](const std::string&)] *)
Definition r_at (r : rvalue) (k : string) : outcome rvalue :=
  match r with
  | Some (JObj ms) =>
      match assoc k ms with
      | Some j => Ok (Some j)
      | None => Throw (RuntimeError "cannot find key")
      end
  | Some _ => Throw (RuntimeError "value is not an object")
  | None => Throw err_invalid
  end.

(** [rvalue::operator\[\](int)] *)
Definition r_index (r : rvalue) (i : Z) : outcome rvalue :=
  match r with
  | Some (JList l) =>
      if (i <? 0)%Z then Throw (RuntimeError "list out of bound")
      else match l !! Z.to_nat i with
           | Some j => Ok (Some j)
           | None => Throw (RuntimeError "list out of bound")
           end
  | Some _ => Throw (RuntimeError "value is not a list")
  | None => Throw err_invalid
  end.

(** [begin()] to [end()]: the elements in order *)
Definition r_elems (r : rvalue) : outcome (list rvalue) :=
  match r with
  | Some (JList l) => Ok (Some <$> l)
  | Some (JObj ms) => Ok (Some <$> ms.*2)
  | Some _ => Throw err_container
  | None => Throw err_invalid
  end.

(** [rvalue::size] *)
Definition r_size (r : rvalue) : outcome Z :=
  match r with
  | Some (JStr raw) => Ok (Z.of_nat (String.length (unescape raw)))
  | Some (JList l) => Ok (Z.of_nat (length l))
  | Some (JObj ms) => Ok (Z.of_nat (length ms))
  | Some _ => Throw err_container
  | None => Throw err_invalid
  end.

(** [rvalue(const rvalue&)]: the elements are assigned one by one, and the
    assignment of a container asks the new element for its type before it is
    set. *)
Definition is_container (j : json) : bool :=
  match j with JList _ | JObj _ => true | _ => false end.
Definition r_copy (r : rvalue) : outcome rvalue :=
  match r with
  | Some (JList l) => if existsb is_container l then Throw err_invalid else Ok r
  | Some (JObj ms) => if existsb is_container ms.*2 then Throw err_invalid else Ok r
  | Some _ => Ok r
  | None => Throw err_invalid
  end.

(** [r\[k\].s()] *)
Definition r_at_s (r : rvalue) (k : string) : outcome string :=
  let? v := r_at r k in r_s v.

(** ** [wvalue] *)

Section wvalue.
Context {plat : Platform}.

Inductive wvalue :=
  | WNull
  | WFalse
  | WTrue
  | WNum (d : double)
  | WStr (s : string)
  | WList (l : list wvalue)
  | WObj (o : list (string * wvalue)).

(** [rvalue::i]: no decoding of escapes, the raw text is converted. *)
Definition r_i (r : rvalue) : outcome Z :=
  match r with
  | Some (JNum t) | Some (JStr t) =>
      match lexical_cast_int64 t with Some z => Ok z | None => Throw BadLexicalCast end
  | Some j => Throw (RuntimeError ("expected number, got: " +:+ get_type_str (type_of j)))
  | None => Throw err_invalid
  end.

(** [rvalue::d] *)
Definition r_d (r : rvalue) : outcome double :=
  match r with
  | Some (JNum t) =>
      match lexical_cast_double t with Some d => Ok d | None => Throw BadLexicalCast end
  | Some _ => Throw (RuntimeError "value is not number")
  | None => Throw err_invalid
  end.

(** The conversion [wvalue(const rvalue&)] *)
Fixpoint wvalue_of_json (j : json) : outcome wvalue :=
  match j with
  | JNull => Ok WNull
  | JFalse => Ok WFalse
  | JTrue => Ok WTrue
  | JNum t => match lexical_cast_double t with
              | Some d => Ok (WNum d)
              | None => Throw BadLexicalCast
              end
  | JStr raw => Ok (WStr (unescape raw))
  | JList l =>
      let? l := (fix elems l :=
                   match l with
                   | [] => Ok []
                   | x :: l => let? y := wvalue_of_json x in
                               let? l := elems l in Ok (y :: l)
                   end) l in
      Ok (WList l)
  | JObj ms =>
      let? o := (fix members o ms :=
                   match ms with
                   | [] => Ok o
                   | (k, x) :: ms => let? y := wvalue_of_json x in
                                     members (assoc_emplace k y o) ms
                   end) [] ms in
      Ok (WObj o)
  end.

Definition to_wvalue (r : rvalue) : outcome wvalue :=
  match r with Some j => wvalue_of_json j | None => Throw err_invalid end.

(** [w\[k\] = v]: anything but an object is reset to an empty one first. *)
Definition w_set (k : string) (v w : wvalue) : wvalue :=
  match w with
  | WObj o => WObj (assoc_set k v o)
  | _ => WObj [(k, v)]
  end.

(** [std::move(w\[k\])]: the member's value ([Null] when it is absent) *)
Definition w_get (k : string) (w : wvalue) : wvalue :=
  match w with WObj o => default WNull (assoc k o) | _ => WNull end.

(** [if(x.has(k)) ... read(x\[k\])]: the member, when there is one *)
Definition member {A} (x : rvalue) (k : string) (read : rvalue -> outcome A)
    : outcome (option A) :=
  let? b := r_has x k in
  if b : bool then let? v := r_at x k in let? a := read v in Ok (Some a) else Ok None.
Definition with_member (k : string) (v : option wvalue) (w : wvalue) : wvalue :=
  match v with Some v => w_set k v w | None => w end.

Definition w_int (z : Z) : wvalue := WNum (double_of_int z).
Definition w_bool (b : bool) : wvalue := if b then WTrue else WFalse.

(** An object after [std::move]: the type is kept, the members are gone. *)
Definition moved (w : wvalue) : wvalue :=
  match w with WObj _ => WObj [] | WList _ => WList [] | WStr _ => WStr EmptyString | _ => w end.

(** The members of an [unordered_map] in the order it is traversed. *)
Fixpoint pick {A} (o : list (string * A)) (keys : list string) : list (string * A) :=
  match keys with
  | [] => []
  | k :: keys =>
      match assoc k o with Some v => (k, v) :: pick o keys | None => pick o keys end
  end.
Definition reorder {A} (o : list (string * A)) : list (string * A) :=
  pick o (hash_order o.*1).

(** [wvalue::keys] *)
Definition w_keys (w : wvalue) : list string :=
  match w with WObj o => (reorder o).*1 | _ => [] end.

(** ** Printing *)

Definition to_hex (z : Z) : ascii :=
  let z := Z.land z 0xF in
  if (z <? 10)%Z then of_byte (48 + z) else of_byte (97 + z - 10).

Definition escape_char (c : ascii) : string :=
  if Ascii.eqb c DQUOTE then String BACKSLASH (String DQUOTE EmptyString)
  else if Ascii.eqb c BACKSLASH then String BACKSLASH (String BACKSLASH EmptyString)
  else if (byte c =? 10)%Z then String BACKSLASH "n"
  else if (byte c =? 8)%Z then String BACKSLASH "b"
  else if (byte c =? 12)%Z then String BACKSLASH "f"
  else if (byte c =? 13)%Z then String BACKSLASH "r"
  else if (byte c =? 9)%Z then String BACKSLASH "t"
  else if (0 <=? schar c)%Z && (schar c <? 0x20)%Z then
    String BACKSLASH ("u00" +:+
      String (to_hex (byte c / 16)) (String (to_hex (byte c mod 16)) EmptyString))
  else String c EmptyString.

(** [crow::json::escape] *)
Fixpoint escape (s : string) : string :=
  match s with
  | EmptyString => EmptyString
  | String c s => escape_char c +:+ escape s
  end.

Definition dump_string (s : string) : string :=
  String DQUOTE (escape s +:+ String DQUOTE EmptyString).

Fixpoint comma_sep (l : list string) : string :=
  match l with
  | [] => EmptyString
  | [x] => x
  | x :: l => x +:+ String "," (comma_sep l)
  end.

(** [crow::json::dump] *)
Fixpoint dump (v : wvalue) : string :=
  match v with
  | WNull => "null"
  | WFalse => "false"
  | WTrue => "true"
  | WNum d => printf_g d
  | WStr s => dump_string s
  | WList l => String "[" (comma_sep (map dump l) +:+ "]")
  | WObj o =>
      String "{" (comma_sep (map (fun p => dump_string p.1 +:+ String ":" p.2)
                    (reorder (map (fun p => (p.1, dump p.2)) o))) +:+ "}")
  end.

(** What a parser sees in the printed text. *)
Fixpoint json_of (v : wvalue) : json :=
  match v with
  | WNull => JNull
  | WFalse => JFalse
  | WTrue => JTrue
  | WNum d => JNum (printf_g d)
  | WStr s => JStr (escape s)
  | WList l => JList (map json_of l)
  | WObj o => JObj (reorder (map (fun p => (p.1, json_of p.2)) o))
  end.
End wvalue.

(** ** A concrete platform

    Doubles are integers, [unordered_map]s keep their order of insertion: a
    model of the class [Platform] on which everything above can be run. *)

Fixpoint all_digits (s : string) : bool :=
  match s with EmptyString => true | String c s => is_digit c && all_digits s end.

Definition int_literal (s : string) : option Z :=
  let '(sign, s) := match s with
                    | String "-" s => ((-1)%Z, s)
                    | String "+" s => (1%Z, s)
                    | _ => (1%Z, s)
                    end in
  if all_digits s && is_digit (peek s) then Some (sign * digits_value 0 s)%Z else None.

Definition int_platform : Platform := {|
  double := Z;
  lexical_cast_double := int_literal;
  lexical_cast_int64 := int_literal;
  double_of_int := id;
  int_of_double := id;
  double_eqb := Z.eqb;
  printf_g := to_string;
  hash_order := id;
  hash_order_perm keys := Permutation_refl keys
|}.

(** ** Termination of the parser *)

Lemma ws_skip_length s : String.length (ws_skip s) <= String.length s.
Proof. induction s as [|c s IH]; simpl; [done|]. destruct (_ || _); simpl; lia. Qed.

Lemma advance_length c s :
  Ascii.eqb (peek s) c = true -> c <> NUL -> S (String.length (advance s)) = String.length s.
Proof. destruct s; simpl; [|done]. intros <-%Ascii.eqb_eq. by intros []. Qed.

Lemma string_body_length s raw rest :
  string_body s = Some (raw, rest) -> String.length rest < String.length s.
Proof.
  revert raw rest. induction s as [s IH] using (induction_ltof1 _ String.length).
  unfold ltof in IH. intros raw rest H. destruct s as [|c s]; [done|].
  assert (forall s' f, String.length s' < S (String.length s) ->
            (fun p : string * string => (f p.1, p.2)) <$> string_body s' = Some (raw, rest) ->
            String.length rest < S (String.length s)) as Hrec.
  { intros s' f Hs' H'. destruct (string_body s') as [[r t]|] eqn:E; [|done].
    injection H' as _ <-. apply IH in E; simpl; lia. }
  simpl in *. destruct (Ascii.eqb c DQUOTE); [injection H as <- <-; lia|].
  destruct (Ascii.eqb c NUL); [done|].
  destruct (Ascii.eqb c BACKSLASH); [|eapply (Hrec _ (String c)); [|exact H]; lia].
  destruct s as [|e s]; [done|]. destruct (Ascii.eqb e "u").
  - destruct s as [|h1 [|h2 [|h3 [|h4 s]]]]; try done.
    destruct (_ && _); [|done]. simpl in *.
    eapply (Hrec _ (fun x => String c (String e (String h1 (String h2 (String h3 (String h4 x)))))));
      [|exact H]. lia.
  - destruct (is_escape e); [|done]. simpl in *.
    eapply (Hrec _ (fun x => String c (String e x))); [|exact H]. lia.
Qed.

Lemma decode_string_length s raw rest :
  decode_string s = Some (raw, rest) -> String.length rest + 2 <= String.length s.
Proof.
  destruct s as [|c s]; [done|]. simpl. destruct (Ascii.eqb c DQUOTE); [|done].
  intros H%string_body_length. lia.
Qed.

Lemma number_loop_length s run data text rest :
  number_loop s run data = Some (text, rest) ->
  String.length text + String.length rest = String.length data.
Proof.
  revert s run text rest. induction data as [|c data IH]; intros s run text rest; simpl.
  - case_decide; [done|]. destruct (number_ends s); [|done]. by intros [= <- <-].
  - assert (forall s' run', (fun p : string * string => (String c p.1, p.2)) <$>
              number_loop s' run' data = Some (text, rest) ->
            String.length text + String.length rest = S (String.length data)) as Hrec.
    { intros s' run' H. destruct (number_loop s' run' data) as [[t r]|] eqn:E; [|done].
      injection H as <- <-. apply IH in E. simpl. lia. }
    case_decide; [done|]. destruct (run && is_digit c); [by apply Hrec|].
    destruct (number_step s c); [by apply Hrec|].
    destruct (number_ends s); [|done]. by intros [= <- <-].
Qed.

Lemma decode_number_length data text rest :
  decode_number data = Some (text, rest) -> String.length rest < String.length data.
Proof.
  intros H. pose proof (number_loop_length _ _ _ _ _ H) as Hl.
  destruct text as [|c text]; simpl in Hl; [|lia].
  destruct data as [|d data]; [done|]. exfalso. unfold decode_number in H. simpl in H.
  destruct (number_step Minus d); [|done].
  by destruct (number_loop _ _ data) as [[??]|].
Qed.


Lemma starts_with_length p s : starts_with p s = true -> String.length p <= String.length s.
Proof. intros [t ->]%starts_with_spec. rewrite slength_app. lia. Qed.

(** What a parser may do with the rest of the text: consume some, or fail. *)
Definition shrinks {A} (n : nat) (r : pres A) : Prop :=
  match r with POk _ rest => String.length rest + 1 <= n | PErr => True | PFuel => False end.

Lemma shrinks_bind {A B} n m (r : pres A) (k : A -> string -> pres B) :
  shrinks n r -> (forall a rest, String.length rest + 1 <= n -> shrinks m (k a rest)) ->
  shrinks m (pbind r k).
Proof. destruct r; simpl; auto. Qed.

Lemma shrinks_consume c data :
  c <> NUL -> shrinks (String.length data) (consume c data).
Proof.
  intros Hc. unfold consume. destruct (Ascii.eqb (peek data) c) eqn:E; simpl; [|done].
  pose proof (advance_length c data E Hc). lia.
Qed.

Lemma shrinks_literal text j data :
  text <> EmptyString -> shrinks (String.length data) (literal text j data).
Proof.
  intros Hn. unfold literal. destruct (starts_with text data) eqn:E; simpl; [|done].
  apply starts_with_length in E. rewrite str_drop_length. destruct text; simpl in *; [done|lia].
Qed.

Lemma shrinks_weaken {A} n m (r : pres A) : n <= m -> shrinks n r -> shrinks m r.
Proof. destruct r; simpl; auto. lia. Qed.

(** With fuel above twice the length of the text the parser always answers. *)
Lemma parser_shrinks fuel :
  (forall data, 2 * String.length data < fuel ->
     shrinks (String.length data) (decode_value fuel data)) /\
  (forall data, 2 * String.length data + 1 < fuel ->
     shrinks (String.length data) (list_items fuel data)) /\
  (forall data, 2 * String.length data + 1 < fuel ->
     shrinks (String.length data) (object_members fuel data)).
Proof.
  induction fuel as [|fuel (IHv & IHl & IHo)]; [split_and!; lia|].
  split_and!; intros data Hf; simpl.
  - destruct (Ascii.eqb (peek data) "[") eqn:E1.
    { apply advance_length in E1; [|done]. pose proof (ws_skip_length (advance data)).
      destruct (Ascii.eqb (peek (ws_skip (advance data))) "]") eqn:E2; simpl.
      - apply advance_length in E2; [|done]. lia.
      - eapply shrinks_bind; [apply IHl; lia|]. simpl. lia. }
    destruct (Ascii.eqb (peek data) "{") eqn:E2.
    { apply advance_length in E2; [|done]. pose proof (ws_skip_length (advance data)).
      destruct (Ascii.eqb (peek (ws_skip (advance data))) "}") eqn:E3; simpl.
      - apply advance_length in E3; [|done]. lia.
      - eapply shrinks_bind; [apply IHo; lia|]. simpl. lia. }
    destruct (Ascii.eqb (peek data) DQUOTE).
    { destruct (decode_string data) as [[raw rest]|] eqn:E; simpl; [|done].
      apply decode_string_length in E. lia. }
    repeat (case_match; [by apply shrinks_literal|]).
    destruct (decode_number data) as [[t rest]|] eqn:E; simpl; [|done].
    apply decode_number_length in E. lia.
  - eapply shrinks_bind; [apply IHv; lia|]. intros v rest Hr.
    pose proof (ws_skip_length rest).
    destruct (Ascii.eqb (peek (ws_skip rest)) "]") eqn:E; simpl.
    { apply advance_length in E; [|done]. lia. }
    eapply shrinks_bind; [by apply shrinks_consume|]. intros _ rest' Hr'.
    pose proof (ws_skip_length rest').
    eapply shrinks_bind; [apply IHl; lia|]. simpl. lia.
  - destruct (decode_string data) as [[key rest]|] eqn:E; [|done].
    apply decode_string_length in E. pose proof (ws_skip_length rest).
    eapply shrinks_bind; [by apply shrinks_consume|]. intros _ rest' Hr'.
    pose proof (ws_skip_length rest').
    eapply shrinks_bind; [apply IHv; lia|]. intros v rest2 Hr2.
    pose proof (ws_skip_length rest2).
    destruct (Ascii.eqb (peek (ws_skip rest2)) "}") eqn:E2; simpl.
    { apply advance_length in E2; [|done]. lia. }
    eapply shrinks_bind; [by apply shrinks_consume|]. intros _ rest3 Hr3.
    pose proof (ws_skip_length rest3).
    eapply shrinks_bind; [apply IHo; lia|]. simpl. lia.
Qed.

(** the parser answers on every text: [load] never runs out of fuel, it
    returns a value or sets the error bit. *)
Theorem load_total (s : string) : parse (load_fuel s) s <> PFuel.
Proof.
  unfold parse, load_fuel. pose proof (ws_skip_length s).
  destruct (parser_shrinks (S (2 * String.length s))) as [H1 _].
  specialize (H1 (ws_skip s)). destruct (decode_value _ _); simpl in *; [by case_match|done|].
  intros _. apply H1. lia.
Qed.

(** ** The printer and the parser agree *)

Lemma string_body_escape_char c t :
  string_body (escape_char c +:+ t) =
  (fun p => (escape_char c +:+ p.1, p.2)) <$> string_body t.
Proof. destruct c as [[] [] [] [] [] [] [] []]; reflexivity. Qed.

Lemma unescape_escape_char c t : unescape (escape_char c +:+ t) = String c (unescape t).
Proof. destruct c as [[] [] [] [] [] [] [] []]; reflexivity. Qed.

Lemma string_body_escape s rest :
  string_body (escape s +:+ String DQUOTE rest) = Some (escape s, rest).
Proof.
  induction s as [|c s IH]; [reflexivity|]. simpl.
  by rewrite sapp_assoc, string_body_escape_char, IH.
Qed.

(** Decoding undoes escaping, on every string of bytes. *)
Lemma unescape_escape s : unescape (escape s) = s.
Proof.
  induction s as [|c s IH]; [reflexivity|]. simpl. by rewrite unescape_escape_char, IH.
Qed.

Lemma decode_dump_string s rest :
  decode_string (dump_string s +:+ rest) = Some (escape s, rest).
Proof.
  unfold dump_string. cbn [String.append decode_string].
  rewrite Ascii.eqb_refl, sapp_assoc. apply string_body_escape.
Qed.

(** The texts [decode_number] reads to the end. *)
Definition json_number (text : string) : Prop := decode_number text = Some (text, EmptyString).

#[export] Instance json_number_dec text : Decision (json_number text).
Proof. unfold json_number. apply _. Defined.

(** What can follow a value in printed text. *)
Definition delimiter (rest : string) : Prop :=
  rest = EmptyString \/ peek rest = ","%char \/ peek rest = "]"%char \/ peek rest = "}"%char.

Lemma number_loop_delimiter s run text rest :
  delimiter rest -> number_loop s run text = Some (text, EmptyString) ->
  number_loop s run (text +:+ rest) = Some (text, rest).
Proof.
  intros Hd. revert s run. induction text as [|c text IH]; intros s run; simpl.
  - case_decide; [done|]. destruct (number_ends s) eqn:E; [|done]. intros _.
    destruct rest as [|d rest]; simpl; [by rewrite decide_False, E by done|].
    rewrite decide_False by done.
    destruct Hd as [?|Hd]; [done|]; simpl in Hd.
    assert (is_digit d = false /\ number_step s d = None) as [-> ->].
    { destruct Hd as [->|[->| ->]]; by split. }
    by rewrite andb_false_r, E.
  - assert (forall s' run',
      (fun p : string * string => (String c p.1, p.2)) <$> number_loop s' run' text
        = Some (String c text, EmptyString) ->
      (fun p : string * string => (String c p.1, p.2)) <$> number_loop s' run' (text +:+ rest)
        = Some (String c text, rest)) as Hrec.
    { intros s' run' H. destruct (number_loop s' run' text) as [[t r]|] eqn:E; [|done].
      injection H as -> ->. by rewrite (IH _ _ E). }
    case_decide; [done|]. destruct (run && is_digit c); [by apply Hrec|].
    destruct (number_step s c); [by apply Hrec|]. by destruct (number_ends s).
Qed.

Lemma json_number_head text :
  json_number text -> exists c t, text = String c t /\ (c = "-"%char \/ is_digit c = true).
Proof.
  unfold json_number, decode_number. destruct text as [|c t]; [done|]. simpl. intros H.
  exists c, t. split; [done|]. revert H. unfold number_step.
  destruct (Ascii.eqb_spec c "0") as [->|_]; [by right|].
  destruct (is_digit c); [by right|].
  destruct (Ascii.eqb_spec c "."); [by destruct t|].
  destruct (Ascii.eqb_spec c "-"); [by left|].
  destruct (Ascii.eqb_spec c "+"); [by destruct t|].
  destruct (_ || _); [by destruct t|done].
Qed.

(** The first character of a printed value is no blank and closes nothing. *)
Definition value_head (c : ascii) : Prop :=
  (33 <=? byte c)%Z = true /\ c <> "]"%char /\ c <> "}"%char.

Lemma ws_skip_head s : value_head (peek s) -> ws_skip s = s.
Proof.
  destruct s as [|c s]; [done|]. unfold value_head. simpl. intros [H%Z.leb_le _].
  repeat match goal with |- context [(?x =? ?y)%Z] => destruct (Z.eqb_spec x y); [lia|] end.
  done.
Qed.

Lemma peek_app a b : a <> EmptyString -> peek (a +:+ b) = peek a.
Proof. by destruct a. Qed.

Section round_trip.
Context {plat : Platform}.

Lemma wvalue_nested_ind (P : wvalue -> Prop) :
  P WNull -> P WFalse -> P WTrue -> (forall d, P (WNum d)) -> (forall s, P (WStr s)) ->
  (forall l, Forall P l -> P (WList l)) ->
  (forall o, Forall (fun p => P p.2) o -> P (WObj o)) ->
  forall v, P v.
Proof.
  intros H1 H2 H3 H4 H5 Hl Ho. fix IH 1. intros v.
  destruct v as [| | |d|s|l|o]; [exact H1|exact H2|exact H3|apply H4|apply H5| |].
  - apply Hl. induction l as [|x l IHl]; constructor; [apply IH|exact IHl].
  - apply Ho. induction o as [|[k v] o IHo]; constructor; [apply IH|exact IHo].
Qed.

(** Every number in [v] prints as a JSON number (not as [inf] or [nan]). *)
Fixpoint printable (v : wvalue) : Prop :=
  match v with
  | WNum d => json_number (printf_g d)
  | WList l => fold_right (fun x P => printable x /\ P) True l
  | WObj o => fold_right (fun p P => printable p.2 /\ P) True o
  | _ => True
  end.

Lemma printable_list l : printable (WList l) <-> Forall printable l.
Proof. simpl. induction l; simpl; [by split|]. rewrite Forall_cons. tauto. Qed.

Lemma printable_obj o : printable (WObj o) <-> Forall (fun p => printable p.2) o.
Proof. simpl. induction o; simpl; [by split|]. rewrite Forall_cons. tauto. Qed.

Lemma w_get_set k k' v w : w_get k (w_set k' v w) = if decide (k = k') then v else w_get k w.
Proof.
  destruct (decide (k = k')) as [<-|Hne]; destruct w; cbn;
    rewrite ?assoc_set_eq, ?assoc_set_ne, ?decide_True, ?decide_False by done; done.
Qed.

Lemma assoc_map {A B} (f : A -> B) k (o : list (string * A)) :
  assoc k (map (fun p => (p.1, f p.2)) o) = f <$> assoc k o.
Proof. induction o as [|[k' v] o IH]; simpl; [done|]. by case_decide. Qed.

Lemma reorder_map {A B} (f : A -> B) (o : list (string * A)) :
  reorder (map (fun p => (p.1, f p.2)) o) = map (fun p => (p.1, f p.2)) (reorder o).
Proof.
  unfold reorder. replace ((map (fun p => (p.1, f p.2)) o).*1) with o.*1.
  2:{ clear. induction o as [|[k v] o IH]; simpl; [done|]. f_equal. exact IH. }
  induction (hash_order o.*1) as [|k l IH]; simpl; [done|].
  rewrite assoc_map, IH. by destruct (assoc k o).
Qed.

Lemma assoc_In {A} k (v : A) o : assoc k o = Some v -> (k, v) ∈ o.
Proof.
  induction o as [|[k' v'] o IH]; simpl; [done|].
  case_decide; simplify_eq; [intros [= ->]; by left|]. intros Ha. right. auto.
Qed.

Lemma reorder_Forall {A} (P : string * A -> Prop) o : Forall P o -> Forall P (reorder o).
Proof.
  intros H. unfold reorder. induction (hash_order o.*1) as [|k ks IH]; simpl; [done|].
  destruct (assoc k o) eqn:E; [|done]. constructor; [|done].
  rewrite Forall_forall in H. by apply H, assoc_In.
Qed.

Lemma dump_head v : printable v -> value_head (peek (dump v)) /\ dump v <> EmptyString.
Proof.
  destruct v; try (split; [by split_and!|done]).
  simpl. intros (c & t & -> & H)%json_number_head.
  split; [|done]. unfold value_head. simpl. destruct H as [->|H]; [by split_and!|].
  split_and!; [|by intros ->..]. unfold is_digit in H.
  apply andb_prop in H as [H1 _]. apply Z.leb_le in H1. apply Z.leb_le. lia.
Qed.

Definition decodes (v : wvalue) : Prop :=
  forall rest fuel, delimiter rest -> 2 * String.length (dump v +:+ rest) < fuel ->
  decode_value fuel (dump v +:+ rest) = POk (json_of v) rest.

Lemma ws_skip_dump v rest : printable v -> ws_skip (dump v +:+ rest) = dump v +:+ rest.
Proof.
  intros [Hh Hn]%dump_head. apply ws_skip_head. by rewrite peek_app.
Qed.

Lemma list_items_dump l rest fuel :
  l <> [] -> Forall decodes l -> Forall printable l ->
  2 * String.length (comma_sep (map dump l) +:+ String "]" rest) + 1 < fuel ->
  list_items fuel (comma_sep (map dump l) +:+ String "]" rest) = POk (map json_of l) rest.
Proof.
  intros Hn Hd Hp. revert fuel. induction l as [|x l IH]; intros fuel Hf; [done|].
  apply Forall_cons in Hd as [Hx Hd]. apply Forall_cons in Hp as [Px Hp].
  destruct fuel as [|fuel]; [lia|]. destruct l as [|y l].
  - simpl in *. rewrite Hx; [reflexivity|by right; right; left|lia].
  - change (comma_sep (map dump (x :: y :: l)))
      with (dump x +:+ String "," (comma_sep (map dump (y :: l)))) in *.
    rewrite sapp_assoc in *. cbn [String.append] in *.
    cbn [list_items]. rewrite Hx; [|by right; left|lia]. cbn [pbind].
    change (ws_skip (String "," ?t)) with (String "," t). cbn [peek].
    change (Ascii.eqb "," "]") with false. unfold consume. cbn [peek advance].
    rewrite Ascii.eqb_refl. cbn [pbind].
    assert (forall r, ws_skip (comma_sep (map dump (y :: l)) +:+ r)
                      = comma_sep (map dump (y :: l)) +:+ r) as ->.
    { apply Forall_cons in Hp as [Py _]. intros r. destruct l; simpl; [by apply ws_skip_dump|].
      rewrite sapp_assoc. by apply ws_skip_dump. }
    rewrite slength_app in Hf. simpl in Hf. rewrite IH; [done|done..|]. simpl in *. lia.
Qed.

Definition dump_member (p : string * wvalue) : string :=
  dump_string p.1 +:+ String ":" (dump p.2).

Lemma object_members_dump o rest fuel :
  o <> [] -> Forall (fun p => decodes p.2) o -> Forall (fun p => printable p.2) o ->
  2 * String.length (comma_sep (map dump_member o) +:+ String "}" rest) + 1 < fuel ->
  object_members fuel (comma_sep (map dump_member o) +:+ String "}" rest)
  = POk (map (fun p => (p.1, json_of p.2)) o) rest.
Proof.
  intros Hn Hd Hp. revert fuel. induction o as [|[k x] o IH]; intros fuel Hf; [done|].
  apply Forall_cons in Hd as [Hx Hd]. apply Forall_cons in Hp as [Px Hp]. simpl in Hx, Px.
  destruct fuel as [|fuel]; [lia|].
  assert (forall t,
    2 * String.length (dump_member (k, x) +:+ t) < fuel + 1 -> delimiter t ->
    object_members (S fuel) (dump_member (k, x) +:+ t) =
    (let rest := ws_skip t in
     if Ascii.eqb (peek rest) "}" then POk [(k, json_of x)] (advance rest)
     else pbind (consume "," rest) (fun _ rest =>
        pbind (object_members fuel (ws_skip rest)) (fun l rest =>
           POk ((k, json_of x) :: l) rest)))) as Hstep.
  { intros t Ht Hdt. unfold dump_member in Ht |- *. cbn [fst snd object_members] in *.
    rewrite sapp_assoc in *.
    rewrite decode_dump_string, unescape_escape. cbn [String.append] in *.
    change (ws_skip (String ":" ?t)) with (String ":" t). unfold consume at 1.
    cbn [peek advance]. rewrite Ascii.eqb_refl. cbn [pbind].
    rewrite ws_skip_dump by done. rewrite Hx; [done|done|].
    rewrite slength_app in Ht. cbn [String.length] in Ht. lia. }
  destruct o as [|[k' y] o].
  - cbn [map comma_sep] in *. rewrite Hstep; [reflexivity|lia|by right; right; right].
  - change (comma_sep (map dump_member ((k, x) :: (k', y) :: o)))
      with (dump_member (k, x) +:+ String "," (comma_sep (map dump_member ((k', y) :: o)))) in *.
    rewrite sapp_assoc in *. cbn [String.append] in *.
    rewrite Hstep; [|lia|by right; left].
    change (ws_skip (String "," ?t)) with (String "," t). cbn zeta. cbn [peek].
    change (Ascii.eqb "," "}") with false. unfold consume. cbn [peek advance].
    rewrite Ascii.eqb_refl. cbn [pbind].
    assert (forall r, ws_skip (comma_sep (map dump_member ((k', y) :: o)) +:+ r)
                      = comma_sep (map dump_member ((k', y) :: o)) +:+ r) as ->.
    { intros r. by destruct o. }
    rewrite slength_app in Hf. simpl in Hf. rewrite IH; [done|done..|]. simpl in *. lia.
Qed.

Lemma decode_value_dump v : printable v -> decodes v.
Proof.
  induction v as [| | |d|s|l IH|o IH] using wvalue_nested_ind;
    intros Hp rest fuel Hd Hf; (destruct fuel as [|fuel]; [lia|]).
  1-3: reflexivity.
  - simpl in *. pose proof (json_number_head _ Hp) as (c & t & Et & Hc).
    rewrite peek_app by (by rewrite Et).
    assert (peek (printf_g d) = c) as -> by (by rewrite Et). clear Et.
    repeat match goal with
    | |- context [Ascii.eqb c ?x] =>
        destruct (Ascii.eqb_spec c x) as [->|_]; [by destruct Hc as [|]|]
    end.
    unfold decode_number. by rewrite (number_loop_delimiter _ _ _ _ Hd Hp).
  - cbn [dump json_of decode_value]. rewrite decode_dump_string. reflexivity.
  - apply printable_list in Hp. cbn [dump json_of decode_value] in *.
    cbn [String.append peek advance] in *. rewrite Ascii.eqb_refl, sapp_assoc in *.
    cbn [String.append] in *.
    destruct l as [|x l]; [reflexivity|].
    assert (ws_skip (comma_sep (map dump (x :: l)) +:+ String "]" rest)
            = comma_sep (map dump (x :: l)) +:+ String "]" rest /\
            Ascii.eqb (peek (comma_sep (map dump (x :: l)) +:+ String "]" rest)) "]" = false)
      as [-> ->].
    { apply Forall_cons in Hp as [Px _]. pose proof (dump_head x Px) as [(_ & Hb & _) Hne].
      destruct l; simpl; rewrite ?sapp_assoc, ws_skip_dump, peek_app by done;
        (split; [done|by apply Ascii.eqb_neq]). }
    cbn [String.length] in Hf. rewrite list_items_dump; [done|done| |done|lia].
    rewrite Forall_forall in *. auto.
  - apply printable_obj in Hp. cbn [dump json_of decode_value] in *.
    rewrite reorder_map, !map_map in *. cbn [fst snd] in *.
    change (map _ (reorder o)) with (map dump_member (reorder o)) in *.
    rewrite reorder_map.
    assert (Forall (fun p => decodes p.2) (reorder o)) as Hdec.
    { apply reorder_Forall. rewrite Forall_forall in *. auto. }
    apply reorder_Forall in Hp. clear IH. revert Hp Hdec Hf. generalize (reorder o).
    clear o. intros o Hp Hdec Hf.
    cbn [String.append peek advance] in *. change (Ascii.eqb "{" "[") with false.
    rewrite Ascii.eqb_refl, sapp_assoc in *. cbn [String.append] in *.
    destruct o as [|[k x] o]; [reflexivity|].
    assert (ws_skip (comma_sep (map dump_member ((k, x) :: o)) +:+ String "}" rest)
            = comma_sep (map dump_member ((k, x) :: o)) +:+ String "}" rest /\
            Ascii.eqb (peek (comma_sep (map dump_member ((k, x) :: o))
                             +:+ String "}" rest)) "}" = false) as [-> ->].
    { by destruct o. }
    cbn [String.length] in Hf. rewrite object_members_dump; [done|done..|lia].
Qed.

Lemma load_printed (v : wvalue) : printable v -> load (dump v) = Some (json_of v).
Proof.
  intros Hp. unfold load, parse.
  rewrite <- (sapp_nil_r (dump v)) at 1 2. rewrite ws_skip_dump by done.
  rewrite decode_value_dump; [done|done|by left|].
  unfold load_fuel. rewrite sapp_nil_r. lia.
Qed.

Lemma assoc_app {A} k (l1 l2 : list (string * A)) :
  assoc k (l1 ++ l2) = match assoc k l1 with Some v => Some v | None => assoc k l2 end.
Proof. induction l1 as [|[k' v'] l1 IH]; simpl; [done|]. by case_decide. Qed.

Lemma assoc_pick {A} k (o : list (string * A)) keys :
  assoc k (pick o keys) = if decide (k ∈ keys) then assoc k o else None.
Proof.
  induction keys as [|k' keys IH]; [done|]. cbn [pick].
  transitivity (if decide (k = k') then assoc k o else assoc k (pick o keys)).
  { destruct (assoc k' o) eqn:E; cbn [assoc]; destruct (decide (k = k')) as [<-|Hne]; try done.
    rewrite IH, E. by destruct (decide _). }
  rewrite IH. destruct (decide (k = k')) as [<-|Hne].
  - by rewrite decide_True by by left.
  - destruct (decide (k ∈ keys)) as [Hk|Hk]; [by rewrite decide_True by by right|].
    rewrite decide_False; [done|]. by intros [|]%elem_of_cons.
Qed.

(** Traversing an [unordered_map] finds each member under its key. *)
Lemma assoc_reorder {A} k (o : list (string * A)) : assoc k (reorder o) = assoc k o.
Proof.
  unfold reorder. rewrite assoc_pick. case_decide as Hk; [done|].
  symmetry. apply assoc_None. by rewrite (hash_order_perm o.*1) in Hk.
Qed.

Lemma assoc_json_of k o :
  assoc k (reorder (map (fun p => (p.1, json_of p.2)) o)) = json_of <$> assoc k o.
Proof. by rewrite assoc_reorder, assoc_map. Qed.

Lemma load_printed_member v k s :
  printable v -> w_get k v = WStr s -> r_at_s (load (dump v)) k = Ok s.
Proof.
  intros Hp Hs. rewrite load_printed by done. destruct v as [| | | | | |o]; try done.
  simpl in Hs |- *. unfold r_at_s, r_at. cbn [obind]. rewrite assoc_json_of.
  destruct (assoc k o); simpl in Hs; [|done]. subst. simpl. by rewrite unescape_escape.
Qed.

(** Printed text holds no NUL: as a C string it is the whole text. *)
Lemma no_nul_json_number text : json_number text -> no_nul text = true.
Proof.
  unfold json_number, decode_number. generalize Minus false.
  induction text as [|c text IH]; [done|]. intros s run. simpl.
  assert (forall s' run', (fun p : string * string => (String c p.1, p.2)) <$>
            number_loop s' run' text = Some (String c text, EmptyString) ->
            no_nul text = true) as Hrec.
  { intros s' run' H. destruct (number_loop s' run' text) as [[t r]|] eqn:E; [|done].
    injection H as -> ->. by eapply IH. }
  destruct (Ascii.eqb_spec c NUL) as [->|_]; simpl.
  - case_decide; [done|]. rewrite andb_false_r. cbn. by destruct (number_ends s).
  - case_decide; [done|]. destruct (run && is_digit c); [by apply Hrec|].
    destruct (number_step s c); [by apply Hrec|]. by destruct (number_ends s).
Qed.

Lemma no_nul_escape s : no_nul (escape s) = true.
Proof.
  induction s as [|c s IH]; [done|]. simpl. rewrite no_nul_app, IH.
  destruct c as [[] [] [] [] [] [] [] []]; reflexivity.
Qed.

Lemma no_nul_comma_sep l : Forall (fun s => no_nul s = true) l -> no_nul (comma_sep l) = true.
Proof.
  induction 1 as [|x l Hx Hl IH]; [done|]. destruct l as [|y l]; [done|].
  change (comma_sep (x :: y :: l)) with (x +:+ String "," (comma_sep (y :: l))).
  by rewrite no_nul_app, Hx.
Qed.

Lemma no_nul_dump_string s : no_nul (dump_string s) = true.
Proof. unfold dump_string. simpl. by rewrite no_nul_app, no_nul_escape. Qed.

Lemma no_nul_dump v : printable v -> no_nul (dump v) = true.
Proof.
  induction v as [| | |d|s|l IH|o IH] using wvalue_nested_ind; intros Hp; try done.
  - by apply no_nul_json_number.
  - apply no_nul_dump_string.
  - apply printable_list in Hp. cbn [dump no_nul]. rewrite no_nul_app, no_nul_comma_sep; [done|].
    apply Forall_map. rewrite Forall_forall in IH, Hp |- *. intros x Hx. by apply IH, Hp.
  - apply printable_obj in Hp. cbn [dump no_nul]. rewrite no_nul_app, no_nul_comma_sep; [done|].
    apply Forall_map, reorder_Forall, Forall_map. rewrite Forall_forall in IH, Hp |- *.
    intros x Hx. unfold compose. cbn [fst snd]. rewrite no_nul_app, no_nul_dump_string.
    by apply (IH x), (Hp x).
Qed.

(** C2: parsing the printed text of a JSON value whose numbers print as JSON
    numbers gives back that value: every string, with any bytes in it, and
    the structure survive [dump] and [load]; so does the lookup of a member
    through the accessors. *)
Theorem load_dump (v : wvalue) (k : string) : printable v ->
  load (dump v) = Some (json_of v) /\
  (forall s, w_get k v = WStr s -> r_at_s (load (dump v)) k = Ok s).
Proof.
  intros Hp. split; [by apply load_printed|]. intros s. by apply load_printed_member.
Qed.

(** ** The type invariant of [wvalue]: the keys of an object are distinct *)

Fixpoint w_wf (v : wvalue) : Prop :=
  match v with
  | WList l => fold_right (fun x P => w_wf x /\ P) True l
  | WObj o => NoDup o.*1 /\ fold_right (fun p P => w_wf p.2 /\ P) True o
  | _ => True
  end.

Lemma w_wf_list l : w_wf (WList l) <-> Forall w_wf l.
Proof. simpl. induction l; simpl; [by split|]. rewrite Forall_cons. tauto. Qed.

Lemma w_wf_obj o : w_wf (WObj o) <-> NoDup o.*1 /\ Forall (fun p => w_wf p.2) o.
Proof.
  simpl. apply and_iff_compat_l. induction o; simpl; [by split|]. rewrite Forall_cons. tauto.
Qed.

Lemma assoc_set_Forall {A} (P : string * A -> Prop) k v (o : list (string * A)) :
  Forall P o -> P (k, v) -> Forall P (assoc_set k v o).
Proof.
  induction 1 as [|[k' v'] o Hx Ho IH]; simpl; intros Hk; [by constructor|].
  case_decide; constructor; auto.
Qed.

Lemma w_set_wf k v w : w_wf w -> w_wf v -> w_wf (w_set k v w).
Proof.
  intros Hw Hv. destruct w as [| | | | | |o]; cbn [w_set]; apply w_wf_obj.
  1-6: split; [apply NoDup_singleton|by repeat constructor].
  apply w_wf_obj in Hw as [Hn Hf]. split; [by apply assoc_set_NoDup|by apply assoc_set_Forall].
Qed.
End round_trip.
#[export] Hint Resolve w_set_wf : quarks.

Section witnesses.
#[local] Existing Instance int_platform.

Theorem load_dump_witness :
  let v := WObj [("k", WStr (q "a`b")); ("n", WList [WNum (-12)%Z; WNull; WTrue])] in
  load (dump v) = Some (JObj [("k", JStr (escape (q "a`b")));
                              ("n", JList [JNum "-12"; JNull; JTrue])]) /\
  r_at_s (load (dump v)) "k" = Ok (q "a`b").
Proof.
  intros v. destruct (load_dump v "k") as [H1 H2]; [by split_and!|].
  split; [exact H1|by apply H2].
Defined.
End witnesses.
