(* ===== verification/Store.v ===== *)
(** * The RocksDB interface

    The core keeps its data in RocksDB, which is not part of the repository:
    the calls it makes are the operations of the class [RocksDB], and what the
    documentation of RocksDB says of them are the laws of [RocksDBLaws].  The
    components are proved against the two classes.  [mem_rocksdb] is an
    instance kept in memory; it discharges the laws and serves the witnesses.

    The laws are silent where the documentation demands a precondition:
    [Next] and [Prev] are specified on valid iterators only. *)

From S2P Require Import Prelude SortedMap.
Open Scope quarks_scope.

Class RocksDB := {
  DB : Type;
  Iter : Type;
  WriteBatch : Type;
  (** [db->Get]: the value when the status is ok *)
  db_Get : DB -> string -> option string;
  (** [db->Put], [db->Delete], [db->Write]: whether the status is ok, and the store after *)
  db_Put : DB -> string -> string -> bool * DB;
  db_Delete : DB -> string -> bool * DB;
  batch_new : WriteBatch;
  batch_Delete : WriteBatch -> string -> WriteBatch;
  db_Write : DB -> WriteBatch -> bool * DB;
  NewIterator : DB -> Iter;
  it_Seek : Iter -> string -> Iter;
  it_SeekToFirst : Iter -> Iter;
  it_SeekToLast : Iter -> Iter;
  it_Next : Iter -> Iter;
  it_Prev : Iter -> Iter;
  it_Valid : Iter -> bool;
  it_key : Iter -> string;
  it_value : Iter -> string;
  it_status_ok : Iter -> bool
}.

(** Where an iterator stands in its snapshot. *)
Definition first_from (target : string) (m : smap string) : option nat :=
  let n := sm_lower_bound target m in if decide (n < length m) then Some n else None.

Class RocksDBLaws {R : RocksDB} := {
  contents : DB -> smap string;
  contents_wf db : sm_wf (contents db);
  Get_law db k : db_Get db k = sm_lookup k (contents db);
  Put_law db k v db' : db_Put db k v = (true, db') ->
    contents db' = sm_insert k v (contents db);
  Put_fail_law db k v db' : db_Put db k v = (false, db') -> contents db' = contents db;
  Delete_law db k db' : db_Delete db k = (true, db') ->
    contents db' = sm_delete k (contents db);
  Delete_fail_law db k db' : db_Delete db k = (false, db') -> contents db' = contents db;
  batch_keys : WriteBatch -> list string;
  batch_new_law : batch_keys batch_new = [];
  batch_Delete_law b k : batch_keys (batch_Delete b k) = batch_keys b ++ [k];
  Write_law db b db' : db_Write db b = (true, db') ->
    contents db' = foldl (fun m k => sm_delete k m) (contents db) (batch_keys b);
  Write_fail_law db b db' : db_Write db b = (false, db') -> contents db' = contents db;
  (** an iterator reads a snapshot of the store taken when it was created *)
  snapshot : Iter -> smap string;
  position : Iter -> option nat;
  position_lt it i : position it = Some i -> i < length (snapshot it);
  NewIterator_law db : snapshot (NewIterator db) = contents db;
  Seek_law it k : snapshot (it_Seek it k) = snapshot it /\
    position (it_Seek it k) = first_from k (snapshot it);
  SeekToFirst_law it : snapshot (it_SeekToFirst it) = snapshot it /\
    position (it_SeekToFirst it) = match snapshot it with [] => None | _ => Some 0 end;
  SeekToLast_law it : snapshot (it_SeekToLast it) = snapshot it /\
    position (it_SeekToLast it) = match snapshot it with [] => None | m => Some (length m - 1) end;
  Next_law it i : position it = Some i -> snapshot (it_Next it) = snapshot it /\
    position (it_Next it) = if decide (S i < length (snapshot it)) then Some (S i) else None;
  Prev_law it i : position it = Some i -> snapshot (it_Prev it) = snapshot it /\
    position (it_Prev it) = match i with O => None | S i => Some i end;
  Valid_law it : it_Valid it = bool_decide (is_Some (position it));
  entry_law it i : position it = Some i -> snapshot it !! i = Some (it_key it, it_value it);
  status_law it : it_status_ok it = true
}.

(** ** Forward and backward views of an iterator *)

Section views.
Context {R : RocksDB} {RL : RocksDBLaws}.

(** The entries [Next] still walks through, the current one first. *)
Definition fwd (it : Iter) : smap string :=
  match position it with Some i => drop i (snapshot it) | None => [] end.

(** The entries [Prev] still walks through, the current one first. *)
Definition bwd (it : Iter) : smap string :=
  match position it with Some i => reverse (take (S i) (snapshot it)) | None => [] end.

Lemma fwd_cases it :
  (it_Valid it = false /\ fwd it = []) \/
  (it_Valid it = true /\ fwd it = (it_key it, it_value it) :: fwd (it_Next it)).
Proof.
  rewrite Valid_law. unfold fwd. destruct (position it) as [i|] eqn:Ep; [right|by left].
  split; [by rewrite bool_decide_eq_true|].
  destruct (Next_law it i Ep) as [-> ->].
  rewrite (drop_S _ _ _ (entry_law it i Ep)). f_equal. case_decide; [done|].
  apply drop_ge. lia.
Qed.

Lemma bwd_cases it :
  (it_Valid it = false /\ bwd it = []) \/
  (it_Valid it = true /\ bwd it = (it_key it, it_value it) :: bwd (it_Prev it)).
Proof.
  rewrite Valid_law. unfold bwd. destruct (position it) as [i|] eqn:Ep; [right|by left].
  split; [by rewrite bool_decide_eq_true|].
  destruct (Prev_law it i Ep) as [-> ->].
  rewrite (take_S_r _ _ _ (entry_law it i Ep)), reverse_snoc. f_equal.
  by destruct i.
Qed.

Lemma fwd_length it : length (fwd it) <= length (snapshot it).
Proof. unfold fwd. destruct (position it); simpl; rewrite ?length_drop; lia. Qed.

Lemma bwd_length it : length (bwd it) <= length (snapshot it).
Proof.
  unfold bwd. destruct (position it); simpl; rewrite ?length_reverse, ?length_take; lia.
Qed.

Lemma drop_lower_bound {A} k (m : smap A) :
  drop (sm_lower_bound k m) m = drop_while (fun x => sltb x.1 k) m.
Proof.
  unfold sm_lower_bound. induction m as [|x m IH]; simpl; [done|].
  by destruct (sltb x.1 k).
Qed.

Lemma take_lower_bound k (m : smap string) :
  take (sm_lower_bound k m) m = take_while (fun x => sltb x.1 k) m.
Proof.
  unfold sm_lower_bound. induction m as [|x m IH]; simpl; [done|].
  destruct (sltb x.1 k); simpl; [by rewrite IH|done].
Qed.

Lemma fwd_Seek_snapshot it k :
  fwd (it_Seek it k) = drop_while (fun x => sltb x.1 k) (snapshot it).
Proof.
  unfold fwd. destruct (Seek_law it k) as [-> ->]. unfold first_from. rewrite <- drop_lower_bound.
  case_decide; [done|]. symmetry. apply drop_ge. lia.
Qed.

Lemma fwd_Seek db k :
  fwd (it_Seek (NewIterator db) k) = drop_while (fun x => sltb x.1 k) (contents db).
Proof. by rewrite fwd_Seek_snapshot, NewIterator_law. Qed.

Lemma fwd_SeekToFirst db : fwd (it_SeekToFirst (NewIterator db)) = contents db.
Proof.
  unfold fwd. destruct (SeekToFirst_law (NewIterator db)) as [-> ->].
  rewrite NewIterator_law. by destruct (contents db).
Qed.

Lemma bwd_SeekToLast db : bwd (it_SeekToLast (NewIterator db)) = reverse (contents db).
Proof.
  unfold bwd. destruct (SeekToLast_law (NewIterator db)) as [-> ->].
  rewrite NewIterator_law. destruct (contents db) as [|x m]; [done|].
  f_equal. apply take_ge. simpl. lia.
Qed.

(** [Seek(k)] then [Prev]: the entries below [k], last one first, provided
    the store holds a key that is not below [k]. *)
Lemma bwd_Seek_Prev db k :
  sm_lower_bound k (contents db) < length (contents db) ->
  bwd (it_Prev (it_Seek (NewIterator db) k))
  = reverse (filterb (fun x => sltb x.1 k) (contents db)).
Proof.
  intros Hlt. destruct (Seek_law (NewIterator db) k) as [Hs Hp].
  rewrite NewIterator_law in *. unfold first_from in Hp. rewrite decide_True in Hp by done.
  destruct (Prev_law _ _ Hp) as [Hs' Hp']. unfold bwd. rewrite Hp', Hs', Hs.
  rewrite <- sm_below, <- take_lower_bound by apply contents_wf.
  by destruct (sm_lower_bound k (contents db)).
Qed.

(** ** Loops over an iterator are loops over the entries it walks through *)

Context {S : Type}.

Lemma for_loop_fwd fuel (p : string -> bool) (f : string * string -> SM S ctrl) it s :
  length (fwd it) < fuel ->
  for_loop fuel (fun it => it_Valid it && p (it_key it)) it_Next
    (fun it => f (it_key it, it_value it)) it s
  = for_each f (take_while (fun x => p x.1) (fwd it)) s.
Proof.
  revert it s. induction fuel as [|fuel IH]; intros it s Hf; [lia|]. simpl.
  destruct (fwd_cases it) as [[-> ->]|[-> E]]; [done|]. rewrite E in Hf |- *. simpl in Hf |- *.
  destruct (p (it_key it)); [|done]. simpl. unfold bind.
  destruct (f (it_key it, it_value it) s) as [[[]| | |] s']; try done.
  apply IH. lia.
Qed.

Lemma for_loop_bwd fuel (p : string -> bool) (f : string * string -> SM S ctrl) it s :
  length (bwd it) < fuel ->
  for_loop fuel (fun it => it_Valid it && p (it_key it)) it_Prev
    (fun it => f (it_key it, it_value it)) it s
  = for_each f (take_while (fun x => p x.1) (bwd it)) s.
Proof.
  revert it s. induction fuel as [|fuel IH]; intros it s Hf; [lia|]. simpl.
  destruct (bwd_cases it) as [[-> ->]|[-> E]]; [done|]. rewrite E in Hf |- *. simpl in Hf |- *.
  destruct (p (it_key it)); [|done]. simpl. unfold bind.
  destruct (f (it_key it, it_value it) s) as [[[]| | |] s']; try done.
  apply IH. lia.
Qed.

Lemma for_loop_ext {X} fuel (cond cond' : X -> bool) step (body body' : X -> SM S ctrl) x s :
  (forall x, cond x = cond' x) -> (forall x s, body x s = body' x s) ->
  for_loop fuel cond step body x s = for_loop fuel cond' step body' x s.
Proof.
  intros Hc Hb. revert x s. induction fuel as [|fuel IH]; intros x s; [done|]. simpl.
  rewrite Hc. destruct (cond' x); [|done]. unfold bind. rewrite Hb.
  by destruct (body' x s) as [[[]| | |] s'].
Qed.

Lemma for_each_ext {X} (body body' : X -> SM S ctrl) l s :
  (forall x s, body x s = body' x s) -> for_each body l s = for_each body' l s.
Proof.
  intros Hb. revert s. induction l as [|x l IH]; intros s; [done|]. cbn [for_each]. unfold bind.
  rewrite Hb. by destruct (body' x s) as [[[]| | |] s'].
Qed.

(** The same for a loop that ends at the end of the store only. *)
Lemma for_loop_fwd_all fuel (f : string * string -> SM S ctrl) it s :
  length (fwd it) < fuel ->
  for_loop fuel it_Valid it_Next (fun it => f (it_key it, it_value it)) it s
  = for_each f (fwd it) s.
Proof.
  intros Hf. rewrite <- (take_while_all (fun _ => true) (fwd it)) by by apply Forall_true.
  rewrite <- (for_loop_fwd fuel (fun _ => true)) by done.
  apply for_loop_ext; [|done]. intros x. by rewrite andb_true_r.
Qed.

Lemma for_loop_bwd_all fuel (f : string * string -> SM S ctrl) it s :
  length (bwd it) < fuel ->
  for_loop fuel it_Valid it_Prev (fun it => f (it_key it, it_value it)) it s
  = for_each f (bwd it) s.
Proof.
  intros Hf. rewrite <- (take_while_all (fun _ => true) (bwd it)) by by apply Forall_true.
  rewrite <- (for_loop_bwd fuel (fun _ => true)) by done.
  apply for_loop_ext; [|done]. intros x. by rewrite andb_true_r.
Qed.

(** The loop that also gives its final position goes the same way. *)
Lemma for_loop_x_spec {X} fuel cond step (body : X -> SM S ctrl) x s :
  for_loop fuel cond step body x s
  = (do! for_loop_x fuel cond step body x; ret tt) s.
Proof.
  revert x s. induction fuel as [|fuel IH]; intros x s; [done|]. simpl. unfold bind.
  destruct (cond x); [|done]. unfold bind.
  destruct (body x s) as [[[]| | |] s1]; try done.
Qed.

Lemma for_loop_x_ok {X} fuel cond step (body : X -> SM S ctrl) x s s' :
  for_loop fuel cond step body x s = (Ok tt, s') ->
  exists y, for_loop_x fuel cond step body x s = (Ok y, s').
Proof.
  rewrite for_loop_x_spec. unfold bind.
  destruct (for_loop_x _ _ _ _ _ _) as [[y| | |] s1]; try done. intros [= <-]. by exists y.
Qed.

(** It stays on the same snapshot. *)
Lemma for_loop_x_snapshot fuel p (f : string * string -> SM S ctrl) it s it' s' :
  for_loop_x fuel (fun it => it_Valid it && p (it_key it)) it_Next
    (fun it => f (it_key it, it_value it)) it s = (Ok it', s') ->
  snapshot it' = snapshot it.
Proof.
  revert it s. induction fuel as [|fuel IH]; intros it s; [done|]. simpl.
  destruct (it_Valid it) eqn:Ev; simpl; [|by intros [= -> _]].
  destruct (p (it_key it)); [|by intros [= -> _]]. unfold bind.
  destruct (f _ s) as [[[]| | |] s1]; try done; [|by intros [= -> _]].
  intros ->%IH. rewrite Valid_law, bool_decide_eq_true in Ev. destruct Ev as [i Ei].
  by destruct (Next_law it i Ei).
Qed.
End views.

(** ** An instance in memory

    The store is the log of its writes, the newest first; [healthy] tells
    whether writes succeed. *)

Definition log_apply (e : string * option string) (m : smap string) : smap string :=
  match e.2 with Some v => sm_insert e.1 v m | None => sm_delete e.1 m end.

Definition log_contents (log : list (string * option string)) : smap string :=
  foldr log_apply [] log.

Lemma log_contents_wf log : sm_wf (log_contents log).
Proof.
  induction log as [|[k [v|]] log IH]; simpl; [constructor|by apply sm_insert_wf|by apply sm_delete_wf].
Qed.

Record mem_iter := { mi_map : smap string; mi_pos : nat }.

Definition mem_position (it : mem_iter) : option nat :=
  if decide (mi_pos it < length (mi_map it)) then Some (mi_pos it) else None.

Definition mem_at (it : mem_iter) (n : nat) : mem_iter := {| mi_map := mi_map it; mi_pos := n |}.

Definition mem_entry (it : mem_iter) : string * string :=
  default (EmptyString, EmptyString) (mi_map it !! mi_pos it).

Definition mem_rocksdb (healthy : bool) : RocksDB := {|
  DB := list (string * option string);
  Iter := mem_iter;
  WriteBatch := list string;
  db_Get db k := sm_lookup k (log_contents db);
  db_Put db k v := (healthy, if healthy then (k, Some v) :: db else db);
  db_Delete db k := (healthy, if healthy then (k, None) :: db else db);
  batch_new := [];
  batch_Delete b k := b ++ [k];
  db_Write db b := (healthy, if healthy then ((fun k => (k, None)) <$> reverse b) ++ db else db);
  NewIterator db := {| mi_map := log_contents db; mi_pos := length (log_contents db) |};
  it_Seek it k := mem_at it (sm_lower_bound k (mi_map it));
  it_SeekToFirst it := mem_at it 0;
  it_SeekToLast it := mem_at it (length (mi_map it) - 1);
  it_Next it := mem_at it (S (mi_pos it));
  it_Prev it := mem_at it (match mi_pos it with O => length (mi_map it) | S i => i end);
  it_Valid it := bool_decide (is_Some (mem_position it));
  it_key it := (mem_entry it).1;
  it_value it := (mem_entry it).2;
  it_status_ok _ := true
|}.

#[export] Instance mem_rocksdb_laws (healthy : bool) : RocksDBLaws (R := mem_rocksdb healthy).
Proof.
  refine (@Build_RocksDBLaws (mem_rocksdb healthy) log_contents _ _ _ _ _ _ id _ _ _ _
            mi_map mem_position _ _ _ _ _ _ _ _ _ _).
  - apply log_contents_wf.
  - done.
  - destruct healthy; intros db k v db'; simpl; by intros [= <-].
  - destruct healthy; intros db k v db'; simpl; by intros [= <-].
  - destruct healthy; intros db k db'; simpl; by intros [= <-].
  - destruct healthy; intros db k db'; simpl; by intros [= <-].
  - done.
  - done.
  - destruct healthy; intros db b db'; simpl; intros [= <-]. unfold log_contents.
    rewrite foldr_app. generalize (foldr log_apply [] db).
    induction b as [|k b IH] using rev_ind; intros m; [done|].
    unfold id in *. rewrite reverse_snoc, foldl_app. simpl. by rewrite IH.
  - destruct healthy; intros db b db'; simpl; by intros [= <-].
  - intros it i. unfold mem_position. case_decide; intros [= <-]. done.
  - done.
  - intros it k. done.
  - intros it. split; [done|]. unfold mem_position. simpl. by destruct (mi_map it).
  - intros it. split; [done|]. unfold mem_position. simpl.
    destruct (mi_map it); simpl; [done|]. by rewrite decide_True by lia.
  - intros it i. unfold mem_position. case_decide; intros [= <-]. done.
  - intros it i. unfold mem_position. case_decide; intros [= <-]. split; [done|]. simpl.
    destruct (mi_pos it); [by rewrite decide_False by lia|by rewrite decide_True by lia].
  - done.
  - intros it i. unfold mem_position. case_decide as Hlt; intros [= <-]. simpl.
    unfold mem_entry. destruct (lookup_lt_is_Some_2 _ _ Hlt) as [[k v] E]. by rewrite E.
  - done.
Defined.
