(* ===== verification/World.v ===== *)
(** * The state of a node

    What the free functions and the [Core] singleton of
    [src/src/quarks.cpp] keep: the open database and its status, the options
    of the command line, the cache, and the messages a node hands to its
    writer socket or to its logger.  [setEnvironment] fills the options,
    [openDB] opens the database (and fills the cache), [run] settles the
    addresses of a cloud node; [putRequest] and [removeRequest] propagate a
    change to the other nodes. *)

From S2P Require Import Prelude SortedMap Json Store.
Open Scope quarks_scope.

(** ** Tokens *)

Fixpoint tokenize_from (delim : ascii) (token input : string) : list string :=
  match input with
  | EmptyString => match token with EmptyString => [] | _ => [token] end
  | String c input =>
      if Ascii.eqb c delim then token :: tokenize_from delim EmptyString input
      else tokenize_from delim (token +:+ String c EmptyString) input
  end.

(** [tokenize]: [std::getline] up to the end of the input; what follows the
    last delimiter is a token only if it is not empty. *)
Definition tokenize (input : string) (delim : ascii) : list string :=
  tokenize_from delim EmptyString input.

(** ** Command-line options *)

Record config := {
  portNumber : Z;
  timeout : Z;
  hooksocket : bool;
  broker : bool;
  writer : bool;
  reader : bool;
  tcpServer : bool;
  tcpClient : bool;
  hasLogger : bool;
  tcpUrl : string;
  loggerUrl : string;
  brokerUrl : string;
  brokerBindUrl : string;
  sinkUrl : string;
  producerUrl : string;
  consumerUrl : string;
  CacheEnabled : bool;
  dbPath : string
}.

(** The constructor [Core::Core], and the globals. *)
Definition initial_config : config := {|
  portNumber := 18080; timeout := 0; hooksocket := true;
  broker := false; writer := false; reader := false;
  tcpServer := false; tcpClient := false; hasLogger := false;
  tcpUrl := ""; loggerUrl := ""; brokerUrl := ""; brokerBindUrl := ""; sinkUrl := "";
  producerUrl := ""; consumerUrl := ""; CacheEnabled := false; dbPath := "" |}.

(** The local flags of [setEnvironment]: the option whose value comes next. *)
Inductive flag :=
  | schemaFlag | portFlag | interceptsocketFlag | brokerFlag | sinkFlag | readerFlag
  | writerFlag | producerFlag | consumerFlag | tcpServerFlag | tcpClientFlag
  | loggerFlag | timeoutFlag.

#[export] Instance flag_eq_dec : EqDecision flag.
Proof. solve_decision. Defined.

(** The state of the loop: the options so far, [schemaname], the raised flags. *)
Record env_state := { e_cfg : config; e_schema : string; e_flags : list flag }.

Definition raised (f : flag) (s : env_state) : bool := bool_decide (f ∈ e_flags s).
Definition clear (f : flag) (s : env_state) : env_state :=
  {| e_cfg := e_cfg s; e_schema := e_schema s;
     e_flags := filter (fun g => g <> f) (e_flags s) |}.
Definition raise (f : flag) (s : env_state) : env_state :=
  {| e_cfg := e_cfg s; e_schema := e_schema s; e_flags := f :: e_flags s |}.
Definition with_cfg (c : config) (s : env_state) : env_state :=
  {| e_cfg := c; e_schema := e_schema s; e_flags := e_flags s |}.
Definition with_schema (n : string) (s : env_state) : env_state :=
  {| e_cfg := e_cfg s; e_schema := n; e_flags := e_flags s |}.

Definition set_port z c := {| portNumber := z; timeout := timeout c; hooksocket := hooksocket c;
  broker := broker c; writer := writer c; reader := reader c; tcpServer := tcpServer c;
  tcpClient := tcpClient c; hasLogger := hasLogger c; tcpUrl := tcpUrl c;
  loggerUrl := loggerUrl c; brokerUrl := brokerUrl c; brokerBindUrl := brokerBindUrl c;
  sinkUrl := sinkUrl c; producerUrl := producerUrl c; consumerUrl := consumerUrl c;
  CacheEnabled := CacheEnabled c; dbPath := dbPath c |}.
Definition set_timeout z c := {| portNumber := portNumber c; timeout := z;
  hooksocket := hooksocket c;
  broker := broker c; writer := writer c; reader := reader c; tcpServer := tcpServer c;
  tcpClient := tcpClient c; hasLogger := hasLogger c; tcpUrl := tcpUrl c;
  loggerUrl := loggerUrl c; brokerUrl := brokerUrl c; brokerBindUrl := brokerBindUrl c;
  sinkUrl := sinkUrl c; producerUrl := producerUrl c; consumerUrl := consumerUrl c;
  CacheEnabled := CacheEnabled c; dbPath := dbPath c |}.
Definition set_switches hs br wr rd ts tc lg ca c := {| portNumber := portNumber c;
  timeout := timeout c; hooksocket := hs; broker := br; writer := wr; reader := rd;
  tcpServer := ts; tcpClient := tc; hasLogger := lg; tcpUrl := tcpUrl c;
  loggerUrl := loggerUrl c; brokerUrl := brokerUrl c; brokerBindUrl := brokerBindUrl c;
  sinkUrl := sinkUrl c; producerUrl := producerUrl c; consumerUrl := consumerUrl c;
  CacheEnabled := ca; dbPath := dbPath c |}.
Definition set_urls tcp lg br bb sk pr co db c := {| portNumber := portNumber c;
  timeout := timeout c; hooksocket := hooksocket c; broker := broker c; writer := writer c;
  reader := reader c; tcpServer := tcpServer c; tcpClient := tcpClient c;
  hasLogger := hasLogger c; tcpUrl := tcp; loggerUrl := lg; brokerUrl := br;
  brokerBindUrl := bb; sinkUrl := sk; producerUrl := pr; consumerUrl := co;
  CacheEnabled := CacheEnabled c; dbPath := db |}.


Definition store_url (f : flag) (v : string) (c : config) : config :=
  let keep := set_urls (tcpUrl c) (loggerUrl c) (brokerUrl c) (brokerBindUrl c) (sinkUrl c)
                (producerUrl c) (consumerUrl c) (dbPath c) in
  match f with
  | brokerFlag => set_urls (tcpUrl c) (loggerUrl c) (brokerUrl c) v (sinkUrl c)
                    (producerUrl c) (consumerUrl c) (dbPath c) c
  | sinkFlag => set_urls (tcpUrl c) (loggerUrl c) (brokerUrl c) (brokerBindUrl c) v
                    (producerUrl c) (consumerUrl c) (dbPath c) c
  | readerFlag | writerFlag =>
                set_urls (tcpUrl c) (loggerUrl c) v (brokerBindUrl c) (sinkUrl c)
                    (producerUrl c) (consumerUrl c) (dbPath c) c
  | producerFlag => set_urls (tcpUrl c) (loggerUrl c) (brokerUrl c) (brokerBindUrl c) (sinkUrl c)
                    v (consumerUrl c) (dbPath c) c
  | consumerFlag => set_urls (tcpUrl c) (loggerUrl c) (brokerUrl c) (brokerBindUrl c) (sinkUrl c)
                    (producerUrl c) v (dbPath c) c
  | tcpServerFlag | tcpClientFlag =>
                set_urls v (loggerUrl c) (brokerUrl c) (brokerBindUrl c) (sinkUrl c)
                    (producerUrl c) (consumerUrl c) (dbPath c) c
  | loggerFlag => set_urls (tcpUrl c) v (brokerUrl c) (brokerBindUrl c) (sinkUrl c)
                    (producerUrl c) (consumerUrl c) (dbPath c) c
  | _ => keep c
  end.

Definition switch (f : flag) (c : config) : config :=
  let hs := hooksocket c in let br := broker c in let wr := writer c in let rd := reader c in
  let ts := tcpServer c in let tc := tcpClient c in let lg := hasLogger c in
  let ca := CacheEnabled c in
  match f with
  | interceptsocketFlag => set_switches false br wr rd ts tc lg ca c
  | brokerFlag => set_switches hs true wr rd ts tc lg ca c
  | readerFlag => set_switches hs br wr true ts tc lg ca c
  | writerFlag => set_switches hs br true rd ts tc lg ca c
  | tcpServerFlag => set_switches hs br wr rd true tc lg ca c
  | tcpClientFlag => set_switches hs br wr rd ts true lg ca c
  | loggerFlag => set_switches hs br wr rd ts tc true ca c
  | _ => c
  end.

(** The body of the [if]/[else if] branch of a raised flag, given the argument. *)
Definition take_value (f : flag) (v : string) (s : env_state) : outcome env_state :=
  match f with
  | schemaFlag => Ok (with_schema v s)
  | portFlag => let? n := stoi v in Ok (with_cfg (set_port n (e_cfg s)) s)
  | timeoutFlag => let? n := stoi v in Ok (with_cfg (set_timeout n (e_cfg s)) s)
  | _ => Ok (with_cfg (store_url f v (switch f (e_cfg s))) s)
  end.

(** The flags in the order the [if]/[else if] chain tests them. *)
Definition flag_chain : list flag :=
  [schemaFlag; portFlag; interceptsocketFlag; brokerFlag; sinkFlag; readerFlag; writerFlag;
   producerFlag; consumerFlag; tcpServerFlag; tcpClientFlag; loggerFlag; timeoutFlag].

Definition first_raised (s : env_state) : option flag :=
  head (filterb (fun f => raised f s) flag_chain).

(** The second chain: the option names.  It runs for every argument, the one
    just taken as a value included. *)
Definition option_flag (v : string) : option flag :=
  let same := String.eqb v in
  if same "-db" || same "-store" then Some schemaFlag
  else if same "-port" then Some portFlag
  else if same "-nohooksocket" then Some interceptsocketFlag
  else if same "-broker" then Some brokerFlag
  else if same "-sink" then Some sinkFlag
  else if same "-reader" then Some readerFlag
  else if same "-writer" then Some writerFlag
  else if same "-producer" || same "-publisher" then Some producerFlag
  else if same "-consumer" || same "-subscriber" then Some consumerFlag
  else if same "-tcpserver" then Some tcpServerFlag
  else if same "-tcpclient" then Some tcpClientFlag
  else if same "-log" then Some loggerFlag
  else if same "-timeout" then Some timeoutFlag
  else None.

Definition enable_cache (c : config) : config :=
  set_switches (hooksocket c) (broker c) (writer c) (reader c) (tcpServer c) (tcpClient c)
    (hasLogger c) true c.

Definition take_option (v : string) (s : env_state) : env_state :=
  match option_flag v with
  | Some f => raise f s
  | None => if String.eqb v "-cached" then with_cfg (enable_cache (e_cfg s)) s else s
  end.

(** One turn of [for(auto v : _argv)]. *)
Definition env_step (v : string) (s : env_state) : outcome env_state :=
  let? s := match first_raised s with
            | Some f => let? s := take_value f v s in Ok (clear f s)
            | None => Ok s
            end in
  Ok (take_option v s).

Fixpoint env_loop (argv : list string) (s : env_state) : outcome env_state :=
  match argv with
  | [] => Ok s
  | v :: argv => let? s := env_step v s in env_loop argv s
  end.

(** What [setEnvironment] resets before the loop. *)
Definition env_reset (c : config) : config :=
  set_switches true false false false false false false (CacheEnabled c) c.

(** [Core::setEnvironment] up to the call of [openDB]: the options, the schema
    name in [dbPath]. *)
Definition parse_arguments (argv : list string) (c : config) : outcome config :=
  let? s := env_loop argv {| e_cfg := env_reset c; e_schema := "quarks_db"; e_flags := [] |} in
  let c := e_cfg s in
  Ok (set_urls (tcpUrl c) (loggerUrl c) (brokerUrl c) (brokerBindUrl c) (sinkUrl c)
        (producerUrl c) (consumerUrl c) (e_schema s) c).

(** ** The addresses of a cloud node ([Core::run])

    The call of the cloud library that [run] ends with, if any. *)
Inductive node_call :=
  | runBroker (bindUrl publisherUrl sink : string)
  | runWriter (brokerUrl producer consumer sink : string)
  | runReader (brokerUrl : string).

Definition default_to (d url : string) : string :=
  match url with EmptyString => d | _ => url end.

(** [runBroker], ...: the configuration after the addresses are settled, and
    the call made with it.  [tokens\[2\]] of a two-element vector is out of its
    bounds. *)
Definition run (c : config) : outcome (config * option node_call) :=
  let put pr co sk br := set_urls (tcpUrl c) (loggerUrl c) br (brokerBindUrl c) sk pr co
                           (dbPath c) c in
  if broker c then
    let tokens := tokenize (brokerBindUrl c) ":" in
    let? portNumber := match tokens with
                       | [] | [_] => Ok 5556%Z
                       | [_; _] => Undef
                       | _ :: _ :: t :: _ => stoi t
                       end in
    let pr := default_to ("tcp://*:" +:+ to_string (int32 (portNumber + 1))) (producerUrl c) in
    let sk := if String.eqb (sinkUrl c) "x" then "tcp://*:5558" else sinkUrl c in
    Ok (put pr (consumerUrl c) sk (brokerUrl c),
        Some (runBroker (c_str (brokerBindUrl c)) (c_str pr) (c_str sk)))
  else if writer c then
    let pr := default_to "tcp://*:5557" (producerUrl c) in
    let co := default_to "tcp://localhost:5557" (consumerUrl c) in
    let sk := if String.eqb (sinkUrl c) "x" then "tcp://*:5558"
              else if String.eqb (sinkUrl c) "+" then "tcp://localhost:5558"
              else sinkUrl c in
    Ok (put pr co sk (brokerUrl c),
        Some (runWriter (c_str (brokerUrl c)) (c_str pr) (c_str co) (c_str sk)))
  else if reader c then
    let br := if String.eqb (brokerUrl c) "+" then "tcp://localhost:5556" else brokerUrl c in
    Ok (put (producerUrl c) (consumerUrl c) (sinkUrl c) br, Some (runReader (c_str br)))
  else Ok (c, None).

(** ** The state of the process *)

(** What a node sends: bytes handed to the writer socket, requests to the logger. *)
Inductive event :=
  | EvWrite (data : string)
  | EvHttpPost (url body : string)
  | EvHttpGet (url : string).

Section world.
Context {plat : Platform} {R : RocksDB}.

Record world := {
  db : option DB;          (* [None]: the null pointer *)
  dbStatus_ok : bool;
  cfg : config;
  CacheMap : smap string;
  events : list event      (* the oldest first *)
}.

Definition initial_world : world := {|
  db := None; dbStatus_ok := true; cfg := initial_config; CacheMap := []; events := [] |}.

Definition set_db (d : DB) (w : world) : world := {|
  db := Some d; dbStatus_ok := dbStatus_ok w; cfg := cfg w; CacheMap := CacheMap w;
  events := events w |}.
Definition set_cache (m : smap string) (w : world) : world := {|
  db := db w; dbStatus_ok := dbStatus_ok w; cfg := cfg w; CacheMap := m;
  events := events w |}.
Definition set_status (b : bool) (w : world) : world := {|
  db := db w; dbStatus_ok := b; cfg := cfg w; CacheMap := CacheMap w;
  events := events w |}.
Definition set_config (c : config) (w : world) : world := {|
  db := db w; dbStatus_ok := dbStatus_ok w; cfg := c; CacheMap := CacheMap w;
  events := events w |}.
Definition emit (e : event) (w : world) : world := {|
  db := db w; dbStatus_ok := dbStatus_ok w; cfg := cfg w; CacheMap := CacheMap w;
  events := events w ++ [e] |}.

(** [db->...]: a call through the pointer *)
Definition the_db : SM world DB := fun w =>
  match db w with Some d => (Ok d, w) | None => (Undef, w) end.

(** [db->Get], [db->Put], [db->Delete]: whether the status is ok (and the value read) *)
Definition Get (key : string) : SM world (option string) :=
  let! d := the_db in ret (db_Get d key).
Definition Put (key value : string) : SM world bool :=
  let! d := the_db in
  let '(ok, d) := db_Put d key value in
  do! modify (set_db d); ret ok.
Definition Delete (key : string) : SM world bool :=
  let! d := the_db in
  let '(ok, d) := db_Delete d key in
  do! modify (set_db d); ret ok.

(** ** The cache map *)

(** [_CacheMap\[key\]] inserts an empty value for an absent key. *)
Definition _GetCached (key : string) : SM world (bool * string) := fun w =>
  match sm_lookup key (CacheMap w) with
  | Some v => (Ok (true, v), w)
  | None => (Ok (true, EmptyString), set_cache (sm_insert key EmptyString (CacheMap w)) w)
  end.

Definition _PutCached (key value : string) : SM world bool :=
  do! modify (fun w => set_cache (sm_insert key value (CacheMap w)) w); ret true.

(** ** Opening the database *)

(** [openDB]; [opened] is what [rocksdb::DB::Open] gives for the schema.  [fuel]
    bounds the turns of the loop that fills the cache. *)
Definition openDB (fuel : nat) (opened : option DB) : SM world unit :=
  do! match opened with
      | Some d => do! modify (set_db d); modify (set_status true)
      | None => modify (set_status false)
      end;
  let! w := get_st in
  if CacheEnabled (cfg w) then
    let! d := the_db in
    for_loop fuel it_Valid it_Next
      (fun it => do! _PutCached (it_key it) (it_value it); ret Continue)
      (it_SeekToFirst (NewIterator d))
  else ret tt.

(** [Core::setEnvironment]; [Open] is [rocksdb::DB::Open]. *)
Definition setEnvironment (fuel : nat) (Open : string -> option DB) (argv : list string)
    : SM world unit :=
  let! w := get_st in
  let! c := lift (parse_arguments argv (cfg w)) in
  do! modify (set_config c);
  openDB fuel (Open (dbPath c)).

(** ** Propagating a change *)

(** The body [httpPost] sends: the key and the value between fixed texts. *)
Definition http_body (key value : string) : string :=
  "{" +:+ q "`key`:`" +:+ key +:+ q "`, `value`:" +:+ value +:+ "}".

Definition httpPost (url key value : string) : SM world unit :=
  modify (emit (EvHttpPost (c_str url) (http_body key value))).
Definition httpGet (url : string) : SM world unit := modify (emit (EvHttpGet url)).

(** [__WriterNode.write(data.c_str(), data.size()+1)]: the trailing zero is sent *)
Definition node_write (data : string) : SM world unit :=
  modify (emit (EvWrite (data +:+ String NUL EmptyString))).

Definition node_message (value key action : string) : wvalue :=
  w_set "action" (WStr action) (w_set "key" (WStr key) (w_set "value" (WStr value) WNull)).

Definition putRequest (key value : string) : SM world unit :=
  let! w := get_st in
  do! (if CacheEnabled (cfg w) then do! _PutCached key value; ret tt else ret tt);
  do! (if writer (cfg w) then node_write (dump (node_message value key "put")) else ret tt);
  if hasLogger (cfg w) then
    httpPost (c_str (loggerUrl (cfg w)) +:+ "/putjson") key value
  else ret tt.

Definition removeRequest (key : string) : SM world unit :=
  let! w := get_st in
  do! (if writer (cfg w) then node_write (dump (node_message EmptyString key "remove"))
       else ret tt);
  if hasLogger (cfg w) then
    httpGet (c_str (loggerUrl (cfg w)) +:+ "/remove?key=" +:+ key)
  else ret tt.

(** [qcSave]: what a node does with a message of its publisher; [data] is read
    as a C string. *)
Definition qcSave (data : string) : SM world unit :=
  match load (c_str data) with
  | None => ret tt
  | Some x =>
      let! key := lift (r_at_s (Some x) "key") in
      let! value := lift (r_at_s (Some x) "value") in
      let! action := lift (r_at_s (Some x) "action") in
      let! w := get_st in
      if dbStatus_ok w then
        if String.eqb action "put" then do! Put key value; ret tt
        else if String.eqb action "remove" then do! Delete key; ret tt
        else ret tt
      else ret tt
  end.

(** [getKeyValuePair]: the result, the value read ([None]: [value] is left as it
    was) and [out]. *)
Definition result_true : string := q "{`result`:true}".
Definition result_false : string := q "{`result`:false}".
Definition db_status_error : string := q "{`error`:`db status error`}".

Definition getKeyValuePair (key : string) : SM world (bool * option string * string) :=
  let! w := get_st in
  if dbStatus_ok w then
    let! v := Get key in
    match v with
    | Some v => ret (true, Some v, result_true)
    | None => ret (false, None, result_false)
    end
  else ret (false, None, db_status_error).
End world.
#[global] Arguments putRequest : simpl never.
#[global] Arguments removeRequest : simpl never.
#[global] Arguments Get : simpl never.
#[global] Arguments Put : simpl never.
#[global] Arguments Delete : simpl never.
#[global] Arguments getKeyValuePair : simpl never.

(** ** Properties *)

(** Joining tokens with the delimiter between them. *)
Fixpoint join (delim : ascii) (ts : list string) : string :=
  match ts with
  | [] => EmptyString
  | [t] => t
  | t :: ts => t +:+ String delim (join delim ts)
  end.

Lemma find_char_app_None c a b :
  find_char c (a +:+ b) = None <-> find_char c a = None /\ find_char c b = None.
Proof.
  induction a as [|d a IH]; simpl; [tauto|].
  destruct (Ascii.eqb d c); [split; [done|by intros []]|]. by rewrite !fmap_None.
Qed.

Lemma tokenize_from_token delim token t rest :
  find_char delim t = None ->
  tokenize_from delim token (t +:+ rest) = tokenize_from delim (token +:+ t) rest.
Proof.
  revert token. induction t as [|c t IH]; intros token; simpl; [by rewrite sapp_nil_r|].
  destruct (Ascii.eqb c delim); [done|]. intros H%fmap_None.
  rewrite IH by done. by rewrite sapp_assoc.
Qed.

Lemma tokenize_from_ne delim token s :
  token <> EmptyString \/ s <> EmptyString -> tokenize_from delim token s <> [].
Proof.
  revert token. induction s as [|c s IH]; intros token H; simpl.
  - destruct token; [by destruct H|done].
  - destruct (Ascii.eqb c delim); [done|]. apply IH. left. by destruct token.
Qed.

Lemma tokenize_from_join delim token s :
  join delim (tokenize_from delim token s) = token +:+ s \/
  join delim (tokenize_from delim token s) +:+ String delim EmptyString = token +:+ s.
Proof.
  revert token. induction s as [|c s IH]; intros token; simpl.
  { left. destruct token; simpl; [done|]. by rewrite sapp_nil_r. }
  destruct (Ascii.eqb_spec c delim) as [->|_].
  - destruct s as [|d s]; [by right|].
    assert (tokenize_from delim EmptyString (String d s) <> []) as Hne.
    { apply tokenize_from_ne. by right. }
    specialize (IH EmptyString). destruct (tokenize_from delim EmptyString (String d s)); [done|].
    cbn [join]. destruct IH as [IH|IH]; [left|right]; cbn [String.append] in IH;
      rewrite <- IH, ?sapp_assoc; done.
  - specialize (IH (token +:+ String c EmptyString)). rewrite sapp_assoc in IH. exact IH.
Qed.

Lemma tokenize_joined delim ts :
  Forall (fun t => find_char delim t = None) ts -> last ts <> Some EmptyString ->
  tokenize (join delim ts) delim = ts.
Proof.
  intros Hts Hl. unfold tokenize. induction Hts as [|t ts Ht Hts IH]; [done|].
  destruct ts as [|u ts].
  - cbn [join]. rewrite <- (sapp_nil_r t) at 1. rewrite tokenize_from_token by done.
    simpl in *. destruct t; simpl; [by destruct Hl|done].
  - change (join delim (t :: u :: ts)) with (t +:+ String delim (join delim (u :: ts))).
    rewrite tokenize_from_token by done. cbn [tokenize_from String.append].
    by rewrite Ascii.eqb_refl, IH.
Qed.

(** [tokenize] and joining with the delimiter undo each other: tokens that
    do not hold the delimiter, the last one not empty, are found again, and the
    tokens of any text joined give the text back, up to one delimiter at its
    end. *)
Theorem tokenize_join (delim : ascii) (ts : list string) (s : string) :
  Forall (fun t => find_char delim t = None) ts -> last ts <> Some EmptyString ->
  tokenize (join delim ts) delim = ts /\
  (join delim (tokenize s delim) = s \/
   join delim (tokenize s delim) +:+ String delim EmptyString = s).
Proof.
  intros Hts Hl. split; [by apply tokenize_joined|apply tokenize_from_join].
Qed.

Theorem tokenize_join_witness :
  tokenize (join ":" ["tcp"; "//*"; "5556"]) ":" = ["tcp"; "//*"; "5556"].
Proof.
  apply (tokenize_join ":" ["tcp"; "//*"; "5556"] ""); [repeat constructor|done].
Defined.

(** *** The command line *)

(** A command line of options that take a value, each followed by its value. *)
Definition setting : Type := string * string.
Definition setting_ok (p : setting) : Prop :=
  is_Some (option_flag p.1) /\ option_flag p.2 = None /\ p.2 <> "-cached".

Fixpoint settings_argv (l : list setting) : list string :=
  match l with [] => [] | p :: l => p.1 :: p.2 :: settings_argv l end.

(** What a list of settings amounts to: the last value given under one of the
    names, the last number, whether one of the names was given at all. *)
Definition value_or (names : list string) (d : string) (l : list setting) : string :=
  fold_left (fun v p => if existsb (String.eqb p.1) names then p.2 else v) l d.
Definition number_or (name : string) (d : Z) (l : list setting) : Z :=
  fold_left (fun n p => if String.eqb p.1 name
                        then match stoi p.2 with Ok k => k | _ => n end else n) l d.
Definition given (names : list string) (b : bool) (l : list setting) : bool :=
  fold_left (fun b p => b || existsb (String.eqb p.1) names) l b.

(** The values of [-port] and [-timeout] are numbers. *)
Definition number_ok (p : setting) : Prop :=
  p.1 = "-port" \/ p.1 = "-timeout" -> exists n, stoi p.2 = Ok n.

(** The options a list of settings leaves, from the options [c]. *)
Definition configured (db : string) (c : config) (l : list setting) : config := {|
  portNumber := number_or "-port" (portNumber c) l;
  timeout := number_or "-timeout" (timeout c) l;
  hooksocket := negb (given ["-nohooksocket"] (negb (hooksocket c)) l);
  broker := given ["-broker"] (broker c) l;
  writer := given ["-writer"] (writer c) l;
  reader := given ["-reader"] (reader c) l;
  tcpServer := given ["-tcpserver"] (tcpServer c) l;
  tcpClient := given ["-tcpclient"] (tcpClient c) l;
  hasLogger := given ["-log"] (hasLogger c) l;
  tcpUrl := value_or ["-tcpserver"; "-tcpclient"] (tcpUrl c) l;
  loggerUrl := value_or ["-log"] (loggerUrl c) l;
  brokerUrl := value_or ["-reader"; "-writer"] (brokerUrl c) l;
  brokerBindUrl := value_or ["-broker"] (brokerBindUrl c) l;
  sinkUrl := value_or ["-sink"] (sinkUrl c) l;
  producerUrl := value_or ["-producer"; "-publisher"] (producerUrl c) l;
  consumerUrl := value_or ["-consumer"; "-subscriber"] (consumerUrl c) l;
  CacheEnabled := CacheEnabled c;
  dbPath := value_or ["-db"; "-store"] db l |}.

Lemma first_raised_none s : e_flags s = [] -> first_raised s = None.
Proof. destruct s as [c n fl]. simpl. by intros ->. Qed.

Lemma first_raised_one s f : e_flags s = [f] -> first_raised s = Some f.
Proof. destruct s as [c n fl]. simpl. intros ->. by destruct f. Qed.

Lemma take_value_flags f v s s' : take_value f v s = Ok s' -> e_flags s' = e_flags s.
Proof.
  destruct f; simpl; try (by intros [= <-]).
  all: destruct (stoi v); simpl; by intros [= <-].
Qed.

Lemma env_setting p f rest s :
  e_flags s = [] -> option_flag p.1 = Some f -> option_flag p.2 = None -> p.2 <> "-cached" ->
  env_loop (p.1 :: p.2 :: rest) s = let? s := take_value f p.2 s in env_loop rest s.
Proof.
  intros Hs Hf Hv Hc. cbn [env_loop]. unfold env_step at 1.
  rewrite first_raised_none by done. cbn [obind]. unfold take_option at 1. rewrite Hf.
  cbn [obind]. unfold env_step. rewrite (first_raised_one _ f) by by (simpl; rewrite Hs).
  assert (forall s', take_option p.2 s' = s') as Ht.
  { intros s'. unfold take_option. rewrite Hv. by destruct (String.eqb_spec p.2 "-cached"). }
  assert (Hr : forall s', e_flags s' = [f] -> clear f s'
               = {| e_cfg := e_cfg s'; e_schema := e_schema s'; e_flags := [] |}).
  { intros s' E. unfold clear. rewrite E. by destruct f. }
  destruct s as [c n fl]. simpl in Hs. subst fl. unfold raise. cbn [e_cfg e_schema e_flags].
  destruct f; cbn [take_value e_cfg]; rewrite ?Hr by done; cbn [obind]; rewrite ?Ht; try done.
  all: destruct (stoi p.2); cbn [obind]; try done; rewrite ?Ht; by rewrite Hr.
Qed.

Lemma settings_argv_app l1 l2 : settings_argv (l1 ++ l2) = settings_argv l1 ++ settings_argv l2.
Proof. induction l1 as [|p l1 IH]; [done|]. simpl. by rewrite IH. Qed.

Lemma env_loop_app a1 a2 s :
  env_loop (a1 ++ a2) s = (let? s := env_loop a1 s in env_loop a2 s).
Proof.
  revert s. induction a1 as [|v a1 IH]; intros s; [done|]. cbn [app env_loop].
  destruct (env_step v s); cbn [obind]; [apply IH|done..].
Qed.

(** One setting, taken by its branch, is what [configured] says of it. *)
Definition with_path (db : string) (c : config) : config :=
  set_urls (tcpUrl c) (loggerUrl c) (brokerUrl c) (brokerBindUrl c) (sinkUrl c)
    (producerUrl c) (consumerUrl c) db c.

Lemma take_configured p f s : option_flag p.1 = Some f -> number_ok p ->
  exists s', take_value f p.2 s = Ok s' /\
    forall l, configured (e_schema s') (e_cfg s') l = configured (e_schema s) (e_cfg s) (p :: l).
Proof.
  destruct p as [n v]. unfold number_ok, option_flag. cbn [fst snd]. intros Hf Hn.
  repeat match type of Hf with
         | context [String.eqb n ?k] => destruct (String.eqb_spec n k) as [->|?]; cbn [orb] in Hf
         end; simplify_eq; cbn [take_value].
  all: try (eexists; split; [reflexivity|]; intros l; destruct s as [[] ? ?]; cbn;
            unfold configured; f_equal;
            cbn; rewrite ?orb_true_r, ?orb_false_r; by cbn).
  all: destruct Hn as [k Hk]; [by auto|]; rewrite Hk; eexists; split; [reflexivity|];
    intros l; destruct s as [[] ? ?]; cbn; unfold configured, number_or;
    f_equal; cbn; by rewrite ?orb_false_r, ?Hk.
Qed.

Lemma env_settings l s : Forall setting_ok l -> Forall number_ok l -> e_flags s = [] ->
  exists s', env_loop (settings_argv l) s = Ok s' /\ e_flags s' = [] /\
    with_path (e_schema s') (e_cfg s') = configured (e_schema s) (e_cfg s) l.
Proof.
  intros Hl. revert s. induction Hl as [|p l [[f Hf] [Hv Hc]] _ IH]; intros s Hn Hs.
  { exists s. split_and!; [done..|]. destruct s as [[] ? ?]. unfold configured. cbn.
    by rewrite negb_involutive. }
  apply Forall_cons in Hn as [Hp Hn].
  destruct (take_configured p f s Hf Hp) as (s1 & E & Es).
  destruct (IH s1 Hn) as (s2 & E2 & Ef & Ec).
  { by rewrite (take_value_flags _ _ _ _ E). }
  exists s2. cbn [settings_argv]. rewrite (env_setting p f), E by done. cbn [obind].
  by rewrite E2, Ec, Es.
Qed.

(** on a command line of options each followed by its value, no value
    being an option name itself, [setEnvironment] leaves the last value given
    under each name (the two names of the store, the producer and the consumer
    are one), the numbers of the port and the timeout, and the switches of the
    roles that were named, all starting from the defaults; the first number
    that [std::stoi] rejects ends it with that exception. *)
Theorem parse_settings (l : list setting) (c : config) :
  Forall setting_ok l -> Forall number_ok l ->
  parse_arguments (settings_argv l) c = Ok (configured "quarks_db" (env_reset c) l) /\
  forall p l' e, setting_ok p -> p.1 = "-port" \/ p.1 = "-timeout" -> stoi p.2 = Throw e ->
    parse_arguments (settings_argv (l ++ p :: l')) c = Throw e.
Proof.
  intros Hl Hn. set (s := {| e_cfg := env_reset c; e_schema := "quarks_db"; e_flags := [] |}).
  destruct (env_settings l s Hl Hn) as (s' & E & Ef & Ec); [done|]. split.
  - unfold parse_arguments. fold s. rewrite E. cbn [obind].
    change (Ok (with_path (e_schema s') (e_cfg s'))
            = Ok (configured (e_schema s) (e_cfg s) l)). by rewrite Ec.
  - intros p l' e [[f Hf] [Hv Hc]] Hp He. unfold parse_arguments. fold s.
    rewrite settings_argv_app, env_loop_app, E. cbn [obind settings_argv].
    rewrite (env_setting p f) by done.
    destruct p as [n v]. cbn [fst snd] in *.
    destruct Hp as [-> | ->]; injection Hf as <-; cbn [take_value]; by rewrite He.
Qed.

Theorem parse_settings_witness :
  let argv := ["-db"; "mydb"; "-port"; "8080"; "-log"; "x"; "-port"; "8081"] in
  (exists c, parse_arguments argv initial_config = Ok c /\ portNumber c = 8081%Z /\
     dbPath c = "mydb" /\ hasLogger c = true /\ reader c = false) /\
  parse_arguments (argv ++ ["-timeout"; "soon"]) initial_config = Throw InvalidArgument.
Proof.
  set (l := [("-db", "mydb"); ("-port", "8080"); ("-log", "x"); ("-port", "8081")]).
  destruct (parse_settings l initial_config) as [E H].
  - repeat constructor; try done; by eexists.
  - unfold l. rewrite !Forall_cons. unfold number_ok.
    split_and!; try (by apply Forall_nil); cbn;
      first [by intros [[=]|[=]]|intros _; by eexists].
  - split; [eexists; split; [exact E|by vm_compute]|].
    apply (H ("-timeout", "soon") [] InvalidArgument);
      [split; [by eexists|done]|by right|reflexivity].
Defined.

(** The value of an option is also tested against the option names, and a flag
    without a value has no effect. *)
Lemma option_value_is_option :
  match parse_arguments ["-db"; "-port"; "8080"] initial_config with
  | Ok c => dbPath c = "-port" /\ portNumber c = 8080%Z
  | _ => False
  end /\
  match parse_arguments ["-nohooksocket"] initial_config with
  | Ok c => hooksocket c = true
  | _ => False
  end.
Proof. by vm_compute. Qed.

(** *** Addresses of a cloud node *)

Lemma stoi_range s z : stoi s = Ok z -> in_int32 z.
Proof. by destruct (stoi_outcome s) as [(z' & -> & ?)|[->| ->]]; intros [= <-]. Qed.

(** [run] of a broker reads the port from the third part of the bind
    address and publishes on the next port when no producer address was given
    ([x] for the sink stands for port 5558); an address of exactly two parts
    makes it read past the end of the tokens. *)
Theorem run_broker (c c2 : config) (scheme host digits : string) (port : Z) :
  Forall (fun t => find_char ":" t = None) [scheme; host; digits] -> digits <> EmptyString ->
  stoi digits = Ok port -> port <> INT_MAX ->
  broker c = true -> producerUrl c = EmptyString -> sinkUrl c = "x" ->
  brokerBindUrl c = join ":" [scheme; host; digits] ->
  broker c2 = true -> brokerBindUrl c2 = join ":" [scheme; digits] ->
  (exists c', run c = Ok (c', Some (runBroker (c_str (brokerBindUrl c))
                              (c_str ("tcp://*:" +:+ to_string (port + 1))) "tcp://*:5558")) /\
     producerUrl c' = "tcp://*:" +:+ to_string (port + 1)) /\
  run c2 = Undef.
Proof.
  rewrite !Forall_cons. intros (Hs & Hh & Hdg & _) Hd Hp Hlt Hb Hpr Hsk Hu Hb2 Hu2.
  assert (last [scheme; host; digits] <> Some EmptyString) by by intros [= ].
  split.
  - pose proof (stoi_range _ _ Hp) as Hport. eexists. unfold run.
    rewrite Hb, Hu, tokenize_joined, Hp, Hpr, Hsk by (try done; by repeat constructor).
    cbn [obind default_to].
    rewrite int32_id; [by split|]. unfold in_int32, INT_MAX, INT_MIN in *. lia.
  - unfold run. rewrite Hb2, Hu2, tokenize_joined; [done|by repeat constructor|by intros [= ]].
Qed.

Theorem run_broker_witness :
  let c := set_urls "" "" "" "tcp://*:5556" "x" "" "" ""
             (set_switches true true false false false false false false initial_config) in
  let c2 := set_urls "" "" "" "tcp:5556" "x" "" "" "" c in
  (exists c', run c = Ok (c', Some (runBroker "tcp://*:5556" "tcp://*:5557" "tcp://*:5558")) /\
     producerUrl c' = "tcp://*:5557") /\ run c2 = Undef.
Proof.
  intros c c2. apply (run_broker c c2 "tcp" "//*" "5556" 5556); repeat constructor; done.
Defined.

(** *** A node and its store *)

Section node.
Context {plat : Platform} {R : RocksDB} {RL : RocksDBLaws}.

(** The database is open with contents [contents d]. *)
Definition opened (w : world) (d : DB) : Prop := db w = Some d /\ dbStatus_ok w = true.

Lemma Get_opened w d key : opened w d ->
  Get key w = (Ok (sm_lookup key (contents d)), w).
Proof.
  intros [Hd _]. unfold Get, the_db, bind, ret. rewrite Hd. by rewrite Get_law.
Qed.

Lemma Put_opened w d key v : opened w d ->
  Put key v w = (Ok (db_Put d key v).1, set_db (db_Put d key v).2 w).
Proof.
  intros [Hd _]. unfold Put, the_db, bind, modify, ret. rewrite Hd.
  by destruct (db_Put d key v).
Qed.

Lemma Delete_opened w d key : opened w d ->
  Delete key w = (Ok (db_Delete d key).1, set_db (db_Delete d key).2 w).
Proof.
  intros [Hd _]. unfold Delete, the_db, bind, modify, ret. rewrite Hd.
  by destruct (db_Delete d key).
Qed.

Lemma node_message_obj value key action :
  node_message value key action =
  WObj [("value", WStr value); ("key", WStr key); ("action", WStr action)].
Proof. done. Qed.

Lemma node_message_member value key action k s :
  w_get k (node_message value key action) = WStr s ->
  r_at_s (load (c_str (dump (node_message value key action) +:+ String NUL EmptyString))) k
  = Ok s.
Proof.
  intros Hk. assert (printable (node_message value key action)) as Hp by by split_and!.
  rewrite c_str_app_nul by by apply no_nul_dump. by apply load_printed_member.
Qed.

(** What a replica makes of a message. *)
Lemma qcSave_message value key action w d : opened w d ->
  qcSave (dump (node_message value key action) +:+ String NUL EmptyString) w =
  if String.eqb action "put" then (Ok tt, set_db (db_Put d key value).2 w)
  else if String.eqb action "remove" then (Ok tt, set_db (db_Delete d key).2 w)
  else (Ok tt, w).
Proof.
  intros Ho. unfold qcSave.
  pose proof (node_message_member value key action "key" key eq_refl) as Hk.
  pose proof (node_message_member value key action "value" value eq_refl) as Hv.
  pose proof (node_message_member value key action "action" action eq_refl) as Ha.
  destruct (load _) as [x|]; [|done]. rewrite Hk, Hv, Ha.
  unfold lift, bind, get_st. destruct Ho as [Hd Hs]. rewrite Hs.
  destruct (String.eqb action "put"); [by rewrite (Put_opened w d)|].
  destruct (String.eqb action "remove"); [by rewrite (Delete_opened w d)|done].
Qed.

(** What a writer node publishes for a put or a removal does the same
    change to the store of every node that receives the message, whatever
    bytes the key and the value hold. *)
Theorem change_replicated (key value : string) (w replica : world) (d : DB) :
  writer (cfg w) = true -> opened replica d ->
  (exists msg rest w', putRequest key value w = (Ok tt, w') /\
     events w' = events w ++ EvWrite msg :: rest /\
     qcSave msg replica = (Ok tt, set_db (db_Put d key value).2 replica)) /\
  (exists msg rest w', removeRequest key w = (Ok tt, w') /\
     events w' = events w ++ EvWrite msg :: rest /\
     qcSave msg replica = (Ok tt, set_db (db_Delete d key).2 replica)).
Proof.
  intros Hw Ho. pose proof (fun v a => qcSave_message v key a replica d Ho) as Hq.
  split; unfold putRequest, removeRequest, bind, get_st, _PutCached, node_write, httpPost,
    httpGet, modify, ret; rewrite Hw.
  - destruct (CacheEnabled (cfg w)), (hasLogger (cfg w)); eexists _, _, _;
      (split; [done|split; [simpl; by rewrite <- ?app_assoc|by apply (Hq value "put")]]).
  - destruct (hasLogger (cfg w)); eexists _, _, _;
      (split; [done|split; [simpl; by rewrite <- ?app_assoc|by apply (Hq EmptyString "remove")]]).
Qed.

(** [openDB] with the cache enabled: the loop over the store. *)
Definition cache_all (m c : smap string) : smap string :=
  foldl (fun c p => sm_insert p.1 p.2 c) c m.

Lemma cache_all_lookup m c k : sm_wf m ->
  sm_lookup k (cache_all m c) =
  match sm_lookup k m with Some v => Some v | None => sm_lookup k c end.
Proof.
  revert c. induction m as [|[k' v'] m IH]; intros c Hm; [done|]. simpl.
  apply sm_wf_cons in Hm as [Hm Hab]. rewrite IH by done. simpl in *.
  case_decide as Hk; [subst|by rewrite sm_lookup_insert_ne by done].
  by rewrite sm_lookup_above, sm_lookup_insert_eq.
Qed.

Lemma cache_all_wf m c : sm_wf c -> sm_wf (cache_all m c).
Proof. revert c. induction m; intros c Hc; [done|]. simpl. by apply IHm, sm_insert_wf. Qed.

Lemma cache_all_self m : sm_wf m -> cache_all m [] = m.
Proof.
  intros Hm. apply sm_ext; [apply cache_all_wf; constructor|done|].
  intros k. rewrite cache_all_lookup by done. by destruct (sm_lookup k m).
Qed.

Lemma fill_cache m w :
  for_each (fun p => do! _PutCached p.1 p.2; ret Continue) m w
  = (Ok tt, set_cache (cache_all m (CacheMap w)) w).
Proof.
  revert w. induction m as [|p m IH]; intros w; [by destruct w|].
  cbn [for_each]. unfold bind, _PutCached, modify, ret in *. cbn. by rewrite IH.
Qed.

(** Opening a database with the cache enabled makes every stored entry
    readable in the cache and keeps what else the cache held; started with
    an empty cache, the cache is the content of the store.  Without a
    database, [openDB] with the cache enabled follows a null pointer. *)
Theorem openDB_cached (fuel : nat) (d : DB) (w : world) :
  CacheEnabled (cfg w) = true -> length (contents d) < fuel ->
  exists w', openDB fuel (Some d) w = (Ok tt, w') /\ opened w' d /\
    (forall k, sm_lookup k (CacheMap w') =
       match sm_lookup k (contents d) with
       | Some v => Some v
       | None => sm_lookup k (CacheMap w)
       end) /\
    (CacheMap w = [] -> CacheMap w' = contents d) /\
    (db w = None -> (openDB fuel None w).1 = Undef).
Proof.
  intros Hc Hf. eexists. split_and!.
  - unfold openDB, bind at 1, modify, bind at 1, get_st, bind at 1. cbn. rewrite Hc.
    unfold the_db, bind at 1. cbn.
    etrans; [apply (for_loop_fwd_all fuel (fun p => do! _PutCached p.1 p.2; ret Continue))|];
      rewrite fwd_SeekToFirst; [done|apply fill_cache].
  - by split.
  - intros k. cbn. apply cache_all_lookup, contents_wf.
  - intros Hnil. cbn. rewrite Hnil. apply cache_all_self, contents_wf.
  - intros Hd. unfold openDB, bind at 1, modify, bind at 1, get_st. cbn. rewrite Hc.
    unfold bind, the_db. cbn. by rewrite Hd.
Qed.
End node.

(** ** A small store, for concrete runs *)

Module Demo.
#[export] Existing Instance int_platform.
#[export] Instance store : RocksDB := mem_rocksdb true.
#[export] Instance store_laws : RocksDBLaws := mem_rocksdb_laws true.

(** The log of the writes, the newest first. *)
Definition d : DB :=
  [("zz", Some "7"); ("user_3", Some "plain"); ("user_2", Some (q "{`n`:2,`name`:`bo`}"));
   ("user_1", Some (q "{`n`:1,`name`:`al`}")); ("count", Some "41")].

Definition w : world := {|
  db := Some d; dbStatus_ok := true;
  cfg := set_switches true false true false false false true false initial_config;
  CacheMap := []; events := [] |}.

(** The same store with the cache switched on and filled. *)
Definition cached : world := set_config (enable_cache (cfg w)) (set_cache (contents d) w).
End Demo.

Section node_witnesses.
Import Demo.

Theorem change_replicated_witness :
  (exists msg rest w', putRequest "k" "v" w = (Ok tt, w') /\
     events w' = events w ++ EvWrite msg :: rest /\
     qcSave msg w = (Ok tt, set_db (("k", Some "v") :: d) w)) /\
  (exists msg rest w', removeRequest "k" w = (Ok tt, w') /\
     events w' = events w ++ EvWrite msg :: rest /\
     qcSave msg w = (Ok tt, set_db (("k", None) :: d) w)).
Proof. apply (change_replicated "k" "v" w w d); repeat split. Defined.

Theorem openDB_cached_witness :
  exists w', openDB 10 (Some d) (set_config (enable_cache (cfg w)) initial_world) = (Ok tt, w') /\
             CacheMap w' = contents d.
Proof.
  destruct (openDB_cached 10 d (set_config (enable_cache (cfg w)) initial_world)) as
    (w' & Hw & _ & _ & Hc & _); [reflexivity|vm_compute; lia|].
  exists w'. split; [exact Hw|by apply Hc].
Defined.
End node_witnesses.
