(* ===== verification/Scan.v ===== *)
(** * Paged scans

    Every query of [src/src/quarks.cpp] walks through keys, counts the ones a
    wildcard matches and treats those whose number falls in the window that
    [skip] and [limit] describe.  Here are the fragments the queries share
    (the guards, the window, the counting body) and the lemmas that turn such
    a loop into a page of the list of hits. *)

From S2P Require Import Prelude SortedMap Wildcmp Json Store World.
Open Scope quarks_scope.

(** [found != npos && found == 0], and [wild.substr(0, found)] *)
Definition leading_star (wild : string) : bool :=
  match find_char "*" wild with Some 0 => true | _ => false end.
Definition wild_prefix (wild : string) : string := substr0 wild (find_char "*" wild).

(** ** The window *)

Definition lowerbound (skip : Z) : Z := int32 (skip - 1).
Definition upperbound (skip limit : Z) : Z :=
  int32 (skip + (if (limit =? -1)%Z then INT_MAX else limit)).

(** [i > lowerbound && (i < upperbound || limit == -1)] *)
Definition in_window (skip limit i : Z) : bool :=
  (lowerbound skip <? i)%Z && ((i <? upperbound skip limit)%Z || (limit =? -1)%Z).

(** [(i == upperbound) && (limit != -1)] *)
Definition past_window (skip limit i : Z) : bool :=
  (i =? upperbound skip limit)%Z && negb (limit =? -1)%Z.

(** ** Local variables of a loop *)

Section locals.
Context {L S : Type}.

(** A computation with a local variable, forgotten at the end. *)
Definition local {A} (init : L) (m : SM (L * S) A) : SM S A := fun s =>
  let '(o, (_, s')) := m (init, s) in (o, s').

(** A computation that does not touch the local variable. *)
Definition outer {A} (m : SM S A) : SM (L * S) A := fun '(l, s) =>
  let '(o, s') := m s in (o, (l, s')).

(** A computation with a local variable that is its result. *)
Definition returning (init : L) (m : SM (L * S) unit) : SM S L := fun s =>
  match m (init, s) with
  | (Ok _, (l, s')) => (Ok l, s')
  | (Throw e, (_, s')) => (Throw e, s')
  | (Undef, (_, s')) => (Undef, s')
  | (Fuel, (_, s')) => (Fuel, s')
  end.

Lemma returning_ext init (m1 m2 : SM (L * S) unit) s :
  (forall s, m1 s = m2 s) -> returning init m1 s = returning init m2 s.
Proof. intros H. unfold returning. by rewrite H. Qed.

Definition set_local (l : L) : SM (L * S) unit := fun '(_, s) => (Ok tt, (l, s)).
End locals.

(** ** The body of a paged loop *)

Section body.
Context {S X : Type} (skip limit : Z).

(** [i++], the window test around [emit], the [break]. *)
Definition paged_body (emit : X -> SM S unit) (x : X) : SM (Z * S) ctrl := fun '(i, s) =>
  let i := int32 (i + 1) in
  match (if in_window skip limit i then emit x s else (Ok tt, s)) with
  | (Ok _, s) => (Ok (if past_window skip limit i then Break else Continue), (i, s))
  | (Throw e, s) => (Throw e, (i, s))
  | (Undef, s) => (Undef, (i, s))
  | (Fuel, s) => (Fuel, (i, s))
  end.

(** Only the elements [test] accepts are counted. *)
Definition tested_body (test : X -> bool) (emit : X -> SM S unit) (x : X) : SM (Z * S) ctrl :=
  if test x then paged_body emit x else ret Continue.

(** Do [emit] for every element of a list. *)
Fixpoint for_all (emit : X -> SM S unit) (l : list X) : SM S unit :=
  match l with
  | [] => ret tt
  | x :: l => do! emit x; for_all emit l
  end.
End body.

(** ** The page *)

Section page.
Context {X : Type}.

(** The elements numbered [skip], ..., [skip + limit - 1] ([limit = -1]: to the end). *)
Definition page (skip limit : Z) (l : list X) : list X :=
  if (limit =? -1)%Z then drop (Z.to_nat skip) l
  else take (Z.to_nat (skip + limit) - Z.to_nat skip) (drop (Z.to_nat skip) l).

(** The elements whose number, counted from [i], is in the window. *)
Fixpoint windowed (skip limit i : Z) (l : list X) : list X :=
  match l with
  | [] => []
  | x :: l =>
      if in_window skip limit i then x :: windowed skip limit (i + 1) l
      else windowed skip limit (i + 1) l
  end.
End page.

(** The bounds of the window are computed without overflow. *)
Definition window_ok (skip limit : Z) : Prop :=
  in_int32 (skip - 1) /\ (limit = (-1)%Z \/ in_int32 (skip + limit)).

#[export] Instance window_ok_dec skip limit : Decision (window_ok skip limit).
Proof. unfold window_ok. apply _. Defined.

Lemma in_window_spec skip limit i : window_ok skip limit ->
  in_window skip limit i = bool_decide (skip <= i /\ (limit = -1 \/ i < skip + limit))%Z.
Proof.
  intros [H1 H2]. unfold in_window, lowerbound, upperbound. rewrite int32_id by done.
  destruct (Z.eqb_spec limit (-1)) as [->|Hl].
  - rewrite orb_true_r, andb_true_r. destruct (Z.ltb_spec (skip - 1) i); symmetry.
    + apply bool_decide_eq_true. lia.
    + apply bool_decide_eq_false. lia.
  - rewrite orb_false_r, int32_id by by destruct H2.
    destruct (Z.ltb_spec (skip - 1) i), (Z.ltb_spec i (skip + limit)); simpl; symmetry;
      rewrite ?bool_decide_eq_true, ?bool_decide_eq_false; lia.
Qed.

Lemma past_window_spec skip limit i : window_ok skip limit ->
  past_window skip limit i = true -> (limit <> -1 /\ i = skip + limit)%Z.
Proof.
  intros [H1 H2]. unfold past_window, upperbound.
  destruct (Z.eqb_spec limit (-1)) as [->|Hl]; [by rewrite andb_false_r|].
  rewrite int32_id by by destruct H2. simpl. rewrite andb_true_r. by intros ->%Z.eqb_eq.
Qed.

(** [emit] and [break] do not happen in the same turn. *)
Lemma in_window_not_past skip limit i :
  in_window skip limit i = true -> past_window skip limit i = false.
Proof.
  unfold in_window, past_window. destruct (limit =? -1)%Z; [by rewrite andb_false_r|].
  rewrite orb_false_r. intros [_ H%Z.ltb_lt]%andb_prop.
  destruct (Z.eqb_spec i (upperbound skip limit)); [lia|done].
Qed.

Section page_lemmas.
Context {X : Type}.
Implicit Types l : list X.

Lemma windowed_none skip limit i l :
  (forall j, (i <= j)%Z -> in_window skip limit j = false) -> windowed skip limit i l = [].
Proof.
  revert i. induction l as [|x l IH]; intros i H; [done|]. simpl.
  rewrite H by lia. apply IH. intros j Hj. apply H. lia.
Qed.

Lemma page_nil skip limit : page skip limit (@nil X) = [].
Proof. unfold page. destruct (limit =? -1)%Z; by rewrite drop_nil, ?take_nil. Qed.

(** Elements are numbered from 0: the window selects the page. *)
Lemma windowed_page skip limit i l : window_ok skip limit -> (0 <= i)%Z ->
  windowed skip limit i l =
  if (limit =? -1)%Z then drop (Z.to_nat (skip - i)) l
  else take (Z.to_nat (skip + limit - i) - Z.to_nat (skip - i)) (drop (Z.to_nat (skip - i)) l).
Proof.
  intros Hw. revert i. induction l as [|x l IH]; intros i Hi.
  { simpl. rewrite drop_nil, take_nil. by destruct (limit =? -1)%Z. }
  simpl. rewrite in_window_spec, IH by (done || lia).
  destruct (Z.eqb_spec limit (-1)) as [->|Hl]; case_bool_decide as Hb.
  - replace (Z.to_nat (skip - i)) with 0 by lia.
    by replace (Z.to_nat (skip - (i + 1))) with 0 by lia.
  - by replace (Z.to_nat (skip - i)) with (S (Z.to_nat (skip - (i + 1)))) by lia.
  - replace (Z.to_nat (skip - i)) with 0 by lia.
    replace (Z.to_nat (skip - (i + 1))) with 0 by lia. rewrite !Nat.sub_0_r.
    by replace (Z.to_nat (skip + limit - i)) with (S (Z.to_nat (skip + limit - (i + 1)))) by lia.
  - destruct (decide (skip <= i)%Z) as [Hs|Hs].
    + replace (Z.to_nat (skip + limit - i)) with 0 by lia.
      by replace (Z.to_nat (skip + limit - (i + 1))) with 0 by lia.
    + replace (Z.to_nat (skip - i)) with (S (Z.to_nat (skip - (i + 1)))) by lia.
      cbn [drop]. f_equal. lia.
Qed.

Lemma windowed_is_page skip limit l : window_ok skip limit ->
  windowed skip limit 0 l = page skip limit l.
Proof.
  intros Hw. rewrite windowed_page by done. unfold page. by rewrite !Z.sub_0_r.
Qed.

Lemma page_all l : page 0 (-1) l = l.
Proof. done. Qed.

Lemma page_map {Y} (f : X -> Y) skip limit l :
  page skip limit (f <$> l) = f <$> page skip limit l.
Proof. unfold page. destruct (limit =? -1)%Z; by rewrite ?fmap_take, fmap_drop. Qed.

Lemma page_incl skip limit l x : x ∈ page skip limit l -> x ∈ l.
Proof.
  assert (forall n (k : list X), x ∈ drop n k -> x ∈ k) as Hdrop.
  { intros n k H. rewrite <- (take_drop n k). apply elem_of_app. by right. }
  unfold page. destruct (limit =? -1)%Z; intros H; [by eapply Hdrop|].
  apply (Hdrop (Z.to_nat skip)), list_elem_of_lookup.
  apply elem_of_take in H as (i & H & _). by exists i.
Qed.

Lemma page_length skip limit l : (0 <= skip)%Z -> (0 <= limit)%Z ->
  length (page skip limit l) = Nat.min (Z.to_nat limit) (length l - Z.to_nat skip).
Proof.
  intros Hs Hl. unfold page. destruct (Z.eqb_spec limit (-1)); [lia|].
  rewrite length_take, length_drop. f_equal. lia.
Qed.
End page_lemmas.

(** ** A paged loop emits the page *)

Section loop_lemmas.
Context {S X : Type} (skip limit : Z) (test : X -> bool) (emit : X -> SM S unit).

(** The elements after a number past the window are not emitted. *)
Lemma windowed_past i (l : list X) : window_ok skip limit ->
  past_window skip limit i = true -> windowed skip limit (i + 1) l = [].
Proof.
  intros Hw Hp. apply windowed_none. intros j Hj. rewrite in_window_spec by done.
  apply past_window_spec in Hp; [|done]. apply bool_decide_eq_false. lia.
Qed.

Lemma for_all_cons x l s :
  for_all emit (x :: l) s = bind (emit x) (fun _ => for_all emit l) s.
Proof. done. Qed.

(** A loop that counts from [i], and what goes on counting after it *)
Lemma paged_loop_then (k : SM (Z * S) unit) rest i l s : window_ok skip limit ->
  (-1 <= i)%Z -> (i + Z.of_nat (length (filterb test l ++ rest)) <= INT_MAX)%Z ->
  (forall i s, (-1 <= i)%Z -> (i + Z.of_nat (length rest) <= INT_MAX)%Z ->
     local i k s = for_all emit (windowed skip limit (i + 1) rest) s) ->
  local i (do! for_each (tested_body skip limit test emit) l; k) s
  = for_all emit (windowed skip limit (i + 1) (filterb test l ++ rest)) s.
Proof.
  intros Hw Hi Hlen Hk. revert i s Hi Hlen. induction l as [|x l IH]; intros i s Hi Hlen.
  { by apply Hk. }
  unfold local, bind in *. cbn [for_each] in *. rewrite filter_cons in Hlen |- *.
  unfold bind at 1, tested_body at 1.
  destruct (test x) eqn:Ht;
    [rewrite decide_True in Hlen |- * by done|rewrite decide_False in Hlen |- * by done].
  2: { unfold ret at 1. by apply IH. }
  unfold paged_body. cbn [app windowed length] in *.
  rewrite int32_id by (unfold in_int32, INT_MIN, INT_MAX in *; lia).
  destruct (in_window skip limit (i + 1)) eqn:Ew.
  - rewrite (in_window_not_past _ _ _ Ew). cbn [for_all]. unfold bind.
    destruct (emit x s) as [[[]|e| |] s']; try done. apply IH; lia.
  - destruct (past_window skip limit (i + 1)) eqn:Ep; [|apply IH; lia].
    unfold ret. rewrite length_app in Hlen. rewrite Hk, !windowed_past by (done || lia). done.
Qed.

Lemma paged_loop i l s : window_ok skip limit ->
  (-1 <= i)%Z -> (i + Z.of_nat (length l) <= INT_MAX)%Z ->
  local i (for_each (tested_body skip limit test emit) l) s
  = for_all emit (windowed skip limit (i + 1) (filterb test l)) s.
Proof.
  intros Hw Hi Hl. rewrite <- (app_nil_r (filterb test l)), <- (paged_loop_then (ret tt)).
  - unfold local, bind. by destruct (for_each _ _ _) as [[[]| | |] [??]].
  - done.
  - done.
  - rewrite app_nil_r. pose proof (filterb_length test l). lia.
  - done.
Qed.

(** The loop over a list, counting from the start, emits the page of its hits. *)
Lemma paged_loop_page l s : window_ok skip limit -> (Z.of_nat (length l) <= INT_MAX)%Z ->
  local (-1)%Z (for_each (tested_body skip limit test emit) l) s
  = for_all emit (page skip limit (filterb test l)) s.
Proof.
  intros Hw Hl. rewrite paged_loop by (done || lia). by rewrite windowed_is_page.
Qed.
End loop_lemmas.

(** *** What a loop pushes *)

Section push.
Context {X Y : Type}.

(** [matchedResults.push_back] of some values, and [ret = false] when they are
    the trace of an exception. *)
Definition push_back (l : list Y) : SM (list Y) unit := modify (fun rs => rs ++ l).

(** Emit what [f] says: whether all is well, and the values pushed. *)
Definition emit_entries (f : X -> outcome (bool * list Y)) (x : X) : SM (bool * list Y) unit :=
  fun '(r, rs) =>
    match f x with
    | Ok (good, l) => (Ok tt, (if good then r else false, rs ++ l))
    | Throw e => (Throw e, (r, rs))
    | Undef => (Undef, (r, rs))
    | Fuel => (Fuel, (r, rs))
    end.

Lemma emit_entries_all (f : X -> outcome (bool * list Y)) (g : X -> bool * list Y) l r rs :
  Forall (fun x => f x = Ok (g x)) l ->
  for_all (emit_entries f) l (r, rs) =
  (Ok tt, (r && forallb (fun x => (g x).1) l, rs ++ flat_map (fun x => (g x).2) l)).
Proof.
  intros H. revert r rs. induction H as [|x l Hx _ IH]; intros r rs; simpl.
  { by rewrite andb_true_r, app_nil_r. }
  unfold bind, emit_entries at 1. rewrite Hx. destruct (g x) as [good ys] eqn:Eg. rewrite IH. simpl.
  rewrite <- app_assoc. by destruct r, good.
Qed.
End push.

(** ** Entries of a result *)

Section entries.
Context {plat : Platform}.

(** The value loaded, or, when that fails, the value loaded again between
    brackets and quotes, as a list of one text; converted to a [wvalue]. *)
Definition load_value (value : string) : outcome wvalue :=
  match load value with
  | Some x => to_wvalue (Some x)
  | None => to_wvalue (load (q "[`" +:+ value +:+ q "`]"))
  end.

(** The value alone ([getAll]); an exception leaves [{"error": value}]. *)
Definition value_entry (kv : string * string) : outcome (bool * list wvalue) :=
  match load_value kv.2 with
  | Ok w => Ok (true, [w])
  | Throw (RuntimeError _) => Ok (false, [w_set "error" (WStr kv.2) WNull])
  | Throw e => Throw e
  | Undef => Undef
  | Fuel => Fuel
  end.

(** Value and key ([getKeys], [iter], ...).  After an exception [w] is pushed
    with its error first, and what [std::move] left of it is pushed again with
    the key. *)
Definition keyed_entry (kv : string * string) : outcome (bool * list wvalue) :=
  match load_value kv.2 with
  | Ok v => Ok (true, [w_set "key" (WStr kv.1) (w_set "value" v WNull)])
  | Throw (RuntimeError _) =>
      let w := w_set "error" (WStr kv.2) WNull in
      Ok (false, [w; w_set "key" (WStr kv.1) (moved w)])
  | Throw e => Throw e
  | Undef => Undef
  | Fuel => Fuel
  end.

(** No number in the value makes [lexical_cast] throw. *)
Definition castable (kv : string * string) : Prop := load_value kv.2 <> Throw BadLexicalCast.

Lemma wvalue_of_json_outcome j :
  (exists w, wvalue_of_json j = Ok w) \/ wvalue_of_json j = Throw BadLexicalCast.
Proof.
  revert j. fix IH 1. intros j. destruct j as [| | |t|s|l|ms]; simpl; eauto.
  - destruct (lexical_cast_double t); eauto.
  - assert (forall l, (exists l', (fix elems l := match l with
                   | [] => Ok []
                   | x :: l => let? y := wvalue_of_json x in let? l := elems l in Ok (y :: l)
                   end) l = Ok l') \/ (fix elems l := match l with
                   | [] => Ok []
                   | x :: l => let? y := wvalue_of_json x in let? l := elems l in Ok (y :: l)
                   end) l = Throw BadLexicalCast) as H.
    { clear l. induction l as [|x l IHl]; [by left; eexists|].
      destruct (IH x) as [[w Hw]|Hw]; rewrite Hw; cbn [obind]; [|by right].
      destruct IHl as [[l' Hl]|Hl]; rewrite Hl; cbn [obind]; eauto. }
    destruct (H l) as [[l' Hl]|Hl]; rewrite Hl; simpl; eauto.
  - assert (forall ms o, (exists o', (fix members o ms := match ms with
                   | [] => Ok o
                   | (k, x) :: ms => let? y := wvalue_of_json x in
                                     members (assoc_emplace k y o) ms
                   end) o ms = Ok o') \/ (fix members o ms := match ms with
                   | [] => Ok o
                   | (k, x) :: ms => let? y := wvalue_of_json x in
                                     members (assoc_emplace k y o) ms
                   end) o ms = Throw BadLexicalCast) as H.
    { clear ms. induction ms as [|[k x] ms IHms]; intros o; [by left; eexists|].
      destruct (IH x) as [[w Hw]|Hw]; rewrite Hw; cbn [obind]; [|by right]. apply IHms. }
    destruct (H ms []) as [[l' Hl]|Hl]; rewrite Hl; simpl; eauto.
Qed.

Lemma to_wvalue_outcome r :
  (exists w, to_wvalue r = Ok w) \/ to_wvalue r = Throw BadLexicalCast \/
  (r = None /\ to_wvalue r = Throw err_invalid).
Proof.
  destruct r as [j|]; [|by right; right].
  destruct (wvalue_of_json_outcome j) as [?|?]; eauto.
Qed.

Lemma load_value_outcome v :
  (exists w, load_value v = Ok w) \/ load_value v = Throw BadLexicalCast \/
  load_value v = Throw err_invalid.
Proof.
  unfold load_value. destruct (load v); [destruct (to_wvalue_outcome (Some j)) as [?|[?|[? ?]]]
    |destruct (to_wvalue_outcome (load (q "[`" +:+ v +:+ q "`]"))) as [?|[?|[? ?]]]]; eauto.
Qed.

Definition castableb (kv : string * string) : bool :=
  match load_value kv.2 with Throw BadLexicalCast => false | _ => true end.

Lemma castable_all l : forallb castableb l = true -> Forall castable l.
Proof.
  intros H. apply Forall_forall. intros kv Hkv E. rewrite forallb_forall in H.
  apply list_elem_of_In, H in Hkv. unfold castableb in Hkv. by rewrite E in Hkv.
Qed.

(** What [value_entry] and [keyed_entry] push for a castable value. *)
Definition value_entries (kv : string * string) : list wvalue :=
  match load_value kv.2 with Ok w => [w] | _ => [WObj [("error", WStr kv.2)]] end.
Definition keyed_entries (kv : string * string) : list wvalue :=
  match load_value kv.2 with
  | Ok v => [WObj [("value", v); ("key", WStr kv.1)]]
  | _ => [WObj [("error", WStr kv.2)]; WObj [("key", WStr kv.1)]]
  end.
(** The value is JSON text, or becomes JSON text as the only string of a list. *)
Definition loads (kv : string * string) : bool := is_ok (load_value kv.2).

Lemma value_entry_castable kv : castable kv ->
  value_entry kv = Ok (loads kv, value_entries kv).
Proof.
  unfold castable, value_entry, loads, value_entries.
  by destruct (load_value_outcome kv.2) as [[w ->]|[->| ->]].
Qed.

Lemma keyed_entry_castable kv : castable kv ->
  keyed_entry kv = Ok (loads kv, keyed_entries kv).
Proof.
  unfold castable, keyed_entry, loads, keyed_entries.
  by destruct (load_value_outcome kv.2) as [[w ->]|[->| ->]].
Qed.
End entries.

(** ** Hits *)

(** The entries a query for [wild] is about. *)
Definition hit (wild : string) (kv : string * string) : bool :=
  starts_with (wild_prefix wild) kv.1 && wild_match wild kv.1.
Definition hits (wild : string) (m : smap string) : smap string := filterb (hit wild) m.

(** The literal part of a wildcard: no NUL and no [?] before the first [*]. *)
Definition literal_prefix (wild : string) : bool :=
  no_nul (wild_prefix wild) &&
  match find_char "?" (wild_prefix wild) with None => true | Some _ => false end.

Lemma substr0_split wild :
  exists w, wild = wild_prefix wild +:+ w /\ find_char "*" (wild_prefix wild) = None.
Proof.
  unfold wild_prefix. destruct (find_char "*" wild) as [n|] eqn:E; simpl.
  - revert n E. induction wild as [|c wild IH]; intros n E; [done|]. simpl in E.
    destruct (Ascii.eqb c "*") eqn:Ec; [injection E as <-; by exists (String c wild)|].
    destruct (find_char "*" wild) as [m|] eqn:Em; [|done]. injection E as <-.
    destruct (IH m eq_refl) as (w & Hw & Hf). exists w. simpl. by rewrite <- Hw, Ec, Hf.
  - exists EmptyString. by rewrite sapp_nil_r.
Qed.

Lemma c_str_app s t : no_nul s = true -> c_str (s +:+ t) = s +:+ c_str t.
Proof.
  induction s as [|c s IH]; simpl; [done|].
  destruct (Ascii.eqb c NUL); simpl; [done|]. intros H. by rewrite IH.
Qed.

Lemma starts_with_c_str p s : starts_with p (c_str s) = true -> starts_with p s = true.
Proof.
  revert s. induction p as [|c p IH]; intros [|d s]; simpl; try done.
  destruct (Ascii.eqb d NUL); [done|]. simpl. intros [-> H]%andb_prop. simpl. auto.
Qed.

(** With a literal prefix, the keys a wildcard matches have that prefix: a scan
    of the keys with the prefix misses no match. *)
Lemma wild_match_prefix wild key :
  literal_prefix wild = true -> wild_match wild key = true ->
  starts_with (wild_prefix wild) key = true.
Proof.
  unfold literal_prefix. intros [Hn Hq]%andb_prop Hm.
  destruct (wildcmp_glob (c_str wild) (c_str key)) as (r & Hr & _ & Hg);
    [apply c_str_no_nul..|].
  unfold wild_match in Hm. rewrite Hr in Hm.
  assert (r = 1%Z) as Hr1.
  { destruct (wildcmp_glob (c_str wild) (c_str key)) as (r' & Hr' & [H|H] & _);
      [apply c_str_no_nul..| |]; rewrite Hr in Hr'; injection Hr' as <-; [|done].
    by rewrite H in Hm. }
  apply Hg in Hr1. apply starts_with_c_str.
  destruct (substr0_split wild) as (w & Hw & Hs). rewrite Hw, c_str_app in Hr1 by done.
  eapply glob_literal_prefix; [exact Hn|exact Hs| |exact Hr1].
  by destruct (find_char "?" (wild_prefix wild)).
Qed.

Lemma hits_match wild m : literal_prefix wild = true ->
  hits wild m = filterb (fun kv => wild_match wild kv.1) m.
Proof.
  intros Hl. unfold hits. apply list_filter_iff. intros kv. unfold hit.
  destruct (wild_match wild kv.1) eqn:E; [|by rewrite andb_false_r].
  by rewrite wild_match_prefix.
Qed.
