(* ===== verification/Frames.v ===== *)
(** * What computations leave alone

    A computation keeps a property of its state, however it ends: the rules for
    the combinators of the state monad, collected in the hint database
    [frames]. *)

From S2P Require Import Prelude Scan.
Local Open Scope quarks_scope.

Definition preserves {S} (I : S -> Prop) {A} (m : SM S A) : Prop := forall s, I s -> I (m s).2.

(** A property of the state behind a local variable *)
Definition behind {L S} (I : S -> Prop) : L * S -> Prop := fun ls => I ls.2.

Section rules.
Context {S : Type} (I : S -> Prop).

Lemma preserves_ret {A} (a : A) : preserves I (ret a).
Proof. by intros s H. Qed.

Lemma preserves_undef {A} : preserves I (undef : SM S A).
Proof. by intros s H. Qed.

Lemma preserves_lift {A} (o : outcome A) : preserves I (lift o).
Proof. by intros s H. Qed.

Lemma preserves_bind {A B} (m : SM S A) (k : A -> SM S B) :
  preserves I m -> (forall a, preserves I (k a)) -> preserves I (bind m k).
Proof.
  intros Hm Hk s H. unfold bind. specialize (Hm s H). destruct (m s) as [[a| | |] s'];
    [by apply Hk|done..].
Qed.

Lemma preserves_lift_bind {A B} (o : outcome A) (k : A -> SM S B) :
  (forall a, o = Ok a -> preserves I (k a)) -> preserves I (bind (lift o) k).
Proof. intros Hk s H. unfold bind, lift. destruct o; [by apply Hk|done..]. Qed.

Lemma preserves_get {A} (k : S -> SM S A) :
  (forall s, preserves I (k s)) -> preserves I (bind get_st k).
Proof. intros Hk s H. by apply Hk. Qed.

Lemma preserves_get_st : preserves I get_st.
Proof. by intros s H. Qed.

Lemma preserves_modify f : (forall s, I s -> I (f s)) -> preserves I (modify f).
Proof. intros Hf s H. by apply Hf. Qed.

Lemma preserves_try {A} (m : SM S A) h :
  preserves I m -> (forall msg, preserves I (h msg)) -> preserves I (try_runtime m h).
Proof.
  intros Hm Hh s H. unfold try_runtime. specialize (Hm s H).
  destruct (m s) as [[a|[]| |] s']; try done. by apply Hh.
Qed.

Lemma preserves_for_all {X} (emit : X -> SM S unit) l :
  (forall x, preserves I (emit x)) -> preserves I (for_all emit l).
Proof.
  intros He. induction l as [|x l IH]; [apply preserves_ret|].
  apply preserves_bind; [apply He|by intros []].
Qed.

Lemma preserves_for_each {X} (body : X -> SM S ctrl) l :
  (forall x, preserves I (body x)) -> preserves I (for_each body l).
Proof.
  intros He. induction l as [|x l IH]; [apply preserves_ret|].
  apply preserves_bind; [apply He|]. intros []; [done|apply preserves_ret].
Qed.

Lemma preserves_for_loop {X} fuel cond step (body : X -> SM S ctrl) x :
  (forall x, preserves I (body x)) -> preserves I (for_loop fuel cond step body x).
Proof.
  intros He. revert x. induction fuel as [|fuel IH]; intros x; [by intros s H|]. simpl.
  destruct (cond x); [|apply preserves_ret].
  apply preserves_bind; [apply He|]. intros []; [apply IH|apply preserves_ret].
Qed.

(** Local variables *)
Lemma preserves_outer {L A} (m : SM S A) : preserves I m -> preserves (@behind L S I) (outer m).
Proof.
  intros Hm [l s] H. unfold outer, behind in *. specialize (Hm s H). by destruct (m s).
Qed.

Lemma preserves_set_local {L} (l : L) : preserves (behind I) (set_local l).
Proof. by intros [l' s] H. Qed.

Lemma preserves_local {L A} (init : L) (m : SM (L * S) A) :
  preserves (behind I) m -> preserves I (local init m).
Proof.
  intros Hm s H. unfold local. specialize (Hm (init, s) H). by destruct (m (init, s)) as [o [l s']].
Qed.

Lemma preserves_returning {L} (init : L) (m : SM (L * S) unit) :
  preserves (behind I) m -> preserves I (returning init m).
Proof.
  intros Hm s H. unfold returning. specialize (Hm (init, s) H).
  by destruct (m (init, s)) as [[| | |] [l s']].
Qed.

Lemma preserves_paged_body {X} skip limit (emit : X -> SM S unit) x :
  preserves I (emit x) -> preserves (behind I) (paged_body skip limit emit x).
Proof.
  intros He [i s] H. unfold paged_body. specialize (He s H).
  destruct (in_window _ _ _); [|done]. by destruct (emit x s) as [[| | |] s'].
Qed.

Lemma preserves_tested_body {X} skip limit test (emit : X -> SM S unit) x :
  preserves I (emit x) -> preserves (behind I) (tested_body skip limit test emit x).
Proof.
  intros He. unfold tested_body. destruct (test x); [by apply preserves_paged_body|by intros s H].
Qed.
End rules.

Create HintDb frames.
#[export] Hint Resolve preserves_ret preserves_undef preserves_get_st preserves_lift preserves_bind preserves_get
  preserves_try preserves_for_all preserves_outer preserves_set_local preserves_local
  preserves_returning preserves_paged_body preserves_tested_body : frames.
#[export] Hint Extern 2 (preserves _ (match ?x with _ => _ end)) => destruct x : frames.
