(* ===== verification/Cache.v ===== *)
(** * The cache

    [_GetCachedKeys] (both overloads) of [src/src/quarks.cpp]: queries answered
    from [_CacheMap], a [std::map].  An iterator into the map is the number of
    entries before it; the number of entries is [end()].  Decrementing
    [begin()] and dereferencing [end()] are undefined.  ([_GetCached] and
    [_PutCached] are in World.v.) *)

From S2P Require Import Prelude SortedMap Wildcmp Json Store World Scan.
Open Scope quarks_scope.

Section cache.
Context {plat : Platform}.
Variable m : smap string.

(** [--it] and [*it] *)
Definition map_prev (it : nat) : outcome nat :=
  match it with O => Undef | S it => Ok it end.
Definition deref (it : nat) : outcome (string * string) :=
  match m !! it with Some p => Ok p | None => Undef end.

(** [itBegin] and [itEnd] of the loop, after the decrement. *)
Definition cached_range (reversed : bool) (wild : string) : outcome (nat * nat) :=
  let prefix := wild_prefix wild in
  match incr_last prefix with
  | None => Undef
  | Some firstAfterPrefix =>
      let prefixedBeginIt := sm_lower_bound prefix m in
      let prefixedEndIt := sm_lower_bound firstAfterPrefix m in
      let? it := map_prev prefixedEndIt in
      Ok (if reversed then (it, prefixedBeginIt) else (prefixedBeginIt, it))
  end.

(** "if first entry doesn't match return" *)
Definition first_mismatch (wild : string) (itBegin : nat) : bool :=
  match m !! itBegin with Some kv => negb (wild_match wild kv.1) | None => false end.

Section loop.
Context {St : Type} (wild : string) (skip limit : Z) (emit : string * string -> SM St unit).

(** The loop; the state is the local [i] and what [emit] works on.  The test
    for [itEnd] is inside the test for a match. *)
Fixpoint cached_loop (reversed : bool) (itEnd : nat) (fuel : nat) (it : nat)
    : SM (Z * St) unit :=
  match fuel with
  | O => fun s => (Fuel, s)
  | S fuel =>
      if decide (it = length m) then ret tt
      else
        let! kv := lift (deref it) in
        let! c := tested_body skip limit (fun kv => wild_match wild kv.1) emit kv in
        let at_end := wild_match wild kv.1 && bool_decide (it = itEnd) in
        match c, at_end with
        | Continue, false =>
            let! it := lift (if reversed then map_prev it else Ok (S it)) in
            cached_loop reversed itEnd fuel it
        | _, _ => ret tt
        end
  end.
End loop.

(** [ret++], or [matched++], then what is done with the entry *)
Definition counted {St} (emit : string * string -> SM St unit) (kv : string * string)
    : SM (Z * St) unit :=
  do! (fun '(n, s) => (Ok tt, (int32 (n + 1), s))); outer (emit kv).

Definition push_keyed (kv : string * string) : SM (list wvalue) unit :=
  let! e := lift (keyed_entry kv) in push_back e.2.

(** The overload that fills [matchedResults] *)
Definition _GetCachedKeys (countOnly reversed : bool) (wild : string) (skip limit : Z)
    : SM (list wvalue) Z :=
  if leading_star wild then ret 0%Z
  else
    let! (itBegin, itEnd) := lift (cached_range reversed wild) in
    if first_mismatch wild itBegin then ret 0%Z
    else
      returning 0%Z (local (-1)%Z
        (cached_loop wild skip limit
           (counted (fun kv => if countOnly then ret tt else push_keyed kv))
           reversed itEnd (S (length m)) itBegin)).

(** The overload that appends to [out] *)
Definition entry_text (kv : string * string) : string :=
  q "{`key`:`" +:+ kv.1 +:+ q "`,`value`:" +:+ kv.2 +:+ "},".

Definition out_open : string := q "{`result`:[".
Definition out_empty : string := q "{`result`:[]}".

Definition close_out (matched : Z) : SM string unit := fun out =>
  if (0 <? matched)%Z then
    match set_last "]" out with
    | Some out => (Ok tt, out +:+ "}")
    | None => (Undef, out)
    end
  else (Ok tt, out_empty).

Definition _GetCachedKeys_out (countOnly reversed : bool) (wild : string) (skip limit : Z)
    : SM string Z :=
  if leading_star wild then ret 0%Z
  else
    let! (itBegin, itEnd) := lift (cached_range reversed wild) in
    if first_mismatch wild itBegin then do! put_st out_empty; ret 0%Z
    else
      do! put_st out_open;
      let! matched := returning 0%Z (local (-1)%Z
        (cached_loop wild skip limit
           (counted (fun kv => if countOnly then ret tt
                               else modify (fun out => out +:+ entry_text kv)))
           reversed itEnd (S (length m)) itBegin)) in
      do! close_out matched; ret matched.
End cache.

(** ** The range of a prefix *)

Section range.
Variable m : smap string.
Hypothesis Hm : sm_wf m.

Lemma lower_bound_le k : sm_lower_bound k m <= length m.
Proof.
  unfold sm_lower_bound. rewrite <- (take_drop_while (fun x => sltb x.1 k) m) at 2.
  rewrite length_app. lia.
Qed.

Lemma lower_bound_filter k :
  sm_lower_bound k m = length (filterb (fun x => sltb x.1 k) m).
Proof. unfold sm_lower_bound. by rewrite sm_below. Qed.

Lemma take_lower_bound_filter k :
  take (sm_lower_bound k m) m = filterb (fun x => sltb x.1 k) m.
Proof. by rewrite take_lower_bound, sm_below. Qed.

Lemma drop_lower_bound_filter k :
  drop (sm_lower_bound k m) m = filterb (fun x => negb (sltb x.1 k)) m.
Proof. by rewrite drop_lower_bound, sm_above. Qed.

(** The first entry from [lower_bound(k)] on is not below [k]. *)
Lemma lower_bound_entry k i kv : m !! i = Some kv ->
  sltb kv.1 k = bool_decide (i < sm_lower_bound k m).
Proof.
  intros Hi. case_bool_decide as Hlt.
  - assert (kv ∈ take (sm_lower_bound k m) m) as Hin.
    { apply elem_of_take. eauto. }
    rewrite take_lower_bound_filter in Hin. by apply list_elem_of_filter in Hin as [? _].
  - assert (kv ∈ drop (sm_lower_bound k m) m) as Hin.
    { apply list_elem_of_lookup. exists (i - sm_lower_bound k m). rewrite lookup_drop.
      by replace (sm_lower_bound k m + (i - sm_lower_bound k m)) with i by lia. }
    rewrite drop_lower_bound_filter in Hin. apply list_elem_of_filter in Hin as [Hk _].
    by destruct (sltb kv.1 k).
Qed.

Lemma last_byte_not_nil p : last_byte p <> 255%Z -> p <> EmptyString.
Proof. by intros H ->. Qed.

(** The entries with prefix [p] lie between the two lower bounds. *)
Lemma prefix_range_entry p p' i kv :
  last_byte p <> 255%Z -> incr_last p = Some p' -> m !! i = Some kv ->
  starts_with p kv.1 = bool_decide (sm_lower_bound p m <= i < sm_lower_bound p' m).
Proof.
  intros Hl Hp Hi. rewrite (incr_last_range _ _ _ Hl Hp).
  rewrite (lower_bound_entry p i kv Hi), (lower_bound_entry p' i kv Hi).
  repeat case_bool_decide; simpl; try done; lia.
Qed.
End range.

(** ** The loop emits a page of the range *)

Section loop_lemmas.
Context (m : smap string) {St : Type}.
Context (wild : string) (skip limit : Z) (emit : string * string -> SM St unit).
Hypothesis Hw : window_ok skip limit.
Let matching (kv : string * string) : bool := wild_match wild kv.1.

(** One turn at an entry, seen from outside. *)
Lemma cached_turn reversed itEnd fuel it i s kv :
  m !! it = Some kv -> (-1 <= i < INT_MAX)%Z ->
  local i (cached_loop m wild skip limit emit reversed itEnd (S fuel) it) s =
  let next := fun i => local i (let! it := lift (if reversed then map_prev it else Ok (S it)) in
                                cached_loop m wild skip limit emit reversed itEnd fuel it) in
  if matching kv then
    bind (if in_window skip limit (i + 1) then emit kv else ret tt) (fun _ =>
      if past_window skip limit (i + 1) || bool_decide (it = itEnd) then ret tt
      else next (i + 1)%Z) s
  else next i s.
Proof.
  intros Hkv Hi. cbn [cached_loop]. pose proof (lookup_lt_Some _ _ _ Hkv).
  rewrite decide_False by lia. unfold local at 1, bind at 1 2, lift at 1, deref. rewrite Hkv.
  unfold tested_body, matching. destruct (wild_match wild kv.1); [|done].
  unfold paged_body. rewrite int32_id by (unfold in_int32, INT_MIN, INT_MAX in *; lia).
  unfold bind at 2. destruct (in_window skip limit (i + 1)) eqn:Ew.
  - rewrite (in_window_not_past _ _ _ Ew). destruct (emit kv s) as [[[]|e| |] s']; try done.
    simpl. by destruct (bool_decide _).
  - unfold ret at 2. destruct (past_window skip limit (i + 1)); [done|].
    simpl. by destruct (bool_decide _).
Qed.

Lemma cached_loop_fwd itEnd fuel it i s :
  length m - it < fuel -> it <= length m ->
  (forall j kv, itEnd < j -> m !! j = Some kv -> matching kv = false) ->
  (-1 <= i)%Z -> (i + Z.of_nat (length m - it) <= INT_MAX)%Z ->
  local i (cached_loop m wild skip limit emit false itEnd fuel it) s
  = for_all emit (windowed skip limit (i + 1) (filterb matching (drop it m))) s.
Proof.
  intros Hf Hit Hend. revert it i s Hf Hit. induction fuel as [|fuel IH]; intros it i s Hf Hit Hi Hl;
    [lia|].
  destruct (decide (it = length m)) as [->|Hne].
  { cbn [cached_loop]. rewrite decide_True by done. by rewrite drop_ge by lia. }
  destruct (lookup_lt_is_Some_2 m it) as [kv Hkv]; [lia|].
  rewrite (cached_turn _ _ _ _ _ _ _ Hkv) by lia. cbv zeta.
  rewrite (drop_S _ _ _ Hkv), filter_cons.
  assert (forall i s, (-1 <= i)%Z -> (i + Z.of_nat (length m - S it) <= INT_MAX)%Z ->
    local i (let! it := lift (Ok (S it)) in
             cached_loop m wild skip limit emit false itEnd fuel it) s
    = for_all emit (windowed skip limit (i + 1) (filterb matching (drop (S it) m))) s) as Hnext.
  { intros i' s' Hi' Hl'. apply (IH (S it)); lia. }
  destruct (matching kv) eqn:Em; [rewrite decide_True by done|rewrite decide_False by done].
  2: { apply Hnext; lia. }
  cbn [windowed]. destruct (past_window skip limit (i + 1)) eqn:Ep; simpl.
  { destruct (in_window skip limit (i + 1)) eqn:Ew;
      [by rewrite (in_window_not_past _ _ _ Ew) in Ep|].
    by rewrite windowed_past by done. }
  case_bool_decide as Hend'; [|].
  - subst itEnd. rewrite filter_none.
    2: { apply Forall_forall. intros x (j & Hj)%list_elem_of_lookup.
         rewrite lookup_drop in Hj. eapply Hend; [|exact Hj]. lia. }
    destruct (in_window skip limit (i + 1)); [|done]. simpl.
    unfold bind, ret. by destruct (emit kv s) as [[[]| | |] ?].
  - destruct (in_window skip limit (i + 1)); [|unfold bind, ret; apply Hnext; lia].
    cbn [for_all]. unfold bind at 1 3. destruct (emit kv s) as [[[]|e| |] s']; try done.
    apply Hnext; lia.
Qed.

Lemma cached_loop_bwd itEnd fuel it i s :
  it < fuel -> itEnd <= it -> it < length m ->
  (forall kv, m !! itEnd = Some kv -> matching kv = true) ->
  (-1 <= i)%Z -> (i + Z.of_nat (S it) <= INT_MAX)%Z ->
  local i (cached_loop m wild skip limit emit true itEnd fuel it) s
  = for_all emit (windowed skip limit (i + 1)
      (filterb matching (reverse (take (S it - itEnd) (drop itEnd m))))) s.
Proof.
  intros Hf Hge Hit Hend. revert it i s Hf Hge Hit.
  induction fuel as [|fuel IH]; intros it i s Hf Hge Hit Hi Hl; [lia|].
  destruct (lookup_lt_is_Some_2 m it) as [kv Hkv]; [lia|].
  rewrite (cached_turn _ _ _ _ _ _ _ Hkv) by lia. cbv zeta.
  replace (S it - itEnd) with (S (it - itEnd)) by lia.
  rewrite (take_S_r _ _ kv), reverse_snoc, filter_cons
    by (rewrite lookup_drop; by replace (itEnd + (it - itEnd)) with it by lia).
  assert (itEnd <> it -> forall i s, (-1 <= i)%Z -> (i + Z.of_nat it <= INT_MAX)%Z ->
    local i (let! it := lift (map_prev it) in
             cached_loop m wild skip limit emit true itEnd fuel it) s
    = for_all emit (windowed skip limit (i + 1)
        (filterb matching (reverse (take (it - itEnd) (drop itEnd m))))) s) as Hnext.
  { intros Hne i' s' Hi' Hl'. destruct it as [|it]; [lia|]. apply (IH it); lia. }
  destruct (matching kv) eqn:Em; [rewrite decide_True by done|rewrite decide_False by done].
  2: { apply Hnext; [|lia..]. intros ->. by rewrite (Hend _ Hkv) in Em. }
  cbn [windowed]. destruct (past_window skip limit (i + 1)) eqn:Ep; simpl.
  { destruct (in_window skip limit (i + 1)) eqn:Ew;
      [by rewrite (in_window_not_past _ _ _ Ew) in Ep|].
    by rewrite windowed_past by done. }
  case_bool_decide as Hend'; [|].
  - subst itEnd. rewrite Nat.sub_diag. simpl.
    destruct (in_window skip limit (i + 1)); [|done]. simpl.
    unfold bind, ret. by destruct (emit kv s) as [[[]| | |] ?].
  - destruct (in_window skip limit (i + 1)); [|unfold bind, ret; apply Hnext; lia].
    cbn [for_all]. unfold bind at 1 3. destruct (emit kv s) as [[[]|e| |] s']; try done.
    apply Hnext; lia.
Qed.
End loop_lemmas.

(** ** Results *)

Section counted_lemmas.
Context {St : Type}.

Lemma counted_all (emit : string * string -> SM St unit) g l n s :
  Forall (fun x => forall s, emit x s = (Ok tt, g x s)) l ->
  (0 <= n)%Z -> (n + Z.of_nat (length l) <= INT_MAX)%Z ->
  for_all (counted emit) l (n, s)
  = (Ok tt, ((n + Z.of_nat (length l))%Z, foldl (fun s x => g x s) s l)).
Proof.
  intros H. revert n s. induction H as [|x l Hx _ IH]; intros n s Hn Hl; simpl.
  { by rewrite Z.add_0_r. }
  simpl in Hl. unfold bind, counted at 1, bind at 1, outer. rewrite Hx.
  rewrite int32_id by (unfold in_int32, INT_MIN, INT_MAX in *; lia).
  rewrite IH by lia. do 2 f_equal. lia.
Qed.

Lemma returning_counted (emit : string * string -> SM St unit) g l s :
  Forall (fun x => forall s, emit x s = (Ok tt, g x s)) l ->
  (Z.of_nat (length l) <= INT_MAX)%Z ->
  returning 0%Z (for_all (counted emit) l) s
  = (Ok (Z.of_nat (length l)), foldl (fun s x => g x s) s l).
Proof.
  intros H Hl. unfold returning. by rewrite (counted_all emit g) by (done || lia).
Qed.
End counted_lemmas.

Lemma page_length_le {X} skip limit (l : list X) : length (page skip limit l) <= length l.
Proof.
  unfold page. destruct (limit =? -1)%Z; rewrite ?length_take, length_drop; lia.
Qed.

Lemma foldl_app_flat_map {X Y} (g : X -> list Y) l rs :
  foldl (fun rs x => rs ++ g x) rs l = rs ++ flat_map g l.
Proof.
  revert rs. induction l as [|x l IH]; intros rs; simpl; [by rewrite app_nil_r|].
  by rewrite IH, app_assoc.
Qed.

(** Concatenation of the texts of some entries. *)
Fixpoint entry_texts (l : list (string * string)) : string :=
  match l with [] => EmptyString | kv :: l => entry_text kv +:+ entry_texts l end.

Lemma foldl_entry_texts l out :
  foldl (fun out x => out +:+ entry_text x) out l = out +:+ entry_texts l.
Proof.
  revert out. induction l as [|x l IH]; intros out; simpl; [by rewrite sapp_nil_r|].
  by rewrite IH, sapp_assoc.
Qed.

Lemma not_leading_star wild :
  last_byte (wild_prefix wild) <> 255%Z -> leading_star wild = false.
Proof.
  unfold leading_star, wild_prefix. intros Hl.
  destruct (find_char "*" wild) as [[|n]|]; try done.
Qed.

Lemma map_prev_pos n : n <> 0 -> map_prev n = Ok (n - 1).
Proof. destruct n as [|n]; [done|]. intros _. simpl. by rewrite Nat.sub_0_r. Qed.

Section cached_keys.
Context {plat : Platform} (m : smap string).
Hypothesis Hm : sm_wf m.
Hypothesis Hlen : (Z.of_nat (length m) <= INT_MAX)%Z.
Context (wild p' : string) (skip limit : Z).
Hypothesis Hlit : literal_prefix wild = true.
Hypothesis Hlast : last_byte (wild_prefix wild) <> 255%Z.
Hypothesis Hp' : incr_last (wild_prefix wild) = Some p'.
Hypothesis Hw : window_ok skip limit.

Let matching (kv : string * string) : bool := wild_match wild kv.1.
Let b : nat := sm_lower_bound (wild_prefix wild) m.
Let e : nat := sm_lower_bound p' m.

Lemma matching_in_range i kv : m !! i = Some kv -> matching kv = true -> b <= i < e.
Proof.
  intros Hi Hk. apply (wild_match_prefix _ _ Hlit) in Hk.
  rewrite (prefix_range_entry m Hm _ _ _ _ Hlast Hp' Hi) in Hk.
  by apply bool_decide_eq_true in Hk.
Qed.

Lemma hits_from_begin : filterb matching (drop b m) = hits wild m.
Proof.
  assert (hits wild m = filterb matching m) as -> by by apply hits_match.
  rewrite <- (take_drop b m) at 2. rewrite filter_app.
  rewrite (filter_none matching (take b m)); [done|].
  apply Forall_forall. intros kv (i & Hi)%list_elem_of_lookup.
  apply lookup_take_Some in Hi as [Hi Hlt].
  destruct (matching kv) eqn:E; [|done]. destruct (matching_in_range _ _ Hi E). lia.
Qed.

Lemma hits_in_range : filterb matching (take (e - b) (drop b m)) = hits wild m.
Proof.
  rewrite <- hits_from_begin. rewrite <- (take_drop (e - b) (drop b m)) at 2.
  rewrite filter_app, (filter_none matching (drop (e - b) (drop b m))); [by rewrite app_nil_r|].
  apply Forall_forall. intros kv (i & Hi)%list_elem_of_lookup. rewrite !lookup_drop in Hi.
  destruct (matching kv) eqn:E; [|done]. destruct (matching_in_range _ _ Hi E). lia.
Qed.

Lemma hits_length : (Z.of_nat (length (page skip limit (hits wild m))) <= INT_MAX)%Z /\
  (Z.of_nat (length (page skip limit (reverse (hits wild m)))) <= INT_MAX)%Z.
Proof.
  pose proof (page_length_le skip limit (hits wild m)).
  pose proof (page_length_le skip limit (reverse (hits wild m))).
  rewrite length_reverse in *. pose proof (filterb_length (hit wild) m). unfold hits in *. lia.
Qed.

(** The two loops, for whatever is done with the entries. *)
Lemma cached_scan_fwd {St} (emit : string * string -> SM St unit) (s : St) :
  e <> 0 ->
  local (-1)%Z (cached_loop m wild skip limit emit false (e - 1) (S (length m)) b) s
  = for_all emit (page skip limit (hits wild m)) s.
Proof.
  intros He. pose proof (lower_bound_le m (wild_prefix wild)).
  rewrite cached_loop_fwd; [|done|unfold b; lia|done| |lia|lia].
  - rewrite <- windowed_is_page by done.
    apply (f_equal (fun l => for_all emit (windowed skip limit 0 l) s)), hits_from_begin.
  - intros j kv Hj Hkv. destruct (wild_match wild kv.1) eqn:E; [|done].
    destruct (matching_in_range _ _ Hkv E). lia.
Qed.

Lemma cached_scan_bwd {St} (emit : string * string -> SM St unit) (s : St) :
  b < e -> first_mismatch m wild b = false ->
  local (-1)%Z (cached_loop m wild skip limit emit true b (S (length m)) (e - 1)) s
  = for_all emit (page skip limit (reverse (hits wild m))) s.
Proof.
  intros Hbe Hfm. assert (e <= length m) by apply lower_bound_le.
  rewrite cached_loop_bwd; [|done|lia|lia|lia| |lia|lia].
  - rewrite filter_reverse. replace (S (e - 1) - b) with (e - b) by lia.
    rewrite <- windowed_is_page by done.
    apply (f_equal (fun l => for_all emit (windowed skip limit 0 (reverse l)) s)), hits_in_range.
  - intros kv Hkv. unfold first_mismatch in Hfm. rewrite Hkv in Hfm.
    by destruct (wild_match wild kv.1).
Qed.
End cached_keys.

(** *** The text of a result *)

(** [{"key":"k","value":v}] *)
Definition entry_obj (kv : string * string) : string :=
  q "{`key`:`" +:+ kv.1 +:+ q "`,`value`:" +:+ kv.2 +:+ "}".

(** [{"result":[...]}] with the entries between commas *)
Definition keys_text (l : list (string * string)) : string :=
  out_open +:+ comma_sep (entry_obj <$> l) +:+ "]}".

Lemma entry_texts_comma_sep l : l <> [] ->
  entry_texts l = comma_sep (entry_obj <$> l) +:+ String "," EmptyString.
Proof.
  induction l as [|kv l IH]; [done|]. intros _.
  assert (entry_text kv = entry_obj kv +:+ String "," EmptyString) as E.
  { unfold entry_text, entry_obj. by rewrite !sapp_assoc. }
  destruct l as [|kv' l]; cbn [entry_texts]; rewrite E; [by rewrite sapp_nil_r|].
  cbn [entry_texts] in IH. rewrite IH by done.
  change (comma_sep (entry_obj <$> kv :: kv' :: l))
    with (entry_obj kv +:+ String "," (comma_sep (entry_obj <$> kv' :: l))).
  by rewrite !sapp_assoc.
Qed.

Lemma close_entries l out0 :
  close_out (Z.of_nat (length l)) (out_open +:+ entry_texts l)
  = (Ok tt, keys_text l) /\ close_out 0 out0 = (Ok tt, keys_text []).
Proof.
  split; [|done]. destruct l as [|kv l]; [done|]. unfold close_out.
  rewrite (proj2 (Z.ltb_lt _ _)) by (simpl; lia).
  rewrite entry_texts_comma_sep, <- sapp_assoc, set_last_snoc by done.
  unfold keys_text. by rewrite !sapp_assoc.
Qed.

Section cached_results.
Context {plat : Platform} (m : smap string) (wild p' : string) (skip limit : Z).

(** What the cached queries rely on: a well-formed map, a wildcard whose
    prefix is literal, not empty and not ended by [0xFF], a window within the
    range of [int]. *)
Definition cache_query_ok : Prop :=
  sm_wf m /\ (Z.of_nat (length m) <= INT_MAX)%Z /\ literal_prefix wild = true /\
  last_byte (wild_prefix wild) <> 255%Z /\ incr_last (wild_prefix wild) = Some p' /\
  window_ok skip limit.

Lemma push_all_keyed (countOnly : bool) l (n := Z.of_nat (length l)) rs :
  Forall castable l -> (n <= INT_MAX)%Z ->
  returning 0%Z (for_all
    (counted (fun kv => if countOnly then ret tt else push_keyed kv)) l) rs
  = (Ok n, if countOnly then rs else rs ++ flat_map keyed_entries l).
Proof.
  intros Hc Hn.
  rewrite (returning_counted _ (fun kv rs => if countOnly then rs else rs ++ keyed_entries kv)).
  - f_equal. destruct countOnly; [|apply foldl_app_flat_map].
    clear. revert rs. by induction l.
  - eapply Forall_impl; [exact Hc|]. intros kv Hkv s. destruct countOnly; [done|].
    unfold push_keyed, bind, lift. by rewrite keyed_entry_castable.
  - done.
Qed.

Lemma push_all_text (countOnly : bool) l (n := Z.of_nat (length l)) out :
  (n <= INT_MAX)%Z ->
  returning 0%Z (for_all (counted (fun kv => if countOnly then ret tt
                           else modify (fun out => out +:+ entry_text kv))) l) out
  = (Ok n, if countOnly then out else out +:+ entry_texts l).
Proof.
  intros Hn. rewrite (returning_counted _
    (fun kv out => if countOnly then out else out +:+ entry_text kv)).
  - f_equal. destruct countOnly; [|apply foldl_entry_texts].
    clear. revert out. by induction l.
  - apply Forall_true. intros kv s. by destruct countOnly.
  - done.
Qed.

(** a forward query to the cache finds the page of the hits, unless the
    first entry at or after the prefix does not match: then it finds nothing,
    whatever follows.  Without an entry below the end of the range it
    decrements [begin()]. *)
Theorem cached_keys_forward (countOnly : bool) (rs : list wvalue) :
  cache_query_ok -> Forall castable m ->
  let P := page skip limit (hits wild m) in
  _GetCachedKeys m countOnly false wild skip limit rs =
  if decide (sm_lower_bound p' m = 0) then (Undef, rs)
  else if first_mismatch m wild (sm_lower_bound (wild_prefix wild) m) then (Ok 0%Z, rs)
  else (Ok (Z.of_nat (length P)), if countOnly then rs else rs ++ flat_map keyed_entries P).
Proof.
  intros (Hm & Hlen & Hlit & Hlast & Hp' & Hw) Hc P.
  unfold _GetCachedKeys, cached_range. rewrite not_leading_star, Hp' by done.
  unfold lift, bind. destruct (decide (sm_lower_bound p' m = 0)) as [->|He]; [done|].
  rewrite map_prev_pos by done. cbn [obind]. case_match; [done|].
  unfold returning. rewrite (cached_scan_fwd m Hm Hlen wild p') by done.
  apply push_all_keyed; [|by eapply hits_length].
  apply Forall_forall. intros kv Hkv%page_incl.
  apply list_elem_of_filter in Hkv as [_ Hkv]. by eapply Forall_forall in Hc.
Qed.

(** A reversed query finds the page of the hits from the last key down,
    when the lowest entry of the prefix matches; the highest one must match
    too, or nothing is found. *)
Theorem cached_keys_reversed (countOnly : bool) (rs : list wvalue) :
  cache_query_ok -> Forall castable m ->
  sm_lower_bound (wild_prefix wild) m < sm_lower_bound p' m ->
  first_mismatch m wild (sm_lower_bound (wild_prefix wild) m) = false ->
  let P := page skip limit (reverse (hits wild m)) in
  _GetCachedKeys m countOnly true wild skip limit rs =
  if first_mismatch m wild (sm_lower_bound p' m - 1) then (Ok 0%Z, rs)
  else (Ok (Z.of_nat (length P)), if countOnly then rs else rs ++ flat_map keyed_entries P).
Proof.
  intros (Hm & Hlen & Hlit & Hlast & Hp' & Hw) Hc Hbe Hfm P.
  unfold _GetCachedKeys, cached_range. rewrite not_leading_star, Hp' by done.
  unfold lift, bind. rewrite map_prev_pos by lia. cbn [obind]. case_match; [done|].
  unfold returning. rewrite (cached_scan_bwd m Hm Hlen wild p') by done.
  apply push_all_keyed; [|by eapply hits_length].
  apply Forall_forall. intros kv Hkv%page_incl. rewrite elem_of_reverse in Hkv.
  apply list_elem_of_filter in Hkv as [_ Hkv]. by eapply Forall_forall in Hc.
Qed.

(** The overload that writes text gives [{"result":[...]}] with exactly the
    entries of the page, for a forward query. *)
Theorem cached_keys_text (out : string) :
  cache_query_ok -> sm_lower_bound p' m <> 0 ->
  let P := page skip limit (hits wild m) in
  _GetCachedKeys_out m false false wild skip limit out =
  if first_mismatch m wild (sm_lower_bound (wild_prefix wild) m) then (Ok 0%Z, keys_text [])
  else (Ok (Z.of_nat (length P)), keys_text P).
Proof.
  intros (Hm & Hlen & Hlit & Hlast & Hp' & Hw) He P.
  unfold _GetCachedKeys_out, cached_range. rewrite not_leading_star, Hp' by done.
  unfold lift, bind. rewrite map_prev_pos by done. cbn [obind]. case_match; [done|].
  unfold put_st.
  pose proof (push_all_text false P out_open (proj1 (hits_length m Hlen wild p' skip limit))) as E.
  rewrite (returning_ext _ _ (for_all (counted (fun kv =>
    modify (fun out => out +:+ entry_text kv))) P)); [|intros s; by apply (cached_scan_fwd m Hm Hlen wild p')].
  cbn [negb] in E. rewrite E. by destruct (close_entries P EmptyString) as [-> _].
Qed.
End cached_results.

Section cache_witnesses.
Import Demo.

Lemma demo_cache_ok : cache_query_ok (contents d) "user_*" "user`" 0 2.
Proof.
  split_and!; [apply contents_wf|vm_compute; discriminate|reflexivity|vm_compute; discriminate
    |reflexivity|]. apply (bool_decide_eq_true_1 (window_ok 0 2)). reflexivity.
Qed.

Lemma demo_castable : Forall castable (contents d).
Proof. apply castable_all. vm_compute. reflexivity. Qed.

Theorem cached_keys_forward_witness :
  _GetCachedKeys (contents d) true false "user_*" 0 2 [] = (Ok 2%Z, []) /\
  _GetCachedKeys (contents d) true false "user_2*" 0 2 [] = (Ok 1%Z, []).
Proof.
  split; [|reflexivity].
  rewrite (cached_keys_forward (contents d) "user_*" "user`" 0 2 true []);
    [reflexivity|apply demo_cache_ok|apply demo_castable].
Defined.

Theorem cached_keys_reversed_witness :
  _GetCachedKeys (contents d) false true "user_*" 0 2 []
  = (Ok 2%Z, flat_map keyed_entries
      [("user_3", "plain"); ("user_2", q "{`n`:2,`name`:`bo`}")]).
Proof.
  rewrite (cached_keys_reversed (contents d) "user_*" "user`" 0 2 false []);
    [reflexivity|apply demo_cache_ok|apply demo_castable|by vm_compute; lia|reflexivity].
Defined.

Theorem cached_keys_text_witness :
  _GetCachedKeys_out (contents d) false false "user_*" 0 2 "old"
  = (Ok 2%Z, q "{`result`:[{`key`:`user_1`,`value`:{`n`:1,`name`:`al`}},{`key`:`user_2`,`value`:{`n`:2,`name`:`bo`}}]}").
Proof.
  rewrite (cached_keys_text (contents d) "user_*" "user`" 0 2 "old");
    [reflexivity|apply demo_cache_ok|done].
Defined.
End cache_witnesses.
