(* ===== verification/CoreRead.v ===== *)
(** * Queries over ranges of keys

    The read operations of [Core] in [src/src/quarks.cpp] that walk through the
    store: [getAll], [getKeys], [getKeysReversed], [getCount], [iter],
    [iterReversed] and [prefixIter].  They read the state of the process and
    append to a result (a vector of values, a text, a count), which is the
    state of the definitions here.  [fuel] bounds the turns of a loop over the
    store; more than the number of its entries is enough. *)

From S2P Require Import Prelude SortedMap Wildcmp Json Store World Scan Cache.
Open Scope quarks_scope.

Section core_read.
Context {plat : Platform} {R : RocksDB} (fuel : nat).

(** [it->Seek(prefix); it->Valid() && it->key().starts_with(prefix); it->Next()] *)
Definition prefix_loop {S} (it : Iter) (prefix : string)
    (body : string * string -> SM S ctrl) : SM S unit :=
  for_loop fuel (fun it => it_Valid it && starts_with prefix (it_key it)) it_Next
    (fun it => body (it_key it, it_value it)) (it_Seek it prefix).

(** The same loop, giving the iterator at its end. *)
Definition prefix_loop_it {S} (it : Iter) (prefix : string)
    (body : string * string -> SM S ctrl) : SM S Iter :=
  for_loop_x fuel (fun it => it_Valid it && starts_with prefix (it_key it)) it_Next
    (fun it => body (it_key it, it_value it)) (it_Seek it prefix).

(** The frame of most queries: the status, the leading star, a new iterator. *)
Definition query {S A} (w : world) (wild : string) (failed : A)
    (body : Iter -> SM S A) : SM S A :=
  if dbStatus_ok w then
    if leading_star wild then ret failed
    else match db w with
         | Some d => body (NewIterator d)
         | None => undef
         end
  else ret failed.

(** ** getAll *)

Definition getAll_turn (wild : string) (skip limit : Z) (kv : string * string)
    : SM (Z * (bool * list wvalue)) ctrl :=
  if wild_match wild kv.1 then
    try_runtime
      (paged_body skip limit
         (fun kv => let! w := lift (load_value kv.2) in outer (push_back [w])) kv)
      (fun _ =>
         do! outer (fun '(r, rs) => (Ok tt, (false, rs ++ [w_set "error" (WStr kv.2) WNull])));
         ret Continue)
  else ret Continue.

Definition getAll (w : world) (wild : string) (skip limit : Z) : SM (list wvalue) bool :=
  query w wild false (fun it =>
    let! r := returning true (local (-1)%Z
                (prefix_loop it (wild_prefix wild) (getAll_turn wild skip limit))) in
    ret (r && dbStatus_ok w)).

(** *** Several wildcards and a filter

    [passFilter(x, w)] gets the value and the result by reference: it works on
    [w] as its state. *)
Section filtered.
Context (passFilter : rvalue -> SM wvalue bool) (skip limit : Z).

(** The state: [i], the local [w] of the turn, [ret] and the results. *)
Definition filtered_emit (kv : string * string) : SM (wvalue * (bool * list wvalue)) unit :=
  let! v := lift (load_value kv.2) in
  do! set_local v;
  let! pass := (fun '(w, s) => let '(o, w') := passFilter (load kv.2) w in (o, (w', s))) in
  if pass then fun '(w, s) => let '(o, s') := outer (push_back [w]) s in (o, (moved w, s'))
  else ret tt.

Definition filtered_turn (wild : string) (kv : string * string)
    : SM (Z * (bool * list wvalue)) ctrl :=
  if wild_match wild kv.1 then fun '(i, s) =>
    let '(o, (i', (_, s'))) :=
      try_runtime (paged_body skip limit filtered_emit kv)
        (fun _ '(i, (w, (r, rs))) =>
           (Ok Continue, (i, (WNull, (false, rs ++ [w_set "error" (WStr kv.2) w])))))
        (i, (WNull, s)) in
    (o, (i', s'))
  else ret Continue.

(** [for(auto wild : wilds)]; [process] is never set again once it is false. *)
Fixpoint wilds_loop (it : Iter) (process : bool) (wilds : list string)
    : SM (Z * (bool * list wvalue)) unit :=
  match wilds with
  | [] => ret tt
  | wild :: wilds =>
      let process := if leading_star wild then false else process in
      let! it := (if process then prefix_loop_it it (wild_prefix wild) (filtered_turn wild)
                  else ret it) in
      wilds_loop it process wilds
  end.

Definition getAll_filtered (w : world) (wilds : list string) : SM (list wvalue) bool :=
  if dbStatus_ok w then
    match db w with
    | Some d =>
        let! r := returning true (local (-1)%Z (wilds_loop (NewIterator d) true wilds)) in
        ret (r && dbStatus_ok w)
    | None => undef
    end
  else ret false.
End filtered.

(** ** getKeys *)

(** The loop body of [getKeys], [getKeysReversed] and their like. *)
Definition keys_turn (wild : string) (skip limit : Z)
    : string * string -> SM (Z * (bool * list wvalue)) ctrl :=
  tested_body skip limit (fun kv => wild_match wild kv.1) (emit_entries keyed_entry).

Definition getKeys (w : world) (wild : string) (skip limit : Z) : SM (list wvalue) bool :=
  if CacheEnabled (cfg w) then
    do! _GetCachedKeys (CacheMap w) false false wild skip limit; ret true
  else query w wild false (fun it =>
    let! r := returning true (local (-1)%Z
                (prefix_loop it (wild_prefix wild) (keys_turn wild skip limit))) in
    ret (r && dbStatus_ok w)).

(** The overload that writes text to [out] *)
Definition text_turn (wild : string) (skip limit : Z)
    : string * string -> SM (Z * (Z * string)) ctrl :=
  tested_body skip limit (fun kv => wild_match wild kv.1)
    (counted (fun kv => modify (fun out => out +:+ entry_text kv))).

Definition getKeys_out (w : world) (wild : string) (skip limit : Z) : SM string bool :=
  if CacheEnabled (cfg w) then
    do! _GetCachedKeys_out (CacheMap w) false false wild skip limit; ret true
  else query w wild false (fun it =>
    do! put_st out_open;
    let! matched := returning 0%Z (local (-1)%Z
                      (prefix_loop it (wild_prefix wild) (text_turn wild skip limit))) in
    do! close_out matched;
    ret (true && dbStatus_ok w)).

(** ** getKeysReversed *)

(** [it->Seek(prefixRev); it->Prev()], then
    [it->Valid() && it->key().starts_with(prefix); it->Prev()] *)
Definition reversed_loop {S} (it : Iter) (prefix : string)
    (body : string * string -> SM S ctrl) : SM S unit :=
  match incr_last prefix with
  | None => undef
  | Some prefixRev =>
      for_loop fuel (fun it => it_Valid it && starts_with prefix (it_key it)) it_Prev
        (fun it => body (it_key it, it_value it)) (it_Prev (it_Seek it prefixRev))
  end.

Definition getKeysReversed (w : world) (wild : string) (skip limit : Z)
    : SM (list wvalue) bool :=
  if CacheEnabled (cfg w) then
    do! _GetCachedKeys (CacheMap w) false true wild skip limit; ret true
  else query w wild false (fun it =>
    let! r := returning true (local (-1)%Z
                (reversed_loop it (wild_prefix wild) (keys_turn wild skip limit))) in
    ret (r && dbStatus_ok w)).

Definition getKeysReversed_out (w : world) (wild : string) (skip limit : Z)
    : SM string bool :=
  if CacheEnabled (cfg w) then
    do! _GetCachedKeys_out (CacheMap w) false true wild skip limit; ret true
  else query w wild false (fun it =>
    do! put_st out_open;
    let! matched := returning 0%Z (local (-1)%Z
                      (reversed_loop it (wild_prefix wild) (text_turn wild skip limit))) in
    do! close_out matched;
    ret (true && dbStatus_ok w)).

(** ** getCount *)

Definition getCount (w : world) (wild : string) (skip limit : Z) : SM Z bool :=
  if CacheEnabled (cfg w) then
    let! out := (fun s =>
      ((_GetCachedKeys (CacheMap w) true false wild skip limit []).1, s)) in
    do! put_st out; ret true
  else if dbStatus_ok w then
    do! put_st 0%Z;
    query w wild false (fun it =>
      do! local (-1)%Z (prefix_loop it (wild_prefix wild)
            (tested_body skip limit (fun kv => wild_match wild kv.1)
               (fun _ => modify (fun out => (out + 1)%Z))));
      ret (true && dbStatus_ok w))
  else ret false.

(** ** iter and iterReversed *)

Definition iter_turn (skip limit : Z)
    : string * string -> SM (Z * (bool * list wvalue)) ctrl :=
  paged_body skip limit (emit_entries keyed_entry).

Definition iter (w : world) (skip limit : Z) : SM (list wvalue) bool :=
  if dbStatus_ok w then
    match db w with
    | Some d =>
        let! r := returning true (local (-1)%Z
          (for_loop fuel it_Valid it_Next
             (fun it => iter_turn skip limit (it_key it, it_value it))
             (it_SeekToFirst (NewIterator d)))) in
        ret (r && dbStatus_ok w)
    | None => undef
    end
  else ret false.

Definition iterReversed (w : world) (skip limit : Z) : SM (list wvalue) bool :=
  if dbStatus_ok w then
    match db w with
    | Some d =>
        let! r := returning true (local (-1)%Z
          (for_loop fuel it_Valid it_Prev
             (fun it => iter_turn skip limit (it_key it, it_value it))
             (it_SeekToLast (NewIterator d)))) in
        ret (r && dbStatus_ok w)
    | None => undef
    end
  else ret false.

(** ** prefixIter: the value is converted before its number is tested *)

Definition prefixIter (it : Iter) (wild : string) (skip limit : Z) : SM (list wvalue) bool :=
  if leading_star wild then ret false
  else
    do! local (-1)%Z (prefix_loop it (wild_prefix wild) (fun kv =>
          if wild_match wild kv.1 then
            let! w := lift (load_value kv.2) in
            paged_body skip limit (fun w => push_back [w]) w
          else ret Continue));
    ret true.
End core_read.

(** ** The keys with a prefix *)

Lemma prefix_above p s : sltb s p = true -> starts_with p s = false.
Proof.
  intros H. destruct (starts_with p s) eqn:E; [|done].
  apply starts_with_not_slt in E. congruence.
Qed.

(** What is below the end of the range: what is below the prefix, then the range. *)
Lemma prefix_split p p' (m : smap string) :
  sm_wf m -> last_byte p <> 255%Z -> incr_last p = Some p' ->
  filterb (fun x => sltb x.1 p') m =
  filterb (fun x => sltb x.1 p) m ++ filterb (fun x => starts_with p x.1) m.
Proof.
  intros Hm Hl Hp. induction m as [|x m IH]; [done|].
  apply sm_wf_cons in Hm as [Hm Hab]. specialize (IH Hm).
  pose proof (incr_last_range _ _ x.1 Hl Hp) as Hx.
  rewrite !filter_cons. destruct (sltb x.1 p) eqn:Ex.
  - assert (sltb x.1 p' = true) as ->.
    { apply (slt_trans x.1 p p'); [done|].
      pose proof (incr_last_range _ _ p Hl Hp) as H. rewrite starts_with_refl in H.
      unfold slt. by apply eq_sym, andb_prop in H as [_ ?]. }
    rewrite (prefix_above _ _ Ex), !(decide_True (P := true = true)), decide_False by done.
    by rewrite IH.
  - rewrite Hx. cbn [negb andb]. rewrite (decide_False (P := false = true)) by done.
    assert (filterb (fun x => sltb x.1 p) m = []) as Hnone.
    { apply filter_none, (Forall_impl _ _ _ Hab). intros y Hy.
      destruct (sltb y.1 p) eqn:Ey; [|done].
      assert (slt x.1 p) as H by by apply (slt_trans _ y.1). unfold slt in H. congruence. }
    rewrite IH, Hnone. by case_decide.
Qed.

Lemma hits_filter wild (m : smap string) :
  filterb (fun kv => wild_match wild kv.1) (filterb (fun kv => starts_with (wild_prefix wild) kv.1) m)
  = hits wild m.
Proof.
  unfold hits. rewrite list_filter_filter. apply list_filter_iff. intros kv.
  unfold hit. rewrite andb_true_iff. tauto.
Qed.

(** ** A query answers with a page of the hits *)

Section queries.
Context {plat : Platform} {R : RocksDB} {RL : RocksDBLaws}.
Context (fuel : nat) (w : world) (d : DB) (skip limit : Z).

(** The database is open; the loops have fuel; [i] and the window stay within
    the range of [int]. *)
Definition query_ok : Prop :=
  opened w d /\ length (contents d) < fuel /\
  (Z.of_nat (length (contents d)) <= INT_MAX)%Z /\ window_ok skip limit.

Hypothesis Hok : query_ok.
Let m : smap string := contents d.

Lemma query_opened {S A} wild (failed : A) (body : Iter -> SM S A) s :
  query w wild failed body s =
  if leading_star wild then (Ok failed, s) else body (NewIterator d) s.
Proof.
  destruct Hok as ([Hd Hs] & _). unfold query. rewrite Hs, Hd. by destruct (leading_star wild).
Qed.

Lemma filterb_fits (f : string * string -> bool) :
  (Z.of_nat (length (filterb f m)) <= INT_MAX)%Z.
Proof. pose proof (filterb_length f m). destruct Hok as (_ & _ & ? & _). unfold m in *. lia. Qed.

(** The loop goes through the entries with the prefix. *)
Lemma prefix_loop_list {S} wild (turn : string * string -> SM S ctrl) s :
  prefix_loop fuel (NewIterator d) (wild_prefix wild) turn s
  = for_each turn (filterb (fun kv => starts_with (wild_prefix wild) kv.1) m) s.
Proof.
  pose proof Hok as (_ & Hf & _). unfold prefix_loop.
  rewrite (for_loop_fwd fuel (starts_with (wild_prefix wild))).
  - rewrite fwd_Seek. unfold m. by rewrite sm_prefix_range by apply contents_wf.
  - pose proof (fwd_length (it_Seek (NewIterator d) (wild_prefix wild))) as H.
    destruct (Seek_law (NewIterator d) (wild_prefix wild)) as [E _].
    rewrite E, NewIterator_law in H. lia.
Qed.

(** The same from an iterator of the same snapshot, with the iterator at the end *)
Lemma prefix_loop_it_list {S A} it wild (turn : string * string -> SM S ctrl)
    (k : Iter -> SM S A) (k' : SM S A) s : snapshot it = m ->
  (forall it s, snapshot it = m -> k it s = k' s) ->
  bind (prefix_loop_it fuel it (wild_prefix wild) turn) k s
  = (do! for_each turn (filterb (fun kv => starts_with (wild_prefix wild) kv.1) m); k') s.
Proof.
  intros Hit Hk. pose proof Hok as (_ & Hf & _). destruct (Seek_law it (wild_prefix wild)) as [E _].
  pose proof (for_loop_x_spec fuel (fun it => it_Valid it && starts_with (wild_prefix wild) (it_key it))
    it_Next (fun it => turn (it_key it, it_value it)) (it_Seek it (wild_prefix wild)) s) as H.
  rewrite (for_loop_fwd fuel (starts_with (wild_prefix wild))), fwd_Seek_snapshot, Hit in H.
  2: { pose proof (fwd_length (it_Seek it (wild_prefix wild))) as Hl.
       rewrite E, Hit in Hl. unfold m in *. lia. }
  rewrite sm_prefix_range in H by apply contents_wf.
  unfold bind at 2. rewrite H. unfold bind, prefix_loop_it.
  destruct (for_loop_x _ _ _ _ _ _) as [[it'| | |] s'] eqn:Ex; try done.
  apply Hk. apply for_loop_x_snapshot in Ex. by rewrite Ex, E.
Qed.

Lemma prefix_loop_page {S} wild (emit : string * string -> SM S unit) turn s :
  (forall kv s, turn kv s = tested_body skip limit (fun kv => wild_match wild kv.1) emit kv s) ->
  local (-1)%Z (prefix_loop fuel (NewIterator d) (wild_prefix wild) turn) s
  = for_all emit (page skip limit (hits wild m)) s.
Proof.
  intros Ht. pose proof Hok as (_ & Hf & Hl & Hw).
  rewrite <- hits_filter, <- paged_loop_page by (done || apply filterb_fits).
  unfold local. rewrite prefix_loop_list. by rewrite (for_each_ext _ _ _ _ Ht).
Qed.

Lemma reversed_loop_page {S} wild p' (emit : string * string -> SM S unit) s :
  last_byte (wild_prefix wild) <> 255%Z -> incr_last (wild_prefix wild) = Some p' ->
  sm_lower_bound p' m < length m ->
  local (-1)%Z (reversed_loop fuel (NewIterator d) (wild_prefix wild)
    (tested_body skip limit (fun kv => wild_match wild kv.1) emit)) s
  = for_all emit (page skip limit (reverse (hits wild m))) s.
Proof.
  intros Hl Hp Hlt. pose proof Hok as (_ & Hf & Hlen & Hw).
  assert (bwd (it_Prev (it_Seek (NewIterator d) p')) = reverse (filterb (fun x => sltb x.1 p') m))
    as Hb by by apply bwd_Seek_Prev.
  rewrite <- hits_filter, <- filter_reverse, <- paged_loop_page.
  - unfold local, reversed_loop. rewrite Hp. f_equal.
    rewrite (for_loop_bwd fuel (starts_with (wild_prefix wild))).
    + rewrite Hb, (prefix_split _ _ m (contents_wf d) Hl Hp), reverse_app. f_equal.
      rewrite take_while_app.
      * rewrite (take_while_none _ (reverse _)); [by rewrite app_nil_r|].
        apply Forall_reverse, Forall_forall. intros x [Hx _]%list_elem_of_filter.
        by apply prefix_above.
      * apply Forall_reverse, Forall_forall. by intros x [Hx _]%list_elem_of_filter.
    + rewrite Hb, length_reverse. pose proof (filterb_length (fun x => sltb x.1 p') m).
      unfold m in *. lia.
  - done.
  - rewrite length_reverse. apply filterb_fits.
Qed.
End queries.

Lemma getAll_turn_tested {plat : Platform} wild skip limit kv st :
  getAll_turn wild skip limit kv st =
  tested_body skip limit (fun kv => wild_match wild kv.1) (emit_entries value_entry) kv st.
Proof.
  unfold getAll_turn, tested_body. destruct (wild_match wild kv.1); [|done].
  destruct st as [i [r rs]]. unfold try_runtime, paged_body.
  destruct (in_window skip limit (int32 (i + 1))) eqn:Ew; [|done].
  unfold emit_entries, value_entry, bind, lift.
  destruct (load_value kv.2) as [v|e| |]; try done.
  destruct e; try done. by rewrite (in_window_not_past _ _ _ Ew).
Qed.

(** *** Several patterns

    What [filtered_turn] pushes for an entry *)
Definition filtered_entry {plat : Platform} (passFilter : rvalue -> SM wvalue bool)
    (kv : string * string) : outcome (bool * list wvalue) :=
  match load_value kv.2 with
  | Ok v =>
      match passFilter (load kv.2) v with
      | (Ok pass, w) => Ok (true, if pass then [w] else [])
      | (Throw (RuntimeError _), w) => Ok (false, [w_set "error" (WStr kv.2) w])
      | (Throw e, _) => Throw e
      | (Undef, _) => Undef
      | (Fuel, _) => Fuel
      end
  | Throw (RuntimeError _) => Ok (false, [w_set "error" (WStr kv.2) WNull])
  | Throw e => Throw e
  | Undef => Undef
  | Fuel => Fuel
  end.

Lemma filtered_turn_tested {plat : Platform} passFilter skip limit wild kv st :
  filtered_turn passFilter skip limit wild kv st =
  tested_body skip limit (fun kv => wild_match wild kv.1)
    (emit_entries (filtered_entry passFilter)) kv st.
Proof.
  unfold filtered_turn, tested_body. destruct (wild_match wild kv.1); [|done].
  destruct st as [i [r rs]]. unfold try_runtime, paged_body.
  destruct (in_window skip limit (int32 (i + 1))) eqn:Ew.
  - rewrite (in_window_not_past _ _ _ Ew).
    unfold emit_entries, filtered_entry, filtered_emit, bind, lift, outer, set_local, push_back,
      modify, ret.
    destruct (load_value kv.2) as [v|[]| |]; try done.
    destruct (passFilter (load kv.2) v) as [[[]|[]| |] w]; try done. by rewrite app_nil_r.
  - done.
Qed.

Section patterns.
Context {plat : Platform} {R : RocksDB} {RL : RocksDBLaws}.
Context (fuel : nat) (w : world) (d : DB) (skip limit : Z).
Context (passFilter : rvalue -> SM wvalue bool).
Let m : smap string := contents d.

Lemma wilds_loop_list it wilds s : query_ok fuel w d skip limit -> snapshot it = m ->
  Forall (fun wild => leading_star wild = false) wilds ->
  wilds_loop fuel passFilter skip limit it true wilds s
  = for_all (fun wild => for_each (tested_body skip limit (fun kv => wild_match wild kv.1)
               (emit_entries (filtered_entry passFilter)))
               (filterb (fun kv => starts_with (wild_prefix wild) kv.1) m)) wilds s.
Proof.
  intros Hok Hit Hs. revert it s Hit. induction Hs as [|wild wilds Hw _ IH]; intros it s Hit; [done|].
  cbn [wilds_loop]. rewrite Hw. cbn [for_all].
  etrans; [apply (prefix_loop_it_list _ _ _ _ _ Hok); [done|]; intros it' s' Hit'; by apply IH|].
  unfold bind. by rewrite (for_each_ext _ _ _ _ (filtered_turn_tested _ _ _ _)).
Qed.

(** The patterns share the count: the page is that of all their hits. *)
Lemma wilds_page wilds i s : query_ok fuel w d skip limit -> (-1 <= i)%Z ->
  (i + Z.of_nat (length (flat_map (fun wild => hits wild m) wilds)) <= INT_MAX)%Z ->
  local i (for_all (fun wild => for_each (tested_body skip limit (fun kv => wild_match wild kv.1)
               (emit_entries (filtered_entry passFilter)))
               (filterb (fun kv => starts_with (wild_prefix wild) kv.1) m)) wilds) s
  = for_all (emit_entries (filtered_entry passFilter))
      (windowed skip limit (i + 1) (flat_map (fun wild => hits wild m) wilds)) s.
Proof.
  intros Hok. revert i s. induction wilds as [|wild wilds IH]; intros i s Hi Hl; [done|].
  cbn [for_all flat_map] in Hl |- *.
  rewrite (paged_loop_then skip limit _ _ _ (flat_map (fun wild => hits wild m) wilds)).
  - by rewrite hits_filter.
  - by destruct Hok as (_ & _ & _ & ?).
  - done.
  - by rewrite hits_filter.
  - intros i' s' Hi' Hl'. by apply IH.
Qed.

(** [getAll] over patterns *)
Lemma getAll_filtered_page wilds rs : query_ok fuel w d skip limit ->
  Forall (fun wild => leading_star wild = false) wilds ->
  let hs := flat_map (fun wild => hits wild m) wilds in
  (Z.of_nat (length hs) <= INT_MAX)%Z ->
  getAll_filtered fuel passFilter skip limit w wilds rs
  = returning true (for_all (emit_entries (filtered_entry passFilter)) (page skip limit hs)) rs.
Proof.
  intros Hok Hs hs Hl. pose proof Hok as ([Hd Hst] & _ & _ & Hw). unfold getAll_filtered.
  rewrite Hst, Hd. unfold bind at 1, returning, local.
  rewrite wilds_loop_list by (done || apply NewIterator_law).
  pose proof (wilds_page wilds (-1) (true, rs) Hok ltac:(lia)) as H. unfold local in H. fold hs in H.
  rewrite H, windowed_is_page by (done || lia). clear H.
  destruct (for_all _ _ _) as [[[]| | |] [b rs']]; try done. unfold ret. by rewrite andb_true_r.
Qed.
End patterns.

Section results.
Context {plat : Platform} {R : RocksDB} {RL : RocksDBLaws}.
Context (fuel : nat) (w : world) (d : DB) (wild : string) (skip limit : Z).
Let m : smap string := contents d.

Lemma castable_page l :
  Forall castable m -> (forall kv, kv ∈ l -> kv ∈ m) -> Forall castable (page skip limit l).
Proof.
  intros Hc Hl. apply Forall_forall. intros kv Hkv%page_incl%Hl. by eapply Forall_forall in Hc.
Qed.

Lemma hits_incl kv : kv ∈ hits wild m -> kv ∈ m.
Proof. by intros [_ ?]%list_elem_of_filter. Qed.

Lemma emit_values l r rs : Forall castable l ->
  for_all (emit_entries value_entry) l (r, rs)
  = (Ok tt, (r && forallb loads l, rs ++ flat_map value_entries l)).
Proof.
  intros H. apply (emit_entries_all _ (fun kv => (loads kv, value_entries kv))).
  eapply Forall_impl; [exact H|]. apply value_entry_castable.
Qed.

Lemma emit_keyed l r rs : Forall castable l ->
  for_all (emit_entries keyed_entry) l (r, rs)
  = (Ok tt, (r && forallb loads l, rs ++ flat_map keyed_entries l)).
Proof.
  intros H. apply (emit_entries_all _ (fun kv => (loads kv, keyed_entries kv))).
  eapply Forall_impl; [exact H|]. apply keyed_entry_castable.
Qed.

(** C3: on an open database, with a window that [int] can hold and no stored
    number out of range, [getAll] answers with the values of the page of the
    hits, in the order of the keys.  A value that is not JSON is answered too,
    as the only text of a list; only where that list cannot be read either (a
    quote or a backslash in the text breaks it) an error object is left in its
    place and the result is false.  A leading star is refused. *)
Theorem getAll_page (rs : list wvalue) :
  query_ok fuel w d skip limit -> Forall castable m ->
  let P := page skip limit (hits wild m) in
  getAll fuel w wild skip limit rs =
  if leading_star wild then (Ok false, rs)
  else (Ok (forallb loads P), rs ++ flat_map value_entries P).
Proof.
  intros Hok Hc P. unfold getAll. erewrite query_opened by done.
  destruct (leading_star wild); [done|]. unfold bind at 1, returning.
  rewrite (prefix_loop_page _ _ d _ _ Hok _ (emit_entries value_entry))
    by apply getAll_turn_tested.
  rewrite emit_values by (apply castable_page; [done|apply hits_incl]).
  destruct Hok as ([_ ->] & _). unfold ret. by rewrite andb_true_r.
Qed.

(** [getKeys] without the cache answers with the page of the hits, each
    value with its key; an entry that cannot be read as JSON leaves two
    objects, the error and the key. *)
Theorem getKeys_page (rs : list wvalue) :
  query_ok fuel w d skip limit -> CacheEnabled (cfg w) = false -> Forall castable m ->
  let P := page skip limit (hits wild m) in
  getKeys fuel w wild skip limit rs =
  if leading_star wild then (Ok false, rs)
  else (Ok (forallb loads P), rs ++ flat_map keyed_entries P).
Proof.
  intros Hok Hca Hc P. unfold getKeys. rewrite Hca. erewrite query_opened by done.
  destruct (leading_star wild); [done|]. unfold bind at 1, returning.
  rewrite (prefix_loop_page _ _ d _ _ Hok _ (emit_entries keyed_entry)) by done.
  rewrite emit_keyed by (apply castable_page; [done|apply hits_incl]).
  destruct Hok as ([_ ->] & _). unfold ret. by rewrite andb_true_r.
Qed.

(** The overload of [getKeys] that writes text gives [{"result":[...]}]
    with the entries of the same page. *)
Lemma getKeys_text (out : string) :
  query_ok fuel w d skip limit -> CacheEnabled (cfg w) = false ->
  getKeys_out fuel w wild skip limit out =
  if leading_star wild then (Ok false, out)
  else (Ok true, keys_text (page skip limit (hits wild m))).
Proof.
  intros Hok Hca. unfold getKeys_out. rewrite Hca. erewrite query_opened by done.
  destruct (leading_star wild); [done|]. unfold bind at 1, put_st. unfold bind at 1.
  rewrite (returning_ext _ _ (for_all (counted (fun kv =>
    modify (fun out => out +:+ entry_text kv))) (page skip limit (hits wild m))))
    by (intros s; by apply (prefix_loop_page _ _ d _ _ Hok)).
  pose proof (push_all_text false (page skip limit (hits wild m)) out_open) as E.
  cbv beta zeta in E. rewrite E.
  - destruct (close_entries (page skip limit (hits wild m)) EmptyString) as [Ec _].
    unfold bind. rewrite Ec. by destruct Hok as ([_ ->] & _).
  - pose proof (page_length_le skip limit (hits wild m)).
    pose proof (filterb_fits fuel w d skip limit Hok (hit wild)). unfold hits, m in *. lia.
Qed.

(** [getKeysReversed] without the cache answers with the page of the hits
    from the last key down, when the store holds a key above all keys with
    the prefix ([Seek] must end on an entry for [Prev] to step back from it)
    and the prefix does not end in the byte [0xFF]; with an empty prefix it
    writes out of the bounds of the string. *)
Theorem getKeysReversed_page (p' : string) (rs : list wvalue) :
  query_ok fuel w d skip limit -> CacheEnabled (cfg w) = false -> Forall castable m ->
  leading_star wild = false ->
  last_byte (wild_prefix wild) <> 255%Z -> incr_last (wild_prefix wild) = Some p' ->
  sm_lower_bound p' m < length m ->
  let P := page skip limit (reverse (hits wild m)) in
  getKeysReversed fuel w wild skip limit rs
  = (Ok (forallb loads P), rs ++ flat_map keyed_entries P) /\
  (getKeysReversed fuel w EmptyString skip limit rs).1 = Undef.
Proof.
  intros Hok Hca Hc Hls Hl Hp Hlt P. unfold getKeysReversed. rewrite Hca.
  erewrite !query_opened by done. split.
  - rewrite Hls. unfold bind at 1, returning, keys_turn.
    rewrite (reversed_loop_page _ _ d _ _ Hok _ p') by done.
    rewrite emit_keyed.
    + destruct Hok as ([_ ->] & _). unfold ret. by rewrite andb_true_r.
    + apply castable_page; [done|]. intros kv Hkv. rewrite elem_of_reverse in Hkv.
      by apply hits_incl.
  - done.
Qed.

(** [getCount] counts the entries of the page. *)
Theorem getCount_page (out : Z) :
  query_ok fuel w d skip limit -> CacheEnabled (cfg w) = false ->
  getCount fuel w wild skip limit out =
  if leading_star wild then (Ok false, 0%Z)
  else (Ok true, Z.of_nat (length (page skip limit (hits wild m)))).
Proof.
  intros Hok Hca. unfold getCount. rewrite Hca.
  pose proof Hok as ([_ Hs] & _). rewrite Hs. unfold bind at 1, put_st.
  erewrite query_opened by done. destruct (leading_star wild); [done|]. unfold bind.
  erewrite (prefix_loop_page _ _ d _ _ Hok) by done.
  assert (forall l n, for_all (fun _ : string * string => modify (fun out => (out + 1)%Z)) l n
                      = (Ok tt, (n + Z.of_nat (length l))%Z)) as ->; [|done].
  intros l. induction l as [|x l IH]; intros n; cbn [for_all length]; [by rewrite Z.add_0_r|].
  unfold bind, modify in *. rewrite IH. apply (f_equal (pair (Ok tt))). lia.
Qed.

Lemma iter_turn_tested kv st :
  iter_turn skip limit kv st = tested_body skip limit (fun _ => true) (emit_entries keyed_entry) kv st.
Proof. done. Qed.

(** [iter] and [iterReversed] walk through the whole store in both
    directions: pages of all entries, and of all entries reversed. *)
Theorem iter_page (rs : list wvalue) :
  query_ok fuel w d skip limit -> Forall castable m ->
  let P := page skip limit m in let Q := page skip limit (reverse m) in
  iter fuel w skip limit rs = (Ok (forallb loads P), rs ++ flat_map keyed_entries P) /\
  iterReversed fuel w skip limit rs = (Ok (forallb loads Q), rs ++ flat_map keyed_entries Q).
Proof.
  intros Hok Hc P Q. pose proof Hok as ([Hd Hs] & Hf & Hl & Hw).
  unfold iter, iterReversed. rewrite Hd, Hs. unfold bind.
  assert (forall l, (Z.of_nat (length l) <= INT_MAX)%Z -> forall s,
    local (-1)%Z (for_each (iter_turn skip limit) l) s
    = for_all (emit_entries keyed_entry) (page skip limit l) s) as Hpage.
  { intros l Hll s. rewrite <- (filter_every (fun _ => true) l) at 2 by by apply Forall_true.
    exact (paged_loop_page skip limit (fun _ => true) (emit_entries keyed_entry) l s Hw Hll). }
  split.
  - rewrite (returning_ext _ _ (for_all (emit_entries keyed_entry) P)).
    + unfold returning. rewrite emit_keyed by by apply castable_page.
      unfold ret. by rewrite andb_true_r.
    + intros s. etrans; [|by apply Hpage]. unfold local.
      rewrite (for_loop_fwd_all fuel (iter_turn skip limit)); by rewrite fwd_SeekToFirst.
  - rewrite (returning_ext _ _ (for_all (emit_entries keyed_entry) Q)).
    + unfold returning. rewrite emit_keyed; [unfold ret; by rewrite andb_true_r|].
      apply castable_page; [done|]. intros kv. by rewrite elem_of_reverse.
    + intros s. etrans; [|by apply Hpage; rewrite length_reverse]. unfold local.
      rewrite (for_loop_bwd_all fuel (iter_turn skip limit)); rewrite bwd_SeekToLast; [done|].
      by rewrite length_reverse.
Qed.

(** While the database is not open every query is refused and leaves its
    result as it was. *)
Theorem queries_refused (rs : list wvalue) (out : string) (n : Z) passFilter wilds :
  dbStatus_ok w = false -> CacheEnabled (cfg w) = false ->
  getAll fuel w wild skip limit rs = (Ok false, rs) /\
  getAll_filtered fuel passFilter skip limit w wilds rs = (Ok false, rs) /\
  getKeys fuel w wild skip limit rs = (Ok false, rs) /\
  getKeys_out fuel w wild skip limit out = (Ok false, out) /\
  getKeysReversed fuel w wild skip limit rs = (Ok false, rs) /\
  getKeysReversed_out fuel w wild skip limit out = (Ok false, out) /\
  getCount fuel w wild skip limit n = (Ok false, n) /\
  iter fuel w skip limit rs = (Ok false, rs) /\
  iterReversed fuel w skip limit rs = (Ok false, rs).
Proof.
  intros Hs Hc. unfold getAll, getAll_filtered, getKeys, getKeys_out, getKeysReversed,
    getKeysReversed_out, getCount, iter, iterReversed, query. rewrite Hs, Hc. done.
Qed.
End results.

Section read_witnesses.
Import Demo.

Lemma demo_query_ok skip limit : window_ok skip limit -> query_ok 10 w d skip limit.
Proof.
  intros H. split; [by split|]. split; [vm_compute; lia|]. split; [vm_compute; discriminate|done].
Qed.

Lemma demo_window skip limit : bool_decide (window_ok skip limit) = true -> query_ok 10 w d skip limit.
Proof. intros H%bool_decide_eq_true_1. by apply demo_query_ok. Qed.

Theorem getAll_page_witness :
  getAll 10 w "user_*" 1 (-1) []
  = (Ok true, flat_map value_entries [("user_2", q "{`n`:2,`name`:`bo`}"); ("user_3", "plain")]).
Proof.
  rewrite (getAll_page 10 w d "user_*" 1 (-1) []);
    [reflexivity|by apply demo_window|apply demo_castable].
Defined.

Theorem getKeys_page_witness :
  getKeys 10 w "user_*" 0 1 []
  = (Ok true, [WObj [("value", WObj [("n", WNum 1%Z); ("name", WStr "al")]);
                     ("key", WStr "user_1")]]).
Proof.
  rewrite (getKeys_page 10 w d "user_*" 0 1 []);
    [reflexivity|by apply demo_window|reflexivity|apply demo_castable].
Defined.

Theorem getKeysReversed_page_witness :
  getKeysReversed 10 w "user_*" 0 2 []
  = (Ok true, flat_map keyed_entries [("user_3", "plain"); ("user_2", q "{`n`:2,`name`:`bo`}")]) /\
  (getKeysReversed 10 w EmptyString 0 2 []).1 = Undef.
Proof.
  destruct (getKeysReversed_page 10 w d "user_*" 0 2 "user`" []) as [H1 H2];
    [by apply demo_window|reflexivity|apply demo_castable|reflexivity|done|reflexivity| |].
  - vm_compute; lia.
  - split; [exact H1|exact H2].
Defined.

Theorem getCount_page_witness : getCount 10 w "user_*" 0 (-1) 99%Z = (Ok true, 3%Z).
Proof.
  rewrite (getCount_page 10 w d "user_*" 0 (-1) 99%Z);
    [reflexivity|by apply demo_window|reflexivity].
Defined.

Theorem iter_page_witness :
  iterReversed 10 w 0 1 [] = (Ok true, flat_map keyed_entries [("zz", "7")]).
Proof.
  destruct (iter_page 10 w d 0 1 []) as [_ H]; [by apply demo_window|apply demo_castable|].
  exact H.
Defined.

Theorem queries_refused_witness :
  getKeys 10 (set_status false w) "user_*" 0 1 [] = (Ok false, []).
Proof.
  destruct (queries_refused 10 (set_status false w) "user_*" 0 1 [] "" 0%Z
    (fun _ => ret true) []) as (_ & _ & H & _); [reflexivity..|exact H].
Defined.
End read_witnesses.
