(* ===== verification/CoreWrite.v ===== *)
(** * Changing the store

    The operations of [Core] in [src/src/quarks.cpp] that write or remove
    entries ([insert], [put], [dump], [putAtom], [remove], [removeAll],
    [removeAtom], [makePair], [atom], [increment], [incrementValue]), with
    [get] and [exists], which may change the cache.  Their state is the state
    of the process with, in front of it, the reference parameter [out]. *)

From S2P Require Import Prelude SortedMap Wildcmp Json Store World Scan Cache CoreRead.
Open Scope quarks_scope.

Section core_write.
Context {plat : Platform} {R : RocksDB}.

(** [out = s] *)
Definition set_out (s : string) : SM (string * world) unit := set_local s.

(** ** Reading one key *)

Definition exists_ (key : string) : SM (string * world) bool :=
  let! (ret_, _, o) := outer (getKeyValuePair key) in
  do! set_out o; ret ret_.

(** [value] is what the reference parameter holds before. *)
Definition get (key value : string) : SM world (bool * string) :=
  let! w := get_st in
  if CacheEnabled (cfg w) then _GetCached key
  else if dbStatus_ok w then
    let! v := Get key in
    match v with
    | Some v => ret (true, v)
    | None => ret (false, value)
    end
  else ret (false, value).

(** ** Inserting *)

(** [w\[k\] = std::move(from\[k\])] for the keys of [from] *)
Definition move_members (from : wvalue) (w : wvalue) : wvalue :=
  foldl (fun w k => w_set k (w_get k from) w) w (w_keys from).

Definition result_text (result error : string) : string :=
  "{" +:+ q "`result`:" +:+ result +:+ error +:+ "}".

Definition err_exists : string := q ",`error`:`key already exists`".
Definition err_save : string := q ",`error`:`data failed to save`".
Definition err_status : string := q ",`error`:`db status error`".

(** The value written: the new members over the old ones when a value is
    replaced and the new one is an object with members. *)
Definition merged_value (readValue : option string) (putValue : wvalue) : outcome wvalue :=
  match readValue with
  | Some readValue =>
      let? existingValues := to_wvalue (load readValue) in
      match w_keys putValue with
      | [] => Ok putValue
      | _ => Ok (move_members putValue (move_members existingValues WNull))
      end
  | None => Ok putValue
  end.

Definition insertKeyValuePair (failIfExists : bool) (x : rvalue) : SM (string * world) bool :=
  let! key := lift (r_at_s x "key") in
  let! (foundKey, readValue, o) := outer (getKeyValuePair key) in
  do! set_out o;
  if failIfExists && foundKey then
    do! set_out (result_text "false" err_exists); ret false
  else
    let! putValue := lift (let? v := r_at x "value" in to_wvalue v) in
    let! w := lift (merged_value readValue putValue) in
    let writeValue := dump w in
    let! st := outer get_st in
    if dbStatus_ok st then
      let! ok := outer (Put key writeValue) in
      if ok : bool then
        do! outer (putRequest key writeValue);
        do! set_out (result_text "true" EmptyString); ret true
      else
        do! set_out (result_text "false" err_save); ret false
    else
      do! set_out (result_text "false" err_status); ret false.

Definition insert (failIfExists : bool) (body : string) : SM (string * world) bool :=
  match load body with
  | None => do! set_out (q "{`error`: `Invalid put body`}"); ret false
  | Some x => insertKeyValuePair failIfExists (Some x)
  end.

Definition post (body : string) : SM (string * world) bool := insert true body.
Definition put (body : string) : SM (string * world) bool := insert false body.

(** [Core::dump], and [put(key, value, out)] *)
Definition dump_ (key value : string) : SM (string * world) bool :=
  do! set_out result_false;
  let! st := outer get_st in
  if dbStatus_ok st then
    let! ok := outer (Put key value) in
    if ok : bool then
      do! set_out result_true;
      do! outer (putRequest key value); ret true
    else ret false
  else ret false.

Definition putPair (pair : rvalue) : SM (string * world) bool := insertKeyValuePair false pair.

(** [for(auto& v : x)] of [putAtom]: how many insertions succeed *)
Fixpoint put_loop (i : Z) (l : list rvalue) : SM (string * world) Z :=
  match l with
  | [] => ret i
  | v :: l =>
      let! r := insertKeyValuePair false v in
      put_loop (if r : bool then int32 (i + 1) else i) l
  end.

Definition count_text (name : string) (i : Z) : string :=
  "{" +:+ q "`" +:+ name +:+ q "`:" +:+ to_string i +:+ "," +:+ q "`result`:true}".

Definition putAtom (x : rvalue) : SM (string * world) bool :=
  do! set_out (result_text "false" EmptyString);
  try_runtime
    (let! elems := lift (r_elems x) in
     let! i := put_loop 0 elems in
     do! set_out (count_text "put" i); ret true)
    (fun _ =>
       do! set_out (q "{`result`:false, `error`:`invalid putatom body`}"); ret false).

Definition putAtom_body (body : string) : SM (string * world) bool :=
  match load body with
  | None => do! set_out (q "{`result`:false, `error`: `invalid put body`}"); ret false
  | Some x => putAtom (Some x)
  end.

(** ** Removing *)

(** Entry found by an iterator *)
Definition removeIterating (key : string) : SM (string * world) bool :=
  let! st := outer get_st in
  if dbStatus_ok st then
    match db st with
    | None => undef
    | Some d =>
        let it := it_Seek (NewIterator d) key in
        if it_Valid it && String.eqb key (it_key it) then
          let! ok := outer (Delete key) in
          if ok : bool then
            do! outer (removeRequest key);
            do! set_out (q "{`result`:1}"); ret true
          else do! set_out (q "{`result`:-1}"); ret false
        else do! set_out (q "{`result`:0}"); ret true
    end
  else do! set_out (q "{`result`:-1}"); ret false.

Definition remove (key : string) : SM (string * world) bool :=
  let! st := outer get_st in
  if dbStatus_ok st then
    let! v := outer (Get key) in
    match v with
    | Some _ =>
        let! ok := outer (Delete key) in
        if ok : bool then
          do! outer (removeRequest key);
          do! set_out (q "{`result`:1}"); ret true
        else do! set_out (q "{`result`:0}"); ret false
    | None => do! set_out (q "{`result`:0}"); ret false
    end
  else do! set_out (q "{`result`:-1}"); ret false.

(** What [removeAll] does with an entry of the page: the state is the count,
    the batch and the process. *)
Definition batch_remove (kv : string * string) : SM (Z * (WriteBatch * world)) unit :=
  do! outer (fun '(b, s) => (Ok tt, (batch_Delete b kv.1, s)));
  do! outer (outer (removeRequest kv.1));
  fun '(n, s) => (Ok tt, (int32 (n + 1), s)).

Definition removeAll (fuel : nat) (wild : string) (skip limit : Z) : SM world Z :=
  let! st := get_st in
  query st wild 0%Z (fun it =>
    local batch_new (
      let! out := returning 0%Z (local (-1)%Z
        (prefix_loop fuel it (wild_prefix wild)
           (tested_body skip limit (fun kv => wild_match wild kv.1) batch_remove))) in
      let! batch := (fun '(b, s) => (Ok b, (b, s))) in
      do! outer (let! d := the_db in modify (set_db (db_Write d batch).2));
      ret out)).

Fixpoint remove_loop (i : Z) (l : list rvalue) : SM (string * world) Z :=
  match l with
  | [] => ret i
  | v :: l =>
      let! key := lift (r_s v) in
      let! r := remove key in
      remove_loop (if r : bool then int32 (i + 1) else i) l
  end.

Definition removeAtom (x : rvalue) : SM (string * world) bool :=
  try_runtime
    (let! elems := lift (r_elems x) in
     let! i := remove_loop 0 elems in
     do! set_out (count_text "removed" i); ret true)
    (fun _ =>
       do! set_out (q "{`result`:false, `error`:`invalid removeatom body`}"); ret false).

Definition removeAtom_body (body : string) : SM (string * world) bool :=
  match load body with
  | None => do! set_out (q "{`result`:false, `error`: `invalid remove body`}"); ret false
  | Some x => removeAtom (Some x)
  end.

(** ** makePair: [out] is a [wvalue]; [uuid] is the random identifier drawn *)

Definition has_s (x : rvalue) (k default : string) : outcome string :=
  let? h := r_has x k in
  if h : bool then r_at_s x k else Ok default.

Definition makePair (uuid body : string) : SM (wvalue * world) bool :=
  match load body with
  | None => do! set_local (WStr (q "{`error`: `Invalid make body`}")); ret false
  | Some j =>
      let x := Some j in
      let! tmpkey := lift (has_s x "key" uuid) in
      let! hasPrefix := lift (r_has x "prefix") in
      let! key := lift (if hasPrefix : bool
                        then let? prefix := r_at_s x "prefix" in Ok (prefix +:+ tmpkey)
                        else Ok tmpkey) in
      let! writeValue := lift (has_s x "value" EmptyString) in
      do! (fun '(o, s) =>
             (Ok tt, (w_set "key" (WStr key) (w_set "value" (WStr writeValue) o), s)));
      let! hasSave := lift (r_has x "save") in
      let! save := lift (if hasSave : bool then let? v := r_at x "save" in r_b v
                         else Ok false) in
      if save : bool then
        let! st := outer get_st in
        let failed error : SM (wvalue * world) bool :=
          do! (fun '(o, s) => (Ok tt, (w_set "error" (WStr error) o, s))); ret false in
        if dbStatus_ok st then
          let! ok := outer (Put key writeValue) in
          if ok : bool then do! outer (putRequest key writeValue); ret true
          else failed "data failed to save"
        else failed "db status error"
      else ret true
  end.

(** ** atom: removals, then insertions *)

(** [ret &= op(crow::json::dump(x\[name\]), result)] *)
Definition atom_part (x : rvalue) (name : string)
    (op : string -> SM (string * world) bool) (result : string)
    : SM (string * world) (bool * string) := fun '(out, w) =>
  match (let? v := r_at x name in to_wvalue v) with
  | Ok v =>
      match op (dump v) (result, w) with
      | (Ok b, (result, w)) => (Ok (b, result), (out, w))
      | (Throw e, (_, w)) => (Throw e, (out, w))
      | (Undef, (_, w)) => (Undef, (out, w))
      | (Fuel, (_, w)) => (Fuel, (out, w))
      end
  | Throw e => (Throw e, (out, w))
  | Undef => (Undef, (out, w))
  | Fuel => (Fuel, (out, w))
  end.

Definition atom (fuel : nat) (body : string) : SM (string * world) bool :=
  match load body with
  | None => do! set_out (q "{`result`:false, `error`: `invalid atom body`}"); ret false
  | Some j =>
      let x := Some j in
      do! set_out (result_text "false" EmptyString);
      let! hasRemove := lift (r_has x "remove") in
      let! (ret1, removedResult) :=
        if hasRemove : bool then atom_part x "remove" removeAtom_body (count_text "removed" 0)
        else ret (true, count_text "removed" 0) in
      let! hasRemoveAll := lift (r_has x "removeall") in
      let! removedResult :=
        if hasRemoveAll : bool then
          let! wild := lift (r_at_s x "removeall") in
          let! removed := outer (removeAll fuel wild 0 (-1)) in
          ret ("{" +:+ q "`removed`:" +:+ to_string removed +:+ "}")
        else ret removedResult in
      let! (ret2, putResult) :=
        if ret1 : bool then
          let! hasPut := lift (r_has x "put") in
          if hasPut : bool then atom_part x "put" putAtom_body (count_text "put" 0)
          else ret (true, count_text "put" 0)
        else ret (false, count_text "put" 0) in
      if ret2 : bool then
        do! set_out ("{" +:+ q "`result`:true" +:+ q ",`affected`:[" +:+ removedResult +:+ ","
                     +:+ putResult +:+ "]}");
        ret true
      else ret false
  end.

(** ** Counting *)

Definition increment (key : string) (stepBy : Z) : SM (string * world) bool :=
  do! set_out result_false;
  let! (found, val) := outer (get key EmptyString) in
  if found : bool then
    do! match stoi val with
        | Ok value => do! dump_ key (to_string (int32 (value + stepBy))); ret tt
        | Throw InvalidArgument =>
            set_out (q "{`result`:false, `error:`Value to increment is not an integer`}")
        | Throw OutOfRange => set_out (q "{`result`:false, `error`:`Out of range`}")
        | Throw _ => set_out (q "{`result`:false, `error:`Unknown`}")
        | Undef => undef
        | Fuel => lift Fuel
        end;
    ret true
  else ret false.

(** The loop of [incrementValue] over the keys of the stored object *)
Fixpoint increment_loop (xvalue read : rvalue) (existingValues : wvalue) (keys : list string)
    (w : wvalue) (affected : Z) : outcome (wvalue * Z) :=
  match keys with
  | [] => Ok (w, affected)
  | e :: keys =>
      let? has := r_has xvalue e in
      if has : bool then
        let? evalue := r_at read e in
        let? v := r_i evalue in
        let value := int32 v in
        let? pvalue := r_at xvalue e in
        let? p := r_i pvalue in
        let value := int32 (value + p) in
        increment_loop xvalue read existingValues keys (w_set e (w_int value) w)
          (int32 (affected + 1))
      else
        increment_loop xvalue read existingValues keys
          (w_set e (w_get e existingValues) w) affected
  end.

Definition err_no_key : string := q ",`error`:`key does not exist`".

Definition incrementValue (body : string) : SM (string * world) bool :=
  match load body with
  | None => do! set_out (q "{`error`: `Invalid put body`}"); ret false
  | Some j =>
      let x := Some j in
      let! key := lift (r_at_s x "key") in
      let! (foundKey, readValue, o) := outer (getKeyValuePair key) in
      do! set_out o;
      match readValue with
      | None => do! set_out (result_text "false" err_no_key); ret false
      | Some readValue =>
          let! xvalue := lift (r_at x "value") in
          let! putValue := lift (to_wvalue xvalue) in
          let read := load readValue in
          let! existingValues := lift (to_wvalue read) in
          match w_keys putValue with
          | [] => ret true
          | _ =>
              let! (w, affected) := lift (increment_loop xvalue read existingValues
                                            (w_keys existingValues) WNull 0) in
              let! r := dump_ key (dump w) in
              do! (if r : bool then set_out ("{" +:+ q "`result`:" +:+ to_string affected +:+ "}")
                   else ret tt);
              ret true
          end
      end
  end.

(** ** Backup: [create] is [Checkpoint::Create] followed by [CreateCheckpoint] *)

Definition backup (create : option DB -> string -> bool) (path : string) : SM world bool :=
  let! w := get_st in
  ret (create (db w) (if String.eqb path EmptyString then "quarks_backup" else path)).

Definition restore (path : string) : SM world bool := ret true.
End core_write.

(** ** Effects *)

Section effects.
Context {plat : Platform} {R : RocksDB} {RL : RocksDBLaws}.

(** What leaves the process for a change: a message to the nodes, with the zero
    behind it, from a writer, and one request to the logger of a process that
    has one. *)
Definition message_sent (c : config) (value key action : string) : list event :=
  if writer c
  then [EvWrite (dump (WObj [("value", WStr value); ("key", WStr key); ("action", WStr action)])
                 +:+ String NUL EmptyString)]
  else [].
Definition put_published (c : config) (key value : string) : list event :=
  message_sent c value key "put" ++
  if hasLogger c
  then [EvHttpPost (c_str (c_str (loggerUrl c) +:+ "/putjson"))
          (q "{`key`:`" +:+ key +:+ q "`, `value`:" +:+ value +:+ "}")]
  else [].
Definition removal_published (c : config) (key : string) : list event :=
  message_sent c EmptyString key "remove" ++
  if hasLogger c then [EvHttpGet (c_str (loggerUrl c) +:+ "/remove?key=" +:+ key)] else [].

(** [w'] is [w] after [key] was stored with [value]: in the store, and in the
    cache when it is enabled; the change, and nothing else, was published. *)
Definition put_effect (d : DB) (key value : string) (w w' : world) : Prop :=
  exists d', opened w' d' /\ contents d' = sm_insert key value (contents d) /\
    cfg w' = cfg w /\
    CacheMap w' = (if CacheEnabled (cfg w) then sm_insert key value (CacheMap w) else CacheMap w) /\
    events w' = events w ++ put_published (cfg w) key value.

(** [w'] is [w] after a failed write: the same contents, nothing sent. *)
Definition no_effect (d : DB) (w w' : world) : Prop :=
  exists d', opened w' d' /\ contents d' = contents d /\ cfg w' = cfg w /\
    CacheMap w' = CacheMap w /\ events w' = events w.

Lemma putRequest_effect key value w : exists w', putRequest key value w = (Ok tt, w') /\
  db w' = db w /\ dbStatus_ok w' = dbStatus_ok w /\ cfg w' = cfg w /\
  CacheMap w' = (if CacheEnabled (cfg w) then sm_insert key value (CacheMap w) else CacheMap w) /\
  events w' = events w ++ put_published (cfg w) key value.
Proof.
  unfold putRequest, put_published, message_sent, bind, get_st, _PutCached, node_write, httpPost,
    modify, ret.
  destruct (CacheEnabled (cfg w)), (writer (cfg w)), (hasLogger (cfg w)); eexists;
    split_and!; try done; cbn; by rewrite <- ?app_assoc, ?app_nil_r.
Qed.

Lemma removeRequest_effect key w : exists w', removeRequest key w = (Ok tt, w') /\
  db w' = db w /\ dbStatus_ok w' = dbStatus_ok w /\ cfg w' = cfg w /\
  CacheMap w' = CacheMap w /\ events w' = events w ++ removal_published (cfg w) key.
Proof.
  unfold removeRequest, removal_published, message_sent, bind, get_st, node_write, httpGet,
    modify, ret.
  destruct (writer (cfg w)), (hasLogger (cfg w)); eexists; split_and!; try done; cbn;
    by rewrite <- ?app_assoc, ?app_nil_r.
Qed.

Lemma opened_set_db w d d' : opened w d -> opened (set_db d' w) d'.
Proof. by intros [_ ?]. Qed.

Lemma no_effect_put d key value w :
  opened w d -> (db_Put d key value).1 = false -> no_effect d w (set_db (db_Put d key value).2 w).
Proof.
  intros Ho Hp. exists (db_Put d key value).2. split_and!; try done.
  - by eapply opened_set_db.
  - apply (Put_fail_law d key value). rewrite <- Hp. by destruct (db_Put d key value).
Qed.

(** [Put] followed by [putRequest]. *)
Lemma put_and_publish d key value w :
  opened w d -> (db_Put d key value).1 = true ->
  exists w', putRequest key value (set_db (db_Put d key value).2 w) = (Ok tt, w') /\
             put_effect d key value w w'.
Proof.
  intros Ho Hp.
  destruct (putRequest_effect key value (set_db (db_Put d key value).2 w))
    as (w' & -> & Hdb & Hs & Hc & Hm & He).
  exists w'. split; [done|]. exists (db_Put d key value).2. split_and!; try done.
  - split; [done|]. rewrite Hs. apply Ho.
  - apply Put_law. rewrite <- Hp. by destruct (db_Put d key value).
Qed.

(** [dump], and [put] of a key and a value, store the value as it is;
    when the write fails the store keeps its contents, nothing is sent, and
    the answer says so. *)
Lemma dump_core (key value out : string) (w : world) (d : DB) :
  opened w d ->
  exists w', dump_ key value (out, w) =
    ((if (db_Put d key value).1 then Ok true else Ok false),
     ((if (db_Put d key value).1 then result_true else result_false), w')) /\
    if (db_Put d key value).1 then put_effect d key value w w' else no_effect d w w'.
Proof.
  intros Ho. unfold dump_, set_out, set_local, bind at 1. unfold bind at 1, outer at 1, get_st.
  rewrite (proj2 Ho). unfold bind at 1, outer at 1. rewrite (Put_opened w d) by done.
  destruct (db_Put d key value).1 eqn:Hp.
  - destruct (put_and_publish d key value w Ho Hp) as (w' & Hr & He). exists w'.
    unfold bind, outer. cbn. rewrite Hr. by split.
  - eexists. split; [done|]. by apply no_effect_put.
Qed.

Lemma get_stored d key value v0 w w' : put_effect d key value w w' ->
  get key v0 w' = (Ok (true, value), w').
Proof.
  intros (d' & Ho' & Hd' & Hc & Hm & _). unfold get, bind, get_st, _GetCached. rewrite Hc.
  destruct (CacheEnabled (cfg w)); [by rewrite Hm, sm_lookup_insert_eq|].
  rewrite (proj2 Ho'). rewrite (Get_opened w' d') by done.
  by rewrite Hd', sm_lookup_insert_eq.
Qed.

(** C4: what was stored is read back, with the cache and without it; the read
    leaves the process as it was.  A key that is in neither is reported
    missing without the cache, but found, with an empty value that is then
    kept, with the cache. *)
Theorem get_after_put (key value out v0 : string) (w : world) (d : DB) :
  opened w d -> (db_Put d key value).1 = true ->
  (exists w', dump_ key value (out, w) = (Ok true, (result_true, w')) /\
              get key v0 w' = (Ok (true, value), w')) /\
  (CacheEnabled (cfg w) = false -> sm_lookup key (contents d) = None ->
   get key v0 w = (Ok (false, v0), w)) /\
  (CacheEnabled (cfg w) = true -> sm_lookup key (CacheMap w) = None ->
   exists w', get key v0 w = (Ok (true, EmptyString), w') /\
              sm_lookup key (CacheMap w') = Some EmptyString).
Proof.
  intros Ho Hp. split_and!.
  - destruct (put_and_publish d key value w Ho Hp) as (w' & Hr & He).
    exists w'. split.
    + unfold dump_, set_out, set_local, bind, outer, get_st. rewrite (proj2 Ho).
      rewrite (Put_opened w d), Hp by done. cbn. by rewrite Hr.
    + by apply (get_stored d key value v0 w).
  - intros Hc Hk. unfold get, bind, get_st. rewrite Hc, (proj2 Ho).
    rewrite (Get_opened w d) by done. by rewrite Hk.
  - intros Hc Hk. unfold get, bind, get_st, _GetCached. rewrite Hc, Hk. eexists. split; [done|].
    apply sm_lookup_insert_eq.
Qed.

Lemma getKeyValuePair_opened key w d : opened w d ->
  getKeyValuePair key w = (Ok (match sm_lookup key (contents d) with
                               | Some v => (true, Some v, result_true)
                               | None => (false, None, result_false)
                               end), w).
Proof.
  intros Ho. unfold getKeyValuePair, bind, get_st. rewrite (proj2 Ho).
  rewrite (Get_opened w d) by done. by destruct (sm_lookup key (contents d)).
Qed.

Lemma fwd_Seek_elem d key kv :
  kv ∈ fwd (it_Seek (NewIterator d) key) <-> kv ∈ contents d /\ sltb kv.1 key = false.
Proof.
  rewrite fwd_Seek, sm_above by apply contents_wf. rewrite list_elem_of_filter.
  destruct (sltb kv.1 key); simpl; split; by intros [].
Qed.

Lemma sltb_irrefl key : sltb key key = false.
Proof. destruct (sltb key key) eqn:E; [|done]. by apply slt_irrefl in E. Qed.

(** [Seek] ends on the key exactly when it is there. *)
Lemma seek_found d key :
  it_Valid (it_Seek (NewIterator d) key) && String.eqb key (it_key (it_Seek (NewIterator d) key))
  = bool_decide (is_Some (sm_lookup key (contents d))).
Proof.
  assert (forall v, sm_lookup key (contents d) = Some v ->
            (key, v) ∈ fwd (it_Seek (NewIterator d) key)) as Hin.
  { intros v Hv%sm_lookup_In; [|apply contents_wf]. apply fwd_Seek_elem.
    split; [done|]. apply sltb_irrefl. }
  destruct (fwd_cases (it_Seek (NewIterator d) key)) as [[-> Hf]|[-> Hf]].
  { symmetry. apply bool_decide_eq_false. intros [v Hv%Hin]. rewrite Hf in Hv.
    by apply not_elem_of_nil in Hv. }
  pose proof (fwd_Seek d key) as Hs. rewrite sm_above in Hs by apply contents_wf.
  set (it := it_Seek (NewIterator d) key) in *.
  assert ((it_key it, it_value it) ∈ fwd it) as [Hc Hge]%fwd_Seek_elem by by rewrite Hf; left.
  simpl. destruct (String.eqb_spec key (it_key it)) as [E|Hne]; symmetry.
  - apply bool_decide_eq_true. eexists. rewrite E. apply sm_lookup_In; [apply contents_wf|done].
  - apply bool_decide_eq_false. intros [v Hv%Hin].
    assert (sm_wf (fwd it)) as Hwf by (rewrite Hs; apply sm_filter_wf, contents_wf).
    rewrite Hf in Hwf, Hv. apply elem_of_cons in Hv as [[= E _]|Hv]; [done|].
    apply sm_wf_cons in Hwf as [_ Hab]. eapply Forall_forall in Hab; [|exact Hv].
    simpl in Hab, Hge. unfold slt in Hab. congruence.
Qed.

(** *** Merging *)

Lemma w_keys_spec o k : k ∈ w_keys (WObj o) <-> is_Some (assoc k o).
Proof.
  simpl. rewrite <- (assoc_reorder k o).
  destruct (assoc k (reorder o)) eqn:E.
  - split; [by eexists|]. intros _. apply assoc_In in E.
    by apply (list_elem_of_fmap_2 fst) in E.
  - split; [|by intros []]. intros H. by apply assoc_None in E.
Qed.

Lemma move_members_get o w k : (exists o', w = WObj o') \/ w = WNull ->
  w_get k (move_members (WObj o) w) = if decide (k ∈ w_keys (WObj o)) then w_get k (WObj o)
                                      else w_get k w.
Proof.
  unfold move_members. generalize (w_keys (WObj o)) as keys. intros keys. revert w.
  induction keys as [|k' keys IH]; intros w Hw; [done|]. cbn [foldl].
  rewrite IH by by left; destruct w; eexists.
  rewrite w_get_set.
  destruct (decide (k ∈ keys)) as [Hk|Hk].
  - by rewrite decide_True by by right.
  - destruct (decide (k = k')) as [->|Hne]; [by rewrite decide_True by by left|].
    rewrite decide_False by by intros [|]%elem_of_cons.
    destruct Hw as [[o' ->]| ->]; done.
Qed.

Lemma move_members_shape f : (exists o', move_members f WNull = WObj o') \/
                             move_members f WNull = WNull.
Proof.
  unfold move_members. destruct (w_keys f) as [|k0 keys]; [by right|]. left. cbn [foldl].
  assert (forall w, (exists o, w = WObj o) -> exists o', foldl (fun w k => w_set k (w_get k f) w) w keys
            = WObj o') as H; [|apply H; by eexists].
  induction keys as [|k keys IH]; intros w Hw; [done|]. cbn [foldl]. apply IH.
  destruct Hw as [o ->]. by eexists.
Qed.

(** C5: a value put on a stored object is merged into it: the members of the
    new value win, the other members of the stored one are kept.  A new value
    without members, or a new key, is stored as it is. *)
Theorem put_merges (stored : option string) (pv mv : wvalue) (k : string) :
  merged_value stored pv = Ok mv ->
  match stored with
  | Some s =>
      match to_wvalue (load s), w_keys pv with
      | Ok (WObj ev), _ :: _ =>
          w_get k mv = if decide (k ∈ w_keys pv) then w_get k pv else w_get k (WObj ev)
      | Ok _, [] => mv = pv
      | Ok _, _ :: _ => w_get k mv = if decide (k ∈ w_keys pv) then w_get k pv else WNull
      | _, _ => False
      end
  | None => mv = pv
  end.
Proof.
  unfold merged_value. destruct stored as [s|]; [|by intros [= ->]].
  destruct (to_wvalue (load s)) as [ev|e| |]; try done. cbn [obind].
  destruct (w_keys pv) as [|k0 keys] eqn:Ek; [by destruct ev; intros [= ->]|].
  destruct pv as [| | | | | |o]; try done.
  intros [= <-]. rewrite <- Ek.
  destruct ev as [| | | | | |eo]; rewrite move_members_get by apply move_members_shape;
    try done.
  destruct (decide (k ∈ w_keys (WObj o))); [done|]. rewrite move_members_get by by right.
  case_decide as Hd; [done|]. simpl. destruct (assoc k eo) eqn:E; [|done].
  destruct Hd. by apply w_keys_spec.
Qed.

Lemma merged_value_outcome stored pv :
  is_ok (merged_value stored pv) = true \/ exists e, merged_value stored pv = Throw e.
Proof.
  unfold merged_value. destruct stored as [s|]; [|by left].
  destruct (to_wvalue_outcome (load s)) as [[ev ->]|[->|[_ ->]]]; [|by right; eexists..].
  left. cbn [obind]. by destruct (w_keys pv).
Qed.

(** [insertKeyValuePair] on a pair whose key and value can be read: with
    [failIfExists] an existing key is refused and nothing changes; otherwise
    the printed merge of the new value and the stored one is written, and
    [out] tells whether the write succeeded.  When the stored value cannot be
    read as JSON an exception ends the call, and nothing changes either. *)
Lemma insert_core (failIfExists : bool) (x : rvalue) (key out : string) (pv : wvalue)
    (w : world) (d : DB) :
  opened w d -> r_at_s x "key" = Ok key ->
  (let? v := r_at x "value" in to_wvalue v) = Ok pv ->
  let stored := sm_lookup key (contents d) in
  let r := insertKeyValuePair failIfExists x (out, w) in
  if failIfExists && bool_decide (is_Some stored) then
    r = (Ok false, (q "{`result`:false,`error`:`key already exists`}", w))
  else
    match merged_value stored pv with
    | Ok mv =>
        if (db_Put d key (dump mv)).1 then
          exists w', r = (Ok true, (result_true, w')) /\ put_effect d key (dump mv) w w'
        else
          exists w', r = (Ok false, (q "{`result`:false,`error`:`data failed to save`}", w')) /\
                     no_effect d w w'
    | Throw e => exists out', r = (Throw e, (out', w))
    | _ => False
    end.
Proof.
  intros Ho Hk Hv stored r.
  pose proof (merged_value_outcome stored pv) as Hmv.
  subst r. unfold insertKeyValuePair, set_out, set_local, bind, lift, outer. rewrite Hk.
  rewrite (getKeyValuePair_opened key w d) by done. fold stored.
  assert (bool_decide (is_Some stored) = match stored with Some _ => true | None => false end)
    as -> by by destruct stored.
  destruct stored as [s|] eqn:Es; fold stored; rewrite ?andb_true_r, ?andb_false_r.
  1: destruct failIfExists; [done|].
  all: rewrite Hv; destruct (merged_value _ pv) as [mv|e| |];
    [|by eexists|by destruct Hmv as [|[]]|by destruct Hmv as [|[]]].
  all: unfold get_st; rewrite (proj2 Ho), (Put_opened w d) by done.
  all: destruct (db_Put d key (dump mv)).1 eqn:Hp;
    [|eexists; split; [done|by apply no_effect_put]].
  all: destruct (put_and_publish d key (dump mv) w Ho Hp) as (w' & Hr & He); exists w';
    rewrite Hr; by split.
Qed.

Lemma remove_core (key out : string) (w : world) (d : DB) :
  opened w d ->
  match sm_lookup key (contents d) with
  | None => remove key (out, w) = (Ok false, (q "{`result`:0}", w)) /\
            removeIterating key (out, w) = (Ok true, (q "{`result`:0}", w))
  | Some _ =>
      exists w' d', opened w' d' /\ cfg w' = cfg w /\ CacheMap w' = CacheMap w /\
        if (db_Delete d key).1 then
          remove key (out, w) = (Ok true, (q "{`result`:1}", w')) /\
          removeIterating key (out, w) = (Ok true, (q "{`result`:1}", w')) /\
          contents d' = sm_delete key (contents d) /\
          events w' = events w ++ removal_published (cfg w) key
        else
          remove key (out, w) = (Ok false, (q "{`result`:0}", w')) /\
          removeIterating key (out, w) = (Ok false, (q "{`result`:-1}", w')) /\
          contents d' = contents d /\ events w' = events w
  end.
Proof.
  intros Ho. unfold remove, removeIterating, bind, outer, get_st, set_out, set_local.
  rewrite (proj2 Ho), (proj1 Ho), (Get_opened w d) by done.
  assert (it_Valid (it_Seek (NewIterator d) key) &&
          String.eqb key (it_key (it_Seek (NewIterator d) key))
          = bool_decide (is_Some (sm_lookup key (contents d)))) as ->.
  { apply seek_found. }
  destruct (sm_lookup key (contents d)) as [v|]; [|done].
  rewrite bool_decide_true, (Delete_opened w d) by (done || by eexists).
  destruct (db_Delete d key) as [ok d'] eqn:Hd. simpl. destruct ok.
  - destruct (removeRequest_effect key (set_db d' w)) as (w' & Hr & Hdb & Hs & Hc & Hm & He).
    exists w', d'. rewrite Hr. split_and!; try done.
    + split; [done|]. rewrite Hs. apply Ho.
    + by apply Delete_law.
  - exists (set_db d' w), d'. split_and!; try done; [by eapply opened_set_db|].
    by eapply Delete_fail_law.
Qed.

(** C6: [remove] deletes an existing key, and publishes the removal: one message
    to the nodes from a writer, one request to the logger where there is one,
    and nothing else.  A missing key, a failed deletion and a closed database
    leave the contents as they were, publish nothing and are answered each in
    its way.  [removeIterating] does the same with other answers.  The cache
    keeps the removed entry. *)
Theorem remove_effect (key out : string) (w : world) :
  (dbStatus_ok w = false ->
   remove key (out, w) = (Ok false, (q "{`result`:-1}", w)) /\
   removeIterating key (out, w) = (Ok false, (q "{`result`:-1}", w))) /\
  forall d, opened w d ->
  match sm_lookup key (contents d) with
  | None => remove key (out, w) = (Ok false, (q "{`result`:0}", w)) /\
            removeIterating key (out, w) = (Ok true, (q "{`result`:0}", w))
  | Some _ =>
      exists w' d', opened w' d' /\ cfg w' = cfg w /\ CacheMap w' = CacheMap w /\
        if (db_Delete d key).1 then
          remove key (out, w) = (Ok true, (q "{`result`:1}", w')) /\
          removeIterating key (out, w) = (Ok true, (q "{`result`:1}", w')) /\
          contents d' = sm_delete key (contents d) /\
          events w' = events w ++ removal_published (cfg w) key
        else
          remove key (out, w) = (Ok false, (q "{`result`:0}", w')) /\
          removeIterating key (out, w) = (Ok false, (q "{`result`:-1}", w')) /\
          contents d' = contents d /\ events w' = events w
  end.
Proof.
  split; [|intros d; apply remove_core]. intros Hs.
  unfold remove, removeIterating, bind, outer, get_st, set_out, set_local. by rewrite Hs.
Qed.

(** *** removeAll *)

Lemma delete_all_lookup keys (m : smap string) k : sm_wf m ->
  sm_lookup k (foldl (fun m k => sm_delete k m) m keys)
  = if decide (k ∈ keys) then None else sm_lookup k m.
Proof.
  revert m. induction keys as [|k' keys IH]; intros m Hm; [done|]. cbn [foldl].
  rewrite IH by by apply sm_delete_wf. rewrite sm_lookup_delete by done.
  destruct (decide (k ∈ keys)) as [Hk|Hk]; [by rewrite decide_True by by right|].
  destruct (decide (k' = k)) as [->|Hne]; [by rewrite decide_True by by left|].
  rewrite decide_False; [done|]. by intros [|]%elem_of_cons.
Qed.

Lemma batch_remove_all l n b w :
  (0 <= n)%Z -> (n + Z.of_nat (length l) <= INT_MAX)%Z ->
  exists b' w', for_all batch_remove l (n, (b, w))
    = (Ok tt, ((n + Z.of_nat (length l))%Z, (b', w'))) /\
    batch_keys b' = batch_keys b ++ l.*1 /\
    db w' = db w /\ dbStatus_ok w' = dbStatus_ok w /\ cfg w' = cfg w /\ CacheMap w' = CacheMap w.
Proof.
  revert n b w. induction l as [|kv l IH]; intros n b w Hn Hl; cbn [length] in *.
  { exists b, w. cbn. rewrite Z.add_0_r, app_nil_r. by split_and!. }
  destruct (removeRequest_effect kv.1 w) as (w1 & Hr & Hd & Hs & Hc & Hm & _).
  destruct (IH (n + 1)%Z (batch_Delete b kv.1) w1) as (b' & w' & Hall & Hk & Hd' & Hs' & Hc' & Hm');
    [lia..|].
  exists b', w'. split_and!; try congruence.
  - assert (batch_remove kv (n, (b, w)) = (Ok tt, ((n + 1)%Z, (batch_Delete b kv.1, w1)))) as E.
    { unfold batch_remove, bind, outer. rewrite Hr.
      by rewrite int32_id by (unfold in_int32, INT_MIN, INT_MAX in *; lia). }
    cbn [for_all]. unfold bind. rewrite E, Hall. replace (n + 1 + Z.of_nat (length l))%Z with (n + Z.of_nat (S (length l)))%Z by lia. done.
  - rewrite Hk, batch_Delete_law, <- app_assoc. done.
Qed.

(** [removeAll] removes exactly the keys of the page of the hits, in one
    batch, and returns their number; when the batch fails the contents are
    the same and the number returned is too. *)
Theorem removeAll_effect (fuel : nat) (wild : string) (skip limit : Z) (w : world) (d : DB) :
  query_ok fuel w d skip limit -> leading_star wild = false ->
  let P := page skip limit (hits wild (contents d)) in
  exists w' d' b,
    removeAll fuel wild skip limit w = (Ok (Z.of_nat (length P)), w') /\
    opened w' d' /\ cfg w' = cfg w /\ CacheMap w' = CacheMap w /\ batch_keys b = P.*1 /\
    (forall k, sm_lookup k (contents d') =
       if (db_Write d b).1 && bool_decide (k ∈ P.*1) then None else sm_lookup k (contents d)).
Proof.
  intros Hok Hls P. pose proof Hok as ([Hd Hs] & _ & Hl & _).
  assert (Z.of_nat (length P) <= INT_MAX)%Z as HlP.
  { etrans; [|apply (filterb_fits fuel w d skip limit Hok (hit wild))].
    apply inj_le, page_length_le. }
  destruct (batch_remove_all P 0 batch_new w) as (b & w1 & Hall & Hk & Hd1 & Hs1 & Hc1 & Hm1);
    [lia..|].
  rewrite batch_new_law in Hk. simpl in Hk.
  exists (set_db (db_Write d b).2 w1), (db_Write d b).2, b. split_and!; try done.
  - unfold removeAll, bind at 1, get_st. rewrite (query_opened fuel w d skip limit Hok), Hls.
    unfold local at 1, bind at 1, returning.
    rewrite (prefix_loop_page _ _ d _ _ Hok _ batch_remove) by done.
    fold P. rewrite Hall. unfold bind, outer, the_db, modify. cbn. rewrite Hd1, Hd.
    by rewrite Z.add_0_l.
  - split; [done|]. cbn. congruence.
  - intros k. destruct (db_Write d b) as [[] d'] eqn:Hw; simpl.
    + rewrite (Write_law d b d' Hw), Hk, delete_all_lookup by apply contents_wf.
      by repeat case_decide || case_bool_decide.
    + by rewrite (Write_fail_law d b d' Hw).
Qed.

(** *** Counting *)

Lemma get_uncached key v0 w d : opened w d -> CacheEnabled (cfg w) = false ->
  get key v0 w = (Ok (match sm_lookup key (contents d) with
                      | Some v => (true, v)
                      | None => (false, v0)
                      end), w).
Proof.
  intros Ho Hc. unfold get, bind, get_st. rewrite Hc, (proj2 Ho), (Get_opened w d) by done.
  by destruct (sm_lookup key (contents d)).
Qed.

(** What [increment] has done in [w] with a key under which [read] was found *)
Definition not_an_integer : string :=
  q "{`result`:false, `error:`Value to increment is not an integer`}".
Definition incremented (key : string) (stepBy : Z) (read : option string) (d : DB) (w : world)
    (r : outcome bool * (string * world)) : Prop :=
  match read with
  | None => r = (Ok false, (result_false, w))
  | Some s =>
      match stoi s with
      | Ok v =>
          let s' := to_string (int32 (v + stepBy)) in
          exists w', r = (Ok true, ((if (db_Put d key s').1 then result_true else result_false), w'))
            /\ if (db_Put d key s').1 then put_effect d key s' w w' else no_effect d w w'
      | Throw InvalidArgument => r = (Ok true, (not_an_integer, w))
      | Throw OutOfRange => r = (Ok true, (q "{`result`:false, `error`:`Out of range`}", w))
      | _ => False
      end
  end.

Lemma increment_found (key out : string) (stepBy : Z) (s : string) (w : world) (d : DB) :
  opened w d -> get key EmptyString w = (Ok (true, s), w) ->
  incremented key stepBy (Some s) d w (increment key stepBy (out, w)).
Proof.
  intros Ho Hg. unfold incremented, increment, set_out, set_local, bind, outer. rewrite Hg.
  destruct (stoi_outcome s) as [(v & -> & _)|[->| ->]]; [|done..].
  destruct (dump_core key (to_string (int32 (v + stepBy))) result_false w d Ho) as (w' & Hd & He).
  exists w'. split; [|done]. unfold ret. rewrite Hd. by destruct (db_Put d key _).1.
Qed.

Lemma increment_core (key out : string) (stepBy : Z) (w : world) (d : DB) :
  opened w d -> CacheEnabled (cfg w) = false ->
  incremented key stepBy (sm_lookup key (contents d)) d w (increment key stepBy (out, w)).
Proof.
  intros Ho Hc. pose proof (get_uncached key EmptyString w d Ho Hc) as Hg.
  destruct (sm_lookup key (contents d)) as [s|]; [by apply increment_found|].
  unfold increment, set_out, set_local, bind, outer. by rewrite Hg.
Qed.

(** C30: [increment] on an open database replaces an integer by its sum with the
    step, at the width of an [int]; text that is not an integer, or too large,
    is reported and left alone.  A failed write is still answered with true.
    Without the cache the integer is the one in the store, and a missing key is
    refused.  With the cache it is the one in the cache, whatever the store
    has, and a missing key is not refused: it is entered in the cache with an
    empty text, which is reported as not an integer. *)
Theorem increment_effect (key out : string) (stepBy : Z) (w : world) (d : DB) :
  opened w d ->
  let r := increment key stepBy (out, w) in
  if CacheEnabled (cfg w) then
    match sm_lookup key (CacheMap w) with
    | Some s => incremented key stepBy (Some s) d w r
    | None => r = (Ok true, (not_an_integer, set_cache (sm_insert key EmptyString (CacheMap w)) w))
    end
  else incremented key stepBy (sm_lookup key (contents d)) d w r.
Proof.
  intros Ho r. subst r. destruct (CacheEnabled (cfg w)) eqn:Hc; [|by apply increment_core].
  destruct (sm_lookup key (CacheMap w)) as [s|] eqn:Hm.
  - apply increment_found; [done|]. unfold get, bind, get_st, _GetCached. by rewrite Hc, Hm.
  - unfold increment, set_out, set_local, outer, get, get_st, _GetCached, bind. by rewrite Hc, Hm.
Qed.

(** Increments add up: after two of them, both written, the key holds
    the integer with both steps added, at the width of an [int]. *)
Theorem increment_twice (key out : string) (a b v : Z) (s : string) (w : world) (d : DB) :
  opened w d -> CacheEnabled (cfg w) = false ->
  (forall d k v, (db_Put d k v).1 = true) ->
  sm_lookup key (contents d) = Some s -> stoi s = Ok v ->
  exists w1 w2 d2,
    increment key a (out, w) = (Ok true, (result_true, w1)) /\
    increment key b (out, w1) = (Ok true, (result_true, w2)) /\
    opened w2 d2 /\
    sm_lookup key (contents d2) = Some (to_string (int32 (v + a + b))).
Proof.
  intros Ho Hc Hp Hk Hv.
  assert (forall w d s v step, opened w d -> CacheEnabled (cfg w) = false ->
            sm_lookup key (contents d) = Some s -> stoi s = Ok v ->
            exists w', increment key step (out, w) = (Ok true, (result_true, w')) /\
                       put_effect d key (to_string (int32 (v + step))) w w') as Hstep.
  { clear -RL Hp. intros w d s v step Ho Hc Hk Hv.
    pose proof (increment_core key out step w d Ho Hc) as H. unfold incremented in H. rewrite Hk, Hv in H.
    destruct H as (w' & Hr & He). rewrite Hp in Hr, He. eauto. }
  destruct (Hstep w d s v a Ho Hc Hk Hv) as (w1 & Hr1 & d1 & Ho1 & Hd1 & Hc1 & _).
  destruct (Hstep w1 d1 (to_string (int32 (v + a))) (int32 (v + a)) b) as
    (w2 & Hr2 & d2 & Ho2 & Hd2 & _); [done|by rewrite Hc1| | |].
  - rewrite Hd1. apply sm_lookup_insert_eq.
  - apply stoi_to_string, int32_range.
  - exists w1, w2, d2. split_and!; try done. rewrite Hd2, sm_lookup_insert_eq.
    do 2 f_equal. apply int32_add.
Qed.

(** *** putAtom *)

(** The contents after the pairs are put one after the other, up to the first
    one whose stored value cannot be merged. *)
Fixpoint put_pairs (l : list (string * wvalue)) (m : smap string) : outcome unit * smap string :=
  match l with
  | [] => (Ok tt, m)
  | (k, pv) :: l =>
      match merged_value (sm_lookup k m) pv with
      | Ok mv => put_pairs l (sm_insert k (dump mv) m)
      | Throw e => (Throw e, m)
      | Undef => (Undef, m)
      | Fuel => (Fuel, m)
      end
  end.

(** [x] is the pair of a key and a value. *)
Definition reads_pair (x : rvalue) (p : string * wvalue) : Prop :=
  r_at_s x "key" = Ok p.1 /\ (let? v := r_at x "value" in to_wvalue v) = Ok p.2.

Lemma put_loop_pairs l ps i out w d :
  (forall d k v, (db_Put d k v).1 = true) -> opened w d ->
  Forall2 reads_pair l ps ->
  (0 <= i)%Z -> (i + Z.of_nat (length l) <= INT_MAX)%Z ->
  exists out' w' d', opened w' d' /\ contents d' = (put_pairs ps (contents d)).2 /\
    put_loop i l (out, w) =
      (match (put_pairs ps (contents d)).1 with
       | Ok _ => Ok (i + Z.of_nat (length l))%Z
       | Throw e => Throw e
       | Undef => Undef
       | Fuel => Fuel
       end, (out', w')).
Proof.
  intros Hp Ho Hl. revert i out w d Ho. induction Hl as [|x [k pv] l ps [Hk Hv] _ IH];
    intros i out w d Ho Hi Hlen; cbn [put_loop put_pairs length] in *.
  { exists out, w, d. by rewrite Z.add_0_r. }
  simpl in Hk, Hv. pose proof (insert_core false x k out pv w d Ho Hk Hv) as H. cbn [andb] in H.
  pose proof (merged_value_outcome (sm_lookup k (contents d)) pv) as Hmv. unfold bind.
  destruct (merged_value (sm_lookup k (contents d)) pv) as [mv|e| |]; try by destruct Hmv as [|[]].
  - rewrite Hp in H. destruct H as (w1 & -> & d1 & Ho1 & Hd1 & _).
    rewrite int32_id by (unfold in_int32, INT_MIN, INT_MAX in *; lia).
    destruct (IH (i + 1)%Z result_true w1 d1 Ho1) as (out' & w' & d' & Ho' & Hd' & Hr);
      [lia..|].
    exists out', w', d'. rewrite Hd1 in Hd', Hr. rewrite Hr. split_and!; try done.
    destruct (put_pairs ps _) as [[]]; try done. do 2 f_equal. lia.
  - destruct H as (out' & ->). by exists out', w, d.
Qed.

Lemma put_pairs_outcome ps m :
  is_ok (put_pairs ps m).1 = true \/ exists e, (put_pairs ps m).1 = Throw e.
Proof.
  revert m. induction ps as [|[k pv] ps IH]; intros m; [by left|]. cbn [put_pairs].
  destruct (merged_value_outcome (sm_lookup k m) pv) as [H|[e ->]]; [|by right; eexists].
  by destruct (merged_value (sm_lookup k m) pv).
Qed.

(** [putAtom] puts the pairs of its argument one after the other, in
    order, each merged into what is stored, and answers with their number.  It
    is not atomic: when one of them cannot be merged the ones before it stay. *)
Theorem putAtom_pairs (x : rvalue) (l : list rvalue) (ps : list (string * wvalue))
    (out : string) (w : world) (d : DB) :
  (forall d k v, (db_Put d k v).1 = true) -> opened w d ->
  r_elems x = Ok l -> Forall2 reads_pair l ps -> (Z.of_nat (length l) <= INT_MAX)%Z ->
  exists w' d', opened w' d' /\ contents d' = (put_pairs ps (contents d)).2 /\
    match (put_pairs ps (contents d)).1 with
    | Ok _ => putAtom x (out, w) = (Ok true, (count_text "put" (Z.of_nat (length l)), w'))
    | Throw (RuntimeError _) =>
        putAtom x (out, w) = (Ok false, (q "{`result`:false, `error`:`invalid putatom body`}", w'))
    | Throw e => exists out', putAtom x (out, w) = (Throw e, (out', w'))
    | _ => False
    end.
Proof.
  intros Hp Ho Hx Hl Hlen.
  destruct (put_loop_pairs l ps 0 (result_text "false" EmptyString) w d Hp Ho Hl) as
    (out' & w' & d' & Ho' & Hd' & Hr); [lia..|].
  exists w', d'. split_and!; [done..|]. rewrite Z.add_0_l in Hr.
  unfold putAtom, bind, set_out, set_local, try_runtime, lift. rewrite Hx, Hr.
  pose proof (put_pairs_outcome ps (contents d)) as Hps.
  destruct (put_pairs ps (contents d)) as [[|[]| |] m']; simpl; try done;
    try (by eexists); by destruct Hps as [|[]].
Qed.

(** A removed entry is still read from the cache. *)
Lemma removed_still_cached key v out v0 w d : opened w d -> CacheEnabled (cfg w) = true ->
  sm_lookup key (contents d) = Some v -> sm_lookup key (CacheMap w) = Some v ->
  (db_Delete d key).1 = true ->
  exists w', remove key (out, w) = (Ok true, (q "{`result`:1}", w')) /\
             get key v0 w' = (Ok (true, v), w').
Proof.
  intros Ho Hc Hk Hm Hd. pose proof (remove_core key out w d Ho) as H. rewrite Hk in H.
  destruct H as (w' & d' & _ & Hcfg & Hcm & H). rewrite Hd in H. destruct H as (Hr & _).
  exists w'. split; [done|]. unfold get, bind, get_st, _GetCached. by rewrite Hcfg, Hc, Hcm, Hm.
Qed.
End effects.

Section write_witnesses.
Import Demo.

Lemma demo_opened : opened w d.
Proof. by split. Qed.

Theorem dump_core_witness :
  exists w', dump_ "k" "v" ("", w) = (Ok true, (result_true, w')) /\ put_effect d "k" "v" w w'.
Proof. exact (dump_core "k" "v" "" w d demo_opened). Defined.

Theorem get_after_put_witness :
  exists w', dump_ "k" "v" ("", w) = (Ok true, (result_true, w')) /\
             get "k" "?" w' = (Ok (true, "v"), w').
Proof. exact (proj1 (get_after_put "k" "v" "" "?" w d demo_opened eq_refl)). Defined.

Theorem put_merges_witness :
  w_get "n" (move_members (WObj [("n", WNum 5%Z)])
               (move_members (WObj [("n", WNum 1%Z); ("name", WStr "al")]) WNull)) = WNum 5%Z /\
  exists mv, merged_value (Some (q "{`n`:1,`name`:`al`}")) (WObj [("n", WNum 5%Z)]) = Ok mv /\
             w_get "name" mv = WStr "al".
Proof.
  split; [reflexivity|]. eexists. split; [reflexivity|].
  exact (put_merges (Some (q "{`n`:1,`name`:`al`}")) (WObj [("n", WNum 5%Z)]) _ "name" eq_refl).
Defined.

Theorem insert_core_witness :
  let x := load (q "{`key`:`user_1`,`value`:{`n`:9}}") in
  insertKeyValuePair true x ("", w)
  = (Ok false, (q "{`result`:false,`error`:`key already exists`}", w)) /\
  exists w', insertKeyValuePair false x ("", w) = (Ok true, (result_true, w')) /\
             put_effect d "user_1" (q "{`n`:9,`name`:`al`}") w w'.
Proof.
  split.
  - exact (insert_core true (load (q "{`key`:`user_1`,`value`:{`n`:9}}")) "user_1" ""
             (WObj [("n", WNum 9%Z)]) w d demo_opened eq_refl eq_refl).
  - exact (insert_core false (load (q "{`key`:`user_1`,`value`:{`n`:9}}")) "user_1" ""
             (WObj [("n", WNum 9%Z)]) w d demo_opened eq_refl eq_refl).
Defined.

Theorem remove_effect_witness :
  (exists w' d', opened w' d' /\ cfg w' = cfg w /\ CacheMap w' = CacheMap w /\
    remove "user_1" ("", w) = (Ok true, (q "{`result`:1}", w')) /\
    removeIterating "user_1" ("", w) = (Ok true, (q "{`result`:1}", w')) /\
    contents d' = sm_delete "user_1" (contents d) /\
    events w' = [EvWrite (q "{`value`:``,`key`:`user_1`,`action`:`remove`}" +:+ String NUL EmptyString);
                 EvHttpGet "/remove?key=user_1"]) /\
  remove "user_1" ("", set_status false w) = (Ok false, (q "{`result`:-1}", set_status false w)).
Proof.
  split; [exact (proj2 (remove_effect "user_1" "" w) d demo_opened)|].
  by apply (remove_effect "user_1" "" (set_status false w)).
Defined.

Theorem removeAll_effect_witness :
  exists w' d', removeAll 10 "user_*" 1 1 w = (Ok 1%Z, w') /\ opened w' d' /\
    sm_lookup "user_2" (contents d') = None /\
    sm_lookup "user_3" (contents d') = Some "plain".
Proof.
  destruct (removeAll_effect 10 "user_*" 1 1 w d) as (w' & d' & b & Hr & Ho & _ & _ & _ & Hl);
    [by apply demo_window|reflexivity|].
  exists w', d'. split; [exact Hr|]. split; [exact Ho|]. by rewrite !Hl.
Defined.

Lemma cached_opened : opened cached d.
Proof. by split. Qed.

Theorem increment_effect_witness :
  (exists w', increment "count" 1 ("", w) = (Ok true, (result_true, w')) /\
              put_effect d "count" "42" w w') /\
  (exists w', increment "count" 1 ("", cached) = (Ok true, (result_true, w')) /\
              put_effect d "count" "42" cached w') /\
  increment "none" 1 ("", w) = (Ok false, (result_false, w)) /\
  increment "none" 1 ("", cached)
  = (Ok true, (not_an_integer, set_cache (sm_insert "none" "" (contents d)) cached)).
Proof.
  split_and!.
  - exact (increment_effect "count" "" 1 w d demo_opened).
  - exact (increment_effect "count" "" 1 cached d cached_opened).
  - exact (increment_effect "none" "" 1 w d demo_opened).
  - exact (increment_effect "none" "" 1 cached d cached_opened).
Defined.

Theorem increment_twice_witness :
  exists w1 w2 d2,
    increment "count" 2147483600 ("", w) = (Ok true, (result_true, w1)) /\
    increment "count" 48 ("", w1) = (Ok true, (result_true, w2)) /\
    opened w2 d2 /\ sm_lookup "count" (contents d2) = Some "-2147483607".
Proof.
  exact (increment_twice "count" "" 2147483600 48 41 "41" w d demo_opened eq_refl
           (fun _ _ _ => eq_refl) eq_refl eq_refl).
Defined.

Theorem putAtom_pairs_witness :
  let pair k v := JObj [("key", JStr k); ("value", JStr v)] in
  exists w' d', opened w' d' /\ sm_lookup "a" (contents d') = Some (q "`1`") /\
    putAtom (Some (JList [pair "a" "1"; pair "user_3" "2"; pair "b" "3"])) ("", w)
    = (Ok false, (q "{`result`:false, `error`:`invalid putatom body`}", w')).
Proof.
  intros pair.
  destruct (putAtom_pairs (Some (JList [pair "a" "1"; pair "user_3" "2"; pair "b" "3"]))
    (Some <$> [pair "a" "1"; pair "user_3" "2"; pair "b" "3"])
    [("a", WStr "1"); ("user_3", WStr "2"); ("b", WStr "3")] "" w d) as (w' & d' & Ho & Hc & Hr).
  - done.
  - apply demo_opened.
  - done.
  - repeat constructor.
  - vm_compute. discriminate.
  - exists w', d'. split; [exact Ho|]. split; [by rewrite Hc|exact Hr].
Defined.
End write_witnesses.
