(* ===== verification/CoreLists.v ===== *)
(** * Queries from lists of keys

    [getJson], the two [getList], [getItems], [getAfter], [getKeysAfter],
    [getLast], [getKeysLast], [getJoinedMapWildcardOnly], [getJoinedMap] and
    [searchJson] (the branch without the V8 plugin) of [src/src/quarks.cpp].
    The ones that go through [getJson] or [get] may change the cache: the
    process is part of their state. *)

From S2P Require Import Prelude SortedMap Wildcmp Json Store World Scan Cache CoreRead CoreWrite.
Open Scope quarks_scope.

Section core_lists.
Context {plat : Platform} {R : RocksDB} (fuel : nat).

(** ** getJson: the state is [out] and the process *)

Definition getJson (key : string) : SM (wvalue * world) bool :=
  let! w := outer get_st in
  if CacheEnabled (cfg w) then
    let! (ret_, value) := outer (_GetCached key) in
    let! v := lift (to_wvalue (load value)) in
    do! set_local v; ret ret_
  else if dbStatus_ok w then
    let! value := outer (Get key) in
    match value with
    | Some value =>
        let! v := lift (to_wvalue (load value)) in
        do! set_local v; ret true
    | None => ret false
    end
  else ret false.

(** ** getList *)

(** Locals of the loop: [i], [out], [w]. *)
Definition list_locals : Type := Z * (wvalue * wvalue).

Definition list_turn (skip limit : Z) (key : rvalue)
    : SM (list_locals * (list wvalue * world)) unit := fun '((i, (out, w)), (rs, wd)) =>
  match r_s key with
  | Ok s =>
      match getJson s (out, wd) with
      | (Ok valid, (out, wd)) =>
          let '(out, w) := if valid : bool
                           then (moved out, w_set "key" (WStr s) (w_set "value" out w))
                           else (out, w) in
          let i := int32 (i + 1) in
          if in_window skip limit i && valid
          then (Ok tt, ((i, (out, moved w)), (rs ++ [w], wd)))
          else (Ok tt, ((i, (out, w)), (rs, wd)))
      | (Throw e, (out, wd)) => (Throw e, ((i, (out, w)), (rs, wd)))
      | (Undef, (out, wd)) => (Undef, ((i, (out, w)), (rs, wd)))
      | (Fuel, (out, wd)) => (Fuel, ((i, (out, w)), (rs, wd)))
      end
  | Throw e => (Throw e, ((i, (out, w)), (rs, wd)))
  | Undef => (Undef, ((i, (out, w)), (rs, wd)))
  | Fuel => (Fuel, ((i, (out, w)), (rs, wd)))
  end.

Definition getList (args : rvalue) (skip limit : Z) : SM (list wvalue * world) bool :=
  let! w := outer get_st in
  if dbStatus_ok w then
    try_runtime
      (let! keys := lift (r_elems args) in
       do! local ((-1)%Z, (WNull, WNull)) (for_all (list_turn skip limit) keys);
       ret true)
      (fun _ => ret false)
  else ret true.

(** The overload that writes text; the state of its loop is [i], [matched],
    [out] and the process. *)
Definition list_out_turn (skip limit : Z) (key : rvalue)
    : SM (Z * (Z * (string * world))) unit := fun '(i, (matched, (out, wd))) =>
  match r_s key with
  | Ok s =>
      match get s EmptyString wd with
      | (Ok (valid, value), wd) =>
          let i := int32 (i + 1) in
          if in_window skip limit i && valid
          then (Ok tt, (i, (int32 (matched + 1), (out +:+ entry_text (s, value), wd))))
          else (Ok tt, (i, (matched, (out, wd))))
      | (Throw e, wd) => (Throw e, (i, (matched, (out, wd))))
      | (Undef, wd) => (Undef, (i, (matched, (out, wd))))
      | (Fuel, wd) => (Fuel, (i, (matched, (out, wd))))
      end
  | Throw e => (Throw e, (i, (matched, (out, wd))))
  | Undef => (Undef, (i, (matched, (out, wd))))
  | Fuel => (Fuel, (i, (matched, (out, wd))))
  end.

(** A computation on [out] alone *)
Definition on_out {A} (m : SM string A) : SM (string * world) A := fun '(out, wd) =>
  let '(o, out') := m out in (o, (out', wd)).

Definition getList_out (args : rvalue) (skip limit : Z) : SM (string * world) bool :=
  let! w := outer get_st in
  if dbStatus_ok w then
    do! set_local out_open;
    local 0%Z (
      let! ret_ := try_runtime
        (let! keys := lift (r_elems args) in
         do! local (-1)%Z (for_all (list_out_turn skip limit) keys); ret true)
        (fun _ => ret false) in
      let! matched := (fun '(n, s) => (Ok n, (n, s))) in
      do! outer (on_out (close_out matched));
      if ret_ : bool then ret true
      else
        do! outer (on_out (fun out =>
          match set_last "," out with
          | Some out => (Ok tt, out +:+ q "`error`:`runtime error`}")
          | None => (Undef, out)
          end));
        ret false)
  else ret true.

(** ** getItems: the state is [i], the result of the call and [jsonResult] *)

Definition items_turn (w : world) (skip limit : Z) (key : rvalue)
    : SM (Z * (bool * wvalue)) unit := fun '(i, (r, jsonResult)) =>
  match r_s key with
  | Ok s =>
      let i := int32 (i + 1) in
      if in_window skip limit i && dbStatus_ok w then
        match db w with
        | None => (Undef, (i, (r, jsonResult)))
        | Some d =>
            match db_Get d s with
            | Some value =>
                match to_wvalue (load value) with
                | Ok v => (Ok tt, (i, (r, w_set s v jsonResult)))
                | Throw e => (Throw e, (i, (r, jsonResult)))
                | Undef => (Undef, (i, (r, jsonResult)))
                | Fuel => (Fuel, (i, (r, jsonResult)))
                end
            | None => (Ok tt, (i, (false, jsonResult)))
            end
        end
      else (Ok tt, (i, (r, jsonResult)))
  | Throw e => (Throw e, (i, (r, jsonResult)))
  | Undef => (Undef, (i, (r, jsonResult)))
  | Fuel => (Fuel, (i, (r, jsonResult)))
  end.

Definition getItems (w : world) (args : rvalue) (skip limit : Z) : SM wvalue bool :=
  if dbStatus_ok w then
    returning true
      (try_runtime
        (let! keys := lift (r_elems args) in
         local (-1)%Z (for_all (items_turn w skip limit) keys))
        (fun _ => set_local false))
  else ret true.

(** ** getAfter: the entries behind a key *)

(** [it->Seek(startKey); if(it->Valid()) it->Next();] *)
Definition seek_after (it : Iter) (key : string) : Iter :=
  let it := it_Seek it key in if it_Valid it then it_Next it else it.

Definition getAfter (w : world) (key prefix : string) (skip limit : Z)
    : SM (list wvalue) bool :=
  if dbStatus_ok w then
    match db w with
    | None => undef
    | Some d =>
        let! r := returning true (local (-1)%Z
          (for_loop fuel (fun it => it_Valid it && starts_with prefix (it_key it)) it_Next
             (fun it => iter_turn skip limit (it_key it, it_value it))
             (seek_after (NewIterator d) key))) in
        ret (r && dbStatus_ok w)
    end
  else ret false.

(** The loops of [getKeysAfter] and [getKeysLast] over pairs of a prefix and a
    key: the locals are [prefix], [lastPrefix], [out] and [w]. *)
Section pairs.
Context (query_one : string -> string -> SM (list wvalue) bool) (name : string).

Fixpoint pairs_loop (prefix : bool) (lastPrefix : string) (out : list wvalue) (w : wvalue)
    (args : list rvalue) : SM (list wvalue) unit :=
  match args with
  | [] => ret tt
  | elem :: args =>
      let prefix := negb prefix in
      let! p := lift (r_s elem) in
      if prefix then pairs_loop prefix p out w args
      else
        match query_one p lastPrefix out with
        | (Ok true, out) =>
            let w := w_set "key" (WStr p) (w_set name (WList out) w) in
            do! push_back [w]; pairs_loop prefix lastPrefix [] (moved w) args
        | (Ok false, out) => pairs_loop prefix lastPrefix out w args
        | (Throw e, _) => throw e
        | (Undef, _) => undef
        | (Fuel, _) => lift Fuel
        end
  end.

Definition pairs_query (w : world) (args : rvalue) : SM (list wvalue) bool :=
  if dbStatus_ok w then
    try_runtime
      (let! l := lift (r_elems args) in
       do! pairs_loop false EmptyString [] WNull l; ret true)
      (fun _ => ret false)
  else ret true.
End pairs.

Definition getKeysAfter (w : world) (args : rvalue) (skip limit : Z)
    : SM (list wvalue) bool :=
  pairs_query (fun p prefix => getAfter w p prefix skip limit) "after" w args.

(** ** getLast *)

(** The loop that counts the entries: the iterator and the count at its end. *)
Fixpoint count_loop (fuel : nat) (prefix : string) (it : Iter) (count : Z)
    : outcome (Iter * Z) :=
  match fuel with
  | O => Fuel
  | S fuel =>
      if it_Valid it && starts_with prefix (it_key it)
      then count_loop fuel prefix (it_Next it) (int32 (count + 1))
      else Ok (it, count)
  end.

(** The last entry, with its index.  After an exception the error is pushed,
    and what [std::move] left of [w] again with index and key. *)
Definition last_entry (kv : string * string) (index : Z) : outcome (bool * list wvalue) :=
  match load_value kv.2 with
  | Ok v => Ok (true, [w_set "key" (WStr kv.1) (w_set "index" (w_int index)
                         (w_set "value" v WNull))])
  | Throw (RuntimeError _) =>
      let w := w_set "error" (WStr kv.2) WNull in
      Ok (false, [w; w_set "key" (WStr kv.1) (w_set "index" (w_int index) (moved w))])
  | Throw e => Throw e
  | Undef => Undef
  | Fuel => Fuel
  end.

Definition getLast (w : world) (key prefix : string) : SM (list wvalue) bool :=
  if dbStatus_ok w then
    match db w with
    | None => undef
    | Some d =>
        let! (it, count) := lift (count_loop fuel prefix (seek_after (NewIterator d) key) 0) in
        let! r := returning true
          (if (0 <? count)%Z then
             let it := it_Prev it in
             if it_Valid it then
               emit_entries (fun kv => last_entry kv (int32 (count - 1))) (it_key it, it_value it)
             else ret tt
           else ret tt) in
        ret (r && dbStatus_ok w)
    end
  else ret false.

Definition getKeysLast (w : world) (args : rvalue) : SM (list wvalue) bool :=
  pairs_query (fun p prefix => getLast w p prefix) "last" w args.

(** ** getJoinedMap *)

(** [w\[joinedKey\] = load(value)] when the key is there *)
Definition join_one (w : world) (joinedKey : string) : SM wvalue unit :=
  if dbStatus_ok w then
    match db w with
    | None => undef
    | Some d =>
        match db_Get d joinedKey with
        | Some value =>
            let! v := lift (to_wvalue (load value)) in modify (w_set joinedKey v)
        | None => ret tt
        end
    end
  else ret tt.

(** [splitby\[0\]]: the NUL of an empty string *)
Definition select_key (hasSplitBy : bool) (splitby : string) (selindex : Z)
    (matchedKey : string) : option string :=
  let tokens := if hasSplitBy then tokenize matchedKey (peek splitby) else [] in
  if (0 <=? selindex)%Z then tokens !! Z.to_nat selindex else None.

(** [for(auto& v : join)]: each turn catches its own exceptions. *)
Fixpoint join_loop (w : world) (sFinalKeys : list string) (join : list rvalue)
    : SM (bool * wvalue) unit :=
  match join with
  | [] => ret tt
  | v :: join =>
      do! try_runtime
        (let! prefx := lift (r_at_s v "prefix") in
         let! suffx := lift (r_at_s v "suffix") in
         for_all (fun finalKey => outer (join_one w (prefx +:+ finalKey +:+ suffx))) sFinalKeys)
        (fun _ => set_local false);
      join_loop w sFinalKeys join
  end.

Definition opt_s (args : rvalue) (k : string) : outcome (option string) :=
  let? h := r_has args k in
  if h : bool then let? s := r_at_s args k in Ok (Some s) else Ok None.

(** The keys of [keylist], up to the first element that is no string. *)
Fixpoint keylist_loop (select : string -> string) (l : list rvalue)
    : SM (list string) unit :=
  match l with
  | [] => ret tt
  | kl :: l =>
      let! matchedKey := lift (r_s kl) in
      do! push_back [select matchedKey];
      keylist_loop select l
  end.

Definition join_keys (w : world) (select : string -> string) (wild : string)
    (skip limit : Z) : SM (list string) bool :=
  match db w with
  | None => undef
  | Some d =>
      let! it := local (-1)%Z (prefix_loop_it fuel (NewIterator d) (wild_prefix wild)
            (tested_body skip limit (fun kv => wild_match wild kv.1)
               (fun kv => push_back [select kv.1]))) in
      ret (true && it_status_ok it)
  end.

Definition getJoinedMap (w : world) (args : rvalue) (skip limit : Z)
    : SM (list wvalue) bool :=
  if dbStatus_ok w then
    let! wild := lift (let? o := opt_s args "keys" in Ok (default EmptyString o)) in
    let! hasKeyList := lift (r_has args "keylist") in
    let! splitby := lift (opt_s args "splitby") in
    let! hasSelIndex := lift (r_has args "selindex") in
    let! selindex := lift (if hasSelIndex : bool
                           then let? v := r_at args "selindex" in let? i := r_i v in Ok (int32 i)
                           else Ok (-1)%Z) in
    let! join := lift (r_at args "join") in
    let hasKeys := negb (leading_star wild) in
    if negb hasKeys && negb hasKeyList then ret false
    else
      let select matchedKey :=
        default matchedKey (select_key (bool_decide (is_Some splitby))
                              (default EmptyString splitby) selindex matchedKey) in
      let '(o, sFinalKeys) :=
        (let! r1 := (if hasKeys then join_keys w select wild skip limit else ret true) in
         let! r2 := (if hasKeyList : bool then
                       try_runtime
                         (let! klist := lift (let? v := r_at args "keylist" in r_copy v) in
                          let! l := lift (r_elems klist) in
                          do! keylist_loop select l; ret true)
                         (fun _ => ret false)
                     else ret true) in
         ret (r1 && r2)) [] in
      let! r := lift o in
      let! l := lift (r_elems join) in
      let '(o, (r, joined)) := join_loop w sFinalKeys l (r, WNull) in
      do! lift o;
      do! push_back [WList (WStr <$> sFinalKeys); joined];
      ret r
  else ret false.

(** *** The older variant: joins while it scans *)

(** The prefixes and suffixes read before the scan.  The handler of an exception
    logs [it->value()] of an iterator that was not positioned yet. *)
Fixpoint affixes (l : list rvalue) : outcome (list string * list string) :=
  match l with
  | [] => Ok ([], [])
  | v :: l =>
      match (let? p := r_at_s v "prefix" in let? s := r_at_s v "suffix" in Ok (p, s)) with
      | Ok (p, s) => let? (ps, ss) := affixes l in Ok (p :: ps, s :: ss)
      | Throw (RuntimeError _) => Undef
      | Throw e => Throw e
      | Undef => Undef
      | Fuel => Fuel
      end
  end.

(** [for(int i = 0; i < joinSize; i++)]: reading past the end of the vectors is
    out of their bounds. *)
Fixpoint affix_joins (w : world) (finalKey : string) (prefixes suffixes : list string)
    (joinSize : nat) : SM wvalue unit :=
  match joinSize with
  | O => ret tt
  | S n =>
      match prefixes, suffixes with
      | p :: prefixes, s :: suffixes =>
          do! join_one w (p +:+ finalKey +:+ s); affix_joins w finalKey prefixes suffixes n
      | _, _ => undef
      end
  end.

Definition getJoinedMapWildcardOnly (w : world) (args : rvalue) (skip limit : Z)
    : SM (list wvalue) bool :=
  if dbStatus_ok w then
    let! wild := lift (r_at_s args "keys") in
    let! splitby := lift (r_at_s args "splitby") in
    let! selindex := lift (let? v := r_at args "selindex" in r_i v) in
    let! join := lift (r_at args "join") in
    if leading_star wild then ret false
    else
      match db w with
      | None => undef
      | Some d =>
          let! joinSize := lift (r_size join) in
          let! l := lift (r_elems join) in
          let! (prefixes, suffixes) := lift (affixes l) in
          (* the state of the scan: the keys and the joined map *)
          let '(o, (finalKeys, joined)) :=
            local (-1)%Z (prefix_loop_it fuel (NewIterator d) (wild_prefix wild)
              (tested_body skip limit (fun kv => wild_match wild kv.1)
                 (fun kv =>
                    (* [(size_t) selindex]: a negative index is huge *)
                    match select_key true splitby selindex kv.1 with
                    | Some finalKey =>
                        do! outer (affix_joins w finalKey prefixes suffixes (Z.to_nat joinSize));
                        fun '(ks, s) => (Ok tt, (ks ++ [finalKey], s))
                    | None => ret tt
                    end))) ([], WNull) in
          let! it := lift o in
          do! push_back [WList (WStr <$> finalKeys); joined];
          ret (true && it_status_ok it)
      end
  else ret false.

(** ** searchJson *)

(** The parts of [args] it uses: [mapField], [mapAs]; [sortby] and [des] are read
    and then not used. *)
Definition search_args (args : rvalue) : outcome (string * string) :=
  let? h := r_has args "include" in
  if h : bool then
    let? inc := r_at args "include" in
    let? wInclude := to_wvalue inc in
    let filter := load (dump wInclude) in
    let? hasMap := r_has filter "map" in
    let? (mapField, mapAs) :=
      if hasMap : bool then
        let? map := r_at filter "map" in
        let? f := r_at_s map "field" in
        let? map := r_at filter "map" in
        let? a := r_at_s map "as" in Ok (f, a)
      else Ok (EmptyString, "_includeid") in
    let? hasSort := r_has filter "sortby" in
    let? sortby := if hasSort : bool then r_at_s filter "sortby" else Ok EmptyString in
    let? hasDes := r_has filter "des" in
    let? des := if hasDes : bool then let? v := r_at filter "des" in r_b v else Ok false in
    Ok (mapField, mapAs)
  else Ok (EmptyString, "_includeid").

(** One entry: the locals are [w], the state the results and the process. *)
Definition search_emit (mapField mapAs : string) (kv : string * string)
    : SM (list wvalue * world) unit := fun s =>
  let '(o, (w, (rs, wd))) :=
    try_runtime
      (let! v := lift (load_value kv.2) in
       do! set_local (w_set "key" (WStr kv.1) (w_set "value" v WNull));
       match mapField with
       | EmptyString => ret tt
       | _ =>
           let! mapKey := lift (r_at_s (load kv.2) (c_str mapField)) in
           fun '(w, (rs, wd)) =>
             match getJson mapKey (WNull, wd) with
             | (Ok true, (mapJson, wd)) =>
                 (Ok tt, (w_set "value" (w_set mapAs mapJson (w_get "value" w)) w, (rs, wd)))
             | (Ok false, (_, wd)) => (Ok tt, (w, (rs, wd)))
             | (Throw e, (_, wd)) => (Throw e, (w, (rs, wd)))
             | (Undef, (_, wd)) => (Undef, (w, (rs, wd)))
             | (Fuel, (_, wd)) => (Fuel, (w, (rs, wd)))
             end
       end)
      (fun _ '(w, (rs, wd)) =>
         let w := w_set "error" (WStr kv.2) w in
         (Ok tt, (moved w, (rs ++ [w], wd))))
      (WNull, s) in
  match o with
  | Ok _ => (Ok tt, (rs ++ [w], wd))
  | Throw e => (Throw e, (rs, wd))
  | Undef => (Undef, (rs, wd))
  | Fuel => (Fuel, (rs, wd))
  end.

Definition searchJson (args : rvalue) (skip limit : Z) : SM (list wvalue * world) bool :=
  let! wd := outer get_st in
  if dbStatus_ok wd then
    do! lift (to_wvalue args);
    let! wild := lift (r_at_s args "keys") in
    let! (mapField, mapAs) := lift (search_args args) in
    query wd wild false (fun it =>
      do! local (-1)%Z (prefix_loop fuel it (wild_prefix wild)
            (tested_body skip limit (fun kv => wild_match wild kv.1)
               (search_emit mapField mapAs)));
      ret true)
  else ret false.
End core_lists.

(** ** Entries behind a key *)

(** What [getAfter] walks through: the entries from the key on but the first,
    as long as they have the prefix. *)
Definition entries_after (key prefix : string) (m : smap string) : list (string * string) :=
  take_while (fun kv => starts_with prefix kv.1)
    (tail (filterb (fun kv => negb (sltb kv.1 key)) m)).

Lemma entries_after_present key prefix v (m : smap string) :
  sm_wf m -> sm_lookup key m = Some v -> starts_with prefix key = true ->
  entries_after key prefix m
  = filterb (fun kv => starts_with prefix kv.1 && sltb key kv.1) m.
Proof.
  unfold entries_after. induction m as [|[k x] m IH]; intros Hm Hk Hp; [done|].
  apply sm_wf_cons in Hm as [Hm Hab]. rewrite !filter_cons. simpl in *.
  destruct (decide (key = k)) as [<-|Hne].
  - rewrite sltb_irrefl. simpl. rewrite Hp. simpl.
    rewrite filter_every.
    2: { eapply Forall_impl; [exact Hab|]. intros kv Hkv. simpl.
         destruct (sltb kv.1 key) eqn:E; [|done]. destruct (slt_asym _ _ Hkv E). }
    clear IH Hk. revert Hm Hab. induction m as [|[k y] m IH]; [done|]. intros Hm Hab.
    apply sm_wf_cons in Hm as [Hm Hab']. apply Forall_cons in Hab as [Hk Hab].
    rewrite filter_cons. simpl in *. unfold slt in Hk. rewrite Hk, andb_true_r.
    destruct (starts_with prefix k) eqn:Ek.
    + rewrite decide_True by done. by rewrite IH.
    + rewrite decide_False by done. symmetry. apply filter_none.
      eapply Forall_impl; [exact Hab'|]. intros kv Hkv. simpl.
      destruct (starts_with prefix kv.1) eqn:E; [|done]. exfalso.
      rewrite (starts_with_convex prefix k kv.1) in Ek; try done.
      destruct (sltb k prefix) eqn:Es; [|done].
      pose proof (starts_with_not_slt _ _ Hp) as H.
      assert (slt key prefix) as H' by by apply (slt_trans _ k). unfold slt in H'. congruence.
  - assert (slt k key) as Hlt.
    { apply sm_lookup_In in Hk; [|done]. by eapply Forall_forall in Hab; [|exact Hk]. }
    assert (sltb key k = false) as ->.
    { destruct (sltb key k) eqn:E; [|done]. destruct (slt_asym _ _ E Hlt). }
    unfold slt in Hlt. rewrite Hlt, andb_false_r. cbn [negb].
    rewrite !decide_False by done. by apply IH.
Qed.

Lemma tail_length_le {A} (l : list A) : length (tail l) <= length l.
Proof. destruct l; simpl; lia. Qed.

Lemma elem_of_tail {A} (x : A) l : x ∈ tail l -> x ∈ l.
Proof. destruct l; [done|]. by right. Qed.

Section after.
Context {plat : Platform} {R : RocksDB} {RL : RocksDBLaws}.

Lemma seek_after_fwd d key :
  fwd (seek_after (NewIterator d) key)
  = tail (filterb (fun kv => negb (sltb kv.1 key)) (contents d)).
Proof.
  unfold seek_after. pose proof (fwd_Seek d key) as H.
  rewrite sm_above in H by apply contents_wf.
  destruct (fwd_cases (it_Seek (NewIterator d) key)) as [[-> E]|[-> E]]; rewrite <- H, E; done.
Qed.

Lemma seek_after_length d key :
  length (fwd (seek_after (NewIterator d) key)) <= length (contents d).
Proof.
  rewrite seek_after_fwd. etrans; [apply tail_length_le|].
  apply (filterb_length (fun kv => negb (sltb kv.1 key))).
Qed.

(** [getAfter] answers with a page of the entries behind the key: for a
    stored key that has the prefix, of all entries with the prefix above it;
    in general of the entries from the key on but the first, so that for a
    key that is not stored the entry next to it is left out. *)
Theorem getAfter_page (fuel : nat) (w : world) (d : DB) (key prefix : string)
    (skip limit : Z) (rs : list wvalue) :
  query_ok fuel w d skip limit -> Forall castable (contents d) ->
  let P := page skip limit (entries_after key prefix (contents d)) in
  getAfter fuel w key prefix skip limit rs = (Ok (forallb loads P), rs ++ flat_map keyed_entries P)
  /\ (is_Some (sm_lookup key (contents d)) -> starts_with prefix key = true ->
      entries_after key prefix (contents d)
      = filterb (fun kv => starts_with prefix kv.1 && sltb key kv.1) (contents d)).
Proof.
  intros Hok Hc P. split; [|intros [v Hv] Hpre; apply (entries_after_present key prefix v); [apply contents_wf|done..]].
  pose proof Hok as ([Hd Hs] & Hf & Hl & Hw). unfold getAfter. rewrite Hd, Hs. unfold bind.
  assert (incl : forall kv, kv ∈ entries_after key prefix (contents d) -> kv ∈ contents d).
  { intros kv Hkv. unfold entries_after in Hkv.
    assert (kv ∈ tail (filterb (fun kv : string * string => negb (sltb kv.1 key)) (contents d))) as H.
    { rewrite <- (take_drop_while (fun kv => starts_with prefix kv.1)). apply elem_of_app. by left. }
    by apply elem_of_tail, list_elem_of_filter in H as [_ ?]. }
  rewrite (returning_ext _ _ (for_all (emit_entries keyed_entry) P)).
  - unfold returning. rewrite emit_keyed.
    + unfold ret. by rewrite andb_true_r.
    + apply Forall_forall. intros kv Hkv%page_incl%incl. by eapply Forall_forall in Hc.
  - intros s. pose proof (seek_after_length d key) as Hlen. unfold local.
    rewrite (for_loop_fwd fuel (starts_with prefix) (iter_turn skip limit)) by lia.
    rewrite seek_after_fwd. unfold P.
    rewrite <- (filter_every (fun _ => true) (entries_after key prefix (contents d)))
      by by apply Forall_true.
    rewrite <- (paged_loop_page skip limit (fun _ => true)); [done|done|].
    assert (length (entries_after key prefix (contents d))
            <= length (fwd (seek_after (NewIterator d) key))) as H.
    { rewrite seek_after_fwd. unfold entries_after.
      rewrite <- (take_drop_while (fun kv => starts_with prefix kv.1) (tail _)) at 2.
      rewrite length_app. lia. }
    lia.
Qed.
End after.

(** ** Lists of keys *)

Section lists.
Context {plat : Platform} {R : RocksDB} {RL : RocksDBLaws}.

(** Every stored value is JSON text without odd numbers. *)
Definition readable (m : smap string) : Prop :=
  Forall (fun kv => is_ok (to_wvalue (load kv.2)) = true) m.

(** A stored value as JSON. *)
Definition stored_value (v : string) : wvalue :=
  match to_wvalue (load v) with Ok w => w | _ => WNull end.

Lemma readable_lookup m k v : sm_wf m -> readable m -> sm_lookup k m = Some v ->
  to_wvalue (load v) = Ok (stored_value v).
Proof.
  intros Hm Hr Hk. apply sm_lookup_In in Hk; [|done].
  eapply Forall_forall in Hr; [|exact Hk]. unfold stored_value. simpl in Hr.
  by destruct (to_wvalue (load v)).
Qed.

(** The result for one key of the list. *)
Definition listed (m : smap string) (s : string) : list wvalue :=
  match sm_lookup s m with
  | Some v => [WObj [("value", stored_value v); ("key", WStr s)]]
  | None => []
  end.

(** What the local [w] of [getList] may be between turns. *)
Definition list_w (w : wvalue) : Prop :=
  w = WNull \/ w = WObj [] \/ exists a b, w = WObj [("value", a); ("key", b)].

Lemma list_w_set w v s : list_w w ->
  w_set "key" (WStr s) (w_set "value" v w) = WObj [("value", v); ("key", WStr s)].
Proof. by intros [->|[->|(a & b & ->)]]. Qed.

Lemma getJson_opened key out w d : opened w d -> CacheEnabled (cfg w) = false ->
  readable (contents d) ->
  getJson key (out, w) =
  match sm_lookup key (contents d) with
  | Some v => (Ok true, (stored_value v, w))
  | None => (Ok false, (out, w))
  end.
Proof.
  intros Ho Hc Hr. unfold getJson, bind, outer, get_st. rewrite Hc, (proj2 Ho).
  rewrite (Get_opened w d) by done. destruct (sm_lookup key (contents d)) as [v|] eqn:E; [|done].
  unfold lift. by rewrite (readable_lookup _ _ _ (contents_wf d) Hr E).
Qed.

Lemma list_loop skip limit elems keys i out w rs wd d :
  window_ok skip limit -> opened wd d -> CacheEnabled (cfg wd) = false -> readable (contents d) ->
  Forall2 (fun r s => r_s r = Ok s) elems keys -> list_w w ->
  (-1 <= i)%Z -> (i + Z.of_nat (length keys) <= INT_MAX)%Z ->
  exists l', for_all (list_turn skip limit) elems ((i, (out, w)), (rs, wd))
    = (Ok tt, (l', (rs ++ flat_map (listed (contents d)) (windowed skip limit (i + 1) keys), wd))).
Proof.
  intros Hw Ho Hc Hr Hk. revert i out w rs.
  induction Hk as [|r s elems keys Hs _ IH]; intros i out w rs Hlw Hi Hl; cbn [length] in *.
  { eexists. by rewrite app_nil_r. }
  cbn [for_all]. unfold bind, list_turn at 1. rewrite Hs, (getJson_opened s out wd d) by done.
  rewrite int32_id by (unfold in_int32, INT_MIN, INT_MAX in *; lia). cbn [windowed].
  assert (forall out w, list_w w -> exists l', for_all (list_turn skip limit) elems
    (((i + 1)%Z, (out, w)), (rs, wd)) = (Ok tt, (l', (rs ++ flat_map (listed (contents d))
       (windowed skip limit (i + 1 + 1) keys), wd)))) as Hnext by (intros; apply IH; done || lia).
  destruct (sm_lookup s (contents d)) as [v|] eqn:Ev; [rewrite list_w_set by done|].
  - destruct (in_window skip limit (i + 1)); simpl.
    + destruct (IH (i + 1)%Z (moved (stored_value v)) (WObj [])
        (rs ++ [WObj [("value", stored_value v); ("key", WStr s)]])) as [l' Hall];
        [by right; left|lia..|].
      exists l'. rewrite Hall. unfold listed at 2. by rewrite Ev, <- app_assoc.
    + apply Hnext. right; right. by eexists _, _.
  - rewrite andb_false_r. destruct (in_window skip limit (i + 1)); simpl; [|by apply Hnext].
    unfold listed at 1. rewrite Ev. by apply Hnext.
Qed.

(** [getList] counts all keys of its list, present or not, and answers
    with the values of those of the page that are stored, in the order of the
    list; it does not change the process. *)
Theorem getList_page (args : rvalue) (elems : list rvalue) (keys : list string)
    (skip limit : Z) (rs : list wvalue) (w : world) (d : DB) :
  opened w d -> CacheEnabled (cfg w) = false -> readable (contents d) ->
  r_elems args = Ok elems -> Forall2 (fun r s => r_s r = Ok s) elems keys ->
  window_ok skip limit -> (Z.of_nat (length keys) <= INT_MAX)%Z ->
  getList args skip limit (rs, w)
  = (Ok true, (rs ++ flat_map (listed (contents d)) (page skip limit keys), w)).
Proof.
  intros Ho Hc Hr He Hk Hw Hl. unfold getList, bind at 1, outer, get_st. rewrite (proj2 Ho).
  unfold try_runtime, bind, lift. rewrite He. unfold local.
  destruct (list_loop skip limit elems keys (-1) WNull WNull rs w d) as [l' Hall];
    try done; [by left|lia|].
  rewrite Hall. by rewrite windowed_is_page.
Qed.

(** *** Joins *)

(** The joined map: each key that is stored, with its value. *)
Definition joined_map (m : smap string) (keys : list string) (w : wvalue) : wvalue :=
  foldl (fun w k => match sm_lookup k m with
                    | Some v => w_set k (stored_value v) w
                    | None => w
                    end) w keys.

Lemma join_one_opened w d k o : opened w d -> readable (contents d) ->
  join_one w k o = (Ok tt, joined_map (contents d) [k] o).
Proof.
  intros [Hd Hs] Hr. unfold join_one. rewrite Hs, Hd, Get_law. simpl.
  destruct (sm_lookup k (contents d)) as [v|] eqn:E; [|done].
  unfold bind, lift. by rewrite (readable_lookup _ _ _ (contents_wf d) Hr E).
Qed.

Lemma join_all w d (f : string -> string) ks r o : opened w d -> readable (contents d) ->
  for_all (fun x => outer (join_one w (f x))) ks (r, o)
  = (Ok tt, (r : bool, joined_map (contents d) (f <$> ks) o)).
Proof.
  intros Ho Hr. revert o. induction ks as [|x ks IH]; intros o; [done|].
  cbn [for_all]. unfold bind, outer. rewrite (join_one_opened w d) by done. apply IH.
Qed.

Definition reads_affix (v : rvalue) (a : string * string) : Prop :=
  r_at_s v "prefix" = Ok a.1 /\ r_at_s v "suffix" = Ok a.2.

(** The keys looked up: every affix pair around every key, in order. *)
Definition joined_keys (affs : list (string * string)) (ks : list string) : list string :=
  flat_map (fun a => (fun x => a.1 +:+ x +:+ a.2) <$> ks) affs.

Lemma join_loop_all w d ks join affs r o : opened w d -> readable (contents d) ->
  Forall2 reads_affix join affs ->
  join_loop w ks join (r, o) = (Ok tt, (r, joined_map (contents d) (joined_keys affs ks) o)).
Proof.
  intros Ho Hr Ha. revert o. induction Ha as [|v [p s] join affs [Hp Hs] _ IH]; intros o; [done|].
  simpl in Hp, Hs. cbn [join_loop]. unfold bind at 1, try_runtime, bind, lift. rewrite Hp, Hs.
  rewrite (join_all w d (fun x => p +:+ x +:+ s)) by done. rewrite IH.
  cbn [joined_keys flat_map]. unfold joined_map. by rewrite foldl_app.
Qed.

(** A looked-up key that is stored maps to its value, any other name to nothing. *)
Lemma joined_map_get m keys w k :
  (w = WNull \/ exists o, w = WObj o) ->
  w_get k (joined_map m keys w) =
  match sm_lookup k m with
  | Some v => if decide (k ∈ keys) then stored_value v else w_get k w
  | None => w_get k w
  end.
Proof.
  unfold joined_map. revert w. induction keys as [|k' keys IH]; intros w Hw; cbn [foldl].
  { by destruct (sm_lookup k m). }
  rewrite IH.
  2: { destruct (sm_lookup k' m); [|done]. right. destruct w; eexists; reflexivity. }
  assert (Hother : k <> k' -> w_get k (match sm_lookup k' m with
            | Some v => w_set k' (stored_value v) w | None => w end) = w_get k w).
  { intros Hne. destruct (sm_lookup k' m); [|done]. rewrite w_get_set, decide_False by done.
    by destruct Hw as [->|[o ->]]. }
  destruct (sm_lookup k m) as [v|] eqn:Ek.
  - destruct (decide (k ∈ keys)) as [Hin|Hin]; [by rewrite decide_True by by right|].
    destruct (decide (k = k')) as [<-|Hne].
    + rewrite Ek, w_get_set, decide_True by done. by rewrite decide_True by by left.
    + rewrite Hother by done. rewrite decide_False; [done|]. by intros [|]%elem_of_cons.
  - destruct (decide (k = k')) as [<-|Hne]; [by rewrite Ek|]. by apply Hother.
Qed.

Lemma join_keys_page fuel w d wild skip limit select :
  query_ok fuel w d skip limit ->
  join_keys fuel w select wild skip limit []
  = (Ok true, select <$> (page skip limit (hits wild (contents d))).*1).
Proof.
  intros Hok. pose proof Hok as ([Hd Hs] & _). unfold join_keys. rewrite Hd.
  assert (forall (l : list (string * string)) s,
    for_all (fun kv => push_back [select kv.1]) l s = (Ok tt, s ++ (select <$> l.*1))) as Hall.
  { intros l. induction l as [|x l IH]; intros s; cbn [for_all fmap list_fmap];
      [by rewrite app_nil_r|].
    unfold bind, push_back at 1, modify. rewrite IH. by rewrite <- app_assoc. }
  pose proof (prefix_loop_page fuel w d skip limit Hok wild
    (fun kv => push_back [select kv.1]) _ [] (fun _ _ => eq_refl)) as H.
  rewrite Hall in H. unfold local in H. unfold bind, local.
  destruct (prefix_loop fuel _ _ _ _) as [o [i s']] eqn:E. injection H as -> ->.
  unfold prefix_loop in E. apply for_loop_x_ok in E as [it Hit].
  unfold prefix_loop_it. rewrite Hit. unfold ret. by rewrite status_law.
Qed.

(** [getJoinedMap] with a wildcard: the keys of the page of the hits, cut
    down to the selected part, and a map from every prefix-key-suffix
    combination that is stored to its value. *)
Theorem getJoinedMap_page (fuel : nat) (args : rvalue) (wild : string) (splitby : option string)
    (selindex : Z) (j : rvalue) (join : list rvalue) (affs : list (string * string))
    (skip limit : Z) (rs : list wvalue) (w : world) (d : DB) :
  query_ok fuel w d skip limit -> readable (contents d) ->
  opt_s args "keys" = Ok (Some wild) -> leading_star wild = false ->
  r_has args "keylist" = Ok false -> opt_s args "splitby" = Ok splitby ->
  r_has args "selindex" = Ok true ->
  (let? v := r_at args "selindex" in r_i v) = Ok selindex -> in_int32 selindex ->
  r_at args "join" = Ok j -> r_elems j = Ok join -> Forall2 reads_affix join affs ->
  let select k := default k (select_key (bool_decide (is_Some splitby))
                               (default EmptyString splitby) selindex k) in
  let ks := select <$> (page skip limit (hits wild (contents d))).*1 in
  exists joined,
    getJoinedMap fuel w args skip limit rs = (Ok true, rs ++ [WList (WStr <$> ks); joined]) /\
    forall k, w_get k joined =
      match sm_lookup k (contents d) with
      | Some v => if decide (k ∈ joined_keys affs ks) then stored_value v else WNull
      | None => WNull
      end.
Proof.
  intros Hok Hr Hkeys Hls Hkl Hsp Hsi Hsel Hrange Hj Hje Ha select ks.
  pose proof Hok as ([Hd Hs] & _).
  exists (joined_map (contents d) (joined_keys affs ks) WNull). split.
  - unfold getJoinedMap. rewrite Hs. unfold bind at 1, lift at 1. rewrite Hkeys. cbn [obind].
    unfold bind at 1, lift at 1. rewrite Hkl. unfold bind at 1, lift at 1. rewrite Hsp.
    unfold bind at 1, lift at 1. rewrite Hsi. unfold bind at 1, lift at 1.
    destruct (r_at args "selindex") as [v| | |]; try done. cbn [obind] in Hsel |- *.
    rewrite Hsel. cbn [obind]. rewrite int32_id by done. unfold bind at 1, lift at 1. rewrite Hj.
    cbv beta iota. cbn [default]. change (id wild) with wild. rewrite Hls. cbn [negb andb].
    fold select. unfold bind at 1. rewrite (join_keys_page fuel w d) by done. fold ks.
    unfold bind, ret, lift. rewrite Hje.
    rewrite (join_loop_all w d ks join affs) by (done || by destruct Hok). done.
  - intros k. rewrite joined_map_get by by left. by destruct (sm_lookup k (contents d)).
Qed.
End lists.

Section list_witnesses.
Import Demo.

Theorem getAfter_page_witness :
  getAfter 10 w "user_1" "user_" 0 1 []
  = (Ok true, flat_map keyed_entries [("user_2", q "{`n`:2,`name`:`bo`}")]) /\
  getAfter 10 w "user_15" "user_" 0 1 [] = (Ok true, flat_map keyed_entries [("user_3", "plain")]).
Proof.
  split.
  - destruct (getAfter_page 10 w d "user_1" "user_" 0 1 []) as [H _];
      [by apply demo_window|apply demo_castable|exact H].
  - destruct (getAfter_page 10 w d "user_15" "user_" 0 1 []) as [H _];
      [by apply demo_window|apply demo_castable|exact H].
Defined.

(** A store of JSON values only. *)
Definition json_d : DB := filter (fun e => e.1 <> "user_3") d.
Definition json_w : world := set_db json_d w.

Lemma json_readable : readable (contents json_d).
Proof. repeat constructor. Qed.

Theorem getList_page_witness :
  getList (Some (JList [JStr "count"; JStr "no"; JStr "zz"; JStr "user_1"])) 1 2 ([], json_w)
  = (Ok true, ([WObj [("value", WNum 7%Z); ("key", WStr "zz")]], json_w)).
Proof.
  rewrite (getList_page (Some (JList [JStr "count"; JStr "no"; JStr "zz"; JStr "user_1"]))
    (Some <$> [JStr "count"; JStr "no"; JStr "zz"; JStr "user_1"])
    ["count"; "no"; "zz"; "user_1"] 1 2 [] json_w json_d);
    [reflexivity|done|done|apply json_readable|done|repeat constructor| |done].
  apply (bool_decide_eq_true_1 (window_ok 1 2)). reflexivity.
Defined.

Theorem getJoinedMap_page_witness :
  let args := load (q "{`keys`:`user_*`,`splitby`:`_`,`selindex`:1,`join`:[{`prefix`:`user_`,`suffix`:``}]}") in
  exists joined,
    getJoinedMap 10 json_w args 0 1 [] = (Ok true, [WList [WStr "1"]; joined]) /\
    w_get "user_1" joined = WObj [("n", WNum 1%Z); ("name", WStr "al")] /\
    w_get "user_2" joined = WNull.
Proof.
  intros args.
  destruct (getJoinedMap_page 10 args "user_*" (Some "_") 1
    (Some (JList [JObj [("prefix", JStr "user_"); ("suffix", JStr "")]]))
    [Some (JObj [("prefix", JStr "user_"); ("suffix", JStr "")])] [("user_", "")]
    0 1 [] json_w json_d) as (joined & Hj & Hg); try reflexivity.
  - split; [by split|]. split; [vm_compute; lia|]. split; [vm_compute; discriminate|].
    apply (bool_decide_eq_true_1 (window_ok 0 1)). reflexivity.
  - apply json_readable.
  - by vm_compute.
  - repeat constructor.
  - exists joined. split; [exact Hj|]. by rewrite !Hg.
Defined.
End list_witnesses.
