(* ===== verification/V8Search.v ===== *)
(** * The search with a script

    [Core::searchJson] of src/src/quarks.cpp as it is built with the V8 plugin:
    an entry is listed when the function a module names accepts it.  The engine
    is a parameter: what it makes of a file, and what a function of that file
    answers to two texts. *)

From S2P Require Import Prelude SortedMap Wildcmp Json Store World Scan Cache CoreRead CoreWrite CoreLists.
Local Open Scope quarks_scope.

(** [atoi]: a number outside of [int] is undefined. *)
Definition atoi (s : string) : outcome Z :=
  let s := skip_space (c_str s) in
  let '(neg, s) := match s with
                   | String "-" s' => (true, s')
                   | String "+" s' => (false, s')
                   | _ => (false, s)
                   end in
  let v := digits_value 0 s in
  let v := if neg : bool then (- v)%Z else v in
  if decide (in_int32 v) then Ok v else Undef.

Section v8_search.
Context {plat : Platform} {R : RocksDB} (fuel : nat).
(** [v8Engine::load] and [invoke]: the function, the element and the parameters *)
Context (engine_load : string -> outcome (string -> string -> string -> outcome string)).

Record v8_args := {
  v_wild : string; mapField : string; mapAs : string;
  moduleName : string; funcName : string; v_params : string
}.

Definition read_args (args : rvalue) : outcome v8_args :=
  let? _ := to_wvalue args in
  let? wild := r_at_s args "keys" in
  let? inc := r_at args "include" in
  let? wInclude := to_wvalue inc in
  let filter := load (dump wInclude) in
  let? map := r_at filter "map" in
  let? mapField := r_at_s map "field" in
  let? mapAs := r_at_s map "as" in
  let? moduleName := r_at_s filter "module" in
  let? funcName := r_at_s filter "filter" in
  let? params := r_at_s filter "params" in
  Ok {| v_wild := wild; mapField := mapField; mapAs := mapAs; moduleName := moduleName;
        funcName := funcName; v_params := params |}.

(** The stored text, or a list that holds it as a text *)
Definition element (value : string) : rvalue :=
  match load value with
  | None => load (q "[`" +:+ value +:+ q "`]")
  | r => r
  end.

(** The value [w] of an entry, with what its member names *)
Definition mapped (a : v8_args) (value : string) : SM world wvalue := fun wd =>
  let r := element value in
  match (let? mapKey := r_at_s r (c_str (mapField a)) in let? w := to_wvalue r in Ok (mapKey, w)) with
  | Ok (mapKey, w) =>
      match getJson mapKey (WNull, wd) with
      | (Ok true, (mapJson, wd)) => (Ok (w_set (mapAs a) mapJson w), wd)
      | (Ok false, (_, wd)) => (Ok w, wd)
      | (Throw e, (_, wd)) => (Throw e, wd)
      | (Undef, (_, wd)) => (Undef, wd)
      | (Fuel, (_, wd)) => (Fuel, wd)
      end
  | Throw e => (Throw e, wd)
  | Undef => (Undef, wd)
  | Fuel => (Fuel, wd)
  end.

(** One turn for an entry; the local is [i].  Nothing is caught. *)
Definition v8_turn (a : v8_args) (invoke : string -> string -> string -> outcome string) (skip limit : Z)
    (kv : string * string) : SM (Z * (list wvalue * world)) ctrl :=
  if wild_match (v_wild a) kv.1 then
    let! w := outer (outer (mapped a kv.2)) in
    let! allow := lift (invoke (c_str (funcName a)) (c_str (dump w)) (c_str (v_params a))) in
    let! n := lift (atoi allow) in
    if (n =? 1)%Z then
      fun '(i, (rs, wd)) =>
        let i := int32 (i + 1) in
        if ((skip =? 0)%Z && (limit =? -1)%Z) || ((lowerbound skip <? i)%Z && (i <? upperbound skip limit)%Z)
        then (Ok Continue, (i, (rs ++ [w], wd)))
        else (Ok Break, (i, (rs, wd)))
    else ret Continue
  else ret Continue.

(** The prefix of a pattern without a leading star is a [rocksdb::Slice] of a
    temporary string that is gone when the iterator is placed at it: reading it
    is undefined.  With a leading star it is not used. *)
Definition searchJson_v8 (args : rvalue) (skip limit : Z) : SM (list wvalue * world) bool :=
  let! wd := outer get_st in
  if dbStatus_ok wd then
    let! a := lift (read_args args) in
    let! invoke := lift (engine_load (c_str (moduleName a +:+ ".js"))) in
    match db wd with
    | None => undef
    | Some d =>
        let prefixSearch := negb (leading_star (v_wild a)) in
        if prefixSearch then undef
        else
          local (-1)%Z
            (let! it := for_loop_x fuel it_Valid it_Next
               (fun it => v8_turn a invoke skip limit (it_key it, it_value it))
               (it_SeekToFirst (NewIterator d)) in
             ret (it_status_ok it))
    end
  else ret false.
End v8_search.

(** ** What the search lists *)

Section v8_facts.
Context {plat : Platform} {R : RocksDB} {RL : RocksDBLaws}.
Context (invoke : string -> string -> string -> outcome string).

(** The value of an entry over the contents of the store, and whether the
    script accepts it *)
Definition value_of (a : v8_args) (m : smap string) (kv : string * string) : outcome wvalue :=
  let r := element kv.2 in
  let? mapKey := r_at_s r (c_str (mapField a)) in
  let? w := to_wvalue r in
  Ok (match sm_lookup mapKey m with
      | Some v => w_set (mapAs a) (stored_value v) w
      | None => w
      end).
Definition accepted (a : v8_args) (w : wvalue) : outcome bool :=
  let? allow := invoke (c_str (funcName a)) (c_str (dump w)) (c_str (v_params a)) in
  let? n := atoi allow in
  Ok (n =? 1)%Z.

(** The entries, each with its value and the word of the script *)
Definition judged (a : v8_args) (m : smap string) (kv : string * string) (wb : wvalue * bool) : Prop :=
  value_of a m kv = Ok wb.1 /\ accepted a wb.1 = Ok wb.2.

(** With a first number to skip nothing is listed at all. *)
Definition v8_page (skip limit : Z) (l : list wvalue) : list wvalue :=
  if (skip =? 0)%Z then if (limit =? -1)%Z then l else take (Z.to_nat limit) l
  else [].

Lemma mapped_opened a kv wd d : opened wd d -> CacheEnabled (cfg wd) = false -> readable (contents d) ->
  mapped a kv.2 wd = (value_of a (contents d) kv, wd).
Proof.
  intros Ho Hc Hr. unfold mapped, value_of. destruct (r_at_s _ _) as [k| | |]; try done. cbn [obind].
  destruct (to_wvalue _) as [w| | |]; try done. cbn [obind].
  rewrite (getJson_opened k WNull wd d) by done. by destruct (sm_lookup k (contents d)).
Qed.

(** What the window makes of the number [i + 1] *)
Lemma v8_window skip limit i : (0 <= skip)%Z -> (limit = -1 \/ 0 <= limit)%Z -> in_int32 skip -> in_int32 limit ->
  (-1 <= i)%Z -> (skip = 0 \/ i = -1)%Z -> in_int32 (i + 1) ->
  ((skip =? 0)%Z && (limit =? -1)%Z) || ((lowerbound skip <? int32 (i + 1))%Z && (int32 (i + 1) <? upperbound skip limit)%Z)
  = ((skip =? 0)%Z && ((limit =? -1)%Z || (i + 1 <? limit)%Z)).
Proof.
  intros Hs Hl H1 H2 Hi Hsi H3. rewrite (int32_id (i + 1)) by done. unfold lowerbound, upperbound.
  rewrite (int32_id (skip - 1)) by (unfold in_int32, INT_MIN, INT_MAX in *; lia).
  destruct (Z.eqb_spec skip 0) as [->|Hne]; cbn [andb].
  - destruct (Z.eqb_spec limit (-1)) as [->|Hn]; cbn [orb]; [done|].
    rewrite int32_id by done. by destruct (Z.ltb_spec (0 - 1) (i + 1)); [|lia].
  - destruct (Z.ltb_spec (skip - 1) (i + 1)); [lia|done].
Qed.

Definition window_from (skip limit i : Z) (l : list wvalue) : list wvalue :=
  if (skip =? 0)%Z then if (limit =? -1)%Z then l else take (Z.to_nat (limit - i)) l else [].

Section v8_loop.
Context (a : v8_args) (skip limit : Z) (wd : world) (d : DB).
Hypothesis (Ho : opened wd d) (Hc : CacheEnabled (cfg wd) = false) (Hr : readable (contents d)).
Hypothesis (Hs : (0 <= skip)%Z) (Hl : (limit = -1 \/ 0 <= limit)%Z) (H1 : in_int32 skip) (H2 : in_int32 limit).

Lemma v8_turn_judged kv wb i rs : wild_match (v_wild a) kv.1 = true -> judged a (contents d) kv wb ->
  (-1 <= i)%Z -> (skip = 0 \/ i = -1)%Z -> in_int32 (i + 1) ->
  v8_turn a invoke skip limit kv (i, (rs, wd)) =
  if wb.2 then
    if (skip =? 0)%Z && ((limit =? -1)%Z || (i + 1 <? limit)%Z)
    then (Ok Continue, ((i + 1)%Z, (rs ++ [wb.1], wd))) else (Ok Break, ((i + 1)%Z, (rs, wd)))
  else (Ok Continue, (i, (rs, wd))).
Proof.
  intros Hw [Hv Ha] Hi Hsi H3. unfold v8_turn. rewrite Hw. unfold bind, outer, lift.
  rewrite (mapped_opened a kv wd d) by done. rewrite Hv. unfold accepted in Ha.
  destruct (invoke _ _ _) as [allow| | |]; try done. cbn [obind] in Ha. destruct (atoi allow) as [n| | |]; try done.
  injection Ha as <-. destruct (n =? 1)%Z; [|done].
  rewrite (v8_window skip limit i), (int32_id (i + 1)) by done. by destruct (_ && _).
Qed.

Lemma v8_loop l ws i rs :
  Forall2 (judged a (contents d)) (filterb (fun kv => wild_match (v_wild a) kv.1) l) ws ->
  (-1 <= i)%Z -> (i + Z.of_nat (length l) <= INT_MAX)%Z -> (skip = 0 \/ i = -1)%Z ->
  exists i', for_each (v8_turn a invoke skip limit) l (i, (rs, wd)) =
    (Ok tt, (i', (rs ++ window_from skip limit (i + 1) (filterb snd ws).*1, wd))).
Proof.
  revert ws i rs. induction l as [|kv l IH]; intros ws i rs Hj Hi Hlen Hsi.
  { inversion Hj; subst. exists i. unfold window_from. cbn. destruct (skip =? 0)%Z, (limit =? -1)%Z;
      by rewrite ?take_nil, app_nil_r. }
  cbn [length] in Hlen. assert (in_int32 (i + 1)) as H3 by (unfold in_int32, INT_MIN, INT_MAX in *; lia).
  cbn [for_each]. rewrite filter_cons in Hj.
  destruct (wild_match (v_wild a) kv.1) eqn:Ew.
  - rewrite decide_True in Hj by done. inversion Hj as [|? wb ? ws' Hk Hrest]; subst. unfold bind.
    rewrite (v8_turn_judged kv wb i rs) by done. rewrite filter_cons.
    destruct wb as [w [|]]; cbn [fst snd]; [rewrite decide_True by done|rewrite decide_False by done].
    + destruct (Z.eqb_spec skip 0) as [E|E]; cbn [andb].
      * destruct (Z.eqb_spec limit (-1)) as [E'|E']; cbn [orb].
        -- destruct (IH ws' (i + 1)%Z (rs ++ [w])) as [i' H']; [done|lia|lia|by left|]. exists i'.
           rewrite H'. unfold window_from. rewrite E, E'. cbn. by rewrite <- app_assoc.
        -- destruct (Z.ltb_spec (i + 1) limit).
           ++ destruct (IH ws' (i + 1)%Z (rs ++ [w])) as [i' H']; [done|lia|lia|by left|]. exists i'.
              rewrite H'. unfold window_from. rewrite E. cbn [Z.eqb].
              destruct (Z.eqb_spec limit (-1)); [done|].
              replace (Z.to_nat (limit - (i + 1))) with (S (Z.to_nat (limit - (i + 1 + 1)))) by lia.
              cbn. by rewrite <- app_assoc.
           ++ exists (i + 1)%Z. unfold window_from. rewrite E. cbn [Z.eqb].
              destruct (Z.eqb_spec limit (-1)); [done|].
              replace (Z.to_nat (limit - (i + 1))) with 0 by lia. by rewrite take_0, app_nil_r.
      * exists (i + 1)%Z. unfold window_from. destruct (Z.eqb_spec skip 0); [done|]. by rewrite app_nil_r.
    + destruct (IH ws' i rs) as [i' H']; [done|lia|lia|done|]. by exists i'.
  - rewrite decide_False in Hj by done. unfold bind, v8_turn at 1. rewrite Ew. destruct (IH ws i rs) as [i' H']; [done|lia|lia|done|].
    by exists i'.
Qed.
End v8_loop.

(** The loop over the store with its last status *)
Lemma loop_status {S} fuel cond (turn : Iter -> SM S ctrl) it s s' :
  for_loop fuel cond it_Next turn it s = (Ok tt, s') ->
  (let! it := for_loop_x fuel cond it_Next turn it in ret (it_status_ok it)) s = (Ok true, s').
Proof.
  rewrite for_loop_x_spec. unfold bind. destruct (for_loop_x _ _ _ _ _ _) as [[it'| | |] s'']; try done.
  intros [= <-]. unfold ret. by rewrite status_law.
Qed.

Lemma v8_loop_list {S} fuel d (turn : string * string -> SM S ctrl) s :
  length (contents d) < fuel ->
  for_loop fuel it_Valid it_Next (fun it => turn (it_key it, it_value it)) (it_SeekToFirst (NewIterator d)) s
  = for_each turn (contents d) s.
Proof. intros Hf. rewrite (for_loop_fwd_all fuel turn); rewrite fwd_SeekToFirst; [done|lia]. Qed.
End v8_facts.

(** C36. The search with a script, over an open store, of arguments and a module
    that can be read.  A pattern without a leading star is undefined behaviour:
    its prefix is read from a string that has been destroyed.  With a leading
    star, without the cache, and when every entry that matches can be read and
    judged, the result is the value of each entry the script accepts, in the
    order of the keys, with what its member names stored under the other name;
    at most as many as the limit; and none at all when any are to be skipped,
    since the first one that is not in the window ends the loop. *)
Theorem v8_search_page `{plat : Platform} {R : RocksDB} {RL : RocksDBLaws} (fuel : nat)
    (engine_load : string -> outcome (string -> string -> string -> outcome string))
    (invoke : string -> string -> string -> outcome string)
    (args : rvalue) (a : v8_args) (skip limit : Z) (rs : list wvalue) (wd : world) (d : DB) :
  opened wd d -> read_args args = Ok a -> engine_load (c_str (moduleName a +:+ ".js")) = Ok invoke ->
  let r := searchJson_v8 fuel engine_load args skip limit (rs, wd) in
  if leading_star (v_wild a) then
    forall ws : list (wvalue * bool),
    CacheEnabled (cfg wd) = false -> readable (contents d) ->
    length (contents d) < fuel -> (Z.of_nat (length (contents d)) <= INT_MAX)%Z ->
    (0 <= skip)%Z -> (limit = -1 \/ 0 <= limit)%Z -> in_int32 skip -> in_int32 limit ->
    Forall2 (judged invoke a (contents d))
      (filterb (fun kv => wild_match (v_wild a) kv.1) (contents d)) ws ->
    r = (Ok true, (rs ++ v8_page skip limit (filterb snd ws).*1, wd))
  else r.1 = Undef.
Proof.
  intros Ho Ha He r. pose proof Ho as [Hd Hok].
  assert (r = (if leading_star (v_wild a)
               then local (-1)%Z (let! it := for_loop_x fuel it_Valid it_Next
                      (fun it => v8_turn a invoke skip limit (it_key it, it_value it))
                      (it_SeekToFirst (NewIterator d)) in ret (it_status_ok it))
               else undef) (rs, wd)) as Er.
  { subst r. unfold searchJson_v8. unfold bind at 1, outer at 1, get_st at 1. rewrite Hok, Ha.
    unfold bind at 1, lift at 1. rewrite He. unfold bind at 1, lift at 1. rewrite Hd.
    by destruct (leading_star (v_wild a)). }
  rewrite Er. clear Er r. destruct (leading_star (v_wild a)); [|done].
  intros ws Hc Hr Hf Hlen Hs Hl H1 H2 Hj.
  destruct (v8_loop invoke a skip limit wd d Ho Hc Hr Hs Hl H1 H2 _ ws (-1) rs Hj) as [i' H]; [lia|lia|by right|].
  unfold local. erewrite loop_status; [|rewrite (v8_loop_list fuel); [exact H|done]].
  unfold v8_page, window_from. cbn. by rewrite Z.sub_0_r.
Qed.

(** ** A concrete search *)

Section v8_witnesses.
Import Demo.

Definition v8_store : DB := [
  ("user_3", Some (q "{`age`:30,`city`:`c1`}")); ("user_2", Some (q "{`age`:20,`city`:`c9`}"));
  ("user_1", Some (q "{`age`:10,`city`:`c1`}")); ("c1", Some (q "`Rome`"))].
Definition v8_world : world := set_db v8_store w.
Definition v8_request (keys : string) : rvalue := load (q "{`keys`:`" +:+ keys +:+ q
  "`,`include`:{`map`:{`field`:`city`,`as`:`town`},`module`:`m`,`filter`:`f`,`params`:`x`}}").
Definition v8_arguments (keys : string) : v8_args :=
  {| v_wild := keys; mapField := "city"; mapAs := "town"; moduleName := "m"; funcName := "f";
     v_params := "x" |}.

(** A module with one function, which accepts the values that name Rome *)
Definition rome (funcName elem params : string) : outcome string :=
  Ok (match find_char "R" elem with Some _ => "1" | None => "0" end).
Definition one_module (file : string) : outcome (string -> string -> string -> outcome string) :=
  if String.eqb file "m.js" then Ok rome else Undef.

Definition v8_values : list (wvalue * bool) :=
  (fun s => match to_wvalue (load (q s.1)) with Ok w => (w, s.2) | _ => (WNull, s.2) end) <$> [
    ("{`age`:10,`city`:`c1`,`town`:`Rome`}", true); ("{`age`:20,`city`:`c9`}", false);
    ("{`age`:30,`city`:`c1`,`town`:`Rome`}", true)].

Theorem v8_search_page_witness :
  searchJson_v8 10 one_module (v8_request "*_*") 0 1 ([], v8_world) =
    (Ok true, (take 1 (filterb snd v8_values).*1, v8_world)) /\
  searchJson_v8 10 one_module (v8_request "*_*") 1 5 ([], v8_world) = (Ok true, ([], v8_world)) /\
  (searchJson_v8 10 one_module (v8_request "user_*") 0 1 ([], v8_world)).1 = Undef.
Proof.
  assert (forall keys, keys = "*_*" \/ keys = "user_*" -> read_args (v8_request keys) = Ok (v8_arguments keys)) as E
    by (intros keys [->| ->]; vm_compute; reflexivity).
  assert (Forall2 (judged rome (v8_arguments "*_*") (contents v8_store))
            (filterb (fun kv => wild_match "*_*" kv.1) (contents v8_store)) v8_values) as Hj.
  { change (filterb _ _) with
      [("user_1", q "{`age`:10,`city`:`c1`}"); ("user_2", q "{`age`:20,`city`:`c9`}"); ("user_3", q "{`age`:30,`city`:`c1`}")].
    repeat constructor; vm_compute; reflexivity. }
  assert (readable (contents v8_store)) as Hr by (repeat constructor).
  assert (opened v8_world v8_store) as Ho by (split; reflexivity).
  assert (length (contents v8_store) < 10) as Hf by (vm_compute; lia).
  assert (Z.of_nat (length (contents v8_store)) <= INT_MAX)%Z as Hl by (vm_compute; discriminate).
  pose proof (fun keys skip limit Hk => v8_search_page 10 one_module rome (v8_request keys)
    (v8_arguments keys) skip limit [] v8_world v8_store Ho (E keys Hk) eq_refl) as H.
  split; [|split].
  - rewrite (H "*_*" 0%Z 1%Z (or_introl eq_refl) v8_values eq_refl Hr Hf Hl) by
      (done || unfold in_int32, INT_MIN, INT_MAX; lia). reflexivity.
  - rewrite (H "*_*" 1%Z 5%Z (or_introl eq_refl) v8_values eq_refl Hr Hf Hl) by
      (done || unfold in_int32, INT_MIN, INT_MAX; lia). reflexivity.
  - exact (H "user_*" 0%Z 1%Z (or_intror eq_refl)).
Defined.
End v8_witnesses.
