(* ===== verification/V8Engine.v ===== *)
(** * The script engine of the searches

    src/src/v8engine.cpp as it is built with _V8_LATEST, and [fileTransfer] of
    src/src/quarks.cpp: how the file of a module is read and run, and how one of
    its functions is called with two texts.

    V8 is behind the class [V8]: what its header says of contexts, values and
    functions.  Calls that end the process, as [ToLocalChecked] does on nothing,
    are undefined. *)

From S2P Require Import Prelude Json Store World V8Search.
Local Open Scope quarks_scope.

Class V8 := {
  context : Type;                       (* the global object with all it refers to *)
  value : Type;
  new_context : context;                (* [Context::New] *)
  NewFromUtf8 : string -> value;
  (** [Script::Compile] and [Run]; none for a text that does not compile, or throws *)
  run_script : value -> context -> option context;
  Global_Get : value -> context -> option value;
  IsFunction : value -> bool;
  (** [Function::Call] on the global object; none when it throws *)
  Call : value -> list value -> context -> option value * context;
  Utf8Value : value -> option string    (* none when it cannot be converted *)
}.

Section engine.
Context {V : V8} (files : string -> option string).

(** [_ReadFile]: the handle is empty for a file that cannot be opened; the text
    of the file is taken as a C string. *)
Definition ReadFile (name : string) : option value :=
  NewFromUtf8 ∘ c_str <$> files (c_str name).

(** [v8Engine::load]; [onLoad] gets the context in which the script has run. *)
Definition load {A} (fileName : string) (onLoad : SM context A) : outcome A :=
  match ReadFile fileName with
  | None => Undef
  | Some source =>
      match run_script source new_context with
      | None => Undef
      | Some ctx => (onLoad ctx).1
      end
  end.

Definition CallJSFunction (funcName : string) (argList : list value) : SM context string :=
  let! ctx := get_st in
  match Global_Get (NewFromUtf8 (c_str funcName)) ctx with
  | Some func =>
      if IsFunction func then
        let! result := (fun ctx => let '(r, ctx) := Call func argList ctx in (Ok r, ctx)) in
        match result with
        | Some result =>
            match Utf8Value result with Some text => ret (c_str text) | None => undef end
        | None => ret EmptyString
        end
      else ret EmptyString
  | None => ret EmptyString
  end.

Definition invoke (funcName element params : string) : SM context string :=
  CallJSFunction funcName [NewFromUtf8 (c_str element); NewFromUtf8 (c_str params)].

(** [Core::fileTransfer]; what the function gives is logged. *)
Definition fileTransfer (moduleName funcName channelName remoteDescription : string) : outcome bool :=
  load (moduleName +:+ ".js")
    (let! rawData := invoke funcName channelName remoteDescription in
     ret (0 <? Z.of_nat (String.length rawData))%Z).

(** What [searchJson] uses of the engine *)
Definition engine_load (fileName : string) : outcome (string -> string -> string -> outcome string) :=
  load fileName (fun ctx => (Ok (fun funcName element params => (invoke funcName element params ctx).1), ctx)).

(** The answers to calls that are made one after the other *)
Fixpoint answers (calls : list (string * string * string)) : SM context (list string) :=
  match calls with
  | [] => ret []
  | (f, e, p) :: calls =>
      let! a := invoke f e p in
      let! l := answers calls in
      ret (a :: l)
  end.

(** A script whose functions change nothing that they can see later *)
Definition stateless (ctx : context) : Prop := forall f args, (Call f args ctx).2 = ctx.

Lemma invoke_stateless ctx f e p : stateless ctx -> (invoke f e p ctx).2 = ctx.
Proof.
  intros Hs. unfold invoke, CallJSFunction, bind, get_st.
  destruct (Global_Get _ ctx) as [func|]; [|done]. destruct (IsFunction func); [|done].
  pose proof (Hs func [NewFromUtf8 (c_str e); NewFromUtf8 (c_str p)]) as Hc.
  destruct (Call func _ ctx) as [[r|] ctx']; cbn in *; subst; [|done]. by destruct (Utf8Value r).
Qed.

Definition answers_of (inv : string -> string -> string -> outcome string) (calls : list (string * string * string)) :
    outcome (list string) :=
  foldr (fun c r => let? a := inv c.1.1 c.1.2 c.2 in let? l := r in Ok (a :: l)) (Ok []) calls.

Lemma answers_same ctx calls : stateless ctx ->
  answers calls ctx = (answers_of (fun f e p => (invoke f e p ctx).1) calls, ctx).
Proof.
  intros Hs. induction calls as [|[[f e] p] calls IH]; [done|]. cbn [answers answers_of foldr fst snd]. unfold bind.
  pose proof (invoke_stateless ctx f e p Hs) as Hc.
  destruct (invoke f e p ctx) as [[a|x| |] ctx']; cbn [snd] in Hc; subst ctx'; cbn [fst obind]; try done.
  rewrite IH. fold (answers_of (fun f e p => (invoke f e p ctx).1) calls). by destruct (answers_of _ calls).
Qed.

Definition script_of (fileName : string) : option context :=
  match ReadFile fileName with Some source => run_script source new_context | None => None end.

(** The function [searchJson] is given is the one the script has: as long as its
    functions keep no state, calls in any number and order are answered as
    [engine_load] says; and a file that is not there, or that does not run, ends
    the process. *)
Lemma engine_answers fileName :
  match script_of fileName with
  | Some ctx => exists inv, engine_load fileName = Ok inv /\
      forall calls, stateless ctx -> load fileName (answers calls) = answers_of inv calls
  | None => engine_load fileName = Undef
  end.
Proof.
  unfold engine_load, load, script_of. destruct (ReadFile fileName) as [source|]; [|done].
  destruct (run_script source new_context) as [ctx|]; [|done].
  eexists. split; [done|]. intros calls Hs. by rewrite (answers_same ctx calls Hs).
Qed.

(** A function the script does not define, or that throws, answers the empty
    text, which accepts no entry. *)
Lemma no_function_accepts {plat : Platform} a w ctx :
  (forall func, Global_Get (NewFromUtf8 (c_str (c_str (funcName a)))) ctx = Some func ->
     IsFunction func = false \/ forall args, (Call func args ctx).1 = None) ->
  accepted (fun f e p => (invoke f e p ctx).1) a w = Ok false.
Proof.
  intros Hf. unfold accepted, invoke, CallJSFunction, bind, get_st.
  destruct (Global_Get _ ctx) as [func|] eqn:Hg; [|done].
  destruct (Hf func eq_refl) as [->|Hc]; [done|]. destruct (IsFunction func); [|done].
  specialize (Hc [NewFromUtf8 (c_str (c_str (dump w))); NewFromUtf8 (c_str (c_str (v_params a)))]).
  destruct (Call func _ ctx) as [r ctx']; cbn in Hc; subst r. done.
Qed.

(** [fileTransfer] tells whether the function of the module gave a text. *)
Lemma file_transferred moduleName funcName channelName remoteDescription inv :
  engine_load (moduleName +:+ ".js") = Ok inv ->
  fileTransfer moduleName funcName channelName remoteDescription =
  (let? rawData := inv funcName channelName remoteDescription in Ok (negb (String.eqb rawData EmptyString))).
Proof.
  unfold engine_load, fileTransfer, load. destruct (ReadFile _) as [source|]; [|done].
  destruct (run_script source new_context) as [ctx|]; [|done]. cbn [fst]. intros [= <-]. unfold bind.
  destruct (invoke funcName channelName remoteDescription ctx) as [[raw|e| |] ctx']; [|done..]. by destruct raw.
Qed.
End engine.

(** *** An engine on which this runs: a script is the name of its one function,
    which answers the texts it is given, one behind the other. *)

#[local] Instance small_engine : V8 := {|
  context := string; value := string; new_context := EmptyString;
  NewFromUtf8 := fun s => s;
  run_script := fun source _ => match source with EmptyString => None | _ => Some source end;
  Global_Get := fun name ctx => if String.eqb name ctx then Some name else None;
  IsFunction := fun _ => true;
  Call := fun _ args ctx => (Some (String.concat EmptyString args), ctx);
  Utf8Value := fun v => Some v
|}.
Definition small_files (name : string) : option string :=
  if String.eqb name "m.js" then Some "f" else if String.eqb name "broken.js" then Some EmptyString else None.

Lemma small_runs :
  load small_files "m.js" (answers [("f", "a", "b"); ("g", "a", "b")]) = Ok ["ab"; ""] /\
  fileTransfer small_files "m" "f" "channel" "peer" = Ok true /\
  fileTransfer small_files "m" "g" "channel" "peer" = Ok false /\
  fileTransfer small_files "broken" "f" "channel" "peer" = Undef /\
  fileTransfer small_files "none" "f" "channel" "peer" = Undef.
Proof. repeat split; vm_compute; reflexivity. Qed.
