(* ===== verification/Orm.v ===== *)
(** * Filters and sorting

    [ORM] of [src/include/orm.hpp] (the [where] filters), [JsonComparer] of
    [src/include/qsorter.hpp] and [getSorted] of [src/src/quarks.cpp].

    crow decodes a text in place, in a buffer that the copies of a value share
    with it, but only the value that is asked is told where the decoded text
    ends.  The comparisons of [JsonComparer] copy the values they compare, so
    they are computations over the two texts as they are in memory.  [std::sort]
    is a parameter. *)

From S2P Require Import Prelude SortedMap Wildcmp Json Store World Scan Cache CoreRead.
Open Scope quarks_scope.

(** [try { m } catch (const std::exception& e) { d }] *)
Definition try_all {A} (m : outcome A) (d : outcome A) : outcome A :=
  match m with Throw _ => d | r => r end.

(** The members [begin()] to [end()] with their keys; the keys of list elements
    are not initialised. *)
Definition r_members (r : rvalue) : outcome (list (string * rvalue)) :=
  match r with
  | Some (JObj ms) => Ok ((fun m => (m.1, Some m.2)) <$> ms)
  | Some (JList []) => Ok []
  | Some (JList _) => Undef
  | Some _ => Throw err_container
  | None => Throw err_invalid
  end.

Section orm.
Context {plat : Platform}.

(** [compareValues] with the three comparisons *)
Definition compareValues (jsonValue : rvalue) (key : string) (targetValue : rvalue)
    : outcome bool :=
  try_all
    (let? has := r_has jsonValue key in
     if has : bool then
       let? fieldValue := r_at jsonValue key in
       let? t := r_t fieldValue in
       match t with
       | TString =>
           let? a := r_s fieldValue in let? b := r_s targetValue in Ok (String.eqb a b)
       | TNumber =>
           let? a := r_d fieldValue in let? b := r_d targetValue in Ok (double_eqb a b)
       | TTrue | TFalse =>
           let? a := r_b fieldValue in let? b := r_b targetValue in Ok (Bool.eqb a b)
       | _ => Ok false
       end
     else Ok false)
    (Ok false).

Definition checkEq := compareValues.

(** [for (check : targetValues) if (compareValues(...)) return found] *)
Fixpoint any_equal (jsonValue : rvalue) (key : string) (checks : list rvalue) : outcome bool :=
  match checks with
  | [] => Ok false
  | check :: checks =>
      let? b := compareValues jsonValue key check in
      if b : bool then Ok true else any_equal jsonValue key checks
  end.

Definition checkEqAny (jsonValue : rvalue) (key : string) (targetValues : rvalue)
    : outcome bool :=
  try_all
    (let? has := r_has jsonValue key in
     if has : bool then
       let? checks := r_elems targetValues in any_equal jsonValue key checks
     else Ok false)
    (Ok false).

Definition checkNotEq (jsonValue : rvalue) (key : string) (targetValue : rvalue)
    : outcome bool :=
  let? b := compareValues jsonValue key targetValue in Ok (negb b).

Definition checkNotIn (jsonValue : rvalue) (key : string) (targetValues : rvalue)
    : outcome bool :=
  try_all
    (let? has := r_has jsonValue key in
     if has : bool then
       let? checks := r_elems targetValues in
       let? b := any_equal jsonValue key checks in Ok (negb b)
     else Ok true)
    (Ok true).

(** One turn of [applyFilter]: whether it returns true there *)
Definition checkCondition (jsonValue : rvalue) (key : string) (condition : rvalue)
    : outcome bool :=
  let? eq := r_has condition "eq" in
  if eq : bool then let? c := r_at condition "eq" in checkEq jsonValue key c
  else
    let? eq_any := r_has condition "eq_any" in
    if eq_any : bool then let? c := r_at condition "eq_any" in checkEqAny jsonValue key c
    else
      let? neq := r_has condition "neq" in
      if neq : bool then let? c := r_at condition "neq" in checkNotEq jsonValue key c
      else
        let? not_in := r_has condition "not_in" in
        if not_in : bool then let? c := r_at condition "not_in" in checkNotIn jsonValue key c
        else Ok false.

Fixpoint any_condition (jsonValue : rvalue) (conditions : list (string * rvalue))
    : outcome bool :=
  match conditions with
  | [] => Ok false
  | (key, condition) :: conditions =>
      let? b := checkCondition jsonValue key condition in
      if b : bool then Ok true else any_condition jsonValue conditions
  end.

Definition applyFilter (jsonValue whereClause : rvalue) : outcome bool :=
  let? conditions := r_members whereClause in any_condition jsonValue conditions.

(** [processLogicalOperator]: [result] is [None] before the first condition *)
Fixpoint logical_loop (jsonValue : rvalue) (op : bool -> bool -> bool) (result : option bool)
    (conditions : list rvalue) : outcome bool :=
  match conditions with
  | [] => Ok (default false result)
  | condition :: conditions =>
      let? conditionResult := applyFilter jsonValue condition in
      logical_loop jsonValue op
        (Some match result with Some r => op r conditionResult | None => conditionResult end)
        conditions
  end.

Definition processLogicalOperator (jsonValue conditions : rvalue) (op : bool -> bool -> bool)
    : outcome bool :=
  let? l := r_elems conditions in logical_loop jsonValue op None l.

Definition validate (jsonValue filterBy : rvalue) : outcome bool :=
  try_all
    (let? has_where := r_has filterBy "where" in
     if has_where : bool then
       let? whereClause := r_at filterBy "where" in
       let? has_and := r_has whereClause "and" in
       if has_and : bool then
         let? c := r_at whereClause "and" in processLogicalOperator jsonValue c andb
       else
         let? has_or := r_has whereClause "or" in
         if has_or : bool then
           let? c := r_at whereClause "or" in processLogicalOperator jsonValue c orb
         else applyFilter jsonValue whereClause
     else Ok false)
    (Ok false).

(** ** JsonComparer *)

(** A text of a loaded value: its bytes, and the byte in front of them that says
    whether they are still to be decoded, which the copies of the value share;
    and where the text ends, which every copy has for itself. *)
Record rtext := { rt_bytes : string; rt_escaped : bool; rt_end : nat }.
Definition has_escape (raw : string) : bool :=
  match find_char BACKSLASH raw with Some _ => true | None => false end.
Definition loaded (raw : string) : rtext :=
  {| rt_bytes := raw; rt_escaped := has_escape raw; rt_end := String.length raw |}.

(** [rvalue::unescape]: the decoded text and a zero are written over the first
    bytes. *)
Definition rt_unescape (t : rtext) : rtext :=
  if rt_escaped t then
    let s := unescape (str_take (rt_end t) (rt_bytes t)) in
    {| rt_bytes := s +:+ String NUL (str_drop (S (String.length s)) (rt_bytes t));
       rt_escaped := false; rt_end := String.length s |}
  else t.
Definition rt_text (t : rtext) : string := str_take (rt_end t) (rt_bytes t).

(** [rvalue::s] of a copy: the value that was copied keeps its end. *)
Definition copy_s (t : rtext) : string * rtext :=
  let t' := rt_unescape t in
  (rt_text t', {| rt_bytes := rt_bytes t'; rt_escaped := rt_escaped t'; rt_end := rt_end t |}).

(** The texts of the two values that were copied *)
Definition compareAlpha : SM (rtext * rtext) bool := fun '(lhs, rhs) =>
  let '(ls, lhs) := copy_s lhs in
  let '(rs, rhs) := copy_s rhs in
  (Ok (sltb ls rs), (lhs, rhs)).

(** The doubles are cut down to [int]s. *)
Definition compareNumeric (lhs rhs : rvalue) : outcome bool :=
  let? ld := r_d lhs in let? rd := r_d rhs in Ok (int_of_double ld <? int_of_double rd)%Z.

(** 0 for a string, 1 for a number, [none] otherwise *)
Definition sort_type (none : Z) (r : rvalue) : outcome Z :=
  let? t := r_t r in
  Ok match t with TString => 0%Z | TNumber => 1%Z | _ => none end.

(** [t() == Object && has(_sorter)] *)
Definition sortable (sorter : string) (r : rvalue) : outcome bool :=
  let? t := r_t r in
  if decide (t = TObject) then r_has r sorter else Ok false.

(** [operator()]; the state has the texts under the sort field. *)
Definition comparer (sorter : string) (kvLhs kvRhs : rvalue) : SM (rtext * rtext) bool :=
  try_runtime
    (let! lhs := lift (r_at kvLhs "value") in
     let! rhs := lift (r_at kvRhs "value") in
     let! l := lift (sortable sorter lhs) in
     let! r := if l : bool then lift (sortable sorter rhs) else ret false in
     if r : bool then
       let! lSorter := lift (let? v := r_at lhs sorter in r_copy v) in
       let! rSorter := lift (let? v := r_at rhs sorter in r_copy v) in
       let! typeLhs := lift (sort_type (-1) lSorter) in
       let! typeRhs := lift (sort_type (-2) rSorter) in
       if (typeLhs =? typeRhs)%Z then
         if (typeLhs =? 1)%Z then lift (compareNumeric lSorter rSorter)
         else if (typeLhs =? 0)%Z then compareAlpha
         else ret false
       else ret false
     else ret false)
    (fun _ => ret false).

(** The text under the sort field as it was loaded (any other value has none),
    and after the value itself was asked for its text *)
Definition raw_sort_text (sorter : string) (x : rvalue) : string :=
  match (let? v := r_at x "value" in r_at v sorter) with
  | Ok (Some (JStr raw)) => raw
  | _ => EmptyString
  end.
Definition loaded_text (sorter : string) (x : rvalue) : rtext := loaded (raw_sort_text sorter x).
Definition decoded_text (sorter : string) (x : rvalue) : rtext := rt_unescape (loaded_text sorter x).

(** [getSorted] prints every value before it keeps it ([CROW_LOG_INFO] with the
    dump of the value, at the level of crow's default), which decodes its texts
    once and for all: the comparison of values that were printed. *)
Definition compare_printed (sorter : string) (x y : rvalue) : outcome bool :=
  (comparer sorter x y (decoded_text sorter x, decoded_text sorter y)).1.

(** *** [JsonComparer::validate], the filter before [ORM] (no longer called) *)

(** [check] against the field, both of the type of the field *)
Definition check_field (value : rvalue) (field : string) (check : rvalue) : outcome bool :=
  let? v := r_at value field in
  let? t := r_t v in
  match t with
  | TString => let? c := r_s check in let? f := r_s v in Ok (String.eqb f c)
  | TNumber => let? c := r_d check in let? f := r_d v in Ok (double_eqb f c)
  | _ => Ok false
  end.

Fixpoint check_any (value : rvalue) (field : string) (checks : list rvalue) : outcome bool :=
  match checks with
  | [] => Ok false
  | c :: checks =>
      let? b := check_field value field c in
      if b : bool then Ok true else check_any value field checks
  end.

(** [v.begin()->key()]: reading the first of no members is out of bounds *)
Definition first_key (r : rvalue) : outcome string :=
  let? ms := r_members r in
  match ms with [] => Undef | m :: _ => Ok m.1 end.

Fixpoint comparer_validate_loop (value filter : rvalue) (keys : list (string * rvalue))
    : outcome bool :=
  match keys with
  | [] => Ok false
  | (key, _) :: keys =>
      if String.eqb key "where" then
        let? v := r_at filter key in
        let? a := r_has v "and" in
        let? o := if a : bool then Ok true else r_has v "or" in
        if o : bool then Ok false
        else
          let? field := first_key v in
          let? op := r_at v field in
          let? opKey := first_key op in
          if String.eqb opKey "eq" then
            let? check := r_at op opKey in
            let? h := r_has value field in
            if h : bool then check_field value field check else Ok false
          else if String.eqb opKey "eq_any" then
            let? checks := r_at op opKey in
            let? h := r_has value field in
            if h : bool then
              let? f := r_at value field in
              let? t := r_t f in
              if decide (t = TString \/ t = TNumber) then
                let? l := r_elems checks in check_any value field l
              else Ok false
            else Ok false
          else Ok false
      else comparer_validate_loop value filter keys
  end.

Definition comparer_validate (value filter : rvalue) : outcome bool :=
  let? keys := r_members filter in comparer_validate_loop value filter keys.
End orm.

(** ** getSorted *)

Section sorted.
Context {plat : Platform} {R : RocksDB} (fuel : nat).
(** [std::sort] with a comparison that may throw *)
Context (std_sort : (rvalue -> rvalue -> outcome bool) -> list rvalue -> outcome (list rvalue)).

(** [{"value":...,"key":"..."}]: a value that starts with neither a brace nor a
    double quote is put between double quotes *)
Definition sorted_text (key value : string) : string :=
  let addQuote := match value with
                  | EmptyString => false
                  | String c _ => negb (Ascii.eqb c "{") && negb (Ascii.eqb c DQUOTE)
                  end in
  let quote := if addQuote then String DQUOTE EmptyString else EmptyString in
  q "{`value`:" +:+ quote +:+ value +:+ quote +:+ "," +:+ q "`key`:`" +:+ key +:+ q "`}".

(** The locals of the first loop: [ret], [isSortable], [allResults]. *)
Record sort_state := { s_ret : bool; s_sortable : bool; s_all : list rvalue }.

(** One hit: the logged dumps convert the filter and the value, which may throw. *)
Definition collect_hit (filter : string) (key value : string) (s : sort_state)
    : outcome sort_state :=
  let filterBy := load filter in
  match load (sorted_text key value) with
  | None => Ok {| s_ret := s_ret s; s_sortable := false; s_all := s_all s |}
  | Some j =>
      let x := Some j in
      match
        (let? t := r_t x in
         if decide (t = TObject) then
           let? _ := (if (0 <? Z.of_nat (String.length filter))%Z
                      then to_wvalue filterBy else Ok WNull) in
           let? pass := (match filterBy with
                         | None => Ok true
                         | Some _ => let? v := r_at x "value" in validate v filterBy
                         end) in
           if pass : bool then let? _ := to_wvalue x in Ok true else Ok false
         else Ok false)
      with
      | Ok true => Ok {| s_ret := s_ret s; s_sortable := s_sortable s; s_all := s_all s ++ [x] |}
      | Ok false => Ok s
      | Throw (RuntimeError _) => Ok {| s_ret := false; s_sortable := false; s_all := s_all s |}
      | Throw e => Throw e
      | Undef => Undef
      | Fuel => Fuel
      end
  end.

Definition collect_turn (wild filter : string) (kv : string * string) : SM sort_state ctrl :=
  let key := c_str kv.1 in
  if wild_match wild key then
    fun s => match collect_hit filter key kv.2 s with
             | Ok s => (Ok Continue, s)
             | Throw e => (Throw e, s)
             | Undef => (Undef, s)
             | Fuel => (Fuel, s)
             end
  else ret Continue.

(** The paging of the sorted values; an entry that cannot be converted is
    left out. *)
Definition sorted_emit (x : rvalue) : SM (list wvalue) unit :=
  try_runtime
    (let! value := lift (let? v := r_at x "value" in to_wvalue v) in
     let! key := lift (let? k := r_at x "key" in to_wvalue k) in
     push_back [w_set "key" key (w_set "value" value WNull)])
    (fun _ => ret tt).

Definition getSorted (w : world) (wild sortby : string) (ascending : bool)
    (skip limit : Z) (filter : string) : SM (list wvalue) bool :=
  query w wild false (fun it =>
    let '(o, s) := prefix_loop fuel it (wild_prefix wild) (collect_turn wild filter)
                     {| s_ret := true; s_sortable := (0 <? Z.of_nat (String.length sortby))%Z;
                        s_all := [] |} in
    do! lift o;
    let! (r, allResults) := lift
      (if s_sortable s then
         match std_sort (compare_printed sortby) (s_all s) with
         | Throw (RuntimeError _) => Ok (false, s_all s)
         | Ok l => Ok (s_ret s, l)
         | Throw e => Throw e
         | Undef => Undef
         | Fuel => Fuel
         end
       else Ok (s_ret s, s_all s)) in
    do! local (-1)%Z (for_each (paged_body skip limit sorted_emit)
          (if ascending then allResults else reverse allResults));
    ret (r && dbStatus_ok w)).
End sorted.

(** ** What a filter means *)

Section meaning.
Context {plat : Platform}.

Inductive cond :=
  | CEq (t : json) | CEqAny (ts : list json) | CNeq (t : json) | CNotIn (ts : list json).
Definition clause : Type := list (string * cond).
Inductive filter_ast := FWhere (c : clause) | FAnd (cs : list clause) | FOr (cs : list clause).

(** The JSON text of a filter, as a tree. *)
Definition json_cond (c : cond) : json :=
  match c with
  | CEq t => JObj [("eq", t)]
  | CEqAny ts => JObj [("eq_any", JList ts)]
  | CNeq t => JObj [("neq", t)]
  | CNotIn ts => JObj [("not_in", JList ts)]
  end.
Definition json_clause (c : clause) : json := JObj (map (fun p => (p.1, json_cond p.2)) c).
Definition json_filter (f : filter_ast) : json :=
  JObj [("where", match f with
                  | FWhere c => json_clause c
                  | FAnd cs => JObj [("and", JList (map json_clause cs))]
                  | FOr cs => JObj [("or", JList (map json_clause cs))]
                  end)].

(** Two scalar values of the same type are equal. *)
Definition same_scalar (f t : json) : bool :=
  match f, t with
  | JStr a, JStr b => String.eqb (unescape a) (unescape b)
  | JNum a, JNum b =>
      match lexical_cast_double a, lexical_cast_double b with
      | Some x, Some y => double_eqb x y
      | _, _ => false
      end
  | JTrue, JTrue | JFalse, JFalse => true
  | _, _ => false
  end.

Definition field_is (o : list (string * json)) (k : string) (t : json) : bool :=
  match assoc k o with Some f => same_scalar f t | None => false end.

(** A missing field differs from everything. *)
Definition eval_cond (o : list (string * json)) (k : string) (c : cond) : bool :=
  match c with
  | CEq t => field_is o k t
  | CEqAny ts => existsb (field_is o k) ts
  | CNeq t => negb (field_is o k t)
  | CNotIn ts => negb (existsb (field_is o k) ts)
  end.

(** The conditions of one clause are alternatives. *)
Definition eval_clause (o : list (string * json)) (c : clause) : bool :=
  existsb (fun p => eval_cond o p.1 p.2) c.

(** No clause at all is never satisfied, under [and] either. *)
Definition eval_filter (o : list (string * json)) (f : filter_ast) : bool :=
  match f with
  | FWhere c => eval_clause o c
  | FAnd cs => negb (bool_decide (cs = [])) && forallb (eval_clause o) cs
  | FOr cs => existsb (eval_clause o) cs
  end.

Lemma compareValues_spec o k t :
  compareValues (Some (JObj o)) k (Some t) = Ok (field_is o k t).
Proof.
  unfold compareValues, field_is, r_has, r_at. cbn [obind].
  destruct (assoc k o) as [f|]; [rewrite bool_decide_true by by eexists|done]. cbn [obind r_t].
  destruct f, t; simpl; try done.
  all: repeat match goal with |- context [lexical_cast_double ?x] =>
         destruct (lexical_cast_double x); simpl end; done.
Qed.

Lemma any_equal_spec o k ts :
  any_equal (Some (JObj o)) k (Some <$> ts) = Ok (existsb (field_is o k) ts).
Proof.
  induction ts as [|t ts IH]; [done|]. cbn [fmap list_fmap any_equal existsb].
  rewrite compareValues_spec. cbn [obind]. by destruct (field_is o k t).
Qed.

Lemma field_missing o k ts : assoc k o = None -> existsb (field_is o k) ts = false.
Proof.
  intros H. induction ts as [|t ts IH]; [done|]. simpl. unfold field_is at 1. by rewrite H.
Qed.

Lemma r_has_obj o k :
  r_has (Some (JObj o)) k = Ok (match assoc k o with Some _ => true | None => false end).
Proof. simpl. by destruct (assoc k o). Qed.

Lemma checkCondition_spec o k c :
  checkCondition (Some (JObj o)) k (Some (json_cond c)) = Ok (eval_cond o k c).
Proof.
  destruct c as [t|ts|t|ts]; unfold checkCondition, json_cond;
    rewrite !r_has_obj; unfold r_at; cbn [assoc]; eval_keys; cbn [obind].
  - apply compareValues_spec.
  - unfold checkEqAny. rewrite r_has_obj. cbn [obind r_elems].
    destruct (assoc k o) eqn:Hk; cbn [obind]; [by rewrite any_equal_spec|].
    cbn [eval_cond]. by rewrite field_missing.
  - unfold checkNotEq. by rewrite compareValues_spec.
  - unfold checkNotIn. rewrite r_has_obj. cbn [obind r_elems].
    destruct (assoc k o) eqn:Hk; cbn [obind]; [by rewrite any_equal_spec|].
    cbn [eval_cond]. by rewrite field_missing.
Qed.

Lemma applyFilter_spec o c :
  applyFilter (Some (JObj o)) (Some (json_clause c)) = Ok (eval_clause o c).
Proof.
  unfold applyFilter. cbn [r_members json_clause obind]. unfold eval_clause.
  induction c as [|[k c] l IH]; [done|]. cbn [map fmap list_fmap any_condition existsb fst snd].
  rewrite checkCondition_spec. cbn [obind]. by destruct (eval_cond o k c).
Qed.

Lemma clause_has c k : r_has (Some (json_clause c)) k
                       = Ok (match assoc k c with Some _ => true | None => false end).
Proof. unfold json_clause. rewrite r_has_obj, assoc_map. by destruct (assoc k c). Qed.

Lemma logical_loop_spec o op r cs :
  logical_loop (Some (JObj o)) op (Some r) (Some <$> map json_clause cs)
  = Ok (foldl op r (map (eval_clause o) cs)).
Proof.
  revert r. induction cs as [|c cs IH]; intros r; [done|].
  cbn [map fmap list_fmap logical_loop foldl]. rewrite applyFilter_spec. apply IH.
Qed.

Lemma forallb_ids {A} (f : A -> bool) l : forallb (fun b => b) (map f l) = forallb f l.
Proof. induction l as [|x l IH]; simpl; [done|by rewrite IH]. Qed.

Lemma existsb_ids {A} (f : A -> bool) l : existsb (fun b => b) (map f l) = existsb f l.
Proof. induction l as [|x l IH]; simpl; [done|by rewrite IH]. Qed.

Lemma foldl_andb r l : foldl andb r l = r && forallb (fun b => b) l.
Proof.
  revert r. induction l as [|b l IH]; intros r; simpl; [by rewrite andb_true_r|].
  by rewrite IH, andb_assoc.
Qed.

Lemma foldl_orb r l : foldl orb r l = r || existsb (fun b => b) l.
Proof.
  revert r. induction l as [|b l IH]; intros r; simpl; [by rewrite orb_false_r|].
  by rewrite IH, orb_assoc.
Qed.

(** C7: [ORM::validate] decides the meaning of a [where] filter: alternatives
    inside a clause, clauses joined by [and] or [or]; fields compare equal when
    they are scalars of the same type and value, and a missing field satisfies
    [neq] and [not_in] only. *)
Theorem validate_spec (o : list (string * json)) (f : filter_ast) :
  match f with FWhere c => assoc "and" c = None /\ assoc "or" c = None | _ => True end ->
  validate (Some (JObj o)) (Some (json_filter f)) = Ok (eval_filter o f).
Proof.
  intros Hf. unfold validate, json_filter. rewrite r_has_obj. unfold r_at at 1.
  cbn [assoc]. eval_keys. cbn [obind]. destruct f as [c|cs|cs].
  - destruct Hf as [Ha Ho]. rewrite !clause_has, Ha, Ho. cbn [obind].
    by rewrite applyFilter_spec.
  - rewrite r_has_obj. unfold r_at. cbn [assoc]. eval_keys. cbn [obind].
    unfold processLogicalOperator. cbn [r_elems obind].
    destruct cs as [|c cs]; [done|]. cbn [map fmap list_fmap logical_loop].
    rewrite applyFilter_spec. cbn [obind]. pose proof (logical_loop_spec o andb) as H.
    unfold fmap in H. rewrite H, foldl_andb. cbn [try_all eval_filter forallb].
    rewrite bool_decide_false by done. by rewrite forallb_ids.
  - rewrite !r_has_obj. unfold r_at. cbn [assoc]. eval_keys. cbn [obind].
    unfold processLogicalOperator. cbn [r_elems obind].
    destruct cs as [|c cs]; [done|]. cbn [map fmap list_fmap logical_loop].
    rewrite applyFilter_spec. cbn [obind]. pose proof (logical_loop_spec o orb) as H.
    unfold fmap in H. rewrite H, foldl_orb. cbn [try_all eval_filter existsb].
    by rewrite existsb_ids.
Qed.
End meaning.

(** ** Sorted queries *)

(** The comparison is a strict weak order on the elements of a list. *)
Definition strict_weak {A} (c : A -> A -> bool) (l : list A) : Prop :=
  (forall x, x ∈ l -> c x x = false) /\
  (forall x y z, x ∈ l -> y ∈ l -> z ∈ l -> c x y = true -> c y z = true -> c x z = true) /\
  (forall x y z, x ∈ l -> y ∈ l -> z ∈ l ->
     c x y = false -> c y x = false -> c y z = false -> c z y = false ->
     c x z = false /\ c z x = false).

Section sorting.
Context {plat : Platform}.

(** What the standard says of [std::sort]: a comparison that does not throw and
    is a strict weak order gives a sorted permutation. *)
Definition sort_law
    (std_sort : (rvalue -> rvalue -> outcome bool) -> list rvalue -> outcome (list rvalue)) : Prop :=
  forall cmp c l, (forall x y, x ∈ l -> y ∈ l -> cmp x y = Ok (c x y)) -> strict_weak c l ->
    exists l', std_sort cmp l = Ok l' /\ Permutation l' l /\
               StronglySorted (fun x y => c y x = false) l'.

(** The text a value is sorted by. *)
Definition sort_string (sorter : string) (x : rvalue) : option string :=
  match x with
  | Some (JObj ms) =>
      match assoc "value" ms with
      | Some (JObj o) =>
          match assoc sorter o with Some (JStr raw) => Some (unescape raw) | _ => None end
      | _ => None
      end
  | _ => None
  end.

Lemma sort_string_raw sorter x a : sort_string sorter x = Some a ->
  exists o, r_at x "value" = Ok (Some (JObj o)) /\ assoc sorter o = Some (JStr (raw_sort_text sorter x)) /\
    a = unescape (raw_sort_text sorter x).
Proof.
  unfold sort_string, raw_sort_text, r_at. destruct x as [[| | | | | |ms]|]; try done.
  destruct (assoc "value" ms) as [[| | | | | |o]|]; try done. cbn [obind].
  destruct (assoc sorter o) as [[| | | |raw| |]|] eqn:Es; try done. intros [= <-]. by exists o.
Qed.

Lemma comparer_alpha sorter x y a b st :
  sort_string sorter x = Some a -> sort_string sorter y = Some b ->
  comparer sorter x y st = compareAlpha st.
Proof.
  intros (o & Ho & Hs & _)%sort_string_raw (o' & Ho' & Hs' & _)%sort_string_raw.
  unfold comparer, try_runtime, lift, bind, ret. rewrite Ho, Ho'. unfold sortable. cbn [r_t type_of obind].
  rewrite !decide_True by done. rewrite !r_has_obj, Hs, Hs'.
  unfold r_at. rewrite Hs, Hs'. cbn [obind r_copy sort_type r_t type_of].
  cbn [bool_decide Z.eqb Z.compare]. by destruct st.
Qed.

(** A text without an escape is its own decoding. *)
Lemma unescape_plain raw : has_escape raw = false -> unescape raw = raw.
Proof.
  unfold has_escape. induction raw as [|c raw IH]; [done|]. cbn [find_char unescape].
  destruct (Ascii.eqb c BACKSLASH); [done|]. destruct (find_char BACKSLASH raw); [done|].
  intros _. by rewrite IH.
Qed.

Lemma str_take_self s : str_take (String.length s) s = s.
Proof. by apply str_take_all. Qed.

(** A decoded text is read from copies too, and stays as it is. *)
Lemma copy_decoded raw : copy_s (rt_unescape (loaded raw)) = (unescape raw, rt_unescape (loaded raw)).
Proof.
  unfold copy_s, rt_text, loaded, rt_unescape. cbn [rt_escaped rt_bytes rt_end].
  destruct (has_escape raw) eqn:E; cbn [rt_escaped rt_bytes rt_end].
  - by rewrite str_take_self, str_take_app.
  - by rewrite str_take_self, unescape_plain.
Qed.

(** What is read from a copy after another copy was decoded: the decoded text,
    the zero, and what was behind it. *)
Definition stale (raw : string) : string :=
  if has_escape raw
  then str_take (String.length raw)
         (unescape raw +:+ String NUL (str_drop (S (String.length (unescape raw))) raw))
  else raw.

Lemma copy_loaded raw : exists t, copy_s (loaded raw) = (unescape raw, t) /\ (copy_s t).1 = stale raw.
Proof.
  unfold copy_s, rt_text, loaded, rt_unescape, stale. cbn [rt_escaped rt_bytes rt_end].
  destruct (has_escape raw) eqn:E; cbn [rt_escaped rt_bytes rt_end].
  - rewrite str_take_self. eexists. split; [by rewrite str_take_app|done].
  - rewrite str_take_self. eexists. split; [by rewrite unescape_plain|]. cbn. apply str_take_self.
Qed.

Lemma comparer_decoded sorter x y a b :
  sort_string sorter x = Some a -> sort_string sorter y = Some b ->
  comparer sorter x y (decoded_text sorter x, decoded_text sorter y)
  = (Ok (sltb a b), (decoded_text sorter x, decoded_text sorter y)).
Proof.
  intros Hx Hy. rewrite (comparer_alpha sorter x y a b) by done.
  apply sort_string_raw in Hx as (_ & _ & _ & ->), Hy as (_ & _ & _ & ->).
  unfold compareAlpha, decoded_text, loaded_text. by rewrite !copy_decoded.
Qed.

Lemma comparer_loaded sorter x y a b :
  sort_string sorter x = Some a -> sort_string sorter y = Some b ->
  exists st, comparer sorter x y (loaded_text sorter x, loaded_text sorter y) = (Ok (sltb a b), st) /\
    (comparer sorter x y st).1 = Ok (sltb (stale (raw_sort_text sorter x)) (stale (raw_sort_text sorter y))).
Proof.
  intros Hx Hy. destruct (copy_loaded (raw_sort_text sorter x)) as (t & Ht & Hs).
  destruct (copy_loaded (raw_sort_text sorter y)) as (t' & Ht' & Hs').
  exists (t, t'). rewrite !(comparer_alpha sorter x y a b) by done.
  apply sort_string_raw in Hx as (_ & _ & _ & ->), Hy as (_ & _ & _ & ->).
  unfold compareAlpha, loaded_text. rewrite Ht, Ht'. split; [done|].
  destruct (copy_s t), (copy_s t'). cbn in *. by subst.
Qed.

Lemma slt_incomparable a b : sltb a b = false -> sltb b a = false -> a = b.
Proof. intros H1 H2. destruct (slt_total a b) as [H|[H|H]]; unfold slt in H; congruence. Qed.

Lemma comparer_strong (sorter : string) (l : list rvalue) :
  Forall (fun x => is_Some (sort_string sorter x)) l ->
  (forall x y, x ∈ l -> y ∈ l ->
     compare_printed sorter x y = Ok (sltb (default EmptyString (sort_string sorter x))
                                 (default EmptyString (sort_string sorter y)))) /\
  strict_weak (fun x y => sltb (default EmptyString (sort_string sorter x))
                               (default EmptyString (sort_string sorter y))) l.
Proof.
  intros Hl. rewrite Forall_forall in Hl. split; [|split_and!].
  - intros x y Hx Hy. destruct (Hl x Hx) as [a Ha], (Hl y Hy) as [b Hb].
    unfold compare_printed. rewrite (comparer_decoded sorter x y a b) by done. by rewrite Ha, Hb.
  - intros x _. destruct (sltb _ _) eqn:E; [|done]. by apply slt_irrefl in E.
  - intros x y z _ _ _. apply slt_trans.
  - intros x y z _ _ _ H1 H2 H3 H4.
    pose proof (slt_incomparable _ _ H1 H2) as E1. pose proof (slt_incomparable _ _ H3 H4) as E2.
    rewrite <- E2 in H3 |- *. rewrite <- E1 in *. by split.
Qed.

Lemma compare_mixed sorter n :
  let v j := Some (JObj [("value", JObj [(sorter, j)])]) in
  let cmp j1 j2 := compare_printed sorter (v j1) (v j2) in
  cmp (JStr "a") (JStr "b") = Ok true /\
  cmp (JStr "a") (JNum n) = Ok false /\ cmp (JNum n) (JStr "a") = Ok false /\
  cmp (JStr "b") (JNum n) = Ok false /\ cmp (JNum n) (JStr "b") = Ok false.
Proof.
  intros v cmp. subst cmp. unfold compare_printed. split.
  - assert (forall s, unescape s = s -> sort_string sorter (v (JStr s)) = Some s) as H.
    { intros s E. unfold sort_string, v. cbn [assoc]. eval_keys. cbn [assoc]. eval_keys. by rewrite E. }
    by rewrite (comparer_decoded sorter _ _ "a" "b") by by apply H.
  - unfold v, comparer, try_runtime, lift, bind, ret, r_at. cbn [assoc]. eval_keys. cbn [obind].
    unfold sortable. cbn [r_t type_of obind]. rewrite !decide_True by done.
    rewrite !r_has_obj. cbn [assoc]. rewrite !decide_True by done. by split_and!.
Qed.

(** C40: on values that have texts under the sort field, and that were asked for
    them before, the comparison is the order of the decoded texts, a strict weak
    order, and changes no text.  On values as they were loaded this holds for
    the first comparison only: it decodes the texts in the buffers of copies,
    and the second one reads the zero and the bytes behind the decoded text too.
    On two texts and a number the comparison is not the strict weak order that
    [std::sort] requires. *)
Theorem comparer_order (sorter : string) (l : list rvalue) :
  Forall (fun x => is_Some (sort_string sorter x)) l ->
  let key x := default EmptyString (sort_string sorter x) in
  (forall x y, x ∈ l -> y ∈ l ->
     let texts := (decoded_text sorter x, decoded_text sorter y) in
     comparer sorter x y texts = (Ok (sltb (key x) (key y)), texts) /\
     exists st, comparer sorter x y (loaded_text sorter x, loaded_text sorter y) = (Ok (sltb (key x) (key y)), st) /\
       (comparer sorter x y st).1
       = Ok (sltb (stale (raw_sort_text sorter x)) (stale (raw_sort_text sorter y)))) /\
  strict_weak (fun x y => sltb (key x) (key y)) l /\
  (forall n c,
     let v j := Some (JObj [("value", JObj [(sorter, j)])]) in
     let mixed := [v (JStr "a"); v (JNum n); v (JStr "b")] in
     (forall x y, x ∈ mixed -> y ∈ mixed -> compare_printed sorter x y = Ok (c x y)) ->
     ~ strict_weak c mixed).
Proof.
  intros Hl key. destruct (comparer_strong sorter l Hl) as [_ H2]. split; [|split; [done|]].
  - rewrite Forall_forall in Hl. intros x y Hx Hy. destruct (Hl x Hx) as [a Ha], (Hl y Hy) as [b Hb].
    unfold key. rewrite Ha, Hb. split; [by apply comparer_decoded|by apply comparer_loaded].
  - intros n c v mixed Hc (_ & _ & Hweak).
    destruct (compare_mixed sorter n) as (Hab & H1 & H3 & H4 & H5).
    assert (v (JStr "a") ∈ mixed /\ v (JNum n) ∈ mixed /\ v (JStr "b") ∈ mixed) as (Ma & Mn & Mb)
      by (split_and!; apply list_elem_of_In; cbn; tauto).
    assert (forall x y r, x ∈ mixed -> y ∈ mixed -> compare_printed sorter x y = Ok r -> c x y = r) as Hr
      by (intros x y r Hx Hy E; rewrite (Hc x y Hx Hy) in E; by injection E).
    apply (Hr _ _ _ Ma Mb) in Hab. apply (Hr _ _ _ Ma Mn) in H1. apply (Hr _ _ _ Mn Ma) in H3.
    apply (Hr _ _ _ Mb Mn) in H4. apply (Hr _ _ _ Mn Mb) in H5.
    destruct (Hweak _ _ _ Ma Mn Mb H1 H3 H5 H4) as [H _]. by rewrite Hab in H.
Qed.
End sorting.

Lemma c_str_c_str s : c_str (c_str s) = c_str s.
Proof. apply c_str_id, c_str_no_nul. Qed.

Lemma wild_match_c_str wild key : wild_match wild (c_str key) = wild_match wild key.
Proof. unfold wild_match. by rewrite c_str_c_str. Qed.

Section sorted_query.
Context {plat : Platform} {R : RocksDB} {RL : RocksDBLaws}.

(** The object a hit is collected as. *)
Definition hit_json (kv : string * string) : option json :=
  load (sorted_text (c_str kv.1) kv.2).

(** Whether the filter keeps it. *)
Definition passes (filter : string) (j : json) : outcome bool :=
  match load filter with
  | None => Ok true
  | Some f => let? v := r_at (Some j) "value" in validate v (Some f)
  end.

(** A hit that goes through without an exception: it is an object of a key and
    a value, both of which convert, and the filter, if any, decides. *)
Definition clean_hit (filter : string) (kv : string * string) : Prop :=
  exists ms wv wk,
    hit_json kv = Some (JObj ms) /\ is_ok (wvalue_of_json (JObj ms)) = true /\
    (let? v := r_at (Some (JObj ms)) "value" in to_wvalue v) = Ok wv /\
    (let? k := r_at (Some (JObj ms)) "key" in to_wvalue k) = Ok wk /\
    is_ok (passes filter (JObj ms)) = true.

(** A filter that is not given, or that is JSON text. *)
Definition clean_filter (filter : string) : Prop :=
  filter = EmptyString \/ is_ok (to_wvalue (load filter)) = true.

(** The hits the filter keeps, as the objects that are sorted. *)
Definition kept (filter : string) (kv : string * string) : list rvalue :=
  match hit_json kv with
  | Some j => match passes filter j with Ok true => [Some j] | _ => [] end
  | None => []
  end.

(** What an object of the page contributes. *)
Definition sorted_entry (x : rvalue) : list wvalue :=
  match (let? v := r_at x "value" in to_wvalue v), (let? k := r_at x "key" in to_wvalue k) with
  | Ok wv, Ok wk => [WObj [("value", wv); ("key", wk)]]
  | _, _ => []
  end.

Lemma collect_hit_clean filter kv s :
  clean_filter filter -> clean_hit filter kv ->
  collect_hit filter (c_str kv.1) kv.2 s
  = Ok {| s_ret := s_ret s; s_sortable := s_sortable s; s_all := s_all s ++ kept filter kv |}.
Proof.
  intros Hf (ms & wv & wk & Hj & Hc & Hv & Hk & Hp).
  unfold collect_hit, kept, passes in *. unfold hit_json in *. rewrite Hj.
  cbn [r_t type_of obind]. rewrite decide_True by done. cbn [to_wvalue].
  assert (exists x, (if (0 <? Z.of_nat (String.length filter))%Z
            then to_wvalue (load filter) else Ok WNull) = Ok x) as [x ->].
  { destruct Hf as [->|Hf]; [by eexists|]. destruct (_ <? _)%Z; [|by eexists].
    destruct (to_wvalue (load filter)); try done. by eexists. }
  cbn [obind]. destruct (wvalue_of_json (JObj ms)) as [wj| | |]; try done.
  destruct (load filter) as [f|]; cbn [obind].
  - destruct (r_at (Some (JObj ms)) "value") as [v| | |]; try done. cbn [obind] in *.
    destruct (validate v (Some f)) as [[]| | |]; try done.
    destruct s; cbn. by rewrite app_nil_r.
  - done.
Qed.

Lemma collect_all wild filter l s :
  clean_filter filter -> Forall (clean_hit filter) (filterb (fun kv => wild_match wild kv.1) l) ->
  for_each (collect_turn wild filter) l s
  = (Ok tt, {| s_ret := s_ret s; s_sortable := s_sortable s;
               s_all := s_all s ++ flat_map (kept filter)
                          (filterb (fun kv => wild_match wild kv.1) l) |}).
Proof.
  intros Hf. revert s. induction l as [|kv l IH]; intros s Hc; cbn [for_each].
  { destruct s; cbn. by rewrite app_nil_r. }
  rewrite filter_cons in Hc |- *. unfold bind, collect_turn at 1. rewrite wild_match_c_str.
  destruct (wild_match wild kv.1).
  - rewrite decide_True in Hc |- * by done. apply Forall_cons in Hc as [Hkv Hc].
    rewrite collect_hit_clean by done. rewrite IH by done. cbn. by rewrite <- app_assoc.
  - rewrite decide_False in Hc |- * by done. unfold ret. by apply IH.
Qed.

Lemma sorted_emit_all l rs :
  Forall (fun x => sorted_entry x <> []) l ->
  for_all sorted_emit l rs = (Ok tt, rs ++ flat_map sorted_entry l).
Proof.
  intros H. revert rs. induction H as [|x l Hx _ IH]; intros rs; cbn [for_all flat_map].
  { by rewrite app_nil_r. }
  assert (sorted_emit x rs = (Ok tt, rs ++ sorted_entry x)) as E.
  { unfold sorted_emit, try_runtime, lift, bind, sorted_entry in *.
    destruct (let? v := r_at x "value" in to_wvalue v) as [wv| | |]; try done.
    by destruct (let? k := r_at x "key" in to_wvalue k). }
  unfold bind. rewrite E, IH. by rewrite <- app_assoc.
Qed.

Lemma kept_entry filter kv x : clean_hit filter kv -> x ∈ kept filter kv -> sorted_entry x <> [].
Proof.
  intros (ms & wv & wk & Hj & _ & Hv & Hk & _). unfold kept. rewrite Hj.
  destruct (passes filter (JObj ms)) as [[]| | |]; try (by intros ?%not_elem_of_nil).
  intros ->%list_elem_of_singleton. unfold sorted_entry. by rewrite Hv, Hk.
Qed.

Lemma kept_length filter l : length (flat_map (kept filter) l) <= length l.
Proof.
  induction l as [|kv l IH]; [done|]. cbn [flat_map]. rewrite length_app. cbn [length].
  assert (length (kept filter kv) <= 1); [|lia]. unfold kept.
  destruct (hit_json kv); [|simpl; lia]. by destruct (passes filter j) as [[]| | |]; simpl; lia.
Qed.

(** [getSorted] answers with a page, from either end, of the hits the
    filter keeps, in the order of the texts of the sort field. *)
Theorem getSorted_page (fuel : nat) std_sort (w : world) (d : DB) (wild sortby filter : string)
    (ascending : bool) (skip limit : Z) (rs : list wvalue) :
  query_ok fuel w d skip limit -> sort_law std_sort -> leading_star wild = false ->
  sortby <> EmptyString -> clean_filter filter ->
  Forall (clean_hit filter) (hits wild (contents d)) ->
  let all := flat_map (kept filter) (hits wild (contents d)) in
  Forall (fun x => is_Some (sort_string sortby x)) all ->
  exists sorted, Permutation sorted all /\
    StronglySorted (fun x y => sltb (default EmptyString (sort_string sortby y))
                                    (default EmptyString (sort_string sortby x)) = false) sorted /\
    getSorted fuel std_sort w wild sortby ascending skip limit filter rs
    = (Ok true, rs ++ flat_map sorted_entry
                  (page skip limit (if ascending then sorted else reverse sorted))).
Proof.
  intros Hok Hlaw Hls Hsb Hf Hc all Hall. pose proof Hok as ([Hd Hs] & Hfu & Hlen & Hw).
  destruct (comparer_strong sortby all Hall) as [Hcmp Hsw].
  destruct (Hlaw _ _ _ Hcmp Hsw) as (sorted & Hsort & Hperm & Hord).
  exists sorted. split_and!; [done..|]. unfold getSorted.
  rewrite (query_opened fuel w d skip limit Hok), Hls.
  rewrite (prefix_loop_list fuel w d skip limit Hok).
  rewrite collect_all; [|done|by rewrite hits_filter].
  rewrite hits_filter. cbn [s_ret s_sortable s_all app]. fold all. unfold bind at 1, lift at 1.
  assert ((0 <? Z.of_nat (String.length sortby))%Z = true) as ->.
  { destruct sortby; [done|]. apply Z.ltb_lt. cbn [String.length]. lia. }
  unfold bind at 1, lift at 1. rewrite Hsort. unfold bind.
  set (l := if ascending then sorted else reverse sorted).
  assert (Permutation l all) as Hl.
  { unfold l. destruct ascending; [done|]. by rewrite reverse_Permutation. }
  assert (Z.of_nat (length l) <= INT_MAX)%Z as Hll.
  { rewrite (Permutation_length Hl). unfold all.
    etrans; [|apply (filterb_fits fuel w d skip limit Hok (hit wild))].
    apply inj_le, kept_length. }
  pose proof (paged_loop_page skip limit (fun _ => true) sorted_emit l rs Hw Hll) as Hpg.
  rewrite filter_every in Hpg by by apply Forall_true.
  change (tested_body skip limit (fun _ => true) sorted_emit)
    with (paged_body skip limit sorted_emit) in Hpg.
  rewrite Hpg, sorted_emit_all; [by rewrite Hs|].
  apply Forall_forall. intros x Hx%page_incl.
  rewrite Hl in Hx. unfold all in Hx. apply list_elem_of_In, in_flat_map in Hx as (kv & Hkv & Hx).
  apply list_elem_of_In in Hkv, Hx. eapply kept_entry; [|exact Hx].
  by eapply Forall_forall in Hc.
Qed.
End sorted_query.

(** ** A sort that satisfies the law *)

Section insertion.
Context {plat : Platform} (cmp : rvalue -> rvalue -> outcome bool).

Fixpoint insert_sorted (x : rvalue) (l : list rvalue) : outcome (list rvalue) :=
  match l with
  | [] => Ok [x]
  | y :: l' =>
      let? b := cmp x y in
      if b : bool then Ok (x :: l) else let? l' := insert_sorted x l' in Ok (y :: l')
  end.

Fixpoint insertion_sort (l : list rvalue) : outcome (list rvalue) :=
  match l with
  | [] => Ok []
  | x :: l => let? l := insertion_sort l in insert_sorted x l
  end.

Context (c : rvalue -> rvalue -> bool) (L : list rvalue).
Hypothesis Hcmp : forall x y, x ∈ L -> y ∈ L -> cmp x y = Ok (c x y).
Hypothesis Hirr : forall x, x ∈ L -> c x x = false.
Hypothesis Htrans :
  forall x y z, x ∈ L -> y ∈ L -> z ∈ L -> c x y = true -> c y z = true -> c x z = true.

Let below (x y : rvalue) : Prop := c y x = false.

Lemma insert_sorted_ok x l :
  x ∈ L -> Forall (fun y => y ∈ L) l -> StronglySorted below l ->
  exists l', insert_sorted x l = Ok l' /\ Permutation l' (x :: l) /\ StronglySorted below l'.
Proof.
  intros Hx Hl Hs. induction Hs as [|y l Hs IH Hy]; cbn [insert_sorted].
  { exists [x]. split_and!; [done|done|repeat constructor]. }
  apply Forall_cons in Hl as [HyL Hl]. rewrite Hcmp by done. cbn [obind].
  destruct (c x y) eqn:E.
  - exists (x :: y :: l). split_and!; [done..|]. constructor; [by constructor|].
    apply Forall_forall. intros z Hz. unfold below.
    destruct (c z x) eqn:Ez; [|done]. exfalso.
    apply elem_of_cons in Hz as [->|Hz].
    + pose proof (Htrans _ _ _ Hx HyL Hx E Ez) as H. by rewrite Hirr in H.
    + rewrite Forall_forall in Hy, Hl. pose proof (Htrans _ _ _ (Hl _ Hz) Hx HyL Ez E) as H.
      specialize (Hy z Hz). unfold below in Hy. congruence.
  - destruct (IH Hl) as (l' & -> & Hp & Hs'). exists (y :: l'). split_and!; [done| |].
    + rewrite Hp. apply Permutation_swap.
    + constructor; [done|]. rewrite Hp. by constructor.
Qed.

Lemma insertion_sort_ok l : Forall (fun y => y ∈ L) l ->
  exists l', insertion_sort l = Ok l' /\ Permutation l' l /\ StronglySorted below l'.
Proof.
  induction 1 as [|x l Hx Hl (l' & Hr & Hp & Hs)]; cbn [insertion_sort].
  { exists []. split_and!; [done..|constructor]. }
  rewrite Hr. cbn [obind]. destruct (insert_sorted_ok x l' Hx) as (l2 & H2 & Hp2 & Hs2); [|done|].
  { by rewrite Hp. }
  exists l2. split_and!; [done| |done]. by rewrite Hp2, Hp.
Qed.
End insertion.

Lemma insertion_sort_law {plat : Platform} : sort_law insertion_sort.
Proof.
  intros cmp c l Hcmp (Hirr & Htr & _).
  destruct (insertion_sort_ok cmp c l Hcmp Hirr Htr l) as (l' & Hr & Hp & Hs).
  { by apply Forall_forall. }
  by exists l'.
Qed.

Section orm_witnesses.
Import Demo.

Theorem validate_spec_witness :
  let o := [("kind", JStr "pickup"); ("n", JNum "3")] in
  validate (Some (JObj o)) (Some (json_filter
    (FAnd [[("kind", CEqAny [JStr "pickup"; JStr "home"])]; [("n", CNeq (JNum "3")); ("m", CNeq JTrue)]])))
  = Ok true /\
  validate (Some (JObj o)) (Some (json_filter (FWhere [("n", CNotIn [JNum "3"])]))) = Ok false.
Proof.
  intros o. split.
  - rewrite (validate_spec o (FAnd [[("kind", CEqAny [JStr "pickup"; JStr "home"])];
      [("n", CNeq (JNum "3")); ("m", CNeq JTrue)]])); [reflexivity|exact I].
  - rewrite (validate_spec o (FWhere [("n", CNotIn [JNum "3"])])); [reflexivity|done].
Defined.

(** The text of the second value, decoded, is that of the first. *)
Definition sorted_by (raw : string) : rvalue := Some (JObj [("value", JObj [("f", JStr raw)])]).
Definition plain_a : rvalue := sorted_by "aA".
Definition escaped_a : rvalue := sorted_by ("a" +:+ String BACKSLASH "u0041").

Theorem comparer_order_witness :
  comparer "f" plain_a escaped_a (decoded_text "f" plain_a, decoded_text "f" escaped_a)
  = (Ok false, (decoded_text "f" plain_a, decoded_text "f" escaped_a)) /\
  exists st, comparer "f" plain_a escaped_a (loaded_text "f" plain_a, loaded_text "f" escaped_a) = (Ok false, st) /\
    (comparer "f" plain_a escaped_a st).1 = Ok true.
Proof.
  destruct (comparer_order "f" [plain_a; escaped_a]) as (H & _); [repeat constructor; by eexists|].
  destruct (H plain_a escaped_a) as (H1 & st & H2 & H3);
    [by apply list_elem_of_In; left|by apply list_elem_of_In; right; left|].
  split; [exact H1|]. exists st. split; [exact H2|exact H3].
Defined.

(** Two users whose names are in the other order. *)
Definition users_d : DB :=
  [("u2", Some (q "{`name`:`al`}")); ("u1", Some (q "{`name`:`bo`}")); ("z", Some "0")].

Lemma users_clean : Forall (clean_hit "") (hits "u*" (contents users_d)).
Proof.
  constructor; [|constructor; [|constructor]]; eexists _, _, _; split_and!; reflexivity.
Qed.

Theorem getSorted_page_witness :
  exists sorted, Permutation sorted (flat_map (kept "") (hits "u*" (contents users_d))) /\
    getSorted 10 insertion_sort (set_db users_d w) "u*" "name" true 0 (-1) "" []
    = (Ok true, [] ++ flat_map sorted_entry (page 0 (-1) sorted)).
Proof.
  destruct (getSorted_page 10 insertion_sort (set_db users_d w) users_d "u*" "name" "" true 0 (-1) [])
    as (sorted & Hp & _ & Hr).
  - split; [by split|]. split; [vm_compute; lia|]. split; [vm_compute; discriminate|].
    apply (bool_decide_eq_true_1 (window_ok 0 (-1))). reflexivity.
  - apply insertion_sort_law.
  - reflexivity.
  - done.
  - by left.
  - apply users_clean.
  - repeat constructor; by eexists.
  - exists sorted. split; [exact Hp|exact Hr].
Defined.
End orm_witnesses.
