(* ===== verification/Threads.v ===== *)
(** * Queries on several threads

    [Core::getKeysMulti] and [getKeysInThread] (src/src/quarks.cpp): workers
    that share the index of the next pattern, the number of hits counted, the
    flag that ends the query, the result and the vector of matches.  A worker
    is the point it has reached; one of its steps reads or writes the shared
    variables once; an execution interleaves the steps of the workers in any
    order. *)

From stdpp Require Import relations.
From S2P Require Import Prelude SortedMap Wildcmp Json Store World Scan CoreRead.
Local Open Scope quarks_scope.

(** ** The workers *)

Section workers.
Context {plat : Platform} {R : RocksDB}.

(** The atomics of [getKeysMulti] and the caller's vector. *)
Record shared := {
  wildIndex : Z;
  atomic_index : Z;
  exit_ : bool;
  ret_ : bool;
  matchedResults : list wvalue
}.

Definition set_wildIndex n s := {| wildIndex := n; atomic_index := atomic_index s;
  exit_ := exit_ s; ret_ := ret_ s; matchedResults := matchedResults s |}.
Definition set_atomic_index n s := {| wildIndex := wildIndex s; atomic_index := n;
  exit_ := exit_ s; ret_ := ret_ s; matchedResults := matchedResults s |}.
Definition set_exit s := {| wildIndex := wildIndex s; atomic_index := atomic_index s;
  exit_ := true; ret_ := ret_ s; matchedResults := matchedResults s |}.
Definition set_ret b s := {| wildIndex := wildIndex s; atomic_index := atomic_index s;
  exit_ := exit_ s; ret_ := b; matchedResults := matchedResults s |}.
Definition push r s := {| wildIndex := wildIndex s; atomic_index := atomic_index s;
  exit_ := exit_ s; ret_ := ret_ s; matchedResults := matchedResults s ++ [r] |}.

(** Where a worker stands: before [++wildIndex]; before the pattern is
    extracted; before [ret] is read; before the call of [getKeysInThread]; at
    the head of its loop, with its iterator and its local [ret]; before
    [++atomic_index]; with objects left to push for the hit numbered [i];
    before the test of the upper bound; before the result is stored in [ret];
    at the end; or ended by an exception no handler takes. *)
Inductive worker :=
  | AtFetch
  | AtExtract (wildIndx : Z)
  | AtRead (wild : string)
  | AtCall (wild : string)
  | AtLoop (wild : string) (it : Iter) (ret : bool)
  | AtCount (wild : string) (it : Iter) (ret : bool)
  | AtPush (wild : string) (it : Iter) (ret : bool) (i : Z) (ws : list wvalue)
  | AtBound (wild : string) (it : Iter) (ret : bool) (i : Z)
  | AtStore (b : bool)
  | Finished
  | Crashed (o : outcome unit).

Context (w : world) (skip limit : Z) (x : rvalue) (wildSize : Z).

(** The pattern with an index: [x\[wildIndx\].s()]. *)
Definition extract (wildIndx : Z) : outcome string :=
  let? r := r_index x wildIndx in r_s r.

(** The entry an iterator stands on. *)
Definition entry (it : Iter) : string * string := (it_key it, it_value it).

(** [getKeysInThread] from the head of its loop on, one shared access a step. *)
Definition loop_step (s : shared) (wild : string) (it : Iter) (ret : bool) : worker :=
  if it_Valid it && starts_with (wild_prefix wild) (it_key it) then
    if exit_ s then AtStore (ret && dbStatus_ok w)
    else if wild_match wild (it_key it) then AtCount wild it ret
    else AtLoop wild (it_Next it) ret
  else AtStore (ret && dbStatus_ok w).

Definition count_step (s : shared) (wild : string) (it : Iter) (ret : bool) : shared * worker :=
  let i := int32 (atomic_index s + 1) in
  (set_atomic_index i s,
   if in_window skip limit i then
     match keyed_entry (entry it) with
     | Ok (good, ws) => AtPush wild it (ret && good) i ws
     | Throw e => Crashed (Throw e)
     | Undef => Crashed Undef
     | Fuel => Crashed Fuel
     end
   else AtBound wild it ret i).

Definition bound_step (s : shared) (wild : string) (it : Iter) (ret : bool) (i : Z)
    : shared * worker :=
  if past_window skip limit i then (set_exit s, AtStore (ret && dbStatus_ok w))
  else (s, AtLoop wild (it_Next it) ret).

(** The start of [getKeysInThread]. *)
Definition call_step (wild : string) : worker :=
  if dbStatus_ok w then
    if leading_star wild then AtStore false
    else match db w with
         | Some d => AtLoop wild (it_Seek (NewIterator d) (wild_prefix wild)) true
         | None => Crashed Undef
         end
  else AtStore (true && dbStatus_ok w).

(** One step of a worker; [None] when it has ended. *)
Definition worker_step (s : shared) (t : worker) : option (shared * worker) :=
  match t with
  | AtFetch =>
      let wildIndx := int32 (wildIndex s + 1) in
      Some (set_wildIndex wildIndx s,
            if (wildIndx <? wildSize)%Z then AtExtract wildIndx else Finished)
  | AtExtract wildIndx =>
      Some (s, match extract wildIndx with
               | Ok wild => AtRead wild
               | Throw (RuntimeError _) => AtStore false
               | Throw e => Crashed (Throw e)
               | Undef => Crashed Undef
               | Fuel => Crashed Fuel
               end)
  | AtRead wild => Some (s, if ret_ s then AtCall wild else AtStore false)
  | AtCall wild => Some (s, call_step wild)
  | AtLoop wild it ret => Some (s, loop_step s wild it ret)
  | AtCount wild it ret => Some (count_step s wild it ret)
  | AtPush wild it ret i (r :: ws) => Some (push r s, AtPush wild it ret i ws)
  | AtPush wild it ret i [] => Some (s, AtBound wild it ret i)
  | AtBound wild it ret i => Some (bound_step s wild it ret i)
  | AtStore b => Some (set_ret b s, AtFetch)
  | Finished | Crashed _ => None
  end.

(** ** Executions *)

Definition threads : Type := shared * list worker.

Inductive step : threads -> threads -> Prop :=
  | step_worker s before t after s' t' :
      worker_step s t = Some (s', t') ->
      step (s, before ++ t :: after) (s', before ++ t' :: after).

(** The steps of the workers with these numbers, in this order. *)
Fixpoint schedule (l : list nat) (c : threads) : threads :=
  match l with
  | [] => c
  | n :: l =>
      schedule l
        match c.2 !! n with
        | Some t => match worker_step c.1 t with
                    | Some (s, t) => (s, <[n := t]> c.2)
                    | None => c
                    end
        | None => c
        end
  end.

Definition start (numWorkers : nat) (rs : list wvalue) : threads :=
  ({| wildIndex := -1; atomic_index := -1; exit_ := false; ret_ := true;
      matchedResults := rs |}, replicate numWorkers AtFetch).
End workers.

(** [getKeysMulti(wilds)] may return [b] with these results: the list of
    patterns cannot be read, or an execution in which every worker ends. *)
Inductive getKeysMulti_returns `{plat : Platform} {R : RocksDB} (numWorkers : nat) (w : world)
    (wilds : string) (skip limit : Z) (rs : list wvalue) : bool -> list wvalue -> Prop :=
  | multi_refused e :
      r_size (load wilds) = Throw (RuntimeError e) ->
      getKeysMulti_returns numWorkers w wilds skip limit rs false rs
  | multi_joined n s ts :
      r_size (load wilds) = Ok n ->
      rtc (step w skip limit (load wilds) (int32 n)) (start numWorkers rs) (s, ts) ->
      Forall (fun t => t = Finished) ts ->
      getKeysMulti_returns numWorkers w wilds skip limit rs (ret_ s) (matchedResults s).

(** ** An invariant of all interleavings *)

Lemma flat_map_permutation {A B} (f : A -> list B) before t after :
  flat_map f (before ++ t :: after) ≡ₚ f t ++ flat_map f (before ++ after).
Proof. rewrite !flat_map_app. simpl. apply Permutation_app_swap_app. Qed.

Lemma windowed_snoc {X} skip limit i (l : list X) y :
  windowed skip limit i (l ++ [y])
  = windowed skip limit i l ++ (if in_window skip limit (i + Z.of_nat (length l)) then [y] else []).
Proof.
  revert i. induction l as [|z l IH]; intros i; simpl.
  { rewrite Z.add_0_r. by destruct (in_window skip limit i). }
  rewrite IH. replace (i + 1 + Z.of_nat (length l))%Z with (i + Z.pos (Pos.of_succ_nat (length l)))%Z
    by lia. by destruct (in_window skip limit i).
Qed.

(** The length of a page is a matter of the length of the list, and past the
    window of the window alone. *)
Lemma page_length_eq {X Y} skip limit (l : list X) (k : list Y) :
  length l = length k -> length (page skip limit l) = length (page skip limit k).
Proof.
  intros H. unfold page. destruct (limit =? -1)%Z; by rewrite ?length_take, !length_drop, H.
Qed.

Lemma page_length_past {X Y} skip limit (l : list X) (k : list Y) : limit <> (-1)%Z ->
  (skip + limit < Z.of_nat (length l))%Z -> (skip + limit < Z.of_nat (length k))%Z ->
  length (page skip limit l) = length (page skip limit k).
Proof.
  intros Hl H1 H2. unfold page. destruct (Z.eqb_spec limit (-1)); [done|].
  rewrite !length_take, !length_drop. lia.
Qed.

Lemma page_submseteq {X} skip limit (l : list X) : page skip limit l ⊆+ l.
Proof.
  unfold page. destruct (limit =? -1)%Z; [apply sublist_submseteq, sublist_drop|].
  apply sublist_submseteq. etrans; [apply sublist_take|apply sublist_drop].
Qed.

Section interleaving.
Context {plat : Platform} {R : RocksDB} {RL : RocksDBLaws}.
Context (w : world) (d : DB) (skip limit : Z) (x : rvalue) (pats : list string).
Context (numWorkers : nat) (rs : list wvalue).
Let m : smap string := contents d.
Let wildSize : Z := Z.of_nat (length pats).

(** All hits of all patterns, in the order of the patterns. *)
Definition all_hits : list (string * string) := flat_map (fun p => hits p m) pats.

(** The database is open, every pattern can be read and is accepted, every
    value can be read, and the counters stay within the range of [int]. *)
Record multi_ok : Prop := {
  mo_opened : opened w d;
  mo_window : window_ok skip limit;
  mo_extract n p : pats !! n = Some p -> extract x (Z.of_nat n) = Ok p;
  mo_patterns : Forall (fun p => leading_star p = false) pats;
  mo_values : Forall (fun kv => loads kv = true) m;
  mo_hits : (Z.of_nat (length all_hits) <= INT_MAX)%Z;
  mo_size : (wildSize + Z.of_nat numWorkers <= INT_MAX)%Z
}.
Hypothesis Hok : multi_ok.

(** The hits a loop still meets from its iterator on. *)
Definition ahead (wild : string) (it : Iter) : list (string * string) :=
  filterb (fun kv => wild_match wild kv.1)
    (take_while (fun kv => starts_with (wild_prefix wild) kv.1) (fwd it)).

(** The hits a worker has still to count, the objects it has still to push. *)
Definition todo (t : worker) : list (string * string) :=
  match t with
  | AtExtract n => match pats !! Z.to_nat n with Some p => hits p m | None => [] end
  | AtRead p | AtCall p => hits p m
  | AtLoop p it _ | AtCount p it _ => ahead p it
  | AtPush p it _ _ _ | AtBound p it _ _ => ahead p (it_Next it)
  | _ => []
  end.
Definition pending (t : worker) : list wvalue :=
  match t with AtPush _ _ _ _ ws => ws | _ => [] end.
Definition fin (t : worker) : list unit := match t with Finished => [tt] | _ => [] end.

(** What holds of a worker whatever the others do. *)
Definition worker_ok (s : shared) (t : worker) : Prop :=
  match t with
  | AtFetch => True
  | AtExtract n => (0 <= n < wildSize)%Z
  | AtRead p | AtCall p => leading_star p = false
  | AtLoop _ it r => snapshot it = m /\ r = true
  | AtCount p it r => snapshot it = m /\ r = true /\ it_Valid it = true /\
      starts_with (wild_prefix p) (it_key it) = true /\ wild_match p (it_key it) = true
  | AtPush _ it r i _ | AtBound _ it r i =>
      snapshot it = m /\ r = true /\ it_Valid it = true /\ (i <= atomic_index s)%Z
  | AtStore b => b = true
  | Finished => (wildSize - 1 <= wildIndex s)%Z
  | Crashed _ => False
  end.

Lemma worker_ok_mono s s' t :
  (wildIndex s <= wildIndex s')%Z -> (atomic_index s <= atomic_index s')%Z ->
  worker_ok s t -> worker_ok s' t.
Proof. destruct t; simpl; intuition lia. Qed.

(** The hits of the patterns not fetched yet. *)
Definition unfetched (s : shared) : list (string * string) :=
  flat_map (fun p => hits p m) (drop (Z.to_nat (wildIndex s + 1)) pats).

(** The hit at the upper bound has been counted. *)
Definition passed (s : shared) : Prop :=
  limit <> (-1)%Z /\ (skip + limit <= atomic_index s)%Z.

(** [cs] are the hits in the order they were counted, [rem] the hits the
    workers have still to count, [pend] the objects still to be pushed. *)
Record inv (s : shared) (cs rem : list (string * string)) (pend : list wvalue)
    (fins : list unit) : Prop := {
  inv_counted : Z.of_nat (length cs) = (atomic_index s + 1)%Z;
  inv_fetched : (-1 <= wildIndex s <= wildSize - 1 + Z.of_nat (length fins))%Z;
  inv_exit : exit_ s = true -> passed s;
  inv_sub : cs ++ unfetched s ++ rem ⊆+ all_hits;
  inv_none_lost : passed s \/ length all_hits <= length (cs ++ unfetched s ++ rem);
  inv_results : matchedResults s ++ pend ≡ₚ rs ++ flat_map keyed_entries (page skip limit cs);
  inv_ret : ret_ s = true
}.

#[export] Instance inv_proper s cs :
  Proper ((≡ₚ) ==> (≡ₚ) ==> (≡ₚ) ==> iff) (inv s cs).
Proof.
  intros r r' Hr p p' Hp f f' Hf.
  split; intros []; constructor; rewrite ?Hr, ?Hp, ?Hf in *;
    rewrite <- ?Hr, <- ?Hp, <- ?Hf in *; done.
Qed.

Lemma snapshot_Next it : it_Valid it = true -> snapshot (it_Next it) = snapshot it.
Proof.
  rewrite Valid_law. intros [i Hi]%bool_decide_eq_true. by destruct (Next_law it i Hi).
Qed.

(** The entry a valid iterator stands on can be read. *)
Lemma entry_loads it : snapshot it = m -> it_Valid it = true ->
  keyed_entry (entry it) = Ok (true, keyed_entries (entry it)).
Proof.
  intros Hm. rewrite Valid_law. intros [i Hi]%bool_decide_eq_true.
  pose proof (entry_law it i Hi) as He. rewrite Hm in He. apply list_elem_of_lookup_2 in He.
  pose proof (mo_values Hok) as Hv. rewrite Forall_forall in Hv. apply Hv in He. clear Hv.
  change (loads (entry it) = true) in He. rewrite keyed_entry_castable, He; [done|].
  intros E. unfold loads in He. by rewrite E in He.
Qed.

(** What lies ahead of an iterator. *)
Lemma ahead_end p it :
  it_Valid it && starts_with (wild_prefix p) (it_key it) = false -> ahead p it = [].
Proof.
  unfold ahead. destruct (fwd_cases it) as [[Hv ->]|[Hv ->]]; rewrite Hv; [done|].
  simpl. by intros ->.
Qed.

Lemma ahead_entry p it : it_Valid it = true -> starts_with (wild_prefix p) (it_key it) = true ->
  ahead p it = if wild_match p (it_key it) then entry it :: ahead p (it_Next it)
               else ahead p (it_Next it).
Proof.
  intros Hv Hs. unfold ahead. destruct (fwd_cases it) as [[Hv' _]|[_ E]]; [congruence|].
  rewrite E. cbn [take_while fst]. rewrite Hs, filter_cons. cbn [fst].
  destruct (wild_match p (it_key it)); by case_decide.
Qed.

Lemma ahead_start p :
  ahead p (it_Seek (NewIterator d) (wild_prefix p)) = hits p m.
Proof.
  unfold ahead. rewrite fwd_Seek, sm_prefix_range by apply contents_wf. apply hits_filter.
Qed.

Lemma inv_drop s cs lost K p f : passed s -> inv s cs (lost ++ K) p f -> inv s cs K p f.
Proof.
  intros Hp []. constructor; try done; [|by left]. etrans; [|done].
  apply submseteq_app; [done|]. apply submseteq_app; [done|]. by apply submseteq_inserts_l.
Qed.

(** *** The steps keep the invariant *)

Lemma fetch_ok s cs K L F : S (length F) <= numWorkers -> inv s cs K L F ->
  exists s' t', worker_step w skip limit x wildSize s AtFetch = Some (s', t') /\
    (wildIndex s <= wildIndex s')%Z /\ atomic_index s' = atomic_index s /\
    worker_ok s' t' /\ inv s' cs (todo t' ++ K) (pending t' ++ L) (fin t' ++ F).
Proof.
  intros HF []. pose proof (mo_size Hok) as Hs. cbn [worker_step].
  rewrite int32_id by (unfold in_int32, INT_MIN, INT_MAX in *; unfold wildSize in *; lia).
  eexists _, _. split; [done|]. split_and!; [simpl; lia|done|..].
  - destruct (Z.ltb_spec (wildIndex s + 1) wildSize); simpl; lia.
  - assert (unfetched s = todo (if (wildIndex s + 1 <? wildSize)%Z
              then AtExtract (wildIndex s + 1) else Finished)
            ++ unfetched (set_wildIndex (wildIndex s + 1) s)) as E.
    { unfold unfetched. cbn [wildIndex set_wildIndex].
      replace (Z.to_nat (wildIndex s + 1 + 1)) with (S (Z.to_nat (wildIndex s + 1))) by lia.
      unfold wildSize. destruct (Z.ltb_spec (wildIndex s + 1) (Z.of_nat (length pats))).
      - destruct (lookup_lt_is_Some_2 pats (Z.to_nat (wildIndex s + 1))) as [p Hp]; [lia|].
        cbn [todo]. rewrite Hp. by rewrite (drop_S _ _ _ Hp).
      - rewrite !drop_ge by lia. done. }
    constructor; try done.
    + destruct (wildIndex s + 1 <? wildSize)%Z eqn:El; simpl; lia.
    + rewrite (app_assoc (unfetched _)), (Permutation_app_comm (unfetched _)), <- E. done.
    + rewrite (app_assoc (unfetched _)), (Permutation_app_comm (unfetched _)), <- E. done.
    + by destruct (wildIndex s + 1 <? wildSize)%Z.
Qed.
(** The counters do not decrease; the worker and the books are in order. *)
Definition kept_by s s' t' K L F : Prop :=
  (wildIndex s <= wildIndex s')%Z /\ (atomic_index s <= atomic_index s')%Z /\
  worker_ok s' t' /\ exists cs', inv s' cs' (todo t' ++ K) (pending t' ++ L) (fin t' ++ F).

Ltac kept := split; [simpl; lia|split; [simpl; lia|split]].

Lemma count_ok s p it cs K L F :
  worker_ok s (AtCount p it true) -> inv s cs (ahead p it ++ K) L F ->
  let (s', t') := count_step skip limit s p it true in kept_by s s' t' K L F.
Proof.
  intros (Hs & _ & Hv & Hp & Hm) I. rewrite ahead_entry, Hm in I by done.
  assert (cs ++ [entry it] ++ unfetched s ++ ahead p (it_Next it) ++ K ⊆+ all_hits) as Hsub.
  { etrans; [|apply (inv_sub _ _ _ _ _ I)]. apply submseteq_app; [done|].
    simpl. by rewrite <- Permutation_middle. }
  destruct I as [Hc Hf He _ Hn Hr Ht].
  assert (Z.of_nat (length cs) < Z.of_nat (length all_hits))%Z as Hlt.
  { apply submseteq_length in Hsub. rewrite !length_app in Hsub. simpl in Hsub. lia. }
  pose proof (mo_hits Hok) as Hmax. pose proof (mo_window Hok) as Hw.
  unfold count_step. rewrite int32_id by (unfold in_int32, INT_MIN, INT_MAX in *; lia).
  rewrite entry_loads by done. cbn [andb].
  assert (forall q, matchedResults s ++ q ≡ₚ
            rs ++ flat_map keyed_entries (page skip limit (cs ++ [entry it])) ->
          inv (set_atomic_index (atomic_index s + 1) s) (cs ++ [entry it])
            (ahead p (it_Next it) ++ K) q F) as Hinv.
  { intros q Hq. constructor; try done; cbn [atomic_index set_atomic_index].
    - rewrite length_app. simpl. lia.
    - intros H. destruct (He H). split; [done|]. simpl. lia.
    - by rewrite <- app_assoc.
    - destruct Hn as [[? ?]|Hn]; [left; split; [done|simpl; lia]|right].
      etrans; [exact Hn|]. unfold unfetched. cbn [wildIndex set_atomic_index].
      rewrite !length_app. simpl. lia. }
  rewrite <- windowed_is_page, windowed_snoc, flat_map_app in Hinv by done.
  rewrite windowed_is_page in Hinv by done.
  replace (0 + Z.of_nat (length cs))%Z with (atomic_index s + 1)%Z in Hinv by lia.
  destruct (in_window skip limit (atomic_index s + 1)); kept.
  - by simpl; split_and!; try lia.
  - exists (cs ++ [entry it]). apply Hinv. simpl.
    rewrite app_nil_r, (Permutation_app_comm (keyed_entries _)), app_assoc, Hr.
    by rewrite <- app_assoc.
  - by simpl; split_and!; try lia.
  - exists (cs ++ [entry it]). apply Hinv. simpl. by rewrite app_nil_r.
Qed.

Lemma loop_ok s p it cs K L F :
  worker_ok s (AtLoop p it true) -> inv s cs (ahead p it ++ K) L F ->
  kept_by s s (loop_step w s p it true) K L F.
Proof.
  intros [Hs _] I. destruct (mo_opened Hok) as [_ Hst]. unfold loop_step. rewrite Hst.
  destruct (it_Valid it && starts_with (wild_prefix p) (it_key it)) eqn:E.
  2: { rewrite ahead_end in I by done. kept; [done|by exists cs]. }
  apply andb_prop in E as [Hv Hp].
  destruct (exit_ s) eqn:Ee.
  { kept; [done|]. exists cs. eapply inv_drop; [|exact I].
    by apply (inv_exit _ _ _ _ _ I). }
  destruct (wild_match p (it_key it)) eqn:Em; kept;
    [by simpl|by exists cs|by split; [rewrite snapshot_Next|]|].
  exists cs. by rewrite ahead_entry, Em in I.
Qed.

Lemma bound_ok s p it i cs K L F :
  worker_ok s (AtBound p it true i) -> inv s cs (ahead p (it_Next it) ++ K) L F ->
  let (s', t') := bound_step w skip limit s p it true i in kept_by s s' t' K L F.
Proof.
  intros (Hs & _ & Hv & Hi) I. destruct (mo_opened Hok) as [_ Hst].
  unfold bound_step. rewrite Hst.
  destruct (past_window skip limit i) eqn:E; kept.
  - done.
  - apply past_window_spec in E as [Hl ->]; [|apply (mo_window Hok)].
    exists cs. apply (inv_drop _ _ (ahead p (it_Next it))); [done|]. by destruct I.
  - by split; [rewrite snapshot_Next|].
  - by exists cs.
Qed.

(** Every worker that has not ended can make a step, and keeps the books. *)
Lemma worker_step_ok s t cs K L F :
  t <> Finished -> S (length F) <= numWorkers ->
  worker_ok s t -> inv s cs (todo t ++ K) (pending t ++ L) (fin t ++ F) ->
  exists s' t', worker_step w skip limit x wildSize s t = Some (s', t') /\ kept_by s s' t' K L F.
Proof.
  intros Ht HF Hok' I. destruct (mo_opened Hok) as [Hd Hst].
  destruct t as [|n|p|p|p it r|p it r|p it r i ws|p it r i|b| |o]; try done.
  - destruct (fetch_ok s cs K L F HF I) as (s' & t' & E & H1 & H2 & H3 & H4).
    exists s', t'. split; [done|]. kept; [done|by exists cs].
  - simpl in Hok', I. eexists _, _. split; [done|].
    destruct (lookup_lt_is_Some_2 pats (Z.to_nat n)) as [p Hp]; [unfold wildSize in *; lia|].
    pose proof (mo_extract Hok _ _ Hp) as E. rewrite Z2Nat.id in E by lia.
    rewrite E. rewrite Hp in I. kept; [|by exists cs].
    pose proof (mo_patterns Hok) as Hall. rewrite Forall_lookup in Hall. by apply (Hall _ p) in Hp.
  - eexists _, _. split; [done|]. rewrite (inv_ret _ _ _ _ _ I).
    kept; [done|by exists cs].
  - eexists _, _. split; [done|]. unfold call_step. simpl in Hok'. rewrite Hst, Hd, Hok'.
    kept; cbn [worker_ok todo pending fin].
    + split; [|done]. destruct (Seek_law (NewIterator d) (wild_prefix p)) as [-> _].
      by rewrite NewIterator_law.
    + exists cs. by rewrite ahead_start.
  - assert (r = true) as -> by apply Hok'. eexists _, _. split; [done|]. by eapply loop_ok.
  - assert (r = true) as -> by apply Hok'. cbn [worker_step].
    pose proof (count_ok s p it cs K L F Hok' I) as H.
    destruct (count_step skip limit s p it true) as [s' t']. eauto.
  - assert (r = true) as -> by apply Hok'. destruct ws as [|o ws].
    + eexists _, _. split; [done|]. kept; [done|by exists cs].
    + eexists _, _. split; [done|]. kept; [done|]. exists cs.
      destruct I. constructor; try done. simpl. by rewrite <- app_assoc.
  - assert (r = true) as -> by apply Hok'. cbn [worker_step].
    pose proof (bound_ok s p it i cs K L F Hok' I) as H.
    destruct (bound_step w skip limit s p it true i) as [s' t']. eauto.
  - simpl in Hok'. subst b. eexists _, _. split; [done|]. kept; [done|].
    exists cs. by destruct I.
Qed.
(** ** Executions *)

Definition books (c : threads) : Prop :=
  length c.2 = numWorkers /\ Forall (worker_ok c.1) c.2 /\
  exists cs, inv c.1 cs (flat_map todo c.2) (flat_map pending c.2) (flat_map fin c.2).

Lemma fin_length l : length (flat_map fin l) <= length l.
Proof. induction l as [|t l IH]; simpl; [lia|]. rewrite length_app. destruct t; simpl; lia. Qed.

Lemma start_books : books (start numWorkers rs).
Proof.
  assert (forall {A} (f : worker -> list A), f AtFetch = [] ->
            flat_map f (replicate numWorkers AtFetch) = []) as E.
  { intros A f Hf. induction numWorkers as [|n IH]; simpl; [done|]. by rewrite Hf, IH. }
  split_and!; simpl; [by rewrite length_replicate|by apply Forall_replicate|].
  exists []. rewrite !E by done. constructor; simpl; try done.
  - unfold wildSize. lia.
  - unfold unfetched. simpl. by rewrite app_nil_r.
  - right. unfold unfetched. simpl. by rewrite app_nil_r.
  - by rewrite page_nil, !app_nil_r.
Qed.

(** A worker among the others. *)
Lemma books_worker s before t after cs : length (before ++ t :: after) = numWorkers ->
  inv s cs (flat_map todo (before ++ t :: after)) (flat_map pending (before ++ t :: after))
    (flat_map fin (before ++ t :: after)) ->
  S (length (flat_map fin (before ++ after))) <= numWorkers /\
  inv s cs (todo t ++ flat_map todo (before ++ after))
    (pending t ++ flat_map pending (before ++ after)) (fin t ++ flat_map fin (before ++ after)).
Proof.
  intros Hl I. split; [|by rewrite !flat_map_permutation in I].
  pose proof (fin_length (before ++ after)). rewrite length_app in *. simpl in *. lia.
Qed.

Abbreviation mstep := (step w skip limit x wildSize).

Lemma step_books c c' : mstep c c' -> books c -> books c'.
Proof.
  intros H. inversion H as [s before t after s' t' Hs]; subst. intros (Hl & Hall & cs & I).
  cbn [fst snd] in *. destruct (books_worker _ _ _ _ _ Hl I) as [HF I'].
  apply Forall_app in Hall as [Hb [Ht Ha]%Forall_cons].
  assert (t <> Finished) as Hne by (intros ->; discriminate Hs).
  destruct (worker_step_ok _ _ _ _ _ _ Hne HF Ht I') as (s2 & t2 & E & H1 & H2 & H3 & cs' & H4).
  rewrite Hs in E. injection E as <- <-. split_and!.
  - cbn [snd]. rewrite length_app in Hl |- *. exact Hl.
  - assert (forall l, Forall (worker_ok s) l -> Forall (worker_ok s') l) as Hm.
    { intros l Hf. apply (Forall_impl _ _ _ Hf). intros u. by apply worker_ok_mono. }
    apply Forall_app. split; [by apply Hm|]. apply Forall_cons. split; [done|by apply Hm].
  - exists cs'. cbn [fst snd]. by rewrite !flat_map_permutation.
Qed.

Lemma reachable_books c : rtc mstep (start numWorkers rs) c -> books c.
Proof.
  intros H. assert (forall a b, rtc mstep a b -> books a -> books b) as Hr.
  { intros a b. induction 1 as [|a b c' Hs _ IH]; [done|]. intros Ha. by apply IH, (step_books a). }
  eapply Hr; [exact H|apply start_books].
Qed.

(** As long as a worker has not ended, there is a step. *)
Lemma books_progress c : books c ->
  Forall (fun t => t = Finished) c.2 \/ exists c', mstep c c'.
Proof.
  destruct c as [s ts]. intros (Hl & Hall & cs & I). cbn [fst snd] in *.
  destruct (decide (Forall (fun t => fin t = [tt]) ts)) as [H|H].
  { left. apply (Forall_impl _ _ _ H). by intros []. }
  right. apply not_Forall_Exists, Exists_exists in H as (t & Hin & Ht); [|apply _].
  apply list_elem_of_split in Hin as (before & after & ->).
  destruct (books_worker _ _ _ _ _ Hl I) as [HF I'].
  apply Forall_app in Hall as [_ [Hok' _]%Forall_cons].
  assert (t <> Finished) as Hne by (intros ->; by apply Ht).
  destruct (worker_step_ok _ _ _ _ _ _ Hne HF Hok' I') as (s' & t' & E & _).
  by exists (s', before ++ t' :: after); constructor.
Qed.

(** When all have ended, the results are a page of the hits in some order. *)
Lemma books_joined s ts : books (s, ts) -> ts <> [] -> Forall (fun t => t = Finished) ts ->
  exists P, P ⊆+ all_hits /\ length P = length (page skip limit all_hits) /\
    matchedResults s ≡ₚ rs ++ flat_map keyed_entries P /\ ret_ s = true.
Proof.
  intros (Hl & Hall & cs & I) Hne Hf. cbn [fst snd] in *.
  assert (forall {A} (f : worker -> list A), f Finished = [] -> flat_map f ts = []) as E.
  { intros A f H. clear -Hf H. induction Hf as [|t ts -> _ IH]; simpl; [done|]. by rewrite H. }
  rewrite (E _ todo), (E _ pending) in I by done. destruct I as [Hc _ _ Hs Hn Hr Ht].
  assert (unfetched s = []) as Hu.
  { destruct ts as [|t ts]; [done|]. apply Forall_cons in Hf as [-> _].
    apply Forall_cons in Hall as [Hw _]. simpl in Hw. unfold unfetched.
    rewrite drop_ge; [done|]. unfold wildSize in Hw. lia. }
  rewrite Hu, !app_nil_r in *. exists (page skip limit cs). split_and!; [|..|done|done].
  - etrans; [apply page_submseteq|done].
  - destruct Hn as [[Hl1 Hl2]|Hn].
    + apply submseteq_length in Hs. apply page_length_past; [done|lia|lia].
    + apply submseteq_length in Hs. apply page_length_eq. lia.
Qed.
(** ** Every execution ends *)

(** A bound of the steps a worker makes before it fetches a pattern again. *)
Definition call_cost : nat := 6 * length m.
Definition cost (t : worker) : nat :=
  match t with
  | AtFetch => 1
  | AtExtract _ => 6 + call_cost
  | AtRead _ => 5 + call_cost
  | AtCall _ => 4 + call_cost
  | AtLoop _ it _ => 3 + 6 * length (fwd it)
  | AtCount _ it _ => 2 + 6 * length (fwd it)
  | AtPush _ it _ _ ws => 5 + length ws + 6 * length (fwd (it_Next it))
  | AtBound _ it _ _ => 4 + 6 * length (fwd (it_Next it))
  | AtStore _ => 2
  | Finished | Crashed _ => 0
  end.
Definition fetch_cost (s : shared) : nat :=
  Z.to_nat (wildSize - 1 - wildIndex s) * (6 + call_cost).

Lemma fwd_valid it : it_Valid it = true -> length (fwd it) = S (length (fwd (it_Next it))).
Proof. destruct (fwd_cases it) as [[-> _]|[_ ->]]; done. Qed.

Lemma keyed_entries_length kv : length (keyed_entries kv) <= 2.
Proof. unfold keyed_entries. destruct (load_value kv.2); simpl; lia. Qed.

Lemma cost_decreases s t s' t' cs rem pend F : S (length F) <= numWorkers ->
  worker_ok s t -> inv s cs rem pend (fin t ++ F) ->
  worker_step w skip limit x wildSize s t = Some (s', t') ->
  fetch_cost s' + cost t' < fetch_cost s + cost t.
Proof.
  intros HF Hok' I. destruct (mo_opened Hok) as [Hd Hst].
  destruct t as [|n|p|p|p it r|p it r|p it r i ws|p it r i|b| |o]; cbn [worker_step].
  - intros [= <- <-]. destruct (inv_fetched _ _ _ _ _ I) as [H1 H2]. simpl in H2.
    pose proof (mo_size Hok) as Hs.
    rewrite int32_id by (unfold in_int32, INT_MIN, INT_MAX in *; lia).
    unfold fetch_cost. cbn [wildIndex set_wildIndex].
    destruct (Z.ltb_spec (wildIndex s + 1) wildSize); cbn [cost]; [|nia].
    replace (Z.to_nat (wildSize - 1 - wildIndex s))
      with (S (Z.to_nat (wildSize - 1 - (wildIndex s + 1)))) by lia. lia.
  - intros [= <- <-]. destruct (extract x n) as [p|[]| |]; cbn [cost]; lia.
  - intros [= <- <-]. destruct (ret_ s); cbn [cost]; lia.
  - intros [= <- <-]. unfold call_step. simpl in Hok'. rewrite Hst, Hd, Hok'. cbn [cost].
    pose proof (fwd_length (it_Seek (NewIterator d) (wild_prefix p))) as H.
    destruct (Seek_law (NewIterator d) (wild_prefix p)) as [E _].
    rewrite E, NewIterator_law in H. unfold call_cost, m. lia.
  - intros [= <- <-]. unfold loop_step.
    destruct (it_Valid it) eqn:Hv; cbn [andb]; [|cbn [cost]; lia].
    pose proof (fwd_valid _ Hv). destruct (starts_with _ _); cbn [cost]; [|lia].
    destruct (exit_ s), (wild_match p (it_key it)); cbn [cost]; lia.
  - destruct Hok' as (Hs & _ & Hv & _ & _). intros [= <- <-].
    pose proof (fwd_valid _ Hv). pose proof (keyed_entries_length (entry it)).
    rewrite entry_loads by done.
    destruct (in_window skip limit (int32 (atomic_index s + 1))); cbn [cost];
      unfold fetch_cost; cbn [wildIndex set_atomic_index]; lia.
  - destruct ws; intros [= <- <-]; cbn [cost length]; unfold fetch_cost; cbn [wildIndex push]; lia.
  - unfold bound_step. destruct (past_window skip limit i); intros [= <- <-]; cbn [cost];
      unfold fetch_cost; cbn [wildIndex set_exit]; lia.
  - intros [= <- <-]. cbn [cost]. unfold fetch_cost. cbn [wildIndex set_ret]. lia.
  - done.
  - done.
Qed.

Definition costs (c : threads) : nat := fetch_cost c.1 + list_sum (cost <$> c.2).

Lemma step_costs c c' : books c -> mstep c c' -> costs c' < costs c.
Proof.
  intros (Hl & Hall & cs & I) H. inversion H as [s before t after s' t' Hs]; subst.
  cbn [fst snd] in *. destruct (books_worker _ _ _ _ _ Hl I) as [HF I'].
  apply Forall_app in Hall as [_ [Ht _]%Forall_cons].
  pose proof (cost_decreases _ _ _ _ _ _ _ _ HF Ht I' Hs).
  unfold costs. cbn [fst snd]. rewrite !fmap_app, !list_sum_app. simpl. lia.
Qed.

Lemma nsteps_costs n c c' : books c -> nsteps mstep n c c' -> n + costs c' <= costs c.
Proof.
  intros Hc H. induction H as [c|n c c1 c2 Hs _ IH]; [lia|].
  pose proof (step_costs _ _ Hc Hs). specialize (IH (step_books _ _ Hs Hc)). lia.
Qed.
End interleaving.

(** C8: whatever the interleaving of its workers, [getKeysMulti] over patterns
    without a leading star, in a store of which every value can be read and
    with counters that stay in the range of [int], answers true with as many
    hits as a page over the hits of all patterns has.  The hits are counted for
    each pattern: an entry that two patterns match is there twice, and none is
    there more often than patterns match it.  Each has its key and its value.
    Without a window all hits are answered.  Their order is that of the
    execution. *)
Theorem multi_results `{plat : Platform} {R : RocksDB} {RL : RocksDBLaws} (w : world) (d : DB)
    (wilds : string) (pats : list string) (skip limit : Z) (numWorkers : nat)
    (rs res : list wvalue) (b : bool) :
  multi_ok w d skip limit (load wilds) pats numWorkers -> 0 < numWorkers ->
  r_size (load wilds) = Ok (Z.of_nat (length pats)) ->
  getKeysMulti_returns numWorkers w wilds skip limit rs b res ->
  b = true /\ exists P, P ⊆+ all_hits d pats /\
    length P = length (page skip limit (all_hits d pats)) /\
    res ≡ₚ rs ++ flat_map keyed_entries P /\
    (limit = (-1)%Z -> (skip <= 0)%Z -> P ≡ₚ all_hits d pats).
Proof.
  intros Hok Hn Hsz H. destruct H as [e He|n s ts Hs Hrun Hf]; [congruence|].
  rewrite Hsz in Hs. injection Hs as <-. pose proof (mo_size _ _ _ _ _ _ _ Hok) as Hsize.
  rewrite int32_id in Hrun by (unfold in_int32, INT_MIN, INT_MAX in *; lia).
  apply (reachable_books _ _ _ _ _ _ _ _ Hok) in Hrun.
  assert (ts <> []) as Hne.
  { destruct Hrun as [Hl _]. intros ->. simpl in Hl. lia. }
  destruct (books_joined _ _ _ _ _ _ _ _ Hrun Hne Hf) as (P & H1 & H2 & H3 & H4).
  split; [done|]. exists P. split_and!; try done. intros -> Hskip.
  apply submseteq_length_Permutation; [done|]. rewrite H2. unfold page. simpl.
  by replace (Z.to_nat skip) with 0 by lia.
Qed.

(** no execution of the workers of [getKeysMulti] goes on for ever or gets
    stuck: it has at most as many steps as the patterns and the entries allow,
    and until every worker has ended one of them can go on. *)
Theorem multi_joins `{plat : Platform} {R : RocksDB} {RL : RocksDBLaws} (w : world) (d : DB)
    (x : rvalue) (pats : list string) (skip limit : Z) (numWorkers : nat) (rs : list wvalue) :
  multi_ok w d skip limit x pats numWorkers ->
  let run := step w skip limit x (Z.of_nat (length pats)) in
  (forall n c, nsteps run n (start numWorkers rs) c ->
     n <= length pats * (6 + 6 * length (contents d)) + numWorkers) /\
  (forall c, rtc run (start numWorkers rs) c ->
     Forall (fun t => t = Finished) c.2 \/ exists c', run c c').
Proof.
  intros Hok run. assert (books d skip limit pats numWorkers rs (start numWorkers rs)) as Hb by apply start_books.
  split.
  - intros n c H. apply (nsteps_costs _ _ _ _ _ _ _ _ Hok _ _ _ Hb) in H.
    etrans; [|etrans; [exact H|]]; [lia|].
    unfold costs, fetch_cost, start. cbn [fst snd wildIndex].
    rewrite fmap_replicate. cbn [cost].
    assert (list_sum (replicate numWorkers 1) = numWorkers) as ->.
    { clear. induction numWorkers as [|n IH]; simpl; [done|]. by rewrite IH. }
    unfold call_cost. nia.
  - intros c H. by eapply books_progress, reachable_books.
Qed.

(** ** Concrete executions *)

Section thread_witnesses.
Import Demo.

Lemma schedule_steps `{plat : Platform} {R : RocksDB} w skip limit x size l c :
  rtc (step w skip limit x size) c (schedule w skip limit x size l c).
Proof.
  revert c. induction l as [|n l IH]; intros [s ts]; [done|]. cbn [schedule fst snd].
  destruct (ts !! n) as [t|] eqn:Ht; [|done].
  destruct (worker_step w skip limit x size s t) as [[s' t']|] eqn:Es; [|done].
  eapply rtc_l; [|apply IH]. pose proof (lookup_lt_Some _ _ _ Ht) as Hn.
  rewrite <- (take_drop_middle _ _ _ Ht) at 1.
  rewrite insert_take_drop by done. by constructor.
Qed.

Definition finished `{plat : Platform} {R : RocksDB} (t : worker) : bool :=
  match t with Finished => true | _ => false end.

Lemma all_finished `{plat : Platform} {R : RocksDB} (ts : list worker) :
  forallb finished ts = true -> Forall (fun t => t = Finished) ts.
Proof.
  induction ts as [|t ts IH]; [done|]. simpl. intros [Ht H]%andb_prop.
  constructor; [by destruct t|by apply IH].
Qed.

Definition two_patterns : string := q "[`user_*`,`z*`]".

Lemma two_patterns_ok skip limit : window_ok skip limit ->
  multi_ok w d skip limit (load two_patterns) ["user_*"; "z*"] 2.
Proof.
  intros Hw. constructor; [by split|done| |by repeat constructor| |by vm_compute|by vm_compute].
  - intros [|[|n]] p [= <-]; by vm_compute.
  - assert (forallb loads (contents d) = true) as H by by vm_compute.
    apply Forall_forall. intros kv Hkv. rewrite forallb_forall in H.
    by apply H, list_elem_of_In.
Qed.

(** Two workers in turn, 60 steps each. *)
Definition in_turn : list nat := concat (replicate 60 [0; 1]).
Definition turns (wilds : string) (skip limit : Z) : threads :=
  schedule w skip limit (load wilds) 2 in_turn (start 2 []).

Theorem multi_results_witness :
  let c := turns two_patterns 1 2 in
  ret_ c.1 = true /\ exists P, length P = 2 /\ P ⊆+ all_hits d ["user_*"; "z*"] /\
    matchedResults c.1 ≡ₚ flat_map keyed_entries P.
Proof.
  destruct (multi_results w d two_patterns ["user_*"; "z*"] 1 2 2 []
    (matchedResults (turns two_patterns 1 2).1) (ret_ (turns two_patterns 1 2).1))
    as (H1 & P & H2 & H3 & H4 & _).
  - apply two_patterns_ok, (bool_decide_eq_true_1 (window_ok 1 2)). reflexivity.
  - lia.
  - by vm_compute.
  - apply (multi_joined 2 w two_patterns 1 2 [] 2 _ (turns two_patterns 1 2).2);
      [by vm_compute| |by apply all_finished; vm_compute].
    rewrite <- surjective_pairing.
    exact (schedule_steps w 1 2 (load two_patterns) 2 in_turn (start 2 [])).
  - split; [exact H1|]. exists P. split; [|by split]. rewrite H3. by vm_compute.
Defined.

Theorem multi_joins_witness :
  let run := step w 0 (-1) (load two_patterns) 2 in
  (forall n c, nsteps run n (start 2 []) c -> n <= 74) /\
  (forall c, rtc run (start 2 []) c ->
     Forall (fun t => t = Finished) c.2 \/ exists c', run c c').
Proof.
  destruct (multi_joins w d (load two_patterns) ["user_*"; "z*"] 0 (-1) 2 []) as [H1 H2].
  - apply two_patterns_ok, (bool_decide_eq_true_1 (window_ok 0 (-1))). reflexivity.
  - split; [|exact H2]. intros n c Hn.
    assert (length ["user_*"; "z*"] * (6 + 6 * length (contents d)) + 2 = 74) as <-
      by by vm_compute.
    exact (H1 n c Hn).
Defined.

(** The assignment [ret = ret && getKeysInThread(...)] is not atomic: when the
    refused pattern ends between the reading and the storing of [ret] by the
    other worker, its failure is lost. *)
Lemma refused_pattern_lost :
  let wilds := q "[`*`,`user_*`]" in
  let run l := schedule w 0 (-1) (load wilds) 2 l (start 2 []) in
  forallb finished (run in_turn).2 = true /\ ret_ (run in_turn).1 = true /\
  (let one_by_one := replicate 10 0 ++ replicate 60 1 in
   forallb finished (run one_by_one).2 = true /\ ret_ (run one_by_one).1 = false).
Proof. by vm_compute. Qed.
End thread_witnesses.
