(* ===== verification/ThreadedJoin.v ===== *)
(** * The join on two threads

    [Core::getJoinedMapThreaded] (src/src/quarks.cpp): a writer that copies the
    keys of a prefix into a vector and a reader that matches them against the
    wildcard as they come.  A schedule names the thread that moves next; a
    move is one access to the shared variables, or one section under
    [__critical_mtx].  The reader keeps a pointer into the text of a key after
    it has left the section: the model follows when that text is moved. *)

From S2P Require Import Prelude SortedMap Wildcmp Json Store World Scan CoreRead CoreLists Threads.
Local Open Scope quarks_scope.

(** ** The two threads *)

(** The variables both lambdas capture.  [capacity] is the room of
    [iteratorKeys], [moved] the number of times its elements have been moved to
    a larger block. *)
Record joining := {
  iteratorKeys : list string;
  capacity : nat;
  moved : nat;
  nextKey : Z;
  currentKey : Z;
  writerExit : bool;
  readerExit : bool;
  counter : Z;               (* [i] *)
  sFinalKeys : list string
}.

(** [c_str()] of an element: its index, and [moved] when it was taken *)
Definition pointer : Type := nat * nat.

Section threads.
Context {plat : Platform} {R : RocksDB}.

(** The writer: at the head of its loop; behind it; ended, with [status().ok()]. *)
Inductive writer :=
  | WLoop (it : Iter)
  | WExit (it : Iter)
  | WDone (ok : bool).

(** The reader: at the head of its loop; before [wildcmp], with the key if
    there is a new one; before the key is copied; before the test of the upper
    bound; before [currentKey == nextKey]; before [if(readerExit)]; ended; or
    behind a use of a pointer to released memory. *)
Inductive reader :=
  | RTop
  | RMatch (iterKey : option pointer)
  | RTake (iterKey : pointer)
  | RBound
  | RTest
  | RExit
  | RDone
  | RCrash.

Definition config : Type := joining * writer * reader.

(** [grow n]: the room a vector of [n] elements is given when it is full.
    [sso]: texts up to this length are kept inside the string object. *)
Context (grow : nat -> nat) (sso : nat).
Context (wild splitby : string) (selindex skip limit : Z).

(** The text behind a pointer: moving a string keeps the block of a long text
    and copies a short one. *)
Definition text_at (s : joining) (p : pointer) : option string :=
  match iteratorKeys s !! p.1 with
  | Some key =>
      if (moved s =? p.2)%nat || (sso <? String.length key)%nat then Some key else None
  | None => None
  end.

(** [iteratorKeys.push_back(key); nextKey++;] *)
Definition push_key (key : string) (s : joining) : joining :=
  let full := (length (iteratorKeys s) =? capacity s)%nat in
  {| iteratorKeys := iteratorKeys s ++ [key];
     capacity := if full then grow (capacity s) else capacity s;
     moved := if full then S (moved s) else moved s;
     nextKey := int32 (nextKey s + 1); currentKey := currentKey s;
     writerExit := writerExit s; readerExit := readerExit s;
     counter := counter s; sFinalKeys := sFinalKeys s |}.

Definition set_writerExit (s : joining) : joining := {|
  iteratorKeys := iteratorKeys s; capacity := capacity s; moved := moved s;
  nextKey := nextKey s; currentKey := currentKey s; writerExit := true;
  readerExit := readerExit s; counter := counter s; sFinalKeys := sFinalKeys s |}.
Definition set_readerExit (s : joining) : joining := {|
  iteratorKeys := iteratorKeys s; capacity := capacity s; moved := moved s;
  nextKey := nextKey s; currentKey := currentKey s; writerExit := writerExit s;
  readerExit := true; counter := counter s; sFinalKeys := sFinalKeys s |}.

(** A move of the writer *)
Definition writer_move (s : joining) (t : writer) : joining * writer :=
  match t with
  | WLoop it =>
      if it_Valid it && starts_with (wild_prefix wild) (it_key it) then
        let s := push_key (c_str (it_key it)) s in
        (s, if writerExit s then WExit it else WLoop (it_Next it))
      else (s, WExit it)
  | WExit it => (set_readerExit s, WDone (it_status_ok it))
  | WDone ok => (s, WDone ok)
  end.

(** The section at the head of the reader's loop: [++currentKey] *)
Definition next_key (s : joining) : joining * reader :=
  if (currentKey s <? nextKey s)%Z then
    let c := int32 (currentKey s + 1) in
    ({| iteratorKeys := iteratorKeys s; capacity := capacity s; moved := moved s;
        nextKey := nextKey s; currentKey := c; writerExit := writerExit s;
        readerExit := readerExit s; counter := counter s; sFinalKeys := sFinalKeys s |},
     if (0 <=? c)%Z && bool_decide (is_Some (iteratorKeys s !! Z.to_nat c))
     then RMatch (Some (Z.to_nat c, moved s)) else RCrash)
  else (s, RMatch None).

(** [i++]; in the window, [tokens\[selindex\]] of the key *)
Definition take_key (key : option string) (s : joining) : joining :=
  {| iteratorKeys := iteratorKeys s; capacity := capacity s; moved := moved s;
     nextKey := nextKey s; currentKey := currentKey s; writerExit := writerExit s;
     readerExit := readerExit s; counter := int32 (counter s + 1);
     sFinalKeys := sFinalKeys s ++ option_list (key ≫= select_key true splitby selindex) |}.

(** A move of the reader *)
Definition reader_move (s : joining) (t : reader) : joining * reader :=
  match t with
  | RTop => next_key s
  | RMatch None => (s, RTest)
  | RMatch (Some p) =>
      match text_at s p with
      | Some key => (s, if wild_match wild key then RTake p else RTest)
      | None => (s, RCrash)
      end
  | RTake p =>
      if in_window skip limit (int32 (counter s + 1)) then
        match text_at s p with
        | Some key => (take_key (Some key) s, RBound)
        | None => (s, RCrash)
        end
      else (take_key None s, RBound)
  | RBound =>
      if past_window skip limit (counter s) then (set_writerExit s, RDone) else (s, RTest)
  | RTest => (s, if (currentKey s =? nextKey s)%Z then RExit else RTop)
  | RExit => (s, if readerExit s then RDone else RTop)
  | RDone => (s, RDone)
  | RCrash => (s, RCrash)
  end.

(** [true]: the writer moves. *)
Definition move (c : config) (writes : bool) : config :=
  let '(s, wr, rd) := c in
  if writes then let '(s, wr) := writer_move s wr in (s, wr, rd)
  else let '(s, rd) := reader_move s rd in (s, wr, rd).

Definition run (c : config) (schedule : list bool) : config := foldl move c schedule.

Definition begin (it : Iter) : config :=
  ({| iteratorKeys := []; capacity := 0; moved := 0; nextKey := -1; currentKey := -1;
      writerExit := false; readerExit := false; counter := -1; sFinalKeys := [] |},
   WLoop (it_Seek it (wild_prefix wild)), RTop).

Definition finished (c : config) : bool :=
  match c with (_, WDone _, RDone) => true | _ => false end.
End threads.

(** ** The whole call *)

(** The wildcard, [splitby], [selindex] and [join] of the arguments *)
Definition join_arguments (args : rvalue) `{plat : Platform} : outcome (string * string * Z * rvalue) :=
  let? wild := r_at_s args "keys" in
  let? splitby := r_at_s args "splitby" in
  let? v := r_at args "selindex" in
  let? selindex := r_i v in
  let? join := r_at args "join" in
  Ok (wild, splitby, selindex, join).

(** [getJoinedMapThreaded] may end with this outcome and these results. *)
Inductive getJoinedMapThreaded_returns `{plat : Platform} {R : RocksDB} (grow : nat -> nat)
    (sso : nat) (w : world) (args : rvalue) (skip limit : Z) (rs : list wvalue)
    : outcome bool * list wvalue -> Prop :=
  | threaded_closed :
      dbStatus_ok w = false ->
      getJoinedMapThreaded_returns grow sso w args skip limit rs (Ok false, rs)
  | threaded_unread e :
      dbStatus_ok w = true -> join_arguments args = Throw e ->
      getJoinedMapThreaded_returns grow sso w args skip limit rs (Throw e, rs)
  | threaded_undef :
      dbStatus_ok w = true -> join_arguments args = Undef ->
      getJoinedMapThreaded_returns grow sso w args skip limit rs (Undef, rs)
  | threaded_star wild splitby selindex join :
      dbStatus_ok w = true -> join_arguments args = Ok (wild, splitby, selindex, join) ->
      leading_star wild = true ->
      getJoinedMapThreaded_returns grow sso w args skip limit rs (Ok false, rs)
  | threaded_no_db wild splitby selindex join :
      dbStatus_ok w = true -> join_arguments args = Ok (wild, splitby, selindex, join) ->
      leading_star wild = false -> db w = None ->
      getJoinedMapThreaded_returns grow sso w args skip limit rs (Undef, rs)
  | threaded_crash wild splitby selindex join d schedule s wr :
      dbStatus_ok w = true -> join_arguments args = Ok (wild, splitby, selindex, join) ->
      leading_star wild = false -> db w = Some d ->
      run grow sso wild splitby selindex skip limit (begin wild (NewIterator d)) schedule = (s, wr, RCrash) ->
      getJoinedMapThreaded_returns grow sso w args skip limit rs (Undef, rs)
  | threaded_joined wild splitby selindex join d schedule s ok :
      dbStatus_ok w = true -> join_arguments args = Ok (wild, splitby, selindex, join) ->
      leading_star wild = false -> db w = Some d ->
      run grow sso wild splitby selindex skip limit (begin wild (NewIterator d)) schedule
        = (s, WDone ok, RDone) ->
      getJoinedMapThreaded_returns grow sso w args skip limit rs
        ((let! l := lift (r_elems join) in
          let '(o, (r, joined)) := join_loop w (sFinalKeys s) l (ok, WNull) in
          do! lift o;
          do! push_back [WList (WStr <$> sFinalKeys s); joined];
          ret r) rs).

(** ** What holds at every moment *)

Section invariant.
Context {plat : Platform} {R : RocksDB} {RL : RocksDBLaws}.
Context (grow : nat -> nat) (sso : nat).
Context (d : DB) (wild splitby : string) (selindex skip limit : Z).

(** The keys the writer copies *)
Definition keys_from (it : Iter) : list string :=
  (fun kv => c_str kv.1) <$> take_while (fun kv => starts_with (wild_prefix wild) kv.1) (fwd it).
Definition all_keys : list string :=
  (fun kv => c_str kv.1) <$> filterb (fun kv => starts_with (wild_prefix wild) kv.1) (contents d).

(** What the reader makes of the first keys *)
Definition matching (keys : list string) : list string := filterb (wild_match wild) keys.
Definition final_keys (keys : list string) : list string :=
  omap (select_key true splitby selindex) (page skip limit (matching keys)).

Hypothesis Hwin : window_ok skip limit.
Hypothesis Hlen : (Z.of_nat (length all_keys) <= INT_MAX)%Z.

Definition count_of (s : joining) : nat := Z.to_nat (currentKey s + 1).

Record writer_ok (s : joining) (t : writer) : Prop := {
  wo_keys : match t with
            | WLoop it => iteratorKeys s ++ keys_from it = all_keys
            | _ => iteratorKeys s `prefix_of` all_keys /\
                   (iteratorKeys s = all_keys \/ writerExit s = true)
            end;
  wo_next : nextKey s = (Z.of_nat (length (iteratorKeys s)) - 1)%Z;
  wo_exit : readerExit s = match t with WDone _ => true | _ => false end
}.

(** The keys the reader has dealt with, and where it stands *)
Definition reader_at (s : joining) (t : reader) (dealt : nat) : Prop :=
  match t with
  | RMatch (Some (i, g)) => i = dealt /\ count_of s = S dealt /\ g <= moved s
  | RTake (i, g) => i = dealt /\ count_of s = S dealt /\ g <= moved s /\
      exists key, iteratorKeys s !! i = Some key /\ wild_match wild key = true
  | _ => count_of s = dealt
  end.

Record reader_ok (s : joining) (t : reader) (dealt : nat) : Prop := {
  ro_current : (-1 <= currentKey s <= nextKey s)%Z;
  ro_at : reader_at s t dealt;
  ro_counter : counter s = (Z.of_nat (length (matching (take dealt (iteratorKeys s)))) - 1)%Z;
  ro_final : sFinalKeys s = omap (select_key true splitby selindex)
               (windowed skip limit 0 (matching (take dealt (iteratorKeys s))));
  ro_exit : writerExit s = true -> t = RDone /\ past_window skip limit (counter s) = true;
  ro_done : t = RDone -> writerExit s = true \/ readerExit s = true
}.

Definition config_ok (c : config) : Prop :=
  let '(s, wr, rd) := c in
  rd = RCrash \/ writer_ok s wr /\ exists dealt, reader_ok s rd dealt.

Lemma keys_from_start : keys_from (it_Seek (NewIterator d) (wild_prefix wild)) = all_keys.
Proof.
  unfold keys_from, all_keys. by rewrite fwd_Seek, sm_prefix_range by apply contents_wf.
Qed.
Lemma keys_from_end it :
  it_Valid it && starts_with (wild_prefix wild) (it_key it) = false -> keys_from it = [].
Proof.
  unfold keys_from. destruct (fwd_cases it) as [[Hv ->]|[Hv ->]]; rewrite Hv; [done|].
  cbn [andb take_while fst]. by intros ->.
Qed.
Lemma keys_from_next it :
  it_Valid it && starts_with (wild_prefix wild) (it_key it) = true ->
  keys_from it = c_str (it_key it) :: keys_from (it_Next it).
Proof.
  unfold keys_from. intros [Hv Hs]%andb_true_iff. destruct (fwd_cases it) as [[Hv' _]|[_ E]]; [congruence|].
  rewrite E. cbn [take_while fst]. by rewrite Hs.
Qed.

Lemma begin_ok : config_ok (begin wild (NewIterator d)).
Proof.
  right. split.
  - split; [cbn; apply keys_from_start|done|done].
  - exists 0. by split.
Qed.

Lemma dealt_bound s wr rd dealt : writer_ok s wr -> reader_ok s rd dealt ->
  dealt <= count_of s <= length (iteratorKeys s).
Proof.
  intros [_ Hn _] [Hc Ha _ _ _ _]. unfold count_of in *. split; [|lia].
  destruct rd as [|[[i g]|]|[i g]| | | | |]; cbn in Ha; unfold count_of in Ha; lia.
Qed.

(** Nothing the writer does disturbs the reader. *)
Lemma reader_kept s s' rd dealt :
  dealt <= length (iteratorKeys s) ->
  iteratorKeys s `prefix_of` iteratorKeys s' -> moved s <= moved s' ->
  (nextKey s <= nextKey s')%Z -> currentKey s' = currentKey s ->
  writerExit s' = writerExit s -> (readerExit s = true -> readerExit s' = true) ->
  counter s' = counter s -> sFinalKeys s' = sFinalKeys s ->
  reader_ok s rd dealt -> reader_ok s' rd dealt.
Proof.
  intros Hd [k Hk] Hm Hn Hc Hw Hr Hi Hf [R1 R2 R3 R4 R5 R6].
  assert (take dealt (iteratorKeys s') = take dealt (iteratorKeys s)) as Et
    by by rewrite Hk, take_app_le.
  constructor; rewrite ?Hc, ?Hi, ?Hf, ?Hw, ?Et; try done; [lia| |].
  - unfold reader_at, count_of in *. rewrite Hc.
    destruct rd as [|[[i g]|]|[i g]| | | | |]; try done; [lia|].
    destruct R2 as (-> & E & Hg & key & Hkey & Hm'). split_and!; try done; [lia|].
    exists key. split; [|done]. rewrite Hk. by apply lookup_app_l_Some.
  - intros H. destruct (R6 H); auto.
Qed.

Lemma writer_move_ok s wr rd : config_ok (s, wr, rd) -> config_ok (move grow sso wild splitby selindex skip limit (s, wr, rd) true).
Proof.
  cbn [move]. destruct (writer_move grow wild s wr) as [s' wr'] eqn:E. intros [->|[Hw [dealt Hr]]]; [by left|].
  right. destruct (dealt_bound _ _ _ _ Hw Hr) as [Hd1 Hd2]. pose proof Hw as [W1 W2 W3].
  assert (dealt <= length (iteratorKeys s)) as Hd by lia.
  destruct wr as [it|it|ok]; cbn [writer_move] in E.
  - destruct (it_Valid it && starts_with (wild_prefix wild) (it_key it)) eqn:Ev.
    + injection E as <- <-. rewrite (keys_from_next _ Ev) in W1.
      assert (length (iteratorKeys s) < length all_keys) as Hl.
      { rewrite <- W1, length_app. cbn. lia. }
      assert (int32 (nextKey s + 1) = nextKey s + 1)%Z as Hnk
        by (apply int32_id; unfold in_int32, INT_MIN, INT_MAX in *; lia).
      split.
      * cbn [push_key writerExit]. destruct (writerExit s) eqn:Ee; constructor; cbn [push_key iteratorKeys
          nextKey readerExit writerExit]; rewrite ?length_app, ?Hnk, ?W2; cbn [length]; try lia; try done.
        -- split; [|by right]. rewrite <- W1. exists (keys_from (it_Next it)). by rewrite <- app_assoc.
        -- by rewrite <- app_assoc.
      * exists dealt. eapply reader_kept; [exact Hd|..|exact Hr]; cbn; try done; [by eexists| |lia].
        destruct (_ =? _)%nat; lia.
    + injection E as <- <-. rewrite (keys_from_end _ Ev), app_nil_r in W1. split; [|by exists dealt].
      split; [|done|done]. rewrite W1. split; [done|by left].
  - injection E as <- <-. split; [by split|]. exists dealt.
    by eapply reader_kept; [exact Hd|..|exact Hr].
  - injection E as <- <-. split; [done|by exists dealt].
Qed.

(** One more key *)
Lemma matching_more keys n key : keys !! n = Some key ->
  matching (take (S n) keys) =
  matching (take n keys) ++ (if wild_match wild key then [key] else []).
Proof.
  intros H. unfold matching. rewrite (take_S_r _ _ _ H), filter_app, filter_cons.
  destruct (wild_match wild key); case_decide; done.
Qed.

Lemma matching_length n keys : length (matching (take n keys)) <= length keys.
Proof. unfold matching. etrans; [apply filterb_length|]. rewrite length_take. lia. Qed.

Lemma writer_keys s wr : writer_ok s wr -> iteratorKeys s `prefix_of` all_keys.
Proof. intros [W _ _]. destruct wr; [|by destruct W..]. rewrite <- W. by eexists. Qed.

Lemma take_key_ok s p dealt wr : writer_ok s wr -> reader_ok s (RTake p) dealt ->
  let r := reader_move sso wild splitby selindex skip limit s (RTake p) in
  r.2 = RCrash \/ r.2 = RBound /\ reader_ok r.1 RBound (S dealt).
Proof.
  intros Hw [R1 R2 R3 R4 R5 _]. destruct p as [i g], R2 as (-> & Hc & Hg & key & Hk & Hm).
  pose proof (matching_more _ _ _ Hk) as Hmm. rewrite Hm in Hmm.
  pose proof (matching_length dealt (iteratorKeys s)). pose proof (prefix_length _ _ (writer_keys _ _ Hw)).
  assert (int32 (counter s + 1) = counter s + 1)%Z as Hi
    by (apply int32_id; unfold in_int32, INT_MIN, INT_MAX in *; lia).
  assert (forall o, (if in_window skip limit (counter s + 1) then o = Some key else o = None) ->
    reader_ok (take_key splitby selindex o s) RBound (S dealt)) as Hstep.
  { intros o Ho. constructor; cbn [take_key currentKey nextKey counter iteratorKeys sFinalKeys
      writerExit readerExit]; rewrite ?Hi, ?Hmm; try done.
    - rewrite length_app, R3. cbn. lia.
    - rewrite windowed_snoc, Z.add_0_l. rewrite R3, Z.sub_add in Ho.
      destruct (in_window _ _ _); subst o; [by rewrite omap_app, R4|by rewrite !app_nil_r].
    - intros H'. by destruct (R5 H'). }
  cbn zeta. cbn [reader_move]. rewrite Hi. destruct (in_window skip limit (counter s + 1)) eqn:Ew.
  - unfold text_at. cbn [fst snd]. rewrite Hk.
    destruct ((moved s =? g)%nat || _); [right|by left]. split; [done|by apply Hstep].
  - right. split; [done|by apply Hstep].
Qed.

Lemma reader_move_ok s wr rd : config_ok (s, wr, rd) -> config_ok (move grow sso wild splitby selindex skip limit (s, wr, rd) false).
Proof.
  cbn [move]. destruct (reader_move sso wild splitby selindex skip limit s rd) as [s' rd'] eqn:E.
  intros [->|[Hw [dealt Hr]]]; [left; cbn in E; congruence|].
  pose proof (dealt_bound _ _ _ _ Hw Hr) as [Hd1 Hd2]. pose proof Hr as [R1 R2 R3 R4 R5 R6].
  assert (rd <> RDone -> writerExit s = false) as Hne.
  { intros H. destruct (writerExit s) eqn:Ew; [|done]. by destruct (R5 eq_refl). }
  assert (forall t n, (rd <> RDone -> reader_at s t n) -> n = dealt -> rd <> RDone -> t <> RDone ->
    reader_ok s t n) as Hstep.
  { intros t n Ht -> H Hn. constructor; [done|by apply Ht|done|done|by rewrite (Hne H)|done]. }
  destruct rd as [|[[i g]|]|[i g]| | | | |]; cbn [reader_move] in E.
  - unfold next_key in E. destruct (Z.ltb_spec (currentKey s) (nextKey s)) as [Hlt|Hge].
    + assert (int32 (currentKey s + 1) = currentKey s + 1)%Z as Hi.
      { apply int32_id. pose proof (prefix_length _ _ (writer_keys _ _ Hw)). destruct Hw as [_ Hn _].
        unfold in_int32, INT_MIN, INT_MAX in *. lia. }
      rewrite Hi in E. cbn in R2. unfold count_of in *.
      assert (is_Some (iteratorKeys s !! Z.to_nat (currentKey s + 1))) as Hs.
      { apply lookup_lt_is_Some. destruct Hw as [_ Hn _]. lia. }
      rewrite (proj2 (Z.leb_le _ _)), bool_decide_eq_true_2 in E by (done || lia). cbn [andb] in E.
      injection E as <- <-. right. split; [by destruct Hw; split|]. exists dealt.
      split; cbn [currentKey nextKey counter iteratorKeys sFinalKeys writerExit readerExit reader_at moved];
        try done; [lia| |by intros H; destruct (R5 H)].
      unfold count_of. cbn [currentKey]. split_and!; [done|lia|done].
    + injection E as <- <-. right. split; [done|]. exists dealt. by apply Hstep.
  - destruct R2 as (-> & Hc & Hg). unfold text_at in E. cbn [fst snd] in E.
    destruct (lookup_lt_is_Some_2 (iteratorKeys s) dealt) as [key Hk]; [lia|]. rewrite Hk in E.
    destruct ((moved s =? g)%nat || _); [|injection E as <- <-; by left].
    injection E as <- <-. right. split; [done|]. destruct (wild_match wild key) eqn:Em.
    + exists dealt. apply Hstep; try done. intros _. split_and!; try done. by exists key.
    + exists (S dealt). pose proof (matching_more _ _ _ Hk) as Hmm. rewrite Em, app_nil_r in Hmm.
      split; rewrite ?Hmm; try done. by rewrite Hne.
  - injection E as <- <-. right. split; [done|]. exists dealt. by apply Hstep.
  - destruct (take_key_ok _ _ _ _ Hw Hr) as [H|[Ht H]]; cbn [reader_move] in *; rewrite E in *;
      cbn [fst snd] in *; [by left|subst rd'].
    right. split; [|by exists (S dealt)]. destruct Hw as [W1 W2 W3].
    destruct (in_window _ _ _); [destruct (text_at _ _ _)|]; injection E as <-; by split.
  - right. destruct (past_window skip limit (counter s)) eqn:Ep; injection E as <- <-.
    + split.
      * destruct Hw as [W1 W2 W3]. split; try done. cbn. destruct wr; try done;
          destruct W1 as [W1 _]; (split; [done|by right]).
      * exists dealt. split; try done. by left.
    + split; [done|]. exists dealt. by apply Hstep.
  - injection E as <- <-. right. split; [done|]. exists dealt.
    destruct (_ =? _)%Z; by apply Hstep.
  - right. destruct (readerExit s) eqn:Er; injection E as <- <-; (split; [done|]); exists dealt.
    + split; try done; [by rewrite Hne|]. by right.
    + by apply Hstep.
  - injection E as <- <-. right. split; [done|by exists dealt].
  - injection E as <- <-. by left.
Qed.

Abbreviation move := (move grow sso wild splitby selindex skip limit).
Abbreviation run := (run grow sso wild splitby selindex skip limit).
Abbreviation begin := (begin wild (NewIterator d)).

Lemma move_ok c b : config_ok c -> config_ok (move c b).
Proof. destruct c as [[s wr] rd], b; [apply writer_move_ok|apply reader_move_ok]. Qed.
Lemma run_ok l c : config_ok c -> config_ok (run c l).
Proof.
  revert c. induction l as [|b l IH]; intros c H; [done|]. cbn. by apply IH, move_ok.
Qed.

(** The writer has ended, and the reader is not at the test of [readerExit]
    with keys it has not seen. *)
Definition caught_up (c : config) : Prop :=
  match c with
  | (s, WDone _, RExit) => currentKey s = nextKey s
  | (s, WDone _, RDone) => currentKey s = nextKey s \/ writerExit s = true
  | (_, WDone _, _) => True
  | _ => False
  end.

Lemma caught_up_move c b : config_ok c -> caught_up c -> caught_up (move c b).
Proof.
  destruct c as [[s wr] rd]. intros Hok H. destruct wr as [| |ok]; [done|done|]. destruct b; [exact H|].
  cbn [ThreadedJoin.move]. destruct rd as [|[[i g]|]|[i g]| | | | |]; cbn [reader_move]; try done.
  - unfold next_key. destruct (_ <? _)%Z; [|done]. by destruct (_ && _).
  - destruct (text_at _ _ _); [|done]. by destruct (wild_match _ _).
  - destruct (in_window _ _ _); [by destruct (text_at _ _ _)|done].
  - destruct (past_window _ _ _); [by right|done].
  - destruct (Z.eqb_spec (currentKey s) (nextKey s)); done.
  - destruct (readerExit s); [by left|done].
Qed.
Lemma caught_up_run l c : config_ok c -> caught_up c -> caught_up (run c l).
Proof.
  revert c. induction l as [|b l IH]; intros c H1 H2; [done|]. cbn.
  apply IH; [by apply move_ok|by apply caught_up_move].
Qed.

(** What the reader has gathered when it ends *)
Lemma gathered s wr rd dealt : reader_ok s rd dealt -> writer_ok s wr ->
  sFinalKeys s = final_keys (take dealt all_keys).
Proof.
  intros Hr Hw. pose proof (dealt_bound _ _ _ _ Hw Hr) as [Hd1 Hd2]. destruct Hr as [_ _ _ R4 _ _].
  unfold final_keys. rewrite R4, windowed_is_page by done.
  destruct (writer_keys _ _ Hw) as [k ->]. by rewrite take_app_le by lia.
Qed.

Lemma windowed_app {X} i (l k : list X) : windowed skip limit i (l ++ k) =
  windowed skip limit i l ++ windowed skip limit (i + Z.of_nat (length l)) k.
Proof.
  revert i. induction l as [|x l IH]; intros i; cbn [app windowed length]; [by rewrite Z.add_0_r|].
  rewrite IH. replace (i + 1 + Z.of_nat (length l))%Z with (i + Z.of_nat (S (length l)))%Z by lia.
  by destruct (in_window _ _ _).
Qed.

Lemma gathered_all s ok : config_ok (s, WDone ok, RDone) -> caught_up (s, WDone ok, RDone) ->
  sFinalKeys s = final_keys all_keys.
Proof.
  intros [?|[Hw [dealt Hr]]] Hc; [done|]. rewrite (gathered _ _ _ _ Hr Hw).
  pose proof (dealt_bound _ _ _ _ Hw Hr) as [_ Hd]. pose proof (writer_keys _ _ Hw) as [k Hk].
  pose proof Hr as [R1 R2 R3 _ R5 _]. pose proof Hw as [[_ W1] W2 _]. cbn in R2.
  assert (writerExit s = true -> final_keys (take dealt all_keys) = final_keys all_keys) as Hpast.
  { intros He. destruct (R5 He) as [_ Hp].
    assert (take dealt (iteratorKeys s) = take dealt all_keys) as E
      by (rewrite Hk, take_app_le by lia; done).
    rewrite E in R3. rewrite R3 in Hp. unfold final_keys. rewrite <- !windowed_is_page by done.
    rewrite <- (take_drop dealt all_keys) at 2. unfold matching in *.
    rewrite filter_app, windowed_app, Z.add_0_l.
    rewrite <- (Z.sub_add 1 (Z.of_nat (length _))), windowed_past by done.
    by rewrite app_nil_r. }
  destruct Hc as [Hc|Hc]; [|by apply Hpast]. destruct W1 as [W1|W1]; [|by apply Hpast].
  unfold count_of in R2. rewrite W1 in W2. rewrite take_ge; [done|]. lia.
Qed.

(** *** Long keys: the text of a key is never released *)

Definition long_keys : Prop := Forall (fun key => sso < String.length key) all_keys.

Lemma text_long s wr i g : long_keys -> writer_ok s wr -> i < length (iteratorKeys s) ->
  is_Some (text_at sso s (i, g)).
Proof.
  intros Hl Hw Hi. unfold text_at. cbn [fst snd].
  destruct (lookup_lt_is_Some_2 _ _ Hi) as [key Hk]. rewrite Hk.
  pose proof (writer_keys _ _ Hw) as Hp. pose proof (prefix_lookup_Some _ _ _ _ Hk Hp) as Ha.
  eapply Forall_lookup_1 in Hl; [|exact Ha]. cbn in Hl.
  rewrite (proj2 (Nat.ltb_lt _ _) Hl), orb_true_r. by eexists.
Qed.

Definition alive (c : config) : Prop := match c with (_, _, RCrash) => False | _ => True end.

Lemma alive_move c b : long_keys -> config_ok c -> alive c -> alive (move c b).
Proof.
  destruct c as [[s wr] rd]. intros Hl Hok Ha. destruct b.
  { cbn. destruct (writer_move _ _ _ _) as [s' wr']. done. }
  destruct Hok as [->|[Hw [dealt Hr]]]; [done|].
  pose proof (dealt_bound _ _ _ _ Hw Hr) as [Hd1 Hd2]. destruct Hr as [R1 R2 _ _ _ _].
  cbn [ThreadedJoin.move]. destruct rd as [|[[i g]|]|[i g]| | | | |]; cbn [reader_move]; try done.
  - unfold next_key. destruct (Z.ltb_spec (currentKey s) (nextKey s)); [|done].
    pose proof (prefix_length _ _ (writer_keys _ _ Hw)). destruct Hw as [_ Hn _].
    rewrite int32_id by (unfold in_int32, INT_MIN, INT_MAX in *; lia).
    assert (is_Some (iteratorKeys s !! Z.to_nat (currentKey s + 1))) as Hs
      by (apply lookup_lt_is_Some; lia).
    by rewrite (proj2 (Z.leb_le _ _)), bool_decide_eq_true_2 by (done || lia).
  - destruct R2 as (-> & Hc & _). destruct (text_long s wr dealt g) as [key ->]; [done|done|lia|].
    by destruct (wild_match _ _).
  - destruct R2 as (-> & Hc & _). destruct (in_window _ _ _); [|done].
    by destruct (text_long s wr dealt g) as [key ->]; [done|done|lia|].
  - by destruct (past_window _ _ _).
  - by destruct (_ =? _)%Z.
  - by destruct (readerExit s).
Qed.
Lemma alive_run l c : long_keys -> config_ok c -> alive c -> alive (run c l).
Proof.
  intros Hl. revert c. induction l as [|b l IH]; intros c H1 H2; [done|]. cbn.
  apply IH; [by apply move_ok|by apply alive_move].
Qed.

(** *** Both threads end *)

Definition writer_cost (t : writer) : nat :=
  match t with WLoop it => 2 + length (keys_from it) | WExit _ => 1 | WDone _ => 0 end.
Definition reader_cost (s : joining) (t : reader) : nat :=
  let ahead := Z.to_nat (nextKey s - currentKey s) in
  match t with
  | RMatch (Some _) => 9 * ahead + 8
  | RTake _ => 9 * ahead + 7
  | RMatch None => 9 * ahead + (if decide (ahead = 0) then 3 else 6)
  | RBound => 9 * ahead + 6
  | RTest => 9 * ahead + (if decide (ahead = 0) then 2 else 5)
  | RTop => 9 * ahead + 4
  | RExit => 1
  | RDone | RCrash => 0
  end.
Definition moves (b : bool) (l : list bool) : nat := length (filterb (Bool.eqb b) l).

Lemma moves_cons b c l : moves b (c :: l) = (if Bool.eqb b c then 1 else 0) + moves b l.
Proof. unfold moves. rewrite filter_cons. by destruct (Bool.eqb b c); case_decide. Qed.

Lemma writer_cost_move s wr : writer_cost (writer_move grow wild s wr).2 <= writer_cost wr - 1.
Proof.
  destruct wr as [it|it|ok]; cbn [writer_move]; [|cbn; lia..].
  destruct (it_Valid it && _) eqn:Ev; [|cbn; lia].
  cbn [snd]. destruct (writerExit _); cbn [writer_cost]; rewrite (keys_from_next _ Ev); cbn [length]; lia.
Qed.

Lemma writer_ends l c : writer_cost (run c l).1.2 <= writer_cost c.1.2 - moves true l.
Proof.
  revert c. induction l as [|b l IH]; intros [[s wr] rd]; [cbn; lia|]. cbn [foldl ThreadedJoin.run].
  etrans; [apply IH|]. rewrite moves_cons. destruct b; cbn [Bool.eqb ThreadedJoin.move].
  - pose proof (writer_cost_move s wr) as H. destruct (writer_move _ _ _ _) as [s' wr']. cbn in *. lia.
  - destruct (reader_move _ _ _ _ _ _ _ _) as [s' rd']. cbn. lia.
Qed.

Lemma reader_cost_move s ok rd : config_ok (s, WDone ok, rd) ->
  let r := reader_move sso wild splitby selindex skip limit s rd in
  reader_cost r.1 r.2 <= reader_cost s rd - 1.
Proof.
  intros [->|[Hw [dealt Hr]]]; [cbn; lia|]. pose proof (wo_exit _ _ Hw) as He. cbn in He.
  pose proof (ro_current _ _ _ Hr) as Hc. pose proof (prefix_length _ _ (writer_keys _ _ Hw)).
  destruct Hw as [_ Hn _]. cbn zeta.
  destruct rd as [|[[i g]|]|[i g]| | | | |]; cbn [reader_move fst snd reader_cost]; try lia.
  - unfold next_key. destruct (Z.ltb_spec (currentKey s) (nextKey s)).
    + rewrite int32_id by (unfold in_int32, INT_MIN, INT_MAX in *; lia). cbn [fst snd].
      destruct (_ && _); cbn [reader_cost nextKey currentKey]; lia.
    + cbn [fst snd reader_cost]. case_decide; lia.
  - destruct (text_at _ _ _); cbn [fst snd]; [|cbn; lia].
    destruct (wild_match _ _); cbn [reader_cost]; [lia|case_decide; lia].
  - case_decide; lia.
  - destruct (in_window _ _ _); [destruct (text_at _ _ _)|];
      cbn [fst snd reader_cost take_key nextKey currentKey]; lia.
  - destruct (past_window _ _ _); cbn [fst snd reader_cost]; [lia|case_decide; lia].
  - destruct (Z.eqb_spec (currentKey s) (nextKey s)); cbn [reader_cost]; case_decide; lia.
  - rewrite He. cbn. lia.
Qed.

Lemma reader_ends l s ok rd : config_ok (s, WDone ok, rd) ->
  exists s' rd', run (s, WDone ok, rd) l = (s', WDone ok, rd') /\
    reader_cost s' rd' <= reader_cost s rd - moves false l.
Proof.
  revert s rd. induction l as [|b l IH]; intros s rd Hok; [exists s, rd; split; [done|cbn; lia]|].
  cbn [foldl ThreadedJoin.run]. rewrite moves_cons. destruct b; cbn [Bool.eqb].
  - destruct (IH s rd Hok) as (s' & rd' & H1 & H2). exists s', rd'. by split.
  - pose proof (move_ok _ false Hok) as Hok'. pose proof (reader_cost_move _ _ _ Hok) as Hm.
    cbn [ThreadedJoin.move] in Hok' |- *. destruct (reader_move _ _ _ _ _ _ s rd) as [s1 rd1].
    cbn [fst snd] in Hm. destruct (IH s1 rd1 Hok') as (s' & rd' & H1 & H2). exists s', rd'.
    split; [exact H1|lia].
Qed.

Definition status_true (c : config) : Prop := match c with (_, WDone ok, _) => ok = true | _ => True end.
Lemma status_run l c : status_true c -> status_true (run c l).
Proof.
  revert c. induction l as [|b l IH]; intros c H; [done|]. cbn. apply IH.
  destruct c as [[s wr] rd]. destruct b; cbn.
  - destruct wr as [it|it|ok]; cbn; [|by rewrite status_law|done].
    destruct (_ && _); [|done]. by destruct (writerExit s).
  - by destruct (reader_move _ _ _ _ _ _ _ _).
Qed.

(** Enough moves of the writer, then enough of the reader *)
Lemma run_finished l1 l2 : long_keys ->
  2 + length all_keys <= moves true l1 -> 9 * length all_keys + 9 <= moves false l2 ->
  exists s, run begin (l1 ++ l2) = (s, WDone true, RDone) /\
    (caught_up (run begin l1) -> sFinalKeys s = final_keys all_keys).
Proof.
  intros Hl H1 H2. pose proof (run_ok l1 _ begin_ok) as Hok.
  pose proof (writer_ends l1 begin) as Hw. cbn [fst snd ThreadedJoin.begin writer_cost] in Hw.
  rewrite keys_from_start in Hw. unfold ThreadedJoin.run at 1. rewrite foldl_app.
  fold (run begin l1). destruct (run begin l1) as [[s1 wr1] rd1] eqn:E1. cbn [fst snd] in Hw.
  pose proof (status_run l1 begin I) as Hs. rewrite E1 in Hs.
  destruct wr1 as [it|it|ok]; [cbn in Hw; lia..|]. cbn in Hs. subst ok.
  destruct (reader_ends l2 s1 true rd1 Hok) as (s & rd & Er & Hc).
  assert (alive (run (s1, WDone true, rd1) l2)) as Ha.
  { rewrite <- E1. apply alive_run; [done| |]; rewrite E1; [done|]. rewrite <- E1.
    by apply alive_run, I; [|apply begin_ok]. }
  pose proof (run_ok l2 _ Hok) as Hok2. rewrite Er in Ha, Hok2.
  assert (reader_cost s1 rd1 <= 9 * length all_keys + 8) as Hm.
  { destruct Hok as [->|[Hw1 [dealt Hr]]]; [cbn; lia|].
    pose proof (prefix_length _ _ (writer_keys _ _ Hw1)). pose proof (ro_current _ _ _ Hr).
    destruct Hw1 as [_ Hn _]. destruct Hr as [_ Hat _ _ _ _].
    destruct rd1 as [|[[i g]|]|[i g]| | | | |]; cbn [reader_cost]; unfold count_of in Hat; cbn in Hat;
      unfold count_of in Hat; repeat case_decide; lia. }
  assert (rd = RDone) as ->.
  { assert (reader_cost s rd = 0) as H0 by lia.
    destruct rd as [|[[i g]|]|[i g]| | | | |]; cbn in H0, Ha; try done; try lia; repeat case_decide; lia. }
  exists s. split; [exact Er|]. intros Hcu. eapply gathered_all; [exact Hok2|].
  rewrite <- Er. by apply caught_up_run.
Qed.
End invariant.

(** ** What the call gives *)

(** C29. The threads of [getJoinedMapThreaded] end, when every key of the prefix
    is too long to be kept inside a string object and the window and the number
    of keys are in the range of [int]: however they are interleaved before, once
    the writer has had as many moves as there are keys and two more, and the
    reader nine for every key after that, both have ended and no released text
    was read.  Nothing is lost when the reader was not between its two tests
    when the writer ended.  (With a short key released text may be read:
    [short_key_released].) *)
Theorem threaded_join_ends `{plat : Platform} {R : RocksDB} {RL : RocksDBLaws} (grow : nat -> nat)
    (sso : nat) (d : DB) (wild splitby : string) (selindex skip limit : Z) (l1 l2 : list bool) :
  window_ok skip limit -> (Z.of_nat (length (all_keys d wild)) <= INT_MAX)%Z ->
  long_keys sso d wild ->
  2 + length (all_keys d wild) <= moves true l1 -> 9 * length (all_keys d wild) + 9 <= moves false l2 ->
  let go := run grow sso wild splitby selindex skip limit (begin wild (NewIterator d)) in
  exists s, go (l1 ++ l2) = (s, WDone true, RDone) /\
    (caught_up (go l1) -> sFinalKeys s = final_keys wild splitby selindex skip limit (all_keys d wild)).
Proof. intros. by apply run_finished. Qed.

(** C28. The answer of [getJoinedMapThreaded], whatever the interleaving of its
    threads: with keys too long to be kept inside a string object it returns
    true with the selected parts of the page of the matching keys, among the
    keys of the prefix up to some point, and the map of the stored keys that
    are these parts between a prefix and a suffix.  (The keys behind that point
    are lost.)  With shorter keys the call may also read released memory. *)
Theorem threaded_join_results `{plat : Platform} {R : RocksDB} {RL : RocksDBLaws} (grow : nat -> nat)
    (sso : nat) (w : world) (d : DB) (args : rvalue) (wild splitby : string) (selindex : Z)
    (j : rvalue) (join : list rvalue) (affs : list (string * string)) (skip limit : Z)
    (rs : list wvalue) (r : outcome bool * list wvalue) :
  opened w d -> readable (contents d) -> window_ok skip limit ->
  (Z.of_nat (length (all_keys d wild)) <= INT_MAX)%Z ->
  join_arguments args = Ok (wild, splitby, selindex, j) -> leading_star wild = false ->
  r_elems j = Ok join -> Forall2 reads_affix join affs ->
  getJoinedMapThreaded_returns grow sso w args skip limit rs r ->
  (r = (Undef, rs) /\ ~ long_keys sso d wild) \/
  exists n joined,
    let ks := final_keys wild splitby selindex skip limit (take n (all_keys d wild)) in
    r = (Ok true, rs ++ [WList (WStr <$> ks); joined]) /\
    forall k, w_get k joined =
      match sm_lookup k (contents d) with
      | Some v => if decide (k ∈ joined_keys affs ks) then stored_value v else WNull
      | None => WNull
      end.
Proof.
  intros Ho Hr Hwin Hlen Ha Hls Hj Haff H. pose proof Ho as [Hd Hs].
  destruct H as [H|e _ H|_ H|? ? ? ? _ H Hst|? ? ? ? _ H _ Hdb|wd sp si jn d' l s wr _ H _ Hdb Hrun
    |wd sp si jn d' l s ok _ H _ Hdb Hrun]; try congruence; rewrite Ha in H; injection H as <- <- <- <-;
    assert (d' = d) as -> by congruence.
  - left. split; [done|]. intros Hl.
    assert (alive (run grow sso wild splitby selindex skip limit (begin wild (NewIterator d)) l)) as Hal
      by (by apply (alive_run _ _ d); [..|apply begin_ok|]).
    by rewrite Hrun in Hal.
  - right. assert (config_ok d wild splitby selindex skip limit
      (run grow sso wild splitby selindex skip limit (begin wild (NewIterator d)) l)) as Hok
      by (by apply run_ok, begin_ok).
    rewrite Hrun in Hok. destruct Hok as [|[Hw [n Hre]]]; [done|].
    assert (status_true (run grow sso wild splitby selindex skip limit (begin wild (NewIterator d)) l)) as Hst
      by by apply status_run.
    rewrite Hrun in Hst. cbn in Hst. subst ok. exists n.
    pose proof (gathered _ _ _ _ _ _ Hwin _ _ _ _ Hre Hw) as Eks.
    set (ks := final_keys _ _ _ _ _ _) in *.
    exists (joined_map (contents d) (joined_keys affs ks) WNull). split.
    + unfold bind at 1, lift at 1. rewrite Hj, Eks.
      by rewrite (join_loop_all w d ks join affs) by done.
    + intros k. rewrite joined_map_get by by left. by destruct (sm_lookup k (contents d)).
Qed.

(** ** Concrete schedules *)

Section join_witnesses.
Import Demo.

(** Vectors that double; strings that hold up to 15 characters themselves *)
Definition double_up (n : nat) : nat := if (n =? 0)%nat then 1 else 2 * n.
Abbreviation demo_run wild skip limit l :=
  (run double_up 15 wild "_" 1 skip limit (begin wild (NewIterator d)) l).

(** The writer moves between the reader's test of [nextKey] and its test of
    [readerExit]: all three keys are lost. *)
Lemma last_keys_lost :
  let l := replicate 3 false ++ replicate 5 true ++ [false] in
  finished (demo_run "user_*" 0 (-1) l) = true /\ sFinalKeys (demo_run "user_*" 0 (-1) l).1.1 = [] /\
  final_keys "user_*" "_" 1 0 (-1) (all_keys d "user_*") = ["1"; "2"; "3"].
Proof. by vm_compute. Qed.

(** The vector grows while the reader holds the text of a short key. *)
Lemma short_key_released :
  alive (demo_run "user_*" 0 (-1) ([true; false; true; false])) -> False.
Proof. by vm_compute. Qed.

(** A store with long keys *)
Definition long_d : DB := [("profiles_of_user_3", Some "3"); ("profiles_of_user_1", Some "1"); ("u1", Some "5")].
Definition long_w : world := set_db long_d w.
Definition long_args : rvalue :=
  load (q "{`keys`:`profiles*`,`splitby`:`_`,`selindex`:3,`join`:[{`prefix`:`u`,`suffix`:``}]}").

Lemma long_long : long_keys 15 long_d "profiles*".
Proof. repeat constructor; by vm_compute; lia. Qed.

Definition long_schedule : list bool := [true; false; false; true; false] ++ replicate 4 true.

Theorem threaded_join_ends_witness :
  let go := run double_up 15 "profiles*" "_" 3 0 (-1) (begin "profiles*" (NewIterator long_d)) in
  exists s, go (long_schedule ++ replicate 27 false) = (s, WDone true, RDone) /\
    sFinalKeys s = ["1"; "3"].
Proof.
  destruct (threaded_join_ends double_up 15 long_d "profiles*" "_" 3 0 (-1) long_schedule (replicate 27 false))
    as (s & H1 & H2).
  - apply (bool_decide_eq_true_1 (window_ok 0 (-1))). reflexivity.
  - vm_compute. discriminate.
  - apply long_long.
  - apply Nat.leb_le. reflexivity.
  - apply Nat.leb_le. reflexivity.
  - exists s. split; [exact H1|]. rewrite H2; [reflexivity|]. exact I.
Defined.

Definition long_answer : outcome bool * list wvalue :=
  (Ok true, [WList [WStr "1"; WStr "3"]; WObj [("u1", WNum 5%Z)]]).

Lemma long_returns : getJoinedMapThreaded_returns double_up 15 long_w long_args 0 (-1) [] long_answer.
Proof.
  exact (threaded_joined double_up 15 long_w long_args 0 (-1) [] "profiles*" "_" 3 _ long_d
    (long_schedule ++ replicate 27 false) _ true eq_refl eq_refl eq_refl eq_refl eq_refl).
Qed.

Theorem threaded_join_results_witness :
  getJoinedMapThreaded_returns double_up 15 long_w long_args 0 (-1) [] long_answer /\
  exists n joined, long_answer =
    (Ok true, [] ++ [WList (WStr <$> final_keys "profiles*" "_" 3 0 (-1) (take n (all_keys long_d "profiles*"))); joined]).
Proof.
  split; [apply long_returns|].
  destruct (threaded_join_results double_up 15 long_w long_d long_args "profiles*" "_" 3
    (Some (JList [JObj [("prefix", JStr "u"); ("suffix", JStr "")]]))
    [Some (JObj [("prefix", JStr "u"); ("suffix", JStr "")])] [("u", "")] 0 (-1) [] long_answer)
    as [[H _]|(n & joined & H1 & _)].
  - by split.
  - repeat constructor.
  - apply (bool_decide_eq_true_1 (window_ok 0 (-1))). reflexivity.
  - vm_compute. discriminate.
  - reflexivity.
  - reflexivity.
  - reflexivity.
  - repeat constructor.
  - apply long_returns.
  - exfalso. discriminate H.
  - exists n, joined. exact H1.
Defined.
End join_witnesses.
