(* ===== verification/Sockets.v ===== *)
(** * Rooms on web sockets

    [QSocket] (src/include/qsocket.hpp) and [Quarks::SocketInterceptor]
    (src/src/quarks.cpp): connections with the id of a user, the map from
    "room_user" to the connection, the map from "user_room" to the room, and
    the handlers of the three events.  [QSocket] holds one mutex during a
    handler, so an execution is a sequence of whole handlers.  A connection is
    a number that is never used again; [users] are the connections that are
    alive, and sending through the null pointer or to a connection that is not
    alive is undefined. *)

From stdpp Require Import gmap.
From S2P Require Import Prelude SortedMap Wildcmp Json Store World Scan Frames Cache CoreRead CoreWrite.
Local Open Scope quarks_scope.

Definition conn : Type := nat.

Inductive payload := Text (s : string) | Binary (s : string).

Section sockets.
Context {plat : Platform} {R : RocksDB}.

(** What the [n]-th call of [getCurrentTimestamp] gives; the turns of the loops
    of a query. *)
Context (timestamp : nat -> string) (fuel : nat).

Record sock := {
  core : world;                     (* [Core::_Instance] *)
  connMap : smap (option conn);     (* [_connMap]; [None]: the null pointer *)
  userRooms : smap string;          (* [_userRoomsMap] *)
  notifyAllOnClose : bool;
  users : list conn;                (* [QSocket::users], in the order it is traversed *)
  userdata : gmap conn string;      (* the ids; no entry: the null pointer *)
  clock : nat;                      (* how often the time was read *)
  sent : list (conn * payload)      (* the messages sent, the oldest first *)
}.

Definition set_core w s := {| core := w; connMap := connMap s; userRooms := userRooms s;
  notifyAllOnClose := notifyAllOnClose s; users := users s; userdata := userdata s;
  clock := clock s; sent := sent s |}.
Definition set_maps cm ur s := {| core := core s; connMap := cm; userRooms := ur;
  notifyAllOnClose := notifyAllOnClose s; users := users s; userdata := userdata s;
  clock := clock s; sent := sent s |}.
Definition set_notify b s := {| core := core s; connMap := connMap s; userRooms := userRooms s;
  notifyAllOnClose := b; users := users s; userdata := userdata s;
  clock := clock s; sent := sent s |}.
Definition set_users us ud s := {| core := core s; connMap := connMap s;
  userRooms := userRooms s; notifyAllOnClose := notifyAllOnClose s; users := us;
  userdata := ud; clock := clock s; sent := sent s |}.
Definition set_sent n l s := {| core := core s; connMap := connMap s; userRooms := userRooms s;
  notifyAllOnClose := notifyAllOnClose s; users := users s; userdata := userdata s;
  clock := n; sent := l |}.

(** The constructor [SocketInterceptor(core)]; no connection yet. *)
Definition initial (w : world) : sock := {| core := w; connMap := []; userRooms := [];
  notifyAllOnClose := true; users := []; userdata := ∅; clock := 0; sent := [] |}.

(** ** Ranges of keys *)

(** [lookup]: the entry with the key, or else those whose keys start with it. *)
Definition lookup_range {A} (items : smap A) (key : string) : list (string * A) :=
  let p := sm_lower_bound key items in
  match items !! p with
  | Some (k, v) =>
      if String.eqb k key then [(k, v)]
      else take_while (fun kv => starts_with key kv.1) (drop p items)
  | None => []
  end.

Definition erase_range {A} (range items : smap A) : smap A :=
  foldl (fun m kv => sm_delete kv.1 m) items range.

(** ** Sending *)

(** [u->send_text(...)], [u->send_binary(...)] *)
Definition send (u : option conn) (p : payload) : SM sock unit := fun s =>
  match u with
  | Some c => if decide (c ∈ users s) then (Ok tt, set_sent (clock s) (sent s ++ [(c, p)]) s)
              else (Undef, s)
  | None => (Undef, s)
  end.
Definition send_text (u : option conn) (data : string) : SM sock unit := send u (Text data).

Definition getCurrentTimestamp : SM sock string := fun s =>
  (Ok (timestamp (clock s)), set_sent (S (clock s)) (sent s) s).

Definition broadcast (room data : string) : SM sock unit :=
  let! s := get_st in
  for_all (fun kv => send_text kv.2 data) (lookup_range (connMap s) room).

(** The overload that skips a connection *)
Definition broadcast_skip (room data : string) (skipconn : conn) : SM sock unit :=
  let! s := get_st in
  for_all (fun kv => if decide (kv.2 = Some skipconn) then ret tt else send_text kv.2 data)
    (lookup_range (connMap s) room).

(** ** Saving *)

(** [Quarks().dump(key, value, out)] *)
Definition save (key value : string) : SM sock (bool * string) := fun s =>
  match dump_ key value (EmptyString, core s) with
  | (Ok b, (out, w)) => (Ok (b, out), set_core w s)
  | (Throw e, (_, w)) => (Throw e, set_core w s)
  | (Undef, (_, w)) => (Undef, set_core w s)
  | (Fuel, (_, w)) => (Fuel, set_core w s)
  end.

(** The answer when a message cannot be saved *)
Definition reply_error (c : conn) (x : rvalue) (out : string) : SM sock unit :=
  let! object := lift (to_wvalue x) in
  send_text (Some c) (dump (w_set "object" object (w_set "error" (WStr out) WNull))).
(** ** Joining a room *)

Definition roomKey (room id : string) : string := room +:+ "_" +:+ id.
Definition userKey (id room : string) : string := id +:+ "_" +:+ room.

(** The object with the time that is sent to the others *)
Definition stamped (w : wvalue) : SM sock string :=
  let! now := getCurrentTimestamp in ret (dump (w_set "timestamp" (WStr now) w)).

Definition notify_join (c : conn) (id room : string) (x : rvalue) : SM sock unit :=
  let wsend := w_set "from" (WStr id) (w_set "joined" (WStr room) WNull) in
  let! extra := lift (member x "data" to_wvalue) in
  let! data := stamped (with_member "data" extra wsend) in
  let! key := lift (member x "key" r_s) in
  do! match key with
      | Some key =>
          let! (saved, out) := save key data in
          if saved : bool then ret tt else reply_error c x out
      | None => ret tt
      end;
  broadcast room data.

(** [_connMap\[roomKey\] = &conn], [_userRoomsMap\[userKey\] = room] *)
Definition enter (c : conn) (id room : string) (s : sock) : sock :=
  set_maps (sm_insert (roomKey room id) (Some c) (connMap s))
    (sm_insert (userKey id room) room (userRooms s)) s.

Definition on_join (c : conn) (_id : option string) (x : rvalue) : SM sock unit :=
  let! room := lift (r_at_s x "join") in
  match _id with
  | None => ret tt
  | Some id =>
      let! notify := lift (member x "notifyjoin" r_b) in
      do! match notify with
          | Some true => notify_join c id room x
          | _ => ret tt
          end;
      let! leave := lift (member x "notifyleave" r_b) in
      do! match leave with Some b => modify (set_notify b) | None => ret tt end;
      modify (enter c id room)
  end.

(** ** The list of a room *)

(** The loop over the range: [i > skip && i != limit], with [skip] one less. *)
Fixpoint userlist_page (skip limit i : Z) (l : list string) : list string :=
  match l with
  | [] => []
  | k :: l =>
      let rest := userlist_page skip limit (int32 (i + 1)) l in
      if (int32 (skip - 1) <? i)%Z && negb (i =? limit)%Z then k :: rest else rest
  end.

Definition on_userlist (c : conn) (x : rvalue) : SM sock unit :=
  let! room := lift (r_at_s x "userlist") in
  let! s := get_st in
  let items := lookup_range (connMap s) (room +:+ "_") in
  let! skip := lift (member x "skip" r_i) in
  let skip := int32 (default 0%Z skip) in
  let! limit := lift (member x "limit" r_i) in
  let limit := int32 (default (-1)%Z limit) in
  let list := WStr <$> userlist_page skip limit 0 items.*1 in
  let! reply := stamped (w_set "limit" (w_int limit) (w_set "skip" (w_int skip)
                  (w_set "replyuserlist" (WList list) (w_set "room" (WStr room) WNull)))) in
  send_text (Some c) reply.

(** ** Sending to a room or to one of its users *)

(** [auto u = _connMap\[key\]] enters the null pointer for an absent key. *)
Definition conn_at (key : string) : SM sock (option conn) := fun s =>
  match sm_lookup key (connMap s) with
  | Some u => (Ok u, s)
  | None => (Ok None, set_maps (sm_insert key None (connMap s)) (userRooms s) s)
  end.

Definition deliver (c : conn) (x : rvalue) (room message data : string) (is_binary : bool)
    : SM sock unit :=
  let! to := lift (member x "to" r_s) in
  match to with
  | Some to =>
      let! u := conn_at (roomKey room to) in
      match u with
      | Some u => send (Some u) (if is_binary then Binary data else Text message)
      | None => ret tt
      end
  | None => broadcast_skip room (if is_binary then data else message) c
  end.

Definition on_send (c : conn) (_id : option string) (x : rvalue) (data : string)
    (is_binary : bool) : SM sock unit :=
  let! room := lift (member x "room" r_s) in
  let room := default EmptyString room in
  let! message := lift (let? v := r_at x "send" in to_wvalue v) in
  let wsend := w_set "message" message (w_set "room" (WStr room) WNull) in
  let! message := stamped (with_member "from" (WStr <$> _id) wsend) in
  let! key := lift (member x "key" r_s) in
  match key with
  | Some key =>
      let! (saved, out) := save key message in
      if saved : bool then
        do! send_text (Some c) (dump (w_set "key" (WStr key) (w_set "received" WTrue
                                  (w_set "room" (WStr room) WNull))));
        deliver c x room message data is_binary
      else reply_error c x out
  | None => deliver c x room message data is_binary
  end.

(** ** [onQueryMessage] *)

Definition query_message (c : conn) (x : rvalue) : SM sock unit :=
  let! b := lift (r_has x "getkeys") in
  if b : bool then
    let! skip := lift (member x "skip" r_i) in
    let skip := int32 (default 0%Z skip) in
    let! limit := lift (member x "limit" r_i) in
    let limit := int32 (default (-1)%Z limit) in
    let! wild := lift (r_at_s x "getkeys") in
    let! s := get_st in
    let (r, out) := getKeys fuel (core s) wild skip limit [] in
    let! ok := lift r in
    if ok : bool then
      send_text (Some c) (dump (w_set "limit" (w_int limit) (w_set "skip" (w_int skip)
                            (w_set "replygetkeys" (WList out) WNull))))
    else ret tt
  else ret tt.

Definition onQueryMessage (c : conn) (x : rvalue) : SM sock bool :=
  do! try_runtime (query_message c x) (fun _ => ret tt); ret true.

(** ** [onMessage] *)

Definition message (c : conn) (x : rvalue) (data : string) (is_binary : bool) : SM sock bool :=
  let! s := get_st in
  let _id := userdata s !! c in
  do! lift (member x "connect" r_b);
  let! join := lift (r_has x "join") in
  if join : bool then do! on_join c _id x; ret true
  else
    let! userlist := lift (r_has x "userlist") in
    if userlist : bool then do! on_userlist c x; ret true
    else
      let! send := lift (r_has x "send") in
      if send : bool then do! on_send c _id x data is_binary; ret true
      else onQueryMessage c x.

Definition onMessage (c : conn) (data : string) (is_binary : bool) : SM sock bool :=
  match data with
  | EmptyString => ret true
  | _ =>
      match load data with
      | None => if is_binary then try_runtime (message c None data is_binary) (fun _ => ret true)
                else ret true
      | x => try_runtime (message c x data is_binary) (fun _ => ret true)
      end
  end.

(** ** [onClose] *)

(** One turn of the loop over the rooms of the user *)
Definition leave_room (c : conn) (id : string) (entry : string * string) : SM sock unit :=
  let room := entry.2 in
  let! s := get_st in
  do! (if notifyAllOnClose s then
         let! data := stamped (w_set "from" (WStr id) (w_set "left" (WStr room) WNull)) in
         broadcast_skip room data c
       else ret tt);
  modify (fun s => set_maps (sm_delete (roomKey room id) (connMap s)) (userRooms s) s).

Definition onClose (c : conn) : SM sock unit :=
  let! s := get_st in
  match userdata s !! c with
  | None => ret tt
  | Some id =>
      let rooms := lookup_range (userRooms s) (id +:+ "_") in
      do! for_all (leave_room c id) rooms;
      modify (fun s => set_maps (connMap s) (erase_range rooms (userRooms s)) s)
  end.

(** ** The handlers of [QSocket]

    [handle_upgrade] opens the connection, gives it its id and the message
    that it is connected. *)
Inductive sock_event :=
  | SOpen (c : conn) (id : string)
  | SMessage (c : conn) (data : string) (is_binary : bool)
  | SClose (c : conn).

Definition on_message (c : conn) (data : string) (is_binary : bool) : SM sock unit :=
  let! preventDefault := onMessage c data is_binary in
  if preventDefault : bool then ret tt
  else
    let! s := get_st in
    for_all (fun u => send (Some u) (if is_binary then Binary data else Text data)) (users s).

Definition handle (e : sock_event) : SM sock unit :=
  match e with
  | SOpen c id =>
      do! modify (fun s => set_users (c :: users s) (<[c := c_str id]> (userdata s)) s);
      on_message c (q "{`connect`:true}") false
  | SMessage c data is_binary => on_message c data is_binary
  | SClose c =>
      do! onClose c;
      modify (fun s => set_users (filter (fun u => u <> c) (users s)) (delete c (userdata s)) s)
  end.

(** A connection sends and closes while it is alive; a new one is not alive yet. *)
Inductive sock_step : sock -> sock_event -> sock -> Prop :=
  | step_open c id s s' :
      c ∉ users s -> handle (SOpen c id) s = (Ok tt, s') -> sock_step s (SOpen c id) s'
  | step_message c data b s s' :
      c ∈ users s -> handle (SMessage c data b) s = (Ok tt, s') -> sock_step s (SMessage c data b) s'
  | step_close c s s' :
      c ∈ users s -> handle (SClose c) s = (Ok tt, s') -> sock_step s (SClose c) s'.
End sockets.

(** ** What the handlers leave alone *)

Section frames.
Context {plat : Platform} {R : RocksDB} (timestamp : nat -> string) (fuel : nat).

(** A property of the maps and the connections only. *)
Definition about_rooms (I : sock -> Prop) : Prop :=
  forall s s', connMap s' = connMap s -> userRooms s' = userRooms s ->
    users s' = users s -> userdata s' = userdata s -> I s -> I s'.

Context (I : sock -> Prop) (HI : about_rooms I).

Lemma rooms_modify f :
  (forall s, connMap (f s) = connMap s /\ userRooms (f s) = userRooms s /\
             users (f s) = users s /\ userdata (f s) = userdata s) ->
  preserves I (modify f).
Proof. intros Hf s H. destruct (Hf s) as (?&?&?&?). by apply (HI s). Qed.

Lemma preserves_send u p : preserves I (send u p).
Proof.
  intros s H. unfold send. destruct u as [c|]; [|done].
  case_decide; [by apply (HI s)|done].
Qed.

Lemma preserves_stamped w : preserves I (stamped timestamp w).
Proof. intros s H. by apply (HI s). Qed.

Lemma preserves_save key value : preserves I (save key value).
Proof.
  intros s H. unfold save. destruct (dump_ key value (EmptyString, core s)) as [[b|e| |] [out w]];
    by apply (HI s).
Qed.

Lemma preserves_broadcast room data : preserves I (broadcast room data).
Proof. apply preserves_get. intros s. apply preserves_for_all. intros kv. apply preserves_send. Qed.

Lemma preserves_broadcast_skip room data c : preserves I (broadcast_skip room data c).
Proof.
  apply preserves_get. intros s. apply preserves_for_all. intros kv.
  case_decide; [apply preserves_ret|apply preserves_send].
Qed.
End frames.

#[export] Hint Resolve preserves_send preserves_stamped preserves_save preserves_broadcast
  preserves_broadcast_skip : frames.

Section frames_of_handlers.
Context {plat : Platform} {R : RocksDB} (timestamp : nat -> string) (fuel : nat).
Context (I : sock -> Prop) (HI : about_rooms I).

Lemma preserves_reply_error c x out : preserves I (reply_error c x out).
Proof. unfold reply_error. eauto 10 with frames. Qed.
Hint Resolve preserves_reply_error : frames.

Lemma preserves_notify_join c id room x : preserves I (notify_join timestamp c id room x).
Proof. unfold notify_join. eauto 20 with frames. Qed.

Lemma preserves_userlist c x : preserves I (on_userlist timestamp c x).
Proof. unfold on_userlist, send_text. eauto 20 with frames. Qed.

Lemma preserves_query c x : preserves I (onQueryMessage fuel c x).
Proof.
  unfold onQueryMessage, query_message, send_text. apply preserves_bind; [|auto with frames].
  apply preserves_try; [|auto with frames]. eauto 30 with frames.
Qed.

(** Sending may enter a null pointer, nothing else. *)
Lemma preserves_send_message c id x data b :
  (forall key s, I s -> sm_lookup key (connMap s) = None ->
     I (set_maps (sm_insert key None (connMap s)) (userRooms s) s)) ->
  preserves I (on_send timestamp c id x data b).
Proof.
  intros Hnull.
  assert (forall room m, preserves I (deliver c x room m data b)) as Hd.
  { intros room m. unfold deliver. apply preserves_bind; [auto with frames|].
    intros [to|]; [|auto with frames]. apply preserves_bind.
    - intros s H. unfold conn_at. destruct (sm_lookup (roomKey room to) (connMap s)) eqn:E; [done|].
      by apply Hnull.
    - intros [u|]; auto with frames. }
  unfold on_send, send_text. eauto 30 with frames.
Qed.
End frames_of_handlers.

(** ** The rooms of a user *)

Lemma foldl_delete_lookup {A X} (f : X -> string) (l : list X) (m : smap A) k : sm_wf m ->
  sm_lookup k (foldl (fun m x => sm_delete (f x) m) m l)
  = if decide (k ∈ f <$> l) then None else sm_lookup k m.
Proof.
  revert m. induction l as [|x l IH]; intros m Hm; cbn [foldl].
  { rewrite decide_False; [done|apply not_elem_of_nil]. }
  rewrite IH, sm_lookup_delete by (done || by apply sm_delete_wf). rewrite fmap_cons.
  destruct (decide (f x = k)) as [<-|Hne].
  - rewrite (decide_True (P := f x ∈ f x :: (f <$> l))) by (apply elem_of_cons; by left).
    by case_decide.
  - destruct (decide (k ∈ f <$> l)) as [Hin|Hin].
    + rewrite decide_True; [done|]. apply elem_of_cons. by right.
    + rewrite decide_False; [done|]. rewrite elem_of_cons. by intros [?|?].
Qed.

Lemma foldl_delete_wf {A X} (f : X -> string) (l : list X) (m : smap A) :
  sm_wf m -> sm_wf (foldl (fun m x => sm_delete (f x) m) m l).
Proof. revert m. induction l as [|x l IH]; intros m Hm; [done|]. by apply IH, sm_delete_wf. Qed.

(** A range that does not hold its own key: the keys that start with it. *)
Lemma lookup_range_prefix {A} (m : smap A) key : sm_wf m -> sm_lookup key m = None ->
  lookup_range m key = filterb (fun kv => starts_with key kv.1) m.
Proof.
  intros Hm Hk. etrans; [|by apply sm_prefix_range].
  rewrite <- drop_lower_bound. unfold lookup_range.
  destruct (m !! sm_lower_bound key m) as [[k v]|] eqn:E.
  - destruct (String.eqb_spec k key) as [->|]; [|done].
    apply list_elem_of_lookup_2, sm_lookup_In in E; [congruence|done].
  - apply lookup_ge_None in E. by rewrite drop_ge.
Qed.



(** An id without an underscore is found again in front of the first one. *)
Definition plain_id (id : string) : Prop := find_char "_" id = None.

Lemma plain_cons c id : plain_id (String c id) -> Ascii.eqb c "_" = false /\ plain_id id.
Proof.
  unfold plain_id. simpl. destruct (Ascii.eqb c "_"); [done|].
  by destruct (find_char "_" id).
Qed.

Lemma plain_prefix id id' s : plain_id id -> plain_id id' ->
  starts_with (id +:+ "_") (id' +:+ "_" +:+ s) = true -> id = id'.
Proof.
  revert id'. induction id as [|c id IH]; intros [|c' id'] H H' Hs; [done|..].
  - apply plain_cons in H' as [H' _]. simpl in Hs. apply andb_prop in Hs as [Hs _].
    apply Ascii.eqb_eq in Hs as <-. by rewrite Ascii.eqb_refl in H'.
  - apply plain_cons in H as [H _]. simpl in Hs. apply andb_prop in Hs as [Hs _].
    congruence.
  - apply plain_cons in H as [_ H]. apply plain_cons in H' as [_ H']. simpl in Hs.
    apply andb_prop in Hs as [->%Ascii.eqb_eq Hs]. f_equal. by apply IH.
Qed.

Lemma userKey_prefix id room : starts_with (id +:+ "_") (userKey id room) = true.
Proof.
  unfold userKey. change ("_" +:+ room) with ("_" +:+ (EmptyString +:+ room)).
  apply starts_with_spec. exists room. by rewrite <- sapp_assoc.
Qed.

Lemma userKey_inj id id' room room' : plain_id id -> plain_id id' ->
  userKey id room = userKey id' room' -> id = id' /\ room = room'.
Proof.
  intros H H' E. assert (id = id') as ->.
  { apply (plain_prefix _ _ room'); [done..|].
    change (starts_with (id +:+ "_") (userKey id' room') = true).
    rewrite <- E. apply userKey_prefix. }
  split; [done|]. unfold userKey in E. apply sapp_inj_length in E as [_ E]; [|done].
  by injection E.
Qed.

(** ** The invariant *)

Section rooms.
Context {plat : Platform} {R : RocksDB} (timestamp : nat -> string) (fuel : nat).

(** Every pointer is to a live connection, entered under a room and its own
    id, and that room is recorded for the id. *)
Definition registered (s : sock) (k : string) (c : conn) : Prop :=
  c ∈ users s /\ exists id room, userdata s !! c = Some id /\ k = roomKey room id /\
    sm_lookup (userKey id room) (userRooms s) = Some room.

Record rooms_ok (s : sock) : Prop := {
  ro_conn_wf : sm_wf (connMap s);
  ro_rooms_wf : sm_wf (userRooms s);
  ro_conn k c : sm_lookup k (connMap s) = Some (Some c) -> registered s k c;
  ro_rooms k room : sm_lookup k (userRooms s) = Some room ->
    room <> EmptyString /\ exists id, plain_id id /\ k = userKey id room;
  ro_ids c id : userdata s !! c = Some id -> plain_id id
}.

Lemma rooms_ok_frame : about_rooms rooms_ok.
Proof.
  intros s s' E1 E2 E3 E4 []. constructor; unfold registered in *;
    rewrite ?E1, ?E2, ?E3, ?E4; done.
Qed.

Lemma initial_rooms w : rooms_ok (initial w).
Proof. constructor; try done; by constructor. Qed.

Lemma null_rooms key s : rooms_ok s -> sm_lookup key (connMap s) = None ->
  rooms_ok (set_maps (sm_insert key None (connMap s)) (userRooms s) s).
Proof.
  intros [] Hk. constructor; cbn [connMap userRooms userdata set_maps]; try done.
  - by apply sm_insert_wf.
  - intros k c. rewrite sm_lookup_insert. case_decide; [done|]. apply ro_conn0.
Qed.

Lemma enter_rooms c id room s : rooms_ok s -> c ∈ users s -> userdata s !! c = Some id ->
  room <> EmptyString -> rooms_ok (enter c id room s).
Proof.
  intros [] Hc Hid Hroom. pose proof (ro_ids0 _ _ Hid) as Hp.
  constructor; cbn [enter connMap userRooms userdata users set_maps]; try done.
  - by apply sm_insert_wf.
  - by apply sm_insert_wf.
  - intros k c'. rewrite sm_lookup_insert. case_decide as Hk.
    + intros [= <-]. split; [done|]. exists id, room. split_and!; [done..|].
      apply sm_lookup_insert_eq.
    + intros H. destruct (ro_conn0 _ _ H) as (Hu & id' & room' & H1 & H2 & H3).
      split; [done|]. exists id', room'. split_and!; [done..|].
      cbn [enter userRooms set_maps]. rewrite sm_lookup_insert. case_decide as E; [|done].
      apply userKey_inj in E as [_ ->]; [done|done|by eapply ro_ids0].
  - intros k room'. rewrite sm_lookup_insert. case_decide as E; [|by apply ro_rooms0].
    intros [= <-]. split; [done|]. by exists id.
Qed.
(** *** Messages *)

(** The invariant, for a connection that is alive and has this id. *)
Definition rooms_of (c : conn) (id : option string) (s : sock) : Prop :=
  rooms_ok s /\ c ∈ users s /\ userdata s !! c = id.

Lemma rooms_of_frame c id : about_rooms (rooms_of c id).
Proof.
  intros s s' E1 E2 E3 E4 (H & Hc & Hi). split; [by eapply rooms_ok_frame|].
  by rewrite E3, E4.
Qed.
Hint Resolve rooms_of_frame : frames.

Lemma join_rooms c id x : r_at_s x "join" <> Ok EmptyString ->
  preserves (rooms_of c id) (on_join timestamp c id x).
Proof.
  intros Hx. unfold on_join. apply preserves_lift_bind. intros room Hroom.
  destruct id as [id|]; [|auto with frames].
  apply preserves_bind; [auto with frames|]. intros notify.
  apply preserves_bind.
  { destruct notify as [[]|]; [|auto with frames..].
    apply preserves_notify_join, rooms_of_frame. }
  intros _. apply preserves_bind; [auto with frames|]. intros leave.
  apply preserves_bind.
  { destruct leave; [|auto with frames]. apply rooms_modify; [apply rooms_of_frame|done]. }
  intros _ s (H & Hc & Hi). split; [|done]. apply enter_rooms; try done. congruence.
Qed.

Lemma message_rooms c x data b s : r_at_s x "join" <> Ok EmptyString ->
  rooms_ok s -> c ∈ users s -> rooms_ok (message timestamp fuel c x data b s).2.
Proof.
  intros Hx H Hc.
  assert (preserves (rooms_of c (userdata s !! c)) (fun _ => message timestamp fuel c x data b s))
    as Hp; [|by apply (Hp s)].
  unfold message. intros s' _. unfold bind at 1, get_st at 1. revert s'.
  assert (forall A (m : SM sock A) (I : sock -> Prop), I s -> preserves I m ->
            forall s' : sock, I (m s).2) as Hcut by (intros; by auto).
  apply Hcut; [by split|]. clear Hcut. set (id := userdata s !! c).
  pose proof (rooms_of_frame c id) as Hf.
  apply preserves_bind; [auto with frames|]. intros _.
  apply preserves_bind; [auto with frames|]. intros [].
  { apply preserves_bind; [by apply join_rooms|auto with frames]. }
  apply preserves_bind; [auto with frames|]. intros [].
  { apply preserves_bind; [by apply preserves_userlist|auto with frames]. }
  apply preserves_bind; [auto with frames|]. intros []; [|by apply preserves_query].
  apply preserves_bind; [|auto with frames]. apply preserves_send_message; [done|].
  intros key s2 (H2 & ? & ?) Hk. split; [by apply null_rooms|done].
Qed.

Lemma on_message_rooms c data b s : (forall x, load data = x -> r_at_s x "join" <> Ok EmptyString) ->
  rooms_ok s -> c ∈ users s -> rooms_ok (on_message timestamp fuel c data b s).2.
Proof.
  intros Hx H Hc.
  assert (rooms_ok (onMessage timestamp fuel c data b s).2) as Hm.
  { unfold onMessage. destruct data as [|a data]; [done|].
    assert (forall x, load (String a data) = x -> rooms_ok (try_runtime
      (message timestamp fuel c x (String a data) b) (fun _ => ret true) s).2) as Ht.
    { intros x E. pose proof (message_rooms c x (String a data) b s (Hx x E) H Hc) as Hr.
      unfold try_runtime. by destruct (message _ _ _ _ _ _ s) as [[?|[]| |] s']. }
    destruct (load (String a data)) eqn:E; [by apply Ht|].
    destruct b; [by apply Ht|done]. }
  unfold on_message, bind. destruct (onMessage timestamp fuel c data b s) as [[[]| | |] s']; try done.
  apply (preserves_for_all rooms_ok); [|done]. intros u. apply preserves_send, rooms_ok_frame.
Qed.

(** *** Closing *)

(** The same maps and connections, but for the entries of a user's rooms. *)
Lemma leave_all c id l s s' : for_all (leave_room timestamp c id) l s = (Ok tt, s') ->
  connMap s' = foldl (fun m e => sm_delete (roomKey e.2 id) m) (connMap s) l /\
  userRooms s' = userRooms s /\ users s' = users s /\ userdata s' = userdata s.
Proof.
  revert s. induction l as [|[k room] l IH]; intros s; [by intros [= <-]|].
  rewrite for_all_cons. unfold bind at 1, leave_room at 1. unfold bind at 1, get_st at 1.
  set (quiet := fun s1 : sock => connMap s1 = connMap s /\ userRooms s1 = userRooms s /\
                  users s1 = users s /\ userdata s1 = userdata s).
  assert (about_rooms quiet) as Hq.
  { intros s1 s2 E1 E2 E3 E4 (?&?&?&?). unfold quiet. by rewrite E1, E2, E3, E4. }
  match goal with |- context [bind ?m _ s] =>
    assert (preserves quiet m) as Hm by (destruct (notifyAllOnClose s); auto with frames);
    specialize (Hm s); unfold bind at 1; destruct (m s) as [[[]| | |] s1] end; try done.
  destruct Hm as (E1 & E2 & E3 & E4); [done|]. intros Hall. unfold modify in Hall.
  destruct (IH _ Hall) as (F1 & F2 & F3 & F4).
  cbn [fst snd connMap userRooms users userdata set_maps] in *.
  by rewrite F1, F2, F3, F4, E1, E2, E3, E4.
Qed.

Lemma close_rooms c s s' : rooms_ok s -> c ∈ users s ->
  handle timestamp fuel (SClose c) s = (Ok tt, s') -> rooms_ok s'.
Proof.
  intros H Hc. destruct H as [Hcw Hrw Hconn Hrooms Hids]. cbn [handle].
  unfold bind at 1, onClose. unfold bind at 1, get_st at 1.
  destruct (userdata s !! c) as [id|] eqn:Hid.
  2: { intros [= <-]. constructor; cbn [connMap userRooms users userdata set_users]; try done.
       - intros k c' Hk. destruct (Hconn _ _ Hk) as (Hu & id' & room' & H1 & H2 & H3).
         assert (c' <> c) as Hne by congruence. split; [by apply list_elem_of_filter|].
         exists id', room'. cbn [userdata set_users]. by rewrite lookup_delete_ne.
       - intros c' id' Hd. apply lookup_delete_Some in Hd as [_ Hd]. by eapply Hids. }
  pose proof (Hids _ _ Hid) as Hp. set (l := lookup_range (userRooms s) (id +:+ "_")).
  unfold bind at 1. destruct (for_all (leave_room timestamp c id) l s) as [[[]| | |] s1] eqn:El;
    try done.
  intros [= <-]. destruct (leave_all _ _ _ _ _ El) as (E1 & E2 & E3 & E4).
  assert (l = filterb (fun kv => starts_with (id +:+ "_") kv.1) (userRooms s)) as Hl.
  { apply lookup_range_prefix; [done|]. destruct (sm_lookup (id +:+ "_") (userRooms s)) eqn:E; [|done].
    apply Hrooms in E as (Hne & id' & Hp' & E). exfalso. apply Hne.
    change (id +:+ "_") with (userKey id EmptyString) in E.
    by apply userKey_inj in E as [_ <-]. }
  assert (forall id' room, plain_id id' -> sm_lookup (userKey id' room) (userRooms s) = Some room ->
            (userKey id' room, room) ∈ l <-> id' = id) as Hin.
  { intros id' room Hp' E. rewrite Hl, list_elem_of_filter. cbn [fst]. split.
    - intros [Hs _]. symmetry. by eapply plain_prefix.
    - intros ->. split; [apply userKey_prefix|by apply sm_lookup_In]. }
  constructor; cbn [connMap userRooms users userdata set_users set_maps].
  - rewrite E1. by apply foldl_delete_wf.
  - rewrite E2. by apply foldl_delete_wf.
  - intros k c'. rewrite E1, foldl_delete_lookup by done. case_decide as Hk; [done|].
    intros Hkc. destruct (Hconn _ _ Hkc) as (Hu & id' & room' & H1 & -> & H3).
    assert (id' <> id) as Hne.
    { intros ->. apply Hk, list_elem_of_fmap. exists (userKey id room', room').
      split; [done|]. by apply Hin. }
    assert (c' <> c) as Hcc by congruence.
    split; [apply list_elem_of_filter; by rewrite E3|]. exists id', room'.
    cbn [userRooms userdata set_maps set_users].
    rewrite E4, lookup_delete_ne by done. split_and!; [done..|].
    unfold erase_range. rewrite E2, foldl_delete_lookup by done. rewrite decide_False; [done|].
    intros ([k2 r2] & Hk2 & Hl2)%list_elem_of_fmap. cbn [fst] in Hk2. subst k2.
    apply Hne. rewrite Hl in Hl2. apply list_elem_of_filter in Hl2 as [Hs _]. cbn [fst] in Hs.
    symmetry. eapply plain_prefix; [done|by eapply Hids|exact Hs].
  - intros k room. unfold erase_range. rewrite E2, foldl_delete_lookup by done.
    case_decide; [done|]. apply Hrooms.
  - intros c' id'. rewrite E4, lookup_delete_Some. intros [_ Hd]. by eapply Hids.
Qed.
(** *** Broadcasting *)

(** Who gets a text that is sent to a range, but for one connection. *)
Definition receivers (c : conn) (l : list (string * option conn)) : list conn :=
  flat_map (fun kv => match kv.2 with
                      | Some u => if decide (u = c) then [] else [u]
                      | None => []
                      end) l.


Definition live (s : sock) (u : option conn) : Prop := exists c, u = Some c /\ c ∈ users s.

Abbreviation send_each c data :=
  (for_all (fun kv => if decide (kv.2 = Some c) then ret tt else send_text kv.2 data)).

Lemma send_each_live c data l s : Forall (fun kv => live s kv.2) l ->
  send_each c data l s
  = (Ok tt, set_sent (clock s) (sent s ++ ((fun u => (u, Text data)) <$> receivers c l)) s).
Proof.
  intros Hl. revert s Hl. induction l as [|[k u] l IH]; intros s Hl.
  { cbn. rewrite app_nil_r. by destruct s. }
  apply Forall_cons in Hl as [Hu Hl]. cbn [snd] in Hu. destruct Hu as (u' & -> & Hu).
  rewrite for_all_cons. unfold bind at 1. cbn [snd receivers flat_map].
  destruct (decide (u' = c)) as [->|Hne].
  - rewrite decide_True by done. by apply IH.
  - rewrite decide_False by congruence. unfold send_text, send. rewrite decide_True by done.
    rewrite IH by done. cbn [sent clock set_sent]. by rewrite <- app_assoc.
Qed.

(** A null pointer in the range ends the program. *)
Lemma send_each_null c data (l : list (string * option conn)) s : Forall (fun kv => kv.2 = None \/ live s kv.2) l ->
  (exists k, (k, None) ∈ l) -> (send_each c data l s).1 = Undef.
Proof.
  revert s. induction l as [|[k u] l IH]; intros s Hl [k' Hk].
  { by apply not_elem_of_nil in Hk. }
  apply Forall_cons in Hl as [Hu Hl]. rewrite for_all_cons. unfold bind at 1. cbn [snd] in *.
  destruct Hu as [->|(u' & -> & Hu)]; [done|].
  assert (exists k, (k, None) ∈ l) as Hex.
  { exists k'. by apply elem_of_cons in Hk as [[=]|?]. }
  case_decide; [by apply IH|]. unfold send_text, send. rewrite decide_True by done. by apply IH.
Qed.

Lemma lookup_range_incl {A} (m : smap A) key kv : kv ∈ lookup_range m key -> kv ∈ m.
Proof.
  unfold lookup_range. destruct (m !! sm_lower_bound key m) as [[k v]|] eqn:E; [|by intros ?%not_elem_of_nil].
  destruct (String.eqb k key).
  - intros ->%list_elem_of_singleton. by apply list_elem_of_lookup_2 in E.
  - intros H. rewrite <- (take_drop (sm_lower_bound key m) m). apply elem_of_app. right.
    rewrite <- (take_drop_while (fun kv => starts_with key kv.1)). apply elem_of_app. by left.
Qed.

Definition all_live (s : sock) : Prop := forall k u, sm_lookup k (connMap s) = Some u -> live s u.

Lemma range_live s key : sm_wf (connMap s) -> all_live s ->
  Forall (fun kv => live s kv.2) (lookup_range (connMap s) key).
Proof.
  intros Hw Hl. apply Forall_forall. intros [k u] Hk%lookup_range_incl.
  apply (Hl k). by apply sm_lookup_In.
Qed.

(** Without null pointers a connection can be closed. *)
Lemma close_live c s : rooms_ok s -> all_live s ->
  exists s', handle timestamp fuel (SClose c) s = (Ok tt, s').
Proof.
  intros H Hl. cbn [handle]. unfold bind at 1, onClose. unfold bind at 1, get_st at 1.
  destruct (userdata s !! c) as [id|]; [|by eexists].
  set (l := lookup_range (userRooms s) (id +:+ "_")).
  assert (exists s1, for_all (leave_room timestamp c id) l s = (Ok tt, s1)) as [s1 E].
  2: { unfold bind at 1. rewrite E. by eexists. }
  clearbody l. assert (sm_wf (connMap s)) as Hw by apply H. clear H. revert s Hw Hl.
  induction l as [|[k room] l IH]; intros s Hw Hl; [by eexists|]. rewrite for_all_cons.
  unfold bind at 1, leave_room at 1. unfold bind at 1, get_st at 1.
  assert (exists s1, (if notifyAllOnClose s then
      let! data := stamped timestamp (w_set "from" (WStr id) (w_set "left" (WStr room) WNull)) in
      broadcast_skip room data c else ret tt) s = (Ok tt, s1) /\
      connMap s1 = connMap s /\ users s1 = users s) as (s1 & E & E1 & E2).
  { destruct (notifyAllOnClose s); [|by exists s].
    unfold stamped, getCurrentTimestamp, broadcast_skip, bind, get_st, ret.
    eexists. split; [|split].
    - apply send_each_live. cbn [connMap set_sent]. by apply (range_live s).
    - done.
    - done. }
  cbn [snd]. unfold bind at 1. rewrite E. unfold modify. apply IH; cbn [connMap set_maps].
  - rewrite E1. by apply sm_delete_wf.
  - intros k' u. cbn [connMap set_maps]. rewrite E1, sm_lookup_delete by done.
    case_decide; [done|]. intros Hu. destruct (Hl _ _ Hu) as (c' & -> & Hc').
    exists c'. split; [done|]. cbn [users set_maps]. by rewrite E2.
Qed.
(** *** Executions *)

(** Ids hold no underscore and rooms to join have a name. *)
Definition event_ok (e : sock_event) : Prop :=
  match e with
  | SOpen _ id => plain_id (c_str id)
  | SMessage _ data _ => forall x, load data = x -> r_at_s x "join" <> Ok EmptyString
  | SClose _ => True
  end.

Inductive reach (w : world) : sock -> Prop :=
  | reach_initial : reach w (initial w)
  | reach_event s e s' : reach w s -> event_ok e -> sock_step timestamp fuel s e s' -> reach w s'.

Lemma open_rooms c id s s' : rooms_ok s -> c ∉ users s -> plain_id (c_str id) ->
  handle timestamp fuel (SOpen c id) s = (Ok tt, s') -> rooms_ok s'.
Proof.
  intros H Hc Hp. cbn [handle]. unfold bind at 1, modify. intros E.
  set (s1 := set_users (c :: users s) (<[c := c_str id]> (userdata s)) s) in E.
  assert (rooms_ok s1) as H1.
  { destruct H. constructor; cbn [s1 set_users connMap userRooms userdata users]; try done.
    - intros k c' Hk. destruct (ro_conn0 _ _ Hk) as (Hu & id' & room & F1 & F2 & F3).
      split; [by right|]. exists id', room. cbn [s1 set_users userdata userRooms].
      rewrite lookup_insert_ne; [done|]. by intros ->.
    - intros c' id' [[<- <-]|[_ Hid]]%lookup_insert_Some; [done|by eapply ro_ids0]. }
  pose proof (on_message_rooms c (q "{`connect`:true}") false s1) as Hm. rewrite E in Hm.
  apply Hm; [|done|by left]. intros x <-. by vm_compute.
Qed.

Lemma reach_rooms w s : reach w s -> rooms_ok s.
Proof.
  induction 1 as [|s e s' _ IH He Hs]; [apply initial_rooms|].
  destruct Hs as [c id s s' Hc H|c data b s s' Hc H|c s s' Hc H].
  - by eapply open_rooms.
  - pose proof (on_message_rooms c data b s He IH Hc) as Hm. cbn [handle] in H.
    by rewrite H in Hm.
  - by eapply close_rooms.
Qed.

Lemma close_users c s s' : handle timestamp fuel (SClose c) s = (Ok tt, s') -> c ∉ users s'.
Proof.
  cbn [handle]. unfold bind at 1. destruct (onClose timestamp c s) as [[[]| | |] s1]; try done.
  intros [= <-] Hc. cbn [users set_users] in Hc. by apply list_elem_of_filter in Hc as [? _].
Qed.

(** C9: in every execution in which no id holds an underscore and no room with
    an empty name is joined, every pointer of the connection map is null or
    leads to a connection that is alive, under the name of a room it joined and
    its own id; none is left to a connection that was closed, and without null
    pointers every connection can be closed. *)
Theorem no_dangling (w : world) (s : sock) : reach w s ->
  (forall k c, sm_lookup k (connMap s) = Some (Some c) -> registered s k c) /\
  (forall c s', sock_step timestamp fuel s (SClose c) s' ->
     forall k, sm_lookup k (connMap s') <> Some (Some c)) /\
  ((forall k, sm_lookup k (connMap s) <> Some None) ->
   forall c, c ∈ users s -> exists s', sock_step timestamp fuel s (SClose c) s').
Proof.
  intros H. pose proof (reach_rooms _ _ H) as Hok. split_and!.
  - apply Hok.
  - intros c s' Hs k Hk. inversion Hs as [| |? ? ? Hc Hh]; subst.
    destruct (ro_conn _ (close_rooms _ _ _ Hok Hc Hh) _ _ Hk) as [Hu _].
    by eapply close_users.
  - intros Hnull c Hc. destruct (close_live c s) as [s' Hs']; [done| |by exists s'; constructor].
    intros k [c'|] Hk; [|by apply Hnull in Hk]. exists c'. split; [done|].
    by apply (ro_conn _ Hok _ _ Hk).
Qed.

(** ** Messages to a room *)

(** A text message [{"send": m, "room": room}] that is not saved; [to] is the
    user it is for. *)
Record send_message (x : rvalue) (room : string) (to : option string) (m : wvalue) : Prop := {
  msg_connect : member x "connect" r_b = Ok None;
  msg_join : r_has x "join" = Ok false;
  msg_userlist : r_has x "userlist" = Ok false;
  msg_send : r_has x "send" = Ok true;
  msg_room : member x "room" r_s = Ok (Some room);
  msg_message : (let? v := r_at x "send" in to_wvalue v) = Ok m;
  msg_key : member x "key" r_s = Ok None;
  msg_to : member x "to" r_s = Ok to
}.

(** The text the others get *)
Definition sent_text (room id now : string) (m : wvalue) : string :=
  dump (WObj [("room", WStr room); ("message", m); ("from", WStr id); ("timestamp", WStr now)]).

Lemma send_message_run c id x data room to m s : data <> EmptyString -> load data = x ->
  send_message x room to m -> userdata s !! c = Some id ->
  let r := deliver c x room (sent_text room id (timestamp (clock s)) m) data false
    (set_sent (S (clock s)) (sent s) s) in
  (forall s', r = (Ok tt, s') -> handle timestamp fuel (SMessage c data false) s = (Ok tt, s')) /\
  (r.1 = Undef -> (handle timestamp fuel (SMessage c data false) s).1 = Undef).
Proof.
  intros Hd Hl [] Hid r. subst r. set (r := deliver _ _ _ _ _ _ _).
  assert (message timestamp fuel c x data false s
    = (let '(o, s') := r in (let? _ := o in Ok true, s'))) as Hm.
  { unfold message. unfold bind at 1, get_st at 1. rewrite Hid.
    do 4 (erewrite bind_lift_ok by eassumption; cbn iota).
    unfold bind at 1, on_send.
    do 2 (erewrite bind_lift_ok by eassumption). unfold bind at 1, stamped.
    unfold bind at 1, getCurrentTimestamp at 1, ret at 1.
    erewrite bind_lift_ok by eassumption. cbn [default fmap option_fmap option_map with_member].
    change (dump _) with (sent_text room id (timestamp (clock s)) m) at 1.
    unfold Datatypes.id. fold r. by destruct r as [[[]| | |] s']. }
  cbn [handle]. unfold on_message, bind, onMessage. destruct data as [|a data]; [done|].
  rewrite Hl. destruct x as [j|]; [|by cbn in msg_join0]. unfold try_runtime. rewrite Hm. clearbody r.
  by split; destruct r as [[[]| | |] s1]; intros; simplify_eq.
Qed.

Lemma lookup_range_starts (m : smap (option conn)) key k u : sm_wf m -> sm_lookup key m = None ->
  (k, u) ∈ lookup_range m key <-> sm_lookup k m = Some u /\ starts_with key k = true.
Proof.
  intros Hw Hk. rewrite lookup_range_prefix, list_elem_of_filter by done. cbn [fst].
  rewrite (sm_lookup_In k u m Hw). tauto.
Qed.




(** A text for a user who is not in the room is not sent to anybody, but a
    null pointer is entered for the user, and the next text to the room, by
    anyone, follows it. *)
Theorem absent_user (w : world) (s : sock) (c c2 : conn) (id data room to text : string)
    (x : rvalue) (m : wvalue) :
  reach w s -> sm_lookup (roomKey room to) (connMap s) = None ->
  sm_lookup room (connMap s) = None -> data <> EmptyString -> load data = x ->
  send_message x room (Some to) m -> userdata s !! c = Some id ->
  exists s', handle timestamp fuel (SMessage c data false) s = (Ok tt, s') /\
    sent s' = sent s /\ connMap s' = sm_insert (roomKey room to) None (connMap s) /\
    (broadcast_skip room text c2 s').1 = Undef.
Proof.
  intros H Hto Hroom Hd Hl Hx Hid. pose proof (reach_rooms _ _ H) as Hok.
  eexists. split; [|split; [|split]].
  - eapply send_message_run; [done|exact Hl|exact Hx|exact Hid|]. unfold deliver.
    erewrite bind_lift_ok by apply Hx. unfold bind at 1, conn_at.
    cbn [connMap set_sent]. by rewrite Hto.
  - done.
  - done.
  - unfold broadcast_skip. unfold bind at 1, get_st at 1. apply send_each_null;
      cbn [connMap set_maps set_sent].
    + apply Forall_forall. intros [k [u|]] Hk%lookup_range_incl; [right|by left].
      apply sm_lookup_In in Hk; [|by apply sm_insert_wf, Hok].
      rewrite sm_lookup_insert in Hk. case_decide; [done|]. exists u. split; [done|].
      by apply (ro_conn _ Hok _ _ Hk).
    + exists (roomKey room to). apply lookup_range_starts; [by apply sm_insert_wf, Hok| |].
      * rewrite sm_lookup_insert. case_decide as E; [|done].
        assert (String.length (roomKey room to) = String.length room) as Hlen by congruence.
        unfold roomKey in Hlen. rewrite !slength_app in Hlen. simpl in Hlen. lia.
      * split; [by rewrite sm_lookup_insert_eq|]. apply starts_with_app.
Qed.
End rooms.

(** ** Concrete executions *)

Section played.
Context {plat : Platform} {R : RocksDB} (timestamp : nat -> string) (fuel : nat).

(** The events in turn *)
Definition play (l : list sock_event) : SM sock unit := for_all (handle timestamp fuel) l.

Definition event_okb (e : sock_event) (s : sock) : bool :=
  match e with
  | SOpen c id => bool_decide (c ∉ users s) &&
      match find_char "_" (c_str id) with None => true | Some _ => false end
  | SMessage c data _ => bool_decide (c ∈ users s) &&
      match r_at_s (load data) "join" with Ok EmptyString => false | _ => true end
  | SClose c => bool_decide (c ∈ users s)
  end.

Fixpoint playable (l : list sock_event) (s : sock) : bool :=
  match l with
  | [] => true
  | e :: l => event_okb e s &&
      match handle timestamp fuel e s with
      | (Ok _, s) => playable l s
      | _ => false
      end
  end.

Lemma play_reach w l s : reach timestamp fuel w s -> playable l s = true ->
  reach timestamp fuel w (play l s).2.
Proof.
  revert s. induction l as [|e l IH]; intros s H Hp; [done|]. cbn [playable] in Hp.
  apply andb_prop in Hp as [He Hp]. unfold play. rewrite for_all_cons. unfold bind at 1.
  destruct (handle timestamp fuel e s) as [[[]| | |] s'] eqn:E; try done.
  apply IH; [|done]. apply (reach_event _ _ _ s e); [done|..].
  - destruct e as [c id|c data b|c]; cbn [event_okb event_ok] in *; [|intros x <-|done].
    + apply andb_prop in He as [_ He]. unfold plain_id. by destruct (find_char _ _).
    + apply andb_prop in He as [_ He]. intros Hx. by rewrite Hx in He.
  - destruct e as [c id|c data b|c]; cbn [event_okb] in He; constructor; try done.
    + apply andb_prop in He as [He _]. by apply bool_decide_eq_true in He.
    + apply andb_prop in He as [He _]. by apply bool_decide_eq_true in He.
    + by apply bool_decide_eq_true in He.
Qed.

Lemma no_null (m : smap (option conn)) k :
  forallb (fun kv => match kv.2 with Some _ => true | None => false end) m = true ->
  sm_lookup k m <> Some None.
Proof.
  induction m as [|[k' u] m IH]; [done|]. simpl. intros [Hu Hm]%andb_prop.
  case_decide; [by destruct u|by apply IH].
Qed.
End played.

Section socket_witnesses.
Import Demo.

Definition at_noon : nat -> string := fun _ => "noon".
Definition two_in_lobby : list sock_event :=
  [SOpen 1 "al"; SOpen 2 "bo"; SMessage 1 (q "{`join`:`lobby`}") false;
   SMessage 2 (q "{`join`:`lobby`,`notifyjoin`:true}") false].
Definition lobby : sock := (play at_noon 10 two_in_lobby (initial w)).2.

Lemma lobby_reach : reach at_noon 10 w lobby.
Proof. apply play_reach; [apply reach_initial|by vm_compute]. Qed.

Theorem no_dangling_witness :
  registered lobby "lobby_al" 1 /\ exists s', sock_step at_noon 10 lobby (SClose 1) s'.
Proof.
  destruct (no_dangling at_noon 10 w lobby lobby_reach) as (H1 & _ & H3). split.
  - apply H1. by vm_compute.
  - apply H3; [intros k; apply no_null; by vm_compute|].
    apply (bool_decide_eq_true_1 (1 ∈ users lobby)). by vm_compute.
Defined.

Definition hello : string := q "{`room`:`lobby`,`send`:`hello`}".



Definition whisper : string := q "{`room`:`lobby`,`send`:`psst`,`to`:`cy`}".

Theorem absent_user_witness :
  exists s', handle at_noon 10 (SMessage 1 whisper false) lobby = (Ok tt, s') /\
    sent s' = sent lobby /\ (broadcast_skip "lobby" "anyone?" 2 s').1 = Undef.
Proof.
  destruct (absent_user at_noon 10 w lobby 1 2 "al" whisper "lobby" "cy" "anyone?"
              (load whisper) (WStr "psst")) as (s' & H1 & H2 & _ & H3).
  - apply lobby_reach.
  - by vm_compute.
  - by vm_compute.
  - done.
  - done.
  - constructor; by vm_compute.
  - by vm_compute.
  - exists s'. by split_and!.
Defined.

(** The conditions on ids and rooms are needed.  When "a" closes, the rooms of
    "a_b" are taken for rooms of "a": the pointer to the connection of "a_b"
    stays behind when that closes, too.  So do the other pointers of a user who
    joined the room with the empty name. *)
Lemma underscore_dangles :
  (play at_noon 10 [SOpen 1 "a"; SOpen 2 "a_b"; SOpen 3 "cy";
     SMessage 2 (q "{`join`:`lobby`}") false; SClose 1; SClose 2;
     SMessage 3 hello false] (initial w)).1 = Undef /\
  (play at_noon 10 [SOpen 1 "a"; SOpen 3 "cy"; SMessage 1 (q "{`join`:`lobby`}") false;
     SMessage 1 (q "{`join`:``}") false; SClose 1; SMessage 3 hello false] (initial w)).1 = Undef.
Proof. by vm_compute. Qed.
End socket_witnesses.
