(* ===== verification/FileSocket.v ===== *)
(** * Web sockets and files

    [HackWebSocketRule], [QSocket] over any [Interceptor], the default
    interceptor and [InterceptorFile] (src/include/qsocket.hpp), which writes
    the binary messages of a connection to the file the connection has opened.
    A connection is the address of its object, which may be used again once
    the connection is closed. *)

From stdpp Require Import gmap.
From S2P Require Import Prelude SortedMap Wildcmp Json Store World Scan CoreRead CoreWrite Sockets.
Local Open Scope quarks_scope.

(** ** [QSocket] *)

(** The virtual functions of [QSocket::Interceptor]; [S] is the state of the
    whole process. *)
Record Interceptor (S : Type) := {
  onOpen : conn -> SM S unit;
  onClose : conn -> SM S unit;
  onMessage : conn -> string -> bool -> SM S bool
}.
Arguments onOpen {S} _ _ _.
Arguments onClose {S} _ _ _.
Arguments onMessage {S} _ _ _ _ _.

(** The base class *)
Definition base_interceptor {S} : Interceptor S := {|
  onOpen _ := ret tt; onClose _ := ret tt; onMessage _ _ _ := ret false |}.
(** [QSocket::DefaultInterceptor] *)
Definition DefaultInterceptor {S} : Interceptor S := base_interceptor.

(** What the handlers of [QSocket] use of the process: the open connections,
    the ids they own, and the messages sent *)
Record Host (S : Type) := {
  h_users : S -> list conn;
  h_set_users : list conn -> S -> S;
  h_data : S -> gmap conn string;
  h_set_data : gmap conn string -> S -> S;
  h_send : conn -> payload -> SM S unit
}.
Arguments h_users {S} _ _.
Arguments h_set_users {S} _ _ _.
Arguments h_data {S} _ _.
Arguments h_set_data {S} _ _ _.
Arguments h_send {S} _ _ _ _.

Section qsocket.
Context {S : Type} (H : Host S) (I : Interceptor S).

(** The three handlers [connect] installs *)
Definition open_handler (c : conn) : SM S unit :=
  do! modify (fun s => h_set_users H (c :: h_users H s) s);
  onOpen I c.

Definition close_handler (c : conn) : SM S unit :=
  do! onClose I c;
  do! modify (fun s => h_set_data H (delete c (h_data H s)) s);
  modify (fun s => h_set_users H (filter (fun u => u <> c) (h_users H s)) s).

Definition message_handler (c : conn) (data : string) (is_binary : bool) : SM S unit :=
  let! preventDefault := onMessage I c data is_binary in
  if preventDefault : bool then ret tt
  else
    let! s := get_st in
    for_all (fun u => h_send H u (if is_binary then Binary data else Text data)) (h_users H s).

(** [HackWebSocketRule::handle_upgrade]: the connection is opened, then given
    its id, then its first message *)
Definition handle_upgrade (c : conn) (id : option string) : SM S unit :=
  let k := c_str (default EmptyString id) in
  do! open_handler c;
  do! modify (fun s => h_set_data H (<[c := k]> (h_data H s)) s);
  message_handler c (q "{`connect`:true}") false.

(** [HackWebSocketRule::handle]: a request that is no upgrade is answered with
    this code. *)
Definition plain_request : Z := 404.

Inductive socket_event :=
  | Upgrade (c : conn) (id : option string)
  | Message (c : conn) (data : string) (is_binary : bool)
  | Close (c : conn).

Definition on_event (e : socket_event) : SM S unit :=
  match e with
  | Upgrade c id => handle_upgrade c id
  | Message c data is_binary => message_handler c data is_binary
  | Close c => close_handler c
  end.

Fixpoint on_events (es : list socket_event) : SM S unit :=
  match es with
  | [] => ret tt
  | e :: es => do! on_event e; on_events es
  end.
End qsocket.

(** ** The interceptor of the rooms

    The handlers the rooms are proved with are these, with [SocketInterceptor]. *)

Section rooms.
Context {plat : Platform} {R : RocksDB} (timestamp : nat -> string) (fuel : nat).

Definition room_host : Host sock := {|
  h_users := users;
  h_set_users us s := set_users us (userdata s) s;
  h_data := userdata;
  h_set_data ud s := set_users (users s) ud s;
  h_send c p := send (Some c) p |}.
Definition SocketInterceptor : Interceptor sock := {|
  onOpen _ := ret tt;
  onClose := Sockets.onClose timestamp;
  onMessage := Sockets.onMessage timestamp fuel |}.

Lemma rooms_are_handlers e s : Sockets.handle timestamp fuel e s =
  on_event room_host SocketInterceptor
    (match e with
     | SOpen c id => Upgrade c (Some id)
     | SMessage c data b => Message c data b
     | SClose c => Close c
     end) s.
Proof.
  destruct e as [c id|c data b|c]; [done..|]. cbn [handle on_event]. unfold close_handler. cbn [onClose SocketInterceptor].
  unfold bind. by destruct (Sockets.onClose timestamp c s) as [[]].
Qed.
End rooms.

(** ** Files *)

(** The files by their names; the streams that are open, each with its file and
    its position; the number of the next stream *)
Record files := {
  disk : gmap string string;
  streams : gmap nat (string * nat);
  next_stream : nat
}.

Definition set_disk d f := {| disk := d; streams := streams f; next_stream := next_stream f |}.
Definition set_streams st f := {| disk := disk f; streams := st; next_stream := next_stream f |}.

(** The text with [data] written over it from a position on; a gap is filled
    with zeros. *)
Fixpoint zeros (n : nat) : string :=
  match n with O => EmptyString | Datatypes.S n => String NUL (zeros n) end.
Definition write_at (pos : nat) (data text : string) : string :=
  str_take pos text +:+ zeros (pos - String.length text) +:+ data
  +:+ str_drop (pos + String.length data) text.

Section file_interceptor.
Context {plat : Platform}.
(** Whether a name can be opened for writing, and how many of some bytes the
    disk takes *)
Context (can_create : string -> bool) (accepts : string -> nat -> nat -> nat).

Definition fopen (name : string) : SM files (option nat) := fun f =>
  if can_create name then
    (Ok (Some (next_stream f)),
     {| disk := <[name := EmptyString]> (disk f);
        streams := <[next_stream f := (name, 0)]> (streams f);
        next_stream := Datatypes.S (next_stream f) |})
  else (Ok None, f).

(** The null pointer and a closed stream are outside the domain. *)
Definition fclose (fp : option nat) : SM files unit := fun f =>
  match fp with
  | Some h =>
      match streams f !! h with
      | Some _ => (Ok tt, set_streams (delete h (streams f)) f)
      | None => (Undef, f)
      end
  | None => (Undef, f)
  end.

Definition fwrite (data : string) (h : nat) : SM files nat := fun f =>
  match streams f !! h with
  | Some (name, pos) =>
      let n := Nat.min (accepts name pos (String.length data)) (String.length data) in
      let text := default EmptyString (disk f !! name) in
      (Ok n, {| disk := <[name := write_at pos (str_take n data) text]> (disk f);
                streams := <[h := (name, pos + n)]> (streams f);
                next_stream := next_stream f |})
  | None => (Undef, f)
  end.

(** ** [InterceptorFile] *)

Record InterceptorFile := { _mode : string; mFiles : gmap conn (option nat) }.
Definition getMode (i : InterceptorFile) : string := _mode i.

(** The process with a file interceptor *)
Record process := {
  interceptor : InterceptorFile;
  fs : files;
  p_users : list conn;
  p_data : gmap conn string;
  p_sent : list (conn * payload)
}.

Definition set_file (c : conn) (fp : option nat) (p : process) : process := {|
  interceptor := {| _mode := _mode (interceptor p); mFiles := <[c := fp]> (mFiles (interceptor p)) |};
  fs := fs p; p_users := p_users p; p_data := p_data p; p_sent := p_sent p |}.
Definition on_files {A} (m : SM files A) : SM process A := fun p =>
  let '(o, f) := m (fs p) in
  (o, {| interceptor := interceptor p; fs := f; p_users := p_users p; p_data := p_data p;
         p_sent := p_sent p |}).

(** [mFiles\[&conn\]] enters the null pointer for an absent connection. *)
Definition file_of (c : conn) : SM process (option nat) := fun p =>
  match mFiles (interceptor p) !! c with
  | Some fp => (Ok fp, p)
  | None => (Ok None, set_file c None p)
  end.

(** The body of the [try] *)
Definition file_command (c : conn) (x : rvalue) : SM process unit :=
  let! b := lift (r_has x "cmd") in
  if b : bool then
    let! cmd := lift (let? v := r_at x "cmd" in r_i v) in
    let! fileName := lift (r_at_s x "data") in
    let cmd := int32 cmd in
    if (cmd =? 1)%Z then
      let! fp := on_files (fopen (c_str fileName)) in
      modify (set_file c fp)
    else if (cmd =? 2)%Z then
      let! fp := file_of c in
      on_files (fclose fp)
    else ret tt
  else ret tt.

Definition file_message (c : conn) (msg : string) (is_binary : bool) : SM process bool :=
  if negb is_binary then
    do! try_runtime (file_command c (load msg)) (fun _ => ret tt);
    ret true
  else
    let! fp := file_of c in
    match fp with
    | Some h => let! n := on_files (fwrite msg h) in ret (0 <? n)%nat
    | None => ret true
    end.

Definition FileInterceptor : Interceptor process := {|
  onOpen _ := ret tt; onClose _ := ret tt; onMessage := file_message |}.

Definition file_host : Host process := {|
  h_users := p_users;
  h_set_users us p := {| interceptor := interceptor p; fs := fs p; p_users := us;
                         p_data := p_data p; p_sent := p_sent p |};
  h_data := p_data;
  h_set_data ud p := {| interceptor := interceptor p; fs := fs p; p_users := p_users p;
                        p_data := ud; p_sent := p_sent p |};
  h_send c m p := if decide (c ∈ p_users p)
                  then (Ok tt, {| interceptor := interceptor p; fs := fs p; p_users := p_users p;
                                  p_data := p_data p; p_sent := p_sent p ++ [(c, m)] |})
                  else (Undef, p) |}.

Definition file_event (e : socket_event) : SM process unit := on_event file_host FileInterceptor e.
Definition file_events (es : list socket_event) : SM process unit := on_events file_host FileInterceptor es.

(** [QSocket] over [FileInterceptor(mode)], before the first connection *)
Definition file_start (mode : string) (f : files) : process := {|
  interceptor := {| _mode := mode; mFiles := ∅ |}; fs := f; p_users := []; p_data := ∅; p_sent := [] |}.
End file_interceptor.

(** ** What an event does to the files *)

Section file_effects.
Context {plat : Platform} (can_create : string -> bool) (accepts : string -> nat -> nat -> nat).
Local Abbreviation fopen := (fopen can_create).
Local Abbreviation fwrite := (fwrite accepts).
Local Abbreviation file_message := (file_message can_create accepts).
Local Abbreviation file_event := (file_event can_create accepts).
Local Abbreviation file_events := (file_events can_create accepts).

(** The command in a text, if it can be read *)
Definition command_of (msg : string) : option (Z * string) :=
  match (let? b := r_has (load msg) "cmd" in
         if b : bool then
           let? cmd := (let? v := r_at (load msg) "cmd" in r_i v) in
           let? fileName := r_at_s (load msg) "data" in
           Ok (Some (int32 cmd, c_str fileName))
         else Ok None) with
  | Ok o => o
  | _ => None
  end.

(** The effect of a message that is handled to its end *)
Definition run_command (c : conn) (o : option (Z * string)) : SM process unit :=
  match o with
  | Some (1%Z, name) =>
      let! fp := on_files (fopen name) in modify (set_file c fp)
  | Some (2%Z, _) => let! fp := file_of c in on_files (fclose fp)
  | _ => ret tt
  end.

Lemma run_command_cases c cmd name :
  run_command c (Some (cmd, name)) =
  if (cmd =? 1)%Z then let! fp := on_files (fopen name) in modify (set_file c fp)
  else if (cmd =? 2)%Z then let! fp := file_of c in on_files (fclose fp)
  else ret tt.
Proof. by destruct cmd as [|[[]|[[]|[]|]|]|]. Qed.

Lemma run_command_outcome c o p : (run_command c o p).1 = Ok tt \/ (run_command c o p).1 = Undef.
Proof.
  destruct o as [[cmd name]|]; [|by left]. rewrite run_command_cases.
  destruct (cmd =? 1)%Z; [|destruct (cmd =? 2)%Z; [|by left]].
  - unfold bind, on_files, FileSocket.fopen, modify. destruct (can_create name); by left.
  - unfold bind, on_files, file_of, fclose. destruct (mFiles _ !! c) as [[h|]|]; cbn [fs set_file].
    + destruct (streams _ !! h); [by left|by right].
    + by right.
    + by right.
Qed.

Lemma text_effect c msg p b p' : file_message c msg false p = (Ok b, p') ->
  b = true /\ run_command c (command_of msg) p = (Ok tt, p').
Proof.
  unfold FileSocket.file_message, bind at 1, try_runtime, file_command, command_of. cbn [negb].
  unfold bind at 1, lift at 1. destruct (r_has (load msg) "cmd") as [[|]|[]| |]; cbn [obind];
    try (by intros [= <- <-]); try done.
  unfold bind at 1, lift at 1.
  destruct (let? v := r_at (load msg) "cmd" in r_i v) as [cmd|[]| |]; cbn [obind];
    try (by intros [= <- <-]); try done.
  unfold bind at 1, lift at 1.
  destruct (r_at_s (load msg) "data") as [n|[]| |]; cbn [obind];
    try (by intros [= <- <-]); try done.
  pose proof (run_command_outcome c (Some (int32 cmd, c_str n)) p) as Ho.
  rewrite <- run_command_cases. destruct (run_command c (Some (int32 cmd, c_str n)) p) as [o p1].
  cbn [fst] in Ho. destruct Ho as [->| ->]; [by intros [= <- <-]|done].
Qed.

(** ** One connection sends one file *)

(** No two connections share a stream, and streams are numbered from below. *)
Record files_ok (p : process) : Prop := {
  fo_files c h : mFiles (interceptor p) !! c = Some (Some h) -> h < next_stream (fs p);
  fo_streams h e : streams (fs p) !! h = Some e -> h < next_stream (fs p)
}.

Inductive stage := Before | Writing (text : string) | After (text : string).

Definition not_open (name : string) (ok : nat -> Prop) (f : files) : Prop :=
  forall h n pos, ok h -> streams f !! h = Some (n, pos) -> n <> name.

Definition stage_ok (c : conn) (name : string) (st : stage) (p : process) : Prop :=
  match st with
  | Before => not_open name (fun _ => True) (fs p)
  | Writing text => exists h,
      mFiles (interceptor p) !! c = Some (Some h) /\
      streams (fs p) !! h = Some (name, String.length text) /\
      disk (fs p) !! name = Some text /\ not_open name (fun h' => h' <> h) (fs p) /\
      forall c', c' <> c -> mFiles (interceptor p) !! c' <> Some (Some h)
  | After text => disk (fs p) !! name = Some text /\ not_open name (fun _ => True) (fs p)
  end.

Lemma fopen_effect n f r f' : fopen n f = (Ok r, f') ->
  match r with
  | Some h => h = next_stream f /\ f' = {| disk := <[n := EmptyString]> (disk f);
      streams := <[next_stream f := (n, 0)]> (streams f); next_stream := Datatypes.S (next_stream f) |}
  | None => f' = f
  end.
Proof. unfold FileSocket.fopen. by destruct (can_create n); intros [= <- <-]. Qed.

(** Opening a stream, and closing the stream of a connection *)
Lemma open_command c o n p p' : o = Some (1%Z, n) -> run_command c o p = (Ok tt, p') ->
  exists r f, fopen n (fs p) = (Ok r, f) /\ mFiles (interceptor p') = <[c := r]> (mFiles (interceptor p)) /\
    fs p' = f.
Proof.
  intros -> H. unfold run_command, bind, on_files in H.
  destruct (fopen n (fs p)) as [[r| | |] f] eqn:E; try done. injection H as <-. by exists r, f.
Qed.
Lemma close_command c n p p' : run_command c (Some (2%Z, n)) p = (Ok tt, p') ->
  exists h, mFiles (interceptor p) !! c = Some (Some h) /\ is_Some (streams (fs p) !! h) /\
    interceptor p' = interceptor p /\ fs p' = set_streams (delete h (streams (fs p))) (fs p).
Proof.
  unfold run_command, bind, file_of, on_files, fclose. destruct (mFiles _ !! c) as [[h|]|]; cbn; try done.
  destruct (streams (fs p) !! h) eqn:Eh; [|done]. intros [= <-]. exists h. split_and!; try done.
Qed.
Lemma other_commands c cmd n p p' : cmd <> 1%Z -> cmd <> 2%Z ->
  run_command c (Some (cmd, n)) p = (Ok tt, p') -> p' = p.
Proof.
  intros H1 H2. rewrite run_command_cases. apply Z.eqb_neq in H1 as ->. apply Z.eqb_neq in H2 as ->.
  by intros [= <-].
Qed.

Lemma files_ok_open c p p' r f n : files_ok p -> fopen n (fs p) = (Ok r, f) ->
  mFiles (interceptor p') = <[c := r]> (mFiles (interceptor p)) -> fs p' = f -> files_ok p'.
Proof.
  intros [F1 F2] Hf Hm Hp. apply fopen_effect in Hf. split; rewrite ?Hm, Hp.
  - intros c1 h [[-> E]|[_ E]]%lookup_insert_Some.
    + subst r. destruct Hf as [-> ->]. cbn. lia.
    + apply F1 in E. destruct r; [destruct Hf as [-> ->]|subst f]; cbn; lia.
  - intros h e He. destruct r as [h'|]; [|subst f; by eapply F2]. destruct Hf as [-> ->]. cbn in *.
    apply lookup_insert_Some in He as [[<- _]|[_ He%F2]]; lia.
Qed.
Lemma files_ok_close p p' h : files_ok p -> interceptor p' = interceptor p ->
  fs p' = set_streams (delete h (streams (fs p))) (fs p) -> files_ok p'.
Proof.
  intros [F1 F2] Hi Hf. split; rewrite ?Hi, Hf; [exact F1|]. cbn. intros h' e [_ He]%lookup_delete_Some.
  by eapply F2.
Qed.

(** What another connection opens or closes leaves the file alone. *)
Lemma other_open c c' name st n p p' : c' <> c -> n <> name -> files_ok p -> stage_ok c name st p ->
  run_command c' (Some (1%Z, n)) p = (Ok tt, p') -> files_ok p' /\ stage_ok c name st p'.
Proof.
  intros Hc Hn Hok Hst H. apply (open_command c' _ n) in H as (r & f & Hf & Hm & Hp); [|done].
  split; [by eapply files_ok_open|]. apply fopen_effect in Hf. destruct Hok as [F1 F2].
  assert (forall ok, not_open name ok (fs p) -> not_open name ok (fs p')) as Hno.
  { intros ok Hk h n' pos Hh. rewrite Hp. destruct r as [h'|]; [|subst f; by apply Hk].
    destruct Hf as [-> ->]. cbn. intros [[_ [= <- _]]|[_ He]]%lookup_insert_Some; [done|by eapply Hk]. }
  assert (forall t, disk (fs p) !! name = Some t -> disk (fs p') !! name = Some t) as Hd.
  { intros t Ht. rewrite Hp. destruct r as [h'|]; [|by subst f]. destruct Hf as [-> ->]. cbn.
    by rewrite lookup_insert_ne. }
  destruct st as [|t|t]; cbn [stage_ok] in *; [by apply Hno| |by destruct Hst; split; auto].
  destruct Hst as (h & Hmc & Hs & Ht & Hk & Hu). exists h. split_and!; auto.
  - rewrite Hm. by rewrite lookup_insert_ne.
  - rewrite Hp. destruct r as [h'|]; [|by subst f]. destruct Hf as [-> ->]. cbn.
    rewrite lookup_insert_ne; [done|]. apply F2 in Hs. lia.
  - intros c1 Hc1. rewrite Hm. intros [[<- E]|[_ E]]%lookup_insert_Some; [|by eapply Hu].
    subst r. destruct Hf as [-> _]. apply F2 in Hs. lia.
Qed.

Lemma other_close c c' name st n p p' : c' <> c -> files_ok p -> stage_ok c name st p ->
  run_command c' (Some (2%Z, n)) p = (Ok tt, p') -> files_ok p' /\ stage_ok c name st p'.
Proof.
  intros Hc Hok Hst (h' & Hm' & _ & Hi & Hf)%close_command. split; [by eapply files_ok_close|].
  assert (forall ok, not_open name ok (fs p) -> not_open name ok (fs p')) as Hno.
  { intros ok Hk h n' pos Hh. rewrite Hf. cbn. intros [_ He]%lookup_delete_Some. by eapply Hk. }
  destruct st as [|t|t]; cbn [stage_ok] in *; [by apply Hno| |by destruct Hst; rewrite Hf in *; split; auto].
  destruct Hst as (h & Hmc & Hs & Ht & Hk & Hu). exists h. rewrite Hi. split_and!; auto; rewrite Hf; cbn.
  - rewrite lookup_delete_ne; [done|]. intros ->. by apply (Hu c').
  - done.
Qed.

(** The disk takes all it is given. *)
Hypothesis Haccepts : forall name pos n, n <= accepts name pos n.

Lemma write_at_end text data : write_at (String.length text) data text = text +:+ data.
Proof.
  unfold write_at. rewrite str_take_all, Nat.sub_diag by done. cbn [zeros String.append].
  rewrite str_drop_all by lia. by rewrite sapp_nil_r.
Qed.

Lemma fwrite_effect data h f n f' : fwrite data h f = (Ok n, f') ->
  exists name pos, streams f !! h = Some (name, pos) /\
    f' = {| disk := <[name := write_at pos data (default EmptyString (disk f !! name))]> (disk f);
            streams := <[h := (name, pos + String.length data)]> (streams f);
            next_stream := next_stream f |}.
Proof.
  unfold FileSocket.fwrite. destruct (streams f !! h) as [[name pos]|]; [|done].
  rewrite Nat.min_r by apply Haccepts. rewrite str_take_all by done. intros [= <- <-]. by exists name, pos.
Qed.

(** A binary message is written to the stream of its connection, if it has one. *)
Lemma binary_effect c msg p b p' : file_message c msg true p = (Ok b, p') ->
  (exists h n f, mFiles (interceptor p) !! c = Some (Some h) /\ fwrite msg h (fs p) = (Ok n, f) /\
     interceptor p' = interceptor p /\ fs p' = f) \/
  ((forall h, mFiles (interceptor p) !! c <> Some (Some h)) /\ fs p' = fs p /\
   (p' = p \/ mFiles (interceptor p') = <[c := None]> (mFiles (interceptor p)))).
Proof.
  unfold FileSocket.file_message, bind, file_of, on_files. cbn [negb].
  destruct (mFiles (interceptor p) !! c) as [[h|]|]; cbn [fst snd].
  - destruct (fwrite msg h (fs p)) as [[n| | |] f] eqn:E; try done. intros [= <- <-].
    left. by exists h, n, f.
  - intros [= <- <-]. right. split_and!; [done|done|by left].
  - intros [= <- <-]. right. split_and!; [done|done|by right].
Qed.

Lemma other_binary c c' name st msg p b p' : c' <> c -> files_ok p -> stage_ok c name st p ->
  file_message c' msg true p = (Ok b, p') -> files_ok p' /\ stage_ok c name st p'.
Proof.
  intros Hc [F1 F2] Hst [(h' & n & f & Hm & Hw & Hi & Hf)|(Hm & Hf & Hp)]%binary_effect.
  - apply fwrite_effect in Hw as (name' & pos' & Hs' & ->).
    split; [split; rewrite ?Hi, Hf; cbn; [exact F1|]; intros h e [[<- _]|[_ He]]%lookup_insert_Some; eauto|].
    assert (forall ok, ok h' -> not_open name ok (fs p) -> not_open name ok (fs p') /\ name' <> name) as Hno.
    { intros ok Hok' Hk. split; [|by eapply Hk]. intros h n' pos Hh. rewrite Hf. cbn.
      intros [[<- [= <- _]]|[_ He]]%lookup_insert_Some; by eapply Hk. }
    destruct st as [|t|t]; cbn [stage_ok] in *.
    + by apply Hno.
    + destruct Hst as (h & Hmc & Hs & Ht & Hk & Hu).
      assert (h' <> h) as Hh by (intros ->; by apply (Hu c')).
      destruct (Hno _ Hh Hk) as [Hk' Hn]. exists h. rewrite Hi. split_and!; auto; rewrite Hf; cbn.
      * by rewrite lookup_insert_ne.
      * by rewrite lookup_insert_ne.
    + destruct Hst as [Ht Hk]. destruct (Hno _ Logic.I Hk) as [Hk' Hn]. split; [|done]. rewrite Hf. cbn.
      by rewrite lookup_insert_ne.
  - destruct Hp as [->|Hp]; [by repeat split|].
    assert (forall c1 h, mFiles (interceptor p') !! c1 = Some (Some h) -> mFiles (interceptor p) !! c1 = Some (Some h)) as Hback.
    { intros c1 h. rewrite Hp. by intros [[_ ?]|[_ E]]%lookup_insert_Some. }
    split; [split; rewrite Hf; [intros c1 h E; by eapply F1, Hback|exact F2]|].
    destruct st as [|t|t]; cbn [stage_ok] in *; rewrite ?Hf; try done.
    destruct Hst as (h & Hmc & Hs & Ht & Hk & Hu). exists h. split_and!; try done.
    + rewrite Hp. by rewrite lookup_insert_ne.
    + intros c1 Hc1 E. by apply (Hu c1 Hc1), Hback.
Qed.

(** The messages of the connection itself *)
Lemma own_open c name p p' : can_create name = true -> files_ok p -> stage_ok c name Before p ->
  run_command c (Some (1%Z, name)) p = (Ok tt, p') ->
  files_ok p' /\ stage_ok c name (Writing EmptyString) p'.
Proof.
  intros Hc Hok Hst H. apply (open_command c _ name) in H as (r & f & Hf & Hm & Hp); [|done].
  split; [by eapply files_ok_open|]. destruct Hok as [F1 F2].
  unfold FileSocket.fopen in Hf. rewrite Hc in Hf. injection Hf as <- <-.
  exists (next_stream (fs p)). rewrite Hp. cbn. split_and!.
  - by rewrite Hm, lookup_insert_eq.
  - by rewrite lookup_insert_eq.
  - by rewrite lookup_insert_eq.
  - intros h n pos Hh. cbn. rewrite lookup_insert_ne by done. by apply Hst.
  - intros c1 Hc1. rewrite Hm, lookup_insert_ne by done. intros E%F1. lia.
Qed.

Lemma own_binary c name t msg p b p' : files_ok p -> stage_ok c name (Writing t) p ->
  file_message c msg true p = (Ok b, p') -> files_ok p' /\ stage_ok c name (Writing (t +:+ msg)) p'.
Proof.
  intros [F1 F2] (h & Hmc & Hs & Ht & Hk & Hu) [(h' & n & f & Hm & Hw & Hi & Hf)|(Hm & _)]%binary_effect;
    [|by destruct (Hm h)].
  assert (h' = h) as -> by congruence. apply fwrite_effect in Hw as (name' & pos & Hs' & ->).
  assert (name' = name /\ pos = String.length t) as [-> ->] by (by split; congruence).
  split; [split; rewrite ?Hi, Hf; cbn; [exact F1|]; intros h' e [[<- _]|[_ He]]%lookup_insert_Some; eauto|].
  exists h. rewrite Hi, Hf. cbn. rewrite !lookup_insert_eq, slength_app, Ht. cbn [default].
  rewrite write_at_end. split_and!; try done.
  intros h' n' pos Hh. cbn. rewrite lookup_insert_ne by done. by apply Hk.
Qed.

Lemma own_close c name t n p p' : files_ok p -> stage_ok c name (Writing t) p ->
  run_command c (Some (2%Z, n)) p = (Ok tt, p') -> files_ok p' /\ stage_ok c name (After t) p'.
Proof.
  intros Hok (h & Hmc & Hs & Ht & Hk & Hu) (h' & Hm & _ & Hi & Hf)%close_command.
  assert (h' = h) as -> by congruence. split; [by eapply files_ok_close|]. cbn [stage_ok]. rewrite Hf.
  split; [done|]. intros h' n' pos _. cbn. intros [Hne He]%lookup_delete_Some. by eapply Hk.
Qed.

(** *** Events *)

Definition same_files (p p' : process) : Prop := interceptor p' = interceptor p /\ fs p' = fs p.

Lemma send_all_same us m p p' :
  for_all (fun u => h_send file_host u m) us p = (Ok tt, p') -> same_files p p'.
Proof.
  revert p. induction us as [|u us IH]; intros p; [by intros [= <-]|]. cbn [for_all].
  unfold bind at 1. cbn [h_send file_host]. destruct (decide (u ∈ p_users p)); [|done].
  by intros H%IH.
Qed.

Lemma handler_effect c m b p p' : message_handler file_host (FileInterceptor can_create accepts) c m b p = (Ok tt, p') ->
  exists r p1, file_message c m b p = (Ok r, p1) /\ same_files p1 p'.
Proof.
  unfold message_handler, bind at 1. cbn [onMessage FileInterceptor].
  destruct (file_message c m b p) as [[r| | |] p1]; try done. exists r, p1. split; [done|].
  destruct r; [by injection H as <-|]. by apply send_all_same in H.
Qed.

Lemma stage_ext c name st p p' : same_files p p' -> files_ok p /\ stage_ok c name st p ->
  files_ok p' /\ stage_ok c name st p'.
Proof.
  intros [Hi Hf] [[F1 F2] Hst]. split; [split; rewrite ?Hi, ?Hf; auto|].
  unfold stage_ok in *. by rewrite Hi, Hf.
Qed.

(** A message of the connection; what the others may not send *)
Definition mine (c : conn) (e : socket_event) : option (string * bool) :=
  match e with Message c' m b => if decide (c' = c) then Some (m, b) else None | _ => None end.
Definition leaves_alone (c : conn) (name : string) (e : socket_event) : Prop :=
  match e with
  | Message c' m false => c' <> c -> forall n, command_of m = Some (1%Z, n) -> n <> name
  | _ => True
  end.

Lemma other_event c name st e p p' : mine c e = None -> leaves_alone c name e ->
  files_ok p -> stage_ok c name st p -> file_event e p = (Ok tt, p') -> files_ok p' /\ stage_ok c name st p'.
Proof.
  intros Hm Hl Hok Hst H. destruct e as [c' id|c' m b|c'].
  - unfold FileSocket.file_event, on_event, handle_upgrade, open_handler, bind in H.
    cbn [modify onOpen FileInterceptor] in H. unfold ret, modify in H.
    apply handler_effect in H as (r & p1 & H1 & H2). apply text_effect in H1 as [_ H1].
    change (command_of (q "{`connect`:true}")) with (@None (Z * string)) in H1.
    injection H1 as <-. by eapply (stage_ext _ _ _ p).
  - cbn [mine] in Hm. destruct (decide (c' = c)) as [|Hne]; [done|].
    apply handler_effect in H as (r & p1 & H1 & H2). apply (stage_ext _ _ _ _ _ H2).
    destruct b; [by eapply other_binary|]. apply text_effect in H1 as [_ H1].
    specialize (Hl Hne). destruct (command_of m) as [[cmd n]|]; [|by injection H1 as <-].
    destruct (decide (cmd = 1%Z)) as [->|H1']; [eapply other_open; eauto|].
    destruct (decide (cmd = 2%Z)) as [->|H2']; [by eapply other_close|].
    by apply other_commands in H1 as ->.
  - unfold FileSocket.file_event, on_event, close_handler, bind in H. cbn in H. injection H as <-.
    by eapply (stage_ext _ _ _ p).
Qed.

(** The messages that are still to come at a stage, and the text they end with *)
Inductive to_come (name : string) : stage -> list (string * bool) -> string -> Prop :=
  | come_before m1 l text : command_of m1 = Some (1%Z, name) -> to_come name (Writing EmptyString) l text ->
      to_come name Before ((m1, false) :: l) text
  | come_piece t m l text : to_come name (Writing (t +:+ m)) l text ->
      to_come name (Writing t) ((m, true) :: l) text
  | come_close t m2 n : command_of m2 = Some (2%Z, n) -> to_come name (Writing t) [(m2, false)] t
  | come_after t : to_come name (After t) [] t.

Lemma own_event c name st m b l text p p' : can_create name = true ->
  to_come name st ((m, b) :: l) text -> files_ok p -> stage_ok c name st p ->
  file_event (Message c m b) p = (Ok tt, p') ->
  exists st', to_come name st' l text /\ files_ok p' /\ stage_ok c name st' p'.
Proof.
  intros Hc Hcome Hok Hst H. apply handler_effect in H as (r & p1 & H1 & H2).
  inversion Hcome as [? ? ? Hm Hl|t ? ? ? Hl|t ? n Hm|]; subst.
  - apply text_effect in H1 as [_ H1]. rewrite Hm in H1. exists (Writing EmptyString). split; [done|].
    eapply stage_ext; [exact H2|]. by eapply own_open.
  - exists (Writing (t +:+ m)). split; [done|]. eapply stage_ext; [exact H2|]. by eapply own_binary.
  - apply text_effect in H1 as [_ H1]. rewrite Hm in H1. exists (After text). split; [constructor|].
    eapply stage_ext; [exact H2|]. by eapply own_close.
Qed.

Lemma events_received c name text es : can_create name = true ->
  forall st p p', files_ok p -> stage_ok c name st p -> to_come name st (omap (mine c) es) text ->
  Forall (leaves_alone c name) es -> file_events es p = (Ok tt, p') ->
  disk (fs p') !! name = Some text.
Proof.
  intros Hc. induction es as [|e es IH]; intros st p p' Hok Hst Hcome Hl H.
  - injection H as <-. inversion Hcome; subst. apply Hst.
  - apply Forall_cons in Hl as [He Hl]. unfold FileSocket.file_events in H. cbn [on_events] in H.
    unfold bind in H. destruct (on_event file_host (FileInterceptor can_create accepts) e p) as [[[]| | |] p1] eqn:E; try done.
    cbn [omap list_omap] in Hcome. destruct (mine c e) as [[m b]|] eqn:Em.
    + destruct e as [|c' m' b'|]; try done. cbn [mine] in Em. destruct (decide (c' = c)) as [->|]; [|done].
      injection Em as -> ->.
      destruct (own_event c name st m b _ text p p1 Hc Hcome Hok Hst E) as (st' & H1 & H2 & H3).
      by eapply IH.
    + destruct (other_event c name st e p p1 Em He Hok Hst E) as [H1 H2]. by eapply IH.
Qed.
End file_effects.

(** ** What the sockets promise *)

(** A file sent over a web socket: whatever the other connections open,
    write and close in between, as long as they do not open the same name, a
    file that a connection opens by name, sends in binary messages and closes
    holds the bytes of these messages in their order. *)
Theorem file_received `{plat : Platform} (can_create : string -> bool)
    (accepts : string -> nat -> nat -> nat) (c : conn) (name m1 m2 n : string) (pieces : list string)
    (es : list socket_event) (mode : string) (d : gmap string string) (p' : process) :
  (forall name pos n, n <= accepts name pos n) -> can_create name = true ->
  command_of m1 = Some (1%Z, name) -> command_of m2 = Some (2%Z, n) ->
  omap (mine c) es = (m1, false) :: ((fun b => (b, true)) <$> pieces) ++ [(m2, false)] ->
  Forall (leaves_alone c name) es ->
  file_events can_create accepts es
    (file_start mode {| disk := d; streams := ∅; next_stream := 0 |}) = (Ok tt, p') ->
  disk (fs p') !! name = Some (String.concat EmptyString pieces).
Proof.
  intros Ha Hc H1 H2 Hm Hl H.
  eapply (events_received can_create accepts Ha c name _ es Hc Before); [..|exact H]; [by split| | |done].
  - by intros h n' pos _ Hs.
  - rewrite Hm. constructor; [done|]. clear Hm.
    assert (forall t, to_come name (Writing t) (((fun b => (b, true)) <$> pieces) ++ [(m2, false)])
      (t +:+ String.concat EmptyString pieces)) as Hcome; [|by apply (Hcome EmptyString)].
    induction pieces as [|b pieces IH]; intros t.
    + cbn. rewrite sapp_nil_r. by econstructor.
    + cbn [fmap list_fmap app]. constructor.
      replace (t +:+ String.concat EmptyString (b :: pieces))
        with ((t +:+ b) +:+ String.concat EmptyString pieces); [apply IH|].
      rewrite sapp_assoc. cbn [String.concat]. destruct pieces; [by rewrite sapp_nil_r|done].
Qed.

(** Events in an order that connections can have *)
Inductive ordered : list conn -> list socket_event -> Prop :=
  | ordered_nil us : ordered us []
  | ordered_open us c id es : c ∉ us -> ordered (c :: us) es -> ordered us (Upgrade c id :: es)
  | ordered_message us c m b es : c ∈ us -> ordered us es -> ordered us (Message c m b :: es)
  | ordered_close us c es : c ∈ us -> ordered (filter (fun u => u <> c) us) es -> ordered us (Close c :: es).

(** What the default interceptor has sent to whom *)
Definition to_all (us : list conn) (m : payload) : list (conn * payload) := (fun u => (u, m)) <$> us.
Fixpoint copies (us : list conn) (es : list socket_event) : list (conn * payload) :=
  match es with
  | [] => []
  | Upgrade c _ :: es => to_all (c :: us) (Text (q "{`connect`:true}")) ++ copies (c :: us) es
  | Message _ m b :: es => to_all us (if b then Binary m else Text m) ++ copies us es
  | Close c :: es => copies (filter (fun u => u <> c) us) es
  end.

(** Every open connection owns its id, and no other does. *)
Definition ids_owned (p : process) : Prop :=
  NoDup (p_users p) /\ forall c, c ∈ p_users p <-> is_Some (p_data p !! c).

Lemma send_all_sent us m p : (forall u, u ∈ us -> u ∈ p_users p) ->
  for_all (fun u => h_send file_host u m) us p =
  (Ok tt, {| interceptor := interceptor p; fs := fs p; p_users := p_users p; p_data := p_data p;
             p_sent := p_sent p ++ to_all us m |}).
Proof.
  revert p. induction us as [|u us IH]; intros p H.
  - cbn. rewrite app_nil_r. by destruct p.
  - cbn [for_all]. unfold bind at 1. cbn [h_send file_host].
    rewrite decide_True by (apply H; by left). rewrite IH by (intros v Hv; apply H; by right).
    cbn. by rewrite <- app_assoc.
Qed.

(** [QSocket] with the default interceptor: every message, and the first
    message of every connection, reaches each connection that is open exactly
    once and in order, nothing is sent to a closed one, and each open connection
    owns the id that is released when it closes. *)
Theorem default_broadcasts (es : list socket_event) (p : process) :
  ids_owned p -> ordered (p_users p) es ->
  exists p', on_events file_host DefaultInterceptor es p = (Ok tt, p') /\
    p_sent p' = p_sent p ++ copies (p_users p) es /\ ids_owned p'.
Proof.
  intros Hids Ho. remember (p_users p) as us eqn:Eus. revert p Hids Eus.
  induction Ho as [us|us c id es Hc _ IH|us c m b es Hc _ IH|us c es Hc _ IH]; intros p [Hn Hd] ->;
    cbn [on_events copies].
  - exists p. by rewrite app_nil_r.
  - unfold bind, on_event, handle_upgrade, open_handler, message_handler, bind, modify.
    cbn [onOpen onMessage DefaultInterceptor base_interceptor ret get_st h_set_users h_users h_set_data h_data
      file_host p_users p_data].
    rewrite send_all_sent by done. cbn [p_users interceptor fs p_data p_sent].
    lazymatch goal with |- context [on_events _ _ es ?p0] =>
      destruct (IH p0) as (p' & H1 & H2 & H3); [|reflexivity|] end.
    2: { exists p'. split; [exact H1|]. rewrite H2. cbn [p_sent p_users]. by rewrite <- app_assoc. }
    split; cbn; [by constructor|]. intros c'. rewrite elem_of_cons, Hd.
    destruct (decide (c' = c)) as [->|Hne]; [rewrite lookup_insert_eq; split; [done|by left]|].
    rewrite lookup_insert_ne by done. split; [by intros [|]|by right].
  - unfold bind, on_event, message_handler, bind.
    cbn [onMessage DefaultInterceptor base_interceptor ret get_st h_users file_host].
    rewrite send_all_sent by done.
    lazymatch goal with |- context [on_events _ _ es ?p0] =>
      destruct (IH p0) as (p' & H1 & H2 & H3); [|reflexivity|] end.
    2: { exists p'. split; [exact H1|]. rewrite H2. cbn [p_sent p_users]. by rewrite <- app_assoc. }
    by split.
  - unfold bind, on_event, close_handler, bind, modify.
    cbn [onClose DefaultInterceptor base_interceptor ret h_set_users h_users h_set_data h_data file_host
      p_users p_data].
    lazymatch goal with |- context [on_events _ _ es ?p0] =>
      destruct (IH p0) as (p' & H1 & H2 & H3); [|reflexivity|] end.
    2: { exists p'. split; [exact H1|]. by rewrite H2. }
    split; cbn; [by apply NoDup_filter|]. intros c'. rewrite list_elem_of_filter, Hd.
    destruct (decide (c' = c)) as [->|Hne]; [rewrite lookup_delete_eq|rewrite lookup_delete_ne by done].
    + split; [by intros []|by intros []].
    + split; [by intros []|by split].
Qed.

(** ** Concrete connections *)

Section file_witnesses.
Import Demo.

Definition any_name (name : string) : bool := negb (String.eqb name "locked").
Definition ample (name : string) (pos n : nat) : nat := n.
Definition open_text (name : string) : string := q "{`cmd`:1,`data`:`" +:+ name +:+ q "`}".
Definition close_text : string := q "{`cmd`:2,`data`:``}".
Definition no_files : files := {| disk := ∅; streams := ∅; next_stream := 0 |}.

(** Two connections, one of them at the address of a third that has closed *)
Definition two_uploads : list socket_event := [
  Upgrade 1 (Some "al"); Upgrade 2 None; Message 2 (open_text "b.bin") false;
  Message 1 (open_text "a.bin") false; Message 1 "one" true; Message 2 "zwei" true;
  Message 1 "hello" true; Message 2 close_text false; Close 2; Upgrade 2 (Some "bo");
  Message 2 (open_text "b.bin") false; Message 1 "!" true; Message 1 close_text false].

Definition uploads_done : process :=
  (file_events any_name ample two_uploads (file_start "upload" no_files)).2.

Lemma uploads_run :
  file_events any_name ample two_uploads (file_start "upload" no_files) = (Ok tt, uploads_done).
Proof.
  assert ((file_events any_name ample two_uploads (file_start "upload" no_files)).1 = Ok tt) as H
    by (vm_compute; reflexivity).
  unfold uploads_done. destruct (file_events _ _ _ _) as [o p]. cbn [fst snd] in *. by rewrite H.
Qed.

Theorem file_received_witness : disk (fs uploads_done) !! "a.bin" = Some "onehello!".
Proof.
  apply (file_received any_name ample 1 "a.bin" (open_text "a.bin") close_text ""
    ["one"; "hello"; "!"] two_uploads "upload" ∅ uploads_done).
  - by intros.
  - reflexivity.
  - vm_compute. reflexivity.
  - vm_compute. reflexivity.
  - reflexivity.
  - repeat (constructor; [first [exact Logic.I|by intros []|intros _ n; vm_compute; congruence]|]). constructor.
  - apply uploads_run.
Defined.

(** Closing twice closes a stream that is not open; a connection that is closed
    without closing its file leaves the stream to the next at its address. *)
Lemma closed_twice :
  (file_events any_name ample [Upgrade 1 None; Message 1 (open_text "a") false; Message 1 close_text false;
     Message 1 close_text false] (file_start "" no_files)).1 = Undef /\
  (file_events any_name ample [Upgrade 1 None; Message 1 (open_text "locked") false; Message 1 close_text false]
     (file_start "" no_files)).1 = Undef.
Proof. by vm_compute. Qed.
Lemma stream_inherited :
  disk (fs (file_events any_name ample [Upgrade 1 None; Message 1 (open_text "a") false; Message 1 "x" true; Close 1;
     Upgrade 1 None; Message 1 "y" true] (file_start "" no_files)).2) !! "a" = Some "xy".
Proof. by vm_compute. Qed.

Theorem default_broadcasts_witness :
  exists p', on_events file_host DefaultInterceptor
      [Upgrade 1 None; Upgrade 2 None; Message 1 "hi" false; Close 1; Message 2 "x" true]
      (file_start "" no_files) = (Ok tt, p') /\
    p_sent p' = [(1, Text (q "{`connect`:true}")); (2, Text (q "{`connect`:true}"));
      (1, Text (q "{`connect`:true}")); (2, Text "hi"); (1, Text "hi"); (2, Binary "x")].
Proof.
  destruct (default_broadcasts [Upgrade 1 None; Upgrade 2 None; Message 1 "hi" false; Close 1; Message 2 "x" true]
    (file_start "" no_files)) as (p' & H1 & H2 & _).
  - split; cbn; [constructor|]. intros c. split; [by intros ?%elem_of_nil|by intros []].
  - cbn. constructor; [by intros ?%elem_of_nil|]. constructor; [by intros [|?%elem_of_nil]%elem_of_cons|].
    constructor; [right; by left|]. constructor; [right; by left|]. constructor; [by left|]. constructor.
  - exists p'. split; [exact H1|exact H2].
Defined.
End file_witnesses.
