(* ===== verification/Geohash.v ===== *)
(** * Geohashes

    src/src/geohash.cpp: points are encoded as texts that name the cells of a
    grid, a cell of longer text lying in those of its prefixes; a text is
    decoded to the box of its cell, and the cells next to a cell are found with
    tables.  A [double] is a rational number here: the bounds of the intervals
    are sums of few powers of two, so that for texts of up to 12 characters the
    arithmetic of the program is exact.  Rationals are kept reduced, so equal
    bounds are equal terms.  A [char*] is the list of its characters; the size
    of the block behind it is kept where the program writes into it. *)

From Stdlib Require Import QArith Lqa.
From S2P Require Import Prelude.
Local Open Scope quarks_scope.
Local Open Scope Z_scope.

(** ** Intervals and characters *)

Record Interval := { high : Q; low : Q }.

Definition char_map : list ascii := list_ascii_of_string "0123456789bcdefghjkmnpqrstuvwxyz".

(** The result is an [unsigned int]: [-1] is the largest of them. *)
Definition NOT_FOUND : Z := 4294967295.
Fixpoint index_from (i : Z) (c : ascii) (s : list ascii) : Z :=
  match s with
  | [] => NOT_FOUND
  | d :: s => if Ascii.eqb c d then i else index_from (i + 1) c s
  end.
Definition index_for_char (c : ascii) (s : list ascii) : Z := index_from 0 c s.

(** ** Encoding *)

(** The comparison with [mid], and the half of the interval that is kept. *)
Definition cut (coord : Q) (interval : Interval) : bool * Interval :=
  let mid := Qred ((low interval + high interval) / 2) in
  if Qle_bool coord mid then (false, {| high := mid; low := low interval |})
  else (true, {| high := high interval; low := mid |}).

(** The loop from [i] on, with [n] turns left; the characters written so far. *)
Fixpoint encode_loop (n : nat) (i : Z) (lat lng : Q) (lat_interval lng_interval : Interval)
    (is_even : bool) (hashChar : Z) (hash : list ascii) : list ascii :=
  match n with
  | O => hash
  | S n =>
      let (bit, interval) := if is_even then cut lng lng_interval else cut lat lat_interval in
      let hashChar := Z.shiftl hashChar 1 in
      let hashChar := if bit then Z.lor hashChar 1 else hashChar in
      let lat_interval := if is_even then lat_interval else interval in
      let lng_interval := if is_even then interval else lng_interval in
      if i mod 5 =? 0 then
        encode_loop n (i + 1) lat lng lat_interval lng_interval (negb is_even) 0
          (hash ++ [nth (Z.to_nat hashChar) char_map NUL])
      else encode_loop n (i + 1) lat lng lat_interval lng_interval (negb is_even) hashChar hash
  end.

Definition whole_lat : Interval := {| high := 90; low := -90 |}.
Definition whole_lng : Interval := {| high := 180; low := -180 |}.

(** [None]: the null pointer *)
Definition geohash_encode (lat lng : Q) (precision : Z) : option (list ascii) :=
  let precision := if (precision <? 1) || (12 <? precision) then 6 else precision in
  if Qle_bool lat 90 && Qle_bool (-90) lat && Qle_bool lng 180 && Qle_bool (-180) lng then
    Some (encode_loop (Z.to_nat (precision * 5)) 1 lat lng whole_lat whole_lng true 0 [])
  else None.

(** ** Decoding *)

Definition halve (bit : bool) (interval : Interval) : Interval :=
  let delta := Qred ((high interval - low interval) / 2) in
  if bit then {| high := high interval; low := Qred (low interval + delta) |}
  else {| high := Qred (high interval - delta); low := low interval |}.

(** The two intervals and [is_even] *)
Definition decode_state : Type := Interval * Interval * bool.
Definition decode_bit (bit : bool) (s : decode_state) : decode_state :=
  let '(lat_interval, lng_interval, is_even) := s in
  if is_even then (lat_interval, halve bit lng_interval, false)
  else (halve bit lat_interval, lng_interval, true).
Definition index_bit (char_mapIndex : Z) (j : Z) : bool :=
  negb (Z.land (Z.shiftl char_mapIndex j) 16 =? 0).
Definition decode_char (s : decode_state) (c : ascii) : decode_state :=
  let k := index_for_char c char_map in
  foldl (fun s j => decode_bit (index_bit k j) s) s [0; 1; 2; 3; 4].

(** [char_mapIndex < 0] is a comparison of an [unsigned int]: the loop is never
    left early. *)
Fixpoint decode_chars (s : decode_state) (hash : list ascii) : decode_state :=
  match hash with
  | [] => s
  | c :: hash => if index_for_char c char_map <? 0 then s
                 else decode_chars (decode_char s c) hash
  end.

Record GeoCoord := {
  latitude : Q; longitude : Q; north : Q; east : Q; south : Q; west : Q
}.

Definition center (i : Interval) : Q := Qred (high i - (high i - low i) / 2).

Definition geohash_decode (hash : option (list ascii)) : GeoCoord :=
  match hash with
  | None | Some [] => {| latitude := 0; longitude := 0; north := 0; east := 0;
                         south := 0; west := 0 |}
  | Some hash =>
      let '(lat, lng, _) := decode_chars (whole_lat, whole_lng, true) hash in
      {| latitude := center lat; longitude := center lng; north := high lat; east := high lng;
         south := low lat; west := low lng |}
  end.

(** ** Dimensions *)

Fixpoint halved (n : nat) (x : Q) : Q :=
  match n with O => x | S n => halved n (Qred (x / 2)) end.

(** Height and width *)
Definition geohash_dimensions_for_precision (precision : Z) : Q * Q :=
  if 0 <? precision then
    let lat_times_to_cut := Z.quot (precision * 5) 2 in
    let lng_times_to_cut :=
      Z.quot (precision * 5) 2 + (if Z.rem precision 2 =? 0 then 0 else 1) in
    (halved (Z.to_nat lat_times_to_cut) 180, halved (Z.to_nat lng_times_to_cut) 360)
  else (0%Q, 0%Q).

(** ** Neighbours *)

Inductive direction := NORTH | EAST | SOUTH | WEST.

Definition chars (s : string) : list ascii := list_ascii_of_string s.

Definition even_neighbors (d : direction) : list ascii :=
  match d with
  | NORTH => chars "p0r21436x8zb9dcf5h7kjnmqesgutwvy"
  | EAST => chars "bc01fg45238967deuvhjyznpkmstqrwx"
  | SOUTH => chars "14365h7k9dcfesgujnmqp0r2twvyx8zb"
  | WEST => chars "238967debc01fg45kmstqrwxuvhjyznp"
  end.
Definition odd_neighbors (d : direction) : list ascii :=
  match d with
  | NORTH => chars "bc01fg45238967deuvhjyznpkmstqrwx"
  | EAST => chars "p0r21436x8zb9dcf5h7kjnmqesgutwvy"
  | SOUTH => chars "238967debc01fg45kmstqrwxuvhjyznp"
  | WEST => chars "14365h7k9dcfesgujnmqp0r2twvyx8zb"
  end.
Definition even_borders (d : direction) : list ascii :=
  match d with
  | NORTH => chars "prxz" | EAST => chars "bcfguvyz"
  | SOUTH => chars "028b" | WEST => chars "0145hjnp"
  end.
Definition odd_borders (d : direction) : list ascii :=
  match d with
  | NORTH => chars "bcfguvyz" | EAST => chars "prxz"
  | SOUTH => chars "0145hjnp" | WEST => chars "028b"
  end.

Section neighbors.
(** The bytes that can be written to the block that [malloc(n)] gives. *)
Context (usable : Z -> Z).

(** The text and the size its block was asked for.  The block of [base] is one
    byte too small for the [strcat], more after a recursion. *)
Fixpoint get_neighbor (fuel : nat) (hash : list ascii) (d : direction)
    : outcome (list ascii * Z) :=
  match fuel with
  | O => Fuel
  | S fuel =>
      match last hash with
      | None => Undef                                   (* hash[-1] *)
      | Some last_char =>
          let is_odd := Nat.odd (length hash) in
          let border := if is_odd then odd_borders d else even_borders d in
          let neighbor := if is_odd then odd_neighbors d else even_neighbors d in
          let base := removelast hash in
          let? (base, size) :=
            if index_for_char last_char border =? NOT_FOUND
            then Ok (base, Z.of_nat (length hash))
            else get_neighbor fuel base d in
          let neighbor_index := index_for_char last_char neighbor in
          if neighbor_index =? NOT_FOUND then Undef     (* char_map[-1] *)
          else if Z.of_nat (length base) + 2 <=? usable size then
            Ok (base ++ [nth (Z.to_nat neighbor_index) char_map NUL], size)
          else Undef                                    (* past the block *)
      end
  end.

Definition neighbor_of (hash : list ascii) (d : direction) : outcome (list ascii) :=
  let? (h, _) := get_neighbor (S (length hash)) hash d in Ok h.

(** N, NE, E, SE, S, SW, W, NW *)
Definition geohash_neighbors (hash : list ascii) : outcome (list (list ascii)) :=
  let? n := neighbor_of hash NORTH in let? ne := neighbor_of n EAST in
  let? e := neighbor_of hash EAST in let? se := neighbor_of e SOUTH in
  let? s := neighbor_of hash SOUTH in let? sw := neighbor_of s WEST in
  let? w := neighbor_of hash WEST in let? nw := neighbor_of w NORTH in
  Ok [n; ne; e; se; s; sw; w; nw].
End neighbors.

Example encode_ezs42 :
  string_of_list_ascii <$> geohash_encode (42605 # 1000) (-5603 # 1000) 5 = Some "ezs42".
Proof. reflexivity. Qed.
Example neighbors_ezs42 :
  geohash_neighbors (fun _ => 24) (chars "ezs42")
  = Ok (chars <$> ["ezs48"; "ezs49"; "ezs43"; "ezs41"; "ezs40"; "ezefp"; "ezefr"; "ezefx"]).
Proof. reflexivity. Qed.

(** ** Encoding and decoding *)

Lemma halve_cut coord interval :
  (cut coord interval).2 = halve (cut coord interval).1 interval.
Proof.
  unfold cut, halve. destruct (Qle_bool coord _); cbn [fst snd]; f_equal;
    apply Qred_complete; rewrite Qred_correct; field.
Qed.

(** A point in an interval is in the half that [cut] keeps. *)
Definition inside (x : Q) (i : Interval) : Prop := (low i <= x <= high i)%Q.

Lemma cut_inside x i : inside x i -> inside x (halve (cut x i).1 i).
Proof.
  rewrite <- halve_cut. unfold inside, cut. intros [Hl Hh].
  destruct (Qle_bool x _) eqn:E; cbn [fst snd low high]; split; try done.
  - by apply Qle_bool_iff in E.
  - apply Qlt_le_weak, Qnot_le_lt. intros H. apply Qle_bool_iff in H. congruence.
Qed.

(** The number that the bits pushed into [hashChar] make *)
Definition push_bit (h : Z) (b : bool) : Z :=
  let h := Z.shiftl h 1 in if b then Z.lor h 1 else h.

(** The state in which a point lies in both intervals *)
Definition holds_point (lat lng : Q) (s : decode_state) : Prop :=
  inside lat s.1.1 /\ inside lng s.1.2.

(** The bit the encoder finds in a state, and the state the decoder reaches by it. *)
Definition next_bit (lat lng : Q) (s : decode_state) : bool :=
  if s.2 then (cut lng s.1.2).1 else (cut lat s.1.1).1.
Definition next (lat lng : Q) (s : decode_state) : decode_state :=
  decode_bit (next_bit lat lng s) s.

Lemma encode_step n i lat lng s h hash :
  encode_loop (S n) i lat lng s.1.1 s.1.2 s.2 h hash =
  (let s' := next lat lng s in
   let h := push_bit h (next_bit lat lng s) in
   if i mod 5 =? 0 then encode_loop n (i + 1) lat lng s'.1.1 s'.1.2 s'.2 0
                          (hash ++ [nth (Z.to_nat h) char_map NUL])
   else encode_loop n (i + 1) lat lng s'.1.1 s'.1.2 s'.2 h hash).
Proof.
  destruct s as [[lat_i lng_i] is_even]. unfold next, next_bit, push_bit, decode_bit.
  cbn [encode_loop fst snd]. destruct is_even.
  - pose proof (halve_cut lng lng_i) as E. destruct (cut lng lng_i) as [b iv].
    cbn [fst snd] in *. by rewrite E.
  - pose proof (halve_cut lat lat_i) as E. destruct (cut lat lat_i) as [b iv].
    cbn [fst snd] in *. by rewrite E.
Qed.

Lemma next_inside lat lng s : holds_point lat lng s -> holds_point lat lng (next lat lng s).
Proof.
  destruct s as [[lat_i lng_i] is_even]. unfold holds_point, next, next_bit, decode_bit.
  intros [H1 H2]. destruct is_even; cbn [fst snd] in *; split; try done; by apply cut_inside.
Qed.

(** The character of five bits is decoded to the same five bits. *)
Definition five (b4 b3 b2 b1 b0 : bool) : Z := foldl push_bit 0 [b4; b3; b2; b1; b0].
Definition char_of (k : Z) : ascii := nth (Z.to_nat k) char_map NUL.

Lemma decode_char_of b4 b3 b2 b1 b0 s :
  decode_char s (char_of (five b4 b3 b2 b1 b0))
  = decode_bit b0 (decode_bit b1 (decode_bit b2 (decode_bit b3 (decode_bit b4 s)))).
Proof. by destruct b4, b3, b2, b1, b0. Qed.

Lemma char_of_five b4 b3 b2 b1 b0 : char_of (five b4 b3 b2 b1 b0) ∈ char_map.
Proof. apply list_elem_of_In. destruct b4, b3, b2, b1, b0; vm_compute; tauto. Qed.

(** The next character the encoder writes. *)
Definition next_char (lat lng : Q) (s : decode_state) : ascii :=
  let s1 := next lat lng s in let s2 := next lat lng s1 in let s3 := next lat lng s2 in
  let s4 := next lat lng s3 in
  char_of (five (next_bit lat lng s) (next_bit lat lng s1) (next_bit lat lng s2)
             (next_bit lat lng s3) (next_bit lat lng s4)).

(** Five turns of the encoder write one character and reach the state to which
    the decoder gets by reading it. *)
Lemma encode_char n i lat lng (s s' : decode_state) hash : i mod 5 = 1 ->
  s' = decode_char s (next_char lat lng s) ->
  encode_loop (5 + n) i lat lng s.1.1 s.1.2 s.2 0 hash
  = encode_loop n (i + 5) lat lng s'.1.1 s'.1.2 s'.2 0 (hash ++ [next_char lat lng s]).
Proof.
  intros Hi ->. unfold next_char. rewrite decode_char_of.
  assert ((i + 1) mod 5 = 2 /\ (i + 1 + 1) mod 5 = 3 /\ (i + 1 + 1 + 1) mod 5 = 4 /\
          (i + 1 + 1 + 1 + 1) mod 5 = 0) as (M2 & M3 & M4 & M5)
    by (split_and!; rewrite <- Z.add_mod_idemp_l, ?Hi by lia; Z.div_mod_to_equations; lia).
  change (5 + n)%nat with (S (S (S (S (S n))))).
  do 5 (rewrite encode_step, ?Hi, ?M2, ?M3, ?M4, ?M5; cbn zeta; cbn [Z.eqb]).
  replace (i + 1 + 1 + 1 + 1 + 1) with (i + 5) by lia. done.
Qed.

Lemma next_char_inside lat lng s : holds_point lat lng s ->
  next_char lat lng s ∈ char_map /\ holds_point lat lng (decode_char s (next_char lat lng s)).
Proof.
  intros H. unfold next_char. split; [apply char_of_five|]. rewrite decode_char_of.
  do 5 apply next_inside. done.
Qed.

(** The characters of a hash *)
Definition valid (hash : list ascii) : Prop := Forall (fun c => c ∈ char_map) hash.

Lemma index_valid c : c ∈ char_map -> 0 <= index_for_char c char_map < 32.
Proof.
  intros H%list_elem_of_In. vm_compute in H.
  repeat (destruct H as [<-|H]; [by vm_compute|]). done.
Qed.

Lemma decode_chars_app s h1 h2 : valid h1 ->
  decode_chars s (h1 ++ h2) = decode_chars (decode_chars s h1) h2.
Proof.
  intros H. revert s. induction H as [|c h1 Hc _ IH]; intros s; [done|].
  cbn [decode_chars app]. pose proof (index_valid c Hc).
  destruct (Z.ltb_spec (index_for_char c char_map) 0); [lia|]. apply IH.
Qed.

Lemma decode_cons s c h : c ∈ char_map ->
  decode_chars s (c :: h) = decode_chars (decode_char s c) h.
Proof.
  intros Hc. cbn [decode_chars]. pose proof (index_valid c Hc).
  by destruct (Z.ltb_spec (index_for_char c char_map) 0); [lia|].
Qed.

Lemma decode_snoc s h c : valid h -> c ∈ char_map ->
  decode_chars s (h ++ [c]) = decode_char (decode_chars s h) c.
Proof.
  intros H Hc. rewrite decode_chars_app by done. cbn [decode_chars].
  pose proof (index_valid c Hc). by destruct (Z.ltb_spec (index_for_char c char_map) 0); [lia|].
Qed.

(** The encoder writes one character for five turns, and its intervals are
    those to which the decoder gets by reading what is written. *)
Lemma encode_groups n i lat lng s hash : i mod 5 = 1 -> holds_point lat lng s ->
  exists h, valid h /\ length h = n /\ holds_point lat lng (decode_chars s h) /\
    forall m s', s' = decode_chars s h ->
    encode_loop (n * 5 + m) i lat lng s.1.1 s.1.2 s.2 0 hash
    = encode_loop m (i + 5 * Z.of_nat n) lat lng s'.1.1 s'.1.2 s'.2 0 (hash ++ h).
Proof.
  revert i s hash. induction n as [|n IH]; intros i s hash Hi Hp.
  { exists []. split_and!; try done; [by constructor|]. intros m s' ->.
    cbn [decode_chars]. rewrite app_nil_r. simpl. f_equal. lia. }
  destruct (next_char_inside lat lng s Hp) as [Hc Hp']. set (c := next_char lat lng s) in *.
  destruct (IH (i + 5) (decode_char s c) (hash ++ [c])) as (h & Hh & Hl & Hp2 & E2).
  - by rewrite <- Z.add_mod_idemp_l, Hi by lia.
  - done.
  - assert (decode_chars s (c :: h) = decode_chars (decode_char s c) h) as Es.
    { by apply decode_cons. }
    exists (c :: h). split_and!; [by constructor|by simpl; f_equal|by rewrite Es|].
    intros m s' ->. change (S n * 5 + m)%nat with (5 + (n * 5 + m))%nat.
    rewrite (encode_char _ _ _ _ _ (decode_char s c)), (E2 _ _ eq_refl), Es by done.
    rewrite <- app_assoc. f_equal. lia.
Qed.

(** *** The grid *)

(** Cell [X] of the [D] cells into which the range from [M] of width [W] is cut *)
Definition on_grid (M W : Q) (D X : Z) (i : Interval) : Prop :=
  (low i == M + W * (inject_Z X / inject_Z D) /\
   high i == M + W * (inject_Z (X + 1) / inject_Z D))%Q.

Lemma inject_Z_neq D : 0 < D -> ~ (inject_Z D == 0)%Q.
Proof. intros H E. unfold Qeq in E. simpl in E. lia. Qed.

Lemma halve_grid b M W D X i : 0 < D -> on_grid M W D X i ->
  on_grid M W (2 * D) (2 * X + Z.b2z b) (halve b i).
Proof.
  intros HD [Hl Hh]. apply inject_Z_neq in HD.
  assert (forall x, inject_Z (2 * x) == 2 * inject_Z x)%Q as E2 by by intros x; rewrite inject_Z_mult.
  unfold on_grid, halve. destruct b; cbn [low high Z.b2z];
    rewrite !Qred_correct, Hl, Hh, !inject_Z_plus, !E2; split; try (field; done);
    change (inject_Z 0) with 0%Q; change (inject_Z 1) with 1%Q; field; done.
Qed.

(** The bits of a character that go to the coordinate halved first, and to the
    other one. *)
Definition wide (k : Z) : Z :=
  4 * Z.b2z (index_bit k 0) + 2 * Z.b2z (index_bit k 2) + Z.b2z (index_bit k 4).
Definition narrow (k : Z) : Z := 2 * Z.b2z (index_bit k 1) + Z.b2z (index_bit k 3).

(** The numbers of columns and rows of the grid, and the column and the row of
    a cell; the hash is read from its end. *)
Fixpoint cells (n : nat) : Z * Z :=
  match n with
  | O => (1, 1)
  | S n => let '(a, b) := cells n in if Nat.even n then (8 * a, 4 * b) else (4 * a, 8 * b)
  end.
Fixpoint cell_rev (r : list ascii) : Z * Z :=
  match r with
  | [] => (0, 0)
  | c :: r =>
      let '(x, y) := cell_rev r in let k := index_for_char c char_map in
      if Nat.even (length r) then (8 * x + wide k, 4 * y + narrow k)
      else (4 * x + narrow k, 8 * y + wide k)
  end.
Definition cell (hash : list ascii) : Z * Z := cell_rev (reverse hash).

Lemma cell_snoc h c : cell (h ++ [c]) =
  (let '(x, y) := cell h in let k := index_for_char c char_map in
   if Nat.even (length h) then (8 * x + wide k, 4 * y + narrow k)
   else (4 * x + narrow k, 8 * y + wide k)).
Proof. unfold cell. rewrite reverse_snoc. cbn [cell_rev]. by rewrite length_reverse. Qed.

Lemma cells_pos n : 0 < (cells n).1 /\ 0 < (cells n).2.
Proof.
  induction n as [|n IH]; [done|]. simpl. destruct (cells n) as [a b].
  destruct (Nat.even n); simpl in *; lia.
Qed.

Lemma on_grid_eq M W D X D' X' i : D = D' -> X = X' -> on_grid M W D X i -> on_grid M W D' X' i.
Proof. by intros -> ->. Qed.

Lemma halve2_grid b1 b2 M W D X i : 0 < D -> on_grid M W D X i ->
  on_grid M W (4 * D) (4 * X + (2 * Z.b2z b1 + Z.b2z b2)) (halve b2 (halve b1 i)).
Proof.
  intros HD H. apply (halve_grid b1), (halve_grid b2) in H; [|lia..].
  revert H. apply on_grid_eq; lia.
Qed.

Lemma halve3_grid b1 b2 b3 M W D X i : 0 < D -> on_grid M W D X i ->
  on_grid M W (8 * D) (8 * X + (4 * Z.b2z b1 + 2 * Z.b2z b2 + Z.b2z b3))
    (halve b3 (halve b2 (halve b1 i))).
Proof.
  intros HD H. apply (halve2_grid b1 b2), (halve_grid b3) in H; [|lia..].
  revert H. apply on_grid_eq; lia.
Qed.

(** The box a hash is decoded to is its cell of the grid. *)
Lemma decode_cell h : valid h ->
  exists lat_i lng_i, decode_chars (whole_lat, whole_lng, true) h
    = (lat_i, lng_i, Nat.even (length h)) /\
    on_grid (-180) 360 (cells (length h)).1 (cell h).1 lng_i /\
    on_grid (-90) 180 (cells (length h)).2 (cell h).2 lat_i.
Proof.
  induction h as [|c h IH] using rev_ind.
  { intros _. exists whole_lat, whole_lng. split; [done|].
    split; split; by vm_compute. }
  intros [Hh [Hc _]%Forall_cons]%Forall_app. cbn beta in Hc.
  destruct (IH Hh) as (lat_i & lng_i & E & Hx & Hy). rewrite decode_snoc, E by assumption.
  rewrite cell_snoc, length_app, Nat.add_1_r. cbn [cells].
  rewrite Nat.even_succ, <- Nat.negb_even.
  pose proof (cells_pos (length h)) as [Ha Hb].
  destruct (cells (length h)) as [a b], (cell h) as [x y]. cbn [fst snd] in *.
  unfold decode_char. cbn [foldl]. set (k := index_for_char c char_map).
  destruct (Nat.even (length h)); cbn [decode_bit negb fst snd];
    eexists _, _; (split; [done|]); split.
  - by apply halve3_grid.
  - by apply halve2_grid.
  - by apply halve2_grid.
  - by apply halve3_grid.
Qed.

(** The numbers of cells are those by which the dimensions are divided. *)
Lemma halved_spec n x : (halved n x == x / inject_Z (2 ^ Z.of_nat n))%Q.
Proof.
  revert x. induction n as [|n IH]; intros x; cbn [halved]; [change (inject_Z (2 ^ Z.of_nat 0)) with 1%Q; by field|].
  rewrite IH, Qred_correct, Nat2Z.inj_succ, Z.pow_succ_r, inject_Z_mult by lia.
  change (inject_Z 2) with 2%Q. field. apply inject_Z_neq. lia.
Qed.

Lemma cells_even m : cells (2 * m) = (32 ^ Z.of_nat m, 32 ^ Z.of_nat m).
Proof.
  induction m as [|m IH]; [done|].
  replace (2 * S m)%nat with (S (S (2 * m))) by lia. cbn [cells]. rewrite IH.
  rewrite Nat.even_succ, <- Nat.negb_even, Nat.even_even. cbn [negb].
  rewrite Nat2Z.inj_succ, Z.pow_succ_r by lia. f_equal; lia.
Qed.

Lemma cells_odd m : cells (S (2 * m)) = (8 * 32 ^ Z.of_nat m, 4 * 32 ^ Z.of_nat m).
Proof. cbn [cells]. by rewrite cells_even, Nat.even_even. Qed.

Lemma dimensions_cells n : (0 < n)%nat ->
  ((geohash_dimensions_for_precision (Z.of_nat n)).1 == 180 / inject_Z (cells n).2 /\
   (geohash_dimensions_for_precision (Z.of_nat n)).2 == 360 / inject_Z (cells n).1)%Q.
Proof.
  intros Hn. unfold geohash_dimensions_for_precision.
  destruct (Z.ltb_spec 0 (Z.of_nat n)); [|lia].
  rewrite Z.quot_div_nonneg, Z.rem_mod_nonneg by lia. cbn [fst snd]. rewrite !halved_spec.
  destruct (Nat.Even_or_Odd n) as [[m ->]|[m ->]].
  - replace (Z.of_nat (2 * m) * 5 / 2) with (5 * Z.of_nat m) by (Z.div_mod_to_equations; lia).
    replace (Z.of_nat (2 * m) mod 2) with 0 by (Z.div_mod_to_equations; lia).
    rewrite cells_even, Z.eqb_refl, Z.add_0_r, Z2Nat.id, Z.pow_mul_r by lia. done.
  - replace (Z.of_nat (2 * m + 1) * 5 / 2) with (2 + 5 * Z.of_nat m)
      by (Z.div_mod_to_equations; lia).
    replace (Z.of_nat (2 * m + 1) mod 2) with 1 by (Z.div_mod_to_equations; lia).
    replace (2 * m + 1)%nat with (S (2 * m)) by lia. rewrite cells_odd. cbn [Z.eqb fst snd].
    rewrite !Z2Nat.id by lia. replace (2 + 5 * Z.of_nat m + 1) with (3 + 5 * Z.of_nat m) by lia.
    rewrite !Z.pow_add_r, !Z.pow_mul_r by lia. done.
Qed.

(** The center of the box of a hash *)
Lemma center_spec i : (center i == (low i + high i) / 2)%Q.
Proof. unfold center. rewrite Qred_correct. field. Qed.

(** A point strictly inside the box to which a text is decoded is encoded to
    that text. *)
Definition strictly (x : Q) (i : Interval) : Prop := (low i < x < high i)%Q.

Lemma strictly_halve b x i : strictly x (halve b i) -> strictly x i /\ (cut x i).1 = b.
Proof.
  unfold strictly, halve, cut. assert (forall y, y / 2 == y * (1 # 2))%Q as E2 by by intros.
  destruct b; cbn [low high]; rewrite !Qred_correct, E2; intros [Hl Hh];
    (split; [split; lra|]); destruct (Qle_bool x _) eqn:E; try done; exfalso.
  - apply Qle_bool_iff in E. rewrite E2 in E. lra.
  - apply not_true_iff_false in E. apply E, Qle_bool_iff. rewrite E2. lra.
Qed.

Definition strict_point (lat lng : Q) (s : decode_state) : Prop :=
  strictly lat s.1.1 /\ strictly lng s.1.2.

Lemma strict_bit lat lng b s : strict_point lat lng (decode_bit b s) ->
  strict_point lat lng s /\ next_bit lat lng s = b.
Proof.
  destruct s as [[lat_i lng_i] is_even]. unfold strict_point, next_bit, decode_bit.
  destruct is_even; cbn [fst snd]; intros [H1 H2].
  - apply strictly_halve in H2 as [??]. done.
  - apply strictly_halve in H1 as [??]. done.
Qed.

Lemma char_of_index c : c ∈ char_map ->
  let k := index_for_char c char_map in
  char_of (five (index_bit k 0) (index_bit k 1) (index_bit k 2) (index_bit k 3) (index_bit k 4)) = c.
Proof.
  intros H%list_elem_of_In. vm_compute in H.
  repeat (destruct H as [<-|H]; [by vm_compute|]). done.
Qed.

Lemma strict_char lat lng c s : c ∈ char_map -> strict_point lat lng (decode_char s c) ->
  strict_point lat lng s /\ next_char lat lng s = c.
Proof.
  intros Hc. rewrite <- (char_of_index c Hc) at 2. unfold decode_char, next_char, next.
  cbn [foldl]. set (k := index_for_char c char_map).
  intros (((((H & E0)%strict_bit & E1)%strict_bit & E2)%strict_bit & E3)%strict_bit & E4)%strict_bit.
  split; [done|]. by rewrite E0, E1, E2, E3, E4.
Qed.

Lemma encode_strict n i lat lng s hash h : i mod 5 = 1 -> valid h -> n = (length h * 5)%nat ->
  strict_point lat lng (decode_chars s h) ->
  strict_point lat lng s /\
  encode_loop n i lat lng s.1.1 s.1.2 s.2 0 hash = hash ++ h.
Proof.
  intros Hi Hv. revert n i s hash Hi. induction Hv as [|c h Hc Hv IH]; intros n i s hash Hi -> Hp.
  { by rewrite app_nil_r. }
  rewrite decode_cons in Hp by done.
  destruct (IH (length h * 5)%nat (i + 5) (decode_char s c) (hash ++ [c])) as [Hs E];
    [by rewrite <- Z.add_mod_idemp_l, Hi by lia|done|done|].
  apply strict_char in Hs as [Hs Ec]; [|done]. split; [done|].
  change (length (c :: h) * 5)%nat with (5 + length h * 5)%nat.
  rewrite (encode_char _ _ _ _ _ (decode_char s c)), Ec, E by (rewrite ?Ec; done).
  by rewrite <- app_assoc.
Qed.

(** *** Encoding with an allowed precision *)

Definition in_range (lat lng : Q) : Prop := inside lat whole_lat /\ inside lng whole_lng.

Lemma encode_in_range lat lng p : 1 <= p <= 12 -> in_range lat lng ->
  geohash_encode lat lng p
  = Some (encode_loop (Z.to_nat (p * 5)) 1 lat lng whole_lat whole_lng true 0 []).
Proof.
  intros Hp [[Ha Hb] [Hc Hd]]. unfold geohash_encode.
  destruct (Z.ltb_spec p 1), (Z.ltb_spec 12 p); [lia..|]. cbn [orb]. cbn zeta.
  apply Qle_bool_iff in Ha, Hb, Hc, Hd. cbn [whole_lat whole_lng low high] in *.
  by rewrite Ha, Hb, Hc, Hd.
Qed.

(** What the encoder writes for precision [p] *)
Lemma encode_decode_chars lat lng p : (1 <= p <= 12)%nat -> in_range lat lng ->
  exists h, geohash_encode lat lng (Z.of_nat p) = Some h /\ valid h /\ length h = p /\
    holds_point lat lng (decode_chars (whole_lat, whole_lng, true) h).
Proof.
  intros Hp Hr.
  destruct (encode_groups p 1 lat lng (whole_lat, whole_lng, true) []) as (h & Hv & Hl & Hh & E);
    [done|done|].
  exists h. split_and!; [|done..]. rewrite encode_in_range by (done || lia).
  specialize (E O _ eq_refl). rewrite Nat.add_0_r in E.
  replace (Z.to_nat (Z.of_nat p * 5)) with (p * 5)%nat by lia. cbn [fst snd] in E. by rewrite E.
Qed.

Lemma encode_prefix lat lng p q : (1 <= q <= p)%nat -> (p <= 12)%nat -> in_range lat lng ->
  geohash_encode lat lng (Z.of_nat q) = take q <$> geohash_encode lat lng (Z.of_nat p).
Proof.
  intros Hq Hp Hr.
  destruct (encode_groups q 1 lat lng (whole_lat, whole_lng, true) []) as (h & Hv & Hl & Hh & E);
    [done|done|].
  rewrite !encode_in_range by (done || lia). cbn [fmap option_fmap option_map]. f_equal.
  pose proof (E O _ eq_refl) as Eq. rewrite Nat.add_0_r in Eq.
  pose proof (E ((p - q) * 5)%nat _ eq_refl) as Ep.
  destruct (encode_groups (p - q) (1 + 5 * Z.of_nat q) lat lng
              (decode_chars (whole_lat, whole_lng, true) h) h) as (h2 & _ & _ & _ & E2);
    [by rewrite <- Z.add_mod_idemp_r, Z.mul_comm, Z_mod_mult by lia|done|].
  specialize (E2 O _ eq_refl). rewrite Nat.add_0_r in E2.
  replace (Z.to_nat (Z.of_nat q * 5)) with (q * 5)%nat by lia.
  replace (Z.to_nat (Z.of_nat p * 5)) with (q * 5 + (p - q) * 5)%nat by lia.
  cbn [fst snd app] in Eq, Ep. cbn [app] in E2. rewrite Eq, Ep, E2. cbn [encode_loop].
  by rewrite <- Hl, take_app_length.
Qed.

(** *** The box of a hash *)

Definition in_box (lat lng : Q) (g : GeoCoord) : Prop :=
  (south g <= lat <= north g /\ west g <= lng <= east g)%Q.

Lemma decode_fields h : h <> [] -> valid h ->
  exists lat lng b, decode_chars (whole_lat, whole_lng, true) h = (lat, lng, b) /\
    geohash_decode (Some h) = {| latitude := center lat; longitude := center lng;
      north := high lat; east := high lng; south := low lat; west := low lng |} /\
    on_grid (-180) 360 (cells (length h)).1 (cell h).1 lng /\
    on_grid (-90) 180 (cells (length h)).2 (cell h).2 lat.
Proof.
  intros Hh Hv. destruct (decode_cell h Hv) as (lat & lng & E & Hx & Hy).
  exists lat, lng, (Nat.even (length h)). split_and!; [done| |done..].
  unfold geohash_decode. destruct h; [done|]. by rewrite E.
Qed.

(** The sides of a box are the dimensions for its precision, and its center is
    half of them away from each side. *)
Lemma decode_dimensions h : h <> [] -> valid h ->
  let g := geohash_decode (Some h) in
  let '(height, width) := geohash_dimensions_for_precision (Z.of_nat (length h)) in
  (north g == south g + height /\ east g == west g + width /\ 0 < height /\ 0 < width /\
   latitude g == south g + height * (1 # 2) /\ longitude g == west g + width * (1 # 2))%Q.
Proof.
  intros Hh Hv. destruct (decode_fields h Hh Hv) as (lat & lng & b & _ & E & [Hw He] & [Hs Hn]).
  assert (0 < length h)%nat as Hl by (destruct h; [done|simpl; lia]).
  pose proof (dimensions_cells _ Hl) as [Ed1 Ed2]. pose proof (cells_pos (length h)) as [Hx Hy].
  destruct (geohash_dimensions_for_precision _) as [height width]. cbn [fst snd] in *. cbn zeta.
  rewrite E. cbn [north east south west latitude longitude]. rewrite !center_spec.
  destruct (cells (length h)) as [nx ny]. cbn [fst snd] in *.
  pose proof (inject_Z_neq nx Hx). pose proof (inject_Z_neq ny Hy).
  rewrite Ed1, Ed2, Hw, He, Hs, Hn, !inject_Z_plus. change (inject_Z 1) with 1%Q.
  split_and!; try (field; done); apply Qlt_shift_div_l; try (rewrite Qmult_0_l; done);
    by rewrite Zlt_Qlt in Hx, Hy.
Qed.

(** *** The tables of neighbours *)

Definition step (d : direction) : Z * Z :=
  match d with NORTH => (0, 1) | EAST => (1, 0) | SOUTH => (0, -1) | WEST => (-1, 0) end.

(** Columns and rows of the cells into which one more character cuts a cell, and
    the place of a character among them, for a text of even length or not *)
Definition sub_cells (even : bool) : Z * Z := if even then (8, 4) else (4, 8).
Definition sub_cell (even : bool) (c : ascii) : Z * Z :=
  let k := index_for_char c char_map in if even then (wide k, narrow k) else (narrow k, wide k).
Definition within (xy sizes : Z * Z) : bool :=
  (0 <=? xy.1) && (xy.1 <? sizes.1) && (0 <=? xy.2) && (xy.2 <? sizes.2).
Definition moved (d : direction) (xy : Z * Z) : Z * Z := (xy.1 + (step d).1, xy.2 + (step d).2).

(** The tables of a text that ends with [c], whose rest is of even length or not *)
Definition border_of (even : bool) (d : direction) : list ascii :=
  if even then odd_borders d else even_borders d.
Definition neighbors_of (even : bool) (d : direction) : list ascii :=
  if even then odd_neighbors d else even_neighbors d.

(** A character is on the border if its neighbour is not in the same cell; the
    table then gives the place on the other side. *)
Definition table_ok (even : bool) (d : direction) (c : ascii) : bool :=
  let '(w, h) := sub_cells even in
  let '(x, y) := moved d (sub_cell even c) in
  let i := index_for_char c (neighbors_of even d) in
  let c' := nth (Z.to_nat i) char_map NUL in
  within (sub_cell even c) (w, h) &&
  eqb (index_for_char c (border_of even d) =? NOT_FOUND) (within (x, y) (w, h)) &&
  (i <? 32) && existsb (Ascii.eqb c') char_map &&
  ((sub_cell even c').1 =? x mod w) && ((sub_cell even c').2 =? y mod h).

Lemma tables_ok : forallb (fun even => forallb (fun d => forallb (table_ok even d) char_map)
  [NORTH; EAST; SOUTH; WEST]) [true; false] = true.
Proof. by vm_compute. Qed.

Lemma table_ok_all even d c : c ∈ char_map -> table_ok even d c = true.
Proof.
  intros Hc%list_elem_of_In. pose proof tables_ok as H.
  rewrite forallb_forall in H. specialize (H even). rewrite forallb_forall in H.
  specialize (H ltac:(destruct even; simpl; tauto) d). rewrite forallb_forall in H.
  apply H; [destruct d; simpl; tauto|done].
Qed.

Lemma cell_snoc_sub h c : cell (h ++ [c]) =
  let '(w, k) := sub_cells (Nat.even (length h)) in
  let '(x, y) := sub_cell (Nat.even (length h)) c in
  (w * (cell h).1 + x, k * (cell h).2 + y).
Proof. rewrite cell_snoc. destruct (cell h). by destruct (Nat.even _). Qed.

Lemma cells_succ n : cells (S n) =
  let '(w, k) := sub_cells (Nat.even n) in (w * (cells n).1, k * (cells n).2).
Proof. cbn [cells]. destruct (cells n). by destruct (Nat.even n). Qed.

Lemma cell_within h : valid h -> within (cell h) (cells (length h)) = true.
Proof.
  induction h as [|c h IH] using rev_ind; [done|].
  intros [Hh [Hc _]%Forall_cons]%Forall_app. cbn beta in Hc. specialize (IH Hh).
  pose proof (table_ok_all (Nat.even (length h)) NORTH c Hc) as Ht. unfold table_ok in Ht.
  rewrite cell_snoc_sub, length_app, Nat.add_1_r, cells_succ.
  destruct (sub_cells (Nat.even (length h))) as [w k], (moved _ _) as [? ?].
  apply andb_prop in Ht as [Ht _]. repeat apply andb_prop in Ht as [Ht ?].
  destruct (sub_cell _ _) as [x y]. unfold within in *. cbn [fst snd] in *.
  destruct (cell h) as [cx cy], (cells (length h)) as [a b]. cbn [fst snd] in *.
  rewrite !andb_true_iff, !Z.leb_le, !Z.ltb_lt in *. nia.
Qed.

(** What a character of the table says: the neighbour in the same cell, or the
    one on the other side of the cell beside it. *)
Lemma table_spec even d c : c ∈ char_map ->
  let '(w, k) := sub_cells even in
  let '(x, y) := moved d (sub_cell even c) in
  let i := index_for_char c (neighbors_of even d) in
  let c' := nth (Z.to_nat i) char_map NUL in
  c' ∈ char_map /\ (i =? NOT_FOUND) = false /\
  if index_for_char c (border_of even d) =? NOT_FOUND then sub_cell even c' = (x, y)
  else sub_cell even c' = (x - w * (step d).1, y - k * (step d).2).
Proof.
  intros Hc. pose proof (table_ok_all even d c Hc) as Ht. unfold table_ok in Ht.
  destruct (sub_cells even) as [w k] eqn:Es, (moved d _) as [x y] eqn:Em. cbn zeta in *.
  rewrite !andb_true_iff, !Z.eqb_eq, Z.ltb_lt, existsb_exists in Ht.
  destruct Ht as (((((Hin & Hb) & Hi) & (c0 & Hc0 & ->%Ascii.eqb_eq)) & Hx) & Hy).
  split_and!; [by apply list_elem_of_In|by apply Z.eqb_neq; unfold NOT_FOUND; lia|].
  apply eqb_prop in Hb. rewrite Hb.
  destruct (sub_cell even c0) as [x' y'], (sub_cell even c) as [xc yc]. unfold moved in Em.
  unfold within in *. cbn [fst snd] in *. subst x' y'.
  assert (0 < w /\ 0 < k) as [Hw Hk] by (destruct even; injection Es as <- <-; lia).
  injection Em as <- <-. rewrite !andb_true_iff, !Z.leb_le, !Z.ltb_lt in Hin.
  destruct (_ && _) eqn:Ei.
  - rewrite !andb_true_iff, !Z.leb_le, !Z.ltb_lt in Ei. f_equal; apply Z.mod_small; lia.
  - rewrite !andb_false_iff, !Z.leb_gt, !Z.ltb_ge in Ei.
    destruct d; cbn [step fst snd] in *; rewrite ?Z.add_0_r, ?Z.mul_0_r, ?Z.sub_0_r in *; f_equal;
      first [apply Z.mod_small; lia | symmetry; apply (Z.mod_unique_pos _ _ 1); lia
            | symmetry; apply (Z.mod_unique_pos _ _ (-1)); lia].
Qed.

(** *** The neighbours *)

Lemma get_neighbor_snoc usable fuel h c d :
  get_neighbor usable (S fuel) (h ++ [c]) d =
  (let even := Nat.even (length h) in
   let i := index_for_char c (neighbors_of even d) in
   let? (base, size) :=
     if index_for_char c (border_of even d) =? NOT_FOUND
     then Ok (h, Z.of_nat (S (length h))) else get_neighbor usable fuel h d in
   if i =? NOT_FOUND then Undef
   else if Z.of_nat (length base) + 2 <=? usable size
        then Ok (base ++ [nth (Z.to_nat i) char_map NUL], size) else Undef).
Proof.
  cbn [get_neighbor]. rewrite last_snoc, removelast_last, length_app, Nat.add_1_r.
  rewrite Nat.odd_succ. unfold border_of, neighbors_of. cbn zeta. by destruct (Nat.even _).
Qed.

Lemma within_spec x y a b :
  within (x, y) (a, b) = true <-> (0 <= x < a /\ 0 <= y < b).
Proof. unfold within. cbn [fst snd]. rewrite !andb_true_iff, !Z.leb_le, !Z.ltb_lt. lia. Qed.

(** Leaving a small cell leads to a small cell of the same cell, or out of the
    cell that holds it. *)
Lemma within_sub d x y w k cx cy a b :
  within (x, y) (w, k) = true -> within (cx, cy) (a, b) = true ->
  within (moved d (w * cx + x, k * cy + y)) (w * a, k * b)
  = (within (moved d (x, y)) (w, k) || within (moved d (cx, cy)) (a, b)).
Proof.
  rewrite !within_spec. intros Hs Hc. apply eq_bool_prop_intro. rewrite !Is_true_true.
  rewrite orb_true_iff. unfold moved. cbn [fst snd]. rewrite !within_spec.
  destruct d; cbn [step fst snd]; rewrite ?Z.add_0_r; nia.
Qed.

(** Appending a character to the text of the cell beside, or of the same one *)
Lemma append_sub (usable : Z -> Z) (h : list ascii) (c : ascii) (w k : Z) (xy : Z * Z) :
  (forall n, 24 <= usable n) -> (S (length h) <= 22)%nat -> c ∈ char_map ->
  sub_cells (Nat.even (length h)) = (w, k) -> forall base size (cxy : Z * Z),
  length base = length h -> valid base -> cell base = cxy ->
  (w * cxy.1 + (sub_cell (Nat.even (length h)) c).1,
   k * cxy.2 + (sub_cell (Nat.even (length h)) c).2) = xy ->
  exists h' n, (if Z.of_nat (length base) + 2 <=? usable size
                then Ok (base ++ [c], size) else Undef) = Ok (h', n) /\
    valid h' /\ length h' = S (length h) /\ cell h' = xy.
Proof.
  intros Hu Hl Hc Es base size cxy Hlb Hvb Hcb Hm. exists (base ++ [c]), size.
  specialize (Hu size). destruct (Z.leb_spec (Z.of_nat (length base) + 2) (usable size)); [|lia].
  split_and!; [done| |rewrite length_app; simpl; lia|].
  - apply Forall_app. split; [done|]. by apply Forall_singleton.
  - rewrite cell_snoc_sub, Hlb, Es, Hcb. by destruct (sub_cell _ c).
Qed.

(** A neighbour of a cell on the grid is the adjacent cell; beyond the grid the
    program reads before the text. *)
Lemma get_neighbor_spec usable fuel h d :
  (forall n, 24 <= usable n) -> valid h -> (length h <= 22)%nat -> (length h < fuel)%nat ->
  if within (moved d (cell h)) (cells (length h)) then
    exists h' n, get_neighbor usable fuel h d = Ok (h', n) /\
      valid h' /\ length h' = length h /\ cell h' = moved d (cell h)
  else get_neighbor usable fuel h d = Undef.
Proof.
  intros Hu. revert fuel. induction h as [|c h IH] using rev_ind; intros fuel Hv Hl Hf.
  { destruct fuel; [lia|]. by destruct d. }
  destruct fuel as [|fuel]; [lia|]. rewrite get_neighbor_snoc. cbn zeta.
  apply Forall_app in Hv as [Hv [Hc _]%Forall_cons]. cbn beta in Hc.
  rewrite length_app, Nat.add_1_r in *. specialize (IH fuel Hv ltac:(lia) ltac:(lia)).
  pose proof (cell_within h Hv) as Hw. rewrite cell_snoc_sub, cells_succ.
  pose proof (table_spec (Nat.even (length h)) d c Hc) as Ht.
  pose proof (table_ok_all (Nat.even (length h)) d c Hc) as Hin. unfold table_ok in Hin.
  destruct (sub_cells (Nat.even (length h))) as [w k] eqn:Es.
  destruct (sub_cell (Nat.even (length h)) c) as [x y] eqn:Ec.
  destruct (moved d (x, y)) as [mx my] eqn:Em. cbn zeta in Ht.
  destruct Ht as (Hc' & Hn & Hsub). rewrite Hn.
  set (c' := nth (Z.to_nat (index_for_char c (neighbors_of (Nat.even (length h)) d))) char_map NUL)
    in *.
  do 4 apply andb_prop in Hin as [Hin _]. apply andb_prop in Hin as [Hin Hbd%eqb_prop].
  destruct (cell h) as [cx cy] eqn:Eh, (cells (length h)) as [a b] eqn:En. cbn [fst snd].
  rewrite within_sub, Em by done. rewrite <- Hbd.
  pose proof (append_sub usable h c' _ _ (moved d (w * cx + x, k * cy + y)) Hu Hl Hc' Es) as Hok.
  unfold moved in *. cbn [fst snd] in *. injection Em as Emx Emy.
  destruct (index_for_char c (border_of _ d) =? NOT_FOUND); cbn [orb].
  - apply (Hok _ _ (cx, cy)); [done..|]. rewrite Hsub. cbn [fst snd]. f_equal; lia.
  - destruct (within _ (a, b)).
    + destruct IH as (base & size & -> & Hvb & Hlb & Hcb). cbn [obind].
      apply (Hok _ _ _ Hlb Hvb Hcb). rewrite Hsub. cbn [fst snd]. f_equal; lia.
    + by rewrite IH.
Qed.

(** With a block of no more than the bytes asked for, the character is written
    past the end. *)
Lemma get_neighbor_exact fuel h d : (length h < fuel)%nat ->
  get_neighbor (fun n => n) fuel h d = Undef.
Proof.
  revert fuel. induction h as [|c h IH] using rev_ind; intros fuel Hf;
    (destruct fuel as [|fuel]; [lia|]); [done|].
  rewrite length_app, Nat.add_1_r in Hf. rewrite get_neighbor_snoc. cbn zeta.
  destruct (index_for_char c (border_of _ d) =? NOT_FOUND); [|by rewrite IH by lia].
  cbn [obind]. destruct (_ =? NOT_FOUND); [done|]. by destruct (Z.leb_spec (Z.of_nat (length h) + 2)
    (Z.of_nat (S (length h)))); [lia|].
Qed.

Lemma neighbor_of_spec usable h d :
  (forall n, 24 <= usable n) -> valid h -> (length h <= 22)%nat ->
  if within (moved d (cell h)) (cells (length h)) then
    exists h', neighbor_of usable h d = Ok h' /\
      valid h' /\ length h' = length h /\ cell h' = moved d (cell h)
  else neighbor_of usable h d = Undef.
Proof.
  intros Hu Hv Hl. pose proof (get_neighbor_spec usable (S (length h)) h d Hu Hv Hl ltac:(lia)) as H.
  unfold neighbor_of. destruct (within _ _); [|by rewrite H].
  destruct H as (h' & n & -> & ?). by exists h'.
Qed.

(** A text of the length of [h] that names a cell *)
Definition names (n : nat) (h : list ascii) (xy : Z * Z) : Prop :=
  valid h /\ length h = n /\ cell h = xy.

(** Two steps from a cell in the middle of the grid *)
Lemma neighbor_pair usable n h xy d1 d2 :
  (forall n, 24 <= usable n) -> (n <= 22)%nat -> names n h xy ->
  within (moved d1 xy) (cells n) = true ->
  within (moved d2 (moved d1 xy)) (cells n) = true ->
  exists h1 h2, neighbor_of usable h d1 = Ok h1 /\ neighbor_of usable h1 d2 = Ok h2 /\
    names n h1 (moved d1 xy) /\ names n h2 (moved d2 (moved d1 xy)).
Proof.
  intros Hu Hl (Hv & Hn & Hc) H1 H2. subst n xy.
  pose proof (neighbor_of_spec usable h d1 Hu Hv Hl) as E1. rewrite H1 in E1.
  destruct E1 as (h1 & E1 & Hv1 & Hl1 & Hc1).
  pose proof (neighbor_of_spec usable h1 d2 Hu Hv1 ltac:(lia)) as E2.
  rewrite Hc1, Hl1, H2 in E2. destruct E2 as (h2 & E2 & Hv2 & Hl2 & Hc2). by exists h1, h2.
Qed.

(** The eight cells around a cell in the middle of the grid *)
Lemma neighbors_inner usable n h x y nx ny :
  (forall n, 24 <= usable n) -> (n <= 22)%nat -> names n h (x, y) -> cells n = (nx, ny) ->
  0 < x < nx - 1 -> 0 < y < ny - 1 -> exists hs, geohash_neighbors usable h = Ok hs /\
    Forall (fun h' => valid h' /\ length h' = n) hs /\
    cell <$> hs = [(x, y + 1); (x + 1, y + 1); (x + 1, y); (x + 1, y - 1);
                   (x, y - 1); (x - 1, y - 1); (x - 1, y); (x - 1, y + 1)].
Proof.
  intros Hu Hl Hh Hn Hx Hy. unfold geohash_neighbors.
  assert (forall dx dy, -1 <= dx <= 1 -> -1 <= dy <= 1 ->
    within (x + dx, y + dy) (cells n) = true) as Hin
    by (intros; rewrite Hn; apply within_spec; lia).
  assert (forall d, within (moved d (x, y)) (cells n) = true) as H1
    by (intros []; apply Hin; simpl; lia).
  destruct (neighbor_pair _ _ _ _ NORTH EAST Hu Hl Hh (H1 _)) as (no & ne & En0 & Ep0 & ? & ?);
    [rewrite Hn; apply within_spec; simpl; lia|].
  destruct (neighbor_pair _ _ _ _ EAST SOUTH Hu Hl Hh (H1 _)) as (e & se & En1 & Ep1 & ? & ?);
    [rewrite Hn; apply within_spec; simpl; lia|].
  destruct (neighbor_pair _ _ _ _ SOUTH WEST Hu Hl Hh (H1 _)) as (s & sw & En2 & Ep2 & ? & ?);
    [rewrite Hn; apply within_spec; simpl; lia|].
  destruct (neighbor_pair _ _ _ _ WEST NORTH Hu Hl Hh (H1 _)) as (w & nw & En3 & Ep3 & ? & ?);
    [rewrite Hn; apply within_spec; simpl; lia|].
  rewrite En0. cbn [obind]. rewrite Ep0, En1. cbn [obind]. rewrite Ep1, En2. cbn [obind].
  rewrite Ep2, En3. cbn [obind]. rewrite Ep3.
  unfold names, moved in *. cbn [obind step fst snd] in *. destruct_and!.
  exists [no; ne; e; se; s; sw; w; nw]. split_and!; [done| |].
  + by repeat apply List.Forall_cons; try apply List.Forall_nil.
  + cbn [fmap list_fmap]. repeat match goal with H : cell _ = _ |- _ => rewrite H; clear H end.
    repeat (apply (f_equal2 cons); [apply (f_equal2 pair); lia|]). done.
Qed.

(** A cell has one text. *)
Definition sub_cells_differ (even : bool) : bool :=
  forallb (fun c => forallb (fun c' => Ascii.eqb c c' ||
    negb (((sub_cell even c).1 =? (sub_cell even c').1) && ((sub_cell even c).2 =? (sub_cell even c').2)))
    char_map) char_map.

Lemma sub_cell_inj even c c' : c ∈ char_map -> c' ∈ char_map ->
  sub_cell even c = sub_cell even c' -> c = c'.
Proof.
  intros Hc%list_elem_of_In Hc'%list_elem_of_In E.
  assert (sub_cells_differ even = true) as H by by destruct even; vm_compute.
  unfold sub_cells_differ in H. rewrite forallb_forall in H. specialize (H _ Hc).
  rewrite forallb_forall in H. specialize (H _ Hc'). rewrite E, !Z.eqb_refl in H.
  rewrite orb_false_r in H. by apply Ascii.eqb_eq.
Qed.

Lemma sub_cell_within even c : c ∈ char_map -> within (sub_cell even c) (sub_cells even) = true.
Proof.
  intros Hc. pose proof (table_ok_all even NORTH c Hc) as H. unfold table_ok in H.
  destruct (sub_cells even) as [w k], (moved _ _) as [? ?]. by do 5 apply andb_prop in H as [H _].
Qed.

Lemma cell_inj h h' : valid h -> valid h' -> length h = length h' -> cell h = cell h' -> h = h'.
Proof.
  revert h'. induction h as [|c h IH] using rev_ind; intros h' Hv Hv' Hl E.
  { by destruct h'. }
  destruct h' as [|c' h' _] using rev_ind; [rewrite length_app in Hl; simpl in Hl; lia|].
  rewrite !length_app in Hl. simpl in Hl. assert (length h = length h') as Hl' by lia.
  apply Forall_app in Hv as [Hv [Hc _]%Forall_cons], Hv' as [Hv' [Hc' _]%Forall_cons].
  cbn beta in *. rewrite !cell_snoc_sub, <- Hl' in E.
  pose proof (sub_cell_within (Nat.even (length h)) c Hc) as Hw.
  pose proof (sub_cell_within (Nat.even (length h)) c' Hc') as Hw'.
  pose proof (sub_cell_inj (Nat.even (length h)) c c' Hc Hc') as Hi.
  destruct (sub_cells (Nat.even (length h))) as [w k], (sub_cell _ c) as [x y],
    (sub_cell _ c') as [x' y'], (cell h) as [cx cy] eqn:Eh, (cell h') as [cx' cy'] eqn:Eh'.
  rewrite within_spec in Hw, Hw'. cbn [fst snd] in E. injection E as Ex Ey.
  assert (cx = cx' /\ x = x') as [-> ->] by (apply (Z.div_mod_unique w); lia).
  assert (cy = cy' /\ y = y') as [-> ->] by (apply (Z.div_mod_unique k); lia).
  rewrite (IH h' Hv Hv' Hl' ltac:(congruence)), (Hi eq_refl). done.
Qed.

(** The cell of a point *)
Lemma encode_cell lat lng p h : in_range lat lng -> (1 <= p <= 12)%nat ->
  geohash_encode lat lng (Z.of_nat p) = Some h -> exists x y, names p h (x, y) /\
  (-(90) + 180 * (inject_Z y / inject_Z (cells p).2) <= lat <= -(90) + 180 * (inject_Z (y + 1) / inject_Z (cells p).2) /\
   -(180) + 360 * (inject_Z x / inject_Z (cells p).1) <= lng <= -(180) + 360 * (inject_Z (x + 1) / inject_Z (cells p).1))%Q.
Proof.
  intros Hr Hp E. destruct (encode_decode_chars lat lng p Hp Hr) as (h' & E' & Hv & Hl & Hin).
  rewrite E in E'. injection E' as <-. destruct (cell h) as [x y] eqn:Ec. exists x, y.
  split; [done|]. destruct (decode_cell h Hv) as (lat_i & lng_i & Ed & Hx & Hy).
  rewrite Ed in Hin. destruct Hin as [Hlat Hlng]. rewrite Hl, Ec in *. cbn [fst snd] in *.
  destruct Hx as [Hx1 Hx2], Hy as [Hy1 Hy2]. unfold inside in *.
  rewrite Hx1, Hx2 in Hlng. rewrite Hy1, Hy2 in Hlat. done.
Qed.

(** Points less than a cell apart lie in cells that are the same or adjacent. *)
Lemma close_rows a b W M D y y' : 0 < D -> (0 < W)%Q ->
  (M + W * (inject_Z y / inject_Z D) <= a <= M + W * (inject_Z (y + 1) / inject_Z D))%Q ->
  (M + W * (inject_Z y' / inject_Z D) <= b <= M + W * (inject_Z (y' + 1) / inject_Z D))%Q ->
  (b - a < W / inject_Z D)%Q -> y' <= y + 1.
Proof.
  intros HD HW [_ Ha] [Hb _] Hab. apply Z.lt_succ_r, Z.nle_gt. intros Hy.
  assert (W * (inject_Z y' / inject_Z D) - W * (inject_Z (y + 1) / inject_Z D) < W / inject_Z D)%Q
    as H by lra.
  assert (W * (inject_Z y' / inject_Z D) - W * (inject_Z (y + 1) / inject_Z D)
          == inject_Z (y' - (y + 1)) * (W / inject_Z D))%Q as E.
  { unfold Z.sub. rewrite (inject_Z_plus y'), inject_Z_opp. field. by apply inject_Z_neq. }
  rewrite E in H. assert (1 <= inject_Z (y' - (y + 1)))%Q as H1.
  { change 1%Q with (inject_Z 1). rewrite <- Zle_Qle. lia. }
  assert (0 < W / inject_Z D)%Q as H2.
  { apply Qlt_shift_div_l; [by rewrite Zlt_Qlt in HD|]. by rewrite Qmult_0_l. }
  apply (Qmult_le_compat_r _ _ (W / inject_Z D)) in H1; [|by apply Qlt_le_weak].
  rewrite Qmult_1_l in H1. by apply (Qlt_not_le _ _ H).
Qed.

(** The box [g'] lies beside [g]. *)
Definition beside (d : direction) (g g' : GeoCoord) : Prop :=
  match d with
  | NORTH => south g' == north g /\ west g' == west g /\ east g' == east g
  | EAST => west g' == east g /\ south g' == south g /\ north g' == north g
  | SOUTH => north g' == south g /\ west g' == west g /\ east g' == east g
  | WEST => east g' == west g /\ south g' == south g /\ north g' == north g
  end%Q.

Lemma adjacent_beside h h' d : h <> [] -> names (length h) h' (moved d (cell h)) -> valid h ->
  beside d (geohash_decode (Some h)) (geohash_decode (Some h')).
Proof.
  intros Hh (Hv' & Hl & Hc) Hv.
  assert (h' <> []) as Hh' by (intros ->; by destruct h).
  destruct (decode_fields h Hh Hv) as (? & ? & ? & _ & -> & [Hw He] & [Hs Hn]).
  destruct (decode_fields h' Hh' Hv') as (? & ? & ? & _ & -> & [Hw' He'] & [Hs' Hn']).
  rewrite Hl, Hc in *. destruct (cell h) as [cx cy], d; unfold moved in *;
    cbn [beside step fst snd north south east west] in *;
    rewrite ?Hw, ?He, ?Hs, ?Hn, ?Hw', ?He', ?Hs', ?Hn', ?Z.add_0_r, <- ?Z.add_assoc, ?Z.add_0_r;
    done.
Qed.

(** ** The properties *)

(** a point of the earth is encoded, for each of the twelve precisions, to
    a text of that many characters of the alphabet.  The text is decoded to a
    box that contains the point, whose sides are the dimensions for the
    precision and whose center is at most half of them away from the point; the
    text for a smaller precision is a prefix. *)
Theorem geohash_roundtrip lat lng p : in_range lat lng -> (1 <= p <= 12)%nat ->
  exists h, geohash_encode lat lng (Z.of_nat p) = Some h /\ valid h /\ length h = p /\
    let g := geohash_decode (Some h) in
    let '(height, width) := geohash_dimensions_for_precision (Z.of_nat p) in
    in_box lat lng g /\
    (north g == south g + height /\ east g == west g + width /\
     lat - height * (1 # 2) <= latitude g <= lat + height * (1 # 2) /\
     lng - width * (1 # 2) <= longitude g <= lng + width * (1 # 2))%Q /\
    (forall q, (1 <= q <= p)%nat -> geohash_encode lat lng (Z.of_nat q) = Some (take q h)).
Proof.
  intros Hr Hp. destruct (encode_decode_chars lat lng p Hp Hr) as (h & E & Hv & Hl & Hin).
  exists h. split_and!; [done..|]. cbn zeta.
  assert (h <> []) as Hh by (intros ->; simpl in Hl; lia).
  destruct (decode_fields h Hh Hv) as (lat_i & lng_i & b & Ed & Eg & _).
  pose proof (decode_dimensions h Hh Hv) as Hd. rewrite Hl in Hd. cbn zeta in Hd.
  destruct (geohash_dimensions_for_precision _) as [height width].
  rewrite Ed in Hin. destruct Hin as [Hin1 Hin2].
  assert (in_box lat lng (geohash_decode (Some h))) as Hb by by rewrite Eg.
  split; [done|]. destruct Hb as [[??] [??]]. split.
  - destruct Hd as (? & ? & ? & ? & ? & ?). split_and!; lra.
  - intros q Hq. rewrite (encode_prefix lat lng p q), E by (done || lia). done.
Qed.

Lemma geohash_roundtrip_witness :
  in_range (42605 # 1000) (-5603 # 1000) /\ (1 <= 5 <= 12)%nat /\
  exists h, geohash_encode (42605 # 1000) (-5603 # 1000) 5 = Some h /\ length h = 5%nat /\
    geohash_encode (42605 # 1000) (-5603 # 1000) 3 = Some (take 3 h).
Proof.
  assert (in_range (42605 # 1000) (-5603 # 1000)) as Hr by by split; split; vm_compute.
  assert (1 <= 5 <= 12)%nat as Hp by lia.
  split_and!; try done; try lia.
  destruct (geohash_roundtrip _ _ 5 Hr Hp) as (h & E & _ & Hl & Hd). exists h.
  split_and!; [done..|]. cbn zeta in Hd.
  destruct (geohash_dimensions_for_precision _) as [height width].
  destruct Hd as (_ & _ & Hq). apply (Hq 3%nat). lia.
Defined.

(** C12: encoding undoes decoding.  A text of at most twelve characters of the
    alphabet is decoded to a point inside its box, and this point, like any
    other that is not on the border of the box, is encoded to the text. *)
Theorem geohash_decode_encode h lat lng : valid h -> (1 <= length h <= 12)%nat ->
  let g := geohash_decode (Some h) in
  (south g < latitude g < north g /\ west g < longitude g < east g)%Q /\
  ((south g < lat < north g /\ west g < lng < east g)%Q ->
   geohash_encode lat lng (Z.of_nat (length h)) = Some h).
Proof.
  intros Hv Hl. assert (h <> []) as Hh by (intros ->; simpl in Hl; lia). cbn zeta. split.
  - pose proof (decode_dimensions h Hh Hv) as Hd. cbn zeta in Hd.
    destruct (geohash_dimensions_for_precision _) as [height width].
    destruct Hd as (? & ? & ? & ? & ? & ?). split_and!; lra.
  - destruct (decode_fields h Hh Hv) as (lat_i & lng_i & b & Ed & -> & _).
    cbn [north east south west]. intros [Ha Hb].
    destruct (encode_strict (length h * 5) 1 lat lng (whole_lat, whole_lng, true) [] h)
      as [[Hc Hd] E]; [done..|by rewrite Ed|].
    rewrite encode_in_range.
    + replace (Z.to_nat (Z.of_nat (length h) * 5)) with (length h * 5)%nat by lia.
      cbn [fst snd app] in E. by rewrite E.
    + lia.
    + destruct Hc, Hd. cbn [fst snd] in *. split; split; by apply Qlt_le_weak.
Qed.

Lemma geohash_decode_encode_witness :
  valid (chars "ezs42") /\
  let g := geohash_decode (Some (chars "ezs42")) in
  geohash_encode (latitude g) (longitude g) 5 = Some (chars "ezs42").
Proof.
  assert (valid (chars "ezs42")) as Hv.
  { repeat apply List.Forall_cons; try apply List.Forall_nil;
      apply list_elem_of_In; vm_compute; tauto. }
  split; [done|]. cbn zeta.
  destruct (geohash_decode_encode (chars "ezs42")
              (latitude (geohash_decode (Some (chars "ezs42"))))
              (longitude (geohash_decode (Some (chars "ezs42")))) Hv) as [Hc He].
  - split; vm_compute; lia.
  - exact (He Hc).
Defined.

(** C11: the neighbour of a cell in a direction is the adjacent cell: when that
    is on the grid, the text [get_neighbor] gives for a text of at most twelve characters has
    the same length and names it, and its box is the one beside; beyond the
    grid the program reads before the start of a text.  From the inside of the
    grid [geohash_neighbors] finds the eight cells around, in its order.  This
    rests on an allocator whose blocks have 24 bytes or more; with blocks of no
    more than the bytes asked for, each call writes past the end of one. *)
Theorem geohash_neighbor usable h x y nx ny :
  (forall n, 24 <= usable n) -> valid h -> (length h <= 12)%nat ->
  cell h = (x, y) -> cells (length h) = (nx, ny) ->
  (forall d, if within (moved d (x, y)) (nx, ny) then
     exists h', neighbor_of usable h d = Ok h' /\ names (length h) h' (moved d (x, y)) /\
       beside d (geohash_decode (Some h)) (geohash_decode (Some h'))
   else neighbor_of usable h d = Undef) /\
  (0 < x < nx - 1 -> 0 < y < ny - 1 -> exists hs, geohash_neighbors usable h = Ok hs /\
     Forall (fun h' => valid h' /\ length h' = length h) hs /\
     cell <$> hs = [(x, y + 1); (x + 1, y + 1); (x + 1, y); (x + 1, y - 1);
                    (x, y - 1); (x - 1, y - 1); (x - 1, y); (x - 1, y + 1)]) /\
  (forall d, neighbor_of (fun n => n) h d = Undef).
Proof.
  intros Hu Hv Hl12 Hc Hn. assert (length h <= 22)%nat as Hl by lia. split_and!.
  - intros d. rewrite <- Hc, <- Hn. pose proof (neighbor_of_spec usable h d Hu Hv Hl) as H.
    destruct (within _ _) eqn:Ew; [|done]. destruct H as (h' & E & ?). exists h'.
    split_and!; [done..|]. apply adjacent_beside; [|done..]. intros ->. by destruct d.
  - intros Hx Hy. by apply neighbors_inner with (nx := nx) (ny := ny).
  - intros d. unfold neighbor_of. by rewrite get_neighbor_exact by lia.
Qed.

Lemma geohash_neighbor_witness :
  valid (chars "ezs42") /\
  exists hs, geohash_neighbors (fun n => Z.max 24 n) (chars "ezs42") = Ok hs /\
    cell <$> hs = [(3968, 3018); (3969, 3018); (3969, 3017); (3969, 3016);
                   (3968, 3016); (3967, 3016); (3967, 3017); (3967, 3018)].
Proof.
  assert (valid (chars "ezs42")) as Hv.
  { repeat apply List.Forall_cons; try apply List.Forall_nil;
      apply list_elem_of_In; vm_compute; tauto. }
  split; [done|].
  destruct (geohash_neighbor (fun n => Z.max 24 n) (chars "ezs42") 3968 3017 8192 4096)
    as (_ & H & _); [intros; lia|done|vm_compute; lia|done|done|].
  destruct H as (hs & E & _ & Hc); [lia..|]. by exists hs.
Defined.
