(* ===== verification/Geo.v ===== *)
(** * Positions

    [geoput] and [geonear] of [src/src/quarks.cpp]: documents stored under the
    geohash of a position, and the query for those near a position.  The
    operations of [double] that the program uses are the class [Arithmetic];
    the geohashes are those of Geohash.v. *)

From Stdlib Require Import QArith Lqa.
From S2P Require Import Prelude SortedMap Wildcmp Json Store World Scan CoreRead CoreWrite Geohash.
Local Open Scope quarks_scope.

(** ** Doubles *)

Class Arithmetic {plat : Platform} := {
  literal : Q -> double;
  double_lt : double -> double -> bool;
  double_le : double -> double -> bool;
  (** [None]: not a finite number *)
  finite : double -> option Q;
  d_add : double -> double -> double;
  d_sub : double -> double -> double;
  d_mul : double -> double -> double;
  d_div : double -> double -> double;
  d_sin : double -> double;
  d_cos : double -> double;
  d_acos : double -> double
}.

Section geo.
Context {plat : Platform} {R : RocksDB} {A : Arithmetic}.

(** [usable]: the bytes that can be written to a block of the allocator *)
Context (usable : Z -> Z) (fuel : nat).

(** ** [geoput] *)

Definition sanitize (d lo hi : double) : double :=
  if double_lt hi d then hi else if double_lt d lo then lo else d.
Definition sanitizelatlng (lat lng : double) : double * double :=
  (sanitize lat (literal (-90)) (literal 90), sanitize lng (literal (-180)) (literal 180)).

(** [geohash_encode(lat, lng, 8)] and [std::string hash_ = hash]; no comparison
    with a number that is not finite holds. *)
Definition encode8 (lat lng : double) : outcome (list ascii) :=
  match finite lat, finite lng with
  | Some lat, Some lng =>
      match geohash_encode lat lng 8 with Some hash => Ok hash | None => Undef end
  | _, _ => Undef
  end.

(** [if(x.has(k)) d = x\[k\].d()] *)
Definition member_d (x : rvalue) (k : string) (d : double) : outcome double :=
  let? o := member x k r_d in Ok (default d o).

Definition geoput (body : string) : SM (string * world) bool :=
  match load body with
  | None => do! set_out (q "{`error`: `Invalid geoput body`}"); ret false
  | x =>
      let! key := lift (member x "key" r_s) in
      let w := with_member "key" (WStr <$> key) WNull in
      let! value := lift (member x "value" to_wvalue) in
      let w := with_member "value" value w in
      let! lat := lift (member_d x "lat" (literal 0)) in
      let! lng := lift (member_d x "lng" (literal 0)) in
      let (lat, lng) := sanitizelatlng lat lng in
      let w := w_set "lng" (WNum lng) (w_set "lat" (WNum lat) w) in
      let! hash := lift (encode8 lat lng) in
      let hash_ := string_of_list_ascii hash in
      let w := w_set "hash" (WStr hash_) w in
      dump_ (hash_ +:+ "_" +:+ default EmptyString key) (dump w)
  end.

(** ** [geonear] *)

Definition pi : double := literal (314159265358979323846 # 100000000000000000000).
Definition toRad (degree : double) : double := d_mul (d_div degree (literal 180)) pi.

Definition geodistance (lat1 long1 lat2 long2 : double) : double :=
  let dist := d_add (d_mul (d_sin (toRad lat1)) (d_sin (toRad lat2)))
                (d_mul (d_mul (d_cos (toRad lat1)) (d_cos (toRad lat2)))
                   (d_cos (toRad (d_sub long1 long2)))) in
  d_mul (literal 6371) (d_acos dist).

(** The filter: the distance is at most the radius; it is noted in the result. *)
Definition near (lat lng radius : double) (input : rvalue) : SM wvalue bool :=
  match input with
  | None => ret false
  | _ =>
      let! xlat := lift (member_d input "lat" (literal 0)) in
      let! xlng := lift (member_d input "lng" (literal 0)) in
      let d := geodistance lat lng xlat xlng in
      if double_le d radius then do! modify (w_set "far" (WNum d)); ret true else ret false
  end.

Definition precision_of (radius : double) : Z :=
  if double_lt radius (literal 1) then 6
  else if double_lt radius (literal 10) then 5
  else if double_lt radius (literal 40) then 4
  else if double_lt radius (literal 300) then 3
  else if double_lt radius (literal 1000) then 2
  else 1.

(** [hash_.substr(0, precision)]: a negative number of characters is huge. *)
Definition cut_hash (precision : Z) (hash : list ascii) : list ascii :=
  if (precision <? 0)%Z then hash else take (Z.to_nat precision) hash.

Definition pattern (keysFilter : string) (hash : list ascii) : string :=
  string_of_list_ascii hash +:+ "*" +:+ keysFilter.

(** The patterns of the cell and of the cells around.  [strncpy] writes
    [precision] bytes to the buffer of 128, and the zero goes behind them. *)
Definition hashPrefixes (hash : list ascii) (precision : Z) (keysFilter : string)
    : outcome (list string) :=
  let prefix := cut_hash precision hash in
  if ((0 <=? precision) && (precision <? 128))%Z then
    let? neighs := geohash_neighbors usable prefix in
    Ok (pattern keysFilter <$> prefix :: neighs)
  else Undef.

Definition geonear (w : world) (body : string) (skip limit : Z)
    : SM (wvalue * list wvalue) bool :=
  match load body with
  | None =>
      do! modify (fun '(out, rs) => (w_set "error" (WStr "invalid geonear body") out, rs));
      ret false
  | x =>
      let! lat := lift (member_d x "lat" (literal 0)) in
      let! lng := lift (member_d x "lng" (literal 0)) in
      let (lat, lng) := sanitizelatlng lat lng in
      let! radius := lift (member_d x "radius" (literal 5)) in
      let! precision := lift (member x "precision" r_i) in
      let precision :=
        match precision with Some p => int32 p | None => precision_of radius end in
      let! keys := lift (member x "keys" r_s) in
      let keysFilter := match keys with Some keys => "_" +:+ keys | None => EmptyString end in
      let! hash := lift (encode8 lat lng) in
      let! wilds := lift (hashPrefixes hash precision keysFilter) in
      outer (getAll_filtered fuel (near lat lng radius) skip limit w wilds)
  end.
End geo.

(** ** Doubles that are rational numbers

    The limits of the coordinates are exact, and comparisons of finite numbers
    are those of their values. *)
Class ArithmeticLaws {plat : Platform} {A : Arithmetic} := {
  literal_law (z : Z) : (-180 <= z <= 180)%Z -> finite (literal (inject_Z z)) = Some (inject_Z z);
  lt_law a b p q : finite a = Some p -> finite b = Some q -> double_lt a b = true <-> (p < q)%Q
}.

(** What [sanitizelatlng] does to a number *)
Definition clamp (lo hi q : Q) : Q :=
  if negb (Qle_bool q hi) then hi else if negb (Qle_bool lo q) then lo else q.

Lemma clamp_inside lo hi q : (lo <= hi)%Q -> (lo <= clamp lo hi q <= hi)%Q.
Proof.
  intros H. unfold clamp. destruct (Qle_bool q hi) eqn:E1; cbn [negb]; [|split; lra].
  apply Qle_bool_iff in E1. destruct (Qle_bool lo q) eqn:E2; cbn [negb]; [|split; lra].
  apply Qle_bool_iff in E2. by split.
Qed.

Lemma clamp_id lo hi q : (lo <= q <= hi)%Q -> clamp lo hi q = q.
Proof. intros [H1%Qle_bool_iff H2%Qle_bool_iff]. unfold clamp. by rewrite H1, H2. Qed.

Section facts.
Context {plat : Platform} {R : RocksDB} {A : Arithmetic} {AL : ArithmeticLaws}.

Lemma lt_spec a b p q : finite a = Some p -> finite b = Some q ->
  double_lt a b = negb (Qle_bool q p).
Proof.
  intros Ha Hb. pose proof (lt_law a b p q Ha Hb) as H.
  destruct (Qle_bool q p) eqn:E; cbn [negb].
  - apply Qle_bool_iff in E. destruct (double_lt a b); [|done].
    exfalso. apply (Qlt_not_le p q); [by apply H|done].
  - apply H, Qnot_le_lt. intros Hle%Qle_bool_iff. congruence.
Qed.

Lemma sanitize_clamp d q lo hi : finite d = Some q -> (-180 <= lo <= 180)%Z ->
  (-180 <= hi <= 180)%Z ->
  finite (sanitize d (literal (inject_Z lo)) (literal (inject_Z hi)))
  = Some (clamp (inject_Z lo) (inject_Z hi) q).
Proof.
  intros Hd Hlo Hhi. pose proof (literal_law lo Hlo) as El. pose proof (literal_law hi Hhi) as Eh.
  unfold sanitize, clamp. rewrite (lt_spec _ _ _ _ Eh Hd), (lt_spec _ _ _ _ Hd El).
  destruct (negb (Qle_bool q _)); [done|]. by destruct (negb (Qle_bool _ q)).
Qed.

(** A request for a position, with the coordinates it stands for *)
Record position (x : rvalue) (lat lng : double) (a b : Q) : Prop := {
  pos_lat : member_d x "lat" (literal 0) = Ok lat;
  pos_lng : member_d x "lng" (literal 0) = Ok lng;
  pos_a : finite lat = Some a;
  pos_b : finite lng = Some b
}.
Definition on_earth_lat : Q -> Q := clamp (-90) 90.
Definition on_earth_lng : Q -> Q := clamp (-180) 180.

Lemma on_earth_range a b : in_range (on_earth_lat a) (on_earth_lng b).
Proof. split; apply clamp_inside; by vm_compute. Qed.

Lemma encode8_sanitized lat lng a b : finite lat = Some a -> finite lng = Some b ->
  let '(la, lo) := sanitizelatlng lat lng in
  exists hash, encode8 la lo = Ok hash /\
    geohash_encode (on_earth_lat a) (on_earth_lng b) 8 = Some hash.
Proof.
  intros Ha Hb. unfold sanitizelatlng, encode8.
  change (-90)%Q with (inject_Z (-90)). change 90%Q with (inject_Z 90).
  change (-180)%Q with (inject_Z (-180)). change 180%Q with (inject_Z 180).
  rewrite (sanitize_clamp _ a), (sanitize_clamp _ b) by (done || lia).
  destruct (encode_decode_chars (on_earth_lat a) (on_earth_lng b) 8) as (h & E & _);
    [lia|apply on_earth_range|]. exists h. split; [|done].
  change (geohash_encode (clamp (inject_Z (-90)) (inject_Z 90) a)
            (clamp (inject_Z (-180)) (inject_Z 180) b) 8)
    with (geohash_encode (on_earth_lat a) (on_earth_lng b) (Z.of_nat 8)). by rewrite E.
Qed.
End facts.

(** ** Patterns of hashes *)

Abbreviation text h := (string_of_list_ascii h).

(** The characters of a hash stand for themselves. *)
Definition plain_char (c : ascii) : bool :=
  negb (Ascii.eqb c NUL || Ascii.eqb c "*" || Ascii.eqb c "?").

Lemma valid_plain h : valid h -> Forall (fun c => plain_char c = true) h.
Proof.
  intros H. assert (forallb plain_char char_map = true) as Hp by by vm_compute.
  rewrite forallb_forall in Hp. eapply Forall_impl; [exact H|]. intros c Hc%list_elem_of_In. auto.
Qed.

Lemma text_app h1 h2 : text (h1 ++ h2) = text h1 +:+ text h2.
Proof. induction h1 as [|c h IH]; [done|]. simpl. by rewrite IH. Qed.

Lemma text_plain h : valid h ->
  no_nul (text h) = true /\ segment (text h) (text h) /\
  forall t, find_char "*" (text h +:+ String "*" t) = Some (length h).
Proof.
  intros Hv%valid_plain. induction Hv as [|c h Hc _ (H1 & H2 & H3)].
  { split_and!; [done|constructor|done]. }
  unfold plain_char in Hc. rewrite negb_true_iff, !orb_false_iff in Hc.
  destruct Hc as [[Hn Hs] Hq]. split_and!.
  - simpl. by rewrite Hn.
  - constructor; [by intros ->|by left|done].
  - intros t. simpl. by rewrite Hs, H3.
Qed.

Lemma text_length h : String.length (text h) = length h.
Proof. induction h; simpl; congruence. Qed.

Lemma pattern_prefix kf h : valid h -> wild_prefix (pattern kf h) = text h.
Proof.
  intros Hv. unfold wild_prefix, pattern. destruct (text_plain h Hv) as (_ & _ & E).
  change ("*" +:+ kf) with (String "*" kf). rewrite E, <- text_length. apply str_take_app.
Qed.

Lemma pattern_star kf h : valid h -> h <> [] -> leading_star (pattern kf h) = false.
Proof.
  intros Hv Hh. unfold leading_star, pattern. destruct (text_plain h Hv) as (_ & _ & E).
  change ("*" +:+ kf) with (String "*" kf). rewrite E. by destruct h.
Qed.

(** The names a filter of keys lets through *)
Definition key_filter (keys : option string) : string :=
  match keys with Some keys => "_" +:+ keys | None => EmptyString end.
Definition key_passes (keys : option string) (k : string) : Prop :=
  match keys with Some keys => glob (c_str keys) (c_str k) | None => True end.

Lemma glob_everything s : glob (String "*" EmptyString) s.
Proof. apply (glob_star EmptyString EmptyString); [|constructor]. exists s. by rewrite sapp_nil_r. Qed.

(** The key of a position with a name is matched by the pattern of each prefix
    of its hash. *)
Lemma pattern_hit keys h rest k v : valid h -> valid rest -> key_passes keys k ->
  hit (pattern (key_filter keys) h) (text (h ++ rest) +:+ "_" +:+ k, v) = true.
Proof.
  intros Hv Hr Hk. unfold hit. cbn [fst]. rewrite pattern_prefix, text_app, !sapp_assoc by done.
  rewrite starts_with_app. cbn [andb]. apply wild_match_glob. unfold pattern.
  destruct (text_plain h Hv) as (Hn & Hs & _), (text_plain rest Hr) as (Hn' & _).
  rewrite !c_str_app by done. apply glob_segment; [done|].
  change (c_str ("*" +:+ key_filter keys)) with (String "*" (c_str (key_filter keys))).
  destruct keys as [keys|]; [|apply glob_everything]. cbn [key_filter key_passes] in *.
  apply (glob_star _ (c_str ("_" +:+ k))); [by eexists|].
  apply (glob_char "_"); [done|exact Hk].
Qed.

Lemma pattern_starts kf h kv : valid h -> hit (pattern kf h) kv = true ->
  starts_with (text h) kv.1 = true.
Proof. intros Hv [H _]%andb_prop. by rewrite pattern_prefix in H. Qed.

(** ** The cells around a position *)

Lemma text_inj h1 h2 : text h1 = text h2 -> h1 = h2.
Proof.
  intros E. by rewrite <- (list_ascii_of_string_of_list_ascii h1), E,
    list_ascii_of_string_of_list_ascii.
Qed.

Lemma starts_same_length a b s : String.length a = String.length b ->
  starts_with a s = true -> starts_with b s = true -> a = b.
Proof.
  intros Hl [t ->]%starts_with_spec [t' E]%starts_with_spec. by apply sapp_inj_length in E as [-> _].
Qed.

Lemma hits_nodup kf n hs (m : smap string) : sm_wf m -> NoDup hs ->
  Forall (fun h => valid h /\ length h = n) hs ->
  NoDup (flat_map (fun wild => hits wild m) (pattern kf <$> hs)).
Proof.
  intros Hm Hn Hf. induction Hn as [|h hs Hh Hn IH]; [constructor|].
  apply Forall_cons in Hf as [[Hv Hl] Hf]. cbn [fmap list_fmap flat_map]. apply NoDup_app.
  split_and!; [by apply NoDup_filter, sm_nodup| |by apply IH].
  intros kv [Hk _]%list_elem_of_filter (wild & Hw & Hkv)%list_elem_of_In%in_flat_map.
  apply list_elem_of_In, list_elem_of_fmap in Hw as (h' & -> & Hh').
  apply list_elem_of_In, list_elem_of_filter in Hkv as [Hk' _].
  rewrite Forall_forall in Hf. destruct (Hf h' Hh') as [Hv' Hl'].
  apply Hh. replace h with h'; [done|]. apply text_inj.
  eapply starts_same_length; [by rewrite !text_length, Hl, Hl'|..]; by eapply pattern_starts.
Qed.

Section around.
Context (usable : Z -> Z).

(** The texts of the cells of a square of nine *)
Definition square (n : nat) (x y : Z) (hs : list (list ascii)) : Prop :=
  NoDup hs /\ Forall (fun h => valid h /\ length h = n) hs /\
  forall h, valid h -> length h = n -> h ∈ hs <->
    (-1 <= (cell h).1 - x <= 1 /\ -1 <= (cell h).2 - y <= 1)%Z.

Lemma around_square p h x y nx ny : (forall n, 24 <= usable n)%Z -> (p <= 12)%nat ->
  names p h (x, y) -> cells p = (nx, ny) -> (0 < x < nx - 1)%Z -> (0 < y < ny - 1)%Z ->
  exists hs, geohash_neighbors usable h = Ok hs /\ square p x y (h :: hs).
Proof.
  intros Hu Hp (Hv & Hl & Hc) Hn Hx Hy.
  destruct (neighbors_inner usable p h x y nx ny) as (hs & E & Hf & Hcs); [done|lia|done..|].
  exists hs. split; [done|].
  assert (Forall (fun h => valid h /\ length h = p) (h :: hs)) as Hall by by constructor.
  assert (cell <$> h :: hs = [(x, y); (x, y + 1); (x + 1, y + 1); (x + 1, y); (x + 1, y - 1);
            (x, y - 1); (x - 1, y - 1); (x - 1, y); (x - 1, y + 1)])%Z as Hcells
    by by rewrite fmap_cons, Hc, Hcs.
  split_and!; [|done|].
  - apply (NoDup_fmap_1 cell). rewrite Hcells.
    repeat (apply NoDup_cons; split; [rewrite ?not_elem_of_cons, ?pair_equal_spec;
      split_and?; [..|apply not_elem_of_nil]; lia|]). apply NoDup_nil_2.
  - intros h' Hv' Hl'. rewrite Forall_forall in Hall. transitivity (cell h' ∈ cell <$> h :: hs).
    + rewrite list_elem_of_fmap. split; [by exists h'|]. intros (h2 & E2 & Hh2).
      destruct (Hall h2 Hh2). by rewrite (cell_inj h' h2) by congruence.
    + rewrite Hcells. destruct (cell h') as [x' y']. cbn [fst snd].
      rewrite !elem_of_cons, !pair_equal_spec, elem_of_nil. lia.
Qed.
End around.

(** Points less than the height and the width of a cell apart *)
Definition close (p : nat) (a b a' b' : Q) : Prop :=
  let '(height, width) := geohash_dimensions_for_precision (Z.of_nat p) in
  (- height < a' - a < height /\ - width < b' - b < width)%Q.

Lemma close_cells p a b a' b' h h' : (1 <= p <= 12)%nat -> in_range a b -> in_range a' b' ->
  close p a b a' b' -> geohash_encode a b (Z.of_nat p) = Some h ->
  geohash_encode a' b' (Z.of_nat p) = Some h' ->
  (-1 <= (cell h').1 - (cell h).1 <= 1 /\ -1 <= (cell h').2 - (cell h).2 <= 1)%Z.
Proof.
  intros Hp Hr Hr' Hc E E'.
  destruct (encode_cell a b p h Hr Hp E) as (x & y & (_ & _ & Hn) & Ha & Hb).
  destruct (encode_cell a' b' p h' Hr' Hp E') as (x' & y' & (_ & _ & Hn') & Ha' & Hb').
  rewrite Hn, Hn'. cbn [fst snd]. pose proof (cells_pos p) as [Hx Hy].
  pose proof (dimensions_cells p ltac:(lia)) as [Ed1 Ed2]. unfold close in Hc.
  destruct (geohash_dimensions_for_precision _) as [height width]. cbn [fst snd] in *.
  rewrite Ed1, Ed2 in Hc. destruct Hc as [[Hc1 Hc2] [Hc3 Hc4]].
  pose proof (close_rows a a' 180 (-(90)) _ _ _ Hy ltac:(done) Ha Ha' ltac:(lra)).
  pose proof (close_rows a' a 180 (-(90)) _ _ _ Hy ltac:(done) Ha' Ha ltac:(lra)).
  pose proof (close_rows b b' 360 (-(180)) _ _ _ Hx ltac:(done) Hb Hb' ltac:(lra)).
  pose proof (close_rows b' b 360 (-(180)) _ _ _ Hx ltac:(done) Hb' Hb ltac:(lra)). lia.
Qed.

(** The prefixes of the hash of a position *)
Lemma cut_encode a b p h : in_range a b -> (1 <= p <= 8)%nat ->
  geohash_encode a b 8 = Some h -> valid h /\ length h = 8 /\
  geohash_encode a b (Z.of_nat p) = Some (take p h) /\ valid (take p h) /\
  length (take p h) = p /\ valid (drop p h).
Proof.
  intros Hr Hp E. destruct (encode_decode_chars a b 8 ltac:(lia) Hr) as (h' & E' & Hv & Hl & _).
  change (Z.of_nat 8) with 8%Z in E'. rewrite E in E'. injection E' as <-.
  split_and!; [done..| | |rewrite length_take; lia|].
  - rewrite (encode_prefix a b 8 p) by (done || lia). change (Z.of_nat 8) with 8%Z. by rewrite E.
  - by apply Forall_take.
  - by apply Forall_drop.
Qed.

(** ** Storing a position *)

Section stored.
Context {plat : Platform} {R : RocksDB} {RL : RocksDBLaws} {A : Arithmetic} {AL : ArithmeticLaws}.

(** The document that is stored *)
Definition document (key : option string) (value : option wvalue) (lat lng : double)
    (hash : list ascii) : wvalue :=
  WObj (match key with Some key => [("key", WStr key)] | None => [] end ++
        match value with Some value => [("value", value)] | None => [] end ++
        [("lat", WNum lat); ("lng", WNum lng); ("hash", WStr (text hash))]).

(** [geoput] stores a document under the geohash of its position, which is
    moved to the limits of the coordinates first, an underscore and its key: the
    hash has eight characters, its box holds the position, and the document has
    the key and the value of the request, the position and the hash.  When the
    write fails the store keeps its contents. *)
Theorem geoput_stores (body out : string) (j : json) (key : option string)
    (value : option wvalue) (lat lng : double) (a b : Q) (w : world) (d : DB) :
  load body = Some j -> position (Some j) lat lng a b ->
  member (Some j) "key" r_s = Ok key -> member (Some j) "value" to_wvalue = Ok value ->
  opened w d ->
  let '(lat, lng) := sanitizelatlng lat lng in
  exists hash w', encode8 lat lng = Ok hash /\ valid hash /\ length hash = 8 /\
    in_box (on_earth_lat a) (on_earth_lng b) (geohash_decode (Some hash)) /\
    let k := text hash +:+ "_" +:+ default EmptyString key in
    let doc := dump (document key value lat lng hash) in
    let ok := (db_Put d k doc).1 in
    geoput body (out, w)
    = ((if ok then Ok true else Ok false), ((if ok then result_true else result_false), w')) /\
    if ok then put_effect d k doc w w' else no_effect d w w'.
Proof.
  intros Hl [Hlat Hlng Ha Hb] Hk Hv Ho. pose proof (encode8_sanitized lat lng a b Ha Hb) as He.
  destruct (sanitizelatlng lat lng) as [la lo] eqn:Es. destruct He as (hash & He & Hg).
  destruct (cut_encode _ _ 8 hash (on_earth_range a b) ltac:(lia) Hg) as (Hv8 & Hl8 & _).
  destruct (dump_core (text hash +:+ "_" +:+ default EmptyString key)
              (dump (document key value la lo hash)) out w d Ho) as (w' & Hd & Hw).
  exists hash, w'. split; [done|]. split; [done|]. split; [done|]. split.
  - destruct (encode_decode_chars (on_earth_lat a) (on_earth_lng b) 8) as (h & E & Hvh & Hlh & Hin);
      [lia|apply on_earth_range|]. change (Z.of_nat 8) with 8%Z in E. rewrite Hg in E.
    injection E as <-. destruct (decode_fields hash) as (? & ? & ? & Ed & -> & _);
      [by intros ->|done|]. rewrite Ed in Hin. by destruct Hin.
  - split; [|done]. unfold geoput. rewrite Hl. repeat (erewrite bind_lift_ok by eassumption). rewrite Es.
    erewrite bind_lift_ok by exact He. etrans; [|exact Hd]. by destruct key, value.
Qed.

(** ** The query *)

(** The number of characters that are compared *)
Definition near_precision (x : rvalue) (radius : double) : outcome Z :=
  let? precision := member x "precision" r_i in
  Ok match precision with Some p => int32 p | None => precision_of radius end.

Lemma geonear_patterns usable fuel w body skip limit j lat lng a b radius p keys la lo hash wilds st :
  load body = Some j -> position (Some j) lat lng a b ->
  member_d (Some j) "radius" (literal 5) = Ok radius ->
  near_precision (Some j) radius = Ok p -> member (Some j) "keys" r_s = Ok keys ->
  sanitizelatlng lat lng = (la, lo) -> encode8 la lo = Ok hash ->
  hashPrefixes usable hash p (key_filter keys) = Ok wilds ->
  geonear usable fuel w body skip limit st
  = outer (getAll_filtered fuel (near la lo radius) skip limit w wilds) st.
Proof.
  intros Hl [Hlat Hlng _ _] Hr Hp Hk Es He Hw. unfold near_precision in Hp. unfold geonear.
  destruct (member (Some j) "precision" r_i) as [precision| | |] eqn:Epr; try done.
  injection Hp as Hp. rewrite Hl. repeat (erewrite bind_lift_ok by eassumption). rewrite Es.
  repeat (erewrite bind_lift_ok by eassumption). rewrite Hp.
  erewrite bind_lift_ok; [done|]. by destruct keys.
Qed.

(** The entries with the hash of a position near [a], [b] and a name the filter
    lets through *)
Definition near_entry (p : nat) (a b : Q) (keys : option string) (kv : string * string) : Prop :=
  exists a' b' hash k, in_range a' b' /\ geohash_encode a' b' 8 = Some hash /\
    close p a b a' b' /\ key_passes keys k /\ kv.1 = text hash +:+ "_" +:+ k.

Lemma near_entry_hit p a b keys kv hash x y hs (m : smap string) : (1 <= p <= 8)%nat ->
  in_range a b -> geohash_encode a b 8 = Some hash -> cell (take p hash) = (x, y) ->
  square p x y hs -> kv ∈ m -> near_entry p a b keys kv ->
  kv ∈ flat_map (fun wild => hits wild m) (pattern (key_filter keys) <$> hs).
Proof.
  intros Hp Hr E Hc (_ & _ & Hs) Hm (a' & b' & hash' & k & Hr' & E' & Hclose & Hk & Hkey).
  destruct (cut_encode a b p hash Hr Hp E) as (_ & _ & Et & _).
  destruct (cut_encode a' b' p hash' Hr' Hp E') as (_ & _ & Et' & Hv & Hl & Hd).
  pose proof (close_cells p a b a' b' _ _ ltac:(lia) Hr Hr' Hclose Et Et') as Hcell.
  rewrite Hc in Hcell. cbn [fst snd] in Hcell. apply (Hs _ Hv Hl) in Hcell.
  apply list_elem_of_In, in_flat_map. exists (pattern (key_filter keys) (take p hash')). split.
  - by apply list_elem_of_In, list_elem_of_fmap_2.
  - apply list_elem_of_In, list_elem_of_filter. split; [|done]. destruct kv as [key v].
    cbn [fst] in Hkey. subst key. rewrite <- (take_drop p hash') at 2. by apply pattern_hit.
Qed.

(** [geonear], for a position whose cell at the precision is not at the
    border of the grid, answers with a page of the entries under the nine cells
    around, none twice, that pass the distance filter.  Among these entries are
    all whose key is the geohash of a point less than the height and the width
    of a cell away, as [geoput] makes it, with a name the filter of keys lets
    through. *)
Theorem geonear_page (usable : Z -> Z) (fuel : nat) (w : world) (d : DB) (body : string)
    (skip limit : Z) (j : json) (lat lng radius la lo : double) (a b : Q) (p : nat)
    (keys : option string) (hash : list ascii) (x y nx ny : Z)
    (g : string * string -> bool * list wvalue) (out : wvalue) (rs : list wvalue) :
  (forall n, 24 <= usable n)%Z -> query_ok fuel w d skip limit ->
  load body = Some j -> position (Some j) lat lng a b ->
  member_d (Some j) "radius" (literal 5) = Ok radius ->
  near_precision (Some j) radius = Ok (Z.of_nat p) -> (1 <= p <= 8)%nat ->
  member (Some j) "keys" r_s = Ok keys ->
  sanitizelatlng lat lng = (la, lo) -> encode8 la lo = Ok hash ->
  cell (take p hash) = (x, y) -> cells p = (nx, ny) ->
  (0 < x < nx - 1)%Z -> (0 < y < ny - 1)%Z ->
  Forall (fun kv => filtered_entry (near la lo radius) kv = Ok (g kv)) (contents d) ->
  exists hs, NoDup hs /\
    (forall kv, kv ∈ hs -> kv ∈ contents d /\ exists h, valid h /\ length h = p /\
       (-1 <= (cell h).1 - x <= 1 /\ -1 <= (cell h).2 - y <= 1)%Z /\
       hit (pattern (key_filter keys) h) kv = true) /\
    (forall kv, kv ∈ contents d ->
       near_entry p (on_earth_lat a) (on_earth_lng b) keys kv -> kv ∈ hs) /\
    let P := page skip limit hs in
    geonear usable fuel w body skip limit (out, rs)
    = (Ok (forallb (fun kv => (g kv).1) P), (out, rs ++ flat_map (fun kv => (g kv).2) P)).
Proof.
  intros Hu Hok Hl Hpos Hr Hp Hp8 Hk Es He Hc Hn Hx Hy Hg.
  pose proof (encode8_sanitized lat lng a b (pos_a _ _ _ _ _ Hpos) (pos_b _ _ _ _ _ Hpos)) as H8.
  rewrite Es in H8. destruct H8 as (hash' & He' & Hgeo). rewrite He in He'. injection He' as <-.
  pose proof (on_earth_range a b) as Hrange.
  destruct (cut_encode _ _ p hash Hrange Hp8 Hgeo) as (_ & _ & _ & Hv & Hlp & _).
  destruct (around_square usable p (take p hash) x y nx ny) as (ns & En & Hsq);
    [done|lia|done..|].
  set (texts := take p hash :: ns) in *. set (wilds := pattern (key_filter keys) <$> texts).
  pose proof Hsq as (Hnd & Hf & Hcells).
  set (hs := flat_map (fun wild => hits wild (contents d)) wilds).
  assert (NoDup hs) as Hhs by by eapply hits_nodup; [apply contents_wf|..].
  assert (forall kv, kv ∈ hs -> kv ∈ contents d /\ exists h, h ∈ texts /\
            hit (pattern (key_filter keys) h) kv = true) as Hin.
  { intros kv (wild & Hw & Hkv)%list_elem_of_In%in_flat_map.
    apply list_elem_of_In, list_elem_of_filter in Hkv as [Hhit ?]. split; [done|].
    apply list_elem_of_In, list_elem_of_fmap in Hw as (h & -> & Hh). by exists h. }
  assert (hs ⊆ contents d) as Hsub by by intros kv [? _]%Hin.
  exists hs. split; [done|]. split.
  { intros kv (Hkv & h & Hh & Hhit)%Hin. split; [done|]. exists h.
    pose proof Hf as Hf'. rewrite Forall_forall in Hf'. destruct (Hf' h Hh) as [Hvh Hlh].
    by apply (Hcells h Hvh Hlh) in Hh. }
  split.
  { intros kv Hkv Hnear. by eapply (near_entry_hit p _ _ keys kv hash). }
  cbn zeta. erewrite geonear_patterns; [|done..|].
  2: { unfold hashPrefixes, cut_hash. destruct (Z.ltb_spec (Z.of_nat p) 0), (Z.leb_spec 0 (Z.of_nat p)),
         (Z.ltb_spec (Z.of_nat p) 128); try lia. cbn [andb]. by rewrite Nat2Z.id, En. }
  fold texts wilds. unfold outer. rewrite getAll_filtered_page with (d := d); [|done|..].
  - unfold returning. fold hs. rewrite (emit_entries_all _ g); [done|].
    rewrite Forall_forall in Hg |- *. intros kv Hkv%page_incl. by apply Hg, Hsub.
  - apply Forall_fmap, (Forall_impl _ _ _ Hf). intros h [Hvh Hlh].
    apply pattern_star; [done|]. intros ->. simpl in Hlh. lia.
  - fold hs. assert (length hs <= length (contents d)) by by apply submseteq_length, NoDup_submseteq.
    destruct Hok as (_ & _ & ? & _). lia.
Qed.
End stored.

(** ** Concrete positions

    Doubles are integers; the functions of the distance are crude. *)

#[local] Existing Instance int_platform.
Definition int_arithmetic : Arithmetic := {|
  literal q := (Qnum q / Zpos (Qden q))%Z : @double int_platform;
  double_lt := Z.ltb;
  double_le := Z.leb;
  finite z := Some (inject_Z z);
  d_add := Z.add;
  d_sub := Z.sub;
  d_mul := Z.mul;
  d_div := Z.div;
  d_sin := id;
  d_cos _ := 1%Z;
  d_acos x := (x - 1)%Z
|}.
#[local] Existing Instance int_arithmetic.

Lemma int_arithmetic_laws : ArithmeticLaws.
Proof.
  constructor.
  - intros z _. cbn. by rewrite Z.div_1_r.
  - intros a b p q [= <-] [= <-]. cbn. rewrite Z.ltb_lt. by rewrite <- Zlt_Qlt.
Qed.

Section geo_witnesses.
Import Demo.
#[local] Existing Instance int_arithmetic_laws.

Definition put_body : string := q "{`key`:`cafe`,`value`:7,`lat`:42,`lng`:-5}".
Definition near_body : string := q "{`lat`:42,`lng`:-5,`keys`:`c*`,`precision`:2}".

Lemma here : position (load put_body) (42%Z : double) ((-5)%Z : double) 42 (-5).
Proof. by constructor. Qed.

Theorem geoput_stores_witness :
  exists w', geoput put_body ("", w) = (Ok true, (result_true, w')) /\
    put_effect d "ezkqyjz5_cafe"
      (q "{`key`:`cafe`,`value`:7,`lat`:42,`lng`:-5,`hash`:`ezkqyjz5`}") w w'.
Proof.
  assert (opened w d) as Ho by by split.
  destruct (geoput_stores put_body "" (default JNull (load put_body)) (Some "cafe")
    (Some (@WNum int_platform 7%Z)) (42%Z : @double int_platform) ((-5)%Z : @double int_platform) 42 (-5) w d eq_refl here eq_refl eq_refl Ho)
    as (hash & w' & He & _ & _ & _ & E & Hw).
  assert (hash = chars "ezkqyjz5") as -> by by (vm_compute in He; injection He as <-).
  exists w'. split; [exact E|exact Hw].
Defined.

(** The process after the request, and its query *)
Definition stored : world := (geoput put_body ("", w)).2.2.
Definition stored_db : DB := default d (db stored).
Definition cafe : string * string :=
  ("ezkqyjz5_cafe", q "{`key`:`cafe`,`value`:7,`lat`:42,`lng`:-5,`hash`:`ezkqyjz5`}").
Definition answers (kv : string * string) : bool * list wvalue :=
  match filtered_entry (near (42%Z : @double int_platform) ((-5)%Z : @double int_platform)
                          (5%Z : @double int_platform)) kv with
  | Ok r => r
  | _ => (false, [])
  end.

Definition near_json : json := Eval vm_compute in default JNull (load near_body).
Definition deg42 : @double int_platform := 42%Z.
Definition west5 : @double int_platform := (-5)%Z.
Definition five_km : @double int_platform := 5%Z.

Lemma answers_ok : Forall (fun kv => filtered_entry (near deg42 west5 five_km) kv = Ok (answers kv))
  (contents stored_db).
Proof.
  assert (forallb (fun kv => is_ok (filtered_entry (near deg42 west5 five_km) kv))
    (contents stored_db) = true) as H by by vm_compute.
  apply List.Forall_forall. rewrite forallb_forall in H. intros kv Hkv%H. unfold answers.
  by destruct (filtered_entry _ kv).
Qed.

Lemma stored_query_ok : query_ok 10 stored stored_db 0 (-1).
Proof.
  split; [split; by vm_compute|]. split; [vm_compute; lia|]. split; [by vm_compute|].
  by apply (bool_decide_eq_true_1 (window_ok 0 (-1))).
Qed.

Lemma near_here : position (Some near_json) deg42 west5 42 (-5).
Proof. constructor; by vm_compute. Qed.

Lemma cafe_near : near_entry 2 42 (-5) (Some "c*") cafe.
Proof.
  exists 42%Q, (-5)%Q, (chars "ezkqyjz5"), "cafe".
  split; [split; split; by vm_compute|]. split; [by vm_compute|]. split; [split; split; by vm_compute|].
  split; [apply (wild_match_glob "c*" "cafe"); by vm_compute|by vm_compute].
Qed.

(** At a pole there is no cell to the north. *)
Example pole : (geonear (fun n => Z.max 24 n) 10 stored (q "{`lat`:90,`lng`:10}") 0 (-1)
  (WNull, [])).1 = Undef.
Proof. by vm_compute. Qed.

Theorem geonear_page_witness :
  exists hs, NoDup hs /\ cafe ∈ hs /\
    geonear (fun n => Z.max 24 n) 10 stored near_body 0 (-1) (WNull, [])
    = (Ok (forallb (fun kv => (answers kv).1) hs), (WNull, flat_map (fun kv => (answers kv).2) hs)).
Proof.
  destruct (geonear_page (fun n => Z.max 24 n) 10 stored stored_db near_body 0 (-1)
    near_json deg42 west5 five_km deg42 west5 42 (-5) 2 (Some "c*") (chars "ezkqyjz5") 15 23 32 32
    answers WNull []) as (hs & Hn & _ & Hin & E).
  - intros n. lia.
  - exact stored_query_ok.
  - by vm_compute.
  - exact near_here.
  - by vm_compute.
  - by vm_compute.
  - lia.
  - by vm_compute.
  - by vm_compute.
  - by vm_compute.
  - by vm_compute.
  - by vm_compute.
  - lia.
  - lia.
  - exact answers_ok.
  - exists hs. split; [done|]. split; [|exact E]. apply Hin; [|exact cafe_near].
    apply list_elem_of_In. vm_compute. tauto.
Defined.
End geo_witnesses.
