(* ===== verification/Http.v ===== *)
(** * HTTP routes

    src/include/httprouting.hpp: the handlers of the routes of the core.  A
    handler reads the parameters of the URL and the body, calls the operation
    of the core and turns its result into the answer; crow finds the handler by
    the path and the method, and answers 500 when an exception leaves it.
    A request holds the parameters already taken from its URL, as C strings.
    The routes that serve files and pages, [/filetransfer], [/opentcpsocket]
    and the ones of the plugins are left out. *)

From S2P Require Import Prelude SortedMap Wildcmp Json Store World Scan Frames Cache CoreRead CoreWrite.
From S2P Require Import CoreLists Orm Geohash Geo.
Local Open Scope quarks_scope.

(** ** Requests and answers *)

Inductive verb := GET | POST.

Record request := {
  method : verb;
  url : string;
  url_params : list (string * string);
  req_body : string
}.

(** [req.url_params.get(k)]; [None]: the null pointer *)
Definition url_param (req : request) (k : string) : option string := assoc k (url_params req).

(** [x == nullptr || !strlen(x) ? d : x] *)
Definition param_or (req : request) (k d : string) : string :=
  match url_param req k with
  | None | Some EmptyString => d
  | Some x => x
  end.

(** The parameter "body", or else the body *)
Definition body_of (req : request) : string := default (req_body req) (url_param req "body").

Record QueryParams := { wild : string; skip : string; limit : string }.
Definition Parse (req : request) : QueryParams := {|
  wild := param_or req "keys" EmptyString;
  skip := param_or req "skip" "0";
  limit := param_or req "limit" "-1"
|}.

(** [std::stoi(q.skip), std::stoi(q.limit)] *)
Definition window (q : QueryParams) : outcome (Z * Z) :=
  let? s := stoi (skip q) in let? l := stoi (limit q) in Ok (s, l).

Section http.
Context {plat : Platform} {R : RocksDB} {A : Arithmetic}.

(** What the callback returns: a text, a [wvalue], or a response with the
    header that allows other origins. *)
Inductive answer := Text (s : string) | Json (w : wvalue) | Response (s : string).

Record response := { code : Z; text : string; any_origin : bool }.

(** ** Parameters: the bytes of a block of the allocator, the turns of the loops
    over the store, the identifier drawn by [makePair], [std::sort], the
    checkpoint, and what an execution of the workers of [getKeysMulti] gives. *)
Context (usable : Z -> Z) (fuel : nat) (uuid : string)
  (std_sort : (rvalue -> rvalue -> outcome bool) -> list rvalue -> outcome (list rvalue))
  (create : option DB -> string -> bool)
  (getKeysMulti : world -> string -> Z -> Z -> SM (list wvalue) bool).

(** *** Locals *)

(** [std::string out; op(out); return out;] *)
Definition text_of (op : SM (string * world) bool) : SM world answer :=
  let! out := returning EmptyString (do! op; ret tt) in ret (Text out).

(** The locals [out] (or [w]) and [jsonResults] *)
Definition locals : Type := wvalue * (list wvalue * world).

(** An operation that reads the process *)
Definition reads {S B} (m : world -> SM S B) : SM (S * world) B := fun '(s, w) =>
  let '(o, s') := m w s in (o, (s', w)).

(** [out\[k\] = v] *)
Definition set_member {S} (k : string) (v : wvalue) : SM (wvalue * S) unit :=
  fun '(out, s) => (Ok tt, (w_set k v out, s)).

(** [out["result"] = std::move(jsonResults)] *)
Definition move_results : SM locals unit := fun '(out, (rs, w)) =>
  (Ok tt, (w_set "result" (WList rs) out, ([], w))).

Definition err_query : wvalue := WStr (q "{`error` : `query returned error`}").
Definition err_keys : wvalue := WStr (q "{`error`:`parameter 'keys' missing`}").

Definition handle_runtime_error (what : string) : SM locals unit :=
  do! set_member "error" (WObj [("reason", WStr what)]); move_results.

(** The same for text: what was written so far becomes the result. *)
Definition handle_runtime_error_text (what : string) : SM (string * world) unit :=
  fun '(out, w) =>
    (Ok tt, (dump (w_set "result" (WStr out)
                     (w_set "error" (WObj [("reason", WStr what)]) WNull)), w)).

(** The handler with its locals: [out], which starts as [init], and no results *)
Definition with_locals (init : wvalue) (m : SM locals unit) : SM world wvalue :=
  local [] (returning init m).

(** Move the results, and report that [op] returned false. *)
Definition results_of (op : SM (list wvalue * world) bool) : SM locals unit :=
  let! ok := outer op in
  do! move_results;
  if ok : bool then ret tt else set_member "error" err_query.

(** ** Writes *)

Definition route_core_postjson (req : request) : SM world answer := text_of (post (req_body req)).
Definition route_core_put (req : request) : SM world answer := text_of (put (body_of req)).
Definition route_core_putjson (req : request) : SM world answer :=
  let! out := returning EmptyString (do! put (req_body req); ret tt) in ret (Response out).
Definition route_core_putatom (req : request) : SM world answer :=
  text_of (putAtom_body (body_of req)).
Definition route_core_removeatom (req : request) : SM world answer :=
  text_of (removeAtom_body (body_of req)).
Definition route_core_atom (req : request) : SM world answer := text_of (atom fuel (body_of req)).
Definition route_core_incrvalue (req : request) : SM world answer :=
  text_of (incrementValue (body_of req)).
Definition route_core_geoput (req : request) : SM world answer := text_of (geoput (body_of req)).

Definition route_core_make (req : request) : SM world answer :=
  let! out := returning WNull
    (try_runtime (do! makePair uuid (body_of req); ret tt)
       (fun _ => set_member "error" (WStr "runtime error"))) in
  ret (Json out).

Definition route_core_incr (req : request) : SM world answer :=
  match load (body_of req) with
  | None => ret (Text "invalid Json Body")
  | x =>
      let! key := lift (r_at_s x "key") in
      let! stepBy := lift (let? v := r_at x "step" in r_i v) in
      text_of (increment key (int32 stepBy))
  end.

(** ** One key *)

Definition err_key : string := q "{`error`: `parameter 'key' missing`}".
Definition key_of (req : request) : string := default EmptyString (url_param req "key").

(** [try { if(key.size() > 0) ... else out = "missing" } catch { out = ... }] *)
Definition key_route (req : request) (op : string -> SM (string * world) unit)
    (failed : string -> string) : SM world answer :=
  let! out := returning EmptyString
    (try_runtime
       (match key_of req with
        | EmptyString => set_out err_key
        | key => op key
        end)
       (fun what => set_out (failed what))) in
  ret (Text out).

Definition parsing_error : string := q "{`error`:`parsing error`}".

Definition route_core_existkey (req : request) : SM world answer :=
  key_route req (fun key => do! exists_ key; ret tt) (fun _ => parsing_error).

Definition route_core_get (req : request) : SM world answer :=
  key_route req
    (fun key => let! (_, value) := outer (get key EmptyString) in set_out value)
    (fun _ => parsing_error).

Definition route_core_removekey (req : request) : SM world answer :=
  key_route req (fun key => do! remove key; ret tt) (fun what => what).

(** ** Ranges of keys *)

(** The handlers with a pattern and [wvalue] results *)
Definition wild_route (q : QueryParams) (op : string -> SM (list wvalue * world) bool)
    : SM world wvalue :=
  with_locals WNull
    (try_runtime
       (match wild q with
        | EmptyString => set_member "error" err_keys
        | wild => results_of (op wild)
        end)
       handle_runtime_error).

Definition route_core_getall (req : request) : SM world answer :=
  let q := Parse req in
  let! out := wild_route q (fun wild =>
    let! (skip, limit) := lift (window q) in
    reads (fun w => getAll fuel w wild skip limit)) in
  ret (Json out).

Definition route_core_getsorted (req : request) : SM world answer :=
  let q := Parse req in
  let ascending := negb (String.eqb (param_or req "des" "false") "true") in
  let! out := wild_route q (fun wild =>
    let! (skip, limit) := lift (window q) in
    reads (fun w => getSorted fuel std_sort w wild (param_or req "sortby" EmptyString) ascending
                      skip limit (param_or req "filter" EmptyString))) in
  ret (Json out).

(** [out\[out.size() - 1\] = ','; out += ...] *)
Definition keys_error : SM (string * world) unit := fun '(out, w) =>
  match set_last "," out with
  | Some out => (Ok tt, (out +:+ q "`error` : `wildcard or db error`}", w))
  | None => (Undef, (out, w))
  end.

Definition reversed (req : request) : bool :=
  String.eqb (param_or req "reverse" "false") "true".

Definition route_core_getkeys (req : request) : SM world answer :=
  let q := Parse req in
  let! out := returning EmptyString
    (try_runtime
       (match wild q with
        | EmptyString => ret tt
        | wild =>
            let! (skip, limit) := lift (window q) in
            let! ok := reads (fun w =>
              if reversed req then getKeysReversed_out fuel w wild skip limit
              else getKeys_out fuel w wild skip limit) in
            if ok : bool then ret tt else keys_error
        end)
       handle_runtime_error_text) in
  ret (Response out).

Definition route_core_getkeysmulti (req : request) : SM world answer :=
  let q := Parse req in
  let! out := with_locals WNull
    (try_runtime
       (match body_of req with
        | EmptyString =>
            set_member "error" (WStr (Prelude.q "{`error`:`parameter 'body' missing or has no content`}"))
        | body =>
            results_of
              (let! (skip, limit) := lift (window q) in
               reads (fun w => getKeysMulti w body skip limit))
        end)
       handle_runtime_error) in
  ret (Response (dump out)).

Definition route_core_getcount (req : request) : SM world answer :=
  let q := Parse req in
  let! out := returning EmptyString
    (try_runtime
       (match wild q with
        | EmptyString => set_out (Prelude.q "{`error` : `counting error`}")
        | wild =>
            let! (skip, limit) := lift (window q) in
            let! (ok, count) := outer (fun w =>
              let '(o, count) := getCount fuel w wild skip limit 0%Z in
              (let? ok := o in Ok (ok, count), w)) in
            if ok : bool then set_out (to_string count)
            else set_out (Prelude.q "{`error` : `counting error`}")
        end)
       set_out) in
  ret (Text out).

Definition route_core_iter (req : request) : SM world answer :=
  let q := Parse req in
  let! out := with_locals WNull
    (try_runtime
       (results_of
          (let! (skip, limit) := lift (window q) in
           reads (fun w => if reversed req then iterReversed fuel w skip limit
                           else iter fuel w skip limit)))
       handle_runtime_error) in
  ret (Response (dump out)).

Definition route_core_removekeys (req : request) : SM world answer :=
  let q := Parse req in
  let! out := returning WNull
    (try_runtime
       (match wild q with
        | EmptyString => set_member "error" err_keys
        | wild =>
            let! (skip, limit) := lift (window q) in
            let! removeCount := outer (removeAll fuel wild skip limit) in
            set_member "result" (w_int removeCount)
        end)
       (fun what => set_member "error" (WStr what))) in
  ret (Json out).

(** ** Requests with a JSON body *)

Definition route_core_getjson (req : request) : SM world answer :=
  match load (req_body req) with
  | None => ret (Json (w_set "error" (WStr "invalid parameters") WNull))
  | x =>
      let! out := returning WNull
        (try_runtime
           (let! key := lift (r_at_s x "key") in do! getJson key; ret tt)
           (fun _ => set_member "error" (WStr "parameter 'key' missing"))) in
      ret (Json out)
  end.

Definition route_core_getlist (req : request) : SM world answer :=
  match load (body_of req) with
  | None => ret (Text (Prelude.q "{`result`:[],`error`:`invalid json body`}"))
  | x =>
      let! (skip, limit) := lift (window (Parse req)) in
      text_of (getList_out x skip limit)
  end.

(** The handlers that load the body first: [w] starts as [init]. *)
Definition body_route (req : request) (init : wvalue) (m : rvalue -> SM locals unit)
    : SM world answer :=
  match load (body_of req) with
  | None => ret (Json (w_set "error" (WStr "invalid parameters") init))
  | x => let! out := with_locals init (m x) in ret (Json out)
  end.

Definition no_result : wvalue := w_set "result" (WStr EmptyString) WNull.

Definition route_core_getitems (req : request) : SM world answer :=
  body_route req WNull (fun x =>
    let! (skip, limit) := lift (window (Parse req)) in
    let! ok := (fun '(out, (rs, w)) =>
                  let '(o, out) := getItems w x skip limit out in (o, (out, (rs, w)))) in
    if ok : bool then ret tt
    else set_member "error"
           (WStr "One or more keys did not retrieve the corresponding item")).

(** [w["result"] = std::move(jsonResults); if(!ret) w["error"] = "runtime error";] *)
Definition list_route (req : request) (op : rvalue -> SM (list wvalue * world) bool)
    : SM world answer :=
  body_route req no_result (fun x =>
    let! ok := outer (op x) in
    do! move_results;
    if ok : bool then ret tt else set_member "error" (WStr "runtime error")).

Definition route_core_getjoinedmap (req : request) : SM world answer :=
  list_route req (fun x =>
    let! (skip, limit) := lift (window (Parse req)) in
    reads (fun w => getJoinedMap fuel w x skip limit)).

Definition route_core_getkeysafter (req : request) : SM world answer :=
  list_route req (fun x =>
    let! (skip, limit) := lift (window (Parse req)) in
    reads (fun w => getKeysAfter fuel w x skip limit)).

Definition route_core_getkeyslast (req : request) : SM world answer :=
  list_route req (fun x => reads (fun w => getKeysLast fuel w x)).

(** [if(jsonResults.size()) w["result"] = std::move(jsonResults);] *)
Definition move_some_results : SM locals unit := fun '(out, (rs, w)) =>
  match rs with
  | [] => (Ok tt, (out, (rs, w)))
  | _ => move_results (out, (rs, w))
  end.

Definition route_core_searchjson (req : request) : SM world answer :=
  body_route req no_result (fun x =>
    let! (skip, limit) := lift (window (Parse req)) in
    do! outer (searchJson fuel x skip limit);
    move_some_results).

Definition route_core_geonear (req : request) : SM world answer :=
  let body := body_of req in
  let q := Parse req in
  let! out := with_locals no_result
    (let! (skip, limit) := lift (window q) in
     let! ok := (fun '(out, (rs, w)) =>
                   let '(o, (out, rs)) := geonear usable fuel w body skip limit (out, rs) in
                   (o, (out, (rs, w)))) in
     do! move_some_results;
     if ok : bool then ret tt
     else set_member "error" (WStr "geonear runtime error occured")) in
  ret (Json out).

(** ** Backup, logger, ping *)

Definition route_core_backup (req : request) : SM world answer :=
  match load (body_of req) with
  | None => ret (Text (Prelude.q "{`result`:false, `error`:`invalid parameters`}"))
  | p =>
      let! path := lift (member p "path" r_s) in
      let! ok := backup create (default EmptyString path) in
      ret (Text (if ok : bool then result_true else result_false))
  end.

(** [Core::setLogger] *)
Definition setLogger (url : string) : SM world bool :=
  do! modify (fun w => set_config
    (switch loggerFlag (store_url loggerFlag url (cfg w))) w);
  ret true.

Definition route_core_log (req : request) : SM world answer :=
  let url := default (req_body req) (url_param req "url") in
  let! ok := setLogger (c_str url) in
  ret (Text (if ok : bool then result_true else result_false)).

Definition route_ping (req : request) : SM world answer := ret (Text "pong").

(** ** Dispatch *)

Record rule := { path : string; methods : list verb; callback : request -> SM world answer }.

(** [CROW_ROUTE(app, path)(callback)]: without [.methods] a rule is for GET. *)
Definition on_get (path : string) (callback : request -> SM world answer) : rule :=
  {| path := path; methods := [GET]; callback := callback |}.
Definition on_post (path : string) (callback : request -> SM world answer) : rule :=
  {| path := path; methods := [POST]; callback := callback |}.
Definition on_both (path : string) (callback : request -> SM world answer) : rule :=
  {| path := path; methods := [GET; POST]; callback := callback |}.

Definition rules : list rule := [
  on_get "/put" route_core_put;
  on_get "/exists" route_core_existkey;
  on_get "/get" route_core_get;
  on_get "/getall" route_core_getall;
  on_get "/getsorted" route_core_getsorted;
  on_get "/getkeys" route_core_getkeys;
  on_get "/getkeysmulti" route_core_getkeysmulti;
  on_get "/getcount" route_core_getcount;
  on_get "/iter" route_core_iter;
  on_get "/remove" route_core_removekey;
  on_get "/removeall" route_core_removekeys;
  on_both "/remove/atom" route_core_removeatom;
  on_post "/putjson" route_core_putjson;
  on_post "/postjson" route_core_postjson;
  on_both "/put/atom" route_core_putatom;
  on_both "/atom" route_core_atom;
  on_both "/make" route_core_make;
  on_both "/getjson" route_core_getjson;
  on_both "/getlist" route_core_getlist;
  on_both "/getitems" route_core_getitems;
  on_both "/getjoinedmap" route_core_getjoinedmap;
  on_both "/getkeysafter" route_core_getkeysafter;
  on_both "/getkeyslast" route_core_getkeyslast;
  on_both "/incr" route_core_incr;
  on_both "/incrval" route_core_incrvalue;
  on_both "/searchjson" route_core_searchjson;
  on_both "/geo/put" route_core_geoput;
  on_both "/geo/near" route_core_geonear;
  on_both "/backup" route_core_backup;
  on_both "/log" route_core_log;
  on_get "/ping" route_ping
].

#[global] Instance verb_eq_dec : EqDecision verb.
Proof. solve_decision. Defined.

Definition answer_response (a : answer) : response :=
  match a with
  | Text s => {| code := 200; text := s; any_origin := false |}
  | Json w => {| code := 200; text := dump w; any_origin := false |}
  | Response s => {| code := 200; text := s; any_origin := true |}
  end.
Definition failure (code : Z) : response := {| code := code; text := EmptyString; any_origin := false |}.

(** Any exception becomes a 500. *)
Definition guarded (m : SM world answer) : SM world response := fun w =>
  match m w with
  | (Ok a, w) => (Ok (answer_response a), w)
  | (Throw _, w) => (Ok (failure 500), w)
  | (Undef, w) => (Undef, w)
  | (Fuel, w) => (Fuel, w)
  end.

(** The routes of the core have no parts that vary: the trie of crow finds the
    rule whose path is the URL.  Other routes of the program are not here. *)
Definition find_rule (req : request) : option rule :=
  List.find (fun r => String.eqb (path r) (url req)) rules.

Definition serve (req : request) : SM world response :=
  match find_rule req with
  | Some r =>
      if bool_decide (method req ∈ methods r) then guarded (callback r req) else ret (failure 404)
  | None => ret (failure 404)
  end.
End http.

(** ** Requests that read *)

Section reading.
Context {plat : Platform} {R : RocksDB} {A : Arithmetic}.

(** The process has the same store, options and messages; the cache may differ. *)
Definition same_store (w0 w : world) : Prop :=
  db w = db w0 /\ dbStatus_ok w = dbStatus_ok w0 /\ cfg w = cfg w0 /\ events w = events w0.

Context (w0 : world).
#[local] Abbreviation I := (same_store w0).

Lemma reads_reads {S B} (m : world -> SM S B) : preserves (behind I) (reads m).
Proof. intros [s w] H. unfold reads, behind in *. cbn [snd] in *. by destruct (m w s). Qed.

Lemma reads_member {S} k v (J : S -> Prop) : preserves (behind J) (set_member k v).
Proof. by intros [out s] H. Qed.

Lemma reads_move : preserves (behind (behind I)) move_results.
Proof. by intros [out [rs w]] H. Qed.

Lemma reads_move_some : preserves (behind (behind I)) move_some_results.
Proof. intros [out [[|r rs] w]] H; exact H. Qed.

Lemma reads_set_out s : preserves (behind I) (set_out s).
Proof. by intros [out w] H. Qed.

Lemma reads_the_db : preserves I the_db.
Proof. intros w H. unfold the_db. by destruct (db w). Qed.

Lemma reads_GetCached key : preserves I (_GetCached key).
Proof. intros w H. unfold _GetCached. by destruct (sm_lookup key (CacheMap w)). Qed.

Lemma reads_Get key : preserves I (Get key).
Proof. unfold Get. apply preserves_bind; [apply reads_the_db|]. intros. apply preserves_ret. Qed.
End reading.

#[export] Hint Resolve reads_reads reads_member reads_move reads_move_some reads_set_out
  reads_GetCached reads_Get : frames.

Section read_routes.
Context {plat : Platform} {R : RocksDB} {A : Arithmetic}.
Context (usable : Z -> Z) (fuel : nat) (uuid : string)
  (std_sort : (rvalue -> rvalue -> outcome bool) -> list rvalue -> outcome (list rvalue))
  (create : option DB -> string -> bool)
  (getKeysMulti : world -> string -> Z -> Z -> SM (list wvalue) bool).
Context (w0 : world).
#[local] Abbreviation I := (same_store w0).

Lemma reads_get key value : preserves I (get key value).
Proof. unfold get. eauto 12 with frames. Qed.

Lemma reads_pair key : preserves I (getKeyValuePair key).
Proof. unfold getKeyValuePair. eauto 12 with frames. Qed.
Hint Resolve reads_get reads_pair : frames.

Lemma reads_exists key : preserves (behind I) (exists_ key).
Proof. unfold exists_. eauto 12 with frames. Qed.

Lemma reads_getJson key : preserves (behind I) (getJson key).
Proof.
  unfold getJson. eauto 30 with frames.
Qed.
Hint Resolve reads_exists reads_getJson : frames.

Lemma reads_list_turn skip limit key :
  preserves (behind (behind (behind I))) (list_out_turn skip limit key).
Proof.
  intros [i [matched [out w]]] H. unfold list_out_turn. destruct (r_s key) as [k| | |]; try exact H.
  pose proof (reads_get k EmptyString w H) as Hg.
  destruct (get k EmptyString w) as [[[valid value]| | |] w']; try exact Hg.
  by destruct (in_window _ _ _ && valid).
Qed.

Lemma reads_on_out {B} (m : SM string B) : preserves (behind I) (on_out m).
Proof. intros [out w] H. unfold on_out. by destruct (m out). Qed.
Hint Resolve reads_list_turn reads_on_out : frames.

Lemma reads_getList_out x skip limit : preserves (behind I) (getList_out x skip limit).
Proof.
  unfold getList_out. apply preserves_bind; [auto with frames|]. intros w.
  destruct (dbStatus_ok w); [|auto with frames]. apply preserves_bind; [auto with frames|].
  intros _. apply preserves_local. apply preserves_bind.
  { apply preserves_try; [|auto with frames]. eauto 12 with frames. }
  intros ok. apply preserves_bind; [by intros [n s]|]. intros n.
  apply preserves_bind; [auto with frames|]. intros _. destruct ok; eauto 12 with frames.
Qed.

Lemma reads_search_emit mapField mapAs kv : preserves (behind I) (search_emit mapField mapAs kv).
Proof.
  intros s H. unfold search_emit.
  match goal with |- context [try_runtime ?m ?h ?st] =>
    assert (preserves (behind (behind I)) (try_runtime m h)) as Hm;
      [|specialize (Hm st H); destruct (try_runtime m h st) as [[| | |] [wv [rs w]]]; exact Hm]
  end.
  apply preserves_try; [|intros msg [wv [rs w]] Hw; exact Hw].
  apply preserves_bind; [auto with frames|]. intros v. apply preserves_bind; [auto with frames|].
  intros _. destruct mapField; [auto with frames|]. apply preserves_bind; [auto with frames|].
  intros k [wv [rs w]] Hw. pose proof (reads_getJson k (WNull, w) Hw) as Hj.
  by destruct (getJson k (WNull, w)) as [[[]| | |] [mj w']].
Qed.
Hint Resolve reads_search_emit : frames.

Lemma reads_searchJson x skip limit : preserves (behind I) (searchJson fuel x skip limit).
Proof.
  unfold searchJson. apply preserves_bind; [auto with frames|]. intros w.
  destruct (dbStatus_ok w); [|auto with frames]. apply preserves_bind; [auto with frames|].
  intros _. apply preserves_bind; [auto with frames|]. intros wild.
  apply preserves_bind; [auto with frames|]. intros [f a]. unfold query.
  destruct (dbStatus_ok w); [|auto with frames]. destruct (leading_star wild); [auto with frames|].
  destruct (db w); [|auto with frames]. apply preserves_bind; [|auto with frames].
  apply preserves_local, preserves_for_loop. auto with frames.
Qed.
Hint Resolve reads_getList_out reads_searchJson : frames.

(** The handlers' frames *)
Lemma reads_text_of op : preserves (behind I) op -> preserves I (text_of op).
Proof. intros H. unfold text_of. eauto 12 with frames. Qed.

Lemma reads_with_locals init m : preserves (behind (behind I)) m -> preserves I (with_locals init m).
Proof. intros H. unfold with_locals. eauto 12 with frames. Qed.

Lemma reads_error what : preserves (behind (behind I)) (handle_runtime_error what).
Proof. unfold handle_runtime_error. eauto 12 with frames. Qed.

Lemma reads_results_of op : preserves (behind I) op -> preserves (behind (behind I)) (results_of op).
Proof. intros H. unfold results_of. eauto 12 with frames. Qed.
Hint Resolve reads_text_of reads_with_locals reads_error reads_results_of : frames.

Lemma reads_wild_route q op : (forall wild, preserves (behind I) (op wild)) ->
  preserves I (wild_route q op).
Proof. intros H. unfold wild_route. eauto 12 with frames. Qed.

Lemma reads_key_route req op failed : (forall key, preserves (behind I) (op key)) ->
  preserves I (key_route req op failed).
Proof. intros H. unfold key_route. eauto 12 with frames. Qed.

Lemma reads_body_route req init m : (forall x, preserves (behind (behind I)) (m x)) ->
  preserves I (body_route req init m).
Proof. intros H. unfold body_route. eauto 12 with frames. Qed.

Lemma reads_list_route req op : (forall x, preserves (behind I) (op x)) ->
  preserves I (list_route req op).
Proof. intros H. apply reads_body_route. intros x. eauto 12 with frames. Qed.

Create HintDb routes.

(** The routes that read *)
Definition read_paths : list string := [
  "/exists"; "/get"; "/getall"; "/getsorted"; "/getkeys"; "/getkeysmulti"; "/getcount"; "/iter";
  "/getjson"; "/getlist"; "/getitems"; "/getjoinedmap"; "/getkeysafter"; "/getkeyslast";
  "/searchjson"; "/geo/near"; "/backup"; "/ping"].

Abbreviation the_rules := (rules usable fuel uuid std_sort create getKeysMulti).
Abbreviation serving := (serve usable fuel uuid std_sort create getKeysMulti).

Lemma reads_guarded m : preserves I m -> preserves I (guarded m).
Proof.
  intros H w Hw. unfold guarded. specialize (H w Hw). by destruct (m w) as [[| | |] w'].
Qed.

Lemma reads_keys_error : preserves (behind I) keys_error.
Proof. intros [out w] H. unfold keys_error. by destruct (set_last _ _). Qed.

Lemma reads_error_text what : preserves (behind I) (handle_runtime_error_text what).
Proof. by intros [out w] H. Qed.
Hint Resolve reads_keys_error reads_error_text reads_wild_route reads_key_route reads_body_route
  reads_list_route : frames.

Lemma reads_getcount req : preserves I (route_core_getcount fuel req).
Proof.
  unfold route_core_getcount. apply preserves_bind; [|auto with frames]. apply preserves_returning.
  apply preserves_try; [|auto with frames]. destruct (wild (Parse req)); [auto with frames|].
  apply preserves_bind; [auto with frames|]. intros [sk l]. apply preserves_bind.
  - apply preserves_outer. intros w Hw. by destruct (getCount _ _ _ _ _ _).
  - intros [ok n]. eauto with frames.
Qed.

Lemma reads_getitems req : preserves I (route_core_getitems req).
Proof.
  apply reads_body_route. intros x. apply preserves_bind; [auto with frames|]. intros [sk l].
  apply preserves_bind; [|eauto with frames]. intros [out [rs w]] H.
  by destruct (getItems w x sk l out).
Qed.

Lemma reads_geonear req : preserves I (route_core_geonear usable fuel req).
Proof.
  unfold route_core_geonear. apply preserves_bind; [|auto with frames]. apply reads_with_locals.
  apply preserves_bind; [auto with frames|]. intros [sk l]. apply preserves_bind.
  - intros [out [rs w]] H. by destruct (geonear _ _ _ _ _ _ _) as [? [? ?]].
  - intros ok. eauto 12 with frames.
Qed.

Lemma reads_backup req : preserves I (route_core_backup create req).
Proof. unfold route_core_backup, backup. eauto 20 with frames. Qed.
Hint Resolve reads_getcount reads_getitems reads_geonear reads_backup : frames.

#[local] Hint Unfold route_core_getall route_core_getsorted route_core_existkey route_core_get
  route_core_getkeys route_core_getkeysmulti route_core_iter route_core_getjson route_core_getlist
  route_core_getjoinedmap route_core_getkeysafter route_core_getkeyslast route_core_searchjson
  route_ping : routes.

Lemma reads_rule r req : r ∈ the_rules -> path r ∈ read_paths -> preserves I (callback r req).
Proof.
  intros Hr Hp. apply list_elem_of_In in Hr. cbn in Hr.
  repeat (destruct Hr as [<-|Hr]; [try (exfalso; clear -Hp;
    repeat (apply elem_of_cons in Hp as [Hp|Hp]; [done|]); by apply elem_of_nil in Hp);
    cbn [callback on_get on_both]|]); [..|done]; clear Hp;
    autounfold with routes; eauto 20 with frames.
Qed.

Lemma reads_serve req : url req ∈ read_paths -> preserves I (serving req).
Proof.
  intros Hp. unfold serve. destruct (find_rule _ _ _ _ _ _ req) as [r|] eqn:E; [|auto with frames].
  apply List.find_some in E as [Hr%list_elem_of_In E%String.eqb_eq]. rewrite <- E in Hp.
  case_bool_decide; [|auto with frames]. by apply reads_guarded, reads_rule.
Qed.
End read_routes.

#[export] Hint Resolve reads_get reads_pair reads_exists reads_getJson reads_getList_out
  reads_searchJson reads_on_out reads_error reads_error_text reads_results_of reads_with_locals
  reads_keys_error : frames.

(** ** The properties *)

Section routes.
Context {plat : Platform} {R : RocksDB} {A : Arithmetic}.
Context (usable : Z -> Z) (fuel : nat) (uuid : string)
  (std_sort : (rvalue -> rvalue -> outcome bool) -> list rvalue -> outcome (list rvalue))
  (create : option DB -> string -> bool)
  (getKeysMulti : world -> string -> Z -> Z -> SM (list wvalue) bool).
Abbreviation serving := (serve usable fuel uuid std_sort create getKeysMulti).

(** the requests that read change nothing but the cache: whatever their
    parameters, body and method, and however they end, the store, the options
    and the messages to other nodes are those before. *)
Theorem reading_routes (req : request) (w : world) :
  url req ∈ read_paths -> same_store w (serving req w).2.
Proof. intros Hp. by apply (reads_serve usable fuel uuid std_sort create getKeysMulti w req Hp). Qed.

(** The routes with a window in their parameters, and with a pattern *)
Definition wild_paths : list string :=
  ["/getall"; "/getsorted"; "/getkeys"; "/getcount"; "/removeall"].

(** A window that is not numbers throws one of the two exceptions of [stoi],
    none of which is a [std::runtime_error]. *)
Lemma window_throws q : (forall sl, window q <> Ok sl) ->
  exists e, window q = Throw e /\ forall what, e <> RuntimeError what.
Proof.
  intros H. unfold window in *.
  destruct (stoi_outcome (skip q)) as [(z & E & _)|[E|E]]; rewrite E in *; cbn [obind] in *;
    try (by eexists); clear E.
  destruct (stoi_outcome (limit q)) as [(z' & E & _)|[E|E]]; rewrite E in *; cbn [obind] in *;
    [by destruct (H (z, z'))|by eexists..].
Qed.

Lemma wild_rules req w : url req ∈ wild_paths -> wild (Parse req) <> EmptyString ->
  (forall sl, window (Parse req) <> Ok sl) ->
  exists r e, find_rule usable fuel uuid std_sort create getKeysMulti req = Some r /\
    methods r = [GET] /\ callback r req w = (Throw e, w).
Proof.
  intros Hu Hwild (e & Ew & He)%window_throws.
  destruct (wild (Parse req)) as [|c wd] eqn:Ewild; [done|].
  unfold find_rule, wild_paths in *. 
  repeat (apply elem_of_cons in Hu as [->|Hu];
    [eexists _, e; split; [reflexivity|split; [reflexivity|]]|]); [..|by apply elem_of_nil in Hu].
  all: cbn [callback on_get]; unfold route_core_getall, route_core_getsorted,
    route_core_getkeys, route_core_getcount, route_core_removekeys, wild_route, results_of, with_locals; rewrite Ewild; unfold local, returning, try_runtime, outer, bind, lift;
    rewrite Ew; by destruct e; try (exfalso; by eapply He).
Qed.

(** Every path has one rule. *)
Lemma find_rule_of r req : r ∈ rules usable fuel uuid std_sort create getKeysMulti ->
  path r = url req -> find_rule usable fuel uuid std_sort create getKeysMulti req = Some r.
Proof.
  intros Hr%list_elem_of_In Hu. unfold find_rule. rewrite <- Hu. clear Hu.
  repeat (destruct Hr as [<-|Hr]; [reflexivity|]). destruct Hr.
Qed.

(** C25: a request for a path of the core with a method its rule does not take
    is answered 404; a request with a pattern whose skip or limit is not the
    text of an [int] is answered 500: the exceptions of [std::stoi] are not
    the [std::runtime_error] that the handlers catch.  Neither of them changes
    anything. *)
Theorem bad_requests (req : request) (w : world) :
  (forall r, r ∈ rules usable fuel uuid std_sort create getKeysMulti -> path r = url req ->
   method req ∉ methods r -> serving req w = (Ok (failure 404), w)) /\
  (url req ∈ wild_paths -> method req = GET -> wild (Parse req) <> EmptyString ->
   (forall sl, window (Parse req) <> Ok sl) ->
   serving req w = (Ok (failure 500), w)).
Proof.
  split.
  - intros r Hr Hu Hm. unfold serve. rewrite (find_rule_of r req Hr Hu).
    by rewrite bool_decide_eq_false_2.
  - intros Hu Hm Hwild Hwin.
    destruct (wild_rules req w Hu Hwild Hwin) as (r & e & E & Hg & Ec).
    unfold serve. rewrite E, Hm, bool_decide_eq_true_2 by (rewrite Hg; by left).
    unfold guarded. by rewrite Ec.
Qed.

(** [GET /get?key=...] *)
Definition get_request (key : string) : request :=
  {| method := GET; url := "/get"; url_params := [("key", key)]; req_body := EmptyString |}.

(** [POST /putjson] *)
Definition put_request (body : string) : request :=
  {| method := POST; url := "/putjson"; url_params := []; req_body := body |}.

Lemma load_keyed body key : r_at_s (load body) "key" = Ok key -> exists x, load body = Some x.
Proof. destruct (load body) as [x|]; [by eexists|done]. Qed.

(** C16: a pair posted to [/putjson] is answered by [{"result":true}], and a
    [/get] of its key is then answered by the printed value that was written:
    the posted one, with the members of the value stored before that it does
    not have, for two objects.  A write that fails is reported and changes
    nothing; when the value stored before is not JSON the answer is 500. *)
Theorem put_then_get {RL : RocksDBLaws} (body key : string) (pv : wvalue) (w : world) (d : DB) :
  opened w d -> r_at_s (load body) "key" = Ok key -> key <> EmptyString ->
  (let? v := r_at (load body) "value" in to_wvalue v) = Ok pv ->
  match merged_value (sm_lookup key (contents d)) pv with
  | Ok mv =>
      if (db_Put d key (dump mv)).1 then
        exists w', serving (put_request body) w
                   = (Ok {| code := 200; text := result_true; any_origin := true |}, w') /\
          put_effect d key (dump mv) w w' /\
          serving (get_request key) w'
          = (Ok {| code := 200; text := dump mv; any_origin := false |}, w')
      else
        exists w', serving (put_request body) w
                   = (Ok {| code := 200; any_origin := true;
                            text := q "{`result`:false,`error`:`data failed to save`}" |}, w') /\
          no_effect d w w'
  | _ => serving (put_request body) w = (Ok (failure 500), w)
  end.
Proof.
  intros Ho Hk Hne Hv. destruct (load_keyed body key Hk) as [x Hx].
  assert (forall r, put body (EmptyString, w) = r -> serving (put_request body) w
    = guarded (fun _ => let '(o, (out, w')) := r in
                        (let? _ := o in Ok (Response out), w')) w) as Hs.
  { intros r <-.
    change (serving (put_request body) w) with (guarded (route_core_putjson (put_request body)) w).
    unfold guarded, route_core_putjson, returning, bind, ret. cbn [req_body put_request].
    by destruct (put body (EmptyString, w)) as [[| | |] [? ?]]. }
  pose proof (insert_core false (load body) key EmptyString pv w d Ho Hk Hv) as Hi.
  cbn [andb] in Hi. unfold put, insert in Hs. rewrite Hx in Hs, Hi.
  destruct (merged_value _ pv) as [mv|e| |]; [|by destruct Hi as [out Hi]; rewrite (Hs _ Hi)|done..].
  destruct (db_Put d key (dump mv)).1; destruct Hi as (w' & Hr & He); exists w';
    (split; [by rewrite (Hs _ Hr)|]); [|done].
  split; [done|].
  change (serving (get_request key) w') with (guarded (route_core_get (get_request key)) w').
  unfold guarded, route_core_get, key_route, returning.
  change (key_of (get_request key)) with key.
  destruct key as [|c key]; [done|]. unfold try_runtime, bind, outer.
  by rewrite (get_stored _ _ _ _ _ _ He).
Qed.

(** [/getkeys] without the cache answers with the text of the page of the
    hits of its pattern, in the order of the keys.  A pattern with a leading star, which the core
    refuses, makes it write before the beginning of an empty string. *)
Theorem getkeys_answers {RL : RocksDBLaws} (req : request) (s l : Z) (w : world) (d : DB) :
  url req = "/getkeys" -> method req = GET -> reversed req = false ->
  window (Parse req) = Ok (s, l) -> wild (Parse req) <> EmptyString ->
  query_ok fuel w d s l -> CacheEnabled (cfg w) = false ->
  serving req w =
  if leading_star (wild (Parse req)) then (Undef, w)
  else (Ok {| code := 200; any_origin := true;
              text := keys_text (page s l (hits (wild (Parse req)) (contents d))) |}, w).
Proof.
  intros Hu Hm Hr Hw Hne Hok Hc.
  assert (serving req w = guarded (route_core_getkeys fuel req) w) as ->.
  { unfold serve, find_rule. rewrite Hu, Hm. reflexivity. }
  unfold guarded, route_core_getkeys, returning, try_runtime.
  destruct (wild (Parse req)) as [|c wd] eqn:Ewild; [done|].
  unfold bind, lift, reads. rewrite Hr, Hw.
  rewrite (getKeys_text fuel w d (String c wd) s l EmptyString) by done.
  by destruct (leading_star (String c wd)).
Qed.
End routes.

Section route_witnesses.
Import Demo.
#[local] Existing Instance int_arithmetic.

Definition no_threads : world -> string -> Z -> Z -> SM (list wvalue) bool :=
  fun _ _ _ _ => ret true.
Definition no_checkpoint : option DB -> string -> bool := fun _ _ => false.
Definition kept_order : (rvalue -> rvalue -> outcome bool) -> list rvalue -> outcome (list rvalue) :=
  fun _ l => Ok l.
#[local] Abbreviation demo_serve :=
  (serve (fun n => n) 10 "id" kept_order no_checkpoint no_threads).
Definition keys_request (pattern skip : string) : request :=
  {| method := GET; url := "/getkeys"; req_body := EmptyString;
     url_params := [("keys", pattern); ("skip", skip)] |}.

Theorem reading_routes_witness : same_store w (demo_serve (keys_request "user_*" "0") w).2.
Proof.
  apply (reading_routes (fun n => n) 10 "id" kept_order no_checkpoint no_threads
           (keys_request "user_*" "0") w).
  by apply (bool_decide_unpack _).
Defined.

Theorem bad_requests_witness :
  demo_serve {| method := POST; url := "/get"; url_params := []; req_body := EmptyString |} w
  = (Ok (failure 404), w) /\
  demo_serve (keys_request "user_*" "two") w = (Ok (failure 500), w).
Proof.
  split.
  - destruct (bad_requests (fun n => n) 10 "id" kept_order no_checkpoint no_threads
                {| method := POST; url := "/get"; url_params := []; req_body := EmptyString |} w)
      as [H _]. apply (H (on_get "/get" route_core_get)).
    + apply list_elem_of_In. right. right. left. reflexivity.
    + reflexivity.
    + by apply (bool_decide_unpack _).
  - apply (bad_requests (fun n => n) 10 "id" kept_order no_checkpoint no_threads).
    + by apply (bool_decide_unpack _).
    + reflexivity.
    + discriminate.
    + intros sl H. discriminate H.
Defined.

Theorem put_then_get_witness :
  exists w', demo_serve (put_request (q "{`key`:`user_1`,`value`:{`n`:5}}")) w
    = (Ok {| code := 200; text := result_true; any_origin := true |}, w') /\
  demo_serve (get_request "user_1") w'
    = (Ok {| code := 200; text := q "{`n`:5,`name`:`al`}"; any_origin := false |}, w').
Proof.
  destruct (put_then_get (fun n => n) 10 "id" kept_order no_checkpoint no_threads
              (q "{`key`:`user_1`,`value`:{`n`:5}}") "user_1" (WObj [("n", @WNum int_platform 5%Z)]) w d)
    as (w' & H1 & _ & H2); [apply demo_opened|reflexivity|discriminate|reflexivity|].
  exists w'. split; [exact H1|exact H2].
Defined.

Theorem getkeys_answers_witness :
  demo_serve (keys_request "user_*" "2") w
  = (Ok {| code := 200; text := q "{`result`:[{`key`:`user_3`,`value`:plain}]}";
           any_origin := true |}, w) /\
  demo_serve (keys_request "*" "0") w = (Undef, w).
Proof.
  split.
  - rewrite (getkeys_answers (fun n => n) 10 "id" kept_order no_checkpoint no_threads
               (keys_request "user_*" "2") 2 (-1) w d);
      [reflexivity|reflexivity..|discriminate|by apply demo_window|reflexivity].
  - rewrite (getkeys_answers (fun n => n) 10 "id" kept_order no_checkpoint no_threads
               (keys_request "*" "0") 0 (-1) w d);
      [reflexivity|reflexivity..|discriminate|by apply demo_window|reflexivity].
Defined.
End route_witnesses.
