(* ===== verification/Trie.v ===== *)
(** * The word index

    src/include/qsearch.hpp, [MMapTrie]: words with metadata in a trie, and the
    searches over it.  The nodes are reached by one pointer each, so the trie
    is a tree here; a word is the list of its characters.  The file behind the
    memory is in TrieFile.v; the mutex is not modelled.  A query is held as the
    part of it that is still to be compared. *)

From S2P Require Import Prelude.
Local Open Scope quarks_scope.

(** ** The nodes *)

Record WordData := { category : string; userData : string }.

(** [children]: the entries of the hash map, in the order in which it lists
    them *)
#[warnings="-register-all"]
Inductive TrieNode :=
  Node (isEndOfWord : bool) (metadata : list WordData) (children : list (ascii * TrieNode)).

Definition isEndOfWord (node : TrieNode) : bool := let 'Node e _ _ := node in e.
Definition metadata (node : TrieNode) : list WordData := let 'Node _ m _ := node in m.
Definition children (node : TrieNode) : list (ascii * TrieNode) := let 'Node _ _ l := node in l.

Abbreviation word := (list ascii).
Abbreviation result := (list (word * WordData)).

Definition empty_node : TrieNode := Node false [] [].

#[global] Instance WordData_eq_dec : EqDecision WordData.
Proof. solve_decision. Defined.

(** [node->children.find(ch)] *)
Fixpoint child (ch : ascii) (l : list (ascii * TrieNode)) : option TrieNode :=
  match l with
  | [] => None
  | (c, n) :: l => if Ascii.eqb c ch then Some n else child ch l
  end.

(** The child replaced by the node it has become *)
Fixpoint set_child (ch : ascii) (n : TrieNode) (l : list (ascii * TrieNode))
    : list (ascii * TrieNode) :=
  match l with
  | [] => []
  | (c, m) :: l => if Ascii.eqb c ch then (c, n) :: l else (c, m) :: set_child ch n l
  end.

(** [children.erase(ch)] *)
Fixpoint erase (ch : ascii) (l : list (ascii * TrieNode)) : list (ascii * TrieNode) :=
  match l with
  | [] => []
  | (c, m) :: l => if Ascii.eqb c ch then l else (c, m) :: erase ch l
  end.

Section trie.
(** [place ch n l]: the entries after a child is added; the hash map may list
    them in any order. *)
Context (place : ascii -> TrieNode -> list (ascii * TrieNode) -> list (ascii * TrieNode)).

Fixpoint insert (w : word) (d : WordData) (node : TrieNode) : TrieNode :=
  match w with
  | [] => Node true (metadata node ++ [d]) (children node)
  | ch :: w =>
      Node (isEndOfWord node) (metadata node)
        (match child ch (children node) with
         | None => place ch (insert w d empty_node) (children node)
         | Some c => set_child ch (insert w d c) (children node)
         end)
  end.

(** The node at the end of a path *)
Fixpoint find_node (w : word) (node : TrieNode) : option TrieNode :=
  match w with
  | [] => Some node
  | ch :: w => match child ch (children node) with
               | Some c => find_node w c
               | None => None
               end
  end.

Definition search (w : word) (root : TrieNode) : list WordData :=
  match find_node w root with
  | Some node => if isEndOfWord node then metadata node else []
  | None => []
  end.

(** [for (auto* data : node->metadata) results.push_back({current, *data});] *)
Definition found (current : word) (node : TrieNode) : result :=
  (fun d => (current, d)) <$> metadata node.

(** ** Fuzzy search *)

(** The results and the set of the words that are among them *)
Definition fuzzy_state : Type := result * list word.

Definition report (node : TrieNode) (current : word) (st : fuzzy_state) : fuzzy_state :=
  let '(results, uniqueWords) := st in
  if bool_decide (current ∈ uniqueWords) then st
  else (results ++ found current node, current :: uniqueWords).

Fixpoint fuzzySearchHelper (maxEdits : Z) (node : TrieNode) (query current : word) (edits : Z)
    (st : fuzzy_state) {struct node} : fuzzy_state :=
  if (maxEdits <? edits)%Z then st
  else
    let st := match query with
              | [] => if isEndOfWord node then report node current st else st
              | _ => st
              end in
    let st :=
      (fix loop l st :=
         match l with
         | [] => st
         | (ch, nextNode) :: l =>
             let st := match query with
                       | q :: query' =>
                           fuzzySearchHelper maxEdits nextNode query' (current ++ [ch])
                             (edits + if Ascii.eqb q ch then 0 else 1) st
                       | [] => st
                       end in
             let st := if (edits + 1 <=? maxEdits)%Z
                       then fuzzySearchHelper maxEdits nextNode query (current ++ [ch])
                              (edits + 1) st
                       else st in
             loop l st
         end) (children node) st in
    if (edits <=? maxEdits)%Z && isEndOfWord node then report node current st else st.

Definition fuzzySearch (query : word) (maxEdits : Z) (root : TrieNode) : result :=
  (fuzzySearchHelper maxEdits root query [] 0 ([], [])).1.

(** ** Prefixes and substrings *)

Fixpoint fuzzyPrefixHelper (maxEdits : Z) (node : TrieNode) (currentWord targetPrefix : word)
    (edits : Z) {struct node} : result :=
  if (maxEdits <? edits)%Z then []
  else
    match targetPrefix with
    | [] => if isEndOfWord node then found currentWord node else []
    | _ => []
    end ++
    (fix loop l :=
       match l with
       | [] => []
       | (ch, child) :: l =>
           match targetPrefix with
           | expectedChar :: targetPrefix' =>
               fuzzyPrefixHelper maxEdits child (currentWord ++ [ch]) targetPrefix'
                 (edits + if Ascii.eqb ch expectedChar then 0 else 1)
           | [] => fuzzyPrefixHelper maxEdits child (currentWord ++ [ch]) [] edits
           end ++ loop l
       end) (children node).

Definition fuzzyPrefixSearch (prefix : word) (maxEdits : Z) (root : TrieNode) : result :=
  fuzzyPrefixHelper maxEdits root [] prefix 0.

(** [currentWord.find(substring) != std::string::npos] *)
Fixpoint starts (p w : word) : bool :=
  match p, w with
  | [], _ => true
  | a :: p, b :: w => Ascii.eqb a b && starts p w
  | _, [] => false
  end.
Fixpoint contains (sub w : word) : bool :=
  starts sub w || match w with [] => false | _ :: w => contains sub w end.

Fixpoint substringSearchHelper (node : TrieNode) (substring currentWord : word) : result :=
  (if isEndOfWord node && contains substring currentWord then found currentWord node else []) ++
  (fix loop l :=
     match l with
     | [] => []
     | (ch, nextNode) :: l =>
         substringSearchHelper nextNode substring (currentWord ++ [ch]) ++ loop l
     end) (children node).

Definition substringSearch (substring : word) (root : TrieNode) : result :=
  substringSearchHelper root substring [].

Fixpoint collectWordsFromNode (node : TrieNode) (prefix : word) : result :=
  (if isEndOfWord node then found prefix node else []) ++
  (fix loop l :=
     match l with
     | [] => []
     | (ch, child) :: l => collectWordsFromNode child (prefix ++ [ch]) ++ loop l
     end) (children node).

Definition searchByPrefix (prefix : word) (root : TrieNode) : result :=
  match find_node prefix root with
  | Some node => collectWordsFromNode node prefix
  | None => []
  end.

(** ** Deleting *)

(** Change the node at the end of a path. *)
Fixpoint update_at (w : word) (f : TrieNode -> TrieNode) (node : TrieNode) : TrieNode :=
  match w with
  | [] => f node
  | ch :: w =>
      Node (isEndOfWord node) (metadata node)
        (match child ch (children node) with
         | Some c => set_child ch (update_at w f c) (children node)
         | None => children node
         end)
  end.

(** What is left of the metadata: all of it goes when no category and no user
    data is given. *)
Definition kept (category_ userData_ : string) (l : list WordData) : list WordData :=
  if String.eqb category_ EmptyString && String.eqb userData_ EmptyString then []
  else
    filterb (fun d => negb
      ((String.eqb category_ EmptyString || String.eqb (category d) category_) &&
       (String.eqb userData_ EmptyString || String.eqb (userData d) userData_))) l.

Definition remove_metadata (category_ userData_ : string) (node : TrieNode) : TrieNode :=
  if isEndOfWord node then
    let l := kept category_ userData_ (metadata node) in
    Node (match l with [] => false | _ => true end) l (children node)
  else node.

(** The node [n] without one child *)
Definition without (ch : ascii) (n : TrieNode) : TrieNode :=
  Node (isEndOfWord n) (metadata n) (erase ch (children n)).

(** The loop over the nodes of the path, from the last: the child that is
    erased from the node above is the one for the character before. *)
Fixpoint cleanup (w : word) (i : nat) (root : TrieNode) : TrieNode :=
  match i with
  | O => root
  | S j =>
      match find_node (take (S j) w) root with
      | Some (Node false _ []) =>
          cleanup w j
            (match j, w !! (j - 1) with
             | S _, Some ch => update_at (take j w) (without ch) root
             | _, _ => root
             end)
      | _ => root
      end
  end.

Definition deleteWord (w : word) (category_ userData_ : string) (root : TrieNode) : TrieNode :=
  match find_node w root with
  | Some _ => cleanup w (length w) (update_at w (remove_metadata category_ userData_) root)
  | None => root
  end.

Definition updateWord (oldWord newWord : word) (category_ userData_ : string) (root : TrieNode)
    : TrieNode :=
  insert newWord {| category := category_; userData := userData_ |}
    (deleteWord oldWord category_ userData_ root).
End trie.

(** ** The words of a trie *)

Lemma TrieNode_rect' (P : TrieNode -> Prop) :
  (forall e m l, Forall (fun p => P p.2) l -> P (Node e m l)) -> forall n, P n.
Proof.
  intros H. fix IH 1. intros [e m l]. apply H. induction l as [|[ch c] l IHl]; constructor; [apply IH|done].
Qed.

(** The children have different characters, and the ends of words are the nodes
    with metadata. *)
#[warnings="-register-all"]
Inductive wf : TrieNode -> Prop :=
  wf_node e m l : NoDup l.*1 -> Forall (fun p => wf p.2) l -> (e = true <-> m <> []) ->
                  wf (Node e m l).

Definition prepend (w : word) (p : word * WordData) : word * WordData := (w ++ p.1, p.2).

(** All words below a node, with their metadata, in the order of a traversal *)
Fixpoint entries (node : TrieNode) : result :=
  let 'Node e m l := node in
  (if e then (fun d => ([], d)) <$> m else []) ++
  (fix loop l :=
     match l with
     | [] => []
     | (ch, c) :: l => (prepend [ch] <$> entries c) ++ loop l
     end) l.

Definition below (l : list (ascii * TrieNode)) : result :=
  flat_map (fun p => prepend [p.1] <$> entries p.2) l.

Lemma entries_node e m l :
  entries (Node e m l) = (if e then (fun d => ([], d)) <$> m else []) ++ below l.
Proof.
  cbn [entries]. f_equal. unfold below. induction l as [|[ch c] l IH]; cbn [flat_map]; [done|].
  by rewrite IH.
Qed.

Lemma prepend_app u v (l : result) : prepend u <$> (prepend v <$> l) = prepend (u ++ v) <$> l.
Proof.
  rewrite <- list_fmap_compose. apply list_fmap_ext. intros _ [w d] _. unfold prepend. cbn.
  by rewrite app_assoc.
Qed.

Lemma prepend_nil (l : result) : prepend [] <$> l = l.
Proof. rewrite <- (list_fmap_id l) at 2. apply list_fmap_ext. by intros _ [w d] _. Qed.

Lemma found_prepend cur n : found cur n = prepend cur <$> ((fun d => ([], d)) <$> metadata n).
Proof.
  unfold found. rewrite <- list_fmap_compose. apply list_fmap_ext. intros _ d _. unfold prepend. cbn.
  by rewrite app_nil_r.
Qed.

(** A search that keeps the entries that pass a test *)
Lemma filterb_below (f : word * WordData -> bool) ch n l :
  filterb f (below ((ch, n) :: l)) =
  (prepend [ch] <$> filterb (fun p => f (prepend [ch] p)) (entries n)) ++ filterb f (below l).
Proof.
  unfold below. cbn [flat_map fst snd]. rewrite filter_app. f_equal.
  induction (entries n) as [|p ps IH]; [done|]. rewrite fmap_cons, !filter_cons.
  destruct (decide _); [|exact IH]. rewrite fmap_cons. by f_equal.
Qed.

Lemma filterb_true {X} (f : X -> bool) (l : list X) : (forall x, x ∈ l -> f x = true) -> filterb f l = l.
Proof. intros H. induction l as [|x l IH]; [done|]. rewrite filter_cons_True by (apply H; left).
  f_equal. apply IH. intros y Hy. apply H. by right. Qed.
Lemma filterb_false {X} (f : X -> bool) (l : list X) : (forall x, x ∈ l -> f x = false) -> filterb f l = [].
Proof. intros H. induction l as [|x l IH]; [done|].
  rewrite filter_cons_False by (rewrite H; [done|left]). apply IH. intros y Hy. apply H. by right. Qed.

Lemma filterb_ends (f : word * WordData -> bool) (b : bool) (m : list WordData) :
  (forall d, f ([], d) = b) ->
  filterb f ((fun d => ([], d)) <$> m) = if b then (fun d => ([], d)) <$> m else [].
Proof.
  intros H. destruct b; [apply filterb_true|apply filterb_false]; intros x Hx;
    apply list_elem_of_fmap in Hx as (d & -> & _); apply H.
Qed.

(** [collectWordsFromNode] lists all entries. *)
Lemma collect_entries n cur : collectWordsFromNode n cur = prepend cur <$> entries n.
Proof.
  revert cur. induction n as [e m l IH] using TrieNode_rect'. intros cur.
  cbn [collectWordsFromNode isEndOfWord children]. rewrite entries_node, fmap_app. f_equal.
  - destruct e; [|done]. apply found_prepend.
  - unfold below. induction IH as [|[ch c] l Hc _ IHl]; [done|]. cbn [flat_map fst snd].
    rewrite fmap_app, IHl. f_equal. rewrite Hc. cbn [snd]. by rewrite prepend_app.
Qed.

Lemma substring_entries n sub cur :
  substringSearchHelper n sub cur
  = prepend cur <$> filterb (fun p => contains sub (cur ++ p.1)) (entries n).
Proof.
  revert cur. induction n as [e m l IH] using TrieNode_rect'. intros cur.
  cbn [substringSearchHelper isEndOfWord children]. rewrite entries_node, filter_app, fmap_app. f_equal.
  - destruct e; cbn [andb]; [|done].
    rewrite (filterb_ends _ (contains sub cur)) by (intros d; cbn; by rewrite app_nil_r).
    destruct (contains sub cur); [apply found_prepend|done].
  - induction IH as [|[ch c] l Hc _ IHl]; [done|]. rewrite filterb_below, fmap_app, <- IHl.
    f_equal. rewrite Hc, prepend_app. cbn [snd]. f_equal. apply list_filter_iff.
    intros [w d]. cbn. by rewrite <- app_assoc.
Qed.

(** The number of characters in which a word differs from a prefix, when it is
    long enough *)
Fixpoint mismatches (p w : word) : option Z :=
  match p, w with
  | [], _ => Some 0%Z
  | _ :: _, [] => None
  | a :: p, b :: w => Z.add (if Ascii.eqb b a then 0 else 1) <$> mismatches p w
  end.
Definition near_prefix (p : word) (k : Z) (w : word) : bool :=
  match mismatches p w with Some n => (n <=? k)%Z | None => false end.

Lemma mismatches_nonneg p w n : mismatches p w = Some n -> (0 <= n)%Z.
Proof.
  revert w n. induction p as [|a p IH]; intros w n; cbn; [by intros [= <-]|].
  destruct w as [|b w]; [done|]. destruct (mismatches p w) as [k|] eqn:E; [|done].
  intros [= <-]. pose proof (IH _ _ E). destruct (Ascii.eqb b a); lia.
Qed.

Lemma near_prefix_cons a p k b w :
  near_prefix (a :: p) k (b :: w) = near_prefix p (k - if Ascii.eqb b a then 0 else 1) w.
Proof.
  unfold near_prefix. cbn [mismatches]. destruct (mismatches p w) as [n|]; [|done]. cbn.
  destruct (Ascii.eqb b a);
    match goal with |- (?x <=? ?y)%Z = (?u <=? ?v)%Z => destruct (Z.leb_spec x y), (Z.leb_spec u v); lia end.
Qed.

Lemma fuzzyPrefix_entries k n cur p e :
  fuzzyPrefixHelper k n cur p e
  = prepend cur <$> filterb (fun x => near_prefix p (k - e) x.1) (entries n).
Proof.
  revert cur p e. induction n as [en m l IH] using TrieNode_rect'. intros cur p e.
  cbn [fuzzyPrefixHelper isEndOfWord children]. destruct (Z.ltb_spec k e) as [He|He].
  { rewrite filterb_false; [done|]. intros [w d] _. unfold near_prefix. cbn [fst].
    destruct (mismatches p w) as [x|] eqn:E; [|done]. apply mismatches_nonneg in E.
    destruct (Z.leb_spec x (k - e)); lia. }
  rewrite entries_node, filter_app, fmap_app. f_equal.
  - destruct p as [|a p].
    + destruct en; [|done]. rewrite (filterb_ends _ true); [apply found_prepend|].
      intros d. unfold near_prefix. cbn. destruct (Z.leb_spec 0 (k - e)); lia.
    + destruct en; [|done]. by rewrite (filterb_ends _ false).
  - induction IH as [|[ch c] l Hc _ IHl]; [done|]. rewrite filterb_below, fmap_app, <- IHl.
    f_equal. rewrite prepend_app. cbn [snd] in Hc. destruct p as [|a p]; rewrite Hc; f_equal;
      apply list_filter_iff; intros [w d]; unfold prepend; cbn [fst app].
    rewrite near_prefix_cons.
    by replace (k - (e + (if Ascii.eqb ch a then 0 else 1)))%Z
      with (k - e - (if Ascii.eqb ch a then 0 else 1))%Z by lia.
Qed.

(** ** Looking up *)

Lemma child_elem ch n l : NoDup l.*1 -> child ch l = Some n <-> (ch, n) ∈ l.
Proof.
  induction l as [|[c m] l IH]; cbn.
  - intros _. split; [done|]. by intros ?%elem_of_nil.
  - intros [Hc Hn]%NoDup_cons. rewrite elem_of_cons. destruct (Ascii.eqb_spec c ch) as [->|Hne].
    + split; [intros [= ->]; by left|]. intros [[= ->]|H]; [done|].
      destruct Hc. by apply (list_elem_of_fmap_2 fst) in H.
    + rewrite IH by done. split; [by right|]. by intros [[= <- _]|].
Qed.

Lemma search_cons ch w e m l :
  search (ch :: w) (Node e m l) = match child ch l with Some c => search w c | None => [] end.
Proof. unfold search. cbn [find_node children]. by destruct (child ch l). Qed.

Lemma below_elem w d l : (w, d) ∈ below l <->
  exists ch c s, (ch, c) ∈ l /\ w = ch :: s /\ (s, d) ∈ entries c.
Proof.
  unfold below. rewrite list_elem_of_In, in_flat_map. split.
  - intros ([ch c] & Hc & H). apply list_elem_of_In in Hc, H.
    apply list_elem_of_fmap in H as ([s d'] & [= -> ->] & Hs). by exists ch, c, s.
  - intros (ch & c & s & Hc & -> & Hs). exists (ch, c). split; [by apply list_elem_of_In|].
    apply list_elem_of_In. by apply (list_elem_of_fmap_2 (prepend [ch]) _ (s, d)).
Qed.

(** The entries are what [search] finds. *)
Lemma entries_search n w d : wf n -> (w, d) ∈ entries n <-> d ∈ search w n.
Proof.
  revert w. induction n as [e m l IH] using TrieNode_rect'. intros w Hwf.
  inversion Hwf as [? ? ? Hn Hl He]; subst. rewrite entries_node, elem_of_app, below_elem.
  rewrite Forall_forall in IH, Hl. destruct w as [|ch w].
  - unfold search. cbn [find_node isEndOfWord metadata]. split.
    + intros [H|(? & ? & ? & _ & ? & _)]; [|done]. destruct e; [|by apply elem_of_nil in H].
      by apply list_elem_of_fmap in H as (? & [= <-] & ?).
    + intros H. left. destruct e; [|by apply elem_of_nil in H]. by apply (list_elem_of_fmap_2 (fun d => ([], d))).
  - rewrite search_cons. split.
    + intros [H|(ch' & c & s & Hc & [= <- <-] & Hs)].
      { destruct e; [|by apply elem_of_nil in H]. by apply list_elem_of_fmap in H as (? & ? & _). }
      pose proof (proj2 (child_elem ch c l Hn) Hc) as ->. by apply (IH _ Hc), Hs; apply (Hl _ Hc).
    + intros H. destruct (child ch l) as [c|] eqn:Ec; [|by apply elem_of_nil in H].
      apply child_elem in Ec; [|done]. right. exists ch, c, w.
      repeat split; [done|]. by apply (IH _ Ec); [apply (Hl _ Ec)|].
Qed.

Lemma starts_cons_nil p : starts p [] = match p with [] => true | _ => false end.
Proof. by destruct p. Qed.

(** The entries whose word starts with a prefix are those below its node. *)
Lemma prefix_entries p n : wf n ->
  filterb (fun x => starts p x.1) (entries n)
  = match find_node p n with Some c => prepend p <$> entries c | None => [] end.
Proof.
  revert n. induction p as [|a p IH]; intros [e m l] Hwf.
  { cbn [find_node]. by rewrite prepend_nil, filterb_true. }
  inversion Hwf as [? ? ? Hn Hl He]; subst. cbn [find_node children].
  rewrite entries_node, filter_app.
  replace (filterb (fun x => starts (a :: p) x.1) (if e then (fun d => ([], d)) <$> m else []))
    with (@nil (word * WordData)) by (destruct e; [by rewrite (filterb_ends _ false)|done]).
  cbn [app]. clear Hwf He m e. induction Hl as [|[ch c] l Hc _ IHl]; [done|].
  apply NoDup_cons in Hn as [Hch Hn]. rewrite filterb_below, (IHl Hn). cbn [child].
  cbn [prepend fst app starts snd] in *. destruct (Ascii.eqb_spec ch a) as [->|Hne].
  - rewrite Ascii.eqb_refl. cbn [andb]. rewrite IH by done.
    assert (child a l = None) as ->.
    { destruct (child a l) as [c'|] eqn:E; [|done]. apply child_elem in E; [|done].
      by apply (list_elem_of_fmap_2 fst) in E. }
    rewrite app_nil_r. destruct (find_node p c); [|done]. by rewrite prepend_app.
  - rewrite filterb_false; [done|]. intros [w d] _. cbn.
    destruct (Ascii.eqb_spec a ch); [by subst|done].
Qed.

(** ** Changing a node *)

Lemma child_set_child x ch n l :
  child x (set_child ch n l)
  = if Ascii.eqb ch x then (if child ch l is Some _ then Some n else None) else child x l.
Proof.
  induction l as [|[c m] l IH]; cbn; [by destruct (Ascii.eqb ch x)|].
  destruct (Ascii.eqb_spec c ch) as [->|Hc]; cbn.
  - by destruct (Ascii.eqb_spec ch x).
  - rewrite IH. destruct (Ascii.eqb_spec c x) as [->|]; [|done]. by destruct (Ascii.eqb_spec ch x).
Qed.

Lemma set_child_keys ch n l : (set_child ch n l).*1 = l.*1.
Proof.
  induction l as [|[c m] l IH]; [done|]. cbn. destruct (Ascii.eqb_spec c ch) as [->|]; cbn; congruence.
Qed.
Lemma set_child_forall (P : TrieNode -> Prop) ch n l :
  P n -> Forall (fun p => P p.2) l -> Forall (fun p => P p.2) (set_child ch n l).
Proof. intros Hn. induction 1 as [|[c m] l Hm Hl IH]; cbn; [done|]. destruct (Ascii.eqb c ch); by constructor. Qed.

Lemma erase_forall (P : ascii * TrieNode -> Prop) ch l : Forall P l -> Forall P (erase ch l).
Proof. induction 1 as [|[c m] l Hm Hl IH]; cbn; [done|]. destruct (Ascii.eqb c ch); [done|by constructor]. Qed.
Lemma erase_keys ch l : NoDup l.*1 -> NoDup (erase ch l).*1.
Proof.
  induction l as [|[c m] l IH]; cbn; [done|]. intros [Hc Hn]%NoDup_cons.
  destruct (Ascii.eqb c ch); [done|]. cbn. constructor; [|by apply IH]. intros H. apply Hc.
  apply list_elem_of_fmap in H as (p & Hp & Hin). apply list_elem_of_fmap. exists p. split; [done|].
  assert (Forall (fun p => p ∈ l) (erase ch l)) as Hl by (by apply erase_forall, Forall_forall).
  rewrite Forall_forall in Hl. by apply Hl.
Qed.
Lemma child_erase x ch l : NoDup l.*1 ->
  child x (erase ch l) = if Ascii.eqb ch x then None else child x l.
Proof.
  induction l as [|[c m] l IH]; cbn; [by destruct (Ascii.eqb ch x)|].
  intros [Hc Hn]%NoDup_cons. destruct (Ascii.eqb_spec c ch) as [->|Hne]; cbn.
  - destruct (Ascii.eqb_spec ch x) as [->|]; [|done]. destruct (child x l) as [n|] eqn:E; [|done].
    apply child_elem in E; [|done]. by apply (list_elem_of_fmap_2 fst) in E.
  - rewrite IH by done. destruct (Ascii.eqb_spec c x) as [->|]; [|done]. by destruct (Ascii.eqb_spec ch x).
Qed.

Lemma child_wf ch n e m l : wf (Node e m l) -> child ch l = Some n -> wf n.
Proof.
  inversion 1 as [? ? ? Hn Hl _]; subst. intros E%child_elem; [|done].
  rewrite Forall_forall in Hl. apply (Hl _ E).
Qed.
Lemma find_node_wf w n n' : wf n -> find_node w n = Some n' -> wf n'.
Proof.
  revert n. induction w as [|c w IH]; intros [e m l] Hn; cbn; [by intros [= <-]|].
  destruct (child c l) as [k|] eqn:E; [|done]. apply IH. by eapply child_wf.
Qed.
Lemma empty_wf : wf empty_node.
Proof. by repeat constructor. Qed.

(** The rest of a word after a prefix *)
Fixpoint strip (p w : word) : option word :=
  match p, w with
  | [], _ => Some w
  | a :: p, b :: w => if Ascii.eqb a b then strip p w else None
  | _ :: _, [] => None
  end.
Lemma strip_spec p w s : strip p w = Some s <-> w = p ++ s.
Proof.
  revert w. induction p as [|a p IH]; intros [|b w]; cbn; try (split; congruence).
  destruct (Ascii.eqb_spec a b) as [->|]; [rewrite IH|]; split; congruence.
Qed.
Lemma strip_none p w : strip p w = None <-> ~ p `prefix_of` w.
Proof.
  split.
  - intros H [s Hs]. apply (proj2 (strip_spec p w s)) in Hs. congruence.
  - intros H. destruct (strip p w) as [s|] eqn:E; [|done]. apply strip_spec in E. destruct H. by exists s.
Qed.

Lemma search_app p s n :
  search (p ++ s) n = match find_node p n with Some c => search s c | None => [] end.
Proof.
  revert n. induction p as [|a p IH]; intros [e m l]; [done|]. cbn [app find_node children].
  rewrite search_cons. by destruct (child a l).
Qed.

(** Searching after a node was changed *)
Lemma search_update x w f n :
  search x (update_at w f n)
  = match strip w x with
    | Some s => match find_node w n with Some c => search s (f c) | None => [] end
    | None => search x n
    end.
Proof.
  revert x n. induction w as [|a w IH]; intros x [e m l]; [done|]. cbn [update_at children].
  destruct x as [|b x]; [done|]. rewrite !search_cons. cbn [strip find_node children].
  destruct (child a l) as [c|] eqn:E.
  - rewrite child_set_child, E. destruct (Ascii.eqb_spec a b) as [<-|]; [|done]. by rewrite IH, E.
  - destruct (Ascii.eqb_spec a b) as [<-|]; [|done]. rewrite E. by destruct (strip w x).
Qed.

Lemma update_wf w f n :
  wf n -> (forall c, wf c -> wf (f c)) -> wf (update_at w f n).
Proof.
  intros Hn Hf. revert n Hn. induction w as [|a w IH]; intros n Hn; [by apply Hf|].
  destruct n as [e m l]. inversion Hn as [? ? ? Hd Hl He]; subst. cbn.
  destruct (child a l) as [c|] eqn:E; [|by constructor].
  constructor; [by rewrite set_child_keys|apply set_child_forall; [apply IH; by eapply child_wf|done]|done].
Qed.

(** ** Inserting and deleting *)

Lemma search_insert_nil place x d n : wf n ->
  search x (insert place [] d n) = match x with [] => search [] n ++ [d] | _ => search x n end.
Proof.
  destruct n as [e m l]. inversion 1 as [? ? ? _ _ He]; subst. destruct x as [|b x]; [|done]. cbn.
  unfold search. cbn. destruct e; [done|]. destruct m as [|d' m]; [done|]. by specialize (proj2 He ltac:(done)).
Qed.

Section inserting.
Context (place : ascii -> TrieNode -> list (ascii * TrieNode) -> list (ascii * TrieNode)).
Hypothesis Hplace : forall ch n l, place ch n l ≡ₚ (ch, n) :: l.

Lemma child_place x ch n l : NoDup l.*1 -> child ch l = None ->
  NoDup (place ch n l).*1 /\ child x (place ch n l) = if Ascii.eqb ch x then Some n else child x l.
Proof.
  intros Hn Hc. assert (NoDup ((ch, n) :: l).*1) as Hd.
  { apply NoDup_cons. split; [|done]. intros ([c m] & Hch & Hin)%list_elem_of_fmap.
    cbn in Hch; subst c. apply child_elem in Hin; [congruence|done]. }
  assert (NoDup (place ch n l).*1) as Hd' by (by rewrite Hplace). split; [done|].
  transitivity (child x ((ch, n) :: l)); [|done]. apply option_eq. intros c.
  by rewrite !child_elem, Hplace by done.
Qed.

Lemma insert_wf w d n : wf n -> wf (insert place w d n).
Proof.
  revert n. induction w as [|a w IH]; intros [e m l] Hn; inversion Hn as [? ? ? Hd Hl He]; subst; cbn.
  - constructor; [done|done|]. by destruct m.
  - destruct (child a l) as [c|] eqn:E; constructor; try done.
    + by rewrite set_child_keys.
    + apply set_child_forall; [apply IH; by eapply child_wf|done].
    + by apply (child_place a).
    + rewrite Hplace. constructor; [apply IH, empty_wf|done].
Qed.

Lemma search_insert x w d n : wf n ->
  search x (insert place w d n) = if decide (x = w) then search w n ++ [d] else search x n.
Proof.
  revert x n. induction w as [|a w IH]; intros x [e m l] Hn.
  { rewrite search_insert_nil by done. by destruct x. }
  cbn [insert children]. inversion Hn as [? ? ? Hd Hl He]; subst.
  destruct x as [|b x]; [by rewrite decide_False|]. rewrite !search_cons.
  transitivity (if Ascii.eqb a b then
                  (if decide (x = w) then search (a :: w) (Node e m l) ++ [d]
                   else search (a :: x) (Node e m l))
                else search (b :: x) (Node e m l)); rewrite !search_cons.
  - destruct (child a l) as [c|] eqn:E.
    + rewrite child_set_child, E. destruct (Ascii.eqb_spec a b) as [<-|]; [|done].
      apply IH. by eapply child_wf.
    + destruct (child_place b a (insert place w d empty_node) l) as [_ ->]; [done|done|].
      destruct (Ascii.eqb_spec a b) as [<-|]; [|done]. rewrite IH by apply empty_wf.
      assert (forall y, search y empty_node = []) as Hs by (by intros [|y ys]). by rewrite !Hs.
  - destruct (Ascii.eqb_spec a b) as [<-|].
    + destruct (decide (x = w)), (decide (a :: x = a :: w)); congruence.
    + rewrite decide_False by congruence. done.
Qed.
End inserting.

Lemma search_remove w c u x n :
  search x (update_at w (remove_metadata c u) n)
  = if decide (x = w) then match find_node w n with Some _ => kept c u (search w n) | None => search w n end
    else search x n.
Proof.
  rewrite search_update. destruct (strip w x) as [s|] eqn:E.
  - apply strip_spec in E as ->. rewrite search_app. destruct (find_node w n) as [[e m l]|] eqn:Ew.
    + destruct s as [|b s].
      * pose proof (search_app w [] n) as Hs. rewrite app_nil_r, Ew in Hs.
        rewrite app_nil_r, decide_True, Hs by done.
        unfold search, remove_metadata. cbn. destruct e; cbn.
        { by destruct (kept c u m). }
        unfold kept. by destruct (String.eqb c EmptyString && String.eqb u EmptyString).
      * rewrite decide_False by (intros ?%(f_equal length); rewrite length_app in *; cbn in *; lia).
        unfold remove_metadata. cbn. by destruct e.
    + destruct (decide _); [|done]. unfold search. by rewrite Ew.
  - rewrite decide_False; [done|]. intros ->. apply strip_none in E. by destruct E.
Qed.

Lemma remove_wf c u n : wf n -> wf (remove_metadata c u n).
Proof.
  intros Hn. destruct n as [e m l]. inversion Hn as [? ? ? Hd Hl He]; subst.
  unfold remove_metadata. cbn. destruct e; [|done]. constructor; [done|done|].
  by destruct (kept c u m).
Qed.

Lemma without_wf ch n : wf n -> wf (without ch n).
Proof.
  intros Hn. destruct n as [e m l]. inversion Hn as [? ? ? Hd Hl He]; subst. by constructor; [apply erase_keys|apply erase_forall|].
Qed.

Lemma search_without ch p x n : wf n ->
  search x (update_at p (without ch) n)
  = if decide ((p ++ [ch]) `prefix_of` x) then [] else search x n.
Proof.
  intros Hn. rewrite search_update. destruct (strip p x) as [s|] eqn:E.
  - apply strip_spec in E as ->. rewrite search_app. destruct (find_node p n) as [c|] eqn:Ep;
      [|by destruct (decide _)].
    pose proof (find_node_wf _ _ _ Hn Ep) as Hc. destruct c as [e m l].
    inversion Hc as [? ? ? Hd Hl He]; subst. destruct s as [|b s].
    + rewrite decide_False; [done|]. intros Hp%prefix_length. rewrite !length_app in Hp. cbn in Hp. lia.
    + unfold without. cbn [isEndOfWord metadata children]. rewrite !search_cons, child_erase by done.
      destruct (Ascii.eqb_spec ch b) as [<-|Hne].
      * rewrite decide_True; [done|]. exists s. by rewrite <- app_assoc.
      * rewrite decide_False; [done|]. intros [t Ht]. rewrite <- app_assoc in Ht.
        apply app_inv_head in Ht. cbn in Ht. congruence.
  - rewrite decide_False; [done|]. intros Hp. apply strip_none in E. destruct E.
    etransitivity; [|exact Hp]. by eexists.
Qed.

(** A child erased for another character than the one on the path: the words
    below it are lost. *)
Definition cut_off (w : word) (i : nat) (x : word) : Prop :=
  exists j a b, 0 < j < i /\ w !! (j - 1) = Some a /\ w !! j = Some b /\ a <> b /\
                (take j w ++ [a]) `prefix_of` x.

Lemma cut_off_self w i : ~ cut_off w i w.
Proof.
  intros (j & a & b & Hj & _ & Hb & Hne & [s Hs]). apply Hne.
  pose proof (lookup_lt_Some _ _ _ Hb) as Hlt. rewrite Hs, <- app_assoc in Hb.
  rewrite lookup_app_r in Hb by (rewrite length_take; lia).
  rewrite length_take, Nat.min_l, Nat.sub_diag in Hb by lia. by injection Hb.
Qed.

Lemma search_empty x w m n :
  find_node w n = Some (Node false m []) -> w `prefix_of` x -> search x n = [].
Proof. intros Hw [s ->]. rewrite search_app, Hw. by destruct s. Qed.

Lemma cleanup_step w j ch b m n x :
  wf n -> w !! j = Some ch -> w !! S j = Some b ->
  find_node (take (S (S j)) w) n = Some (Node false m []) ->
  search x (update_at (take (S j) w) (without ch) n) = search x n \/
  search x (update_at (take (S j) w) (without ch) n) = [] /\ cut_off w (S (S j)) x.
Proof.
  intros Hn Hj Hb Hnode. rewrite search_without by done.
  destruct (decide _) as [Hp|]; [|by left]. destruct (decide (ch = b)) as [->|Hne].
  - left. symmetry. eapply search_empty; [exact Hnode|]. by rewrite (take_S_r _ _ _ Hb).
  - right. split; [done|]. exists (S j), ch, b. rewrite Nat.sub_succ, Nat.sub_0_r.
    repeat split; try done; lia.
Qed.

Lemma cut_off_le w i i' x : i <= i' -> cut_off w i x -> cut_off w i' x.
Proof. intros Hi (j & a & b & Hj & H). exists j, a, b. split; [lia|done]. Qed.

Lemma cleanup_spec w i n : i <= length w -> wf n ->
  wf (cleanup w i n) /\
  forall x, search x (cleanup w i n) = search x n \/ search x (cleanup w i n) = [] /\ cut_off w i x.
Proof.
  revert n. induction i as [|j IH]; intros n Hi Hn; [split; [done|by left]|].
  cbn [cleanup]. destruct (find_node (take (S j) w) n) as [[[|] m [|p l]]|] eqn:Ew;
    try (split; [done|by left]).
  destruct j as [|j]; [split; [done|by left]|].
  destruct (lookup_lt_is_Some_2 w j) as [ch Hch]; [lia|].
  destruct (lookup_lt_is_Some_2 w (S j)) as [b Hb]; [lia|].
  rewrite Nat.sub_succ, Nat.sub_0_r, Hch.
  destruct (IH (update_at (take (S j) w) (without ch) n)) as [Hwf Hs]; [lia|
    by apply update_wf; [|intros; apply without_wf]|].
  split; [done|]. intros x. destruct (Hs x) as [->|[-> Hc]].
  - by eapply cleanup_step.
  - right. split; [done|]. by eapply cut_off_le, Hc; lia.
Qed.

(** ** What the operations do *)

(** [insert] appends the metadata of a word to what the word has, changes
    no other word, and keeps the trie well formed. *)
Theorem trie_insert place w d n :
  (forall ch c l, place ch c l ≡ₚ (ch, c) :: l) -> wf n ->
  wf (insert place w d n) /\
  search w (insert place w d n) = search w n ++ [d] /\
  forall x, x <> w -> search x (insert place w d n) = search x n.
Proof.
  intros Hp Hn. split; [by apply insert_wf|]. split.
  - by rewrite search_insert, decide_True.
  - intros x Hx. by rewrite search_insert, decide_False.
Qed.

(** C22. [deleteWord] takes from a word the metadata that matches the category
    and the user data and keeps the trie well formed; another word is
    untouched, or it is lost because the clean-up erased the child for the
    character before instead of the empty node. *)
Theorem trie_delete w c u n : wf n ->
  wf (deleteWord w c u n) /\
  search w (deleteWord w c u n) = kept c u (search w n) /\
  forall x, x <> w -> search x (deleteWord w c u n) = search x n \/
    search x (deleteWord w c u n) = [] /\ cut_off w (length w) x.
Proof.
  intros Hn. unfold deleteWord. destruct (find_node w n) as [nw|] eqn:Ew.
  - destruct (cleanup_spec w (length w) (update_at w (remove_metadata c u) n)) as [Hwf Hs]; [done|
      by apply update_wf; [|apply remove_wf]|].
    split; [done|]. split.
    + destruct (Hs w) as [->|[_ []%cut_off_self]]. by rewrite search_remove, decide_True, Ew.
    + intros x Hx. destruct (Hs x) as [->|?]; [left|by right]. by rewrite search_remove, decide_False.
  - split; [done|]. split; [|by left]. unfold search. rewrite Ew.
    unfold kept. by destruct (_ && _).
Qed.

Definition example_place (ch : ascii) (c : TrieNode) (l : list (ascii * TrieNode)) := (ch, c) :: l.
Definition example_data : WordData := {| category := "animal"; userData := "1" |}.
Definition example_word (s : string) : word := list_ascii_of_string s.
Definition example_trie : TrieNode :=
  insert example_place (example_word "ab") example_data
    (insert example_place (example_word "aa") example_data
       (insert example_place (example_word "abc") example_data empty_node)).

Lemma example_trie_wf : wf example_trie.
Proof. by repeat (apply insert_wf; [done|]); apply empty_wf. Qed.

Lemma trie_insert_witness :
  search (example_word "ab") example_trie = [example_data] /\
  wf example_trie /\ search (example_word "aa") example_trie = [example_data].
Proof.
  destruct (trie_insert example_place (example_word "ab") example_data
              (insert example_place (example_word "aa") example_data
                 (insert example_place (example_word "abc") example_data empty_node)))
    as (Hwf & Hs & Hx).
  - done.
  - by repeat (apply insert_wf; [done|]); apply empty_wf.
  - split; [exact Hs|]. split; [exact Hwf|]. apply (Hx (example_word "aa")). discriminate.
Defined.

(** Deleting "ab" takes "aa" with it: the child for "a" is erased, not the one
    for "b". *)
Lemma trie_delete_witness :
  let t := insert example_place (example_word "ab") example_data
             (insert example_place (example_word "aa") example_data empty_node) in
  let t' := deleteWord (example_word "ab") "animal" "" t in
  search (example_word "ab") t' = [] /\
  search (example_word "aa") t = [example_data] /\ search (example_word "aa") t' = [] /\
  cut_off (example_word "ab") 2 (example_word "aa").
Proof.
  cbn zeta.
  destruct (trie_delete (example_word "ab") "animal" ""
              (insert example_place (example_word "ab") example_data
                 (insert example_place (example_word "aa") example_data empty_node)))
    as (_ & Hs & Hx).
  { by repeat (apply insert_wf; [done|]); apply empty_wf. }
  destruct (Hx (example_word "aa")) as [H|[H1 H2]]; [discriminate|vm_compute in H; discriminate H|].
  split; [exact Hs|]. split; [reflexivity|]. split; [exact H1|exact H2].
Defined.

(** ** Fuzzy search *)

(** How [fuzzySearch] counts edits: a character of the word stands for one of
    the query or is extra; characters of the query are not skipped, but those
    after the end of the word do not count. *)
Inductive edits_to : word -> word -> Z -> Prop :=
  | edits_stop q : edits_to q [] 0
  | edits_match a q w k : edits_to q w k -> edits_to (a :: q) (a :: w) k
  | edits_change a b q w k : a <> b -> edits_to q w k -> edits_to (a :: q) (b :: w) (k + 1)
  | edits_extra b q w k : edits_to q w k -> edits_to q (b :: w) (k + 1).

Lemma edits_nonneg q w k : edits_to q w k -> (0 <= k)%Z.
Proof. induction 1; lia. Qed.

(** [st'] has the results of [st] and those of the words that satisfy [Q] and
    were not reported before, each once. *)
Definition grows (F : word -> result) (Q : word -> Prop) (st st' : fuzzy_state) : Prop :=
  exists ws, st'.1 = st.1 ++ flat_map F ws /\ NoDup ws /\
    (forall w, w ∈ st'.2 <-> w ∈ st.2 \/ w ∈ ws) /\
    (forall w, w ∈ ws <-> Q w /\ w ∉ st.2).

Lemma grows_iff F Q Q' st st' : (forall w, Q w <-> Q' w) -> grows F Q st st' -> grows F Q' st st'.
Proof.
  intros H (ws & E & Hn & Hs & Hw). exists ws. split; [done|]. split; [done|]. split; [done|].
  intros w. by rewrite Hw, H.
Qed.
Lemma grows_nil F (Q : word -> Prop) st : (forall w, ~ Q w) -> grows F Q st st.
Proof.
  intros H. exists []. cbn. rewrite app_nil_r. split; [done|]. split; [constructor|].
  split; intros w; rewrite elem_of_nil; [tauto|]. specialize (H w). tauto.
Qed.
Lemma grows_trans F Q Q' st st1 st2 :
  grows F Q st st1 -> grows F Q' st1 st2 -> grows F (fun w => Q w \/ Q' w) st st2.
Proof.
  intros (ws & E & Hn & Hs & Hw) (ws' & E' & Hn' & Hs' & Hw'). exists (ws ++ ws').
  split; [by rewrite E', E, flat_map_app, app_assoc|].
  split.
  { apply NoDup_app. split; [done|]. split; [|done]. intros w H1 H2%Hw'. rewrite Hs in H2. tauto. }
  split; intros w; rewrite elem_of_app.
  - rewrite Hs', Hs. tauto.
  - rewrite Hw', Hw, Hs, Hw. destruct (decide (w ∈ st.2)); [tauto|].
    destruct (decide (w ∈ ws)) as [H|H]; rewrite Hw in H; tauto.
Qed.

Lemma grows_report F node cur st :
  F cur = found cur node -> grows F (fun w => w = cur) st (report node cur st).
Proof.
  intros HF. unfold report. destruct st as [rs us]. case_bool_decide as Hin.
  - exists []. cbn. rewrite app_nil_r. split; [done|]. split; [constructor|].
    split; intros w; rewrite elem_of_nil; [tauto|]. split; [done|]. by intros [-> ?].
  - exists [cur]. cbn. rewrite app_nil_r, HF. split; [done|]. split; [apply NoDup_singleton|].
    split; intros w; rewrite ?elem_of_cons, elem_of_nil; [tauto|]. split.
    + by intros [->|[]].
    + tauto.
Qed.

(** The words below a node that are near enough, when [e] edits are spent *)
Definition near_below (k : Z) (node : TrieNode) (q cur : word) (e : Z) (w : word) : Prop :=
  exists s j, w = cur ++ s /\ search s node <> [] /\ edits_to q s j /\ (e + j <= k)%Z.

Lemma near_below_node k en m l q cur e w : wf (Node en m l) ->
  near_below k (Node en m l) q cur e w <->
  (w = cur /\ en = true /\ (e <= k)%Z) \/
  exists ch c, (ch, c) ∈ l /\
    ((exists a q', q = a :: q' /\
        near_below k c q' (cur ++ [ch]) (e + if Ascii.eqb a ch then 0 else 1) w) \/
     near_below k c q (cur ++ [ch]) (e + 1) w).
Proof.
  intros Hn. inversion Hn as [? ? ? Hd Hl He]; subst. split.
  - intros (s & j & -> & Hs & Hj & Hk). destruct s as [|ch s].
    + left. inversion Hj; subst. rewrite app_nil_r. split; [done|].
      destruct en; [split; [done|lia]|]. by destruct Hs.
    + right. rewrite search_cons in Hs. destruct (child ch l) as [c|] eqn:Ec; [|done].
      exists ch, c. split; [by apply child_elem|]. rewrite (cons_middle ch cur s), app_assoc.
      inversion Hj as [|a q' w' j' Hj'|a b q' w' j' Hab Hj'|b q' w' j' Hj']; subst.
      * left. exists ch, q'. split; [done|]. exists s, j. rewrite Ascii.eqb_refl. repeat split; [done..|lia].
      * left. exists a, q'. split; [done|]. exists s, j'.
        destruct (Ascii.eqb_spec a ch); [done|]. repeat split; [done..|lia].
      * right. exists s, j'. repeat split; [done..|lia].
  - intros [(-> & -> & Hk)|(ch & c & Hc & H)].
    + exists [], 0%Z. rewrite app_nil_r. repeat split; [|constructor|lia]. cbn. by apply He.
    + apply child_elem in Hc; [|done].
      assert (forall q0 e0 j0, near_below k c q0 (cur ++ [ch]) e0 w ->
                (forall s j, edits_to q0 s j -> edits_to q (ch :: s) (j0 + j)) -> (e0 = e + j0)%Z ->
                near_below k (Node en m l) q cur e w) as Hgo.
      { intros q0 e0 j0 (s & j & -> & Hs & Hj & Hk) Hstep ->. exists (ch :: s), (j0 + j)%Z.
        rewrite <- app_assoc, search_cons, Hc. repeat split; [done|by apply Hstep|lia]. }
      destruct H as [(a & q' & -> & H)|H].
      * eapply Hgo; [exact H| |done]. intros s j Hj. destruct (Ascii.eqb_spec a ch) as [->|Hne].
        { by apply edits_match. } rewrite Z.add_comm. by apply edits_change.
      * eapply Hgo; [exact H| |done]. intros s j Hj. rewrite Z.add_comm. by apply edits_extra.
Qed.

Lemma near_below_over k n q cur e w : (k < e)%Z -> ~ near_below k n q cur e w.
Proof. intros He (s & j & _ & _ & Hj%edits_nonneg & Hk). lia. Qed.

(** [F w]: the results for the word [w], which is at or below the node *)
Definition reports (F : word -> result) (cur : word) (node : TrieNode) : Prop :=
  forall s, F (cur ++ s) = pair (cur ++ s) <$> search s node.

Lemma reports_found F cur m l : reports F cur (Node true m l) -> F cur = found cur (Node true m l).
Proof. intros H. specialize (H []). by rewrite app_nil_r in H. Qed.
Lemma reports_child F cur e m l ch c :
  reports F cur (Node e m l) -> child ch l = Some c -> reports F (cur ++ [ch]) c.
Proof. intros H Hc s. rewrite <- app_assoc. cbn. by rewrite H, search_cons, Hc. Qed.

Lemma grows_foldl {X} F (Q : X -> word -> Prop) (f : fuzzy_state -> X -> fuzzy_state) l st :
  Forall (fun x => forall st, grows F (Q x) st (f st x)) l ->
  grows F (fun w => exists x, x ∈ l /\ Q x w) st (foldl f st l).
Proof.
  intros Hl. revert st. induction Hl as [|x l Hx _ IH]; intros st; cbn.
  - apply grows_nil. by intros w (x & []%elem_of_nil & _).
  - eapply grows_iff, grows_trans, IH; [|apply Hx]. intros w. cbn. split.
    + intros [H|(y & Hy & H)]; [exists x; split; [left|done]|exists y; split; [by right|done]].
    + intros (y & [->|Hy]%elem_of_cons & H); [by left|right; by exists y].
Qed.

(** The calls for one child *)
Definition fuzzy_child (k : Z) (q cur : word) (e : Z) (st : fuzzy_state) (p : ascii * TrieNode)
    : fuzzy_state :=
  let st := match q with
            | a :: q' => fuzzySearchHelper k p.2 q' (cur ++ [p.1])
                           (e + if Ascii.eqb a p.1 then 0 else 1) st
            | [] => st
            end in
  if (e + 1 <=? k)%Z then fuzzySearchHelper k p.2 q (cur ++ [p.1]) (e + 1) st else st.

Lemma fuzzySearchHelper_node k en m l q cur e st :
  fuzzySearchHelper k (Node en m l) q cur e st =
  if (k <? e)%Z then st
  else
    let st := if match q with [] => true | _ => false end && en
              then report (Node en m l) cur st else st in
    let st := foldl (fuzzy_child k q cur e) st l in
    if (e <=? k)%Z && en then report (Node en m l) cur st else st.
Proof.
  cbn [fuzzySearchHelper isEndOfWord children]. destruct (k <? e)%Z; [done|].
  match goal with |- context [?loop l (match q with _ => _ end)] =>
    assert (forall st, loop l st = foldl (fuzzy_child k q cur e) st l) as -> end.
  { induction l as [|[ch c] l IH]; [done|]. intros st'. cbn [foldl]. by rewrite <- IH. }
  by destruct q.
Qed.

Definition near_child (k : Z) (q cur : word) (e : Z) (p : ascii * TrieNode) (w : word) : Prop :=
  (exists a q', q = a :: q' /\
     near_below k p.2 q' (cur ++ [p.1]) (e + if Ascii.eqb a p.1 then 0 else 1) w) \/
  near_below k p.2 q (cur ++ [p.1]) (e + 1) w.

Lemma fuzzy_child_grows F k q cur e p st :
  (forall q e st, grows F (near_below k p.2 q (cur ++ [p.1]) e) st
                    (fuzzySearchHelper k p.2 q (cur ++ [p.1]) e st)) ->
  grows F (near_child k q cur e p) st (fuzzy_child k q cur e st p).
Proof.
  intros H. unfold fuzzy_child.
  apply (grows_trans F (fun w => exists a q', q = a :: q' /\
           near_below k p.2 q' (cur ++ [p.1]) (e + if Ascii.eqb a p.1 then 0 else 1) w)
           (near_below k p.2 q (cur ++ [p.1]) (e + 1)) st
           (match q with
            | a :: q' => fuzzySearchHelper k p.2 q' (cur ++ [p.1])
                           (e + if Ascii.eqb a p.1 then 0 else 1) st
            | [] => st
            end)).
  - destruct q as [|a q]; [apply grows_nil; by intros w (? & ? & ? & _)|].
    eapply grows_iff, H. intros w. cbn. split; [by exists a, q|]. by intros (? & ? & [= <- <-] & ?).
  - destruct (Z.leb_spec (e + 1) k); [apply H|]. apply grows_nil. intros w. by apply near_below_over.
Qed.

Lemma fuzzy_grows F k node q cur e st :
  wf node -> reports F cur node ->
  grows F (near_below k node q cur e) st (fuzzySearchHelper k node q cur e st).
Proof.
  revert q cur e st. induction node as [en m l IH] using TrieNode_rect'. intros q cur e st Hn HF.
  rewrite fuzzySearchHelper_node. destruct (Z.ltb_spec k e) as [He|He].
  { apply grows_nil. intros w. by apply near_below_over. }
  cbn zeta. inversion Hn as [? ? ? Hd Hl _]; subst.
  assert (forall (b : bool) st, grows F (fun w => w = cur /\ en = true /\ b = true) st
            (if b && en then report (Node en m l) cur st else st)) as Hend.
  { intros b st'. destruct b, en; cbn; try (apply grows_nil; by intros w (_ & ? & ?)).
    eapply grows_iff, grows_report; [by intros; split; [|intros (? & _)]|by apply reports_found]. }
  eapply grows_iff, grows_trans, Hend; [|eapply grows_trans; [apply Hend|]].
  2: apply (grows_foldl F (near_child k q cur e)).
  - intros w. cbn. rewrite (near_below_node _ _ _ _ _ _ _ _ Hn).
    assert ((e <=? k)%Z = true <-> (e <= k)%Z) as -> by apply Z.leb_le.
    assert ((exists p, p ∈ l /\ near_child k q cur e p w) <->
            exists ch c, (ch, c) ∈ l /\ near_child k q cur e (ch, c) w) as ->; [|unfold near_child; tauto].
    split; [intros ([ch c] & ?); by exists ch, c|intros (ch & c & ?); by exists (ch, c)].
  - rewrite Forall_forall in IH, Hl |- *. intros [ch c] Hc st'.
    apply fuzzy_child_grows. intros q' e' st''. apply (IH _ Hc); [by apply (Hl _ Hc)|].
    eapply reports_child; [done|by apply child_elem].
Qed.

(** [fuzzySearch] lists, each once and with all its metadata, the words of
    the trie that come from the query with at most [maxEdits] edits, where an
    edit changes a character or adds one and the end of the query is free. *)
Theorem trie_fuzzySearch q k root : wf root ->
  exists ws, fuzzySearch q k root = flat_map (fun w => pair w <$> search w root) ws /\ NoDup ws /\
    forall w, w ∈ ws <-> search w root <> [] /\ exists j, edits_to q w j /\ (j <= k)%Z.
Proof.
  intros Hn. destruct (fuzzy_grows (fun w => pair w <$> search w root) k root q [] 0 ([], []) Hn)
    as (ws & E & Hnd & _ & Hw); [done|].
  exists ws. split; [exact E|]. split; [done|]. intros w. rewrite Hw. cbn. split.
  - intros ((s & j & -> & Hs & Hj & Hk) & _). split; [done|]. by exists j.
  - intros (Hs & j & Hj & Hk). split; [by exists w, j|]. by intros ?%elem_of_nil.
Qed.

Lemma edits_to_prefix w s : edits_to (w ++ s) w 0.
Proof. induction w; [constructor|by constructor]. Qed.

(** With no edit allowed the words found are the prefixes of the query. *)
Lemma trie_fuzzySearch_witness :
  exists ws, fuzzySearch (example_word "abcd") 0 example_trie
             = flat_map (fun w => pair w <$> search w example_trie) ws /\
    example_word "ab" ∈ ws /\ example_word "aa" ∉ ws.
Proof.
  destruct (trie_fuzzySearch (example_word "abcd") 0 example_trie example_trie_wf) as (ws & E & _ & Hw).
  exists ws. split; [exact E|]. split.
  - apply Hw. split; [discriminate|]. exists 0%Z. split; [|lia].
    apply (edits_to_prefix (example_word "ab") (example_word "cd")).
  - intros (_ & j & Hj & Hk)%Hw. vm_compute in Hj.
    inversion Hj as [|a q w j' Hj'|a b q w j' Hab Hj'|b q w j' Hj']; subst.
    + inversion Hj' as [| |a b q w j1 Hab Hj1|b q w j1 Hj1]; subst; apply edits_nonneg in Hj1; lia.
    + apply edits_nonneg in Hj'. lia.
    + apply edits_nonneg in Hj'. lia.
Defined.

(** The prefix, fuzzy prefix and substring searches list, in the order of a
    traversal, the entries whose word starts with the prefix, starts with a
    string that differs from the prefix in at most [k] characters, or contains
    the string; the entries are what [search] finds. *)
Theorem trie_searches p k root : wf root ->
  searchByPrefix p root = filterb (fun x => starts p x.1) (entries root) /\
  fuzzyPrefixSearch p k root = filterb (fun x => near_prefix p k x.1) (entries root) /\
  substringSearch p root = filterb (fun x => contains p x.1) (entries root) /\
  forall w d, (w, d) ∈ entries root <-> d ∈ search w root.
Proof.
  intros Hn. split; [|split; [|split]].
  - rewrite prefix_entries by done. unfold searchByPrefix. destruct (find_node p root); [|done].
    apply collect_entries.
  - unfold fuzzyPrefixSearch. by rewrite fuzzyPrefix_entries, Z.sub_0_r, prepend_nil.
  - unfold substringSearch. by rewrite substring_entries, prepend_nil.
  - intros w d. by apply entries_search.
Qed.

Lemma trie_searches_witness :
  (searchByPrefix (example_word "ab") example_trie).*1 = [example_word "ab"; example_word "abc"] /\
  example_data ∈ search (example_word "abc") example_trie.
Proof.
  destruct (trie_searches (example_word "ab") 0 example_trie example_trie_wf) as (H & _ & _ & He).
  rewrite H. split; [reflexivity|]. apply He. vm_compute. right. right. left.
Defined.
