(* ===== verification/TrieFile.v ===== *)
(** * The memory of the word index

    src/include/qsearch.hpp, [MMapTrie]: the file whose memory holds the root
    node, its growth, and what the destructor deletes.  Addresses are numbers;
    where the system maps a file is a parameter, and none stands for the end of
    the process. *)

From S2P Require Import Prelude Trie.
Local Open Scope quarks_scope.

Definition FILE_NAME : string := "trie_data_large.bin".
Definition INITIAL_SIZE : Z := 1024 * 1024.

(** [size_t] *)
Definition size_t (z : Z) : Z := (z mod 2 ^ 64)%Z.

Record MMapTrie := {
  disk_size : Z;        (* of the file *)
  mmap_data : nat;
  mmap_size : Z;
  root : nat;           (* the address of the root node *)
  tree : TrieNode       (* the root node with what it refers to on the heap *)
}.

(** The constructor: whatever the file held, a new root is made in its memory. *)
Definition new_MMapTrie (can_open : bool) (existingSize initialSize : Z) (mmap : option nat) : option MMapTrie :=
  if can_open then
    let mmap_size := if (0 <? existingSize)%Z then existingSize else initialSize in
    let disk := if (existingSize =? 0)%Z then initialSize else existingSize in
    match mmap with
    | Some a => Some {| disk_size := disk; mmap_data := a; mmap_size := mmap_size; root := a; tree := empty_node |}
    | None => None
    end
  else None.

(** What an operation does with the root, which must still be in the memory of
    the file *)
Definition with_root {B} (f : TrieNode -> B * TrieNode) (m : MMapTrie) : outcome (B * MMapTrie) :=
  if decide (root m = mmap_data m) then
    let '(b, t) := f (tree m) in
    Ok (b, {| disk_size := disk_size m; mmap_data := mmap_data m; mmap_size := mmap_size m; root := root m; tree := t |})
  else Undef.

(** [expandIfNeeded]: [root] is not set again. *)
Definition expandIfNeeded (mmap : option nat) (m : MMapTrie) : option MMapTrie :=
  if (size_t (mmap_size m - 1024) <=? disk_size m)%Z then
    let newSize := size_t (mmap_size m * 2) in
    match mmap with
    | Some a => Some {| disk_size := newSize; mmap_data := a; mmap_size := newSize; root := root m; tree := tree m |}
    | None => None
    end
  else Some m.

(** [deleteTrieNode] below the root: how many metadata and nodes are deleted *)
Fixpoint deleteTrieNode (node : TrieNode) : nat * nat :=
  let 'Node _ m l := node in
  (fix go l := match l with
               | [] => (length m, 0)
               | (_, c) :: l => let '(d, n) := go l in let '(d', n') := deleteTrieNode c in (d + d', S (n + n'))
               end) l.

(** *** What holds *)

(** No word is found in a trie that was just made, also from a file that an
    earlier run has left. *)
Lemma opened_empty size a t :
  new_MMapTrie true size INITIAL_SIZE (Some a) = Some t ->
  forall w, with_root (fun n => (search w n, n)) t = Ok ([], t).
Proof.
  intros [= <-] w. unfold with_root. cbn. rewrite decide_True by done. by destruct w.
Qed.

(** The file is as large as its mapping from the start, so every call of
    [expandIfNeeded] doubles it - unless it is shorter than 1024 bytes, when the
    difference wraps - and the root is lost when the new mapping is elsewhere. *)
Lemma expanded size a a' t :
  (0 <= size < 2 ^ 63)%Z -> new_MMapTrie true size INITIAL_SIZE (Some a) = Some t ->
  exists t', expandIfNeeded (Some a') t = Some t' /\
    mmap_size t' = (if (mmap_size t <? 1024)%Z then mmap_size t else mmap_size t * 2)%Z /\
    (forall B (f : TrieNode -> B * TrieNode), a' <> a -> (1024 <= mmap_size t)%Z -> with_root f t' = Undef).
Proof.
  intros Hs [= <-]. unfold expandIfNeeded. cbn.
  set (n := if (0 <? size)%Z then size else INITIAL_SIZE).
  assert (Hn : (if (size =? 0)%Z then INITIAL_SIZE else size) = n).
  { unfold n. destruct (Z.eqb_spec size 0), (Z.ltb_spec 0 size); lia. }
  assert (0 < n < 2 ^ 63)%Z as Hr.
  { unfold n, INITIAL_SIZE. destruct (Z.ltb_spec 0 size); lia. }
  rewrite Hn. unfold size_t. destruct (Z.ltb_spec n 1024) as [Hl|Hl].
  - rewrite <- (Z.mod_unique (n - 1024) (2 ^ 64) (-1) (n - 1024 + 2 ^ 64)) by lia.
    destruct (Z.leb_spec (n - 1024 + 2 ^ 64) n); [lia|]. eexists. split; [done|]. split; [done|]. cbn. lia.
  - rewrite Z.mod_small by lia. destruct (Z.leb_spec (n - 1024) n); [|lia].
    eexists. split; [done|]. cbn. rewrite Z.mod_small by lia. split; [done|].
    intros B f Ha _. unfold with_root. cbn. by rewrite decide_False by congruence.
Qed.

(** The destructor deletes every metadata there is a word for. *)
Lemma deleted_all node : wf node -> (deleteTrieNode node).1 = length (entries node).
Proof.
  induction node as [e m l IH] using TrieNode_rect'. intros Hw. inversion Hw as [? ? ? _ Hl He]; subst.
  cbn [deleteTrieNode]. rewrite entries_node, length_app.
  assert (Hm : length (if e then (fun d => ([], d)) <$> m else [] : list (word * WordData)) = length m).
  { destruct e; [by rewrite length_fmap|]. destruct m as [|d m]; [done|]. assert (false = true) by (apply He; done). done. }
  rewrite Hm. clear Hw He Hm. unfold below. induction IH as [|[ch c] l Hc _ IHl]; cbn; [lia|].
  inversion Hl as [|? ? Hwc Hrest]; subst. specialize (IHl Hrest). specialize (Hc Hwc). cbn in Hc.
  match type of IHl with (?p).1 = _ => destruct p as [d n] end.
  destruct (deleteTrieNode c) as [d' n']. cbn in *. rewrite length_app, length_fmap. lia.
Qed.
