(* ===== verification/Distance.v ===== *)
(** * Nearly equal texts

    src/include/qsearch.hpp, the private part of [ElasticSearch] that compares
    texts: the edit distance of two words, the split of a text into words, and
    the test that the words of one text nearly occur, in order, in another. *)

From stdpp Require Import relations.
From S2P Require Import Prelude.
Local Open Scope quarks_scope.

(** ** The table of distances *)

(** The rest of the row for the character [a]: [diag] is the entry above to
    the left, the head of [prev], and [left] the one before. *)
Fixpoint next_row (a : ascii) (s2 : list ascii) (prev : list Z) (left : Z) : list Z :=
  match s2, prev with
  | b :: s2, diag :: ((up :: _) as prev) =>
      let x := if Ascii.eqb a b then diag else (Z.min (Z.min diag up) left + 1)%Z in
      x :: next_row a s2 prev x
  | _, _ => []
  end.

(** [dp\[0\]\[j\] = j] *)
Definition first_row (s2 : list ascii) : list Z := Z.of_nat <$> seq 0 (S (length s2)).

(** The rows from the one after [row], which has the number [i]: the last *)
Fixpoint last_row (i : Z) (s1 s2 : list ascii) (row : list Z) : list Z :=
  match s1 with
  | [] => row
  | a :: s1 => last_row (i + 1) s1 s2 ((i + 1)%Z :: next_row a s2 row (i + 1))
  end.

Definition levenshteinDistance (s1 s2 : string) : Z :=
  let s1 := list_ascii_of_string s1 in
  let s2 := list_ascii_of_string s2 in
  List.last (last_row 0 s1 s2 (first_row s2)) 0%Z.

(** ** Words *)

(** [while (ss >> token)]: [token] holds the characters of the word read so
    far. *)
Fixpoint tokens (token : string) (s : string) : list string :=
  let word := match token with EmptyString => [] | _ => [token] end in
  match s with
  | EmptyString => word
  | String c s => if is_space c then word ++ tokens EmptyString s
                  else tokens (token +:+ String c EmptyString) s
  end.
Definition tokenize (s : string) : list string := tokens EmptyString s.

(** [::tolower] of the C locale *)
Definition tolower (c : ascii) : ascii :=
  if (65 <=? byte c)%Z && (byte c <=? 90)%Z then of_byte (byte c + 32) else c.
Fixpoint toLower (s : string) : string :=
  match s with EmptyString => EmptyString | String c s => String (tolower c) (toLower s) end.

(** [while (i < len1 && j < len2)]: the words from [i] and from [j] on *)
Fixpoint near_loop (maxDistance : Z) (tokens1 tokens2 : list string) : bool :=
  match tokens1, tokens2 with
  | t1 :: tokens1, t2 :: rest2 =>
      near_loop maxDistance tokens1
        (if (levenshteinDistance t1 t2 <=? maxDistance)%Z then rest2 else tokens2)
  | _, [] => true
  | [], _ :: _ => false
  end.

Definition isNearlyMatched (str1 str2 : string) (maxDistance : Z) : bool :=
  near_loop maxDistance (tokenize str1) (tokenize str2).
Definition isNearlyMatchedIgnoreCase (str1 str2 : string) (maxDistance : Z) : bool :=
  near_loop maxDistance (toLower <$> tokenize str1) (toLower <$> tokenize str2).

(** ** The distance *)

(** One character changed, removed or added *)
Inductive edit1 : list ascii -> list ascii -> Prop :=
  | edit_change u a b v : edit1 (u ++ a :: v) (u ++ b :: v)
  | edit_remove u a v : edit1 (u ++ a :: v) (u ++ v)
  | edit_add u a v : edit1 (u ++ v) (u ++ a :: v).

Fixpoint lev (s t : list ascii) {struct s} : nat :=
  match s with
  | [] => length t
  | a :: s' =>
      (fix inner (t : list ascii) : nat :=
         match t with
         | [] => S (length s')
         | b :: t' => if Ascii.eqb a b then lev s' t'
                      else S (Nat.min (Nat.min (lev s' t') (lev s' t)) (inner t'))
         end) t
  end.

Lemma lev_nil_l t : lev [] t = length t.
Proof. done. Qed.
Lemma lev_nil_r s : lev s [] = length s.
Proof. by destruct s. Qed.
Lemma lev_cons a s b t :
  lev (a :: s) (b :: t) =
  if Ascii.eqb a b then lev s t
  else S (Nat.min (Nat.min (lev s t) (lev s (b :: t))) (lev (a :: s) t)).
Proof. done. Qed.

#[global] Arguments lev : simpl never.

Lemma lev_sym s t : lev s t = lev t s.
Proof.
  revert t. induction s as [|a s IHs]; intros t; [by rewrite lev_nil_r|].
  induction t as [|b t IHt]; [done|]. rewrite !lev_cons, IHt, (IHs t), (IHs (b :: t)).
  rewrite (Ascii.eqb_sym a b). destruct (Ascii.eqb b a); [done|]. f_equal.
  by rewrite <- !Nat.min_assoc, (Nat.min_comm (lev t (a :: s))).
Qed.

(** One more character changes the distance by at most one. *)
Lemma lev_lipschitz n s t :
  length s + length t <= n ->
  (forall a, lev (a :: s) t <= S (lev s t)) /\ (forall b, lev s t <= S (lev s (b :: t))).
Proof.
  revert s t. induction n as [|n IH]; intros s t Hn.
  - destruct s, t; cbn in Hn; try lia. split; intros; rewrite ?lev_nil_r, ?lev_nil_l; cbn; lia.
  - split.
    + intros a. destruct t as [|b t]; [rewrite !lev_nil_r; cbn; lia|]. rewrite lev_cons.
      destruct (Ascii.eqb a b); [|lia]. apply IH. cbn in Hn. lia.
    + intros b. destruct s as [|a s]; [rewrite !lev_nil_l; cbn; lia|]. rewrite lev_cons. cbn in Hn.
      assert (length s + length t <= n) as H by lia.
      pose proof (proj1 (IH _ _ H) a). pose proof (proj2 (IH _ _ H) b).
      destruct (Ascii.eqb a b); lia.
Qed.
Lemma lev_more a s t : lev (a :: s) t <= S (lev s t).
Proof. by apply (proj1 (lev_lipschitz _ s t (le_n _))). Qed.
Lemma lev_less a s t : lev s t <= S (lev (a :: s) t).
Proof. rewrite (lev_sym s t), (lev_sym (a :: s) t). by apply (proj2 (lev_lipschitz _ t s (le_n _))). Qed.

Lemma lev_change a b s t : lev (a :: s) t <= S (lev (b :: s) t).
Proof.
  induction t as [|d t IH]; [rewrite !lev_nil_r; cbn; lia|]. rewrite !lev_cons.
  pose proof (proj2 (lev_lipschitz _ s t (le_n _)) d). pose proof (lev_less b s t).
  destruct (Ascii.eqb a d), (Ascii.eqb b d); lia.
Qed.

Lemma lev_edit1 s u t : edit1 s u -> lev s t <= S (lev u t).
Proof.
  intros He. assert (forall w s u, (forall t, lev s t <= S (lev u t)) ->
                       forall t, lev (w ++ s) t <= S (lev (w ++ u) t)) as Hcons.
  { clear. induction w as [|c w IH]; intros s u H; [done|]. cbn [app].
    induction t as [|d t IHt]; [rewrite !lev_nil_r; specialize (IH s u H []);
      rewrite !lev_nil_r in IH; cbn; lia|].
    rewrite !lev_cons. pose proof (IH s u H t). pose proof (IH s u H (d :: t)).
    destruct (Ascii.eqb c d); lia. }
  destruct He; apply Hcons; intros t';
    auto using lev_change, lev_more, lev_less.
Qed.

Lemma edit1_cons a s u : edit1 s u -> edit1 (a :: s) (a :: u).
Proof.
  destruct 1; [apply (edit_change (a :: u))|apply (edit_remove (a :: u))|apply (edit_add (a :: u))].
Qed.
Lemma edit1_rev s u : edit1 s u -> edit1 (rev s) (rev u).
Proof.
  destruct 1; rewrite !rev_app_distr; cbn [rev]; rewrite <- ?app_assoc; cbn [app];
    [apply edit_change|apply edit_remove|apply edit_add].
Qed.

Lemma edits_cons b k s t : nsteps edit1 k s t -> nsteps edit1 k (b :: s) (b :: t).
Proof. apply (nsteps_congruence (cons b) edit1), edit1_cons. Qed.
Lemma edits_rev k s t : nsteps edit1 k s t -> nsteps edit1 k (rev s) (rev t).
Proof. apply (nsteps_congruence (@rev ascii) edit1), edit1_rev. Qed.

(** [lev s t] edits turn [s] into [t], and no fewer. *)
Lemma lev_reached s t : nsteps edit1 (lev s t) s t.
Proof.
  revert t. induction s as [|a s IHs]; intros t.
  { cbn. induction t as [|b t IHt]; [constructor|]. cbn. eapply nsteps_l; [apply (edit_add [] b)|].
    by apply edits_cons. }
  induction t as [|b t IHt].
  - rewrite lev_nil_r. cbn. eapply nsteps_l; [apply (edit_remove [] a)|]. cbn.
    specialize (IHs []). by rewrite lev_nil_r in IHs.
  - rewrite lev_cons. destruct (Ascii.eqb_spec a b) as [->|Hab].
    { apply edits_cons, IHs. }
    destruct (Nat.min_dec (Nat.min (lev s t) (lev s (b :: t))) (lev (a :: s) t)) as [->| ->].
    + destruct (Nat.min_dec (lev s t) (lev s (b :: t))) as [->| ->].
      * eapply nsteps_l; [apply (edit_change [] a b)|]. cbn.
        apply edits_cons, IHs.
      * eapply nsteps_l; [apply (edit_remove [] a)|apply IHs].
    + eapply nsteps_l; [apply (edit_add [] b)|]. cbn.
      apply edits_cons, IHt.
Qed.
Lemma lev_least k s t : nsteps edit1 k s t -> lev s t <= k.
Proof.
  induction 1 as [s|k s u t Hu _ IH].
  - induction s as [|a s IH]; [done|]. rewrite lev_cons, Ascii.eqb_refl. exact IH.
  - pose proof (lev_edit1 s u t Hu). lia.
Qed.

(** ** The table holds the distances of the beginnings *)

(** The row for a word: its distances from the beginnings of [t], the words
    being read backwards, after [acc] *)
Fixpoint distances (p acc t : list ascii) : list Z :=
  Z.of_nat (lev p acc) :: match t with [] => [] | b :: t => distances p (b :: acc) t end.

Lemma distances_cons p acc t : exists l, distances p acc t = Z.of_nat (lev p acc) :: l.
Proof. destruct t; by eexists. Qed.

Lemma next_row_distances a p acc t :
  Z.of_nat (lev (a :: p) acc) :: next_row a t (distances p acc t) (Z.of_nat (lev (a :: p) acc))
  = distances (a :: p) acc t.
Proof.
  revert acc. induction t as [|b t IH]; intros acc; [done|]. cbn [distances]. f_equal.
  rewrite <- IH. destruct (distances_cons p (b :: acc) t) as [l E]. cbn [next_row]. rewrite E, <- E.
  assert ((if Ascii.eqb a b then Z.of_nat (lev p acc)
           else Z.min (Z.min (Z.of_nat (lev p acc)) (Z.of_nat (lev p (b :: acc))))
                  (Z.of_nat (lev (a :: p) acc)) + 1)%Z = Z.of_nat (lev (a :: p) (b :: acc))) as ->; [|done].
  rewrite lev_cons. destruct (Ascii.eqb a b); lia.
Qed.

Lemma first_row_distances t : first_row t = distances [] [] t.
Proof.
  unfold first_row. assert (forall acc, Z.of_nat <$> seq (length acc) (S (length t)) = distances [] acc t) as H;
    [|apply (H [])].
  induction t as [|b t IH]; intros acc; [done|]. cbn [distances]. rewrite <- IH. done.
Qed.

Lemma last_row_distances s t p :
  last_row (Z.of_nat (length p)) s t (distances p [] t) = distances (rev s ++ p) [] t.
Proof.
  revert p. induction s as [|a s IH]; intros p; [done|]. cbn [last_row rev].
  rewrite <- app_assoc. cbn [app]. rewrite <- IH. rewrite <- next_row_distances, lev_nil_r.
  cbn [length]. by rewrite Nat2Z.inj_succ.
Qed.

Lemma distances_last p acc t d : List.last (distances p acc t) d = Z.of_nat (lev p (rev t ++ acc)).
Proof.
  revert acc. induction t as [|b t IH]; intros acc; [done|].
  cbn [distances rev]. rewrite <- app_assoc. cbn [app]. rewrite <- IH.
  by destruct (distances_cons p (b :: acc) t) as [l ->].
Qed.

Lemma levenshteinDistance_lev s1 s2 :
  levenshteinDistance s1 s2
  = Z.of_nat (lev (rev (list_ascii_of_string s1)) (rev (list_ascii_of_string s2))).
Proof.
  unfold levenshteinDistance. rewrite first_row_distances.
  rewrite (last_row_distances _ _ []). by rewrite distances_last, !app_nil_r.
Qed.

(** C21. [levenshteinDistance] is the least number of single characters that
    have to be changed, removed or added to turn one text into the other. *)
Theorem levenshtein_least s1 s2 :
  exists d, levenshteinDistance s1 s2 = Z.of_nat d /\
    nsteps edit1 d (list_ascii_of_string s1) (list_ascii_of_string s2) /\
    forall k, nsteps edit1 k (list_ascii_of_string s1) (list_ascii_of_string s2) -> d <= k.
Proof.
  rewrite levenshteinDistance_lev. eexists. split; [done|]. split.
  - rewrite <- (rev_involutive (list_ascii_of_string s1)) at 2.
    rewrite <- (rev_involutive (list_ascii_of_string s2)) at 2. apply edits_rev, lev_reached.
  - intros k Hk. by apply lev_least, edits_rev.
Qed.

(** ** Words of a text *)

Definition is_word (t : string) : Prop :=
  t <> EmptyString /\ Forall (fun c => is_space c = false) (list_ascii_of_string t).

(** [Words s ts]: the words of [s], with blanks between them and around. *)
Inductive Words : string -> list string -> Prop :=
  | words_nil : Words EmptyString []
  | words_blank c s ts : is_space c = true -> Words s ts -> Words (String c s) ts
  | words_last t : is_word t -> Words t [t]
  | words_cons t c s ts : is_word t -> is_space c = true -> Words s ts ->
                          Words (t +:+ String c s) (t :: ts).

Lemma append_empty s : s +:+ EmptyString = s.
Proof. induction s as [|c s IH]; [done|]. cbn. by rewrite IH. Qed.
Lemma append_assoc_char t c s : (t +:+ String c EmptyString) +:+ s = t +:+ String c s.
Proof. induction t as [|d t IH]; [done|]. cbn. by rewrite IH. Qed.
Lemma is_word_snoc t c :
  Forall (fun c => is_space c = false) (list_ascii_of_string t) -> is_space c = false ->
  is_word (t +:+ String c EmptyString).
Proof.
  intros Ht Hc. split; [by destruct t|]. induction t as [|d t IH]; cbn; [by repeat constructor|].
  inversion Ht; subst. constructor; [done|]. by apply IH.
Qed.

Lemma tokens_words token s : (token = EmptyString \/ is_word token) -> Words (token +:+ s) (tokens token s).
Proof.
  revert token. induction s as [|c s IH]; intros token Ht; cbn [tokens].
  - rewrite append_empty. destruct Ht as [->|Ht]; [constructor|].
    destruct token; [by destruct Ht|]. by constructor.
  - destruct (is_space c) eqn:Ec.
    + specialize (IH EmptyString ltac:(by left)). cbn [String.append] in IH.
      destruct Ht as [->|Ht]; [by constructor|].
      destruct token; [by destruct Ht|]. by apply words_cons.
    + rewrite <- append_assoc_char. apply IH. right. apply is_word_snoc; [|done].
      destruct Ht as [->|[_ Ht]]; [constructor|done].
Qed.

(** ** Words that nearly occur in order *)

Definition near (k : Z) (t1 t2 : string) : Prop := (levenshteinDistance t1 t2 <= k)%Z.

(** Taking the first near word for each word of the second text is enough. *)
Lemma near_loop_spec k ts1 ts2 :
  near_loop k ts1 ts2 = true <-> exists l, sublist l ts1 /\ Forall2 (near k) l ts2.
Proof.
  revert ts2. induction ts1 as [|t1 ts1 IH]; intros ts2.
  - destruct ts2 as [|t2 ts2]; cbn.
    + split; [|done]. intros _. by exists [].
    + split; [done|]. intros (l & Hl & H). apply sublist_nil_r in Hl. subst. inversion H.
  - destruct ts2 as [|t2 ts2]; cbn [near_loop].
    { split; [|done]. intros _. exists []. split; [apply sublist_nil_l|constructor]. }
    rewrite IH. destruct (Z.leb_spec (levenshteinDistance t1 t2) k) as [Hk|Hk].
    + split.
      * intros (l & Hl & H). exists (t1 :: l). by split; constructor.
      * intros (l & Hl & H). inversion H as [|x ? l' ? Hx Hl']; subst. exists l'. split; [|done].
        apply sublist_cons_l in Hl as (k1 & k2 & E & Hk2).
        destruct k1 as [|y k1]; injection E as -> ->; [done|].
        etransitivity; [exact Hk2|]. apply sublist_inserts_l. by apply sublist_cons.
    + split; intros (l & Hl & H); exists l; split; try done; [by apply sublist_cons|].
      inversion Hl; subst; [|done]. inversion H; subst. unfold near in *. lia.
Qed.

(** [isNearlyMatched] holds when words of the first text, in order and not
    necessarily side by side, are within the distance of those of the second,
    one for one; the words are the parts between blanks. *)
Theorem near_matched s1 s2 k :
  Words s1 (tokenize s1) /\ Words s2 (tokenize s2) /\
  (isNearlyMatched s1 s2 k = true <->
     exists l, sublist l (tokenize s1) /\ Forall2 (near k) l (tokenize s2)) /\
  (isNearlyMatchedIgnoreCase s1 s2 k = true <->
     exists l, sublist l (toLower <$> tokenize s1) /\ Forall2 (near k) l (toLower <$> tokenize s2)).
Proof.
  repeat split; try (apply near_loop_spec); by apply (tokens_words EmptyString); left.
Qed.
