(* ===== verification/Elastic.v ===== *)
(** * The document index

    src/include/qsearch.hpp, [ElasticSearch]: documents in lists, by the name of
    an application and of an index, in one JSON value that is written to a
    mapped file after every change.  The memory of the file is modelled by its
    length and contents: touching a page of the mapping behind the end of the
    file is a fault.  The calls of the system succeed. *)

From S2P Require Import Prelude Json Distance.
Local Open Scope quarks_scope.

(** [std::vector<std::pair<std::string, std::string>>]: keys and what their
    values are compared with *)
Abbreviation conditions := (list (string * string)).

Section elastic.
Context {plat : Platform}.

(** ** Places in a [wvalue] *)

(** A computation at [w\[k\]]: the member is entered when it is absent. *)
Definition at_key {B} (k : string) (m : SM wvalue B) : SM wvalue B := fun w =>
  let '(o, v) := m (w_get k w) in (o, w_set k v w).

(** A computation at [w\[i\]], where the list is extended up to [i]; the index
    is an unsigned int. *)
Definition at_index {B} (i : Z) (m : SM wvalue B) : SM wvalue B := fun w =>
  let u := Z.to_nat (i mod 4294967296) in
  let n := Z.to_nat ((i + 1) mod 4294967296) in
  let l := match w with WList l => l | _ => [] end in
  let l := l ++ replicate (n - length l) WNull in
  match l !! u with
  | Some v => let '(o, v) := m v in (o, WList (<[u := v]> l))
  | None => (Undef, WList l)
  end.

Definition assign (v : wvalue) : SM wvalue unit := put_st v.
Definition dumped : SM wvalue string := fun v => (Ok (dump v), v).

(** [w.count(k)] *)
Definition w_count (k : string) (w : wvalue) : bool :=
  match w with WObj o => bool_decide (is_Some (assoc k o)) | _ => false end.
Definition counted (k : string) : SM wvalue bool := fun w => (Ok (w_count k w), w).

(** ** The file *)

Record elastic := { index : wvalue; file : string; file_size : nat }.

Definition set_index (w : wvalue) (e : elastic) : elastic :=
  {| index := w; file := file e; file_size := file_size e |}.
Definition on_index {B} (m : SM wvalue B) : SM elastic B := fun e =>
  let '(o, w) := m (index e) in (o, set_index w e).

Fixpoint zeros (n : nat) : string :=
  match n with O => EmptyString | S n => String NUL (zeros n) end.
Definition ftruncate (n : nat) (s : string) : string :=
  str_take n s +:+ zeros (n - String.length s).

(** The size of a page, and what bytes written behind the end of a file, in
    its last page, become when the file is made longer *)
Context (page : nat) (past_eof : string -> string).

(** The bytes of a file of [n] bytes that can be touched when it is mapped *)
Definition mapped (n : nat) : nat := ((n + page - 1) / page * page)%nat.

Definition persistIndex : SM elastic unit := fun e =>
  let json_data := dump (index e) in
  let new_size := String.length json_data in
  let e := if (file_size e <? new_size)%nat
           then {| index := index e; file := ftruncate new_size (file e); file_size := new_size |}
           else e in
  if (file_size e <=? mapped (String.length (file e)))%nat
  then (Ok tt, {| index := index e;
                  file := str_take (String.length (file e)) json_data
                          +:+ past_eof (str_drop (String.length (file e)) json_data);
                  file_size := file_size e |})
  else (Undef, e).

Definition loadIndex (file : string) : outcome elastic :=
  let file := match file with EmptyString => ftruncate 4096 EmptyString | _ => file end in
  let? index := if Ascii.eqb (peek file) NUL then Ok WNull else to_wvalue (load file) in
  Ok {| index := index; file := file; file_size := String.length file |}.

(** ** Documents *)

Definition size_key (indexName : string) : string := indexName +:+ "_size".

(** [std::stoi(crow::json::dump(index\[tenant_id\]\[indexName + "_size"\]))] *)
Definition read_size (indexName : string) : SM wvalue Z :=
  let! s := at_key (size_key indexName) dumped in lift (stoi s).

Definition indexDocument (tenant_id indexName : string) (doc : wvalue) : SM elastic unit :=
  do! on_index (at_key tenant_id
    (let! c := counted indexName in
     if c : bool then
       let! size := read_size indexName in
       do! at_key indexName (at_index size (assign doc));
       at_key (size_key indexName) (assign (w_int (int32 (size + 1))))
     else
       do! at_key indexName (assign (WList [doc]));
       at_key (size_key indexName) (assign (w_int 1))));
  persistIndex.

Definition clearIndex (tenant_id indexName : string) : SM elastic bool :=
  let! c := on_index (at_key tenant_id (counted indexName)) in
  if c : bool then
    do! on_index (at_key tenant_id
      (do! at_key indexName (assign (WList []));
       at_key (size_key indexName) (assign (w_int 0))));
    do! persistIndex; ret true
  else ret false.

(** ** Conditions *)

Definition value_matches (ignoreCase : bool) (fuzziness : Z) (value query : string) : bool :=
  if negb ignoreCase then isNearlyMatched value query fuzziness
  else isNearlyMatchedIgnoreCase value query fuzziness.

(** [match_count] for a stored document: the printed member is compared. *)
Fixpoint match_count (ignoreCase : bool) (fuzziness : Z) (cs : conditions) (doc : wvalue) : nat :=
  match cs with
  | [] => 0
  | (key, query) :: cs =>
      (if w_count key doc && value_matches ignoreCase fuzziness (dump (w_get key doc)) query
       then 1 else 0) + match_count ignoreCase fuzziness cs doc
  end.

Definition selected (must : bool) (cs : conditions) (count : nat) : bool :=
  (must && (count =? length cs)%nat) || (negb must && (0 <? count)%nat).

(** The loop over the documents: [newDoc] is moved into those selected. *)
Fixpoint update_loop (ignoreCase must : bool) (fuzziness : Z) (cs : conditions) (n : nat) (i r : Z)
    (newDoc : wvalue) : SM wvalue Z :=
  match n with
  | O => ret r
  | S n =>
      let! doc := at_index i get_st in
      if selected must cs (match_count ignoreCase fuzziness cs doc) then
        do! at_index i (assign newDoc);
        update_loop ignoreCase must fuzziness cs n (i + 1) (r + 1) (moved newDoc)
      else update_loop ignoreCase must fuzziness cs n (i + 1) r newDoc
  end.

Definition updateDocument (tenant_id indexName : string) (newDoc : wvalue) (cs : conditions)
    (fuzziness : Z) (must ignoreCase : bool) : SM elastic Z :=
  let! c := on_index (counted tenant_id) in
  if negb c then ret 0%Z
  else
    let! r := on_index (at_key tenant_id
      (let! c := counted indexName in
       if negb c then ret 0%Z
       else
         let! size := read_size indexName in
         if (size <? 1)%Z then ret 0%Z
         else at_key indexName
                (update_loop ignoreCase must fuzziness cs (Z.to_nat size) 0 0 newDoc))) in
    if (0 <? r)%Z then do! persistIndex; ret r else ret r.

Definition deleteDocument (tenant_id indexName : string) (cs : conditions) (fuzziness : Z)
    (must ignoreCase : bool) : SM elastic Z :=
  updateDocument tenant_id indexName (WObj []) cs fuzziness must ignoreCase.

(** ** Searching *)

Fixpoint match_count_r (ignoreCase : bool) (fuzziness : Z) (cs : conditions) (doc : rvalue)
    : outcome nat :=
  match cs with
  | [] => Ok 0
  | (key, query) :: cs =>
      let? h := r_has doc key in
      let? b := if h : bool
                then let? value := r_at_s doc key in
                     Ok (value_matches ignoreCase fuzziness value query)
                else Ok false in
      let? n := match_count_r ignoreCase fuzziness cs doc in
      Ok ((if b : bool then 1 else 0) + n)
  end.

Fixpoint search_docs (ignoreCase must : bool) (fuzziness : Z) (cs : conditions) (docs : list rvalue)
    : outcome (list wvalue) :=
  match docs with
  | [] => Ok []
  | doc :: docs =>
      let? doc := r_copy doc in
      let? n := match_count_r ignoreCase fuzziness cs doc in
      let? here := if selected must cs n then let? w := to_wvalue doc in Ok [w] else Ok [] in
      let? rest := search_docs ignoreCase must fuzziness cs docs in
      Ok (here ++ rest)
  end.

Definition searchMultiple (tenant_id indexName : string) (cs : conditions) (fuzziness : Z)
    (must ignoreCase : bool) (e : elastic) : outcome (list wvalue) :=
  if negb (w_count tenant_id (index e)) then Ok []
  else
    let tenant := w_get tenant_id (index e) in
    if negb (w_count indexName tenant) then Ok []
    else
      let? docs := r_elems (load (dump (w_get indexName tenant))) in
      search_docs ignoreCase must fuzziness cs docs.

(** ** The file after a change *)

Lemma zeros_length n : String.length (zeros n) = n.
Proof. induction n as [|n IH]; cbn; congruence. Qed.
Lemma ftruncate_length n s : String.length (ftruncate n s) = n.
Proof. unfold ftruncate. rewrite slength_app, str_take_length, zeros_length. lia. Qed.

Lemma mapped_ge n : 0 < page -> n <= mapped n.
Proof.
  intros Hp. unfold mapped. pose proof (Nat.div_mod (n + page - 1) page ltac:(lia)).
  pose proof (Nat.mod_upper_bound (n + page - 1) page ltac:(lia)). lia.
Qed.

Lemma persist_cases e :
  (exists e1, persistIndex e = (Ok tt, e1) /\ index e1 = index e) \/
  (exists e1, persistIndex e = (Undef, e1)).
Proof.
  unfold persistIndex. destruct (file_size e <? _)%nat; cbn [file file_size index];
    destruct (_ <=? _)%nat; [left|right|left|right]; by eexists.
Qed.

(** ** Members *)

Lemma w_count_set k k' v w : w_count k (w_set k' v w) = if decide (k = k') then true else w_count k w.
Proof.
  destruct (decide (k = k')) as [<-|Hne]; destruct w; cbn;
    rewrite ?assoc_set_eq, ?assoc_set_ne, ?decide_True, ?decide_False by done; cbn;
    by try (apply bool_decide_eq_true; eexists).
Qed.
Lemma w_count_get k w : w_get k w <> WNull -> w_count k w = true.
Proof.
  destruct w as [| | | | | |o]; cbn; try done. intros H. apply bool_decide_eq_true.
  by destruct (assoc k o); [eexists|].
Qed.

(** The value for an index of an application *)
Definition place (tenant_id indexName : string) (w : wvalue) : wvalue :=
  w_get indexName (w_get tenant_id w).

Lemma place_set t n T w : place t n (w_set t T w) = w_get n T.
Proof. unfold place. by rewrite w_get_set, decide_True. Qed.

Definition stored (tenant_id indexName : string) (l : list wvalue) (w : wvalue) : Prop :=
  place tenant_id indexName w = WList l /\
  place tenant_id (size_key indexName) w = w_int (Z.of_nat (length l)) /\
  (Z.of_nat (length l) <= INT_MAX)%Z.
Definition absent (tenant_id indexName : string) (w : wvalue) : Prop :=
  w_count indexName (w_get tenant_id w) = false.

Lemma stored_count t n l w : stored t n l w -> w_count n (w_get t w) = true.
Proof. intros (H & _). apply w_count_get. unfold place in H. by rewrite H. Qed.

Lemma size_key_ne n : n <> size_key n.
Proof.
  intros H%(f_equal String.length). unfold size_key in H. rewrite slength_app in H. cbn in H. lia.
Qed.

Lemma at_index_in {B} (m : SM wvalue B) l i v :
  l !! i = Some v -> (Z.of_nat (length l) <= INT_MAX)%Z ->
  at_index (Z.of_nat i) m (WList l) = let '(o, v') := m v in (o, WList (<[i := v']> l)).
Proof.
  intros Hv Hl. pose proof (lookup_lt_Some _ _ _ Hv). unfold at_index, INT_MAX in *.
  rewrite !Z.mod_small by lia. replace (Z.to_nat (Z.of_nat i + 1) - length l) with 0 by lia.
  cbn [replicate]. by rewrite app_nil_r, Nat2Z.id, Hv.
Qed.
Lemma at_index_end doc l :
  (Z.of_nat (length l) < INT_MAX)%Z ->
  at_index (Z.of_nat (length l)) (assign doc) (WList l) = (Ok tt, WList (l ++ [doc])).
Proof.
  intros Hl. unfold at_index, INT_MAX in *. rewrite !Z.mod_small by lia.
  replace (Z.to_nat (Z.of_nat (length l) + 1) - length l) with 1 by lia.
  cbn [replicate]. rewrite Nat2Z.id, list_lookup_middle by done. cbn.
  by rewrite insert_app_r_alt, Nat.sub_diag by done.
Qed.

Lemma at_key_assign k v w : at_key k (assign v) w = (Ok tt, w_set k v w).
Proof. done. Qed.

Section documents.
Hypothesis print_int : forall n, (0 <= n <= INT_MAX)%Z -> printf_g (double_of_int n) = to_string n.

Lemma read_size_stored n z w :
  w_get (size_key n) w = w_int z -> (0 <= z <= INT_MAX)%Z ->
  read_size n w = (Ok z, w_set (size_key n) (w_int z) w).
Proof.
  intros Hw Hz. unfold read_size, at_key, dumped, bind, lift. rewrite Hw. cbn [w_int dump].
  rewrite print_int, stoi_to_string by (unfold in_int32, INT_MIN, INT_MAX in *; lia). done.
Qed.

(** A change at the entries of one index leaves the others alone. *)
Definition only_at (t n : string) (w w' : wvalue) : Prop :=
  forall t' n', (t', n') <> (t, n) -> (t', n') <> (t, size_key n) ->
    place t' n' w' = place t' n' w /\ w_count n' (w_get t' w') = w_count n' (w_get t' w).

Lemma only_at_set t n w T :
  (forall n', n' <> n -> n' <> size_key n ->
     w_get n' T = w_get n' (w_get t w) /\ w_count n' T = w_count n' (w_get t w)) ->
  only_at t n w (w_set t T w).
Proof.
  intros H t' n' H1 H2. unfold place. rewrite !w_get_set.
  destruct (decide (t' = t)) as [->|]; [|done]. apply H; congruence.
Qed.

Ltac members := rewrite ?w_get_set, ?w_count_set;
  repeat (destruct (decide _); try done; subst).

Lemma index_run t n doc l e :
  (absent t n (index e) /\ l = [] \/ stored t n l (index e)) ->
  (Z.of_nat (length l) < INT_MAX)%Z ->
  exists w, indexDocument t n doc e = persistIndex (set_index w e) /\
    stored t n (l ++ [doc]) w /\ only_at t n (index e) w.
Proof.
  intros Hl Hlt. unfold indexDocument, on_index. unfold bind at 1. unfold at_key at 1. unfold bind at 1.
  unfold counted at 1. assert (size_key n <> n) as Hk by (intros E; by apply (size_key_ne n)).
  destruct Hl as [[Ha ->]|Hs].
  - rewrite Ha. unfold bind at 1. rewrite !at_key_assign. eexists. split; [reflexivity|]. split.
    + unfold stored. rewrite !place_set. split; [by members|]. split; [by members|].
      cbn. unfold INT_MAX. lia.
    + apply only_at_set. intros n' H1 H2. members.
  - rewrite (stored_count _ _ _ _ Hs). destruct Hs as (Hd & Hz & _). unfold place in Hd, Hz.
    unfold bind at 1. rewrite (read_size_stored n (Z.of_nat (length l))) by (done || (unfold INT_MAX in *; lia)).
    unfold bind at 1, at_key at 1. rewrite w_get_set, decide_False, Hd by done.
    rewrite at_index_end, at_key_assign by done. eexists. split; [reflexivity|]. split.
    + unfold stored. rewrite !place_set, length_app. cbn [length].
      split; [by members|]. split; [|unfold INT_MAX in *; lia]. members. f_equal.
      rewrite int32_id by (unfold in_int32, INT_MIN, INT_MAX in *; lia). lia.
    + apply only_at_set. intros n' H1 H2. members.
Qed.
Lemma clear_run t n l e : stored t n l (index e) ->
  exists w, clearIndex t n e = bind persistIndex (fun _ => ret true) (set_index w e) /\
    stored t n [] w /\ only_at t n (index e) w.
Proof.
  intros Hs. unfold clearIndex, on_index. unfold bind at 1. unfold at_key at 1, counted at 1.
  rewrite (stored_count _ _ _ _ Hs). unfold bind at 1. unfold at_key at 1. unfold bind at 1.
  rewrite !at_key_assign. cbn [index set_index]. rewrite w_get_set, decide_True by done.
  assert (size_key n <> n) as Hk by (intros E; by apply (size_key_ne n)).
  eexists. split; [reflexivity|]. split.
  - unfold stored. rewrite !place_set. split; [by members|]. split; [by members|].
    cbn. unfold INT_MAX. lia.
  - intros t' n' H1 H2. unfold place. rewrite !w_get_set.
    destruct (decide (t' = t)) as [->|]; [|done]. rewrite !w_get_set, !w_count_set.
    assert (n' <> n) by congruence. assert (n' <> size_key n) by congruence. by members.
Qed.

(** The documents after an update, and their number *)
Fixpoint replaced (sel : wvalue -> bool) (newDoc : wvalue) (l : list wvalue) : list wvalue * Z :=
  match l with
  | [] => ([], 0%Z)
  | d :: l => if sel d then let '(l, r) := replaced sel (moved newDoc) l in (newDoc :: l, (r + 1)%Z)
              else let '(l, r) := replaced sel newDoc l in (d :: l, r)
  end.

Lemma replaced_length sel newDoc l : length (replaced sel newDoc l).1 = length l.
Proof.
  revert newDoc. induction l as [|d l IH]; intros newDoc; cbn; [done|].
  destruct (sel d); [specialize (IH (moved newDoc))|specialize (IH newDoc)];
    destruct (replaced _ _ l); cbn in *; congruence.
Qed.

Lemma update_loop_run ic must f cs newDoc l1 l2 r :
  (Z.of_nat (length (l1 ++ l2)) <= INT_MAX)%Z ->
  update_loop ic must f cs (length l2) (Z.of_nat (length l1)) r newDoc (WList (l1 ++ l2))
  = let '(l, n) := replaced (fun d => selected must cs (match_count ic f cs d)) newDoc l2 in
    (Ok (r + n)%Z, WList (l1 ++ l)).
Proof.
  revert newDoc l1 r. induction l2 as [|d l2 IH]; intros newDoc l1 r Hl.
  { cbn. by rewrite Z.add_0_r. }
  cbn [length update_loop replaced]. unfold bind at 1.
  assert ((l1 ++ d :: l2) !! length l1 = Some d) as Hd by by apply list_lookup_middle.
  rewrite (at_index_in _ _ _ _ Hd Hl). cbn [get_st]. rewrite list_insert_id by done.
  assert (forall x : wvalue, Z.of_nat (length (l1 ++ [x])) = (Z.of_nat (length l1) + 1)%Z) as Hi
    by (intros x; rewrite length_app; cbn; lia).
  destruct (selected _ _ _).
  - unfold bind at 1. rewrite (at_index_in _ _ _ _ Hd Hl). cbn [assign put_st].
    rewrite insert_app_r_alt, Nat.sub_diag by done.
    change (<[0:=newDoc]> (d :: l2)) with (newDoc :: l2).
    specialize (IH (moved newDoc) (l1 ++ [newDoc]) (r + 1)%Z).
    rewrite Hi, <- app_assoc in IH. cbn [app] in IH.
    rewrite IH by (rewrite length_app in *; exact Hl). destruct (replaced _ _ l2) as [l n]. rewrite <- app_assoc.
    f_equal. f_equal. lia.
  - specialize (IH newDoc (l1 ++ [d]) r). rewrite Hi, <- app_assoc in IH. cbn [app] in IH.
    rewrite IH by done. destruct (replaced _ _ l2) as [l n]. by rewrite <- app_assoc.
Qed.

Lemma update_run t n l newDoc cs f must ic e :
  w_count t (index e) = true -> stored t n l (index e) ->
  let '(l', r) := replaced (fun d => selected must cs (match_count ic f cs d)) newDoc l in
  exists w, updateDocument t n newDoc cs f must ic e
      = (if (0 <? r)%Z then bind persistIndex (fun _ => ret r) else ret r) (set_index w e) /\
    stored t n l' w /\ only_at t n (index e) w.
Proof.
  intros Ht Hs. pose proof (replaced_length (fun d => selected must cs (match_count ic f cs d)) newDoc l) as Hlen.
  assert (size_key n <> n) as Hk by (intros E; by apply (size_key_ne n)).
  unfold updateDocument, on_index. unfold bind at 1. unfold counted at 1. rewrite Ht. cbn [negb].
  unfold bind at 1. unfold at_key at 1. unfold bind at 1, counted at 1. cbn [index set_index].
  rewrite (stored_count _ _ _ _ Hs). cbn [negb]. destruct Hs as (Hd & Hz & Hlt). unfold place in Hd, Hz.
  unfold bind at 1. rewrite (read_size_stored n (Z.of_nat (length l))) by (done || (unfold INT_MAX in *; lia)).
  destruct (Z.ltb_spec (Z.of_nat (length l)) 1) as [H0|H0].
  - destruct l; [|cbn in H0; lia]. cbn [replaced]. cbn [ret]. eexists. split; [reflexivity|].
    split; [|apply only_at_set; intros n' H1 H2; members].
    unfold stored. rewrite !place_set. split; [by members|]. by members.
  - unfold at_key at 1. rewrite w_get_set, decide_False, Hd by done. rewrite Nat2Z.id.
    pose proof (update_loop_run ic must f cs newDoc [] l 0 Hlt) as H. cbn [length app] in H.
    change (Z.of_nat 0) with 0%Z in H. rewrite H. destruct (replaced _ _ l) as [l' r]. cbn [fst] in Hlen.
    rewrite Z.add_0_l. eexists. split; [by destruct (0 <? r)%Z|].
    split; [|apply only_at_set; intros n' H1 H2; members].
    unfold stored. rewrite !place_set, Hlen. split; [by members|]. by members.
Qed.
(** *** The lists of documents as a store *)

Inductive change :=
  | Index (doc : wvalue)
  | Clear
  | Update (newDoc : wvalue) (cs : conditions) (fuzziness : Z) (must ignoreCase : bool)
  | Delete (cs : conditions) (fuzziness : Z) (must ignoreCase : bool).

Inductive answer := Done | Cleared (b : bool) | Updated (n : Z).

Definition perform (t n : string) (c : change) : SM elastic answer :=
  match c with
  | Index doc => do! indexDocument t n doc; ret Done
  | Clear => let! b := clearIndex t n in ret (Cleared b)
  | Update newDoc cs f must ic => let! r := updateDocument t n newDoc cs f must ic in ret (Updated r)
  | Delete cs f must ic => let! r := deleteDocument t n cs f must ic in ret (Updated r)
  end.

Definition updated (newDoc : wvalue) (cs : conditions) (f : Z) (must ic : bool)
    (o : option (list wvalue)) : option (list wvalue) * answer * bool :=
  match o with
  | Some l => let '(l, r) := replaced (fun d => selected must cs (match_count ic f cs d)) newDoc l in
              (Some l, Updated r, (0 <? r)%Z)
  | None => (None, Updated 0, false)
  end.

(** What a change makes of the documents of its index, what it answers, and
    whether the file is written *)
Definition spec (c : change) (o : option (list wvalue)) : option (list wvalue) * answer * bool :=
  match c with
  | Index doc => (Some (default [] o ++ [doc]), Done, true)
  | Clear => match o with Some _ => (Some [], Cleared true, true) | None => (None, Cleared false, false) end
  | Update newDoc cs f must ic => updated newDoc cs f must ic o
  | Delete cs f must ic => updated (WObj []) cs f must ic o
  end.

Definition holds (t n : string) (o : option (list wvalue)) (w : wvalue) : Prop :=
  match o with Some l => stored t n l w | None => absent t n w end.

Lemma set_index_id e : set_index (index e) e = e.
Proof. by destruct e. Qed.

Lemma stored_tenant t n l w : stored t n l w -> w_count t w = true.
Proof. intros (H & _). apply w_count_get. intros E. unfold place in H. by rewrite E in H. Qed.

Lemma bind_ret {S A B} (m : SM S A) (f : A -> B) s :
  bind m (fun a => ret (f a)) s = let '(o, s) := m s in (let? a := o in Ok (f a), s).
Proof. unfold bind. by destruct (m s) as [[] ?]. Qed.

Lemma update_refines t n newDoc cs f must ic o e : holds t n o (index e) ->
  let '(o', a, wr) := updated newDoc cs f must ic o in
  exists w, holds t n o' w /\ only_at t n (index e) w /\
    bind (updateDocument t n newDoc cs f must ic) (fun r => ret (Updated r)) e
    = (if wr : bool then do! persistIndex; ret a else ret a) (set_index w e).
Proof.
  intros H. destruct o as [l|]; cbn [updated holds] in *.
  - pose proof (update_run t n l newDoc cs f must ic e (stored_tenant _ _ _ _ H) H) as Hu.
    destruct (replaced _ _ l) as [l' r]. destruct Hu as (w & E & Hs & Ho). exists w.
    split; [done|]. split; [done|]. rewrite bind_ret, E. destruct (0 <? r)%Z; [|done].
    unfold bind. by destruct (persistIndex _) as [[] ?].
  - unfold updateDocument, on_index. destruct (w_count t (index e)) eqn:Et.
    + exists (w_set t (w_get t (index e)) (index e)). split; [|split].
      * unfold absent. by rewrite w_get_set, decide_True.
      * by apply only_at_set.
      * unfold bind, counted, at_key. rewrite Et. cbn. unfold absent in H. by rewrite H.
    + exists (index e). split; [done|]. split; [done|]. unfold bind, counted. rewrite Et. done.
Qed.

(** C17. Adding, clearing, updating and deleting documents, seen from the lists
    of documents, is what [spec] says; the other lists stay, save one that bears
    the name under which the size is kept. *)
Theorem elastic_refines t n c o e :
  holds t n o (index e) -> (Z.of_nat (length (default [] o)) < INT_MAX)%Z ->
  let '(o', a, wr) := spec c o in
  exists w, holds t n o' w /\ only_at t n (index e) w /\
    perform t n c e = (if wr : bool then do! persistIndex; ret a else ret a) (set_index w e).
Proof.
  intros H Hl. destruct c as [doc| |newDoc cs f must ic|cs f must ic]; cbn [spec perform].
  - destruct (index_run t n doc (default [] o) e) as (w & E & Hs & Ho); [by destruct o; [right|left]|done|].
    exists w. split; [done|]. split; [done|]. unfold bind at 1. rewrite E. unfold bind.
    by destruct (persistIndex _) as [[] ?].
  - destruct o as [l|]; cbn [holds] in H.
    + destruct (clear_run t n l e H) as (w & E & Hs & Ho). exists w. split; [done|]. split; [done|].
      rewrite bind_ret, E. unfold bind. by destruct (persistIndex _) as [[] ?].
    + exists (w_set t (w_get t (index e)) (index e)). split; [|split].
      * unfold holds, absent. by rewrite w_get_set, decide_True.
      * by apply only_at_set.
      * unfold clearIndex, on_index, bind, counted, at_key. unfold absent in H. by rewrite H.
  - by apply update_refines.
  - by apply update_refines.
Qed.
End documents.

(** ** Files *)

Section files.
Hypothesis page_pos : 0 < page.
Hypothesis past_eof_length : forall s, String.length (past_eof s) = String.length s.

Definition written (n : nat) (s : string) : string := str_take n s +:+ past_eof (str_drop n s).

Lemma written_length n s : String.length (written n s) = String.length s.
Proof. unfold written. rewrite slength_app, past_eof_length, str_take_length, str_drop_length. lia. Qed.
Lemma past_eof_nil : past_eof EmptyString = EmptyString.
Proof. pose proof (past_eof_length EmptyString) as H. by destruct (past_eof EmptyString). Qed.
Lemma written_all n s : String.length s <= n -> written n s = s.
Proof.
  intros H. unfold written. rewrite str_take_all, str_drop_all by done.
  by rewrite past_eof_nil, sapp_nil_r.
Qed.

Lemma persist_outcome e :
  let n := String.length (dump (index e)) in
  persistIndex e =
  if (file_size e <? n)%nat then
    (Ok tt, {| index := index e; file := dump (index e); file_size := n |})
  else if (file_size e <=? mapped (String.length (file e)))%nat then
    (Ok tt, {| index := index e; file := written (String.length (file e)) (dump (index e));
               file_size := file_size e |})
  else (Undef, e).
Proof.
  cbn zeta. unfold persistIndex. destruct (Nat.ltb_spec (file_size e) (String.length (dump (index e)))) as [H|H].
  - cbn [file index file_size]. rewrite ftruncate_length.
    rewrite (proj2 (Nat.leb_le _ _) (mapped_ge _ page_pos)).
    by rewrite str_take_all, str_drop_all, past_eof_nil, sapp_nil_r.
  - done.
Qed.

Lemma load_written v : printable v ->
  loadIndex (dump v)
  = let? w := to_wvalue (Some (json_of v)) in
    Ok {| index := w; file := dump v; file_size := String.length (dump v) |}.
Proof.
  intros Hp. pose proof (dump_head v Hp) as [(Hh & _) Hn]. unfold loadIndex.
  assert (match dump v with EmptyString => ftruncate 4096 EmptyString | _ => dump v end = dump v) as ->
    by by destruct (dump v).
  destruct (Ascii.eqb_spec (peek (dump v)) NUL) as [E|_]; [by rewrite E in Hh|].
  by rewrite load_printed.
Qed.

(** C19. Writing the index makes the file as long as the text.  The text is in the
    file, and is the index that is read when the program starts again, when it
    grew past the mapping or fits the file as it was.  [file_size] keeps the
    largest size there was: once the file has lost a page of it, the next
    change that does not outgrow it faults. *)
Theorem persist_file e e1 w :
  persistIndex e = (Ok tt, e1) ->
  let n := String.length (dump (index e)) in
  index e1 = index e /\ String.length (file e1) = n /\ file_size e1 = Nat.max (file_size e) n /\
  (printable (index e) -> n <= String.length (file e) \/ file_size e < n ->
     file e1 = dump (index e) /\
     loadIndex (file e1) = let? v := to_wvalue (Some (json_of (index e))) in
                           Ok {| index := v; file := file e1; file_size := n |}) /\
  ((persistIndex (set_index w e1)).1 = Undef <->
     mapped n < file_size e1 /\ String.length (dump w) <= file_size e1).
Proof.
  rewrite persist_outcome. cbn zeta. intros H.
  assert (index e1 = index e /\ String.length (file e1) = String.length (dump (index e)) /\
          file_size e1 = Nat.max (file_size e) (String.length (dump (index e))) /\
          (String.length (dump (index e)) <= String.length (file e) \/
           file_size e < String.length (dump (index e)) -> file e1 = dump (index e))) as (Hi & Hf & Hs & Hd).
  { destruct (Nat.ltb_spec (file_size e) (String.length (dump (index e)))) as [Hlt|Hge].
    - injection H as <-. cbn. do 2 (split; [done|]). split; [lia|done].
    - destruct (Nat.leb_spec (file_size e) (mapped (String.length (file e)))); [|done].
      injection H as <-. cbn. rewrite written_length. do 2 (split; [done|]). split; [lia|].
      intros [?|?]; [by apply written_all|lia]. }
  split; [done|]. split; [done|]. split; [done|]. split.
  - intros Hp Hor. rewrite (Hd Hor). split; [done|]. by apply load_written.
  - rewrite persist_outcome. cbn [index file file_size set_index]. rewrite Hf.
    destruct (Nat.ltb_spec (file_size e1) (String.length (dump w)));
      [|destruct (Nat.leb_spec (file_size e1) (mapped (String.length (dump (index e)))))];
      cbn; split; try done; lia.
Qed.
End files.

(** ** Searches *)

(** A document whose members are texts *)
Definition flat (d : wvalue) : Prop :=
  exists o, d = WObj o /\ NoDup o.*1 /\ Forall (fun p => exists s, p.2 = WStr s) o.

(** The number of conditions a document satisfies: each names a member that
    nearly matches *)
Definition satisfied (ic : bool) (f : Z) (cs : conditions) (d : wvalue) : nat :=
  length (filterb (fun c => match w_get c.1 d with
                            | WStr s => value_matches ic f s c.2
                            | _ => false
                            end) cs).

(** The members in the order in which the printer lists them *)
Definition listed (d : wvalue) : wvalue :=
  match d with WObj o => WObj (reorder o) | _ => d end.

Lemma pick_keys {A} (o : list (string * A)) keys : (forall k, k ∈ keys -> k ∈ o.*1) -> (pick o keys).*1 = keys.
Proof.
  induction keys as [|k keys IH]; intros H; [done|]. cbn [pick].
  destruct (assoc k o) eqn:E.
  - cbn. f_equal. apply IH. intros k' Hk'. apply H. by right.
  - apply assoc_None in E. destruct E. apply H. left.
Qed.
Lemma reorder_NoDup {A} (o : list (string * A)) : NoDup o.*1 -> NoDup (reorder o).*1.
Proof.
  intros H. unfold reorder. rewrite pick_keys.
  - by rewrite (hash_order_perm o.*1).
  - intros k. by rewrite (hash_order_perm o.*1).
Qed.

Definition texts (o : list (string * string)) : list (string * wvalue) := (fun p => (p.1, WStr p.2)) <$> o.
Definition raw_texts (o : list (string * string)) : list (string * json) :=
  (fun p => (p.1, JStr (escape p.2))) <$> o.

Lemma flat_texts d : flat d <-> exists o, d = WObj (texts o) /\ NoDup o.*1.
Proof.
  split.
  - intros (o & -> & Hn & Ho). exists ((fun p => (p.1, match p.2 with WStr s => s | _ => EmptyString end)) <$> o).
    unfold texts. rewrite <- !list_fmap_compose. split.
    + f_equal. rewrite <- (list_fmap_id o) at 1. apply list_fmap_ext. intros i [k v] Hv.
      rewrite Forall_forall in Ho. destruct (Ho (k, v)) as [s E]; [by eapply list_elem_of_lookup_2|].
      cbn in E. by subst v.
    + done.
  - intros (o & -> & Hn). exists (texts o). split; [done|]. unfold texts. split.
    + by rewrite <- list_fmap_compose.
    + apply Forall_fmap, Forall_forall. intros p _. by exists p.2.
Qed.

Lemma json_of_texts o : json_of (WObj (texts o)) = JObj (raw_texts (reorder o)).
Proof.
  cbn [json_of]. unfold raw_texts, texts. f_equal. rewrite map_map. apply (reorder_map (fun s => JStr (escape s))).
Qed.

Lemma texts_printable o : printable (WObj (texts o)).
Proof. apply printable_obj, Forall_fmap, Forall_forall. done. Qed.

Lemma assoc_texts k o : assoc k (texts o) = WStr <$> assoc k o.
Proof. apply (assoc_map WStr). Qed.
Lemma assoc_raw k o : assoc k (raw_texts (reorder o)) = (fun s => JStr (escape s)) <$> assoc k o.
Proof. unfold raw_texts. rewrite (assoc_map (fun s => JStr (escape s))). by rewrite assoc_reorder. Qed.

Lemma match_count_texts ic f cs o :
  match_count_r ic f cs (Some (JObj (raw_texts (reorder o)))) = Ok (satisfied ic f cs (WObj (texts o))).
Proof.
  unfold satisfied. induction cs as [|[k qy] cs IH]; [done|]. cbn [match_count_r r_has].
  rewrite IH, assoc_raw. rewrite filter_cons. unfold r_at_s, r_at. rewrite assoc_raw. cbn [obind fst snd w_get].
  rewrite assoc_texts. destruct (assoc k o) as [s|]; cbn; [|by rewrite decide_False].
  rewrite unescape_escape. destruct (value_matches ic f s qy) eqn:E.
  - by rewrite decide_True.
  - by rewrite decide_False.
Qed.

Lemma to_wvalue_texts o : NoDup o.*1 -> to_wvalue (Some (JObj (raw_texts o))) = Ok (WObj (texts o)).
Proof.
  intros Hn. cbn [to_wvalue wvalue_of_json].
  match goal with |- (let? x := ?loop _ _ in _) = _ =>
    assert (forall l acc, NoDup (acc ++ l).*1 -> loop (texts acc) (raw_texts l) = Ok (texts (acc ++ l))) as H end.
  { clear o Hn. induction l as [|[k s] l IH]; intros acc Hn; [by rewrite app_nil_r|].
    cbn [raw_texts fmap list_fmap fst snd wvalue_of_json obind]. rewrite unescape_escape.
    assert (assoc_emplace k (WStr s) (texts acc) = texts (acc ++ [(k, s)])) as ->.
    { unfold assoc_emplace. rewrite assoc_texts. destruct (assoc k acc) eqn:E.
      - exfalso. rewrite fmap_app in Hn. apply NoDup_app in Hn as (_ & Hd & _). apply (Hd k); [|left].
        apply assoc_In in E. by apply (list_elem_of_fmap_2 fst) in E.
      - cbn. unfold texts. by rewrite fmap_app. }
    rewrite IH by (by rewrite <- app_assoc). by rewrite <- app_assoc. }
  specialize (H o [] Hn). cbn [texts fmap list_fmap app] in H. by rewrite H.
Qed.

Lemma search_docs_texts ic must f cs l : Forall flat l ->
  search_docs ic must f cs (Some <$> map json_of l)
  = Ok (listed <$> filterb (fun d => selected must cs (satisfied ic f cs d)) l).
Proof.
  induction 1 as [|d l Hd _ IH]; [done|]. apply flat_texts in Hd as (o & -> & Hn).
  cbn [map fmap list_fmap]. rewrite json_of_texts. cbn [search_docs r_copy].
  assert (existsb is_container (raw_texts (reorder o)).*2 = false) as ->.
  { unfold raw_texts. by induction (reorder o). }
  cbn [obind]. rewrite match_count_texts. cbn [obind].
  change (fmap (M := list) Some (map json_of l)) with (Some <$> map json_of l). rewrite filter_cons.
  destruct (selected must cs (satisfied ic f cs (WObj (texts o)))).
  - rewrite to_wvalue_texts by (by apply reorder_NoDup). cbn [obind].
    rewrite decide_True by done. rewrite fmap_cons. cbn [listed].
    assert (reorder (texts o) = texts (reorder o)) as -> by apply (reorder_map WStr).
    unfold rvalue in IH. by rewrite IH.
  - cbn [obind]. rewrite decide_False by done. unfold rvalue in IH. by rewrite IH.
Qed.

Lemma searchMultiple_run t n l cs f must ic e :
  place t n (index e) = WList l -> Forall flat l ->
  searchMultiple t n cs f must ic e
  = Ok (listed <$> filterb (fun d => selected must cs (satisfied ic f cs d)) l).
Proof.
  intros H Hl. unfold searchMultiple. unfold place in H.
  assert (w_count t (index e) = true) as -> by (apply w_count_get; intros E; by rewrite E in H).
  assert (w_count n (w_get t (index e)) = true) as -> by (apply w_count_get; by rewrite H).
  cbn [negb]. rewrite H, load_printed.
  - cbn [json_of r_elems obind]. by apply search_docs_texts.
  - apply printable_list. eapply Forall_impl; [exact Hl|]. intros d (o & -> & _)%flat_texts.
    apply texts_printable.
Qed.

(** Documents with texts, lists and objects for members: the copy of one with a
    list or an object in it throws, and ends the search. *)
Definition container (v : wvalue) : bool :=
  match v with WList _ | WObj _ => true | _ => false end.
Definition nested (d : wvalue) : bool :=
  match d with WObj o => existsb (fun p => container p.2) o | _ => false end.
Definition member_ok (v : wvalue) : Prop :=
  (exists s, v = WStr s) \/ container v = true /\ printable v.
Definition document (d : wvalue) : Prop :=
  exists o, d = WObj o /\ NoDup o.*1 /\ Forall (fun p => member_ok p.2) o.

Lemma flat_document d : flat d -> document d.
Proof.
  intros (o & -> & Hn & Ho). exists o. split_and!; [done..|].
  eapply Forall_impl; [exact Ho|]. intros p H. by left.
Qed.

Lemma document_flat d : document d -> nested d = false -> flat d.
Proof.
  intros (o & -> & Hn & Ho) H. exists o. split_and!; [done..|]. apply Forall_forall. intros p Hp.
  rewrite Forall_forall in Ho. destruct (Ho p Hp) as [?|[Hc _]]; [done|].
  cbn in H. by rewrite (proj2 (existsb_exists _ _)) in H by (exists p; by rewrite <- list_elem_of_In).
Qed.

Lemma documents_flat l : Forall document l -> existsb nested l = false -> Forall flat l.
Proof.
  induction 1 as [|d l Hd _ IH]; [done|]. cbn [existsb]. intros [H1 H2]%orb_false_iff.
  constructor; [by apply document_flat|by apply IH].
Qed.

Lemma document_printable d : document d -> printable d.
Proof.
  intros (o & -> & _ & Ho). apply printable_obj. eapply Forall_impl; [exact Ho|].
  intros p [[s E]|[_ ?]]; [by rewrite E|done].
Qed.

Lemma container_json v : is_container (json_of v) = container v.
Proof. by destruct v. Qed.

Lemma nested_copy d : document d -> nested d = true -> r_copy (Some (json_of d)) = Throw err_invalid.
Proof.
  intros (o & -> & Hn & _) H. cbn [nested] in H.
  cbn [json_of r_copy]. set (o' := map _ o).
  assert (existsb is_container (reorder o').*2 = true) as ->; [|done].
  apply existsb_exists in H as ([k v] & Hp & Hc). apply list_elem_of_In in Hp.
  assert (assoc k (reorder o') = Some (json_of v)) as Ha.
  { unfold o'. rewrite assoc_json_of. by rewrite (proj2 (assoc_elem k v o Hn)). }
  apply existsb_exists. exists (json_of v). split; [|by rewrite container_json].
  apply list_elem_of_In, (list_elem_of_fmap_2 snd _ (k, json_of v)). by apply assoc_In.
Qed.

Lemma search_docs_nested ic must f cs l : Forall document l -> existsb nested l = true ->
  search_docs ic must f cs (Some <$> map json_of l) = Throw err_invalid.
Proof.
  induction 1 as [|d l Hd _ IH]; [done|]. cbn [existsb]. intros H.
  cbn [map fmap list_fmap search_docs].
  destruct (nested d) eqn:Ed; [by rewrite nested_copy|]. specialize (IH H).
  pose proof (search_docs_texts ic must f cs [d]
    (Forall_cons_2 _ _ _ (document_flat d Hd Ed) (Forall_nil_2 _))) as Hh.
  cbn [map fmap list_fmap search_docs] in Hh.
  change (fmap (M := list) Some (map json_of l)) with (Some <$> map json_of l).
  unfold rvalue in IH. rewrite IH.
  destruct (r_copy _) as [doc| | |]; try done. cbn [obind] in *.
  destruct (match_count_r _ _ _ _) as [n| | |]; try done. cbn [obind] in *.
  destruct (if selected must cs n then _ else _) as [here| | |]; done.
Qed.

Lemma searchMultiple_nested t n l cs f must ic e :
  place t n (index e) = WList l -> Forall document l -> existsb nested l = true ->
  searchMultiple t n cs f must ic e = Throw err_invalid.
Proof.
  intros H Hl Hx. unfold searchMultiple. unfold place in H.
  assert (w_count t (index e) = true) as -> by (apply w_count_get; intros E; by rewrite E in H).
  assert (w_count n (w_get t (index e)) = true) as -> by (apply w_count_get; by rewrite H).
  cbn [negb]. rewrite H, load_printed.
  - cbn [json_of r_elems obind]. by apply search_docs_nested.
  - apply printable_list. eapply Forall_impl; [exact Hl|]. apply document_printable.
Qed.

(** C20. [searchMultiple] gives, in the order in which they were added, the
    documents of which all (or, without [must], some) conditions hold: for
    documents whose members are texts. *)
Theorem search_documents t n l cs f must ic e :
  place t n (index e) = WList l -> Forall flat l ->
  searchMultiple t n cs f must ic e
  = Ok (listed <$> filterb (fun d => selected must cs (satisfied ic f cs d)) l).
Proof. apply searchMultiple_run. Qed.
End elastic.

(** ** Examples *)

Section examples.
#[local] Existing Instance int_platform.

Definition example_doc (title content : string) : wvalue :=
  WObj [("title", WStr title); ("content", WStr content)].
Definition example_index (l : list wvalue) : wvalue :=
  WObj [("app1", WObj [("articles", WList l); ("articles_size", WNum (Z.of_nat (length l)))])].
Definition example_docs : list wvalue :=
  [example_doc "Elasticsearch with C++" "This is a test query document"; example_doc "Trees" "none"].
Definition example_elastic (w : wvalue) : elastic := {| index := w; file := dump w; file_size := 160 |}.

Lemma example_print n : (0 <= n <= INT_MAX)%Z -> printf_g (double_of_int n) = to_string n.
Proof. done. Qed.

Lemma search_documents_witness :
  searchMultiple "app1" "articles" [("title", "Elesticsearch"); ("content", "query")] 2 true true
    (example_elastic (example_index example_docs))
  = Ok [example_doc "Elasticsearch with C++" "This is a test query document"].
Proof.
  rewrite (search_documents "app1" "articles" example_docs); [reflexivity|reflexivity|].
  repeat constructor; eexists; (split; [reflexivity|]); (split; [|repeat constructor; by eexists]);
    apply (bool_decide_unpack _); vm_compute; exact I.
Defined.

(** Deleting replaces the document by an empty one. *)
Definition letters : list wvalue := [WObj [("t", WStr "a")]; WObj [("t", WStr "b")]].
Definition letter_elastic : elastic :=
  {| index := WObj [("app", WObj [("i", WList letters); ("i_size", WNum 2%Z)])];
     file := EmptyString; file_size := 0 |}.

Lemma elastic_refines_witness :
  exists w, stored "app" "i" [WObj []; WObj [("t", WStr "b")]] w /\
    perform 16 id "app" "i" (Delete [("t", q "`a`")] 0 true false) letter_elastic
    = bind (persistIndex 16 id) (fun _ => ret (Updated 1)) (set_index w letter_elastic).
Proof.
  pose proof (elastic_refines 16 id example_print "app" "i" (Delete [("t", q "`a`")] 0 true false)
                (Some letters) letter_elastic) as H.
  assert (spec (Delete [("t", q "`a`")] 0 true false) (Some letters)
          = (Some [WObj []; WObj [("t", WStr "b")]], Updated 1, true)) as Hs by reflexivity.
  rewrite Hs in H. destruct H as (w & Hw & _ & E).
  - split; [reflexivity|]. split; [reflexivity|]. cbn. unfold INT_MAX. lia.
  - cbn. unfold INT_MAX. lia.
  - exists w. split; [exact Hw|exact E].
Defined.

(** Pages of 4 bytes: the index was cleared, and the next document faults. *)
Definition small_index (l : list wvalue) : wvalue := WObj [("a", WObj [("i", WList l)])].
Definition small_elastic (s : string) : elastic :=
  {| index := small_index []; file := s; file_size := 24 |}.

Lemma persist_file_witness :
  let e1 := small_elastic (dump (small_index [])) in
  persistIndex 4 id (small_elastic (dump (small_index [WStr "document"]))) = (Ok tt, e1) /\
  (persistIndex 4 id (set_index (small_index [WNull; WNull]) e1)).1 = Undef.
Proof.
  intros e1.
  assert (persistIndex 4 id (small_elastic (dump (small_index [WStr "document"]))) = (Ok tt, e1)) as H
    by reflexivity.
  split; [exact H|].
  destruct (persist_file 4 id ltac:(lia) (fun s => eq_refl) _ e1 (small_index [WNull; WNull]) H)
    as (_ & _ & _ & _ & Hiff).
  apply Hiff. split; [apply Nat.ltb_lt|apply Nat.leb_le]; vm_compute; reflexivity.
Defined.
End examples.
