(* ===== verification/JsonOut.v ===== *)
(** * The room for printed JSON, and the other readers of a value

    src/third-party/crow/include/crow/json.h: the estimate [dump] reserves its
    text by, [rvalue::u], the comparisons of a value with a text or a number, and
    the operator that writes a parsed value to a stream, which the logs use. *)

From S2P Require Import Prelude Json Elastic.
Local Open Scope quarks_scope.

Section out.
Context {plat : Platform}.

(** [wvalue::estimate_length] *)
Definition text_estimate (s : string) : nat := 2 + String.length s + String.length s / 2.
Fixpoint estimate_length (v : wvalue) : nat :=
  match v with
  | WNull => 4
  | WFalse => 5
  | WTrue => 4
  | WNum _ => 30
  | WStr s => text_estimate s
  | WList l => sum_list (map (fun x => 1 + estimate_length x) l) + 2
  | WObj o => sum_list (map (fun p => 2 + text_estimate p.1 + estimate_length p.2) o) + 2
  end.

(** [rvalue::u], over [boost::lexical_cast<uint64_t>] *)
Definition r_u (lexical_cast_uint64 : string -> option Z) (r : rvalue) : outcome Z :=
  match r with
  | Some (JNum t) | Some (JStr t) =>
      match lexical_cast_uint64 t with Some z => Ok z | None => Throw BadLexicalCast end
  | Some j => Throw (RuntimeError ("expected number, got: " +:+ get_type_str (type_of j)))
  | None => Throw err_invalid
  end.

(** [operator==] of a value with a text, and with a number *)
Definition equals_text (l : rvalue) (r : string) : outcome bool := let? s := r_s l in Ok (String.eqb s r).
Definition equals_number (l : rvalue) (r : double) : outcome bool := let? d := r_d l in Ok (double_eqb d r).

(** [operator <<]; the stream prints the number.  Keys are escaped, texts are
    not. *)
Fixpoint stream (print_double : double -> string) (j : json) : outcome string :=
  match j with
  | JNull => Ok "null"
  | JFalse => Ok "false"
  | JTrue => Ok "true"
  | JNum t => let? d := r_d (Some (JNum t)) in Ok (print_double d)
  | JStr raw => Ok (String DQUOTE (unescape raw +:+ String DQUOTE EmptyString))
  | JList l =>
      let? parts := (fix go l := match l with
                                 | [] => Ok []
                                 | x :: l => let? s := stream print_double x in let? r := go l in Ok (s :: r)
                                 end) l in
      Ok (String "[" (comma_sep parts +:+ "]"))
  | JObj ms =>
      let? parts := (fix go l := match l with
                                 | [] => Ok []
                                 | (k, x) :: l =>
                                     let? s := stream print_double x in let? r := go l in
                                     Ok ((dump_string k +:+ String ":" s) :: r)
                                 end) ms in
      Ok (String "{" (comma_sep parts +:+ "}"))
  end.

(** ** The estimate and the text *)

Lemma comma_sep_length l : String.length (comma_sep l) <= sum_list (map (fun s => S (String.length s)) l).
Proof.
  induction l as [|x [|y l] IH]; cbn -[comma_sep sum_list]; [done|cbn; lia|].
  change (comma_sep (x :: y :: l)) with (x +:+ String "," (comma_sep (y :: l))).
  rewrite slength_app. cbn [String.length]. change (sum_list (?a :: ?b)) with (a + sum_list b). cbn in *. lia.
Qed.

Lemma reorder_Permutation {B} (o : list (string * B)) : NoDup o.*1 -> reorder o ≡ₚ o.
Proof.
  intros Hn. pose proof (reorder_NoDup o Hn) as Hr. apply NoDup_Permutation; [by eapply NoDup_fmap_1..|].
  intros [k v]. by rewrite <- !assoc_elem, assoc_reorder.
Qed.

Lemma sum_perm (l l' : list nat) : l ≡ₚ l' -> sum_list l = sum_list l'.
Proof. induction 1; cbn in *; lia. Qed.

Lemma escape_length s : String.length (escape s) <= 6 * String.length s.
Proof.
  induction s as [|c s IH]; [done|]. cbn [escape]. rewrite slength_app.
  assert (String.length (escape_char c) <= 6) by (unfold escape_char; repeat case_match; cbn; lia).
  cbn [String.length]. lia.
Qed.

(** The texts and keys of a value *)
Fixpoint strings (v : wvalue) : list string :=
  match v with
  | WStr s => [s]
  | WList l => concat (map strings l)
  | WObj o => concat (map (fun p => p.1 :: strings p.2) o)
  | _ => []
  end.

(** Numbers as [%0.10g] prints them: a sign, a point, ten digits, an exponent *)
Definition short_numbers : Prop := forall d, String.length (printf_g d) <= 30.

Definition within (c : nat) (s : string) : Prop := String.length (escape s) + 2 <= c * text_estimate s.

Lemma dump_within c v : 1 <= c -> short_numbers -> w_wf v -> Forall (within c) (strings v) ->
  String.length (dump v) <= c * estimate_length v.
Proof.
  intros Hc Hn. revert v. fix IH 1. intros [| | |d|s|l|o] Hw Hs.
  1-3: cbn; lia.
  - cbn [dump estimate_length]. specialize (Hn d). nia.
  - cbn in Hs. apply Forall_inv in Hs. unfold within in Hs. cbn [dump estimate_length]. unfold dump_string.
    cbn [String.length]. rewrite slength_app. cbn [String.length]. lia.
  - cbn [dump estimate_length]. apply w_wf_list in Hw. cbn [String.length]. rewrite slength_app.
    pose proof (comma_sep_length (map dump l)) as Hl.
    assert (sum_list (map (fun s => S (String.length s)) (map dump l)) <=
      c * sum_list (map (fun x => 1 + estimate_length x) l)).
    { clear Hl. induction l as [|x l IHl]; [cbn; lia|]. cbn in Hs. apply Forall_app in Hs as [Hx Hs].
      apply Forall_cons in Hw as [Hwx Hw]. specialize (IH x Hwx Hx). specialize (IHl Hw Hs). cbn in *. lia. }
    cbn [String.length]. lia.
  - cbn [dump estimate_length]. apply w_wf_obj in Hw as [Hnd Hw]. cbn [String.length]. rewrite slength_app.
    rewrite (reorder_map dump). rewrite map_map. cbn [fst snd].
    pose proof (comma_sep_length (map (fun p => dump_string p.1 +:+ String ":" (dump p.2)) (reorder o))) as Hl.
    rewrite map_map in Hl.
    rewrite (sum_perm _ _ (Permutation_map _ (reorder_Permutation o Hnd))) in Hl.
    assert (sum_list (map (fun p => S (String.length (dump_string p.1 +:+ String ":" (dump p.2)))) o) <=
      c * sum_list (map (fun p => 2 + text_estimate p.1 + estimate_length p.2) o)).
    { clear Hl Hnd. induction o as [|[k x] o IHo]; [cbn; lia|]. cbn in Hs. apply Forall_cons in Hs as [Hk Hs].
      apply Forall_app in Hs as [Hx Hs]. apply Forall_cons in Hw as [Hwx Hw].
      specialize (IH x Hwx Hx). specialize (IHo Hw Hs). unfold within in Hk. cbn [map sum_list fold_right] in *.
      rewrite slength_app. unfold dump_string, id in *. cbn [String.length fst snd] in *. rewrite slength_app.
      cbn [String.length]. nia. }
    cbn [String.length]. lia.
Qed.

(** [dump] reserves what it writes when at most one character in two is escaped
    by a second one; and never less than a quarter of it, whatever is escaped. *)
Lemma dump_reserves v : short_numbers -> w_wf v ->
  String.length (dump v) <= 4 * estimate_length v /\
  (Forall (fun s => String.length (escape s) <= String.length s + String.length s / 2) (strings v) ->
   String.length (dump v) <= estimate_length v).
Proof.
  intros Hn Hw. split.
  - apply dump_within; [lia|done|done|]. apply Forall_forall. intros s _. unfold within, text_estimate.
    pose proof (escape_length s). pose proof (Nat.div_mod_eq (String.length s) 2).
    pose proof (Nat.mod_upper_bound (String.length s) 2 ltac:(lia)). lia.
  - intros Hs. rewrite <- (Nat.mul_1_l (estimate_length v)). apply dump_within; [lia|done|done|].
    eapply Forall_impl; [exact Hs|]. intros s Hl. cbn beta in Hl. unfold within, text_estimate. lia.
Qed.
End out.

(** The stream operator does not escape texts, so what it writes need not be
    JSON. *)
Section streamed.
#[local] Existing Instance int_platform.
Lemma streamed_not_json :
  let quoted := q "{`a`:`x\`y`,`n`:1}" in
  exists j, load quoted = Some j /\ stream (fun _ => "1") j = Ok (q "{`a`:`x`y`,`n`:1}") /\
    load (q "{`a`:`x`y`,`n`:1}") = None.
Proof. eexists. split; [vm_compute; reflexivity|]. split; vm_compute; reflexivity. Qed.
End streamed.
