(* ===== verification/Searcher.v ===== *)
(** * The routes of the two search indexes

    src/src/qsearch.cpp, [QSearch::BuildHttpRoutes]: the handlers of [/fuzzy/...]
    over the word index and of [/elastic/...] over the document index. *)

From S2P Require Import Prelude Json Scan Frames Http Distance Elastic Trie.
Local Open Scope quarks_scope.

Section searcher.
Context {plat : Platform} (page : nat) (past_eof : string -> string)
  (place : ascii -> TrieNode -> list (ascii * TrieNode) -> list (ascii * TrieNode)).

Record QSearch := { _trie : TrieNode; _elastic : elastic }.

Definition on_trie (f : TrieNode -> TrieNode) : SM QSearch unit := fun s =>
  (Ok tt, {| _trie := f (_trie s); _elastic := _elastic s |}).
Definition on_elastic {B} (m : SM elastic B) : SM QSearch B := fun s =>
  let '(o, e) := m (_elastic s) in (o, {| _trie := _trie s; _elastic := e |}).

Abbreviation chars := list_ascii_of_string.
Abbreviation text := string_of_list_ascii.

(** What every handler does first and last: [out] holds the error of a body that
    does not parse, or what [m] makes of it. *)
Definition with_body (req : request) (m : rvalue -> SM (wvalue * QSearch) unit) : SM QSearch wvalue :=
  match load (body_of req) with
  | None => ret (w_set "error" (WStr "invalid parameters") WNull)
  | x => returning WNull (m x)
  end.

Definition failed (what : string) (_ : string) : SM (wvalue * QSearch) unit :=
  set_member "error" (WStr what).

(** ** Words *)

(** [w["word"] = ...; w["tag"] = ...; w["meta"] = ...;] *)
Definition hit (word : string) (d : WordData) : wvalue :=
  w_set "meta" (WStr (userData d)) (w_set "tag" (WStr (category d)) (w_set "word" (WStr word) WNull)).
Definition hits (l : list (word * WordData)) : list wvalue := (fun p => hit (text p.1) p.2) <$> l.

Definition route_core_fuzzy_insert (req : request) : SM QSearch wvalue :=
  with_body req (fun x =>
    do! try_runtime
      (let! word := lift (r_at_s x "word") in
       let! tag := lift (r_at_s x "tag") in
       let! meta := lift (r_at_s x "meta") in
       outer (on_trie (insert place (chars word) {| category := tag; userData := meta |})))
      (failed "word/tag/meta missing or not properly formatted");
    set_member "result" WTrue).

(** The searches: the results are moved to [out] after an exception too, when
    there are none. *)
Definition word_search (req : request) (what : string)
    (search : rvalue -> TrieNode -> outcome (list wvalue)) : SM QSearch wvalue :=
  with_body req (fun x => local []
    (do! try_runtime
       (fun '(_, (out, s)) => match search x (_trie s) with
                              | Ok l => (Ok tt, (l, (out, s)))
                              | Throw e => (Throw e, ([], (out, s)))
                              | Undef => (Undef, ([], (out, s)))
                              | Fuel => (Fuel, ([], (out, s)))
                              end)
       (fun msg => outer (failed what msg));
     fun '(l, (out, s)) => (Ok tt, ([], (w_set "result" (WList l) out, s))))).

(** [int maxEdits = x\["maxedits"\].d();] *)
Definition max_edits (x : rvalue) : outcome Z :=
  let? v := r_at x "maxedits" in let? d := r_d v in Ok (int_of_double d).

Definition err_edits : string := "word/maxedits missing or not properly formatted".

Definition route_core_fuzzy_query (req : request) : SM QSearch wvalue :=
  word_search req err_edits (fun x root =>
    let? searchStr := r_at_s x "word" in
    let? maxEdits := max_edits x in
    Ok (hits (fuzzySearch (chars searchStr) maxEdits root))).

Definition route_core_fuzzy_match (req : request) : SM QSearch wvalue :=
  word_search req "parameter 'word' missing" (fun x root =>
    let? searchStr := r_at_s x "word" in
    Ok (hit searchStr <$> search (chars searchStr) root)).

Definition route_core_fuzzy_prefix (req : request) : SM QSearch wvalue :=
  word_search req err_edits (fun x root =>
    let? searchStr := r_at_s x "word" in
    let? maxEdits := max_edits x in
    Ok (hits (if (maxEdits =? -1)%Z then searchByPrefix (chars searchStr) root
              else fuzzyPrefixSearch (chars searchStr) maxEdits root))).

Definition route_core_fuzzy_substring (req : request) : SM QSearch wvalue :=
  word_search req "word missing or not properly formatted" (fun x root =>
    let? searchStr := r_at_s x "word" in
    Ok (hits (substringSearch (chars searchStr) root))).

(** The result is true when nothing was thrown. *)
Definition word_change (req : request) (what : string)
    (change : rvalue -> outcome (TrieNode -> TrieNode)) : SM QSearch wvalue :=
  with_body req (fun x =>
    try_runtime
      (let! f := lift (change x) in do! outer (on_trie f); set_member "result" WTrue)
      (fun msg => do! failed what msg; set_member "result" WFalse)).

Definition route_core_fuzzy_delete (req : request) : SM QSearch wvalue :=
  word_change req "Arguments not properly formatted" (fun x =>
    let? word := r_at_s x "word" in
    let? tag := member x "tag" r_s in
    let? meta := member x "meta" r_s in
    Ok (deleteWord (chars word) (default EmptyString tag) (default EmptyString meta))).

Definition route_core_fuzzy_update (req : request) : SM QSearch wvalue :=
  word_change req "oldword/word/tag/meta missing or not properly formatted" (fun x =>
    let? oldWord := r_at_s x "oldword" in
    let? word := r_at_s x "word" in
    let? tag := r_at_s x "tag" in
    let? meta := r_at_s x "meta" in
    Ok (updateWord place (chars oldWord) (chars word) tag meta)).

(** ** Documents *)

Definition err_index : string := "app/index/doc missing or not properly formatted".

Definition route_elastic_index (req : request) : SM QSearch wvalue :=
  with_body req (fun x =>
    do! try_runtime
      (let! tenant := lift (r_at_s x "app") in
       let! indexName := lift (r_at_s x "index") in
       let! doc := lift (let? v := r_at x "doc" in to_wvalue v) in
       outer (on_elastic (indexDocument page past_eof tenant indexName doc)))
      (failed err_index);
    set_member "result" WTrue).

Definition route_elastic_indexclear (req : request) : SM QSearch wvalue :=
  with_body req (fun x =>
    let! r := try_runtime
      (let! tenant := lift (r_at_s x "app") in
       let! indexName := lift (r_at_s x "index") in
       outer (on_elastic (clearIndex page past_eof tenant indexName)))
      (fun msg => do! failed err_index msg; ret false) in
    set_member "result" (w_bool r)).

(** The conditions: the members of the object, when it is one *)
Fixpoint text_members (ms : list (string * json)) : outcome conditions :=
  match ms with
  | [] => Ok []
  | (key, item) :: ms =>
      let? value := r_s (Some item) in let? cs := text_members ms in Ok ((key, value) :: cs)
  end.
Definition read_conditions (x : rvalue) : outcome conditions :=
  let? c := member x "conditions" r_copy in
  match c with
  | Some (Some (JObj ms)) => text_members ms
  | _ => Ok []
  end.

Inductive action := Search | UpdateDoc | DeleteDoc.

Definition run_action (action : action) (x : rvalue) (tenant indexName : string) (cs : conditions)
    (must ignoreCase : bool) : SM (wvalue * QSearch) unit :=
  let! given := lift (member x "fuzziness" (fun v => let? i := r_i v in Ok (int32 i))) in
  match action with
  | Search =>
      let! l := outer (on_elastic (fun e =>
        (searchMultiple tenant indexName cs (default 2%Z given) must ignoreCase e, e))) in
      set_member "result" (WList l)
  | UpdateDoc =>
      let! doc := lift (member x "doc" to_wvalue) in
      let! updated := match doc with
                      | Some doc => outer (on_elastic (updateDocument page past_eof tenant indexName
                                             doc cs (default 0%Z given) must ignoreCase))
                      | None => ret 0%Z
                      end in
      set_member "result" (w_int updated)
  | DeleteDoc =>
      let! deleted := outer (on_elastic (deleteDocument page past_eof tenant indexName cs
                               (default 0%Z given) must ignoreCase)) in
      set_member "result" (w_int deleted)
  end.

Definition err_conditions : string :=
  "app/index/conditions/fuzziness/must/ignorecase missing or not properly formatted".

Definition route_elastic_action (action : action) (req : request) : SM QSearch wvalue :=
  with_body req (fun x =>
    try_runtime
      (let! tenant := lift (r_at_s x "app") in
       let! indexName := lift (r_at_s x "index") in
       let! cs := lift (read_conditions x) in
       let! must := lift (member x "must" r_b) in
       let! ignoreCase := lift (member x "ignorecase" r_b) in
       run_action action x tenant indexName cs (default false must) (default false ignoreCase))
      (failed err_conditions)).

(** ** Dispatch *)

Definition fuzzy_rules : list (string * (request -> SM QSearch wvalue)) := [
  ("/fuzzy/insert", route_core_fuzzy_insert);
  ("/fuzzy/query", route_core_fuzzy_query);
  ("/fuzzy/match", route_core_fuzzy_match);
  ("/fuzzy/prefix", route_core_fuzzy_prefix);
  ("/fuzzy/substring", route_core_fuzzy_substring);
  ("/fuzzy/delete", route_core_fuzzy_delete);
  ("/fuzzy/update", route_core_fuzzy_update)
].
Definition elastic_rules : list (string * (request -> SM QSearch wvalue)) := [
  ("/elastic/index", route_elastic_index);
  ("/elastic/index/clear", route_elastic_indexclear);
  ("/elastic/search", route_elastic_action Search);
  ("/elastic/update", route_elastic_action UpdateDoc);
  ("/elastic/delete", route_elastic_action DeleteDoc)
].
Definition search_rules : list (string * (request -> SM QSearch wvalue)) :=
  fuzzy_rules ++ elastic_rules.

(** All of them take GET and POST; an exception that leaves a handler becomes
    a 500. *)
Definition serve_search (req : request) : SM QSearch response := fun s =>
  match assoc (url req) search_rules with
  | None => (Ok (failure 404), s)
  | Some callback =>
      match callback req s with
      | (Ok out, s) => (Ok (answer_response (Json out)), s)
      | (Throw _, s) => (Ok (failure 500), s)
      | (Undef, s) => (Undef, s)
      | (Fuel, s) => (Fuel, s)
      end
  end.
End searcher.

(** ** What the routes do *)

Section routes.
Context {plat : Platform} (page : nat) (past_eof : string -> string)
  (place : ascii -> TrieNode -> list (ascii * TrieNode) -> list (ascii * TrieNode)).

Abbreviation serving := (serve_search page past_eof place).

(** The two indexes are as they were. *)
Definition same (s0 s : QSearch) : Prop := s = s0.

Lemma with_body_same s0 req m :
  (forall x, preserves (behind (same s0)) (m x)) -> preserves (same s0) (with_body req m).
Proof. intros H. unfold with_body. destruct (load (body_of req)); eauto with frames. Qed.

Lemma failed_same s0 what msg : preserves (behind (same s0)) (failed (plat := plat) what msg).
Proof. apply reads_member. Qed.

Lemma word_search_same s0 req what f : preserves (same s0) (word_search req what f).
Proof.
  apply with_body_same. intros x. apply preserves_local, preserves_bind.
  - apply preserves_try; [|intros; apply preserves_outer, failed_same].
    intros [l [out s]] H. by destruct (f x (_trie s)).
  - by intros _ [l [out s]] H.
Qed.

Lemma on_elastic_same {B} s0 (f : elastic -> outcome B) :
  preserves (same s0) (on_elastic (fun e => (f e, e))).
Proof. intros [t e] H. exact H. Qed.

Lemma search_same s0 req : preserves (same s0) (route_elastic_action page past_eof Search req).
Proof.
  apply with_body_same. intros x. apply preserves_try; [|apply failed_same].
  repeat (apply preserves_lift_bind; intros).
  apply preserves_bind; [apply preserves_outer, on_elastic_same|]. intros l. apply reads_member.
Qed.

Definition reading_paths : list string :=
  ["/fuzzy/query"; "/fuzzy/match"; "/fuzzy/prefix"; "/fuzzy/substring"; "/elastic/search"].

Lemma bad_body_same req callback k s : load (body_of req) = None ->
  assoc k (search_rules page past_eof place) = Some callback ->
  callback req s = (Ok (w_set "error" (WStr "invalid parameters") WNull), s).
Proof.
  intros Hb. assert (forall m, with_body (plat := plat) req m s
    = (Ok (w_set "error" (WStr "invalid parameters") WNull), s)) as H.
  { intros m. unfold with_body. by rewrite Hb. }
  unfold search_rules, fuzzy_rules, elastic_rules. cbn [assoc app].
  repeat (case_decide; [intros [= <-]; apply H|]). done.
Qed.

Lemma reading_same req callback s0 : url req ∈ reading_paths ->
  assoc (url req) (search_rules page past_eof place) = Some callback -> preserves (same s0) (callback req).
Proof.
  intros Hu. unfold reading_paths in Hu. rewrite !elem_of_cons in Hu.
  destruct Hu as [->|[->|[->|[->|[->|[]%elem_of_nil]]]]]; intros [= <-];
    first [apply word_search_same|apply search_same].
Qed.

Lemma hash_order_one k : hash_order [k] = [k].
Proof. apply Permutation_singleton_r, hash_order_perm. Qed.

Definition bad_body : response :=
  {| code := 200; text := q "{`error`:`invalid parameters`}"; any_origin := false |}.

(** The routes of the two indexes: an unknown path is answered 404, a body
    that is not JSON with an error, and neither these nor the searches change
    an index. *)
Theorem search_routes (req : request) (s : QSearch) :
  (url req ∉ (search_rules page past_eof place).*1 -> serving req s = (Ok (failure 404), s)) /\
  (url req ∈ (search_rules page past_eof place).*1 -> load (body_of req) = None ->
   serving req s = (Ok bad_body, s)) /\
  (url req ∈ reading_paths -> (serving req s).2 = s).
Proof.
  unfold serve_search. split; [|split].
  - by intros ->%assoc_None.
  - intros Hu Hb. destruct (assoc (url req) _) as [callback|] eqn:E; [|by apply assoc_None in E].
    rewrite (bad_body_same _ _ _ _ Hb E). unfold answer_response, bad_body. cbn [w_set dump map reorder].
    unfold reorder. cbn [fmap list_fmap fst]. by rewrite hash_order_one.
  - intros Hu. destruct (assoc (url req) _) as [callback|] eqn:E; [|done].
    pose proof (reading_same req callback s Hu E s eq_refl) as H. unfold same in H.
    by destruct (callback req s) as [[| | |] s'].
Qed.

Definition post_request (path body : string) : request :=
  {| method := POST; url := path; url_params := []; req_body := body |}.
Definition answered (out : wvalue) : response :=
  {| code := 200; text := dump out; any_origin := false |}.
Definition result (w : wvalue) : wvalue := w_set "result" w WNull.

Lemma load_member body k v : r_at_s (load body) k = Ok v -> exists x, load body = Some x.
Proof. destruct (load body) as [x|]; [by eexists|done]. Qed.

(** A word posted to [/fuzzy/insert] is found by [/fuzzy/match], with its tag and
    its data, after what the word had before. *)
Theorem insert_then_match b1 b2 w tag meta s :
  (forall ch n l, place ch n l ≡ₚ (ch, n) :: l) -> wf (_trie s) ->
  r_at_s (load b1) "word" = Ok w -> r_at_s (load b1) "tag" = Ok tag -> r_at_s (load b1) "meta" = Ok meta ->
  r_at_s (load b2) "word" = Ok w ->
  exists s1, serving (post_request "/fuzzy/insert" b1) s = (Ok (answered (result WTrue)), s1) /\
    serving (post_request "/fuzzy/match" b2) s1
    = (Ok (answered (result (WList ((hit w <$> search (list_ascii_of_string w) (_trie s))
                                    ++ [hit w {| category := tag; userData := meta |}])))), s1).
Proof.
  intros Hp Hwf Hw Ht Hm Hw2. destruct (load_member _ _ _ Hw) as [x1 Hx1].
  destruct (load_member _ _ _ Hw2) as [x2 Hx2]. rewrite Hx1 in Hw, Ht, Hm. rewrite Hx2 in Hw2.
  eexists. split.
  - unfold serve_search. cbn [assoc search_rules fuzzy_rules elastic_rules app url post_request]. rewrite decide_True by done.
    unfold route_core_fuzzy_insert, with_body. change (body_of _) with b1. rewrite Hx1.
    unfold returning, bind, try_runtime, lift. rewrite Hw, Ht, Hm. reflexivity.
  - unfold serve_search. cbn [assoc search_rules fuzzy_rules elastic_rules app url post_request]. rewrite !decide_False, decide_True by done.
    unfold route_core_fuzzy_match, word_search, with_body. change (body_of _) with b2. rewrite Hx2.
    unfold returning, local, bind, try_runtime. rewrite Hw2. cbn [obind on_trie outer _trie].
    rewrite search_insert, decide_True by done. rewrite fmap_app. reflexivity.
Qed.

(** C18. A document posted to [/elastic/index], of which the members are texts,
    lists and objects, and behind documents like it, is indexed, unless writing
    the file faults.  When the members of all the documents are texts,
    [/elastic/search] then finds it behind those of its index; when one of the
    documents has a list or an object for a member, every search of the index
    is answered with an error.  (The numbers of the documents are printed as
    integers, and there are fewer than [INT_MAX].) *)
Theorem index_then_search b1 b2 t n d l cs f must ic s :
  (forall n, (0 <= n <= INT_MAX)%Z -> printf_g (double_of_int n) = to_string n) ->
  absent t n (index (_elastic s)) /\ l = [] \/ stored t n l (index (_elastic s)) ->
  (Z.of_nat (length l) < INT_MAX)%Z -> Forall document (l ++ [d]) ->
  r_at_s (load b1) "app" = Ok t -> r_at_s (load b1) "index" = Ok n ->
  (let? v := r_at (load b1) "doc" in to_wvalue v) = Ok d ->
  r_at_s (load b2) "app" = Ok t -> r_at_s (load b2) "index" = Ok n ->
  read_conditions (load b2) = Ok cs -> member (load b2) "must" r_b = Ok must ->
  member (load b2) "ignorecase" r_b = Ok ic ->
  member (load b2) "fuzziness" (fun v => let? i := r_i v in Ok (int32 i)) = Ok f ->
  (serving (post_request "/elastic/index" b1) s).1 = Undef \/
  exists s1, serving (post_request "/elastic/index" b1) s = (Ok (answered (result WTrue)), s1) /\
    serving (post_request "/elastic/search" b2) s1
    = (Ok (answered
         (if existsb nested (l ++ [d]) then w_set "error" (WStr err_conditions) WNull
          else result (WList (listed <$>
            filterb (fun d => selected (default false must) cs
                                (satisfied (default false ic) (default 2%Z f) cs d)) (l ++ [d]))))),
       s1).
Proof.
  intros Hprint Hl Hlt Hflat Ha Hi Hd Ha2 Hi2 Hcs Hmust Hic Hf.
  destruct (load_member _ _ _ Ha) as [x1 Hx1]. destruct (load_member _ _ _ Ha2) as [x2 Hx2].
  destruct (index_run page past_eof Hprint t n d l (_elastic s) Hl Hlt) as (w & E & (Hst & _) & _).
  assert (forall o e1, persistIndex page past_eof (set_index w (_elastic s)) = (o, e1) ->
    serving (post_request "/elastic/index" b1) s
    = (match o with
       | Ok _ => Ok (answered (result WTrue))
       | Undef => Undef
       | Fuel => Fuel
       | Throw (RuntimeError _) => Ok (answered (w_set "result" WTrue (w_set "error" (WStr err_index) WNull)))
       | Throw _ => Ok (failure 500)
       end, {| _trie := _trie s; _elastic := e1 |})) as Hs.
  { intros o e1 Hr. rewrite Hx1 in Ha, Hi, Hd.
    unfold serve_search. cbn [assoc search_rules fuzzy_rules elastic_rules app url post_request].
    rewrite !decide_False, decide_True by done. unfold route_elastic_index, with_body.
    change (body_of _) with b1. rewrite Hx1. unfold returning, bind, try_runtime, lift.
    rewrite Ha, Hi, Hd. unfold outer, on_elastic. rewrite E, Hr. by destruct o as [[]|[]| |]. }
  destruct (persist_cases page past_eof (set_index w (_elastic s))) as [(e1 & Hr & Hi1)|(e1 & Hr)].
  - right. eexists. split; [apply (Hs _ _ Hr)|].
    unfold serve_search. cbn [assoc search_rules fuzzy_rules elastic_rules app url post_request].
    rewrite !decide_False, decide_True by done. unfold route_elastic_action, with_body.
    change (body_of _) with b2. rewrite Hx2 in *. unfold returning, bind, try_runtime, lift.
    rewrite Ha2, Hi2, Hcs, Hmust, Hic. unfold run_action, bind, lift. rewrite Hf.
    unfold outer, on_elastic. cbn [_elastic].
    destruct (existsb nested (l ++ [d])) eqn:En.
    + by rewrite (searchMultiple_nested t n (l ++ [d])) by (done || by rewrite Hi1).
    + rewrite (searchMultiple_run t n (l ++ [d])); [reflexivity|by rewrite Hi1|].
      by apply documents_flat.
  - left. by rewrite (Hs _ _ Hr).
Qed.
End routes.

(** ** Examples *)

Section examples.
#[local] Existing Instance int_platform.

Definition example_search : QSearch := {| _trie := empty_node; _elastic := letter_elastic |}.

Lemma insert_then_match_witness :
  exists s1,
    serve_search 16 id example_place
      (post_request "/fuzzy/insert" (q "{`word`:`ab`,`tag`:`noun`,`meta`:`x`}")) example_search
    = (Ok (answered (result WTrue)), s1) /\
    serve_search 16 id example_place (post_request "/fuzzy/match" (q "{`word`:`ab`}")) s1
    = (Ok (answered (result (WList [hit "ab" {| category := "noun"; userData := "x" |}]))), s1).
Proof.
  exact (insert_then_match 16 id example_place (q "{`word`:`ab`,`tag`:`noun`,`meta`:`x`}")
           (q "{`word`:`ab`}") "ab" "noun" "x" example_search
           (fun _ _ _ => Permutation_refl _) empty_wf eq_refl eq_refl eq_refl eq_refl).
Defined.

Lemma search_routes_witness :
  serve_search 16 id example_place (post_request "/fuzzy/insert" "no JSON") example_search
  = (Ok bad_body, example_search).
Proof.
  apply (search_routes 16 id example_place); [|reflexivity]. apply list_elem_of_In. by left.
Defined.

Definition wide_elastic : elastic :=
  {| index := index letter_elastic; file := zeros 300; file_size := 300 |}.

Definition wide_search : QSearch := {| _trie := empty_node; _elastic := wide_elastic |}.
Definition searched (doc : string) (out : wvalue) : Prop :=
  exists s1,
    serve_search 300 id example_place (post_request "/elastic/index" doc) wide_search
    = (Ok (answered (result WTrue)), s1) /\
    serve_search 300 id example_place
      (post_request "/elastic/search" (q "{`app`:`app`,`index`:`i`,`conditions`:{`t`:`b`},`fuzziness`:0}")) s1
    = (Ok (answered out), s1).

Lemma letters_documents d : document d -> Forall document (letters ++ [d]).
Proof.
  intros H. apply Forall_app. split; [|by repeat constructor]. repeat constructor.
  all: apply flat_document; eexists; (split; [reflexivity|]);
    (split; [apply NoDup_singleton|]); repeat constructor; by eexists.
Qed.

Lemma index_then_search_witness :
  searched (q "{`app`:`app`,`index`:`i`,`doc`:{`t`:`b`}}")
    (result (WList [WObj [("t", WStr "b")]; WObj [("t", WStr "b")]])) /\
  searched (q "{`app`:`app`,`index`:`i`,`doc`:{`t`:[`b`]}}")
    (w_set "error" (WStr err_conditions) WNull).
Proof.
  assert (document (WObj [("t", WStr "b")]) /\ document (WObj [("t", WList [WStr "b"])])) as [H1 H2].
  { split; eexists; (split; [reflexivity|]); (split; [apply NoDup_singleton|]);
      apply Forall_singleton; [left; by eexists|by right]. }
  split.
  - destruct (index_then_search 300 id example_place
              (q "{`app`:`app`,`index`:`i`,`doc`:{`t`:`b`}}")
              (q "{`app`:`app`,`index`:`i`,`conditions`:{`t`:`b`},`fuzziness`:0}") "app" "i"
              (WObj [("t", WStr "b")]) letters [("t", "b")] (Some 0%Z) None None
              wide_search example_print) as [H|H];
      [|..|vm_compute in H; discriminate H|exact H]; try reflexivity; [|by apply letters_documents].
    right. split; [reflexivity|]. split; [reflexivity|]. cbn. unfold INT_MAX. lia.
  - destruct (index_then_search 300 id example_place
              (q "{`app`:`app`,`index`:`i`,`doc`:{`t`:[`b`]}}")
              (q "{`app`:`app`,`index`:`i`,`conditions`:{`t`:`b`},`fuzziness`:0}") "app" "i"
              (WObj [("t", WList [WStr "b"])]) letters [("t", "b")] (Some 0%Z) None None
              wide_search example_print) as [H|H];
      [|..|vm_compute in H; discriminate H|exact H]; try reflexivity; [|by apply letters_documents].
    right. split; [reflexivity|]. split; [reflexivity|]. cbn. unfold INT_MAX. lia.
Defined.
End examples.
