(* ===== verification/TestRun.v ===== *)
(** * The test run of the search indexes

    [QSearch::TestRun] of src/src/qsearch.cpp, which prints what the word index
    and the document index find for words and a document of its own, and what it
    prints when it runs on the models of both. *)

From S2P Require Import Prelude Json Scan Frames Http Distance Elastic Trie Searcher.
Local Open Scope quarks_scope.

Abbreviation chars := list_ascii_of_string.
Abbreviation text := string_of_list_ascii.

Section test_run.
Context {plat : Platform} (page : nat) (past_eof : string -> string)
  (place : ascii -> TrieNode -> list (ascii * TrieNode) -> list (ascii * TrieNode)).

(** The lines printed so far, and the indexes *)
Definition printing : Type -> Type := SM (list string * QSearch).

Definition print_lines (ls : list string) : printing unit := modify (fun s => (s.1 ++ ls, s.2)).

Definition trie_insert_ (w tag user : string) : printing unit :=
  outer (on_trie (insert place (chars w) {| category := tag; userData := user |})).

Definition print_found (find : TrieNode -> list (list ascii * WordData)) : printing unit :=
  let! s := get_st in
  print_lines (map (fun p => "Found: " +:+ text p.1 +:+ " -> Category: " +:+ category p.2 +:+
                             ", User Data: " +:+ userData p.2) (find (_trie s.2))).

Definition print_data (find : TrieNode -> list WordData) : printing unit :=
  let! s := get_st in
  print_lines (map (fun d => "Category: " +:+ category d +:+ " | UserData: " +:+ userData d) (find (_trie s.2))).

(** The searches for words *)
Definition test_fuzzy : printing unit :=
  do! trie_insert_ "remember me, don't forget'" "poetry" "reminder";
  do! trie_insert_ "world" "noun" "planet";
  do! trie_insert_ "wordl" "noun" "globe";
  do! trie_insert_ "hello" "greeting" "salutation";
  do! trie_insert_ "hello" "greeting" "hi";
  let searchStr := "remember me don't forget''" in
  do! print_lines ["Fuzzy search results for '" +:+ searchStr +:+ "' (max 1 edit):"];
  do! print_found (fuzzySearch (chars searchStr) 1);
  let searchStr := "worl" in
  do! print_lines ["Fuzzy search results for '" +:+ searchStr +:+ "' (max 1 edit):"];
  do! print_found (fuzzySearch (chars searchStr) 1);
  do! print_lines ["Search Results:"];
  print_data (search (chars "world")).

Definition test_prefix : printing unit :=
  do! trie_insert_ "apple" "fruit" "red";
  do! trie_insert_ "apricot" "fruit" "orange";
  do! trie_insert_ "apex" "word" "peak";
  do! trie_insert_ "banana" "fruit" "yellow";
  do! trie_insert_ "apply" "verb" "use";
  do! trie_insert_ "ape" "animal" "primate";
  do! print_lines ["Words with fuzzy prefix 'apl' (max 1 edit):"; "Prefix Search Results:"];
  print_found (fuzzyPrefixSearch (chars "apl") 1).

Definition test_substring : printing unit :=
  do! trie_insert_ "hello" "greeting" "user1";
  do! trie_insert_ "world" "noun" "user2";
  do! trie_insert_ "hold" "verb" "user3";
  do! trie_insert_ "gold" "metal" "user4";
  do! print_lines ["Substring Search Results:"];
  print_found (substringSearch (chars "old")).

Definition test_changes : printing unit :=
  do! trie_insert_ "apple" "fruit" "reddish";
  do! trie_insert_ "apricot" "fruit" "orangish";
  do! trie_insert_ "apex" "word" "cresendo";
  do! trie_insert_ "banana" "fruit" "yellowish";
  do! outer (on_trie (deleteWord (chars "apex") "" "cresendo"));
  do! outer (on_trie (updateWord place (chars "apple") (chars "applered") "fruit" "red"));
  do! print_lines ["Words with prefix 'ap':"];
  print_found (searchByPrefix (chars "ap")).

Definition test_document : wvalue :=
  w_set "timestamp" (WStr "2025-02-24")
    (w_set "content" (WStr "This is a test query document")
      (w_set "title" (WStr "Elasticsearch with C++") WNull)).

Definition test_elastic : printing unit :=
  do! print_lines ["Elastic Search Indexing ... "];
  do! outer (on_elastic (indexDocument page past_eof "app1" "articles" test_document));
  do! print_lines ["Elastic Search Results:"];
  let! s := get_st in
  let! eResults := lift (searchMultiple "app1" "articles" [("title", "Elesticsearch"); ("content", "query")] 2
                           true true (_elastic s.2)) in
  print_lines (map dump eResults).

Definition TestRun : SM QSearch (list string) :=
  local [] (do! test_fuzzy; do! test_prefix; do! test_substring; do! test_changes; do! test_elastic;
            let! s := get_st in ret s.1).
End test_run.

(** ** What it prints *)

Section printed.
#[local] Existing Instance int_platform.

Definition test_start : QSearch := {|
  _trie := empty_node;
  _elastic := {| index := WNull; file := zeros 4096; file_size := 4096 |} |}.

(** The fuzzy searches find the words with one edit and those the query is a
    prefix of, the changes at the end leave the other metadata of a word, and the
    document is found by words that are misspelt. *)
Lemma test_run_prints : (TestRun 4096 id example_place test_start).1 = Ok
  ["Fuzzy search results for 'remember me don't forget''' (max 1 edit):";
   "Found: remember me, don't forget' -> Category: poetry, User Data: reminder";
   "Fuzzy search results for 'worl' (max 1 edit):";
   "Found: wordl -> Category: noun, User Data: globe";
   "Found: world -> Category: noun, User Data: planet";
   "Search Results:"; "Category: noun | UserData: planet";
   "Words with fuzzy prefix 'apl' (max 1 edit):"; "Prefix Search Results:";
   "Found: ape -> Category: animal, User Data: primate";
   "Found: apex -> Category: word, User Data: peak";
   "Found: apricot -> Category: fruit, User Data: orange";
   "Found: apply -> Category: verb, User Data: use";
   "Found: apple -> Category: fruit, User Data: red";
   "Substring Search Results:";
   "Found: gold -> Category: metal, User Data: user4";
   "Found: hold -> Category: verb, User Data: user3";
   "Words with prefix 'ap':";
   "Found: ape -> Category: animal, User Data: primate";
   "Found: apex -> Category: word, User Data: peak";
   "Found: apricot -> Category: fruit, User Data: orange";
   "Found: apricot -> Category: fruit, User Data: orangish";
   "Found: apply -> Category: verb, User Data: use";
   "Found: apple -> Category: fruit, User Data: reddish";
   "Found: applered -> Category: fruit, User Data: red";
   "Elastic Search Indexing ... "; "Elastic Search Results:";
   q "{`title`:`Elasticsearch with C++`,`content`:`This is a test query document`,`timestamp`:`2025-02-24`}"].
Proof. vm_compute. reflexivity. Qed.
End printed.
