(* ===== verification/Base64.v ===== *)
(** * Base64

    src/src/base64.cpp: the encoder of the image filters, and the decoder. *)

From S2P Require Import Prelude.
Local Open Scope quarks_scope.

(** ** Encoding *)

Definition sEncodingTable : string :=
  "ABCDEFGHIJKLMNOPQRSTUVWXYZabcdefghijklmnopqrstuvwxyz0123456789+/".

(** [sEncodingTable\[n\]] *)
Definition encoding (n : Z) : ascii := default NUL (String.get (Z.to_nat n) sEncodingTable).

(** The four numbers for three bytes, which are signed [char]s *)
Definition sextet1 (a : ascii) : Z := Z.land (Z.shiftr (schar a) 2) 0x3F.
Definition sextet2 (a b : ascii) : Z :=
  Z.lor (Z.shiftl (Z.land (schar a) 0x3) 4) (Z.shiftr (Z.land (schar b) 0xF0) 4).
Definition sextet3 (b c : ascii) : Z :=
  Z.lor (Z.shiftl (Z.land (schar b) 0xF) 2) (Z.shiftr (Z.land (schar c) 0xC0) 6).
Definition sextet4 (c : ascii) : Z := Z.land (schar c) 0x3F.

(** The text from [data\[i\]] on: the loop, and what follows it for the one or
    two bytes that are left *)
Fixpoint encode_loop (data : string) : string :=
  match data with
  | String a (String b (String c data)) =>
      String (encoding (sextet1 a)) (String (encoding (sextet2 a b))
        (String (encoding (sextet3 b c)) (String (encoding (sextet4 c)) (encode_loop data))))
  | String a EmptyString =>
      String (encoding (sextet1 a)) (String (encoding (Z.shiftl (Z.land (schar a) 0x3) 4)) "==")
  | String a (String b EmptyString) =>
      String (encoding (sextet1 a)) (String (encoding (sextet2 a b))
        (String (encoding (Z.shiftl (Z.land (schar b) 0xF) 2)) "="))
  | EmptyString => EmptyString
  end.

(** With less than two bytes the bound [in_len - 2] wraps, and the loop reads
    the byte behind the one that ends the text. *)
Definition Encode (data : string) : outcome string :=
  if (String.length data <? 2)%nat then Undef else Ok (encode_loop data).

(** ** Decoding *)

(** [kDecodingTable] up to 127; an index that is negative is outside of it. *)
Definition kDecodingTable (c : ascii) : outcome Z :=
  let n := schar c in
  if (n <? 0)%Z then Undef
  else if (n =? 43)%Z then Ok 62%Z
  else if (n =? 47)%Z then Ok 63%Z
  else if (48 <=? n)%Z && (n <=? 57)%Z then Ok (n + 4)%Z
  else if (n =? 61)%Z then Ok 64%Z
  else if (65 <=? n)%Z && (n <=? 90)%Z then Ok (n - 65)%Z
  else if (97 <=? n)%Z && (n <=? 122)%Z then Ok (n - 71)%Z
  else Ok 64%Z.

(** [input\[i\] == '=' ? 0 & i++ : kDecodingTable\[...\]] *)
Definition decoding (c : ascii) : outcome Z :=
  if Ascii.eqb c "=" then Ok 0%Z else kDecodingTable c.

(** The bytes of all groups; [out] keeps the first [out_len]. *)
Fixpoint decode_loop (input : string) : outcome string :=
  match input with
  | String a (String b (String c (String d input))) =>
      let? a := decoding a in
      let? b := decoding b in
      let? c := decoding c in
      let? d := decoding d in
      let triple := ((Z.shiftl a 18 + Z.shiftl b 12 + Z.shiftl c 6 + d) mod 4294967296)%Z in
      let? out := decode_loop input in
      Ok (String (of_byte (Z.land (Z.shiftr triple 16) 0xFF))
           (String (of_byte (Z.land (Z.shiftr triple 8) 0xFF))
              (String (of_byte (Z.land triple 0xFF)) out)))
  | _ => Ok EmptyString
  end.

Definition ends_with (c : option ascii) : bool :=
  match c with Some c => Ascii.eqb c "=" | None => false end.

Definition Decode (input : string) : outcome string :=
  let in_len := String.length input in
  if negb (in_len mod 4 =? 0)%nat then Ok "Input data size is not a multiple of 4"
  else if (in_len =? 0)%nat then Undef  (* [input\[in_len - 1\]] *)
  else
    let out_len := in_len / 4 * 3 in
    let out_len := if ends_with (String.get (in_len - 1) input) then out_len - 1 else out_len in
    let out_len := if ends_with (String.get (in_len - 2) input) then out_len - 1 else out_len in
    let? out := decode_loop input in Ok (str_take out_len out).

(** ** Bytes in groups of six bits *)

Definition bytes_list : list ascii := (fun n => of_byte (Z.of_nat n)) <$> seq 0 256.

Lemma byte_cases (P : ascii -> bool) : forallb P bytes_list = true -> forall c, P c = true.
Proof.
  intros H c. rewrite forallb_forall in H. apply H. apply list_elem_of_In.
  unfold bytes_list. apply list_elem_of_fmap. exists (Z.to_nat (byte c)).
  pose proof (byte_range c). split; [|apply elem_of_seq; lia].
  by rewrite Z2Nat.id, of_byte_byte by lia.
Qed.

Definition split_ok (c : ascii) : bool :=
  (sextet1 c =? byte c / 4)%Z && (Z.land (schar c) 0x3 =? byte c mod 4)%Z &&
  (Z.shiftr (Z.land (schar c) 0xF0) 4 =? byte c / 16)%Z && (Z.land (schar c) 0xF =? byte c mod 16)%Z &&
  (Z.shiftr (Z.land (schar c) 0xC0) 6 =? byte c / 64)%Z && (sextet4 c =? byte c mod 64)%Z.

Lemma split_byte c :
  sextet1 c = (byte c / 4)%Z /\ Z.land (schar c) 0x3 = (byte c mod 4)%Z /\
  Z.shiftr (Z.land (schar c) 0xF0) 4 = (byte c / 16)%Z /\ Z.land (schar c) 0xF = (byte c mod 16)%Z /\
  Z.shiftr (Z.land (schar c) 0xC0) 6 = (byte c / 64)%Z /\ sextet4 c = (byte c mod 64)%Z.
Proof.
  assert (split_ok c = true) as H by (apply byte_cases; vm_compute; reflexivity).
  unfold split_ok in H. rewrite !andb_true_iff, !Z.eqb_eq in H. tauto.
Qed.

Definition range (n : nat) : list Z := Z.of_nat <$> seq 0 n.
Lemma range_forall n (P : Z -> bool) :
  forallb P (range n) = true -> forall x, (0 <= x < Z.of_nat n)%Z -> P x = true.
Proof.
  intros H x Hx. rewrite forallb_forall in H. apply H, list_elem_of_In, list_elem_of_fmap.
  exists (Z.to_nat x). split; [lia|]. apply elem_of_seq. lia.
Qed.

Lemma lor_add n X Y x y :
  forallb (fun x => forallb (fun y => Z.lor (Z.shiftl x n) y =? x * 2 ^ n + y)%Z (range Y)) (range X) = true ->
  (0 <= x < Z.of_nat X)%Z -> (0 <= y < Z.of_nat Y)%Z -> Z.lor (Z.shiftl x n) y = (x * 2 ^ n + y)%Z.
Proof.
  intros H Hx Hy. apply Z.eqb_eq. revert y Hy. apply (range_forall _ (fun y => Z.lor (Z.shiftl x n) y =? x * 2 ^ n + y)%Z).
  revert x Hx. by apply range_forall.
Qed.

Lemma sextets a b c :
  sextet1 a = (byte a / 4)%Z /\ sextet2 a b = (byte a mod 4 * 16 + byte b / 16)%Z /\
  sextet3 b c = (byte b mod 16 * 4 + byte c / 64)%Z /\ sextet4 c = (byte c mod 64)%Z /\
  Z.shiftl (Z.land (schar a) 0x3) 4 = (byte a mod 4 * 16)%Z /\
  Z.shiftl (Z.land (schar b) 0xF) 2 = (byte b mod 16 * 4)%Z.
Proof.
  destruct (split_byte a) as (H1 & H2 & _), (split_byte b) as (_ & _ & H3 & H4 & _),
    (split_byte c) as (_ & _ & _ & _ & H5 & H6).
  pose proof (byte_range a). pose proof (byte_range b). pose proof (byte_range c).
  unfold sextet2, sextet3. rewrite H2, H3, H4, H5, !Z.shiftl_mul_pow2 by lia.
  rewrite <- !Z.shiftl_mul_pow2 by lia.
  rewrite (lor_add 4 4 16), (lor_add 2 16 4);
    try (vm_compute; reflexivity); try (rewrite !Z.shiftl_mul_pow2 by lia; done);
    split; Z.div_mod_to_equations; lia.
Qed.

Definition code_ok (n : Z) : bool :=
  match decoding (encoding n) with Ok m => (m =? n)%Z | _ => false end
  && negb (Ascii.eqb (encoding n) "=").
Lemma encoding_ok n : (0 <= n < 64)%Z -> decoding (encoding n) = Ok n /\ Ascii.eqb (encoding n) "=" = false.
Proof.
  intros Hn. assert (code_ok n = true) as H.
  { revert n Hn. apply (range_forall 64 code_ok). vm_compute. reflexivity. }
  unfold code_ok in H. apply andb_true_iff in H as [H1 H2]. apply negb_true_iff in H2. split; [|done].
  destruct (decoding (encoding n)); try done. by apply Z.eqb_eq in H1 as ->.
Qed.

Lemma decode_group n1 n2 n3 n4 c1 c2 c3 c4 s out :
  decoding c1 = Ok n1 -> decoding c2 = Ok n2 -> decoding c3 = Ok n3 -> decoding c4 = Ok n4 ->
  (0 <= n1 < 64)%Z -> (0 <= n2 < 64)%Z -> (0 <= n3 < 64)%Z -> (0 <= n4 < 64)%Z ->
  decode_loop s = Ok out ->
  decode_loop (String c1 (String c2 (String c3 (String c4 s))))
  = Ok (String (of_byte (n1 * 4 + n2 / 16)) (String (of_byte (n2 mod 16 * 16 + n3 / 4))
          (String (of_byte (n3 mod 4 * 64 + n4)) out))).
Proof.
  intros H1 H2 H3 H4 B1 B2 B3 B4 Hs. cbn [decode_loop]. rewrite H1, H2, H3, H4, Hs. cbn [obind].
  rewrite !Z.shiftl_mul_pow2, !Z.shiftr_div_pow2 by lia. change 0xFF%Z with (Z.ones 8).
  rewrite !Z.land_ones by lia. rewrite (Z.mod_small _ 4294967296) by lia.
  repeat f_equal; Z.div_mod_to_equations; lia.
Qed.

Lemma string_ind3 (P : string -> Prop) :
  P EmptyString -> (forall a, P (String a EmptyString)) ->
  (forall a b, P (String a (String b EmptyString))) ->
  (forall a b c s, P s -> P (String a (String b (String c s)))) -> forall s, P s.
Proof.
  intros H0 H1 H2 H3. fix IH 1. intros [|a [|b [|c s]]]; [done|apply H1|apply H2|apply H3, IH].
Qed.

(** ** Decoding what was encoded *)

Lemma ascii_eq c n : n = byte c -> of_byte n = c.
Proof. intros ->. apply of_byte_byte. Qed.

Lemma ascii_nul n : n = 0%Z -> of_byte n = NUL.
Proof. by intros ->. Qed.

Ltac in_bytes := repeat match goal with c : ascii |- _ => lazymatch goal with
  | _ : (0 <= byte c < 256)%Z |- _ => fail | _ => pose proof (byte_range c) end end;
  Z.div_mod_to_equations; lia.

Lemma decode_encoded data : exists z, decode_loop (encode_loop data) = Ok (data +:+ z).
Proof.
  induction data as [|a|a b|a b c data [z IH]] using string_ind3.
  - by exists EmptyString.
  - destruct (sextets a a a) as (E1 & _ & _ & _ & E2 & _). exists (String NUL (String NUL EmptyString)).
    cbn [encode_loop]. rewrite E1, E2.
    rewrite (decode_group (byte a / 4) (byte a mod 4 * 16) 0 0 _ _ _ _ _ EmptyString);
      try (apply encoding_ok; in_bytes); try done; try in_bytes.
    cbn. repeat f_equal; first [apply ascii_nul; in_bytes|apply ascii_eq; in_bytes].
  - destruct (sextets a b b) as (E1 & E2 & _ & _ & _ & E3). exists (String NUL EmptyString).
    cbn [encode_loop]. rewrite E1, E2, E3.
    rewrite (decode_group (byte a / 4) (byte a mod 4 * 16 + byte b / 16) (byte b mod 16 * 4) 0 _ _ _ _ _ EmptyString);
      try (apply encoding_ok; in_bytes); try done; try in_bytes.
    cbn. repeat f_equal; first [apply ascii_nul; in_bytes|apply ascii_eq; in_bytes].
  - destruct (sextets a b c) as (E1 & E2 & E3 & E4 & _). exists z. cbn [encode_loop].
    rewrite E1, E2, E3, E4.
    rewrite (decode_group (byte a / 4) (byte a mod 4 * 16 + byte b / 16)
               (byte b mod 16 * 4 + byte c / 64) (byte c mod 64) _ _ _ _ _ (data +:+ z));
      try (apply encoding_ok; in_bytes); try done; try in_bytes.
    cbn [String.append]. repeat f_equal; apply ascii_eq; in_bytes.
Qed.

Lemma encode_length data : String.length (encode_loop data) = 4 * ((String.length data + 2) / 3).
Proof.
  induction data as [| | |a b c data IH] using string_ind3; try done.
  cbn [encode_loop String.length]. rewrite IH.
  replace (S (S (S (String.length data))) + 2) with (String.length data + 2 + 1 * 3) by lia.
  rewrite Nat.div_add by lia. lia.
Qed.

Lemma encoding_end n : (0 <= n < 64)%Z -> ends_with (Some (encoding n)) = false.
Proof. intros Hn. by apply encoding_ok. Qed.

(** The padding at the end *)
Lemma encode_ends data : data <> EmptyString ->
  let e := encode_loop data in
  ends_with (String.get (String.length e - 1) e) = negb (String.length data mod 3 =? 0)%nat /\
  ends_with (String.get (String.length e - 2) e) = (String.length data mod 3 =? 1)%nat.
Proof.
  induction data as [|a|a b|a b c data IH] using string_ind3; intros Hne; cbn zeta; [done|done| |].
  - destruct (sextets a b b) as (_ & _ & _ & _ & _ & E). split; [done|].
    cbn [encode_loop String.length Nat.sub String.get]. rewrite E. apply encoding_end. in_bytes.
  - cbn [encode_loop String.length].
    replace (S (S (S (String.length data))) mod 3) with (String.length data mod 3)
      by (replace (S (S (S (String.length data)))) with (String.length data + 1 * 3) by lia;
          by rewrite Nat.Div0.mod_add).
    destruct data as [|d data].
    + destruct (sextets a b c) as (_ & _ & E3 & E4 & _). cbn [encode_loop String.length Nat.sub String.get].
      rewrite E3, E4. split; apply encoding_end; in_bytes.
    + destruct (IH ltac:(done)) as [H1 H2]. cbn zeta in H1, H2.
      assert (4 <= String.length (encode_loop (String d data))) as Hlen
        by (rewrite encode_length; pose proof (Nat.div_str_pos (String.length (String d data) + 2) 3
              ltac:(cbn [String.length]; lia)); lia).
      destruct (String.length (encode_loop (String d data))) as [|[|m]] eqn:Em; [lia..|].
      cbn [Nat.sub] in *. rewrite !Nat.sub_0_r in *. cbn [String.get]. split; [exact H1|exact H2].
Qed.

(** What [Encode] writes for two bytes or more has the length it reserved,
    and [Decode] gives the bytes back; for fewer bytes it reads outside of the
    text. *)
Theorem base64_roundtrip data :
  (2 <= String.length data ->
   exists e, Encode data = Ok e /\ String.length e = 4 * ((String.length data + 2) / 3) /\
     Decode e = Ok data) /\
  (String.length data < 2 -> Encode data = Undef).
Proof.
  unfold Encode. split; intros Hl; [|by rewrite (proj2 (Nat.ltb_lt _ _) Hl)].
  rewrite (proj2 (Nat.ltb_ge _ _) Hl). eexists. split; [done|]. split; [apply encode_length|].
  destruct (decode_encoded data) as [z Hz]. assert (data <> EmptyString) as Hne by (by intros ->; cbn in Hl; lia).
  destruct (encode_ends data Hne) as [H1 H2]. cbn zeta in H1, H2. unfold Decode. rewrite H1, H2, Hz.
  rewrite encode_length, (Nat.mul_comm 4), Nat.Div0.mod_mul. cbn [Nat.eqb negb].
  pose proof (Nat.div_str_pos (String.length data + 2) 3 ltac:(lia)).
  rewrite (proj2 (Nat.eqb_neq ((String.length data + 2) / 3 * 4) 0)) by lia.
  rewrite Nat.div_mul by lia. cbn [obind]. f_equal.
  etransitivity; [|apply (str_take_app data z)]. f_equal.
  pose proof (Nat.div_mod (String.length data) 3 ltac:(lia)) as Hd.
  pose proof (Nat.mod_upper_bound (String.length data) 3 ltac:(lia)).
  replace (String.length data + 2) with (String.length data mod 3 + 2 + String.length data / 3 * 3) by lia.
  rewrite Nat.div_add by lia.
  destruct (String.length data mod 3) as [|[|[|]]] eqn:Em; cbn [Nat.eqb negb Nat.add]; [| | |lia];
    change (2 / 3) with 0; change (3 / 3) with 1; change (4 / 3) with 1; lia.
Qed.

Lemma base64_roundtrip_witness :
  Encode "plain text" = Ok "cGxhaW4gdGV4dA==" /\ Decode "cGxhaW4gdGV4dA==" = Ok "plain text".
Proof.
  destruct (proj1 (base64_roundtrip "plain text")) as (e & He & _ & Hd); [cbn; lia|].
  assert (e = "cGxhaW4gdGV4dA==") as -> by (vm_compute in He; congruence). split; [exact He|exact Hd].
Defined.
