(* ===== verification/Upload.v ===== *)
(** * Uploads

    src/include/httprouting.hpp: [fileupload], the handlers that call it, and
    the route that gives the files back.  Positions in a text are of the type
    [size_t]; [npos] is its largest value, and sums wrap.  The directory of the
    uploads is a map from paths as they are written to contents. *)

From S2P Require Import Prelude Json Distance.
Local Open Scope quarks_scope.

(** ** [std::string] with positions *)

Definition npos : Z := 18446744073709551615.
Definition size (z : Z) : Z := z mod 18446744073709551616.

(** The first place of [pat] in [s] *)
Fixpoint find_sub (pat s : string) : option nat :=
  if starts_with pat s then Some 0
  else match s with EmptyString => None | String _ s => S <$> find_sub pat s end.

(** [s.find(pat, pos)] *)
Definition find (pat s : string) (pos : Z) : Z :=
  if (Z.of_nat (String.length s) <? pos)%Z then npos
  else match find_sub pat (str_drop (Z.to_nat pos) s) with
       | Some i => (pos + Z.of_nat i)%Z
       | None => npos
       end.

Fixpoint last_of (set : string) (s : string) : option nat :=
  match s with
  | EmptyString => None
  | String c s =>
      match last_of set s with
      | Some i => Some (S i)
      | None => if bool_decide (c ∈ list_ascii_of_string set) then Some 0 else None
      end
  end.
(** [s.find_last_of(set)] *)
Definition find_last_of (set s : string) : Z :=
  match last_of set s with Some i => Z.of_nat i | None => npos end.

(** [s.substr(pos, n)] *)
Definition substr (s : string) (pos n : Z) : outcome string :=
  let len := Z.of_nat (String.length s) in
  if (len <? pos)%Z then Throw OutOfRange
  else Ok (str_take (Z.to_nat (Z.min n (len - pos))) (str_drop (Z.to_nat pos) s)).

Definition CR : ascii := "013"%char.
Definition LF : ascii := "010"%char.
Definition QUOTE : string := String DQUOTE EmptyString.
Definition CRLF : string := String CR (String LF EmptyString).
Definition CRLFCRLF : string := CRLF +:+ CRLF.

(** ** Files *)

Record disk := { uploads_exists : bool; files : list (string * string) }.

Section upload.
(** Whether the directory can be made, which files can be opened for writing,
    what an exception says, and the identifier and time drawn for a file *)
Context (create_directory : bool) (can_open : string -> bool) (what : exn -> string)
  (uniquePrefix : nat -> string).

Definition save_file (filename content : string) : SM disk unit := fun d =>
  if can_open filename
  then (Ok tt, {| uploads_exists := uploads_exists d; files := assoc_set filename content (files d) |})
  else (Throw (RuntimeError "Failed to open file for writing"), d).

(** [while ((end = req.body.find(boundary, pos)) != npos)]: the state is
    [fileNames] and the files, [n] counts the files that were saved. *)
Fixpoint part_loop (fuel : nat) (unique : bool) (body boundary : string) (pos : Z) (n : nat)
    : SM (string * disk) unit :=
  match fuel with
  | O => fun s => (Fuel, s)
  | S fuel =>
      let end_ := find boundary body pos in
      if (end_ =? npos)%Z then ret tt
      else
        let! part := lift (substr body pos (size (end_ - pos))) in
        let pos := size (end_ + Z.of_nat (String.length boundary)) in
        let filename_pos := find "filename=" part 0 in
        if (filename_pos =? npos)%Z then part_loop fuel unique body boundary pos n
        else
          let filename_start := size (find QUOTE part filename_pos + 1) in
          let filename_end := find QUOTE part filename_start in
          let! filename := lift (substr part filename_start (size (filename_end - filename_start))) in
          let file_content_start := size (find CRLFCRLF part filename_end + 4) in
          let file_content_end := find_last_of (CRLF +:+ "-") part in
          let! file_content :=
            lift (substr part file_content_start (size (file_content_end - file_content_start))) in
          let filename := if unique then uniquePrefix n +:+ String "_" filename else filename in
          fun '(fileNames, d) =>
            match save_file ("uploads/" +:+ filename) file_content d with
            | (Ok _, d) => part_loop fuel unique body boundary pos (S n)
                             (fileNames +:+ "'" +:+ filename +:+ "',", d)
            | (Throw e, d) => (Throw e, (fileNames, d))
            | (Undef, d) => (Undef, (fileNames, d))
            | (Fuel, d) => (Fuel, (fileNames, d))
            end
  end.

Definition close_names (fileNames : string) : outcome string :=
  match set_last "]" fileNames with Some s => Ok s | None => Undef end.

(** The code of the answer and its text *)
Definition fileupload (content_type body : string) (unique : bool) : SM disk (Z * string) := fun d =>
  if negb (uploads_exists d) && negb create_directory then (Ok (500%Z, "Failed to create directory"), d)
  else
    let d := {| uploads_exists := true; files := files d |} in
    if (find "multipart/form-data" content_type 0 =? npos)%Z then (Ok (400%Z, "Invalid content type"), d)
    else
      let boundary_pos := find "boundary=" content_type 0 in
      if (boundary_pos =? npos)%Z then (Ok (400%Z, "Boundary not found"), d)
      else
        let boundary := "--" +:+ str_drop (Z.to_nat (boundary_pos + 9)) content_type in
        match part_loop (S (String.length body)) unique body boundary 0 0 ("[", d) with
        | (Ok _, (fileNames, d)) => (let? out := close_names fileNames in Ok (200%Z, out), d)
        | (Throw e, (_, d)) => (Ok (500%Z, "Server error: " +:+ what e), d)
        | (Undef, (_, d)) => (Undef, d)
        | (Fuel, (_, d)) => (Fuel, d)
        end.

Definition route_core_upload (content_type body : string) : SM disk (Z * string) :=
  fileupload content_type body false.
Definition route_core_upload_withuid (content_type body : string) : SM disk (Z * string) :=
  fileupload content_type body true.
End upload.

(** ** Giving files back *)

Definition mimeTypes : list (string * string) := [
  (".html", "text/html"); (".css", "text/css"); (".js", "application/javascript");
  (".json", "application/json"); (".png", "image/png"); (".jpg", "image/jpeg");
  (".jpeg", "image/jpeg"); (".gif", "image/gif"); (".txt", "text/plain"); (".pdf", "application/pdf");
  (".mp3", "audio/mpeg"); (".wav", "audio/wav"); (".ogg", "audio/ogg"); (".flac", "audio/flac");
  (".aac", "audio/aac"); (".m4a", "audio/mp4"); (".mp4", "video/mp4"); (".avi", "video/x-msvideo");
  (".mov", "video/quicktime"); (".mkv", "video/x-matroska"); (".webm", "video/webm");
  (".flv", "video/x-flv"); (".mpg", "video/mpeg")].

Definition getMimeType (extension : string) : string :=
  default "application/octet-stream" (assoc (toLower extension) mimeTypes).

(** [None]: no such file; else the contents and the type of the answer *)
Definition getFile (filePath : string) (d : disk) : option (string * string) :=
  match assoc filePath (files d) with
  | None => None
  | Some fileContents =>
      let extension := match last_of "." filePath with
                       | Some dotPos => str_drop dotPos filePath
                       | None => EmptyString
                       end in
      Some (fileContents, getMimeType extension)
  end.

Definition hex_value (c : ascii) : option Z :=
  let n := byte c in
  if (48 <=? n)%Z && (n <=? 57)%Z then Some (n - 48)%Z
  else if (65 <=? n)%Z && (n <=? 70)%Z then Some (n - 55)%Z
  else if (97 <=? n)%Z && (n <=? 102)%Z then Some (n - 87)%Z
  else None.

(** [CrowMiddleware::uri_decode]: a percent sign without two digits behind it is
    dropped. *)
Fixpoint uri_decode (encoded : string) : string :=
  match encoded with
  | EmptyString => EmptyString
  | String c rest =>
      if Ascii.eqb c "%" then
        match rest with
        | String h (String l rest') =>
            match hex_value h, hex_value l with
            | Some h, Some l => String (of_byte (h * 16 + l)) (uri_decode rest')
            | _, _ => uri_decode rest
            end
        | _ => uri_decode rest
        end
      else if Ascii.eqb c "+" then String " " (uri_decode rest)
      else String c (uri_decode rest)
  end.

Definition route_uploads (path : string) (d : disk) : option (string * string) :=
  getFile ("uploads/" +:+ uri_decode (c_str path)) d.

(** ** Positions *)

Abbreviation len := String.length.

Lemma size_id z : (0 <= z <= npos)%Z -> size z = z.
Proof. intros H. unfold size, npos in *. apply Z.mod_small. lia. Qed.

Lemma starts_with_app_r p s r : starts_with p s = true -> starts_with p (s +:+ r) = true.
Proof.
  revert s. induction p as [|a p IH]; intros [|b s]; cbn; try done.
  intros [-> H]%andb_true_iff. by apply IH.
Qed.
Lemma starts_with_long p s r : len p <= len s -> starts_with p (s +:+ r) = starts_with p s.
Proof.
  revert s. induction p as [|a p IH]; intros [|b s] H; cbn in *; [by destruct r|done|lia|].
  by rewrite IH by lia.
Qed.

Lemma find_sub_self pat : find_sub pat (EmptyString +:+ pat) = Some 0.
Proof. cbn [String.append]. destruct pat as [|c pat]; [done|]. unfold find_sub. by rewrite starts_with_refl. Qed.

(** A first place stays the first place when the text goes on. *)
Lemma find_sub_app pat a r : find_sub pat (a +:+ pat) = Some (len a) ->
  find_sub pat (a +:+ pat +:+ r) = Some (len a).
Proof.
  induction a as [|c a IH]; intros H.
  - destruct pat as [|b pat]; cbn; [by destruct r|]. rewrite Ascii.eqb_refl.
    by rewrite starts_with_app.
  - cbn [String.append find_sub] in *.
    assert (starts_with pat (String c (a +:+ pat +:+ r)) = starts_with pat (String c (a +:+ pat))) as E.
    { transitivity (starts_with pat (String c (a +:+ pat) +:+ r));
        [cbn [String.append]; by rewrite <- sapp_assoc|].
      apply starts_with_long. cbn [len]. rewrite slength_app. lia. }
    rewrite E. destruct (starts_with pat (String c (a +:+ pat))); [done|].
    destruct (find_sub pat (a +:+ pat)) as [i|]; [|done]. injection H as ->. by rewrite IH.
Qed.

Lemma find_at pat a b r : find_sub pat (b +:+ pat) = Some (len b) ->
  find pat (a +:+ b +:+ pat +:+ r) (Z.of_nat (len a)) = Z.of_nat (len a + len b).
Proof.
  intros H. unfold find. rewrite slength_app.
  destruct (Z.ltb_spec (Z.of_nat (len a + len (b +:+ pat +:+ r))) (Z.of_nat (len a))); [lia|].
  rewrite Nat2Z.id, str_drop_app, (find_sub_app _ _ _ H). lia.
Qed.

Lemma substr_at a b c : substr (a +:+ b +:+ c) (Z.of_nat (len a)) (Z.of_nat (len b)) = Ok b.
Proof.
  unfold substr. rewrite !slength_app.
  destruct (Z.ltb_spec (Z.of_nat (len a + (len b + len c))) (Z.of_nat (len a))); [lia|].
  rewrite Z.min_l, !Nat2Z.id, str_drop_app, str_take_app by lia. done.
Qed.

Lemma last_of_snoc set a c :
  c ∈ list_ascii_of_string set -> last_of set (a +:+ String c EmptyString) = Some (len a).
Proof.
  intros Hc. induction a as [|b a IH]; cbn; [by rewrite bool_decide_eq_true_2|]. by rewrite IH.
Qed.

(** ** What a client sends *)

Record part := { before_name : string; name : string; after_name : string; content : string }.

(** The headers up to the name of the file, the name, the rest of the headers,
    an empty line, the contents and the end of the line *)
Definition part_text (p : part) : string :=
  before_name p +:+ "filename=" +:+ QUOTE +:+ name p +:+ QUOTE +:+ after_name p +:+ CRLFCRLF
  +:+ content p +:+ CRLF.

Definition part_ok (boundary : string) (p : part) : Prop :=
  find_sub "filename=" (before_name p +:+ "filename=") = Some (len (before_name p)) /\
  find_sub QUOTE (name p +:+ QUOTE) = Some (len (name p)) /\
  find_sub CRLFCRLF ((QUOTE +:+ after_name p) +:+ CRLFCRLF) = Some (len (QUOTE +:+ after_name p)) /\
  find_sub boundary (part_text p +:+ boundary) = Some (len (part_text p)).

Fixpoint parts_text (boundary : string) (ps : list part) (rest : string) : string :=
  match ps with
  | [] => rest
  | p :: ps => part_text p +:+ boundary +:+ parts_text boundary ps rest
  end.

Definition saved (ps : list part) (d : disk) : disk :=
  {| uploads_exists := uploads_exists d;
     files := foldl (fun fs p => assoc_set ("uploads/" +:+ name p) (content p +:+ String CR EmptyString) fs)
                (files d) ps |}.
Fixpoint names (ps : list part) : string :=
  match ps with [] => EmptyString | p :: ps => "'" +:+ name p +:+ "'," +:+ names ps end.

(** The names as the answer has them: between single quotes, with commas, in
    brackets (without any, only the last bracket) *)
Definition quoted (p : part) : string := "'" +:+ name p +:+ "'".
Definition name_list (ps : list part) : string :=
  match ps with [] => "]" | _ => "[" +:+ comma_sep (quoted <$> ps) +:+ "]" end.

Lemma names_comma p ps : names (p :: ps) = comma_sep (quoted <$> p :: ps) +:+ ",".
Proof.
  revert p. induction ps as [|p' ps IH]; intros p.
  - cbn. unfold quoted. by rewrite !sapp_assoc.
  - change (names (p :: p' :: ps)) with ("'" +:+ name p +:+ "'," +:+ names (p' :: ps)). rewrite IH.
    change (comma_sep (quoted <$> p :: p' :: ps))
      with (quoted p +:+ "," +:+ comma_sep (quoted <$> p' :: ps)).
    generalize (comma_sep (quoted <$> p' :: ps)). intros s. unfold quoted. by rewrite !sapp_assoc.
Qed.

Lemma close_name_list ps : close_names ("[" +:+ names ps) = Ok (name_list ps).
Proof.
  unfold close_names. destruct ps as [|p ps]; [done|].
  by rewrite names_comma, <- sapp_assoc, set_last_snoc, sapp_assoc.
Qed.

(** A JSON text has no single quote where a value begins. *)
Lemma name_list_json ps : load (name_list ps) = None.
Proof. by destruct ps as [|p [|p' ps]]. Qed.

Section uploading.
Context (create_directory : bool) (can_open : string -> bool) (what : exn -> string)
  (uniquePrefix : nat -> string).

Lemma part_fields p (P := part_text p) : (Z.of_nat (len P) < npos)%Z ->
  forall boundary, part_ok boundary p ->
  find "filename=" P 0 = Z.of_nat (len (before_name p)) /\
  find QUOTE P (Z.of_nat (len (before_name p))) = Z.of_nat (len (before_name p) + 9) /\
  find QUOTE P (Z.of_nat (len (before_name p) + 10)) = Z.of_nat (len (before_name p) + 10 + len (name p)) /\
  substr P (Z.of_nat (len (before_name p) + 10)) (Z.of_nat (len (name p))) = Ok (name p) /\
  find CRLFCRLF P (Z.of_nat (len (before_name p) + 10 + len (name p)))
    = Z.of_nat (len (before_name p) + 10 + len (name p) + 1 + len (after_name p)) /\
  find_last_of (CRLF +:+ "-") P = Z.of_nat (len P - 1) /\
  substr P (Z.of_nat (len (before_name p) + 10 + len (name p) + 1 + len (after_name p) + 4))
    (Z.of_nat (len (content p) + 1)) = Ok (content p +:+ String CR EmptyString).
Proof.
  intros HP boundary (H1 & H2 & H3 & _). subst P. unfold part_text.
  set (a := before_name p) in *. set (n := name p) in *. set (m := after_name p) in *. set (c := content p) in *.
  assert (len (a +:+ "filename=" +:+ QUOTE) = len a + 10) as La by (rewrite !slength_app; cbn; lia).
  assert (len ((a +:+ "filename=" +:+ QUOTE) +:+ n) = len a + 10 + len n) as Ln by (rewrite slength_app; lia).
  assert (len (((a +:+ "filename=" +:+ QUOTE) +:+ n +:+ QUOTE) +:+ m +:+ CRLFCRLF)
          = len a + 10 + len n + 1 + len m + 4) as Lm
    by (rewrite !slength_app; change (len CRLFCRLF) with 4; change (len QUOTE) with 1; cbn [len]; lia).
  split_and!.
  - pose proof (find_at "filename=" EmptyString a (QUOTE +:+ n +:+ QUOTE +:+ m +:+ CRLFCRLF +:+ c +:+ CRLF) H1) as H.
    exact H.
  - pose proof (find_at QUOTE a "filename=" (n +:+ QUOTE +:+ m +:+ CRLFCRLF +:+ c +:+ CRLF) eq_refl) as H.
    exact H.
  - rewrite <- La.
    pose proof (find_at QUOTE (a +:+ "filename=" +:+ QUOTE) n (m +:+ CRLFCRLF +:+ c +:+ CRLF) H2) as H.
    rewrite ?sapp_assoc in H. rewrite ?sapp_assoc. exact H.
  - rewrite <- La. pose proof (substr_at (a +:+ "filename=" +:+ QUOTE) n (QUOTE +:+ m +:+ CRLFCRLF +:+ c +:+ CRLF)) as H.
    rewrite ?sapp_assoc in H. rewrite ?sapp_assoc. exact H.
  - rewrite <- Ln. pose proof (find_at CRLFCRLF ((a +:+ "filename=" +:+ QUOTE) +:+ n) (QUOTE +:+ m) (c +:+ CRLF) H3) as H.
    rewrite ?sapp_assoc in H. rewrite ?sapp_assoc, H. f_equal. rewrite !slength_app. cbn. lia.
  - unfold find_last_of.
    replace (a +:+ "filename=" +:+ QUOTE +:+ n +:+ QUOTE +:+ m +:+ CRLFCRLF +:+ c +:+ CRLF)
      with ((a +:+ "filename=" +:+ QUOTE +:+ n +:+ QUOTE +:+ m +:+ CRLFCRLF +:+ c +:+ String CR EmptyString)
              +:+ String LF EmptyString) by (by rewrite !sapp_assoc).
    rewrite last_of_snoc by (right; left). f_equal. rewrite (slength_app _ (String LF EmptyString)). cbn [len]. lia.
  - rewrite <- Lm.
    pose proof (substr_at (((a +:+ "filename=" +:+ QUOTE) +:+ n +:+ QUOTE) +:+ m +:+ CRLFCRLF)
                  (c +:+ String CR EmptyString) (String LF EmptyString)) as H.
    rewrite (slength_app c) in H. rewrite ?sapp_assoc in H. rewrite ?sapp_assoc. exact H.
Qed.

Definition all_open (ps : list part) : Prop := Forall (fun p => can_open ("uploads/" +:+ name p) = true) ps.

(** One turn of the loop, at the end of [done] *)
Lemma part_turn fuel boundary done_ p rest n s :
  part_ok boundary p -> can_open ("uploads/" +:+ name p) = true ->
  (Z.of_nat (len (done_ +:+ part_text p +:+ boundary +:+ rest)) < npos)%Z ->
  part_loop can_open uniquePrefix (S fuel) false (done_ +:+ part_text p +:+ boundary +:+ rest) boundary
    (Z.of_nat (len done_)) n s
  = part_loop can_open uniquePrefix fuel false (done_ +:+ part_text p +:+ boundary +:+ rest) boundary
      (Z.of_nat (len (done_ +:+ part_text p +:+ boundary))) (S n)
      (s.1 +:+ "'" +:+ name p +:+ "',", saved [p] s.2).
Proof.
  intros Hp Ho Hl. destruct s as [fileNames d]. pose proof Hp as (_ & _ & _ & Hb).
  rewrite !slength_app in Hl. assert (Z.of_nat (len (part_text p)) < npos)%Z as HP by lia.
  destruct (part_fields p HP boundary Hp) as (F1 & F2 & F3 & F4 & F5 & F6 & F7).
  assert (len (part_text p) = len (before_name p) + 10 + len (name p) + 1 + len (after_name p) + 4
                              + len (content p) + 2) as HL
    by (unfold part_text; rewrite !slength_app; cbn; lia).
  cbn [part_loop]. rewrite (find_at boundary done_ (part_text p) rest Hb).
  rewrite (proj2 (Z.eqb_neq _ npos)) by lia.
  replace (Z.of_nat (len done_ + len (part_text p)) - Z.of_nat (len done_))%Z
    with (Z.of_nat (len (part_text p))) by lia.
  rewrite (size_id (Z.of_nat (len (part_text p)))) by lia.
  unfold bind at 1. unfold lift at 1. rewrite substr_at.
  rewrite F1, (proj2 (Z.eqb_neq _ npos)) by lia. rewrite F2.
  rewrite (size_id (Z.of_nat (len (before_name p) + 9) + 1)) by lia.
  replace (Z.of_nat (len (before_name p) + 9) + 1)%Z with (Z.of_nat (len (before_name p) + 10)) by lia.
  rewrite F3.
  replace (Z.of_nat (len (before_name p) + 10 + len (name p)) - Z.of_nat (len (before_name p) + 10))%Z
    with (Z.of_nat (len (name p))) by lia.
  rewrite (size_id (Z.of_nat (len (name p)))) by lia. unfold bind at 1. unfold lift at 1. rewrite F4, F5.
  match goal with |- context [size (Z.of_nat ?x + 4)] =>
    rewrite (size_id (Z.of_nat x + 4)) by lia;
    replace (Z.of_nat x + 4)%Z with (Z.of_nat (x + 4)) by lia end.
  rewrite F6.
  match goal with |- context [size (Z.of_nat ?x - Z.of_nat ?y)] =>
    replace (Z.of_nat x - Z.of_nat y)%Z with (Z.of_nat (len (content p) + 1)) by lia end.
  rewrite (size_id (Z.of_nat (len (content p) + 1))) by lia.
  unfold bind at 1. unfold lift at 1. rewrite F7. unfold save_file. rewrite Ho. cbn [fst snd].
  f_equal. rewrite size_id by lia. rewrite !slength_app. lia.
Qed.

Lemma saved_cons p ps d : saved (p :: ps) d = saved ps (saved [p] d).
Proof. done. Qed.

Lemma find_nowhere pat a r : find_sub pat r = None -> find pat (a +:+ r) (Z.of_nat (len a)) = npos.
Proof.
  intros H. unfold find. rewrite slength_app, Nat2Z.id, str_drop_app, H.
  by destruct (_ <? _)%Z.
Qed.

Lemma part_loop_run boundary rest ps fuel done_ n s :
  Forall (part_ok boundary) ps -> all_open ps -> find_sub boundary rest = None ->
  (Z.of_nat (len (done_ +:+ parts_text boundary ps rest)) < npos)%Z -> length ps < fuel ->
  part_loop can_open uniquePrefix fuel false (done_ +:+ parts_text boundary ps rest) boundary
    (Z.of_nat (len done_)) n s = (Ok tt, (s.1 +:+ names ps, saved ps s.2)).
Proof.
  revert fuel done_ n s. induction ps as [|p ps IH]; intros [|fuel] done_ n s Hok Ho Hr Hl Hf; try (cbn in Hf; lia).
  - cbn [parts_text part_loop names]. rewrite find_nowhere by done. destruct s as [fileNames d].
    cbn. rewrite sapp_nil_r. by destruct d.
  - apply Forall_cons in Hok as [Hp Hok]. apply Forall_cons in Ho as [Hop Ho]. cbn [parts_text] in *.
    rewrite part_turn by done.
    specialize (IH fuel (done_ +:+ part_text p +:+ boundary) (S n)
                  (s.1 +:+ "'" +:+ name p +:+ "',", saved [p] s.2) Hok Ho Hr).
    rewrite !sapp_assoc in IH. rewrite IH by (done || (cbn in Hf; lia)).
    cbn [fst snd names]. rewrite saved_cons. f_equal. f_equal. rewrite !sapp_assoc. done.
Qed.

Lemma parts_text_length boundary ps rest : length ps <= len (parts_text boundary ps rest).
Proof.
  induction ps as [|p ps IH]; cbn [parts_text length]; [lia|]. rewrite !slength_app. unfold part_text.
  rewrite !slength_app. change (len "filename=") with 9. lia.
Qed.

Lemma assoc_saved ps fs p : NoDup (name <$> ps) -> p ∈ ps ->
  assoc ("uploads/" +:+ name p)
    (foldl (fun fs p => assoc_set ("uploads/" +:+ name p) (content p +:+ String CR EmptyString) fs) fs ps)
  = Some (content p +:+ String CR EmptyString).
Proof.
  intros Hn Hp. assert (forall ps fs, name p ∉ name <$> ps ->
    assoc ("uploads/" +:+ name p)
      (foldl (fun fs p => assoc_set ("uploads/" +:+ name p) (content p +:+ String CR EmptyString) fs) fs ps)
    = assoc ("uploads/" +:+ name p) fs) as Hkeep.
  { clear. induction ps as [|p' ps IH]; intros fs H; [done|]. cbn [foldl].
    rewrite fmap_cons, not_elem_of_cons in H. destruct H as [Hne H]. rewrite IH by done.
    apply assoc_set_ne. cbn. intros [= E]. by symmetry in E. }
  revert fs. induction ps as [|p' ps IH]; intros fs; [by apply elem_of_nil in Hp|].
  rewrite fmap_cons in Hn. apply NoDup_cons in Hn as [Hn1 Hn]. cbn [foldl].
  apply elem_of_cons in Hp as [->|Hp]; [|by apply IH]. rewrite Hkeep by done. apply assoc_set_eq.
Qed.

(** A name that is the same in an URL *)
Definition plain_char (c : ascii) : bool :=
  negb (Ascii.eqb c NUL) && negb (Ascii.eqb c "%") && negb (Ascii.eqb c "+").
Definition plain (s : string) : Prop := Forall (fun c => plain_char c = true) (list_ascii_of_string s).
Lemma uri_decode_plain s : plain s -> uri_decode (c_str s) = s.
Proof.
  induction s as [|c s IH]; [done|]. intros H. apply Forall_cons in H as [Hc H].
  unfold plain_char in Hc. rewrite !andb_true_iff, !negb_true_iff in Hc. destruct Hc as [[H1 H2] H3].
  cbn [c_str]. rewrite H1. cbn [uri_decode]. rewrite H2, H3. by rewrite IH.
Qed.

Definition multipart (bnd : string) : string := "multipart/form-data; boundary=" +:+ bnd.
Lemma multipart_fields bnd :
  find "multipart/form-data" (multipart bnd) 0 = 0%Z /\ find "boundary=" (multipart bnd) 0 = 21%Z /\
  str_drop (Z.to_nat (21 + 9)) (multipart bnd) = bnd.
Proof.
  split_and!.
  - exact (find_at "multipart/form-data" EmptyString EmptyString ("; boundary=" +:+ bnd) eq_refl).
  - exact (find_at "boundary=" EmptyString "multipart/form-data; " bnd eq_refl).
  - apply (str_drop_app "multipart/form-data; boundary=" bnd).
Qed.

(** C23. An upload of files in the form of a browser is answered 200 with their
    names, and the route of the uploads then gives each file back with one more
    byte than was sent: the carriage return of the line end before the boundary.
    The names are between single quotes, so the answer is not JSON, though the
    README promises an array in JSON. *)
Theorem upload_then_get bnd ps d :
  let boundary := "--" +:+ bnd in
  let body := boundary +:+ parts_text boundary ps "--" in
  create_directory = true \/ uploads_exists d = true ->
  Forall (part_ok boundary) ps -> all_open ps -> find_sub boundary "--" = None ->
  (Z.of_nat (len body) < npos)%Z -> NoDup (name <$> ps) ->
  load (name_list ps) = None /\
  exists d',
    route_core_upload create_directory can_open what uniquePrefix
      (multipart bnd) body d = (Ok (200%Z, name_list ps), d') /\
    forall p, p ∈ ps -> plain (name p) ->
      fst <$> route_uploads (name p) d' = Some (content p +:+ String CR EmptyString).
Proof.
  intros boundary body Hd Hok Ho Hr Hl Hn. split; [apply name_list_json|].
  exists (saved ps {| uploads_exists := true; files := files d |}). split.
  - unfold route_core_upload, fileupload.
    assert (negb (uploads_exists d) && negb create_directory = false) as -> by (destruct Hd as [->| ->]; by destruct (uploads_exists d)).
    destruct (multipart_fields bnd) as (-> & -> & ->).
    change (0 =? npos)%Z with false. change (21 =? npos)%Z with false. cbn iota.
    fold boundary. subst body.
    assert (find boundary (boundary +:+ parts_text boundary ps "--") 0 = 0%Z) as E1
      by exact (find_at boundary EmptyString EmptyString _ (find_sub_self boundary)).
    cbn [part_loop]. rewrite E1. change (0 =? npos)%Z with false. cbn iota.
    change (size (0 - 0)) with 0%Z. unfold bind at 1. unfold lift at 1.
    assert (substr (boundary +:+ parts_text boundary ps "--") 0 0 = Ok EmptyString) as ->
      by exact (substr_at EmptyString EmptyString _).
    change (find "filename=" EmptyString 0) with npos. rewrite Z.eqb_refl, Z.add_0_l.
    rewrite slength_app in Hl. rewrite size_id by lia.
    rewrite part_loop_run; [|done|done|done|by rewrite slength_app|].
    + cbn [fst snd]. by rewrite close_name_list.
    + rewrite slength_app. pose proof (parts_text_length boundary ps "--"). assert (2 <= len boundary) by (subst boundary; rewrite slength_app; cbn; lia). lia.
  - intros p Hp Hplain. unfold route_uploads, getFile. rewrite uri_decode_plain by done.
    cbn [files saved]. by rewrite assoc_saved.
Qed.
End uploading.

(** ** An example *)

Definition example_part : part := {|
  before_name := CRLF +:+ "Content-Disposition: form-data; name=" +:+ QUOTE +:+ "file" +:+ QUOTE +:+ "; ";
  name := "a.txt";
  after_name := CRLF +:+ "Content-Type: text/plain";
  content := "hello"
|}.

Lemma upload_then_get_witness :
  load "['a.txt']" = None /\
  exists d',
    route_core_upload true (fun _ => true) (fun _ => EmptyString) (fun _ => EmptyString) (multipart "XyZ")
      ("--XyZ" +:+ parts_text "--XyZ" [example_part] "--") {| uploads_exists := false; files := [] |}
    = (Ok (200%Z, "['a.txt']"), d') /\
    fst <$> route_uploads "a.txt" d' = Some ("hello" +:+ String CR EmptyString).
Proof.
  destruct (upload_then_get true (fun _ => true) (fun _ => EmptyString) (fun _ => EmptyString) "XyZ"
              [example_part] {| uploads_exists := false; files := [] |}) as (H1 & d' & H2 & H3).
  - by left.
  - repeat constructor; vm_compute; reflexivity.
  - by repeat constructor.
  - reflexivity.
  - vm_compute. reflexivity.
  - apply NoDup_singleton.
  - split; [exact H1|]. exists d'. split; [exact H2|]. apply (H3 example_part); [left|].
    repeat constructor.
Defined.
