(* ===== verification/Mustache.v ===== *)
(** * Templates

    src/third-party/crow/include/crow/mustache.h: the template engine the pages
    of httprouting.hpp are printed with.  A template is parsed into fragments,
    ranges of positions of its text, and as many actions, one behind each
    fragment; a tag that stands alone in its line takes the line with it.  The
    renderer runs over both with a stack of contexts.

    Positions are natural numbers: the templates are shorter than [INT_MAX].
    The text has its zero byte behind it.  A block that is not closed, and a
    partial that includes itself, let the renderer run without an end: it has
    fuel. *)

From S2P Require Import Prelude Json Upload.
Local Open Scope quarks_scope.

(** ** Data *)

Inductive ActionType := Ignore | Tag | UnescapeTag | OpenBlock | CloseBlock | ElseBlock | Partial.

Record Action := { t : ActionType; start : nat; end_ : nat; pos : nat }.

Record template_t := {
  body_ : string;
  fragments_ : list (nat * nat);
  actions_ : list Action
}.

Definition invalid_template {A} (msg : string) : outcome A :=
  Throw (TemplateError ("crow::mustache error: " +:+ msg)).

(** ** Positions in a text *)

(** [body_\[i\]], with the zero byte behind the last one *)
Fixpoint char_at (s : string) (i : nat) : ascii :=
  match s, i with
  | EmptyString, _ => NUL
  | String c _, O => c
  | String _ s, S i => char_at s i
  end.

Definition is_blank (c : ascii) : bool := Ascii.eqb c " ".

Fixpoint blanks (s : string) : nat :=
  match s with
  | String c s => if is_blank c then S (blanks s) else 0
  | EmptyString => 0
  end.

(** [while(body_\[idx\] == ' ') idx++;] *)
Definition skip_blanks (body : string) (idx : nat) : nat := idx + blanks (str_drop idx body).

(** [while(body_\[endIdx-1\] == ' ') endIdx--;] *)
Fixpoint trim_end (body : string) (endIdx : nat) : nat :=
  match endIdx with
  | O => O
  | S e => if is_blank (char_at body e) then trim_end body e else endIdx
  end.

(** [body_.substr(s, e - s)]: with [e < s] the length wraps and everything from
    [s] on is taken. *)
Definition span (body : string) (s e : nat) : string :=
  if (e <? s)%nat then str_drop s body else str_take (e - s) (str_drop s body).

(** [body_.find(pat, from)] *)
Definition find_from (pat body : string) (from : nat) : option nat :=
  (fun i => from + i) <$> find_sub pat (str_drop from body).

Definition tag_name (tm : template_t) (a : Action) : string := span (body_ tm) (start a) (end_ a).

(** ** Parsing *)

(** The locals of the loop of [parse], with the actions of the template *)
Record parsing := {
  tag_open : string;
  tag_close : string;
  blockPositions : list nat;   (* the last one first *)
  current : nat;
  p_actions : list Action
}.

Definition emplace (a : Action) (p : parsing) : parsing := {|
  tag_open := tag_open p; tag_close := tag_close p; blockPositions := blockPositions p;
  current := current p; p_actions := p_actions p ++ [a] |}.
Definition set_blocks (l : list nat) (p : parsing) : parsing := {|
  tag_open := tag_open p; tag_close := tag_close p; blockPositions := l;
  current := current p; p_actions := p_actions p |}.
Definition set_current (c : nat) (p : parsing) : parsing := {|
  tag_open := tag_open p; tag_close := tag_close p; blockPositions := blockPositions p;
  current := c; p_actions := p_actions p |}.
Definition set_pos (n : nat) (a : Action) : Action := {|
  t := t a; start := start a; end_ := end_ a; pos := n |}.
Definition set_actions (l : list Action) (p : parsing) : parsing := {|
  tag_open := tag_open p; tag_close := tag_close p; blockPositions := blockPositions p;
  current := current p; p_actions := l |}.
Definition set_tags (o c : string) (p : parsing) : parsing := {|
  tag_open := o; tag_close := c; blockPositions := blockPositions p;
  current := current p; p_actions := p_actions p |}.

Definition action (ty : ActionType) (s e : nat) : Action := {| t := ty; start := s; end_ := e; pos := 0 |}.

(** A tag whose text lies between blanks, from [idx] on *)
Definition trimmed (body : string) (ty : ActionType) (idx endIdx : nat) : Action :=
  action ty (skip_blanks body idx) (trim_end body endIdx).

(** The case of [#] and of [^] *)
Definition open_tag (body : string) (ty : ActionType) (idx endIdx : nat) (p : parsing) : parsing :=
  emplace (trimmed body ty (S idx) endIdx)
    (set_blocks (length (p_actions p) :: blockPositions p) p).

(** The case of [/] *)
Definition close_tag (body : string) (idx endIdx : nat) (p : parsing) : outcome parsing :=
  let a := trimmed body CloseBlock (S idx) endIdx in
  match blockPositions p with
  | [] => Undef
  | b :: bs =>
      match p_actions p !! b with
      | None => Undef
      | Some matched =>
          let name := span body (start a) (end_ a) in
          let opened := span body (start matched) (end_ matched) in
          if String.eqb name opened then
            let p := set_actions (<[b := set_pos (length (p_actions p)) matched]> (p_actions p)) p in
            Ok (set_blocks bs (emplace (set_pos b a) p))
          else invalid_template ("not matched {{# {{/ pair: " +:+ opened +:+ ", " +:+ name)
      end
  end.

(** The case of [=]: the new delimiters *)
Definition delimiter_tag (body : string) (idx endIdx : nat) (p : parsing) : outcome parsing :=
  let idx := S idx in
  let p := emplace (action Ignore idx endIdx) p in
  let endIdx := endIdx - 1 in
  if negb (Ascii.eqb (char_at body endIdx) "=")
  then invalid_template ("{{=: not matching = tag: " +:+ span body idx endIdx)
  else
    let idx := skip_blanks body idx in
    let endIdx := trim_end body endIdx in
    match find_char " " (str_take (endIdx - idx) (str_drop idx body)) with
    | None => invalid_template "{{=: cannot find space between new open/close tags"
    | Some n =>
        let o := str_take n (str_drop idx body) in
        let c := span body (skip_blanks body (idx + n)) endIdx in
        match o, c with
        | EmptyString, _ => invalid_template "{{=: empty open tag"
        | _, EmptyString => invalid_template "{{=: empty close tag"
        | _, _ =>
            match find_char " " c with
            | Some _ => invalid_template ("{{=: invalid open/close tag: " +:+ o +:+ " " +:+ c)
            | None => Ok (set_tags o c p)
            end
        end
    end.

(** The [switch] on the first character of a tag *)
Definition take_tag (body : string) (idx endIdx : nat) (p : parsing) : outcome parsing :=
  let c := char_at body idx in
  if Ascii.eqb c "#" then Ok (open_tag body OpenBlock idx endIdx p)
  else if Ascii.eqb c "/" then close_tag body idx endIdx p
  else if Ascii.eqb c "^" then Ok (open_tag body ElseBlock idx endIdx p)
  else if Ascii.eqb c "!" then Ok (emplace (action Ignore (S idx) endIdx) p)
  else if Ascii.eqb c ">" then Ok (emplace (trimmed body Partial (S idx) endIdx) p)
  else if Ascii.eqb c "{" then
    if negb (String.eqb (tag_open p) "{{") || negb (String.eqb (tag_close p) "}}")
    then invalid_template "cannot use triple mustache when delimiter changed"
    else if negb (Ascii.eqb (char_at body (endIdx + 2)) "}")
    then invalid_template "{{{: }} not matched"
    else Ok (set_current (S (current p)) (emplace (trimmed body UnescapeTag (S idx) endIdx) p))
  else if Ascii.eqb c "&" then Ok (emplace (trimmed body UnescapeTag (S idx) endIdx) p)
  else if Ascii.eqb c "=" then delimiter_tag body idx endIdx p
  else Ok (emplace (trimmed body Tag idx endIdx) p).

(** The loop of [parse]: the fragments behind [current] and the actions.  Every
    turn moves [current] on. *)
Fixpoint parse_loop (fuel : nat) (body : string) (p : parsing)
    : outcome (list (nat * nat) * list Action) :=
  match fuel with
  | O => Fuel
  | S fuel =>
      match find_from (tag_open p) body (current p) with
      | None =>
          Ok ([(current p, String.length body)], p_actions p ++ [action Ignore 0 0])
      | Some idx =>
          let fragment := (current p, idx) in
          let idx := idx + String.length (tag_open p) in
          match find_from (tag_close p) body idx with
          | None => invalid_template "not matched opening tag"
          | Some endIdx =>
              if (endIdx =? idx)%nat then invalid_template "empty tag is not allowed"
              else
                let? p := take_tag body idx endIdx
                            (set_current (endIdx + String.length (tag_close p)) p) in
                let? r := parse_loop fuel body p in
                Ok (fragment :: r.1, r.2)
          end
      end
  end.

(** [for(j = fragment.second - 1; j >= fragment.first; j--)] stops at a
    character that is no blank: [j + 1]. *)
Fixpoint back_to (body : string) (first : nat) (n : nat) : nat :=
  match n with
  | O => first
  | S n => if is_blank (char_at body (first + n)) then back_to body first n else S (first + n)
  end.

(** The test for a tag that stands alone: the new fragments around action [i],
    and its new [pos] *)
Definition standalone (body : string) (is_first is_last : bool) (before after : nat * nat)
    : option ((nat * nat) * (nat * nat) * nat) :=
  let j1 := back_to body before.1 (before.2 - before.1) in
  let all_space_before := (j1 =? before.1)%nat in
  let k := after.1 + Nat.min (blanks (str_drop after.1 body)) (after.2 - after.1) in
  let all_space_after := (k =? after.2)%nat in
  if all_space_before && negb is_first then None
  else if negb all_space_before && negb (Ascii.eqb (char_at body (j1 - 1)) LF) then None
  else if all_space_after && negb is_last then None
  else if negb all_space_after &&
          negb (Ascii.eqb (char_at body k) LF ||
                (Ascii.eqb (char_at body k) CR && (S k <? String.length body)%nat &&
                 Ascii.eqb (char_at body (S k)) LF)) then None
  else
    let k' := if all_space_after then after.1
              else if Ascii.eqb (char_at body k) LF then S k else k + 2 in
    Some ((before.1, j1), (k', after.2), before.2 - j1).

(** One turn of the loop that removes the lines of such tags *)
Definition remove_line (body : string) (last : nat) (i : nat)
    (r : list (nat * nat) * list Action) : list (nat * nat) * list Action :=
  let '(fragments, actions) := r in
  match actions !! i, fragments !! i, fragments !! S i with
  | Some a, Some before, Some after =>
      match t a with
      | Tag | UnescapeTag => r
      | _ =>
          match standalone body (i =? 0)%nat (i =? last)%nat before after with
          | None => r
          | Some (before, after, n) =>
              (<[S i := after]> (<[i := before]> fragments),
               match t a with Partial => <[i := set_pos n a]> actions | _ => actions end)
          end
      end
  | _, _, _ => r
  end.

(** From the last action but one down to the first *)
Fixpoint remove_lines (body : string) (last : nat) (n : nat)
    (r : list (nat * nat) * list Action) : list (nat * nat) * list Action :=
  match n with
  | O => r
  | S i => remove_lines body last i (remove_line body last i r)
  end.

Definition start_parsing : parsing := {|
  tag_open := "{{"; tag_close := "}}"; blockPositions := []; current := 0; p_actions := [] |}.

(** [compile]: the constructor of [template_t] with [parse] *)
Definition compile (body : string) : outcome template_t :=
  let? r := parse_loop (S (String.length body)) body start_parsing in
  let n := length r.2 - 1 in
  let r := remove_lines body (n - 1) n r in
  Ok {| body_ := body; fragments_ := r.1; actions_ := r.2 |}.

(** ** Rendering *)

Fixpoint spaces (n : nat) : string :=
  match n with O => EmptyString | S n => String " " (spaces n) end.

(** The characters of a fragment that begins at [i]: the lines behind its line
    ends are indented, but for the end of the whole text, of length [n]. *)
Fixpoint indented (indent n i : nat) (s : string) : string :=
  match s with
  | EmptyString => EmptyString
  | String c s =>
      String c ((if Ascii.eqb c LF && negb (S i =? n)%nat then spaces indent else EmptyString)
                +:+ indented indent n (S i) s)
  end.

Definition render_fragment (body : string) (f : nat * nat) (indent : nat) : string :=
  match indent with
  | O => span body f.1 f.2
  | _ => indented indent (String.length body) f.1 (str_take (f.2 - f.1) (str_drop f.1 body))
  end.

Definition escape_char (c : ascii) : string :=
  if Ascii.eqb c "&" then "&amp;"
  else if Ascii.eqb c "<" then "&lt;"
  else if Ascii.eqb c ">" then "&gt;"
  else if Ascii.eqb c DQUOTE then "&quot;"
  else if Ascii.eqb c "'" then "&#39;"
  else if Ascii.eqb c "/" then "&#x2F;"
  else String c EmptyString.
Fixpoint escape (s : string) : string :=
  match s with
  | EmptyString => EmptyString
  | String c s => escape_char c +:+ escape s
  end.

(** The names between the dots *)
Fixpoint split_dots (s : string) : list string :=
  match s with
  | EmptyString => [EmptyString]
  | String c s =>
      if Ascii.eqb c "." then EmptyString :: split_dots s
      else match split_dots s with
           | n :: ns => String c n :: ns
           | [] => [String c EmptyString]
           end
  end.

Section render.
Context {plat : Platform}.
(** The loader: the text of a template by its name *)
Context (load_text : string -> outcome string).

(** [view->t() == Object && view->count(k)], and the member *)
Definition member_of (view : wvalue) (k : string) : option wvalue :=
  match view with WObj o => assoc k o | _ => None end.

Fixpoint walk (view : wvalue) (names : list string) : option wvalue :=
  match names with
  | [] => Some view
  | n :: names => member_of view n ≫= fun view => walk view names
  end.

Fixpoint first_some {A B} (f : A -> option B) (l : list A) : option B :=
  match l with
  | [] => None
  | x :: l => match f x with Some y => Some y | None => first_some f l end
  end.

(** The stack has its top first.  What is not found is an empty text. *)
Definition find_context (name : string) (stack : list wvalue) : outcome (bool * wvalue) :=
  if String.eqb name "." then
    match stack with c :: _ => Ok (true, c) | [] => Undef end
  else
    let found := match find_char "." name with
                 | None => first_some (fun c => member_of c name) stack
                 | Some _ => first_some (fun c => walk c (split_dots name)) stack
                 end in
    Ok (match found with Some c => (true, c) | None => (false, WStr EmptyString) end).

Definition type_code (c : wvalue) : Z :=
  match c with
  | WNull => 0 | WFalse => 1 | WTrue => 2 | WNum _ => 3 | WStr _ => 4 | WList _ => 5 | WObj _ => 6
  end.

(** The case of a tag *)
Definition render_tag (escaped : bool) (c : wvalue) : outcome string :=
  match c with
  | WNum _ => Ok (dump c)
  | WStr s => Ok (if escaped then escape s else s)
  | _ => Throw (RuntimeError ("not implemented tag type" +:+ to_string (type_code c)))
  end.

(** What an open or else block does: push a context and go on, skip to the end
    of the block, or print the block for each element *)
Inductive block := Enter (c : wvalue) | Skip | Each (l : list wvalue).

Definition open_block (f : bool * wvalue) : block :=
  match f with
  | (false, _) => Skip
  | (true, WList l) => Each l
  | (true, WFalse) | (true, WNull) => Skip
  | (true, c) => Enter c
  end.
Definition else_block (f : bool * wvalue) : block :=
  match f with
  | (false, _) => Enter WNull
  | (true, WList (_ :: _)) => Skip
  | (true, WList []) | (true, WFalse) | (true, WNull) => Enter WNull
  | (true, _) => Skip
  end.

Definition pop_back (stack : list wvalue) : outcome (list wvalue) :=
  match stack with [] => Undef | _ :: stack => Ok stack end.

(** [render_internal] from the action [current] on: what is printed, and the
    stack that is left.  The spaces at its start are printed by its callers. *)
Fixpoint render_internal (fuel : nat) (tm : template_t) (current actionEnd : nat)
    (stack : list wvalue) (indent : nat) : outcome (string * list wvalue) :=
  match fuel with
  | O => Fuel
  | S fuel =>
      match fragments_ tm !! (if (current <? actionEnd)%nat then current else actionEnd) with
      | None => Undef
      | Some fragment =>
          let out := render_fragment (body_ tm) fragment indent in
          if (current <? actionEnd)%nat then
            match actions_ tm !! current with
            | None => Undef
            | Some a =>
                let goes_on (printed : string) (next : nat) (stack : list wvalue) :=
                  let? r := render_internal fuel tm next actionEnd stack indent in
                  Ok (out +:+ printed +:+ r.1, r.2) in
                let in_block (b : block) :=
                  match b with
                  | Enter c => goes_on EmptyString (S current) (c :: stack)
                  | Skip => goes_on EmptyString (S (pos a)) stack
                  | Each l =>
                      let? r := (fix each (l : list wvalue) (stack : list wvalue) :=
                        match l with
                        | [] => Ok (EmptyString, stack)
                        | c :: l =>
                            let? r := render_internal fuel tm (S current) (pos a) (c :: stack) indent in
                            let? stack := pop_back r.2 in
                            let? r' := each l stack in
                            Ok (spaces indent +:+ r.1 +:+ r'.1, r'.2)
                        end) l stack in
                      goes_on r.1 (S (pos a)) r.2
                  end in
                match t a with
                | Ignore => goes_on EmptyString (S current) stack
                | Partial =>
                    let? text := load_text (tag_name tm a) in
                    let? partial := compile text in
                    let ind := match pos a with O => 0 | n => indent + n end in
                    let? r := render_internal fuel partial 0 (length (fragments_ partial) - 1) stack ind in
                    goes_on (spaces ind +:+ r.1) (S current) r.2
                | Tag | UnescapeTag =>
                    let? f := find_context (tag_name tm a) stack in
                    let? text := render_tag (match t a with Tag => true | _ => false end) f.2 in
                    goes_on text (S current) stack
                | OpenBlock =>
                    let? f := find_context (tag_name tm a) stack in in_block (open_block f)
                | ElseBlock =>
                    let? f := find_context (tag_name tm a) stack in in_block (else_block f)
                | CloseBlock =>
                    let? stack := pop_back stack in goes_on EmptyString (S current) stack
                end
            end
          else Ok (out, stack)
      end
  end.

(** [render(ctx)] *)
Definition render (fuel : nat) (tm : template_t) (ctx : wvalue) : outcome string :=
  let? r := render_internal fuel tm 0 (length (fragments_ tm) - 1) [ctx] 0 in Ok r.1.
End render.

(** ** Parsing ends *)

Abbreviation len := String.length.

Lemma find_from_range pat body from i : find_from pat body from = Some i ->
  pat <> EmptyString -> from <= i /\ i + len pat <= len body.
Proof.
  unfold find_from. intros H Hp. destruct (find_sub pat (str_drop from body)) as [k|] eqn:E; [|done].
  injection H as <-. pose proof (str_drop_length from body) as Hl.
  assert (k + len pat <= len (str_drop from body)); [|destruct pat; [done|cbn in *; lia]].
  clear Hl. revert k E. induction (str_drop from body) as [|c s IH]; intros k; cbn [find_sub].
  - destruct (starts_with pat EmptyString) eqn:Es; [|done]. by destruct pat.
  - destruct (starts_with pat (String c s)) eqn:Es.
    + intros [= <-]. by apply starts_with_length in Es.
    + destruct (find_sub pat s); [|done]. intros [= <-]. specialize (IH _ eq_refl). cbn. lia.
Qed.

(** What a tag leaves of the positions: the next turn begins where it would have
    or one byte further, and the opening delimiter has a byte. *)
Definition moves_on (p : parsing) (r : outcome parsing) : Prop :=
  match r with
  | Ok p' => current p <= current p' /\ tag_open p' <> EmptyString
  | Throw _ | Undef => True
  | Fuel => False
  end.

Lemma delimiter_moves body idx endIdx p : tag_open p <> EmptyString ->
  moves_on p (delimiter_tag body idx endIdx p).
Proof.
  intros Hp. unfold delimiter_tag, invalid_template. cbn zeta. destruct (negb _); [done|].
  destruct (find_char _ _) as [n|]; [|done].
  destruct (str_take n _) as [|a o]; [done|]. destruct (span _ _ _) as [|b c]; [done|].
  by destruct (find_char _ _).
Qed.

Lemma take_tag_moves body idx endIdx p : tag_open p <> EmptyString ->
  moves_on p (take_tag body idx endIdx p).
Proof.
  intros Hp. unfold take_tag, invalid_template.
  repeat case_match; try done; cbn [moves_on]; try (split; [cbn; lia|done]).
  - unfold close_tag, invalid_template. repeat case_match; done.
  - by apply delimiter_moves.
Qed.

Lemma parse_ends fuel body p : tag_open p <> EmptyString -> len body < current p + fuel -> 0 < fuel ->
  parse_loop fuel body p <> Fuel.
Proof.
  revert p. induction fuel as [|fuel IH]; intros p Hp Hf H0; [lia|]. cbn [parse_loop].
  destruct (find_from (tag_open p) body (current p)) as [idx|] eqn:E; [|done].
  apply find_from_range in E as [H1 H2]; [|done].
  destruct (find_from (tag_close p) body _) as [e|] eqn:E; [|done].
  destruct (Nat.eqb_spec e (idx + len (tag_open p))) as [|Hne]; [done|].
  assert (idx + len (tag_open p) <= e) as He.
  { unfold find_from in E. destruct (find_sub _ _); [|done]. injection E as <-. lia. }
  pose proof (take_tag_moves body (idx + len (tag_open p)) e (set_current (e + len (tag_close p)) p) Hp) as Hm.
  destruct (take_tag _ _ _ _) as [p'| | |]; try done. destruct Hm as [Hc Ho]. cbn [obind].
  assert (1 <= len (tag_open p)) by (destruct (tag_open p); [done|cbn; lia]). cbn [current set_current] in Hc.
  specialize (IH p' Ho). destruct (parse_loop fuel body p'); try done. exfalso. apply IH; [lia|lia|done].
Qed.

(** [compile] returns on every text. *)
Lemma compile_ends body : compile body <> Fuel.
Proof.
  unfold compile. pose proof (parse_ends (S (len body)) body start_parsing ltac:(done)) as H.
  destruct (parse_loop _ _ _); try done. exfalso. apply H; [cbn; lia|lia|done].
Qed.

(** ** Templates of text and tags *)

Record tag := { raw : bool; before : nat; name : string; after : nat }.

(** What stands between the delimiters *)
Definition tag_inner (tg : tag) : string :=
  (if raw tg then "&" else EmptyString) +:+ spaces (before tg) +:+ name tg +:+ spaces (after tg).

(** A template: texts, each followed by a tag, and a last text *)
Fixpoint source (l : list (string * tag)) (last : string) : string :=
  match l with
  | [] => last
  | (lit, tg) :: l => lit +:+ "{{" +:+ tag_inner tg +:+ "}}" +:+ source l last
  end.

Definition special (c : ascii) : bool := bool_decide (c ∈ list_ascii_of_string "#/^!>{&=").

Definition tag_ok (tg : tag) : Prop :=
  (exists c r, name tg = String c r /\ is_blank c = false /\
     (raw tg = true \/ 0 < before tg \/ special c = false)) /\
  is_blank (char_at (name tg) (len (name tg) - 1)) = false /\
  find_sub "}}" (tag_inner tg +:+ "}}") = Some (len (tag_inner tg)).

Definition text_ok (s : string) : Prop := find_sub "{{" (s +:+ "{{") = Some (len s).

Definition pieces_ok (l : list (string * tag)) (last : string) : Prop :=
  Forall (fun p => text_ok p.1 /\ tag_ok p.2) l /\ find_sub "{{" last = None.

(** The fragments and the actions of such a template from position [c] on *)
Fixpoint fragments_of (c : nat) (l : list (string * tag)) (last : string) : list (nat * nat) :=
  match l with
  | [] => [(c, c + len last)]
  | (lit, tg) :: l =>
      (c, c + len lit) :: fragments_of (c + len lit + 2 + len (tag_inner tg) + 2) l last
  end.

Definition action_of (c : nat) (tg : tag) : Action :=
  let s := c + (if raw tg then 1 else 0) + before tg in
  action (if raw tg then UnescapeTag else Tag) s (s + len (name tg)).

Fixpoint actions_of (c : nat) (l : list (string * tag)) : list Action :=
  match l with
  | [] => [action Ignore 0 0]
  | (lit, tg) :: l =>
      action_of (c + len lit + 2) tg :: actions_of (c + len lit + 2 + len (tag_inner tg) + 2) l
  end.

(** *** Characters and positions *)

Lemma char_at_app a b i : char_at (a +:+ b) (len a + i) = char_at b i.
Proof. induction a as [|c a IH]; cbn; [done|]. apply IH. Qed.

Lemma char_at_app_l a b i : i < len a -> char_at (a +:+ b) i = char_at a i.
Proof. revert i. induction a as [|c a IH]; intros [|i] H; cbn in *; try done; try lia. apply IH. lia. Qed.

Lemma spaces_len n : len (spaces n) = n.
Proof. induction n; cbn; congruence. Qed.

Lemma blanks_spaces n c r : is_blank c = false -> blanks (spaces n +:+ String c r) = n.
Proof. intros H. induction n as [|n IH]; cbn; [by rewrite H|by rewrite IH]. Qed.

Lemma skip_blanks_at a n c r : is_blank c = false ->
  skip_blanks (a +:+ spaces n +:+ String c r) (len a) = len a + n.
Proof. intros H. unfold skip_blanks. by rewrite str_drop_app, blanks_spaces. Qed.

Lemma spaces_more n r : spaces (S n) +:+ r = spaces n +:+ String " " r.
Proof. induction n as [|n IH]; [done|]. cbn [spaces String.append] in *. by rewrite IH. Qed.

Lemma trim_end_at a n r : 0 < len a -> is_blank (char_at a (len a - 1)) = false ->
  trim_end (a +:+ spaces n +:+ r) (len a + n) = len a.
Proof.
  intros Ha Hc. revert r. induction n as [|n IH]; intros r.
  - rewrite Nat.add_0_r. destruct (len a) as [|k] eqn:E; [lia|]. cbn [trim_end].
    rewrite char_at_app_l by lia. replace (S k - 1) with k in Hc by lia. by rewrite Hc.
  - replace (len a + S n) with (S (len a + n)) by lia. cbn [trim_end].
    rewrite char_at_app, spaces_more. pose proof (char_at_app (spaces n) (String " " r) 0) as Hs.
    rewrite spaces_len, Nat.add_0_r in Hs. rewrite Hs. cbn [char_at]. by rewrite IH.
Qed.

Lemma span_at a b c : span (a +:+ b +:+ c) (len a) (len a + len b) = b.
Proof.
  unfold span. destruct (Nat.ltb_spec (len a + len b) (len a)); [lia|].
  replace (len a + len b - len a) with (len b) by lia. by rewrite str_drop_app, str_take_app.
Qed.

Lemma find_from_at pat a b r : find_sub pat (b +:+ pat) = Some (len b) ->
  find_from pat (a +:+ b +:+ pat +:+ r) (len a) = Some (len a + len b).
Proof. intros H. unfold find_from. by rewrite str_drop_app, (find_sub_app _ _ _ H). Qed.

(** The tag at position [len a] is taken for what it is. *)
Lemma take_tag_at a tg r p : tag_ok tg ->
  take_tag (a +:+ tag_inner tg +:+ r) (len a) (len a + len (tag_inner tg)) p =
  Ok (emplace (action_of (len a) tg) p).
Proof.
  intros [(c & n & Hn & Hc & Hs) [Hl _]]. unfold take_tag.
  pose proof (char_at_app a (tag_inner tg +:+ r) 0) as Hf. rewrite Nat.add_0_r in Hf. rewrite Hf. clear Hf.
  set (w := if raw tg then "&" else EmptyString).
  assert (len w = if raw tg then 1 else 0) as Hw by (unfold w; by destruct (raw tg)).
  assert (trimmed (a +:+ tag_inner tg +:+ r) (if raw tg then UnescapeTag else Tag) (len (a +:+ w))
      (len a + len (tag_inner tg)) = action_of (len a) tg) as Ht.
  { unfold trimmed, action_of, tag_inner. fold w. rewrite <- Hw. cbn zeta. f_equal.
    - rewrite !sapp_assoc, <- (sapp_assoc a), Hn. cbn [String.append].
      rewrite skip_blanks_at by done. rewrite slength_app. lia.
    - set (b := (a +:+ w) +:+ spaces (before tg) +:+ name tg).
      replace (a +:+ (w +:+ spaces (before tg) +:+ name tg +:+ spaces (after tg)) +:+ r)
        with (b +:+ spaces (after tg) +:+ r) by (unfold b; by rewrite !sapp_assoc).
      replace (len a + len (w +:+ spaces (before tg) +:+ name tg +:+ spaces (after tg)))
        with (len b + after tg) by (unfold b; rewrite !slength_app, !spaces_len; lia).
      assert (0 < len (name tg)) by (rewrite Hn; cbn; lia).
      rewrite trim_end_at; unfold b; rewrite !slength_app, ?spaces_len; [lia|lia|].
      rewrite sapp_assoc, <- !sapp_assoc.
      replace (len a + len w + (before tg + len (name tg)) - 1)
        with (len ((a +:+ w) +:+ spaces (before tg)) + (len (name tg) - 1))
        by (rewrite !slength_app, spaces_len; lia).
      by rewrite char_at_app. }
  revert Ht. unfold tag_inner, w. destruct (raw tg); cbn [String.append char_at Ascii.eqb Bool.eqb].
  - rewrite slength_app. cbn [len]. rewrite Nat.add_1_r. by intros ->.
  - rewrite sapp_nil_r. intros ->.
    assert (special (char_at ((spaces (before tg) +:+ name tg +:+ spaces (after tg)) +:+ r) 0) = false) as Hx.
    { rewrite Hn. destruct (before tg) as [|b]; [|done]. destruct Hs as [|[|Hs]]; [done|lia|done]. }
    generalize dependent (char_at ((spaces (before tg) +:+ name tg +:+ spaces (after tg)) +:+ r) 0).
    intros x Hx. unfold special in Hx. apply bool_decide_eq_false in Hx. cbn in Hx.
    repeat match goal with |- context [Ascii.eqb x ?y] =>
      destruct (Ascii.eqb_spec x y) as [->|_]; [exfalso; apply Hx; rewrite !elem_of_cons; tauto|] end.
    done.
Qed.

(** *** Parsing such a template *)

Lemma parse_loop_more n m body p : tag_open p <> EmptyString ->
  len body < current p + n -> len body < current p + m -> 0 < n -> 0 < m ->
  parse_loop n body p = parse_loop m body p.
Proof.
  revert m p. induction n as [|n IH]; intros [|m] p Hp Hn Hm H0 H1; try lia. cbn [parse_loop].
  destruct (find_from (tag_open p) body (current p)) as [idx|] eqn:E; [|done].
  apply find_from_range in E as [Ha Hb]; [|done].
  destruct (find_from (tag_close p) body _) as [e|] eqn:E; [|done]. destruct (Nat.eqb_spec e (idx + len (tag_open p))); [done|].
  unfold find_from in E. destruct (find_sub _ _) as [k|]; [|done]. injection E as <-.
  match goal with |- context [take_tag body ?i ?e ?p0] => pose proof (take_tag_moves body i e p0 Hp) as Hmv end.
  destruct (take_tag _ _ _ _) as [p'| | |]; try done. destruct Hmv as [Hc Ho]. cbn [obind].
  assert (1 <= len (tag_open p)) by (destruct (tag_open p); [done|cbn; lia]). cbn [current set_current] in Hc.
  rewrite (IH m) by (try done; lia). done.
Qed.

Lemma parse_pieces l last a acts fuel : pieces_ok l last -> len (a +:+ source l last) < len a + fuel -> 0 < fuel ->
  parse_loop fuel (a +:+ source l last)
    {| tag_open := "{{"; tag_close := "}}"; blockPositions := []; current := len a; p_actions := acts |} =
  Ok (fragments_of (len a) l last, acts ++ actions_of (len a) l).
Proof.
  intros [Hl Hlast]. revert a acts fuel. induction l as [|[lit tg] l IH]; intros a acts fuel Hf H0;
    (destruct fuel as [|fuel]; [lia|]); cbn [source fragments_of actions_of parse_loop tag_open tag_close current].
  - unfold find_from. rewrite str_drop_app, Hlast. cbn. by rewrite slength_app.
  - apply Forall_cons in Hl as [[Ht Htg] Hl]. specialize (IH Hl). cbn [fst snd] in *.
    rewrite (find_from_at "{{" a lit) by done. cbn [len].
    set (rest := "}}" +:+ source l last). set (a' := a +:+ lit +:+ "{{").
    assert (a +:+ lit +:+ "{{" +:+ tag_inner tg +:+ rest = a' +:+ tag_inner tg +:+ rest) as E
      by (unfold a'; by rewrite !sapp_assoc).
    assert (len a' = len a + len lit + 2) as Ea by (unfold a'; rewrite !slength_app; cbn [len]; lia).
    cbn [source] in Hf. fold rest in Hf. rewrite E in *. rewrite <- Ea. unfold rest at 1.
    destruct Htg as [Hx [Hy Hz]].
    rewrite (find_from_at "}}" a') by done.
    destruct (Nat.eqb_spec (len a' + len (tag_inner tg)) (len a')) as [Hb|_].
    { exfalso. destruct Hx as (c & n & Hn & _). unfold tag_inner in Hb. rewrite Hn in Hb.
      rewrite !slength_app in Hb. cbn in Hb. lia. }
    rewrite take_tag_at by by split_and!. cbn [obind].
    set (b := (a' +:+ tag_inner tg) +:+ "}}").
    assert (a' +:+ tag_inner tg +:+ rest = b +:+ source l last) as Eb by (unfold b, rest; by rewrite !sapp_assoc).
    assert (len b = len a' + len (tag_inner tg) + 2) as El by (unfold b; rewrite !slength_app; cbn [len]; lia).
    rewrite Eb in *. unfold emplace, set_current. cbn [current tag_open tag_close blockPositions p_actions].
    change (len "}}") with 2. rewrite <- El. rewrite !slength_app in Hf.
    rewrite IH; [cbn [obind fst snd]|rewrite slength_app; lia|lia].
    by rewrite <- app_assoc.
Qed.

Lemma remove_lines_id body last n r : Forall (fun a => t a = Tag \/ t a = UnescapeTag) (take n r.2) ->
  remove_lines body last n r = r.
Proof.
  induction n as [|n IH]; intros H; [done|]. cbn [remove_lines].
  assert (remove_line body last n r = r) as ->.
  { destruct r as [fs acts]. cbn [remove_line snd] in *. destruct (acts !! n) as [a|] eqn:E; [|done].
    destruct (fs !! n); [|done]. destruct (fs !! S n); [|done].
    assert (t a = Tag \/ t a = UnescapeTag) as [-> | ->]; [|done..].
    rewrite Forall_lookup in H. apply (H n). by rewrite lookup_take_lt by lia. }
  apply IH. rewrite Forall_lookup in *. intros i x Hi. apply (H i).
  rewrite lookup_take_Some in *. split; [apply Hi|lia].
Qed.

Lemma actions_of_length c l : length (actions_of c l) = S (length l).
Proof. revert c. induction l as [|[lit tg] l IH]; intros c; cbn; [done|]. by rewrite IH. Qed.
Lemma fragments_of_length c l last : length (fragments_of c l last) = S (length l).
Proof. revert c. induction l as [|[lit tg] l IH]; intros c; cbn; [done|]. by rewrite IH. Qed.

Lemma actions_of_tags c l :
  Forall (fun a => t a = Tag \/ t a = UnescapeTag) (take (length l) (actions_of c l)).
Proof.
  revert c. induction l as [|[lit tg] l IH]; intros c; cbn; [constructor|]. constructor; [|apply IH].
  unfold action_of. destruct (raw tg); [by right|by left].
Qed.

Lemma compile_pieces l last : pieces_ok l last ->
  compile (source l last) =
  Ok {| body_ := source l last; fragments_ := fragments_of 0 l last; actions_ := actions_of 0 l |}.
Proof.
  intros H. unfold compile.
  pose proof (parse_pieces l last EmptyString [] (S (len (source l last))) H) as E.
  cbn [String.append len app] in E. unfold start_parsing. rewrite E by lia. cbn [obind snd].
  rewrite remove_lines_id; [done|]. cbn [snd]. rewrite actions_of_length.
  replace (S (length l) - 1) with (length l) by lia. apply actions_of_tags.
Qed.

(** *** Printing it *)

Section print.
Context {plat : Platform} (load_text : string -> outcome string).

(** Each text, then what its tag is in the context, and the last text *)
Fixpoint printed (stack : list wvalue) (l : list (string * tag)) (last : string) : outcome string :=
  match l with
  | [] => Ok last
  | (lit, tg) :: l =>
      let? f := find_context (name tg) stack in
      let? shown := render_tag (negb (raw tg)) f.2 in
      let? rest := printed stack l last in
      Ok (lit +:+ shown +:+ rest)
  end.

Lemma lookup_here {A} (a : list A) x b : (a ++ x :: b) !! length a = Some x.
Proof. by rewrite list_lookup_middle. Qed.

Lemma render_pieces l last a fs acts stack fuel : length fs = length acts -> length l < fuel ->
  render_internal load_text fuel
    {| body_ := a +:+ source l last; fragments_ := fs ++ fragments_of (len a) l last;
       actions_ := acts ++ actions_of (len a) l |}
    (length acts) (length acts + length l) stack 0 =
  let? s := printed stack l last in Ok (s, stack).
Proof.
  revert a fs acts fuel. induction l as [|[lit tg] l IH]; intros a fs acts fuel He Hf;
    (destruct fuel as [|fuel]; [cbn in Hf; lia|]);
    cbn [source fragments_of actions_of render_internal fragments_ actions_ body_ length printed].
  - rewrite Nat.add_0_r, Nat.ltb_irrefl, <- He, lookup_here. unfold render_fragment. cbn [fst snd].
    replace (a +:+ last) with (a +:+ last +:+ EmptyString) by (by rewrite sapp_nil_r). by rewrite span_at.
  - destruct (Nat.ltb_spec (length acts) (length acts + S (length l))); [|lia].
    rewrite <- He, lookup_here, He, lookup_here.
    set (body := a +:+ lit +:+ "{{" +:+ tag_inner tg +:+ "}}" +:+ source l last).
    assert (render_fragment body (len a, len a + len lit) 0 = lit) as ->
      by (unfold render_fragment; apply span_at).
    assert (forall tm, body_ tm = body -> tag_name tm (action_of (len a + len lit + 2) tg) = name tg) as Hn.
    { intros tm Hb. unfold tag_name. rewrite Hb. unfold action_of, action. cbn [start end_].
      set (w := if raw tg then "&" else EmptyString).
      set (b := (((a +:+ lit) +:+ "{{") +:+ w) +:+ spaces (before tg)).
      replace (len a + len lit + 2 + (if raw tg then 1 else 0) + before tg) with (len b).
      2: { unfold b, w. rewrite !slength_app, spaces_len. cbn [len]. destruct (raw tg); cbn [len]; lia. }
      replace body with (b +:+ name tg +:+ spaces (after tg) +:+ "}}" +:+ source l last); [apply span_at|].
      unfold b, body, tag_inner. fold w. by rewrite !sapp_assoc. }
    rewrite !Hn by done. set (inner := tag_inner tg) in *.
    set (a' := (((a +:+ lit) +:+ "{{") +:+ inner) +:+ "}}").
    assert (len a + len lit + 2 + len inner + 2 = len a') as Ea
      by (unfold a'; rewrite !slength_app; cbn [len]; lia).
    assert (body = a' +:+ source l last) as Eb by (unfold body, a'; by rewrite !sapp_assoc).
    assert (t (action_of (len a + len lit + 2) tg) = if raw tg then UnescapeTag else Tag) as Et
      by (unfold action_of; by destruct (raw tg)).
    specialize (IH a' (fs ++ [(len a, len a + len lit)]) (acts ++ [action_of (len a + len lit + 2) tg]) fuel).
    rewrite !length_app, He, <- !app_assoc in IH. cbn [app length] in IH.
    rewrite Ea, Eb. rewrite Nat.add_1_r in IH.
    rewrite (Nat.add_succ_r (length acts)), <- Nat.add_succ_l.
    rewrite Et. destruct (raw tg); (destruct (find_context (name tg) stack) as [f| | |]; [|done..]);
      cbn [obind negb]; (destruct (render_tag _ f.2) as [s| | |]; [|done..]); cbn [obind];
      rewrite IH by (cbn in Hf; lia); by destruct (printed stack l last).
Qed.
End print.

(** ** What a page of text and tags becomes *)

Lemma template_source `{plat : Platform} (load_text : string -> outcome string) (fuel : nat)
    (l : list (string * tag)) (last : string) (ctx : wvalue) :
  pieces_ok l last -> length l < fuel ->
  (let? tm := compile (source l last) in render load_text fuel tm ctx) =
  printed [ctx] l last.
Proof.
  intros Hl Hf. rewrite compile_pieces by done. cbn [obind]. unfold render. cbn [fragments_].
  rewrite fragments_of_length. replace (S (length l) - 1) with (length l) by lia.
  pose proof (render_pieces load_text l last EmptyString [] [] [ctx] fuel eq_refl Hf) as H.
  cbn [String.append app len length Nat.add] in H. rewrite H. by destruct (printed [ctx] l last).
Qed.

(** Parsing and printing a template of texts and tags: the texts come out as
    they are, each tag as the member it names, in the innermost context that
    has it, escaped unless the tag is raw; a member that is neither a text nor
    a number ends the page with an exception. *)
Theorem template_printed `{plat : Platform} (load_text : string -> outcome string) (fuel : nat)
    (l : list (string * tag)) (last : string) (ctx : wvalue) :
  pieces_ok l last -> length l < fuel ->
  (let? tm := compile (source l last) in render load_text fuel tm ctx) =
  printed [ctx] l last.
Proof. apply template_source. Qed.

(** A text without an opening delimiter is printed as it is. *)
Lemma plain_printed `{plat : Platform} load_text fuel text ctx : find_sub "{{" text = None -> 0 < fuel ->
  (let? tm := compile text in render load_text fuel tm ctx) = Ok text.
Proof. intros H Hf. apply (template_source load_text fuel [] text ctx); [by split|done]. Qed.

(** ** Concrete templates *)

Section template_witnesses.
#[local] Existing Instance int_platform.

Definition no_files (name : string) : outcome string :=
  Ok (if String.eqb name "part" then "[{{x}}]" +:+ String LF EmptyString else EmptyString).
Definition shown (text : string) (ctx : wvalue) : outcome string :=
  let? tm := compile text in render no_files 20 tm ctx.

Theorem template_printed_witness :
  shown "<b>{{ servername }}</b> {{&servername}}!" (WObj [("servername", WStr "a&b")]) =
  Ok "<b>a&amp;b</b> a&b!".
Proof.
  unfold shown.
  rewrite (template_printed no_files 20
    [("<b>", {| raw := false; before := 1; name := "servername"; after := 1 |});
     ("</b> ", {| raw := true; before := 0; name := "servername"; after := 0 |})] "!"
    (WObj [("servername", WStr "a&b")])).
  - reflexivity.
  - split; [|reflexivity]. repeat constructor; cbn; try reflexivity.
    + exists "s"%char, "ervername". split_and!; [reflexivity..|]. right. left. lia.
    + exists "s"%char, "ervername". split_and!; [reflexivity..|]. by left.
  - cbn. lia.
Defined.

Definition line (s : string) : string := s +:+ String LF EmptyString.

(** A block is printed for each element of a list; its lines are taken out. *)
Lemma each_element :
  shown (line "{{#l}}" +:+ line "- {{.}}" +:+ line "{{/l}}" +:+ "end") (WObj [("l", WList [WStr "a"; WStr "b"])])
  = Ok (line "- a" +:+ line "- b" +:+ "end").
Proof. vm_compute. reflexivity. Qed.

(** A partial that stands alone is indented. *)
Lemma partial_indented :
  shown (line "<" +:+ line "  {{>part}}" +:+ ">") (WObj [("x", WStr "1")]) = Ok (line "<" +:+ line "  [1]" +:+ ">").
Proof. vm_compute. reflexivity. Qed.

(** A block of Handlebars, as in the pages of src/examples/templates/spa, is
    refused: the names of its ends differ. *)
Lemma handlebars_refused :
  exists what, shown "{{#each this}}{{id}}{{/each}}" (WObj []) = Throw (TemplateError what).
Proof. eexists. vm_compute. reflexivity. Qed.

(** A block that is not closed: where its name is unknown the renderer goes back
    to the second action, and never ends when that is the block. *)
Definition unclosed : template_t := {|
  body_ := "{{y}}{{#x}}"; fragments_ := [(0, 0); (5, 5); (11, 11)];
  actions_ := [action Tag 2 3; action OpenBlock 8 9; action Ignore 0 0] |}.
Lemma unclosed_compiled : compile "{{y}}{{#x}}" = Ok unclosed.
Proof. vm_compute. reflexivity. Qed.
Lemma unclosed_repeats fuel : render no_files fuel unclosed (WObj []) = Fuel.
Proof.
  assert (forall n, render_internal no_files n unclosed 1 2 [WObj []] 0 = Fuel) as H.
  { induction n as [|n IH]; [done|]. cbn in *. by rewrite IH. }
  destruct fuel as [|fuel]; [done|]. unfold render. specialize (H fuel). cbn in *. by rewrite H.
Qed.
End template_witnesses.
