(* ===== verification/Pages.v ===== *)
(** * Pages

    src/include/httprouting.hpp: the handlers that serve pages, scripts and
    styles ([resourceLoader], [readFile], [defaultPageLoader] and their routes),
    the file transfer, [/opentcpsocket] with [Core::openTCPSocketClient] of
    quarks.cpp, [/test] and [/ai]; and the table of all the routes of
    [BuildHttpRoutes], those of the core and of the uploads included.

    The disk is the one of Upload.v.  What a directory does when it is opened
    like a file depends on the file system and is a parameter. *)

From S2P Require Import Prelude Json World Http Upload Mustache.
Local Open Scope quarks_scope.

(** ** Answers, with the content type their handler sets *)

Record page := { page_code : Z; page_text : string; content_type : option string }.

Definition plain (s : string) : page := {| page_code := 200; page_text := s; content_type := None |}.
Definition typed (s ty : string) : page :=
  {| page_code := 200; page_text := s; content_type := Some ty |}.
Definition not_found : page := {| page_code := 404; page_text := EmptyString; content_type := None |}.

(** ** The templates of crow *)

(** [set_base]: the directory ends with a slash.  An empty one has no last
    character. *)
Definition set_base (path : string) : outcome string :=
  match path with
  | EmptyString => Undef
  | _ =>
      let last := char_at path (String.length path - 1) in
      Ok (if Ascii.eqb last "\" || Ascii.eqb last "/" then path else path +:+ "/")
  end.

Section pages.
Context {plat : Platform}.
(** The size a directory reports when it is opened as a file; the blocks that
    can be allocated; the name of the machine; the turns of the renderer *)
Context (directory : string -> option Z) (can_allocate : Z -> bool)
  (servername : string) (fuel : nat).

(** [default_loader]: [base] ends with a slash.  A directory is opened and then
    cannot be read. *)
Definition default_loader (d : disk) (base filename : string) : outcome string :=
  let path := base +:+ filename in
  match directory path with
  | Some _ => Throw (RuntimeError "basic_filebuf::underflow error reading the file")
  | None => Ok (default EmptyString (assoc path (files d)))
  end.

(** [resourceLoader] without a directory of its own: the new context and the
    template *)
Definition resourceLoader (d : disk) (x : wvalue) (filename : string) : outcome (wvalue * template_t) :=
  let x := w_set "servername" (WStr (c_str servername)) x in
  let? _ := set_base "." in
  let? base := set_base "templates" in
  let? body := default_loader d base filename in
  let? tm := compile body in
  Ok (x, tm).

(** [page.render(x)]: partials are looked for in the same directory. *)
Definition rendered (d : disk) (filename : string) : outcome string :=
  let? r := resourceLoader d WNull filename in
  render (default_loader d "templates/") fuel r.2 r.1.

(** [readFile]: [new char\[size\]] of what [tellg] says.  A directory that cannot
    be sought to its end is not opened; another one gives no bytes to fill the
    block with, which is copied as it is. *)
Definition readFile (d : disk) (name : string) : outcome string :=
  let name := c_str name in
  match directory name with
  | Some size =>
      if (size <=? 0)%Z then Ok EmptyString
      else if can_allocate size then Undef else Throw BadAlloc
  | None => Ok (default EmptyString (assoc name (files d)))
  end.

(** [asset.size() > n && !asset.substr(asset.size() - n).compare(ending)], for
    the ending of [n] bytes *)
Definition ends_in (ending asset : string) : bool :=
  let n := String.length ending in
  (n <? String.length asset)%nat &&
  String.eqb (str_drop (String.length asset - n) asset) ending.

Definition html_type : string := "text/html; charset=UTF-8".

Definition defaultPageLoader (d : disk) (req : request) (defaultPage : string) : outcome page :=
  match url_param req "q" with
  | None => let? result := rendered d defaultPage in Ok (typed result html_type)
  | Some asset =>
      let? result := readFile d asset in
      Ok (typed result
            (if ends_in ".js" asset then "application/javascript"
             else if ends_in ".css" asset then "text/css" else html_type))
  end.

Definition file_page (d : disk) (name : string) : outcome page :=
  let? result := readFile d name in Ok (plain result).

(** The routes with a number in their path *)
Definition numbered_page (d : disk) (ending : string) (resId : Z) : outcome page :=
  let? result := rendered d (to_string (int32 resId) +:+ ending) in Ok (plain result).

(** ** Files, sockets and waiting *)

(** Whether transferred.data can be opened, and how many bytes the disk takes *)
Context (can_transfer : bool) (taken : nat -> nat).

Definition route_core_filetransfer (req : request) : SM disk page := fun d =>
  let not_transferred := plain (q "{`error`:`not transferred`}") in
  if negb can_transfer then (Ok not_transferred, d)
  else
    let n := Nat.min (taken (String.length (req_body req))) (String.length (req_body req)) in
    (Ok (if (0 <? n)%nat then plain (q "{`result`:`transferred`}") else not_transferred),
     {| uploads_exists := uploads_exists d;
        files := assoc_set "transferred.data" (str_take n (req_body req)) (files d) |}).

(** What the peer at port 1234 does: the connection, the greeting and the
    answer; [inr] an error other than the end of the stream *)
Record peer := { accepts : unit + string; takes_hello : bool; answers : string + string }.

(** [Core::openTCPSocketClient]: the answer is logged as a C string, but no zero
    is written behind it. *)
Definition openTCPSocketClient (p : peer) : outcome bool :=
  match accepts p with
  | inr text => Throw (RuntimeError text)
  | inl _ =>
      let ret := takes_hello p in
      match answers p with
      | inr _ => Ok false
      | inl data => if no_nul data then Undef else Ok true
      end
  end.

Definition route_core_opentcpsocket (p : peer) : outcome page :=
  let? ret := openTCPSocketClient p in
  Ok (plain (if ret then q "{`result`:`opened socket`}" else q "{`error`:`socket closed`}")).

(** The seconds the handler sleeps ([sleep] takes an [unsigned int]) and its
    answer *)
Definition route_core_test (req : request) : outcome (Z * page) :=
  let timeout := default "1" (url_param req "timeout") in
  let? seconds := stoi timeout in
  Ok ((seconds mod 4294967296)%Z, plain result_true).

Definition route_ai : page := plain "Feature not available".

(** ** The table of the routes *)

(** A path, or a prefix with a number or a text without slashes behind it *)
Inductive pattern := Fixed (s : string) | AnyInt (prefix : string) | AnyText (prefix : string).
Inductive param := NoParam | IntParam (z : Z) | TextParam (s : string).

Fixpoint all_of (f : ascii -> bool) (s : string) : bool :=
  match s with EmptyString => true | String c s => f c && all_of f s end.

(** [strtoll] over the rest of the path, which it has to use up *)
Definition int_param (s : string) : option Z :=
  let number (sign : Z) (s : string) :=
    match s with
    | EmptyString => None
    | _ =>
        let v := (sign * digits_value 0 s)%Z in
        if all_of is_digit s && (-9223372036854775808 <=? v)%Z && (v <=? 9223372036854775807)%Z
        then Some v else None
    end in
  match s with
  | EmptyString => None
  | String c r => if Ascii.eqb c "-" then number (-1)%Z r
                  else if Ascii.eqb c "+" then number 1%Z r else number 1%Z s
  end.

Definition match_pattern (p : pattern) (url : string) : option param :=
  match p with
  | Fixed s => if String.eqb s url then Some NoParam else None
  | AnyInt prefix =>
      if starts_with prefix url
      then IntParam <$> int_param (str_drop (String.length prefix) url) else None
  | AnyText prefix =>
      let s := str_drop (String.length prefix) url in
      if starts_with prefix url && negb (String.eqb s EmptyString) &&
         all_of (fun c => negb (Ascii.eqb c "/")) s
      then Some (TextParam s) else None
  end.

(** What the uploads need: whether the directory can be made and a file opened,
    the text of an exception, the names drawn, and the header of a request *)
Context (create_directory : bool) (can_open : string -> bool) (what : exn -> string)
  (uniquePrefix : nat -> string) (content_type_of : request -> string) (port_1234 : peer).

Record page_rule := {
  rule_pattern : pattern;
  rule_methods : list verb;
  handler : param -> request -> SM disk page
}.

(** A handler that only reads the disk *)
Definition reading (m : param -> request -> disk -> outcome page) (p : param) (req : request) :
  SM disk page := fun d => (m p req d, d).

Definition on_page (path defaultPage : string) : page_rule := {|
  rule_pattern := Fixed path; rule_methods := [GET];
  handler := reading (fun _ req d => defaultPageLoader d req defaultPage) |}.
Definition on_file (path name : string) : page_rule := {|
  rule_pattern := Fixed path; rule_methods := [GET];
  handler := reading (fun _ _ d => file_page d name) |}.
Definition on_number (prefix ending : string) : page_rule := {|
  rule_pattern := AnyInt prefix; rule_methods := [GET];
  handler := reading (fun p _ d =>
    match p with IntParam z => numbered_page d ending z | _ => Undef end) |}.
Definition on_both_methods (path : string) (h : request -> SM disk page) : page_rule := {|
  rule_pattern := Fixed path; rule_methods := [GET; POST]; handler := fun _ => h |}.

Definition upload_page (unique : bool) (req : request) : SM disk page := fun d =>
  let '(o, d) := fileupload create_directory can_open what uniquePrefix (content_type_of req)
                   (req_body req) unique d in
  (let? r := o in Ok {| page_code := r.1; page_text := r.2; content_type := None |}, d).

Definition uploaded_file (path : string) (d : disk) : page :=
  match route_uploads path d with
  | Some (contents, ty) => typed contents ty
  | None => {| page_code := 404; page_text := "File not found"; content_type := None |}
  end.

Definition page_rules : list page_rule := [
  on_both_methods "/filetransfer" route_core_filetransfer;
  on_both_methods "/upload" (upload_page false);
  on_both_methods "/upload/guid" (upload_page true);
  {| rule_pattern := AnyText "/uploads/"; rule_methods := [GET];
     handler := reading (fun p _ d =>
       match p with TextParam s => Ok (uploaded_file s d) | _ => Undef end) |};
  on_both_methods "/opentcpsocket" (fun _ d => (route_core_opentcpsocket port_1234, d));
  on_both_methods "/test" (fun req d => (let? r := route_core_test req in Ok r.2, d));
  on_page "/" "index.html";
  on_page "/console" "console.html";
  on_page "/home" "home.html";
  on_page "/chat" "chat.html";
  on_file "/feed" "templates/feed.html";
  on_file "/wrenfeed" "wren/feed.html";
  on_file "/readme" "templates/readme.html";
  on_number "/home/" ".html";
  on_number "/js/" ".js";
  on_number "/css/" ".css";
  {| rule_pattern := Fixed "/ai"; rule_methods := [GET]; handler := reading (fun _ _ _ => Ok route_ai) |}
].

(** The first rule whose pattern the path matches *)
Fixpoint find_page (rs : list page_rule) (url : string) : option (page_rule * param) :=
  match rs with
  | [] => None
  | r :: rs =>
      match match_pattern (rule_pattern r) url with
      | Some p => Some (r, p)
      | None => find_page rs url
      end
  end.

Definition serve_page (req : request) : SM disk page := fun d =>
  match find_page page_rules (url req) with
  | Some (r, p) =>
      if bool_decide (method req ∈ rule_methods r) then
        match handler r p req d with
        | (Throw _, d) => (Ok {| page_code := 500; page_text := EmptyString; content_type := None |}, d)
        | other => other
        end
      else (Ok not_found, d)
  | None => (Ok not_found, d)
  end.
End pages.

(** ** What the pages are *)

Section page_facts.
Context {plat : Platform}.
Context (directory : string -> option Z) (can_allocate : Z -> bool) (servername : string) (fuel : nat)
  (can_transfer : bool) (taken : nat -> nat) (create_directory : bool) (can_open : string -> bool)
  (what : exn -> string) (uniquePrefix : nat -> string) (content_type_of : request -> string)
  (port_1234 : peer).

Abbreviation serving := (serve_page directory can_allocate servername fuel can_transfer taken
  create_directory can_open what uniquePrefix content_type_of port_1234).

(** The pages with a template *)
Definition default_page (url : string) : option string :=
  assoc url [("/", "index.html"); ("/console", "console.html"); ("/home", "home.html");
             ("/chat", "chat.html")].

Abbreviation the_rules := (page_rules directory can_allocate servername fuel can_transfer taken
  create_directory can_open what uniquePrefix content_type_of port_1234).

Lemma find_default u name : default_page u = Some name ->
  find_page the_rules u = Some (on_page directory can_allocate servername fuel u name, NoParam).
Proof.
  unfold default_page. cbn [assoc]. intros Hu.
  repeat (case_decide; [injection Hu as <-; subst u; reflexivity|]). done.
Qed.

Lemma serve_default req d name : default_page (url req) = Some name -> method req = GET ->
  serving req d =
  (match defaultPageLoader directory can_allocate servername fuel d req name with
   | Ok p => Ok p
   | Throw _ => Ok {| page_code := 500; page_text := EmptyString; content_type := None |}
   | Undef => Undef
   | Fuel => Fuel
   end, d).
Proof.
  intros Hu Hm. unfold serve_page. rewrite (find_default _ _ Hu), Hm. cbn [rule_methods on_page].
  rewrite bool_decide_eq_true_2 by by left. unfold handler, on_page, reading.
  by destruct (defaultPageLoader _ _ _ _ _ _ _).
Qed.

Lemma ends_in_spec ending asset : ends_in ending asset = true <->
  exists stem, stem <> EmptyString /\ asset = stem +:+ ending.
Proof.
  unfold ends_in. rewrite andb_true_iff, Nat.ltb_lt, String.eqb_eq. split.
  - intros [Hl He]. set (k := String.length asset - String.length ending) in *.
    exists (str_take k asset). split.
    + intros H. apply (f_equal String.length) in H. rewrite str_take_length in H. cbn in H. lia.
    + transitivity (str_take k asset +:+ str_drop k asset); [by rewrite str_take_drop|by rewrite He].
  - intros (stem & Hs & ->). rewrite slength_app. destruct stem as [|c stem]; [done|].
    cbn [String.length]. split; [lia|].
    replace (S (String.length stem) + String.length ending - String.length ending)
      with (String.length (String c stem)) by (cbn; lia).
    by rewrite str_drop_app.
Qed.

(** *** Templates *)

Lemma rendered_pieces d name l last : directory ("templates/" +:+ name) = None ->
  default EmptyString (assoc ("templates/" +:+ name) (files d)) = source l last ->
  pieces_ok l last -> length l < fuel ->
  rendered directory servername fuel d name =
  printed [WObj [("servername", WStr (c_str servername))]] l last.
Proof.
  intros Hdir Hf Hl Hn. unfold rendered, resourceLoader.
  change (set_base ".") with (Ok "./"). change (set_base "templates") with (Ok "templates/").
  cbn [obind]. unfold default_loader at 1. rewrite Hdir, Hf. cbn [obind].
  rewrite <- (template_source (default_loader directory d "templates/") fuel l last) by done.
  by destruct (compile (source l last)).
Qed.

(** A page for an outcome of its handler *)
Definition page_of (ty : option string) (o : outcome string) : outcome page :=
  match o with
  | Ok s => Ok {| page_code := 200; page_text := s; content_type := ty |}
  | Throw _ => Ok {| page_code := 500; page_text := EmptyString; content_type := None |}
  | Undef => Undef
  | Fuel => Fuel
  end.

Lemma find_page_skip r rs u : match_pattern (rule_pattern r) u = None -> find_page (r :: rs) u = find_page rs u.
Proof. intros H. cbn [find_page]. by rewrite H. Qed.

Lemma find_number prefix ending s z :
  (prefix, ending) ∈ [("/home/", ".html"); ("/js/", ".js"); ("/css/", ".css")] -> int_param s = Some z ->
  find_page the_rules (prefix +:+ s) =
  Some (on_number directory servername fuel prefix ending, IntParam z).
Proof.
  intros Hp Hs. assert (match_pattern (AnyInt prefix) (prefix +:+ s) = Some (IntParam z)) as Hm.
  { unfold match_pattern. by rewrite starts_with_app, str_drop_app, Hs. }
  unfold page_rules. rewrite !elem_of_cons in Hp.
  destruct Hp as [[= -> ->]|[[= -> ->]|[[= -> ->]|Hp]]]; [..|by apply elem_of_nil in Hp];
    repeat (rewrite find_page_skip by reflexivity); cbn [find_page rule_pattern on_number]; by rewrite Hm.
Qed.

(** The template a path without a query is served from, and the type it gets *)
Definition template_of (url : string) : option (string * option string) :=
  match default_page url with
  | Some name => Some (name, Some html_type)
  | None =>
      first_some (fun r => match match_pattern (AnyInt r.1) url with
                           | Some (IntParam z) => Some (to_string (int32 z) +:+ r.2, None)
                           | _ => None
                           end) [("/home/", ".html"); ("/js/", ".js"); ("/css/", ".css")]
  end.

Lemma template_number url l name ty :
  first_some (fun r => match match_pattern (AnyInt r.1) url with
                       | Some (IntParam z) => Some (to_string (int32 z) +:+ r.2, @None string)
                       | _ => None
                       end) l = Some (name, ty) ->
  exists prefix ending s z, url = prefix +:+ s /\ int_param s = Some z /\ (prefix, ending) ∈ l /\
    name = to_string (int32 z) +:+ ending /\ ty = None.
Proof.
  induction l as [|[p e] l IH]; [done|]. cbn [first_some fst snd match_pattern].
  assert (forall P : Prop, (P -> exists prefix ending s z, url = prefix +:+ s /\ int_param s = Some z /\
    (prefix, ending) ∈ l /\ name = to_string (int32 z) +:+ ending /\ ty = None) -> P ->
    exists prefix ending s z, url = prefix +:+ s /\ int_param s = Some z /\
    (prefix, ending) ∈ (p, e) :: l /\ name = to_string (int32 z) +:+ ending /\ ty = None) as Hmore.
  { intros P H HP. destruct (H HP) as (p' & e' & s & z & ? & ? & ? & ? & ?). exists p', e', s, z.
    split_and!; try done. by right. }
  destruct (starts_with p url) eqn:Ep; [|by apply Hmore].
  destruct (int_param _) as [z|] eqn:Ez; cbn; [|by apply Hmore].
  intros [= <- <-]. apply starts_with_spec in Ep as [s ->]. rewrite str_drop_app in Ez.
  exists p, e, s, z. split_and!; try done. by left.
Qed.

Lemma serve_template req d name ty : template_of (url req) = Some (name, ty) -> method req = GET ->
  (ty <> None -> url_param req "q" = None) ->
  serving req d = (page_of ty (rendered directory servername fuel d name), d).
Proof.
  unfold template_of. destruct (default_page (url req)) as [n|] eqn:E.
  - intros [= <- <-] Hm Hq. rewrite (serve_default _ _ _ E Hm). unfold defaultPageLoader.
    rewrite Hq by done. by destruct (rendered _ _ _ _ _).
  - intros (p & e & s & z & Hu & Hs & Hp & -> & ->)%template_number Hm _.
    unfold serve_page. rewrite Hu, (find_number _ _ _ _ Hp Hs), Hm. cbn [rule_methods on_number].
    rewrite bool_decide_eq_true_2 by by left. unfold handler, on_number, reading, numbered_page.
    by destruct (rendered _ _ _ _ _).
Qed.
End page_facts.

(** ** The whole site *)

Section site.
Context {plat : Platform} {R : Store.RocksDB} {A : Geo.Arithmetic}.
(** What the routes of the core need, and what the pages need *)
Context (usable : Z -> Z) (fuel : nat) (uuid : string)
  (std_sort : (rvalue -> rvalue -> outcome bool) -> list rvalue -> outcome (list rvalue))
  (create : option Store.DB -> string -> bool)
  (getKeysMulti : world -> string -> Z -> Z -> SM (list wvalue) bool).
Context (directory : string -> option Z) (can_allocate : Z -> bool) (servername : string) (turns : nat)
  (can_transfer : bool) (taken : nat -> nat) (create_directory : bool) (can_open : string -> bool)
  (what : exn -> string) (uniquePrefix : nat -> string) (content_type_of : request -> string)
  (port_1234 : peer).

Abbreviation core_rules := (rules usable fuel uuid std_sort create getKeysMulti).
Abbreviation core_serve := (serve usable fuel uuid std_sort create getKeysMulti).
Abbreviation other_rules := (page_rules directory can_allocate servername turns can_transfer taken
  create_directory can_open what uniquePrefix content_type_of port_1234).
Abbreviation other_serve := (serve_page directory can_allocate servername turns can_transfer taken
  create_directory can_open what uniquePrefix content_type_of port_1234).

(** One table for [BuildHttpRoutes]: a path of the core, or another route *)
Definition serve_site (req : request) : SM (world * disk) page := fun '(w, d) =>
  match find_rule usable fuel uuid std_sort create getKeysMulti req with
  | Some _ =>
      let '(o, w) := core_serve req w in
      (let? r := o in Ok {| page_code := code r; page_text := text r; content_type := None |}, (w, d))
  | None => let '(o, d) := other_serve req d in (o, (w, d))
  end.

(** No path of the core is taken by another route. *)
Lemma core_paths_free : forallb (fun r => match find_page other_rules (path r) with
                                          | None => true
                                          | Some _ => false
                                          end) core_rules = true.
Proof. vm_compute. reflexivity. Qed.

Lemma core_path_free req r : find_rule usable fuel uuid std_sort create getKeysMulti req = Some r ->
  find_page other_rules (url req) = None.
Proof.
  unfold find_rule. intros [Hr E%String.eqb_eq]%List.find_some.
  pose proof core_paths_free as H. rewrite forallb_forall in H. specialize (H r Hr). rewrite E in H.
  by destruct (find_page _ _).
Qed.

(** A page: a path with a template gives the file of that name under
    templates, or an empty text when there is none, with the name of the machine
    and nothing else put into its tags; a tag that cannot be printed gives 500. *)
Theorem page_printed (req : request) (d : disk) (name : string) (ty : option string)
    (l : list (string * tag)) (last : string) :
  template_of (url req) = Some (name, ty) -> method req = GET ->
  (ty <> None -> url_param req "q" = None) -> directory ("templates/" +:+ name) = None ->
  default EmptyString (assoc ("templates/" +:+ name) (files d)) = source l last ->
  pieces_ok l last -> length l < turns ->
  other_serve req d =
  (page_of ty (printed [WObj [("servername", WStr (c_str servername))]] l last), d).
Proof.
  intros Ht Hm Hq Hd Hf Hl Hn. rewrite (serve_template _ _ _ _ _ _ _ _ _ _ _ _ _ _ _ _ Ht Hm Hq).
  by rewrite (rendered_pieces _ _ _ _ _ l last).
Qed.

(** An asset: the parameter q of a page names any file the process can read,
    which is answered as it is; its ending alone decides the type.  A file that
    does not exist gives an empty answer with the code 200. *)
Theorem asset_served (req : request) (d : disk) (page asset : string) :
  default_page (url req) = Some page -> method req = GET -> url_param req "q" = Some asset ->
  directory (c_str asset) = None ->
  exists ty,
    other_serve req d =
    (Ok {| page_code := 200; page_text := default EmptyString (assoc (c_str asset) (files d));
           content_type := Some ty |}, d) /\
    ((ty = "application/javascript" /\ exists stem, stem <> EmptyString /\ asset = stem +:+ ".js") \/
     (ty = "text/css" /\ exists stem, stem <> EmptyString /\ asset = stem +:+ ".css") \/
     (ty = html_type /\ forall stem, stem <> EmptyString -> asset <> stem +:+ ".js" /\ asset <> stem +:+ ".css")).
Proof.
  intros Hp Hm Hq Hd. rewrite (serve_default _ _ _ _ _ _ _ _ _ _ _ _ _ _ _ Hp Hm).
  unfold defaultPageLoader, readFile. rewrite Hq, Hd. cbn [obind].
  eexists. split; [reflexivity|]. pose proof (ends_in_spec ".js" asset) as Hj.
  pose proof (ends_in_spec ".css" asset) as Hc.
  destruct (ends_in ".js" asset); [left; split; [done|by apply Hj]|right].
  destruct (ends_in ".css" asset); [left; split; [done|by apply Hc]|right; split; [done|]].
  intros stem Hs. split; intros E; [assert (false = true) by (apply Hj; by exists stem)
    |assert (false = true) by (apply Hc; by exists stem)]; done.
Qed.

(** The routes of the core and the others keep apart: a request for a path
    of the core is answered by its handler, leaves the disk as it was and could
    not have reached another handler; any other request leaves the store, the
    cache and the messages as they were. *)
Theorem site_apart (req : request) (w : world) (d : disk) :
  let '(o, (w', d')) := serve_site req (w, d) in
  if bool_decide (url req ∈ path <$> core_rules)
  then d' = d /\ w' = (core_serve req w).2 /\ find_page other_rules (url req) = None
  else w' = w /\ (o, d') = other_serve req d.
Proof.
  unfold serve_site. destruct (find_rule _ _ _ _ _ _ req) as [r|] eqn:E.
  - pose proof (core_path_free _ _ E) as Hn. unfold find_rule in E.
    apply List.find_some in E as [Hr E%String.eqb_eq].
    rewrite bool_decide_eq_true_2 by (rewrite <- E; by apply list_elem_of_fmap_2, list_elem_of_In).
    by destruct (core_serve req w).
  - rewrite bool_decide_eq_false_2; [by destruct (other_serve req d)|].
    intros (r & Hu & Hr)%list_elem_of_fmap. unfold find_rule in E.
    apply list_elem_of_In in Hr. pose proof (List.find_none _ _ E _ Hr) as Hf. cbn in Hf.
    by rewrite Hu, String.eqb_refl in Hf.
Qed.
End site.

(** ** Concrete requests *)

Section page_witnesses.
#[local] Existing Instance int_platform.

Definition some_disk : disk := {|
  uploads_exists := true;
  files := [("templates/index.html", "<b>{{servername}}</b>"); ("templates/7.css", "p{}");
            ("static/a.js", "f()")] |}.
Definition no_directory (name : string) : option Z := None.
Definition silent_peer : peer := {| accepts := inr "connection refused"; takes_hello := false; answers := inr "" |}.
Definition get_page (path : string) (params : list (string * string)) : request := {|
  method := GET; url := path; url_params := params; req_body := EmptyString |}.

Definition demo_serve (req : request) : outcome page :=
  (serve_page no_directory (fun _ => true) "node&1" 10 true id true (fun _ => true) (fun _ => EmptyString)
    (fun _ => EmptyString) (fun _ => EmptyString) silent_peer req some_disk).1.

Theorem page_printed_witness :
  demo_serve (get_page "/" []) = Ok (typed "<b>node&amp;1</b>" html_type).
Proof.
  unfold demo_serve. rewrite (page_printed no_directory (fun _ => true) "node&1" 10 true id true (fun _ => true)
    (fun _ => EmptyString) (fun _ => EmptyString) (fun _ => EmptyString) silent_peer (get_page "/" []) some_disk
    "index.html" (Some html_type) [("<b>", {| raw := false; before := 0; name := "servername"; after := 0 |})] "</b>").
  - vm_compute. reflexivity.
  - reflexivity.
  - reflexivity.
  - reflexivity.
  - reflexivity.
  - reflexivity.
  - split; [|reflexivity]. repeat constructor; cbn; try reflexivity.
    exists "s"%char, "ervername". split_and!; [reflexivity..|]. by right; right.
  - cbn. lia.
Defined.

Theorem asset_served_witness :
  exists ty, demo_serve (get_page "/home" [("q", "static/a.js")]) = Ok (typed "f()" ty).
Proof.
  destruct (asset_served no_directory (fun _ => true) "node&1" 10 true id true (fun _ => true)
    (fun _ => EmptyString) (fun _ => EmptyString) (fun _ => EmptyString) silent_peer
    (get_page "/home" [("q", "static/a.js")]) some_disk "home.html" "static/a.js") as (ty & H & _);
    [reflexivity..|].
  exists ty. unfold demo_serve. rewrite H. reflexivity.
Defined.

(** Numbers, a method that is not allowed, a missing file, waiting *)
Lemma numbered : demo_serve (get_page "/css/+4294967303" []) = Ok (plain "p{}").
Proof. vm_compute. reflexivity. Qed.
Lemma no_number : demo_serve (get_page "/css/7x" []) = Ok not_found.
Proof. vm_compute. reflexivity. Qed.
Lemma missing_asset : demo_serve (get_page "/" [("q", "nothing")]) = Ok (typed "" html_type).
Proof. vm_compute. reflexivity. Qed.

(** A negative timeout is a wait of more than a century, and any word is an
    exception. *)
Lemma long_wait : route_core_test (get_page "/test" [("timeout", "-1")]) = Ok (4294967295%Z, plain result_true).
Proof. vm_compute. reflexivity. Qed.
Lemma wait_error : demo_serve (get_page "/test" [("timeout", "soon")]) =
  Ok {| page_code := 500; page_text := EmptyString; content_type := None |}.
Proof. vm_compute. reflexivity. Qed.

(** An empty body is not reported as transferred, but the file has lost what it
    held. *)
Lemma empty_transfer d : exists p, route_core_filetransfer true id (get_page "/filetransfer" []) d =
  (Ok p, {| uploads_exists := uploads_exists d; files := assoc_set "transferred.data" EmptyString (files d) |}) /\
  page_text p = q "{`error`:`not transferred`}".
Proof. by eexists. Qed.
End page_witnesses.
