(* ===== verification/HttpClient.v ===== *)
(** * The HTTP client of the logger

    [http::Request], its sockets and the reading of a response
    (src/include/HTTPRequest.hpp), which [httpPost] and [httpGet] of
    src/src/quarks.cpp call to forward a change to the logger.  The calls of
    the operating system are a script of results; a script that ends leaves
    the call waiting. *)

From S2P Require Import Prelude SortedMap Wildcmp Json Store World CoreWrite Upload.
Local Open Scope quarks_scope.

(** ** The address *)

Inductive InternetProtocol := V4 | V6.

Record Request := {
  internetProtocol : InternetProtocol;
  scheme : string;
  domain : string;
  port : string;
  path : string
}.

(** The constructor of [Request]: the scheme, the fragment, the domain and the
    port cut off in this order. *)
Definition make_Request (url : string) (protocol : InternetProtocol) : Request :=
  let '(scheme, path) := match find_sub "://" url with
                         | Some i => (str_take i url, str_drop (i + 3) url)
                         | None => ("http", url)
                         end in
  let path := substr0 path (find_char "#" path) in
  let '(domain, path) := match find_char "/" path with
                         | None => (path, "/")
                         | Some i => (str_take i path, str_drop i path)
                         end in
  let '(port, domain) := match find_char ":" domain with
                         | Some i => (str_drop (i + 1) domain, str_take i domain)
                         | None => ("80", domain)
                         end in
  {| internetProtocol := protocol; scheme := scheme; domain := domain; port := port; path := path |}.

(** ** Text *)

(** The entries of [hexChars] for the two halves of a byte, behind a percent sign *)
Definition hex_char (n : Z) : ascii := if (n <? 10)%Z then of_byte (48 + n) else of_byte (55 + n).
Definition percent (c : ascii) : string :=
  String "%" (String (hex_char (Z.shiftr (Z.land (byte c) 240) 4))
               (String (hex_char (Z.land (byte c) 15)) EmptyString)).

Definition unreserved (cp : Z) : bool :=
  ((48 <=? cp)%Z && (cp <=? 57)%Z) || ((65 <=? cp)%Z && (cp <=? 90)%Z)
  || ((97 <=? cp)%Z && (cp <=? 122)%Z) || (cp =? 45)%Z || (cp =? 46)%Z || (cp =? 95)%Z.

(** The length of the character a byte starts; [None] for a byte that starts none *)
Definition lead_length (cp : Z) : option nat :=
  if (cp <=? 127)%Z then Some 1
  else if (Z.shiftr cp 5 =? 6)%Z then Some 2
  else if (Z.shiftr cp 4 =? 14)%Z then Some 3
  else if (Z.shiftr cp 3 =? 30)%Z then Some 4
  else None.

(** The loop of [urlEncode]; [pending] bytes of the current character are left. *)
Fixpoint encode_loop (pending : nat) (str : string) : string :=
  match str with
  | EmptyString => EmptyString
  | String c rest =>
      match pending with
      | S pending => percent c +:+ encode_loop pending rest
      | O =>
          if unreserved (byte c) then String c (encode_loop 0 rest)
          else match lead_length (byte c) with
               | Some n => percent c +:+ encode_loop (n - 1) rest
               | None => encode_loop 0 rest
               end
      end
  end.
Definition urlEncode (str : string) : string := encode_loop 0 str.

(** [send] of parameters: the body *)
Fixpoint parameters_body (first : bool) (parameters : list (string * string)) : string :=
  match parameters with
  | [] => EmptyString
  | (k, v) :: l => (if first then EmptyString else "&") +:+ urlEncode k +:+ "=" +:+ urlEncode v
                   +:+ parameters_body false l
  end.

Fixpoint header_lines (headers : list string) : string :=
  match headers with
  | [] => EmptyString
  | h :: l => h +:+ CRLF +:+ header_lines l
  end.

(** [headerData] and the body *)
Definition request_data (r : Request) (method body : string) (headers : list string) : string :=
  (method +:+ " " +:+ path r +:+ " HTTP/1.1" +:+ CRLF +:+ header_lines headers
   +:+ "Host: " +:+ domain r +:+ CRLF
   +:+ "Content-Length: " +:+ to_string (Z.of_nat (String.length body)) +:+ CRLF +:+ CRLF)
  +:+ body.

(** [std::stoul]: blanks, an optional sign (a minus negates the value modulo
    [2^64]), [0x] for the base sixteen, digits *)
Definition digit_value (c : ascii) : option Z := hex_value c.
Definition is_base_digit (base : Z) (c : ascii) : bool :=
  match digit_value c with Some v => (v <? base)%Z | None => false end.
Fixpoint base_value (base acc : Z) (s : string) : Z :=
  match s with
  | String c s =>
      match digit_value c with
      | Some v => if (v <? base)%Z then base_value base (acc * base + v) s else acc
      | None => acc
      end
  | EmptyString => acc
  end.
Definition ULONG_MAX : Z := 18446744073709551615.
Definition skip_0x (base : Z) (s : string) : string :=
  match s with
  | String "0" (String x (String d _ as t)) =>
      if (base =? 16)%Z && (Ascii.eqb x "x" || Ascii.eqb x "X") && is_base_digit base d
      then t else s
  | _ => s
  end.
Definition stoul (s : string) (base : Z) : outcome Z :=
  let s := skip_space (c_str s) in
  let '(neg, s) := match s with
                   | String "-" s' => (true, s')
                   | String "+" s' => (false, s')
                   | _ => (false, s)
                   end in
  let s := skip_0x base s in
  if is_base_digit base (peek s) then
    let v := base_value base 0 s in
    if (ULONG_MAX <? v)%Z then Throw OutOfRange
    else Ok (if neg : bool then ((- v) mod (ULONG_MAX + 1))%Z else v)
  else Throw InvalidArgument.

(** [std::isspace] of a [char]: a negative argument other than [EOF] is
    outside its domain. *)
Definition isspace (c : ascii) : outcome bool :=
  if (schar c <? -1)%Z then Undef else Ok (is_space c).

Fixpoint ltrim (s : string) : outcome string :=
  match s with
  | EmptyString => Ok EmptyString
  | String c t => let? b := isspace c in if b : bool then ltrim t else Ok s
  end.
Definition string_rev (s : string) : string :=
  string_of_list_ascii (reverse (list_ascii_of_string s)).
Definition rtrim (s : string) : outcome string :=
  let? t := ltrim (string_rev s) in Ok (string_rev t).

(** ** The response *)

Record Response := { status : Z; headers : list string; body : string }.

(** What the lines of the header section set: the response so far, the flags,
    and the room reserved for the body *)
Record head := {
  h_status : Z;
  h_headers : list string;
  firstLine : bool;
  contentLengthReceived : bool;
  contentLength : Z;
  chunkedResponse : bool;
  reserved : Z
}.

(** The body of the response and the state of its chunks *)
Record chunks := {
  c_body : string;
  responseData : string;
  expectedChunkSize : Z;
  removeCrlfAfterChunk : bool
}.

Record reader := { r_head : head; parsedHeaders : bool; r_chunks : chunks }.

Definition start_head : head := {|
  h_status := 0; h_headers := []; firstLine := true; contentLengthReceived := false;
  contentLength := 0; chunkedResponse := false; reserved := 0 |}.
Definition start_chunks : chunks := {|
  c_body := EmptyString; responseData := EmptyString; expectedChunkSize := 0;
  removeCrlfAfterChunk := false |}.
Definition start_reader : reader := {|
  r_head := start_head; parsedHeaders := false; r_chunks := start_chunks |}.

Definition response_of (p : reader) : Response := {|
  status := h_status (r_head p); headers := h_headers (r_head p); body := c_body (r_chunks p) |}.

(** The words of the first line *)
Fixpoint words (word : string) (line : string) : list string :=
  match line with
  | EmptyString => match word with EmptyString => [] | _ => [word] end
  | String c rest =>
      if Ascii.eqb c " " then
        match word with EmptyString => words EmptyString rest | _ => word :: words EmptyString rest end
      else words (word +:+ String c EmptyString) rest
  end.

Definition status_line (line : string) (h : head) : outcome head :=
  let? code := match words EmptyString line with
               | _ :: code :: _ => stoi code
               | _ => Ok (h_status h)
               end in
  Ok {| h_status := code; h_headers := h_headers h; firstLine := false;
        contentLengthReceived := contentLengthReceived h; contentLength := contentLength h;
        chunkedResponse := chunkedResponse h; reserved := reserved h |}.

Section client.
(** Whether the allocator gives room for so many bytes *)
Context (can_reserve : Z -> bool).

(** [response.body.reserve(n)] *)
Definition reserve (n capacity : Z) : outcome Z :=
  if (9223372036854775807 <? n)%Z then Throw (LogicError "vector::reserve")
  else if (n <=? capacity)%Z then Ok capacity
  else if can_reserve n then Ok n else Throw BadAlloc.

Definition header_line (line : string) (h : head) : outcome head :=
  let set clr cl chunked cap := {|
    h_status := h_status h; h_headers := h_headers h ++ [line]; firstLine := firstLine h;
    contentLengthReceived := clr; contentLength := cl; chunkedResponse := chunked;
    reserved := cap |} in
  let same := set (contentLengthReceived h) (contentLength h) (chunkedResponse h) (reserved h) in
  match find_char ":" line with
  | None => Ok same
  | Some pos =>
      let headerName := str_take pos line in
      let? headerValue := ltrim (str_drop (pos + 1) line) in
      let? headerValue := rtrim headerValue in
      if String.eqb headerName "Content-Length" then
        let? n := stoul headerValue 10 in
        let? cap := reserve n (reserved h) in
        Ok (set true n (chunkedResponse h) cap)
      else if String.eqb headerName "Transfer-Encoding" then
        if String.eqb headerValue "chunked" then
          Ok (set (contentLengthReceived h) (contentLength h) true (reserved h))
        else Throw (RuntimeError ("Unsupported transfer encoding: " +:+ headerValue))
      else Ok same
  end.

(** One line of the header section *)
Definition take_line (line : string) (h : head) : outcome head :=
  if firstLine h then status_line line h else header_line line h.

(** The loop over the lines that have arrived: the head, whether the section
    has ended, what is left of [responseData].  A turn removes two bytes at
    least. *)
Fixpoint head_loop (fuel : nat) (h : head) (data : string) : outcome (head * bool * string) :=
  match fuel with
  | O => Fuel
  | S fuel =>
      match find_sub CRLF data with
      | None => Ok (h, false, data)
      | Some i =>
          let line := str_take i data in
          let data := str_drop (i + 2) data in
          match line with
          | EmptyString => Ok (h, true, data)
          | _ => let? h := take_line line h in head_loop fuel h data
          end
      end
  end.
Definition read_head (h : head) (data : string) : outcome (head * bool * string) :=
  head_loop (S (String.length data)) h data.

(** How a turn of the loop over the chunks ends: [break] for more bytes,
    [break] with [dataReceived], or on to the next turn *)
Inductive turn := More (c : chunks) | Received (c : chunks) | Again (c : chunks).

Definition with_data (d : string) (e : Z) (rm : bool) (c : chunks) : chunks := {|
  c_body := c_body c; responseData := d; expectedChunkSize := e; removeCrlfAfterChunk := rm |}.

Definition size_line (c : chunks) : outcome turn :=
  match find_sub CRLF (responseData c) with
  | None => Ok (More c)
  | Some i =>
      let? n := stoul (str_take i (responseData c)) 16 in
      let c := with_data (str_drop (i + 2) (responseData c)) n (removeCrlfAfterChunk c) c in
      if (n =? 0)%Z then Ok (Received c) else Ok (Again c)
  end.

Definition chunk_turn (c : chunks) : outcome turn :=
  let data := responseData c in
  if (0 <? expectedChunkSize c)%Z then
    let toWrite := Z.min (expectedChunkSize c) (Z.of_nat (String.length data)) in
    let c' := {| c_body := c_body c +:+ str_take (Z.to_nat toWrite) data;
                 responseData := str_drop (Z.to_nat toWrite) data;
                 expectedChunkSize := expectedChunkSize c - toWrite;
                 removeCrlfAfterChunk :=
                   if (expectedChunkSize c - toWrite =? 0)%Z then true
                   else removeCrlfAfterChunk c |} in
    match responseData c' with EmptyString => Ok (More c') | _ => Ok (Again c') end
  else if removeCrlfAfterChunk c then
    if (2 <=? String.length data)%nat then
      size_line (with_data (str_drop 2 data) (expectedChunkSize c) false c)
    else Ok (More c)
  else size_line c.

(** Every turn that goes on removes a byte at least. *)
Fixpoint chunk_loop (fuel : nat) (c : chunks) : outcome (chunks * bool) :=
  match fuel with
  | O => Fuel
  | S fuel =>
      let? t := chunk_turn c in
      match t with
      | More c => Ok (c, false)
      | Received c => Ok (c, true)
      | Again c => chunk_loop fuel c
      end
  end.
Definition read_chunks (c : chunks) : outcome (chunks * bool) :=
  chunk_loop (S (String.length (responseData c))) c.

(** Without chunks: all that has arrived, and whether it is the whole content *)
Definition read_plain (h : head) (c : chunks) : chunks * bool :=
  let body := c_body c +:+ responseData c in
  ({| c_body := body; responseData := EmptyString; expectedChunkSize := expectedChunkSize c;
      removeCrlfAfterChunk := removeCrlfAfterChunk c |},
   contentLengthReceived h && (contentLength h <=? Z.of_nat (String.length body))%Z).

Definition read_body (h : head) (c : chunks) : outcome (chunks * bool) :=
  if chunkedResponse h then read_chunks c else Ok (read_plain h c).

(** One turn of the loop that reads the response, on the bytes received: the
    state and whether the loop is left. *)
Definition feed (p : reader) (bytes : string) : outcome (reader * bool) :=
  let c := r_chunks p in
  let data := responseData c +:+ bytes in
  let? r := if parsedHeaders p then Ok (r_head p, true, data) else read_head (r_head p) data in
  let '(h, parsed, data) := r in
  let c := with_data data (expectedChunkSize c) (removeCrlfAfterChunk c) c in
  if parsed : bool then
    let? r := read_body h c in
    Ok ({| r_head := h; parsedHeaders := true; r_chunks := r.1 |}, r.2)
  else Ok ({| r_head := h; parsedHeaders := false; r_chunks := c |}, false).

(** ** The socket *)

(** What a call of the operating system gives: [-1] with [EINTR], [-1] with
    another error and its text, or a result *)
Inductive sys (A : Type) :=
  | Interrupted
  | Failure (text : string)
  | Done (a : A).
Arguments Interrupted {A}.
Arguments Failure {A} text.
Arguments Done {A} a.

(** [std::system_error] is a [std::runtime_error]. *)
Definition system_error (what text : string) : exn := RuntimeError (what +:+ ": " +:+ text).

(** What the rest of the machine does with one request: whether the address is
    found, whether there is a socket, and the results of the calls of
    [connect], [send] (the number of bytes taken) and [recv] (the bytes; none
    when the peer has closed the connection), in their order *)
Record network := {
  getaddrinfo : string -> string -> InternetProtocol -> sys unit;
  socket : sys unit;
  connect : list (sys unit);
  sends : list (sys nat);
  recvs : list (sys string)
}.

Definition once (what : string) (r : sys unit) : outcome unit :=
  match r with
  | Done _ => Ok tt
  | Interrupted => Throw (system_error what "Interrupted system call")
  | Failure text => Throw (system_error what text)
  end.

(** [Socket::connect]; no result when the script ends. *)
Fixpoint socket_connect (l : list (sys unit)) : option (outcome unit) :=
  match l with
  | [] => None
  | Interrupted :: l => socket_connect l
  | Failure text :: _ => Some (Throw (system_error "Failed to connect" text))
  | Done _ :: _ => Some (Ok tt)
  end.

(** The loop around [Socket::send]: the bytes the peer is sent and how it
    ends.  The system takes at most what it is offered. *)
Fixpoint send_loop (l : list (sys nat)) (remaining : string) : string * option (outcome unit) :=
  match remaining with
  | EmptyString => (EmptyString, Some (Ok tt))
  | _ =>
      match l with
      | [] => (EmptyString, None)
      | Interrupted :: l => send_loop l remaining
      | Failure text :: _ => (EmptyString, Some (Throw (system_error "Failed to send data" text)))
      | Done size :: l =>
          let '(sent, r) := send_loop l (str_drop size remaining) in
          (str_take size remaining +:+ sent, r)
      end
  end.

(** The loop around [Socket::recv] *)
Fixpoint recv_loop (l : list (sys string)) (p : reader) : option (outcome Response) :=
  match l with
  | [] => None
  | Interrupted :: l => recv_loop l p
  | Failure text :: _ => Some (Throw (system_error "Failed to read data" text))
  | Done EmptyString :: _ => Some (Ok (response_of p))
  | Done bytes :: l =>
      match feed p bytes with
      | Ok (p, true) => Some (Ok (response_of p))
      | Ok (p, false) => recv_loop l p
      | Throw e => Some (Throw e)
      | Undef => Some Undef
      | Fuel => Some Fuel
      end
  end.

(** [Request::send]: the bytes the peer is sent and the response; [None] while
    the call waits. *)
Definition send (r : Request) (method body : string) (headers : list string) (n : network)
    : string * option (outcome Response) :=
  if negb (String.eqb (scheme r) "http")
  then (EmptyString, Some (Throw (LogicError "Only HTTP scheme is supported")))
  else
    match (let? _ := once ("Failed to get address info of " +:+ domain r)
                       (getaddrinfo n (c_str (domain r)) (c_str (port r)) (internetProtocol r)) in
           once "Failed to create socket" (socket n)) with
    | Ok _ =>
        match socket_connect (connect n) with
        | Some (Ok _) =>
            let '(sent, done) := send_loop (sends n) (request_data r method body headers) in
            match done with
            | Some (Ok _) => (sent, recv_loop (recvs n) start_reader)
            | Some (Throw e) => (sent, Some (Throw e))
            | Some Undef => (sent, Some Undef)
            | Some Fuel => (sent, Some Fuel)
            | None => (sent, None)
            end
        | Some (Throw e) => (EmptyString, Some (Throw e))
        | Some Undef => (EmptyString, Some Undef)
        | Some Fuel => (EmptyString, Some Fuel)
        | None => (EmptyString, None)
        end
    | Throw e => (EmptyString, Some (Throw e))
    | Undef => (EmptyString, Some Undef)
    | Fuel => (EmptyString, Some Fuel)
    end.

(** [send] of parameters *)
Definition send_parameters (r : Request) (method : string) (parameters : list (string * string))
    (headers : list string) (n : network) : string * option (outcome Response) :=
  send r method (parameters_body true parameters) headers n.

(** ** The two calls of the program

    What they print: the body of the response, or that the request failed;
    nothing while they wait. *)
Inductive printed := Body (text : string) | Failed.

Definition print_reply (r : string * option (outcome Response)) : string * option (outcome printed) :=
  (r.1, match r.2 with
        | Some (Ok resp) => Some (Ok (Body (body resp)))
        | Some (Throw _) => Some (Ok Failed)
        | Some Undef => Some Undef
        | Some Fuel => Some Fuel
        | None => None
        end).

(** [httpPost] and [httpGet] with the network they run on: the whole of what
    the program's events [EvHttpPost] and [EvHttpGet] stand for. *)
Definition post_to (url data : string) (n : network) : string * option (outcome printed) :=
  print_reply (send (make_Request url V4) "POST" data ["Content-Type: application/json"] n).
Definition get_from (url : string) (n : network) : string * option (outcome printed) :=
  print_reply (send (make_Request url V4) "GET" EmptyString [] n).

End client.
Arguments Interrupted {A}.
Arguments Failure {A} text.
Arguments Done {A} a.

(** ** Texts that arrive in pieces *)

Lemma find_sub_len pat d i : find_sub pat d = Some i -> i + len pat <= len d.
Proof.
  revert i. induction d as [|c d IH]; intros i; cbn [find_sub].
  - destruct pat; cbn; [intros [= <-]; done|done].
  - destruct (starts_with pat (String c d)) eqn:E.
    + intros [= <-]. apply starts_with_spec in E as [t ->]. rewrite slength_app. lia.
    + destruct (find_sub pat d) as [j|]; [|done]. intros [= <-]. specialize (IH j eq_refl).
      cbn [len]. lia.
Qed.

Lemma find_sub_more pat d r i : find_sub pat d = Some i -> find_sub pat (d +:+ r) = Some i.
Proof.
  revert i. induction d as [|c d IH]; intros i H.
  - destruct pat; [|done]. cbn in *. injection H as <-. by destruct r.
  - pose proof (find_sub_len _ _ _ H) as Hl. cbn [String.append find_sub] in *.
    rewrite <- (starts_with_long pat (String c d) r) in H by lia. cbn [String.append] in H.
    destruct (starts_with pat (String c (d +:+ r))); [done|].
    destruct (find_sub pat d) as [j|]; [|done]. by rewrite (IH j eq_refl).
Qed.

Section reading.
Context (can_reserve : Z -> bool).
Local Abbreviation read_head := (read_head can_reserve).
Local Abbreviation head_loop := (head_loop can_reserve).
Local Abbreviation feed := (feed can_reserve).

Lemma head_loop_fuel n m h d : len d < n -> len d < m -> head_loop n h d = head_loop m h d.
Proof.
  revert m h d. induction n as [|n IH]; intros m h d Hn Hm; [lia|]. destruct m as [|m]; [lia|].
  cbn [HttpClient.head_loop]. destruct (find_sub CRLF d) as [i|] eqn:Ei; [|done].
  apply find_sub_len in Ei. cbn in Ei.
  destruct (str_take i d); [done|]. destruct (take_line _ _ _) as [h'| | |]; try done.
  cbn [obind]. apply IH; rewrite str_drop_length; lia.
Qed.

(** The loop over the lines, without fuel *)
Lemma read_head_eq h d : read_head h d =
  match find_sub CRLF d with
  | None => Ok (h, false, d)
  | Some i => match str_take i d with
              | EmptyString => Ok (h, true, str_drop (i + 2) d)
              | line => let? h := take_line can_reserve line h in read_head h (str_drop (i + 2) d)
              end
  end.
Proof.
  unfold HttpClient.read_head at 1. cbn [HttpClient.head_loop].
  destruct (find_sub CRLF d) as [i|] eqn:Ei; [|done]. apply find_sub_len in Ei. cbn in Ei.
  destruct (str_take i d); [done|]. destruct (take_line _ _ _) as [h'| | |]; try done.
  cbn [obind]. apply head_loop_fuel; rewrite str_drop_length; lia.
Qed.

(** What more bytes change in a reading of the lines *)
Definition head_more (r : outcome (head * bool * string)) (more : string) :=
  match r with
  | Ok (h, true, d) => Ok (h, true, d +:+ more)
  | Ok (h, false, d) => read_head h (d +:+ more)
  | Throw e => Throw e
  | Undef => Undef
  | Fuel => Fuel
  end.

Lemma read_head_app h d more : read_head h (d +:+ more) = head_more (read_head h d) more.
Proof.
  remember (len d) as n eqn:Hn. revert h d Hn.
  induction (lt_wf n) as [n _ IH]; intros h d ->.
  rewrite (read_head_eq h d). destruct (find_sub CRLF d) as [i|] eqn:Ei; [|done].
  pose proof (find_sub_len _ _ _ Ei) as Hl. cbn in Hl.
  rewrite read_head_eq, (find_sub_more _ _ _ _ Ei), str_take_app_le, str_drop_app_le by lia.
  destruct (str_take i d); [done|]. destruct (take_line _ _ _) as [h'| | |]; try done.
  cbn [obind]. eapply IH; [|done]. rewrite str_drop_length. lia.
Qed.

Lemma obind_not_fuel {A B} (m : outcome A) (k : A -> outcome B) :
  m <> Fuel -> (forall a, k a <> Fuel) -> obind m k <> Fuel.
Proof. destruct m; cbn; auto. Qed.

Lemma stoi_not_fuel s : stoi s <> Fuel.
Proof. destruct (stoi_outcome s) as [(z & -> & _)|[->| ->]]; done. Qed.
Lemma stoul_not_fuel s base : stoul s base <> Fuel.
Proof.
  unfold stoul. destruct (match skip_space (c_str s) with
    | String "-" s' => (true, s') | String "+" s' => (false, s')
    | _ => (false, skip_space (c_str s)) end) as [neg t].
  by destruct (is_base_digit _ _); [destruct (_ <? _)%Z|].
Qed.
Lemma ltrim_not_fuel s : ltrim s <> Fuel.
Proof.
  induction s as [|c s IH]; [done|]. cbn. unfold isspace.
  destruct (schar c <? -1)%Z; [done|]. cbn. by destruct (is_space c).
Qed.
Lemma rtrim_not_fuel s : rtrim s <> Fuel.
Proof. unfold rtrim. apply obind_not_fuel; [apply ltrim_not_fuel|done]. Qed.

Lemma take_line_not_fuel line h : take_line can_reserve line h <> Fuel.
Proof.
  unfold take_line, status_line, header_line, reserve. destruct (firstLine h).
  - apply obind_not_fuel; [|done]. destruct (words _ _) as [|? [|? ?]]; try done. apply stoi_not_fuel.
  - destruct (find_char ":" line) as [pos|]; [|done].
    apply obind_not_fuel; [apply ltrim_not_fuel|intros v].
    apply obind_not_fuel; [apply rtrim_not_fuel|intros v'].
    destruct (String.eqb _ "Content-Length").
    + apply obind_not_fuel; [apply stoul_not_fuel|intros n]. apply obind_not_fuel; [|done].
      destruct (_ <? n)%Z; [done|]. destruct (n <=? _)%Z; [done|]. by destruct (can_reserve n).
    + destruct (String.eqb _ "Transfer-Encoding"); [|done]. by destruct (String.eqb _ _).
Qed.

(** A reading of the lines ends: every line has a result. *)
Lemma read_head_ends h d : read_head h d <> Fuel.
Proof.
  remember (len d) as n eqn:Hn. revert h d Hn.
  induction (lt_wf n) as [n _ IH]; intros h d ->.
  rewrite read_head_eq. destruct (find_sub CRLF d) as [i|] eqn:Ei; [|done].
  pose proof (find_sub_len _ _ _ Ei) as Hl. cbn in Hl. destruct (str_take i d) as [|c line]; [done|].
  pose proof (take_line_not_fuel (String c line) h) as Ht.
  destruct (take_line _ _ _) as [h'| | |]; try done.
  cbn [obind]. eapply IH; [|done]. rewrite str_drop_length. lia.
Qed.

(** ** The chunks *)

Definition extend (more : string) (c : chunks) : chunks :=
  with_data (responseData c +:+ more) (expectedChunkSize c) (removeCrlfAfterChunk c) c.

(** More bytes do not change how a turn ends, unless it asks for more. *)
Definition same_end (more : string) (t u : outcome turn) : Prop :=
  match t with
  | Ok (More _) => True
  | Ok (Received c) => u = Ok (Received (extend more c))
  | Ok (Again c) => u = Ok (Again (extend more c))
  | Throw e => u = Throw e
  | Undef => u = Undef
  | Fuel => u = Fuel
  end.

Lemma size_line_more c more : same_end more (size_line c) (size_line (extend more c)).
Proof.
  unfold size_line. cbn [extend with_data responseData].
  destruct (find_sub CRLF (responseData c)) as [i|] eqn:Ei; [|done].
  pose proof (find_sub_len _ _ _ Ei) as Hl. cbn in Hl.
  rewrite (find_sub_more _ _ _ _ Ei), str_take_app_le, str_drop_app_le by lia.
  destruct (stoul _ _) as [n| | |]; try done. cbn [obind]. by destruct (n =? 0)%Z.
Qed.

Lemma size_line_shrinks c c' : size_line c = Ok (Again c') ->
  len (responseData c') < len (responseData c).
Proof.
  unfold size_line. destruct (find_sub _ _) as [i|] eqn:Ei; [|done].
  apply find_sub_len in Ei. cbn in Ei. destruct (stoul _ _) as [n| | |]; try done. cbn [obind].
  destruct (n =? 0)%Z; [done|]. intros [= <-]. cbn. rewrite str_drop_length. lia.
Qed.

Lemma chunk_turn_shrinks c c' : chunk_turn c = Ok (Again c') ->
  len (responseData c') < len (responseData c).
Proof.
  unfold chunk_turn. destruct (Z.ltb_spec 0 (expectedChunkSize c)).
  - cbn [responseData].
    destruct (str_drop _ _) as [|x t] eqn:Et; [done|]. intros [= <-]. cbn [responseData].
    pose proof (str_drop_length (Z.to_nat (Z.min (expectedChunkSize c) (Z.of_nat (len (responseData c)))))
                  (responseData c)) as Hl. rewrite Et in Hl. cbn in Hl |- *. lia.
  - destruct (removeCrlfAfterChunk c); [|apply size_line_shrinks].
    destruct (Nat.leb_spec 2 (len (responseData c))); [|done]. intros Hs%size_line_shrinks.
    cbn [with_data responseData] in Hs. rewrite str_drop_length in Hs. lia.
Qed.

Lemma chunk_loop_fuel n m c : len (responseData c) < n -> len (responseData c) < m ->
  chunk_loop n c = chunk_loop m c.
Proof.
  revert m c. induction n as [|n IH]; intros m c Hn Hm; [lia|]. destruct m as [|m]; [lia|].
  cbn [chunk_loop]. destruct (chunk_turn c) as [[c'|c'|c']| | |] eqn:Et; try done. cbn [obind].
  apply chunk_turn_shrinks in Et. apply IH; lia.
Qed.

(** The loop over the chunks, without fuel *)
Lemma read_chunks_eq c : read_chunks c =
  let? t := chunk_turn c in
  match t with More c => Ok (c, false) | Received c => Ok (c, true) | Again c => read_chunks c end.
Proof.
  unfold read_chunks at 1. cbn [chunk_loop].
  destruct (chunk_turn c) as [[c'|c'|c']| | |] eqn:Et; try done. cbn [obind].
  apply chunk_turn_shrinks in Et. apply chunk_loop_fuel; lia.
Qed.

Lemma chunk_turn_more c more : same_end more (chunk_turn c) (chunk_turn (extend more c)).
Proof.
  unfold chunk_turn. cbn [extend with_data responseData expectedChunkSize removeCrlfAfterChunk c_body].
  destruct (Z.ltb_spec 0 (expectedChunkSize c)) as [He|He].
  - destruct (str_drop _ (responseData c)) as [|x t] eqn:Et; [done|].
    assert (expectedChunkSize c < Z.of_nat (len (responseData c)))%Z as Hlt.
    { apply Z.nle_gt. intros Hge. rewrite Z.min_r, Nat2Z.id, str_drop_all in Et by lia. done. }
    rewrite Z.min_l in Et |- * by lia. rewrite Z.min_l by (rewrite slength_app; lia).
    rewrite str_take_app_le, str_drop_app_le, Et by lia. done.
  - destruct (removeCrlfAfterChunk c); [|apply (size_line_more c)].
    destruct (Nat.leb_spec 2 (len (responseData c))) as [H2|H2]; [|done].
    destruct (Nat.leb_spec 2 (len (responseData c +:+ more))) as [_|H2'];
      [|rewrite slength_app in H2'; lia].
    rewrite str_drop_app_le by done.
    apply (size_line_more (with_data (str_drop 2 (responseData c)) (expectedChunkSize c) false c)).
Qed.

(** A chunk of which not all has arrived goes on with the bytes that follow. *)
Lemma chunk_turn_wait c c' more : chunk_turn c = Ok (More c') ->
  read_chunks (extend more c) = read_chunks (extend more c').
Proof.
  intros H. unfold chunk_turn in H.
  destruct (Z.ltb_spec 0 (expectedChunkSize c)) as [He|He].
  - cbn [responseData] in H. destruct (str_drop _ (responseData c)) eqn:Et; [|done].
    injection H as <-.
    assert (Z.of_nat (len (responseData c)) <= expectedChunkSize c)%Z as Hge.
    { apply Z.nlt_ge. intros Hlt. rewrite Z.min_l in Et by lia. apply (f_equal len) in Et.
      rewrite str_drop_length in Et. cbn in Et. lia. }
    rewrite Z.min_r, Nat2Z.id, str_take_all in * by lia. clear Et.
    destruct (Z.eqb_spec (expectedChunkSize c - Z.of_nat (len (responseData c))) 0) as [Hz|Hz].
    + rewrite (read_chunks_eq (extend more c)). unfold chunk_turn.
      cbn [extend with_data responseData expectedChunkSize removeCrlfAfterChunk c_body].
      rewrite (proj2 (Z.ltb_lt _ _) He).
      rewrite Z.min_l by (rewrite slength_app; lia).
      replace (Z.to_nat (expectedChunkSize c)) with (len (responseData c)) by lia.
      rewrite str_take_app, str_drop_app, Z.sub_diag. cbn [Z.eqb String.append].
      destruct more; [|cbn [obind extend with_data c_body responseData expectedChunkSize
        removeCrlfAfterChunk String.append]; by rewrite Hz].
      rewrite read_chunks_eq. unfold chunk_turn.
      cbn [extend with_data responseData expectedChunkSize removeCrlfAfterChunk c_body String.append].
      rewrite Hz. done.
    + rewrite !read_chunks_eq. f_equal. unfold chunk_turn.
      cbn [extend with_data responseData expectedChunkSize removeCrlfAfterChunk c_body String.append].
      rewrite (proj2 (Z.ltb_lt _ _) He), (proj2 (Z.ltb_lt 0 (_ - _))) by lia.
      rewrite slength_app.
      set (e := expectedChunkSize c) in *. set (d := responseData c) in *.
      replace (Z.to_nat (Z.min e (Z.of_nat (len d + len more))))
        with (len d + Z.to_nat (Z.min (e - Z.of_nat (len d)) (Z.of_nat (len more)))) by lia.
      rewrite <- str_take_take, <- str_drop_drop, str_take_app, str_drop_app, sapp_assoc.
      replace (e - Z.min e (Z.of_nat (len d + len more)))%Z
        with (e - Z.of_nat (len d) - Z.min (e - Z.of_nat (len d)) (Z.of_nat (len more)))%Z by lia.
      done.
  - destruct (removeCrlfAfterChunk c) eqn:Erm.
    + destruct (Nat.leb_spec 2 (len (responseData c))) as [H2|H2]; [|by injection H as <-].
      unfold size_line in H. destruct (find_sub _ _) as [i|]; 
        [destruct (stoul _ _) as [n| | |]; try done; cbn [obind] in H; by destruct (n =? 0)%Z|].
      injection H as <-. rewrite !read_chunks_eq. f_equal. unfold chunk_turn.
      cbn [extend with_data responseData expectedChunkSize removeCrlfAfterChunk c_body].
      rewrite Erm, (proj2 (Z.ltb_ge _ _)) by done.
      rewrite (proj2 (Nat.leb_le _ _)) by (rewrite slength_app; lia).
      by rewrite str_drop_app_le.
    + unfold size_line in H. destruct (find_sub _ _) as [i|];
        [destruct (stoul _ _) as [n| | |]; try done; cbn [obind] in H; by destruct (n =? 0)%Z|].
      by injection H as <-.
Qed.

(** What more bytes change in a reading of the chunks *)
Definition chunks_more (r : outcome (chunks * bool)) (more : string) :=
  match r with
  | Ok (c, true) => Ok (extend more c, true)
  | Ok (c, false) => read_chunks (extend more c)
  | Throw e => Throw e
  | Undef => Undef
  | Fuel => Fuel
  end.

Lemma read_chunks_app c more : read_chunks (extend more c) = chunks_more (read_chunks c) more.
Proof.
  remember (len (responseData c)) as n eqn:Hn. revert c Hn.
  induction (lt_wf n) as [n _ IH]; intros c ->.
  pose proof (chunk_turn_more c more) as Hm. rewrite (read_chunks_eq c).
  destruct (chunk_turn c) as [[c'|c'|c']| | |] eqn:Et; cbn [same_end obind chunks_more] in *.
  - by apply chunk_turn_wait.
  - by rewrite read_chunks_eq, Hm.
  - rewrite read_chunks_eq, Hm. cbn [obind]. eapply IH; [|done]. by apply chunk_turn_shrinks.
  - by rewrite read_chunks_eq, Hm.
  - by rewrite read_chunks_eq, Hm.
  - by rewrite read_chunks_eq, Hm.
Qed.

Lemma size_line_not_fuel c : size_line c <> Fuel.
Proof.
  unfold size_line. destruct (find_sub _ _) as [i|]; [|done]. apply obind_not_fuel; [apply stoul_not_fuel|].
  intros n. by destruct (n =? 0)%Z.
Qed.
Lemma read_chunks_ends c : read_chunks c <> Fuel.
Proof.
  remember (len (responseData c)) as n eqn:Hn. revert c Hn.
  induction (lt_wf n) as [n _ IH]; intros c ->. rewrite read_chunks_eq.
  assert (chunk_turn c <> Fuel) as Hf.
  { unfold chunk_turn. destruct (_ <? _)%Z; [cbn [responseData]; by destruct (str_drop _ _)|].
    destruct (removeCrlfAfterChunk c); [|apply size_line_not_fuel].
    destruct (_ <=? _)%nat; [apply size_line_not_fuel|done]. }
  destruct (chunk_turn c) as [[c'|c'|c']| | |] eqn:Et; try done. cbn [obind].
  eapply IH; [|done]. by apply chunk_turn_shrinks.
Qed.

(** ** The pieces of a response *)

(** What more bytes change in a turn of the reading loop *)
Definition reader_extend (more : string) (p : reader) : reader := {|
  r_head := r_head p; parsedHeaders := parsedHeaders p; r_chunks :=
    if chunkedResponse (r_head p) then extend more (r_chunks p)
    else (read_plain (r_head p) (extend more (r_chunks p))).1 |}.

Definition feed_more (r : outcome (reader * bool)) (more : string) :=
  match r with
  | Ok (p, true) => Ok (reader_extend more p, true)
  | Ok (p, false) => feed p more
  | Throw e => Throw e
  | Undef => Undef
  | Fuel => Fuel
  end.


Lemma read_plain_app h c more :
  read_plain h (extend more c) = read_plain h (extend more (read_plain h c).1).
Proof.
  unfold read_plain, extend. cbn [with_data c_body responseData expectedChunkSize removeCrlfAfterChunk fst].
  by rewrite !sapp_assoc.
Qed.

Lemma with_data_extend d more e rm c : with_data (d +:+ more) e rm c = extend more (with_data d e rm c).
Proof. done. Qed.

(** Bytes received together are read as bytes received one piece after the
    other. *)
Lemma feed_app p d more : feed p (d +:+ more) = feed_more (feed p d) more.
Proof.
  unfold HttpClient.feed at 1 2. rewrite <- sapp_assoc.
  set (data := responseData (r_chunks p) +:+ d).
  assert (forall h data, let c := with_data data (expectedChunkSize (r_chunks p))
      (removeCrlfAfterChunk (r_chunks p)) (r_chunks p) in
    (let? r := read_body h (extend more c) in
     Ok ({| r_head := h; parsedHeaders := true; r_chunks := r.1 |}, r.2)) =
    feed_more (let? r := read_body h c in
      Ok ({| r_head := h; parsedHeaders := true; r_chunks := r.1 |}, r.2)) more) as Hbody.
  { clear. intros h data c. generalize c. clear. intros c. unfold read_body.
    destruct (chunkedResponse h) eqn:Ec.
    - rewrite read_chunks_app. destruct (read_chunks c) as [[c' [|]]| | |]; try done;
        cbn [obind feed_more chunks_more fst snd].
      + unfold reader_extend. cbn [r_head parsedHeaders r_chunks]. by rewrite Ec.
      + unfold HttpClient.feed. cbn [r_head parsedHeaders r_chunks obind].
        rewrite with_data_extend. unfold read_body. rewrite Ec. by destruct c'.
    - cbn [obind]. rewrite read_plain_app. destruct (read_plain h c) as [c' [|]] eqn:Ep; cbn [feed_more fst snd].
      + unfold reader_extend. cbn [r_head parsedHeaders r_chunks]. rewrite Ec.
        f_equal. f_equal. unfold read_plain in *. injection Ep as <- Hr.
        apply andb_true_iff in Hr as [Hr Hle].
        cbn [extend with_data c_body responseData snd String.append]. rewrite Hr. cbn [andb].
        apply Z.leb_le in Hle. apply Z.leb_le. rewrite slength_app. lia.
      + unfold HttpClient.feed. cbn [r_head parsedHeaders r_chunks obind].
        rewrite with_data_extend. unfold read_body. rewrite Ec. by destruct c'. }
  destruct (parsedHeaders p) eqn:Ep; cbn [obind].
  - apply (Hbody (r_head p) data).
  - rewrite read_head_app. destruct (read_head (r_head p) data) as [[[h [|]] d']| | |]; try done;
      cbn [obind head_more]. apply (Hbody h d').
Qed.

(** A reader that has seen all it was given asks for more. *)
Definition quiet (p : reader) : Prop := feed p EmptyString = Ok (p, false).
Lemma start_quiet : quiet start_reader.
Proof. done. Qed.
Lemma feed_quiet p d p' : feed p d = Ok (p', false) -> quiet p'.
Proof.
  intros H. pose proof (feed_app p d EmptyString) as E. rewrite sapp_nil_r, H in E. by symmetry.
Qed.

Lemma feed_plain_done p d p' : feed p d = Ok (p', true) -> chunkedResponse (r_head p') = false ->
  responseData (r_chunks p') = EmptyString /\
  (contentLength (r_head p') <= Z.of_nat (len (c_body (r_chunks p'))))%Z.
Proof.
  unfold HttpClient.feed. destruct (if parsedHeaders p then _ else _) as [[[h [|]] d']| | |]; try done.
  cbn [obind]. unfold read_body. destruct (chunkedResponse h) eqn:Ec.
  - destruct (read_chunks _) as [[c b]| | |]; try done. cbn [obind fst snd]. intros [= <- ->].
    cbn. congruence.
  - cbn [obind read_plain fst snd]. intros [= <- Hd] _. cbn in *.
    apply andb_true_iff in Hd as [_ Hd]. by apply Z.leb_le in Hd.
Qed.

(** The answer a finished reader gives, whatever followed it *)
Lemma response_extend p d p' more : feed p d = Ok (p', true) ->
  chunkedResponse (r_head p') = true \/ more = EmptyString ->
  response_of (reader_extend more p') = response_of p'.
Proof.
  intros H Hm. unfold response_of, reader_extend. cbn [r_head r_chunks].
  destruct (chunkedResponse (r_head p')) eqn:Ec; [done|]. destruct Hm as [| ->]; [done|].
  apply feed_plain_done in H as [Hd _]; [|done]. cbn. by rewrite Hd, !sapp_nil_r.
Qed.

(** Nothing of what it was given is left over. *)
Definition exact (p : reader) : Prop :=
  if chunkedResponse (r_head p) then responseData (r_chunks p) = EmptyString
  else contentLength (r_head p) = Z.of_nat (len (c_body (r_chunks p))).

Lemma exact_nothing_more p d p' more : feed p d = Ok (p', true) -> exact (reader_extend more p') ->
  more = EmptyString.
Proof.
  intros H. unfold exact, reader_extend. cbn [r_head r_chunks].
  destruct (chunkedResponse (r_head p')) eqn:Ec.
  - cbn. destruct (responseData _); [done|]. done.
  - apply feed_plain_done in H as [Hd Hle]; [|done]. cbn. rewrite Hd, slength_app. cbn.
    intros E. destruct more; [done|]. cbn in E. lia.
Qed.

(** What [recv] gives: interruptions, and pieces that are not empty *)
Definition arriving (l : list (sys string)) : Prop :=
  Forall (fun r => match r with Interrupted => True | Done s => s <> EmptyString
                   | Failure _ => False end) l.
Fixpoint arrived (l : list (sys string)) : string :=
  match l with
  | Done s :: l => s +:+ arrived l
  | Interrupted :: l => arrived l
  | _ => EmptyString
  end.

(** However a whole response is cut into pieces, the loop gives the response. *)
Lemma recv_loop_arrived l p text extra pf : quiet p -> arriving l ->
  arrived l = text +:+ extra -> feed p text = Ok (pf, true) -> exact pf ->
  chunkedResponse (r_head pf) = true \/ extra = EmptyString ->
  recv_loop can_reserve l p = Some (Ok (response_of pf)).
Proof.
  intros Hq Hl. revert p text Hq. induction Hl as [|r l Hr _ IH]; intros p text Hq Ha Hf Hex Hc.
  - destruct text; [|done]. congruence.
  - destruct r as [|t|s]; [by eapply IH|done|]. cbn [arrived] in Ha.
    destruct s as [|x s]; [done|]. cbn [recv_loop].
    destruct (sapp_split _ _ _ _ Ha) as [(t & -> & Ht)|(t & Hs & Ht)].
    + rewrite feed_app in Hf. destruct (feed p (String x s)) as [[p1 [|]]| | |] eqn:E1; try done;
        cbn [feed_more] in Hf.
      * injection Hf as <-. rewrite (exact_nothing_more _ _ _ _ E1 Hex).
        by rewrite (response_extend _ _ _ _ E1) by (by right).
      * eapply IH; [by eapply feed_quiet|done..].
    + rewrite Hs, feed_app, Hf. cbn [feed_more].
      rewrite (response_extend _ _ _ _ Hf); [done|]. destruct Hc as [|Hc]; [by left|right].
      rewrite Hc in Ht. by destruct t.
Qed.

(** ** Responses a server writes *)

(** A line with no line end in it *)
Definition one_line (line : string) : Prop := find_sub CRLF (line +:+ CRLF) = Some (len line).

Lemma crlf_line line r : one_line line -> find_sub CRLF (line +:+ CRLF +:+ r) = Some (len line).
Proof. apply find_sub_app. Qed.

Lemma after_line line r : str_drop (len line + 2) (line +:+ CRLF +:+ r) = r.
Proof. by rewrite <- str_drop_drop, str_drop_app. Qed.

Lemma read_head_line h line r : one_line line -> line <> EmptyString ->
  read_head h (line +:+ CRLF +:+ r) = let? h := take_line can_reserve line h in read_head h r.
Proof.
  intros H Hne. rewrite read_head_eq, (crlf_line _ _ H), str_take_app, after_line. by destruct line.
Qed.
Lemma read_head_end h r : read_head h (CRLF +:+ r) = Ok (h, true, r).
Proof. by rewrite read_head_eq. Qed.

Fixpoint take_lines (lines : list string) (h : head) : outcome head :=
  match lines with
  | [] => Ok h
  | line :: lines => let? h := take_line can_reserve line h in take_lines lines h
  end.

Definition header_ok (line : string) : Prop := one_line line /\ line <> EmptyString.

Lemma read_head_lines h lines r : Forall header_ok lines ->
  read_head h (header_lines lines +:+ CRLF +:+ r) =
  let? h := take_lines lines h in Ok (h, true, r).
Proof.
  intros Hl. revert h. induction Hl as [|line lines [H1 H2] _ IH]; intros h.
  - apply read_head_end.
  - cbn [header_lines take_lines]. rewrite !sapp_assoc, read_head_line by done.
    destruct (take_line _ _ _); cbn [obind]; [apply IH|done..].
Qed.

Lemma take_lines_app a b h :
  take_lines (a ++ b) h = let? h := take_lines a h in take_lines b h.
Proof.
  revert h. induction a as [|line a IH]; intros h; [done|]. cbn.
  destruct (take_line _ _ _); cbn [obind]; [apply IH|done..].
Qed.

(** Seven-bit text is trimmed without leaving the domain of [isspace]. *)
Definition seven_bit (s : string) : Prop := Forall (fun c => (byte c < 128)%Z) (list_ascii_of_string s).

Lemma isspace_seven c : (byte c < 128)%Z -> isspace c = Ok (is_space c).
Proof.
  intros H. unfold isspace, schar. rewrite (proj2 (Z.ltb_lt (byte c) 128)) by done.
  pose proof (byte_range c). by rewrite (proj2 (Z.ltb_ge _ _)) by lia.
Qed.
Lemma ltrim_seven s : seven_bit s -> exists t, ltrim s = Ok t /\ seven_bit t.
Proof.
  unfold seven_bit. induction s as [|c s IH]; intros H; [by exists EmptyString|].
  pose proof H as [Hc Hs]%Forall_cons. cbn [ltrim]. rewrite isspace_seven by done. cbn [obind].
  destruct (is_space c); [by apply IH|]. by eexists.
Qed.
Lemma seven_bit_rev s : seven_bit s -> seven_bit (string_rev s).
Proof.
  unfold seven_bit, string_rev. rewrite list_ascii_of_string_of_list_ascii. by rewrite Forall_reverse.
Qed.
Lemma seven_bit_drop n s : seven_bit s -> seven_bit (str_drop n s).
Proof.
  unfold seven_bit. revert s. induction n as [|n IH]; intros [|c s] H; try done.
  apply IH. by apply Forall_cons in H as [_ H].
Qed.
Lemma trims s : seven_bit s -> exists t, (let? v := ltrim s in rtrim v) = Ok t.
Proof.
  intros H. destruct (ltrim_seven s H) as (t & -> & Ht). cbn [obind]. unfold rtrim.
  destruct (ltrim_seven _ (seven_bit_rev t Ht)) as (u & -> & _). by eexists.
Qed.

(** A header line that says nothing of the length or the coding of the body *)
Definition other_header (line : string) : Prop :=
  seven_bit line /\
  match find_char ":" line with
  | Some i => str_take i line <> "Content-Length" /\ str_take i line <> "Transfer-Encoding"
  | None => True
  end.

Definition add_header (line : string) (h : head) : head := {|
  h_status := h_status h; h_headers := h_headers h ++ [line]; firstLine := firstLine h;
  contentLengthReceived := contentLengthReceived h; contentLength := contentLength h;
  chunkedResponse := chunkedResponse h; reserved := reserved h |}.

Lemma other_header_line line h : other_header line -> firstLine h = false ->
  take_line can_reserve line h = Ok (add_header line h).
Proof.
  intros [H7 Hn] Hf. unfold take_line, header_line, add_header. rewrite Hf.
  destruct (find_char ":" line) as [i|]; [|done]. destruct Hn as [H1 H2].
  destruct (trims (str_drop (i + 1) line) (seven_bit_drop _ _ H7)) as [t Ht].
  destruct (ltrim _) as [v| | |]; try done. cbn [obind] in *. rewrite Ht. cbn [obind].
  apply String.eqb_neq in H1 as ->. by apply String.eqb_neq in H2 as ->.
Qed.

Lemma other_headers lines h : Forall other_header lines -> firstLine h = false ->
  take_lines lines h = Ok {|
    h_status := h_status h; h_headers := h_headers h ++ lines; firstLine := false;
    contentLengthReceived := contentLengthReceived h; contentLength := contentLength h;
    chunkedResponse := chunkedResponse h; reserved := reserved h |}.
Proof.
  intros Hl. revert h. induction Hl as [|line lines H _ IH]; intros h Hf.
  - cbn. rewrite app_nil_r, <- Hf. by destruct h.
  - cbn [take_lines]. rewrite other_header_line by done. cbn [obind]. rewrite IH by done.
    cbn. by rewrite <- app_assoc.
Qed.

(** The two headers that frame a body *)

Lemma chunked_line h : firstLine h = false ->
  take_line can_reserve "Transfer-Encoding: chunked" h = Ok {|
    h_status := h_status h; h_headers := h_headers h ++ ["Transfer-Encoding: chunked"];
    firstLine := false; contentLengthReceived := contentLengthReceived h;
    contentLength := contentLength h; chunkedResponse := true; reserved := reserved h |}.
Proof. intros Hf. unfold take_line, header_line. rewrite Hf. reflexivity. Qed.

Definition all_digits (s : string) : Prop := Forall (fun c => is_digit c = true) (list_ascii_of_string s).

Lemma digit_solid c : is_digit c = true -> (byte c < 128)%Z /\ is_space c = false.
Proof.
  unfold is_digit, is_space. intros [H1%Z.leb_le H2%Z.leb_le]%andb_true_iff. split; [lia|].
  apply orb_false_iff. split; [apply Z.eqb_neq; lia|apply andb_false_iff; right; apply Z.leb_gt; lia].
Qed.
Lemma ltrim_digits s : all_digits s -> ltrim s = Ok s.
Proof.
  destruct s as [|c s]; [done|]. intros [Hc _]%Forall_cons. cbn [ltrim].
  apply digit_solid in Hc as [H1 H2]. rewrite isspace_seven by done. cbn [obind]. by rewrite H2.
Qed.
Lemma string_rev_rev s : string_rev (string_rev s) = s.
Proof.
  unfold string_rev. by rewrite list_ascii_of_string_of_list_ascii, reverse_involutive,
    string_of_list_ascii_of_string.
Qed.
Lemma rtrim_digits s : all_digits s -> rtrim s = Ok s.
Proof.
  intros H. unfold rtrim. rewrite ltrim_digits; [cbn [obind]; by rewrite string_rev_rev|].
  unfold all_digits, string_rev in *. by rewrite list_ascii_of_string_of_list_ascii, Forall_reverse.
Qed.

Lemma uint_digits d : all_digits (DecimalString.NilEmpty.string_of_uint d).
Proof. unfold all_digits. induction d; [constructor|..]; cbn; by constructor. Qed.
Lemma nat_text n : exists d, to_string (Z.of_nat n) = DecimalString.NilZero.string_of_uint d /\
  Z.of_N (Pos.of_uint d) = Z.of_nat n /\ all_digits (DecimalString.NilZero.string_of_uint d).
Proof.
  pose proof (DecimalZ.of_to (Z.of_nat n)) as Hof. unfold to_string.
  assert (exists d, Z.to_int (Z.of_nat n) = Decimal.Pos d) as [d Ed] by (destruct n; by eexists).
  rewrite Ed in *. exists d. split; [done|]. split; [done|].
  destruct d; try apply (uint_digits _). by repeat constructor.
Qed.

Lemma base_value_ten acc s : base_value 10 acc s = digits_value acc s.
Proof.
  revert acc. induction s as [|c s IH]; intros acc; [done|]. cbn [base_value digits_value].
  unfold digit_value, hex_value, is_digit. cbv zeta. pose proof (byte_range c).
  destruct ((48 <=? byte c)%Z && (byte c <=? 57)%Z) eqn:E; cbn.
  - apply andb_true_iff in E as [E1%Z.leb_le E2%Z.leb_le].
    rewrite (proj2 (Z.ltb_lt _ _)) by lia. apply IH.
  - destruct ((65 <=? byte c)%Z && (byte c <=? 70)%Z) eqn:E1;
      [|destruct ((97 <=? byte c)%Z && (byte c <=? 102)%Z) eqn:E2; [|done]].
    all: repeat match goal with H : _ && _ = true |- _ => apply andb_true_iff in H as [?%Z.leb_le ?%Z.leb_le] end.
    all: by rewrite (proj2 (Z.ltb_ge _ _)) by lia.
Qed.

Lemma stoul_nat n : (Z.of_nat n <= ULONG_MAX)%Z -> stoul (to_string (Z.of_nat n)) 10 = Ok (Z.of_nat n).
Proof.
  intros Hn. destruct (nat_text n) as (d & -> & Hv & Hd). unfold stoul.
  destruct (string_of_uint_digit d) as [Hp Hval].
  assert (c_str (DecimalString.NilZero.string_of_uint d) = DecimalString.NilZero.string_of_uint d) as ->.
  { apply c_str_id. destruct d; [done|apply no_nul_uint..]. }
  assert (skip_space (DecimalString.NilZero.string_of_uint d) = DecimalString.NilZero.string_of_uint d) as ->
    by by destruct d.
  assert ((match DecimalString.NilZero.string_of_uint d with
           | String "-" s' => (true, s') | String "+" s' => (false, s')
           | _ => (false, DecimalString.NilZero.string_of_uint d) end)
          = (false, DecimalString.NilZero.string_of_uint d)) as -> by by destruct d.
  assert (skip_0x 10 (DecimalString.NilZero.string_of_uint d) = DecimalString.NilZero.string_of_uint d) as ->.
  { unfold skip_0x. destruct (DecimalString.NilZero.string_of_uint d) as [|[[] [] [] [] [] [] [] []] [|x [|y t]]]; done. }
  rewrite base_value_ten, Hval, Hv.
  assert (is_base_digit 10 (peek (DecimalString.NilZero.string_of_uint d)) = true) as -> by by destruct d.
  by rewrite (proj2 (Z.ltb_ge _ _)) by done.
Qed.

Definition length_line (n : nat) : string := "Content-Length: " +:+ to_string (Z.of_nat n).

Lemma content_length_line h n : firstLine h = false -> reserved h = 0%Z ->
  (Z.of_nat n <= 9223372036854775807)%Z -> can_reserve (Z.of_nat n) = true ->
  take_line can_reserve (length_line n) h = Ok {|
    h_status := h_status h; h_headers := h_headers h ++ [length_line n]; firstLine := false;
    contentLengthReceived := true; contentLength := Z.of_nat n;
    chunkedResponse := chunkedResponse h; reserved := Z.of_nat n |}.
Proof.
  intros Hf Hr Hn Hc. unfold take_line, header_line. rewrite Hf.
  change (find_char ":" (length_line n)) with (Some 14). cbv beta iota zeta.
  change (str_drop (14 + 1) (length_line n)) with (String " " (to_string (Z.of_nat n))).
  change (str_take 14 (length_line n)) with "Content-Length".
  destruct (nat_text n) as (d & Ed & _ & Hd). rewrite <- Ed in Hd.
  change (ltrim (String " " (to_string (Z.of_nat n)))) with (ltrim (to_string (Z.of_nat n))).
  rewrite ltrim_digits by done. cbn [obind]. rewrite rtrim_digits by done. cbn [obind String.eqb].
  change (String.eqb "Content-Length" "Content-Length") with true. cbv iota.
  rewrite stoul_nat by (unfold ULONG_MAX; lia). cbn [obind]. unfold reserve. rewrite Hr, Hc.
  rewrite (proj2 (Z.ltb_ge _ _)) by done.
  destruct (Z.leb_spec (Z.of_nat n) 0); cbn [obind]; [|done]. by replace (Z.of_nat n) with 0%Z by lia.
Qed.

(** The first line names the status. *)
Definition status_ok (line : string) (code : Z) : Prop :=
  header_ok line /\
  match words EmptyString line with _ :: w :: _ => stoi w = Ok code | _ => False end.

Definition head_text (first : string) (hs : list string) : string :=
  first +:+ CRLF +:+ header_lines hs +:+ CRLF.

(** One header frames the body; the others, before and behind it, do not. *)
Definition framed_by (frame : string) (hs : list string) : Prop :=
  Forall header_ok hs /\
  exists hs1 hs2, hs = hs1 ++ frame :: hs2 /\ Forall other_header (hs1 ++ hs2).

Lemma read_head_text first code hs1 frame hs2 h rest :
  status_ok first code -> Forall header_ok (hs1 ++ frame :: hs2) -> Forall other_header (hs1 ++ hs2) ->
  take_line can_reserve frame {|
    h_status := code; h_headers := hs1; firstLine := false; contentLengthReceived := false;
    contentLength := 0; chunkedResponse := false; reserved := 0 |} = Ok h ->
  firstLine h = false ->
  read_head start_head (head_text first (hs1 ++ frame :: hs2) +:+ rest) = Ok ({|
    h_status := h_status h; h_headers := h_headers h ++ hs2; firstLine := false;
    contentLengthReceived := contentLengthReceived h; contentLength := contentLength h;
    chunkedResponse := chunkedResponse h; reserved := reserved h |}, true, rest).
Proof.
  intros [[H1 H2] Hw] Hhs [Ho1 Ho2]%Forall_app Hf Hfl.
  unfold head_text. rewrite !sapp_assoc, read_head_line by done.
  assert (take_line can_reserve first start_head = Ok {|
    h_status := code; h_headers := []; firstLine := false; contentLengthReceived := false;
    contentLength := 0; chunkedResponse := false; reserved := 0 |}) as ->.
  { unfold take_line. cbn [start_head firstLine]. unfold status_line.
    destruct (words EmptyString first) as [|? [|w ?]]; [done..|]. by rewrite Hw. }
  cbn [obind]. rewrite read_head_lines, take_lines_app, other_headers by done. cbn [obind h_status
    h_headers contentLengthReceived contentLength chunkedResponse reserved take_lines].
  rewrite app_nil_l, Hf. cbn [obind]. by rewrite other_headers.
Qed.

(** Chunks: the line with the size, the bytes; the line that ends them *)
Definition chunk_ok (c : string * string) : Prop :=
  one_line c.1 /\ stoul c.1 16 = Ok (Z.of_nat (len c.2)) /\ c.2 <> EmptyString.
Definition last_ok (z : string) : Prop := one_line z /\ stoul z 16 = Ok 0%Z.

Fixpoint chunks_text (cs : list (string * string)) (z : string) : string :=
  match cs with
  | [] => z +:+ CRLF
  | (n, d) :: cs => n +:+ CRLF +:+ d +:+ CRLF +:+ chunks_text cs z
  end.
Fixpoint chunks_body (cs : list (string * string)) : string :=
  match cs with [] => EmptyString | (_, d) :: cs => d +:+ chunks_body cs end.

(** A turn at a line with a size *)
Lemma size_turn (b n rest : string) (v : Z) (rm : bool) : one_line n -> stoul n 16 = Ok v ->
  chunk_turn {| c_body := b; responseData := (if rm then CRLF else EmptyString) +:+ n +:+ CRLF +:+ rest;
                expectedChunkSize := 0; removeCrlfAfterChunk := rm |} =
  let c := {| c_body := b; responseData := rest; expectedChunkSize := v;
              removeCrlfAfterChunk := false |} in
  Ok (if (v =? 0)%Z then Received c else Again c).
Proof.
  intros Hn Hv. unfold chunk_turn. cbn [expectedChunkSize removeCrlfAfterChunk responseData Z.ltb Z.compare].
  assert (forall c, responseData c = n +:+ CRLF +:+ rest -> removeCrlfAfterChunk c = false -> c_body c = b ->
    size_line c = let c := {| c_body := b; responseData := rest; expectedChunkSize := v;
      removeCrlfAfterChunk := false |} in Ok (if (v =? 0)%Z then Received c else Again c)) as Hs.
  { intros c Hd Hr Hb. unfold size_line. rewrite Hd, crlf_line, str_take_app, after_line by done.
    rewrite Hv. cbn [obind]. unfold with_data. rewrite Hr, Hb. by destruct (v =? 0)%Z. }
  destruct rm; [|by apply Hs].
  change ((2 <=? len (CRLF +:+ n +:+ CRLF +:+ rest))%nat) with true. cbv iota. by apply Hs.
Qed.

(** A turn at the bytes of a chunk that have all arrived *)
Lemma data_turn b d rest rm : d <> EmptyString ->
  chunk_turn {| c_body := b; responseData := d +:+ CRLF +:+ rest;
                expectedChunkSize := Z.of_nat (len d); removeCrlfAfterChunk := rm |} =
  Ok (Again {| c_body := b +:+ d; responseData := CRLF +:+ rest; expectedChunkSize := 0;
               removeCrlfAfterChunk := true |}).
Proof.
  intros Hd. assert (len d <> 0) as Hl by by destruct d.
  unfold chunk_turn. cbn [expectedChunkSize removeCrlfAfterChunk responseData c_body].
  rewrite (proj2 (Z.ltb_lt _ _)) by lia. rewrite Z.min_l by (rewrite slength_app; lia).
  by rewrite Nat2Z.id, str_take_app, str_drop_app, Z.sub_diag.
Qed.

Lemma read_chunks_text cs z b rm : Forall chunk_ok cs -> last_ok z ->
  read_chunks {| c_body := b; responseData := (if rm : bool then CRLF else EmptyString) +:+ chunks_text cs z;
                 expectedChunkSize := 0; removeCrlfAfterChunk := rm |} =
  Ok ({| c_body := b +:+ chunks_body cs; responseData := EmptyString; expectedChunkSize := 0;
         removeCrlfAfterChunk := false |}, true).
Proof.
  intros Hcs [Hz1 Hz2]. revert b rm. induction Hcs as [|[n d] cs (H1 & H2 & H3) _ IH]; intros b rm.
  - rewrite read_chunks_eq. cbn [chunks_text chunks_body].
    rewrite <- (sapp_nil_r CRLF) at 2. rewrite (size_turn b z EmptyString 0) by done.
    cbn. by rewrite sapp_nil_r.
  - cbn [chunks_text chunks_body fst snd] in *. rewrite read_chunks_eq, (size_turn _ _ _ _ _ H1 H2).
    assert ((Z.of_nat (len d) =? 0)%Z = false) as -> by (apply Z.eqb_neq; by destruct d).
    cbn [obind]. rewrite read_chunks_eq, data_turn by done. cbn [obind].
    rewrite (IH _ true). by rewrite sapp_assoc.
Qed.

(** How a body is framed: the header that says it and the bytes on the wire.
    Chunks may be followed by anything: the loop is left at the last one. *)
Inductive framed : string -> string -> string -> Prop :=
  | framed_chunks cs z extra : Forall chunk_ok cs -> last_ok z ->
      framed "Transfer-Encoding: chunked" (chunks_text cs z +:+ extra) (chunks_body cs)
  | framed_length text : (Z.of_nat (len text) <= 9223372036854775807)%Z ->
      can_reserve (Z.of_nat (len text)) = true -> framed (length_line (len text)) text text.

Lemma read_framed l first code hs frame wire text :
  status_ok first code -> framed_by frame hs -> framed frame wire text ->
  arriving l -> arrived l = head_text first hs +:+ wire ->
  recv_loop can_reserve l start_reader =
  Some (Ok {| status := code; headers := hs; body := text |}).
Proof.
  intros Hst (Hh & hs1 & hs2 & -> & Ho) Hfr Hl Ha. destruct Hfr as [cs z extra Hcs Hz|text Hlen Hres].
  - rewrite <- sapp_assoc in Ha. eapply (recv_loop_arrived l start_reader _ extra {|
      r_head := {| h_status := code; h_headers := hs1 ++ "Transfer-Encoding: chunked" :: hs2;
        firstLine := false; contentLengthReceived := false; contentLength := 0;
        chunkedResponse := true; reserved := 0 |}; parsedHeaders := true;
      r_chunks := {| c_body := chunks_body cs; responseData := EmptyString;
        expectedChunkSize := 0; removeCrlfAfterChunk := false |} |});
      [apply start_quiet|done|exact Ha| |done|by left].
    unfold HttpClient.feed. cbn [start_reader parsedHeaders r_head r_chunks start_chunks responseData
      String.append expectedChunkSize removeCrlfAfterChunk].
    erewrite (read_head_text first code) by (done || by apply chunked_line).
    cbn [obind h_status h_headers contentLengthReceived contentLength chunkedResponse reserved].
    rewrite <- app_assoc.
    unfold read_body. cbn [chunkedResponse]. pose proof (read_chunks_text cs z EmptyString false Hcs Hz) as E.
    cbn [String.append] in E. unfold with_data. cbn [c_body start_chunks]. by rewrite E.
  - eapply (recv_loop_arrived l start_reader _ EmptyString {|
      r_head := {| h_status := code; h_headers := hs1 ++ length_line (len text) :: hs2;
        firstLine := false; contentLengthReceived := true; contentLength := Z.of_nat (len text);
        chunkedResponse := false; reserved := Z.of_nat (len text) |}; parsedHeaders := true;
      r_chunks := {| c_body := text; responseData := EmptyString;
        expectedChunkSize := 0; removeCrlfAfterChunk := false |} |});
      [apply start_quiet|done|by rewrite sapp_nil_r| |done|by right].
    unfold HttpClient.feed. cbn [start_reader parsedHeaders r_head r_chunks start_chunks responseData
      String.append expectedChunkSize removeCrlfAfterChunk].
    erewrite (read_head_text first code) by (done || by apply content_length_line).
    cbn [obind h_status h_headers contentLengthReceived contentLength chunkedResponse reserved].
    rewrite <- app_assoc.
    unfold read_body. cbn [chunkedResponse obind]. unfold read_plain, with_data.
    cbn [c_body start_chunks responseData String.append contentLengthReceived contentLength fst snd
      expectedChunkSize removeCrlfAfterChunk andb]. by rewrite Z.leb_refl.
Qed.

(** ** What the peer is sent *)

Lemma send_loop_prefix l data : exists rest, data = (send_loop l data).1 +:+ rest /\
  ((send_loop l data).2 = Some (Ok tt) -> rest = EmptyString).
Proof.
  revert data. induction l as [|r l IH]; intros data.
  - destruct data; [by exists EmptyString|]. by eexists.
  - destruct data as [|x data]; [by exists EmptyString|]. destruct r as [|t|n]; cbn [send_loop].
    + apply IH.
    + by eexists.
    + destruct (IH (str_drop n (String x data))) as (rest & E & Hr).
      destruct (send_loop l (str_drop n (String x data))) as [sent r]. cbn [fst snd] in *.
      exists rest. split; [|done]. rewrite sapp_assoc, <- E. by rewrite str_take_drop.
Qed.

Lemma send_loop_ends l data : (send_loop l data).2 <> Some Fuel /\ (send_loop l data).2 <> Some Undef.
Proof.
  revert data. induction l as [|r l IH]; intros [|x data]; try (by split).
  destruct r as [|t|n]; [apply IH|by split|]. cbn [send_loop].
  specialize (IH (str_drop n (String x data))). by destruct (send_loop l _).
Qed.

(** The bytes the system takes, one call after the other *)
Fixpoint taken (l : list (sys nat)) : nat :=
  match l with
  | [] => 0
  | Done n :: l => n + taken l
  | _ :: l => taken l
  end.
Definition never_fails {A} (l : list (sys A)) : Prop :=
  Forall (fun r => match r with Failure _ => False | _ => True end) l.

Lemma send_loop_all l data : never_fails l -> len data <= taken l ->
  send_loop l data = (data, Some (Ok tt)).
Proof.
  intros Hl. revert data. induction Hl as [|r l Hr _ IH]; intros [|x data] H; try done; [cbn in H; lia|].
  destruct r as [|t|n]; [by apply IH|done|]. cbn [send_loop taken] in *.
  rewrite IH by (rewrite str_drop_length; lia). by rewrite str_take_drop.
Qed.

Lemma feed_ends p d : feed p d <> Fuel.
Proof.
  unfold HttpClient.feed. apply obind_not_fuel.
  - destruct (parsedHeaders p); [done|apply read_head_ends].
  - intros [[h [|]] data]; [|done]. apply obind_not_fuel; [|done].
    unfold read_body. destruct (chunkedResponse h); [apply read_chunks_ends|done].
Qed.
Lemma recv_loop_ends l p : recv_loop can_reserve l p <> Some Fuel.
Proof.
  revert p. induction l as [|r l IH]; intros p; [done|]. destruct r as [|t|s]; [apply IH|done|].
  destruct s as [|c s]; [done|]. cbn [recv_loop]. pose proof (feed_ends p (String c s)) as Hf.
  destruct (feed p _) as [[p' [|]]| | |]; done.
Qed.

(** ** A whole request *)

(** The network finds the peer, connects, and takes the bytes it is offered in
    as many calls as it likes. *)
Record serves (n : network) (r : Request) (data : string) : Prop := {
  serves_address : getaddrinfo n (c_str (domain r)) (c_str (port r)) (internetProtocol r) = Done tt;
  serves_socket : socket n = Done tt;
  serves_connect : socket_connect (connect n) = Some (Ok tt);
  serves_sends : never_fails (sends n);
  serves_takes : len data <= taken (sends n)
}.

Lemma send_served r method text hs n first code rhs frame wire reply :
  scheme r = "http" -> serves n r (request_data r method text hs) ->
  status_ok first code -> framed_by frame rhs ->
  framed frame wire reply -> arriving (recvs n) ->
  arrived (recvs n) = head_text first rhs +:+ wire ->
  send can_reserve r method text hs n =
  (request_data r method text hs,
   Some (Ok {| status := code; headers := rhs; body := reply |})).
Proof.
  intros Hs [Ha Hso Hc Hf Ht] H1 H2 H4 H5 H6. unfold send. rewrite Hs. cbn [String.eqb Ascii.eqb].
  change (negb (String.eqb "http" "http")) with false. cbv iota. rewrite Ha. cbn [once obind].
  rewrite Hso. cbn [once]. rewrite Hc, send_loop_all by done.
  by rewrite (read_framed _ _ _ _ _ _ _ H1 H2 H4 H5 H6).
Qed.

Lemma send_cases r method text hs n :
  let '(sent, result) := send can_reserve r method text hs n in
  (exists rest, request_data r method text hs = sent +:+ rest) /\
  (forall resp, result = Some (Ok resp) -> sent = request_data r method text hs) /\
  result <> Some Fuel.
Proof.
  unfold send. set (data := request_data r method text hs).
  assert (exists rest, data = EmptyString +:+ rest) as H0 by (by exists data).
  destruct (negb _); [by repeat split|].
  assert (forall o, once (match o with (x, _) => x end) (snd o) <> Fuel) as Ho
    by (intros [x [| |]]; done).
  destruct (let? _ := once _ _ in once _ _) as [[]|e| |] eqn:E; try (by repeat split).
  - destruct (socket_connect (connect n)) as [[[]|e| |]|] eqn:Ec; try (by repeat split).
    + destruct (send_loop_prefix (sends n) data) as (rest & Er & Hr).
      destruct (send_loop_ends (sends n) data) as [H1 _].
      destruct (send_loop (sends n) data) as [sent [[[]|e| |]|]]; cbn [fst snd] in *;
        try (by repeat split; try by exists rest).
      repeat split; [by exists rest| |apply recv_loop_ends].
      intros resp _. by rewrite Er, (Hr eq_refl), sapp_nil_r.
    + exfalso. revert Ec. generalize (connect n). intros l. by induction l as [|[| |] l IH].
  - exfalso. revert E. destruct (once _ _) eqn:E1; try done; cbn [obind]; intros E.
    + by eapply (Ho (_, _)).
    + by eapply (Ho (_, _)).
Qed.
End reading.

(** ** Addresses *)

Lemma find_char_app c a b : find_char c a = None -> find_char c (a +:+ String c b) = Some (len a).
Proof.
  induction a as [|d a IH]; cbn; [by rewrite Ascii.eqb_refl|].
  destruct (Ascii.eqb d c); [done|]. destruct (find_char c a); [done|]. intros _. by rewrite IH.
Qed.
Lemma find_char_none c a b : find_char c a = None -> find_char c b = None -> find_char c (a +:+ b) = None.
Proof.
  intros Ha Hb. induction a as [|d a IH]; cbn in *; [done|].
  destruct (Ascii.eqb d c); [done|]. destruct (find_char c a); [done|]. by rewrite IH.
Qed.

(** A host and a port that can be written in an address *)
Definition host_ok (host : string) : Prop :=
  find_char ":" host = None /\ find_char "/" host = None /\ find_char "#" host = None /\
  no_nul host = true.
Definition port_ok (p : string) : Prop :=
  find_char "/" p = None /\ find_char "#" p = None /\ no_nul p = true.
Definition address (host p : string) : string := "http://" +:+ host +:+ ":" +:+ p.

Lemma make_address host p page : host_ok host -> port_ok p -> find_char "#" page = None ->
  make_Request (address host p +:+ String "/" page) V4 =
  {| internetProtocol := V4; scheme := "http"; domain := host; port := p; path := String "/" page |}.
Proof.
  intros (H1 & H2 & H3 & _) (P1 & P2 & _) Hpage. unfold make_Request, address. rewrite !sapp_assoc.
  change (find_sub "://" ("http://" +:+ host +:+ ":" +:+ p +:+ String "/" page)) with (Some 4).
  cbv beta iota zeta.
  change (str_take 4 ("http://" +:+ host +:+ ":" +:+ p +:+ String "/" page)) with "http".
  change (str_drop (4 + 3) ("http://" +:+ host +:+ ":" +:+ p +:+ String "/" page))
    with (host +:+ ":" +:+ p +:+ String "/" page).
  assert (find_char "#" (host +:+ ":" +:+ p +:+ String "/" page) = None) as ->.
  { apply find_char_none; [done|]. apply (find_char_none _ ":"); [done|].
    apply find_char_none; [done|]. apply (find_char_none _ "/"); done. }
  cbn [substr0]. rewrite <- !sapp_assoc.
  rewrite find_char_app by (apply find_char_none; [apply find_char_none|]; done).
  rewrite str_take_app, str_drop_app, sapp_assoc. change (":" +:+ p) with (String ":" p).
  rewrite find_char_app, str_take_app by done.
  replace (len host + 1) with (len (host +:+ ":")) by (rewrite slength_app; done).
  replace (host +:+ String ":" p) with ((host +:+ ":") +:+ p) by (by rewrite sapp_assoc).
  by rewrite str_drop_app.
Qed.

(** ** Encoded text *)

(** Every character begins with a byte that says how long it is. *)
Fixpoint characters (pending : nat) (s : string) : bool :=
  match s with
  | EmptyString => true
  | String c s =>
      match pending with
      | S pending => characters pending s
      | O => match lead_length (byte c) with Some n => characters (n - 1) s | None => false end
      end
  end.

Lemma decode_percent c r : uri_decode (percent c +:+ r) = String c (uri_decode r).
Proof. by destruct c as [[] [] [] [] [] [] [] []]. Qed.
Lemma decode_unreserved c r : unreserved (byte c) = true -> uri_decode (String c r) = String c (uri_decode r).
Proof. by destruct c as [[] [] [] [] [] [] [] []]. Qed.
Lemma unreserved_lead c : unreserved (byte c) = true -> lead_length (byte c) = Some 1.
Proof. by destruct c as [[] [] [] [] [] [] [] []]. Qed.

Lemma encode_decode pending s : characters pending s = true -> uri_decode (encode_loop pending s) = s.
Proof.
  revert pending. induction s as [|c s IH]; intros pending; [done|].
  destruct pending as [|n]; cbn [characters encode_loop]; intros H.
  - destruct (unreserved (byte c)) eqn:Eu.
    + rewrite (unreserved_lead _ Eu) in H. by rewrite decode_unreserved, IH.
    + destruct (lead_length (byte c)) as [n|]; [|done]. by rewrite decode_percent, IH.
  - by rewrite decode_percent, IH.
Qed.

(** ** What the program relies on *)

(** C26. The response loop: however [recv] cuts a response into pieces, and
    however often it is interrupted, the loop that reads the response is left
    with the status, the headers and the body the server framed, by its length
    or in chunks.  The header that frames the body may be anywhere among the
    others. *)
Theorem response_in_pieces (can_reserve : Z -> bool) l first code hs frame wire text :
  status_ok first code -> framed_by frame hs -> framed can_reserve frame wire text ->
  arriving l -> arrived l = head_text first hs +:+ wire ->
  recv_loop can_reserve l start_reader =
  Some (Ok {| status := code; headers := hs; body := text |}).
Proof. apply read_framed. Qed.

(** [Request::send] on any network: what the peer is sent is the beginning
    of the request, and all of it when a response is returned; the loops that
    read the response end on any bytes. *)
Theorem send_in_order (can_reserve : Z -> bool) r method text hs n :
  let '(sent, result) := send can_reserve r method text hs n in
  (exists rest, request_data r method text hs = sent +:+ rest) /\
  (forall resp, result = Some (Ok resp) -> sent = request_data r method text hs) /\
  result <> Some Fuel.
Proof. apply send_cases. Qed.

(** [urlEncode] and the server's [uri_decode]: text whose characters each
    begin with a byte that gives their length comes back as it was. *)
Theorem urlEncode_decoded s : characters 0 s = true -> uri_decode (urlEncode s) = s.
Proof. apply encode_decode. Qed.

(** C27. A change on its way to the logger: [putRequest] publishes the change,
    with exactly one POST, to [/putjson] of the logger; on a network that serves
    it the logger is sent that request, byte for byte, with the key and the
    value in its body, and the program prints the body of the answer, however
    the bytes are cut on the way. *)
Theorem put_logged (can_reserve : Z -> bool) `{plat : Platform} {R : RocksDB} (w : world)
    key value host p n first code hs frame wire reply :
  hasLogger (cfg w) = true -> c_str (loggerUrl (cfg w)) = address host p ->
  host_ok host -> port_ok p ->
  let url := address host p +:+ "/putjson" in
  let r := {| internetProtocol := V4; scheme := "http"; domain := host; port := p;
              path := "/putjson" |} in
  let data := request_data r "POST" (http_body key value) ["Content-Type: application/json"] in
  serves n r data ->
  status_ok first code -> framed_by frame hs ->
  framed can_reserve frame wire reply -> arriving (recvs n) ->
  arrived (recvs n) = head_text first hs +:+ wire ->
  exists w', putRequest key value w = (Ok tt, w') /\
    events w' = events w ++ message_sent (cfg w) value key "put"
                         ++ [EvHttpPost url (http_body key value)] /\
    post_to can_reserve url (http_body key value) n = (data, Some (Ok (Body reply))).
Proof.
  intros Hlog Hurl Hh Hp url r data Hn H1 H2 H4 H5 H6.
  assert (no_nul url = true) as Hnul.
  { unfold url, address. destruct Hh as (_ & _ & _ & Hh), Hp as (_ & _ & Hp).
    by rewrite !no_nul_app, Hh, Hp. }
  destruct (putRequest_effect key value w) as (w' & Hr & _ & _ & _ & _ & He).
  exists w'. split_and!; [done| |].
  - rewrite He. unfold put_published. rewrite Hlog, Hurl. fold url. by rewrite c_str_id.
  - unfold post_to, url. change "/putjson" with (String "/" "putjson").
    rewrite make_address by done. fold r. unfold print_reply.
    by rewrite (send_served can_reserve r "POST" (http_body key value) _ n first code hs frame wire reply).
Qed.

(** ** Concrete runs *)

Section client_witnesses.

(** A response in chunks, cut in the middle of lines and of chunks *)
Definition wiki_chunks : list (string * string) := [("4", "Wiki"); ("5;x=1", "pedia")].
Definition wiki_pieces : list (sys string) := [
  Done "HTTP/1.1 20"; Interrupted; Done ("0 OK" +:+ CRLF +:+ "Server: crow" +:+ String CR EmptyString);
  Done (String LF "Transfer-Enc"); Done ("oding: chunked" +:+ CRLF +:+ "Date: Mon, 01");
  Done (" Jan 10:00:00" +:+ CRLF +:+ CRLF +:+ "4" +:+ CRLF +:+ "Wi");
  Done ("ki" +:+ String CR EmptyString); Interrupted; Done (String LF "5;x=1" +:+ CRLF +:+ "pedia" +:+ CRLF +:+ "0");
  Done CRLF; Done CRLF].
Definition room (n : Z) : bool := (n <? 1000000)%Z.

Theorem response_in_pieces_witness :
  recv_loop room wiki_pieces start_reader =
  Some (Ok {| status := 200; body := "Wikipedia";
              headers := ["Server: crow"; "Transfer-Encoding: chunked"; "Date: Mon, 01 Jan 10:00:00"] |}).
Proof.
  apply (response_in_pieces room wiki_pieces "HTTP/1.1 200 OK" 200 _
    "Transfer-Encoding: chunked" (chunks_text wiki_chunks "0" +:+ CRLF) "Wikipedia").
  - by split.
  - split; [by repeat constructor|]. exists ["Server: crow"], ["Date: Mon, 01 Jan 10:00:00"].
    split; [reflexivity|]. repeat (constructor; [by split; [repeat constructor|]|]). constructor.
  - apply (framed_chunks room wiki_chunks "0" CRLF); [|by split].
    repeat (constructor; [by split_and!|]). constructor.
  - by repeat constructor.
  - reflexivity.
Defined.

Theorem urlEncode_decoded_witness :
  urlEncode "caf+ 1" = "caf%2B%201" /\ uri_decode (urlEncode "caf+ 1") = "caf+ 1".
Proof. split; [reflexivity|]. apply (urlEncode_decoded "caf+ 1"). reflexivity. Defined.

Import Demo.

Definition logger_world : world :=
  set_config (set_urls "" (address "logger" "18080") "" "" "" "" "" "" (cfg w)) w.
Definition logger_request : Request := {| internetProtocol := V4; scheme := "http"; domain := "logger";
  port := "18080"; path := "/putjson" |}.
Definition logger_data : string :=
  request_data logger_request "POST" (http_body "k" "1") ["Content-Type: application/json"].

(** A network that takes the request in four calls and answers with five bytes *)
Definition logger_network : network := {|
  getaddrinfo := fun _ _ _ => Done tt; socket := Done tt; connect := [Interrupted; Done tt];
  sends := [Done 3; Interrupted; Done 70; Done 30; Done 200];
  recvs := [Done ("HTTP/1.1 200 OK" +:+ CRLF +:+ "Content-Length: 5" +:+ CRLF +:+
    "Server: Crow/0.1" +:+ CRLF +:+ "Date: Mon, 01 Jan 10:00:00" +:+ CRLF +:+ CRLF +:+ "he"); Done "llo"] |}.

Theorem put_logged_witness :
  exists w', putRequest "k" "1" logger_world = (Ok tt, w') /\
    events w' = [EvWrite (q "{`value`:`1`,`key`:`k`,`action`:`put`}" +:+ String NUL EmptyString);
                 EvHttpPost "http://logger:18080/putjson" (q "{`key`:`k`, `value`:1}")] /\
    post_to room "http://logger:18080/putjson" (http_body "k" "1") logger_network
    = (logger_data, Some (Ok (Body "hello"))).
Proof.
  refine (put_logged room logger_world "k" "1" "logger" "18080" logger_network "HTTP/1.1 200 OK" 200
    [length_line 5; "Server: Crow/0.1"; "Date: Mon, 01 Jan 10:00:00"]
    (length_line 5) "hello" "hello" _ _ _ _ _ _ _ _ _ _); try reflexivity.
  - by split_and!.
  - by split_and!.
  - split; try reflexivity; [by repeat constructor|vm_compute; lia].
  - by split.
  - split; [by repeat constructor|].
    exists [], ["Server: Crow/0.1"; "Date: Mon, 01 Jan 10:00:00"]. split; [reflexivity|].
    repeat (constructor; [by split; [repeat constructor|]|]). constructor.
  - apply (framed_length room "hello"); [vm_compute; discriminate|reflexivity].
  - by repeat constructor.
Defined.
End client_witnesses.
