(* ===== verification/WsClient.v ===== *)
(** * The web socket client

    src/src/easywsclient.cpp: a connection of the client with its buffers, the
    frames it sends and the dispatch of the frames it receives, [poll], and the
    opening of a connection from a URL.  Bytes are characters; sizes of messages
    are unsigned 64-bit integers.  What the system does with a call of [recv] or
    [send] is a script.  A callback only takes its message. *)

From S2P Require Import Prelude.
Local Open Scope quarks_scope.

Abbreviation len := String.length.

(** ** State *)

Inductive readyStateValues := CLOSING | CLOSED | CONNECTING | OPEN.

#[export] Instance readyState_eq_dec : EqDecision readyStateValues.
Proof. solve_decision. Defined.

Record websocket := {
  rxbuf : string;
  txbuf : string;
  receivedData : string;
  readyState : readyStateValues;
  useMask : bool;
  isRxBad : bool
}.

(** [_RealWebSocket(sockfd, useMask)] *)
Definition new_socket (useMask : bool) : websocket := {|
  rxbuf := EmptyString; txbuf := EmptyString; receivedData := EmptyString;
  readyState := OPEN; useMask := useMask; isRxBad := false |}.

Definition set_rx (s : string) (w : websocket) : websocket := {|
  rxbuf := s; txbuf := txbuf w; receivedData := receivedData w; readyState := readyState w;
  useMask := useMask w; isRxBad := isRxBad w |}.
Definition set_tx (s : string) (w : websocket) : websocket := {|
  rxbuf := rxbuf w; txbuf := s; receivedData := receivedData w; readyState := readyState w;
  useMask := useMask w; isRxBad := isRxBad w |}.
Definition set_received (s : string) (w : websocket) : websocket := {|
  rxbuf := rxbuf w; txbuf := txbuf w; receivedData := s; readyState := readyState w;
  useMask := useMask w; isRxBad := isRxBad w |}.
Definition set_ready (r : readyStateValues) (w : websocket) : websocket := {|
  rxbuf := rxbuf w; txbuf := txbuf w; receivedData := receivedData w; readyState := r;
  useMask := useMask w; isRxBad := isRxBad w |}.
Definition set_bad (w : websocket) : websocket := {|
  rxbuf := rxbuf w; txbuf := txbuf w; receivedData := receivedData w; readyState := readyState w;
  useMask := useMask w; isRxBad := true |}.

Definition is_open (w : websocket) : bool :=
  negb (bool_decide (readyState w = CLOSING) || bool_decide (readyState w = CLOSED)).

(** ** Bytes *)

Definition byte_at (s : string) (i : nat) : Z :=
  match String.get i s with Some c => byte c | None => 0 end.

Fixpoint of_bytes (l : list Z) : string :=
  match l with [] => EmptyString | b :: l => String (of_byte b) (of_bytes l) end.

(** [s\[j\] ^= masking_key\[(i + j) & 0x3\]] for all its bytes *)
Fixpoint mask_from (i : Z) (key : list Z) (s : string) : string :=
  match s with
  | EmptyString => EmptyString
  | String c s =>
      String (of_byte (Z.lxor (byte c) (nth (Z.to_nat (Z.land i 0x3)) key 0%Z))) (mask_from (i + 1) key s)
  end.
Definition masked (key : list Z) (s : string) : string := mask_from 0 key s.

(** ** Sending *)

(** [opcode_type]; any four bits can be received *)
Definition CONTINUATION : Z := 0x0.
Definition TEXT_FRAME : Z := 0x1.
Definition BINARY_FRAME : Z := 0x2.
Definition CLOSE : Z := 0x8.
Definition PING : Z := 0x9.
Definition PONG : Z := 0xa.

Definition masking_key : list Z := [0x12; 0x34; 0x56; 0x78]%Z.

(** [(message_size >> s) & 0xff] *)
Definition size_byte (message_size s : Z) : Z := Z.land (Z.shiftr message_size s) 0xff.

Definition frame_header (useMask : bool) (type message_size : Z) : list Z :=
  let m := (if useMask then 0x80 else 0)%Z in
  Z.lor 0x80 type ::
  (if (message_size <? 126)%Z then [Z.lor (Z.land message_size 0xff) m]
   else if (message_size <? 65536)%Z then
     [Z.lor 126 m; size_byte message_size 8; size_byte message_size 0]
   else
     [Z.lor 127 m; size_byte message_size 56; size_byte message_size 48; size_byte message_size 40;
      size_byte message_size 32; size_byte message_size 24; size_byte message_size 16;
      size_byte message_size 8; size_byte message_size 0]) ++
  (if useMask then masking_key else []).

Definition sendData (type : Z) (message : string) (w : websocket) : websocket :=
  if is_open w then
    set_tx (txbuf w +:+ of_bytes (frame_header (useMask w) type (Z.of_nat (len message))) +:+
            (if useMask w then masked masking_key message else message)) w
  else w.

Definition sendPing (w : websocket) : websocket := sendData PING EmptyString w.
Definition send (message : string) (w : websocket) : websocket := sendData TEXT_FRAME message w.
Definition sendBinary (message : string) (w : websocket) : websocket := sendData BINARY_FRAME message w.

Definition closeFrame : list Z := [0x88; 0x80; 0x00; 0x00; 0x00; 0x00]%Z.
Definition close (w : websocket) : websocket :=
  if is_open w then set_tx (txbuf w +:+ of_bytes closeFrame) (set_ready CLOSING w) else w.

(** ** Receiving *)

Record wsheader_type := {
  header_size : nat;
  fin : bool;
  mask : bool;
  opcode : Z;
  N0 : Z;
  N : Z;
  key : list Z
}.

(** [N |= ((uint64_t) data\[..\]) << ..] over two and over eight bytes *)
Definition size16 (d : nat -> Z) : Z := Z.lor (Z.shiftl (d 2%nat) 8) (Z.shiftl (d 3%nat) 0).
Definition size64 (d : nat -> Z) : Z :=
  Z.lor (Z.lor (Z.lor (Z.lor (Z.lor (Z.lor (Z.lor
    (Z.shiftl (d 2%nat) 56) (Z.shiftl (d 3%nat) 48)) (Z.shiftl (d 4%nat) 40)) (Z.shiftl (d 5%nat) 32))
    (Z.shiftl (d 6%nat) 24)) (Z.shiftl (d 7%nat) 16)) (Z.shiftl (d 8%nat) 8)) (Z.shiftl (d 9%nat) 0).

(** The header at the front of [rxbuf], when all of it has arrived *)
Definition read_header (rx : string) : option wsheader_type :=
  if (len rx <? 2)%nat then None
  else
    let d := byte_at rx in
    let mask := (Z.land (d 1%nat) 0x80 =? 0x80)%Z in
    let N0 := Z.land (d 1%nat) 0x7f in
    let i := (if (N0 <? 126)%Z then 2 else if (N0 =? 126)%Z then 4 else 10)%nat in
    let header_size := (i + (if mask then 4 else 0))%nat in
    if (len rx <? header_size)%nat then None
    else Some {|
      header_size := header_size;
      fin := (Z.land (d 0%nat) 0x80 =? 0x80)%Z;
      mask := mask;
      opcode := Z.land (d 0%nat) 0x0f;
      N0 := N0;
      N := if (N0 <? 126)%Z then N0 else if (N0 =? 126)%Z then size16 d else size64 d;
      key := if mask then [d i; d (i + 1)%nat; d (i + 2)%nat; d (i + 3)%nat] else [0; 0; 0; 0]%Z |}.

(** One turn of the loop of [_dispatchBinary]: nothing to do yet, the end for
    good, or a frame taken with the message it completes *)
Inductive turn := Wait | Stop (w : websocket) | Took (w : websocket) (message : option string).

(** What a whole frame does *)
Definition take_frame (opcode : Z) (fin : bool) (payload : string) (w : websocket) : websocket * option string :=
  if (opcode =? TEXT_FRAME)%Z || (opcode =? BINARY_FRAME)%Z || (opcode =? CONTINUATION)%Z then
    let received := receivedData w +:+ payload in
    if fin then (set_received EmptyString w, Some received) else (set_received received w, None)
  else if (opcode =? PING)%Z then (sendData PONG payload w, None)
  else if (opcode =? PONG)%Z then (w, None)
  else (close w, None).

Definition dispatch_turn (w : websocket) : turn :=
  match read_header (rxbuf w) with
  | None => Wait
  | Some ws =>
      if (N0 ws =? 127)%Z && negb (Z.land (N ws) 0x8000000000000000 =? 0)%Z
      then Stop (close (set_bad w))
      else if (Z.of_nat (len (rxbuf w)) <? Z.of_nat (header_size ws) + N ws)%Z then Wait
      else
        let data := str_take (Z.to_nat (N ws)) (str_drop (header_size ws) (rxbuf w)) in
        let payload := if mask ws then masked (key ws) data else data in
        let '(w', message) := take_frame (opcode ws) (fin ws) payload w in
        Took (set_rx (str_drop (header_size ws + Z.to_nat (N ws)) (rxbuf w)) w') message
  end.

(** [_dispatchBinary]: the messages handed to the callback.  A frame has two
    bytes at least. *)
Fixpoint dispatch_loop (fuel : nat) (w : websocket) : outcome (list string * websocket) :=
  match fuel with
  | O => Fuel
  | S fuel =>
      match dispatch_turn w with
      | Wait => Ok ([], w)
      | Stop w => Ok ([], w)
      | Took w message =>
          let? r := dispatch_loop fuel w in Ok (option_list message ++ r.1, r.2)
      end
  end.
Definition dispatchBinary (w : websocket) : outcome (list string * websocket) :=
  if isRxBad w then Ok ([], w) else dispatch_loop (S (len (rxbuf w))) w.

(** ** [poll] *)

(** A call of [recv] or [send]: it would block, it fails, or it returns with the
    bytes it gives (at most 1500) or the number it takes; none at all means that
    the connection is closed.  A script that is over blocks. *)
Inductive call (A : Type) := WouldBlock | Fails | Gives (a : A).
Arguments WouldBlock {A}.
Arguments Fails {A}.
Arguments Gives {A} a.

Fixpoint recv_calls (l : list (call string)) (w : websocket) : websocket :=
  match l with
  | Gives EmptyString :: _ | Fails :: _ => set_ready CLOSED w
  | Gives bytes :: l => recv_calls l (set_rx (rxbuf w +:+ bytes) w)
  | WouldBlock :: _ | [] => w
  end.

(** The bytes the system takes, and the connection after *)
Fixpoint send_calls (l : list (call nat)) (w : websocket) : string * websocket :=
  match txbuf w with
  | EmptyString => (EmptyString, w)
  | _ =>
      match l with
      | Gives 0%nat :: _ | Fails :: _ => (EmptyString, set_ready CLOSED w)
      | Gives n :: l =>
          let '(sent, w') := send_calls l (set_tx (str_drop n (txbuf w)) w) in
          (str_take n (txbuf w) +:+ sent, w')
      | WouldBlock :: _ | [] => (EmptyString, w)
      end
  end.

Definition poll (recvs : list (call string)) (sends : list (call nat)) (w : websocket) : string * websocket :=
  if bool_decide (readyState w = CLOSED) then (EmptyString, w)
  else
    let '(sent, w) := send_calls sends (recv_calls recvs w) in
    (sent, match txbuf w with
           | EmptyString => if bool_decide (readyState w = CLOSING) then set_ready CLOSED w else w
           | _ => w
           end).

(** ** The frames of RFC 6455, and what a stream of them means *)

(** The form of a size: in seven bits, in two bytes or in eight *)
Inductive size_form := Seven | Sixteen | SixtyFour.

Record frame := {
  f_fin : bool;
  f_opcode : Z;
  f_form : size_form;
  f_key : option (list Z);
  f_data : string
}.

Definition f_size (f : frame) : Z := Z.of_nat (len (f_data f)).

Definition form_code (form : size_form) (n : Z) : Z :=
  match form with Seven => n | Sixteen => 126 | SixtyFour => 127 end.
Definition form_bytes (form : size_form) (n : Z) : list Z :=
  match form with
  | Seven => []
  | Sixteen => map (size_byte n) [8; 0]%Z
  | SixtyFour => map (size_byte n) [56; 48; 40; 32; 24; 16; 8; 0]%Z
  end.
Definition form_limit (form : size_form) : Z :=
  match form with Seven => 126 | Sixteen => 2 ^ 16 | SixtyFour => 2 ^ 63 end.

Definition frame_head (f : frame) : list Z :=
  Z.lor (if f_fin f then 0x80 else 0) (f_opcode f) ::
  Z.lor (form_code (f_form f) (f_size f)) (match f_key f with Some _ => 0x80 | None => 0 end) ::
  form_bytes (f_form f) (f_size f) ++ default [] (f_key f).

Definition frame_body (f : frame) : string :=
  match f_key f with Some key => masked key (f_data f) | None => f_data f end.

Definition wire (f : frame) : string := of_bytes (frame_head f) +:+ frame_body f.

Definition wires (fs : list frame) : string := foldr (fun f s => wire f +:+ s) EmptyString fs.

Definition key_ok (k : option (list Z)) : Prop :=
  match k with Some k => length k = 4 /\ Forall (fun b => (0 <= b < 256)%Z) k | None => True end.

(** Four bits of opcode, a size of the form that names it, a key of four bytes *)
Definition frame_ok (f : frame) : Prop :=
  (0 <= f_opcode f < 16)%Z /\ (f_size f < form_limit (f_form f))%Z /\ key_ok (f_key f).

Definition carries_data (f : frame) : bool := (f_opcode f <=? 2)%Z.
Definition is_ping (f : frame) : bool := (f_opcode f =? PING)%Z.
(** A close, or an opcode that is not used *)
Definition ends_stream (f : frame) : bool := negb (carries_data f || is_ping f || (f_opcode f =? PONG)%Z).

(** The messages, the pieces of one put together, after the pieces [acc] *)
Fixpoint messages (acc : string) (fs : list frame) : list string :=
  match fs with
  | [] => []
  | f :: fs =>
      if carries_data f then
        if f_fin f then (acc +:+ f_data f) :: messages EmptyString fs else messages (acc +:+ f_data f) fs
      else messages acc fs
  end.
Fixpoint unfinished (acc : string) (fs : list frame) : string :=
  match fs with
  | [] => acc
  | f :: fs =>
      unfinished (if carries_data f then if f_fin f then EmptyString else acc +:+ f_data f else acc) fs
  end.

(** The frame this side makes *)
Definition size_form_of (n : Z) : size_form :=
  if (n <? 126)%Z then Seven else if (n <? 2 ^ 16)%Z then Sixteen else SixtyFour.
Definition own_frame (useMask : bool) (opcode : Z) (data : string) : frame := {|
  f_fin := true;
  f_opcode := opcode;
  f_form := size_form_of (Z.of_nat (len data));
  f_key := if useMask then Some masking_key else None;
  f_data := data |}.

(** A pong for every ping, up to the end of the stream *)
Fixpoint answers (useMask : bool) (fs : list frame) : string :=
  match fs with
  | [] => EmptyString
  | f :: fs =>
      if ends_stream f then of_bytes closeFrame
      else if is_ping f then wire (own_frame useMask PONG (f_data f)) +:+ answers useMask fs
      else answers useMask fs
  end.

(** ** The connection over time *)

(** What comes in between: the calls of [recv] of a [poll], a dispatch *)
Inductive event := Receives (l : list (call string)) | Dispatches.

Fixpoint run (es : list event) (w : websocket) : outcome (list string * websocket) :=
  match es with
  | [] => Ok ([], w)
  | Receives l :: es => run es (recv_calls l w)
  | Dispatches :: es =>
      let? r := dispatchBinary w in
      let? r' := run es r.2 in
      Ok (r.1 ++ r'.1, r'.2)
  end.

(** The bytes that calls of [recv] give; calls that do not fail *)
Fixpoint given (l : list (call string)) : string :=
  match l with Gives b :: l => b +:+ given l | _ => EmptyString end.
Definition never_fails (l : list (call string)) : bool :=
  forallb (fun c => match c with Fails | Gives EmptyString => false | _ => true end) l.
Definition arrived (es : list event) : string :=
  foldr (fun e s => match e with Receives l => given l +:+ s | Dispatches => s end) EmptyString es.
Definition undisturbed (es : list event) : bool :=
  forallb (fun e => match e with Receives l => never_fails l | Dispatches => true end) es.

(** One end of a connection, with what its user does *)
Inductive action := Text (message : string) | Binary (message : string) | Ping |
  Poll (recvs : list (call string)) (sends : list (call nat)) | Dispatch.

(** The messages given to the callback, the bytes sent, the connection *)
Definition act (a : action) (w : websocket) : outcome (list string * string * websocket) :=
  match a with
  | Text m => Ok ([], EmptyString, send m w)
  | Binary m => Ok ([], EmptyString, sendBinary m w)
  | Ping => Ok ([], EmptyString, sendPing w)
  | Poll recvs sends => let '(sent, w) := poll recvs sends w in Ok ([], sent, w)
  | Dispatch => let? r := dispatchBinary w in Ok (r.1, EmptyString, r.2)
  end.
Fixpoint acts (l : list action) (w : websocket) : outcome (list string * string * websocket) :=
  match l with
  | [] => Ok ([], EmptyString, w)
  | a :: l =>
      let? r := act a w in
      let? r' := acts l r.2 in
      Ok (r.1.1 ++ r'.1.1, r.1.2 +:+ r'.1.2, r'.2)
  end.

Definition sends_fine (l : list (call nat)) : bool :=
  forallb (fun c => match c with Fails | Gives 0%nat => false | _ => true end) l.
Definition polls_fine (l : list action) : bool :=
  forallb (fun a => match a with Poll r s => never_fails r && sends_fine s | _ => true end) l.

(** The user of one end sends, that of the other end only receives *)
Definition sender (a : action) : bool := match a with Dispatch => false | _ => true end.
Definition receiver (a : action) : bool := match a with Poll _ _ | Dispatch => true | _ => false end.
Definition received (l : list action) : string :=
  foldr (fun a s => match a with Poll r _ => given r +:+ s | _ => s end) EmptyString l.
Definition sent_frames (useMask : bool) (l : list action) : list frame :=
  flat_map (fun a =>
    match a with
    | Text m => [own_frame useMask TEXT_FRAME m]
    | Binary m => [own_frame useMask BINARY_FRAME m]
    | Ping => [own_frame useMask PING EmptyString]
    | _ => []
    end) l.
Definition sent_messages (l : list action) : list string :=
  flat_map (fun a => match a with Text m | Binary m => [m] | _ => [] end) l.

(** ** Bits of a byte *)

Lemma code_bits c : (0 <= c < 128)%Z ->
  byte (of_byte (Z.lor c 0x80)) = (c + 128)%Z /\ byte (of_byte (Z.lor c 0)) = c /\
  Z.land (c + 128) 0x80 = 0x80%Z /\ Z.land c 0x80 = 0%Z /\
  Z.land (c + 128) 0x7f = c /\ Z.land c 0x7f = c.
Proof.
  intros H.
  assert (Hall : forallb (fun n : nat => let c := Z.of_nat n in
    (byte (of_byte (Z.lor c 0x80)) =? c + 128)%Z && (byte (of_byte (Z.lor c 0)) =? c)%Z &&
    (Z.land (c + 128) 0x80 =? 0x80)%Z && (Z.land c 0x80 =? 0)%Z &&
    (Z.land (c + 128) 0x7f =? c)%Z && (Z.land c 0x7f =? c)%Z) (seq 0 128) = true) by (by vm_compute).
  rewrite forallb_forall in Hall. specialize (Hall (Z.to_nat c)). rewrite Z2Nat.id in Hall by lia.
  cbv zeta in Hall. rewrite !andb_true_iff, !Z.eqb_eq in Hall.
  destruct Hall as [[[[[-> ->] ->] ->] ->] ->]; [apply in_seq; lia|done].
Qed.

Lemma opcode_bits fin c : (0 <= c < 16)%Z ->
  let d := byte (of_byte (Z.lor (if fin : bool then 0x80 else 0) c)) in
  (Z.land d 0x80 =? 0x80)%Z = fin /\ Z.land d 0x0f = c.
Proof.
  intros H.
  assert (Hall : forallb (fun n : nat => let c := Z.of_nat n in
    let d := byte (of_byte (Z.lor (if fin : bool then 0x80 else 0) c)) in
    eqb (Z.land d 0x80 =? 0x80)%Z fin && (Z.land d 0x0f =? c)%Z) (seq 0 16) = true)
    by (by destruct fin; vm_compute).
  rewrite forallb_forall in Hall. specialize (Hall (Z.to_nat c)). rewrite Z2Nat.id in Hall by lia.
  cbv zeta in Hall. rewrite andb_true_iff, eqb_true_iff, Z.eqb_eq in Hall.
  apply Hall, in_seq. lia.
Qed.

Lemma size_byte_range n s : (0 <= size_byte n s < 256)%Z.
Proof. unfold size_byte. change 0xff%Z with (Z.ones 8). rewrite Z.land_ones by lia. apply Z.mod_pos_bound. lia. Qed.

Lemma byte_of_size_byte n s : byte (of_byte (size_byte n s)) = size_byte n s.
Proof. rewrite byte_of_byte. apply Z.mod_small, size_byte_range. Qed.

(** One more byte of a number that is sent from its high bytes on *)
Lemma lor_byte a b k k' : (0 <= k)%Z -> (k' = k + 8)%Z -> (0 <= b < 256)%Z ->
  Z.lor (Z.shiftl a k') (Z.shiftl b k) = Z.shiftl (a * 256 + b) k.
Proof.
  intros Hk -> Hb. rewrite (Z.add_comm k 8), <- (Z.shiftl_shiftl a 8 k), <- Z.shiftl_lor by lia. f_equal.
  change (a * 256)%Z with (a * 2 ^ 8)%Z. rewrite <- Z.shiftl_mul_pow2 by lia.
  rewrite <- Z.add_lor_land. enough (Z.land (Z.shiftl a 8) b = 0%Z) as -> by lia.
  apply Z.bits_inj'. intros i Hi. rewrite Z.land_spec, Z.bits_0, Z.shiftl_spec by done.
  destruct (Z.ltb_spec i 8); [by rewrite Z.testbit_neg_r by lia|].
  rewrite <- (Z.mod_small b (2 ^ 8)), Z.mod_pow2_bits_high by lia. apply andb_false_r.
Qed.

Lemma size_byte_step n s s' : (0 <= s)%Z -> (s' = s + 8)%Z ->
  (Z.shiftr n s' * 256 + size_byte n s)%Z = Z.shiftr n s.
Proof.
  intros Hs ->. unfold size_byte. change 0xff%Z with (Z.ones 8). rewrite Z.land_ones by lia.
  rewrite <- Z.shiftr_shiftr, (Z.shiftr_div_pow2 _ 8) by lia.
  pose proof (Z.div_mod (Z.shiftr n s) (2 ^ 8)). lia.
Qed.

Lemma size_byte_top n s : (0 <= s)%Z -> (0 <= n < 2 ^ (s + 8))%Z -> size_byte n s = Z.shiftr n s.
Proof.
  intros Hs Hn. rewrite <- (size_byte_step n s (s + 8)) by done. rewrite (Z.shiftr_div_pow2 _ (s + 8)), Z.div_small by lia. lia.
Qed.

Lemma size_join n s s' : (0 <= s)%Z -> (s' = s + 8)%Z ->
  Z.lor (Z.shiftl (Z.shiftr n s') s') (Z.shiftl (size_byte n s) s) = Z.shiftl (Z.shiftr n s) s.
Proof.
  intros Hs Hs'. rewrite (lor_byte _ _ s s') by (done || apply size_byte_range).
  by rewrite (size_byte_step n s s').
Qed.

Lemma size16_bytes n (d : nat -> Z) : (0 <= n < 2 ^ 16)%Z ->
  d 2 = size_byte n 8 -> d 3 = size_byte n 0 -> size16 d = n.
Proof.
  intros Hn E2 E3. unfold size16. rewrite E2, E3, (size_byte_top n 8), size_join by (done || lia).
  by rewrite Z.shiftr_0_r, Z.shiftl_0_r.
Qed.

Lemma size64_bytes n (d : nat -> Z) : (0 <= n < 2 ^ 64)%Z ->
  map (fun i => d (i + 2)) (seq 0 8) = map (size_byte n) [56; 48; 40; 32; 24; 16; 8; 0]%Z -> size64 d = n.
Proof.
  intros Hn [= E2 E3 E4 E5 E6 E7 E8 E9]. unfold size64. rewrite E2, E3, E4, E5, E6, E7, E8, E9.
  rewrite (size_byte_top n 56), !size_join by (done || lia). by rewrite Z.shiftr_0_r, Z.shiftl_0_r.
Qed.

Lemma mask_involutive i key s : mask_from i key (mask_from i key s) = s.
Proof.
  revert i. induction s as [|c s IH]; intros i; [done|]. cbn [mask_from]. rewrite IH. f_equal.
  set (k := nth _ _ _). rewrite byte_of_byte. rewrite <- (of_byte_byte c) at 2. unfold of_byte. f_equal. f_equal.
  change 256%Z with (2 ^ 8)%Z. rewrite <- !Z.land_ones by lia. apply Z.bits_inj'. intros j Hj.
  rewrite !Z.land_spec, !Z.lxor_spec, !Z.land_spec, !Z.lxor_spec.
  by destruct (Z.testbit (byte c) j), (Z.testbit k j), (Z.testbit (Z.ones 8) j).
Qed.

Lemma mask_length i key s : len (mask_from i key s) = len s.
Proof. revert i. induction s as [|c s IH]; intros i; cbn; [done|]. by rewrite IH. Qed.

Lemma byte_at_bytes l rest i : i < length l -> byte_at (of_bytes l +:+ rest) i = byte (of_byte (nth i l 0%Z)).
Proof.
  revert i. induction l as [|b l IH]; intros i Hi; cbn in *; [lia|]. destruct i as [|i]; [done|].
  apply IH. lia.
Qed.

Lemma of_bytes_length l : len (of_bytes l) = length l.
Proof. induction l as [|b l IH]; cbn; [done|]. by rewrite IH. Qed.

Lemma of_bytes_app a b : of_bytes (a ++ b) = of_bytes a +:+ of_bytes b.
Proof. induction a as [|x a IH]; cbn; [done|]. by rewrite IH. Qed.

(** ** A frame that has arrived *)

Definition wire_header (f : frame) : wsheader_type := {|
  header_size := length (frame_head f);
  fin := f_fin f;
  mask := match f_key f with Some _ => true | None => false end;
  opcode := f_opcode f;
  N0 := form_code (f_form f) (f_size f);
  N := f_size f;
  key := default [0; 0; 0; 0]%Z (f_key f) |}.

Lemma form_code_range f : frame_ok f -> (0 <= form_code (f_form f) (f_size f) < 128)%Z.
Proof.
  intros (_ & H & _). unfold f_size in *. destruct (f_form f); cbn [form_code form_limit] in *; lia.
Qed.

Lemma key_bytes k l rest i : key_ok (Some k) -> length l = i ->
  let d := byte_at (of_bytes (l ++ k) +:+ rest) in [d i; d (i + 1); d (i + 2); d (i + 3)] = k.
Proof.
  intros [Hl Hk] <-. destruct k as [|a [|b [|c [|e [|]]]]]; try done.
  cbv zeta. rewrite !byte_at_bytes by (rewrite length_app; cbn; lia).
  rewrite !app_nth2, Nat.sub_diag by lia.
  replace (length l + 1 - length l) with 1 by lia. replace (length l + 2 - length l) with 2 by lia.
  replace (length l + 3 - length l) with 3 by lia. cbn [nth].
  rewrite !Forall_cons in Hk. rewrite !byte_of_byte, !Z.mod_small by tauto. done.
Qed.

(** How many bytes come before the key *)
Definition form_length (form : size_form) : nat := match form with Seven => 2 | Sixteen => 4 | SixtyFour => 10 end.

Lemma head_split f : frame_head f =
  (Z.lor (if f_fin f then 0x80 else 0) (f_opcode f) ::
   Z.lor (form_code (f_form f) (f_size f)) (match f_key f with Some _ => 0x80 | None => 0 end) ::
   form_bytes (f_form f) (f_size f)) ++ default [] (f_key f).
Proof. done. Qed.

Lemma head_length f : frame_ok f ->
  length (frame_head f) = form_length (f_form f) + match f_key f with Some _ => 4 | None => 0 end.
Proof.
  intros (_ & _ & Hk). rewrite head_split, length_app. f_equal; [by destruct (f_form f)|].
  by destruct (f_key f); [destruct Hk|].
Qed.

Lemma head_form f : frame_ok f ->
  let N0 := form_code (f_form f) (f_size f) in
  (if (N0 <? 126)%Z then 2 else if (N0 =? 126)%Z then 4 else 10)%nat = form_length (f_form f).
Proof.
  intros (_ & H & _). cbv zeta. destruct (f_form f); [|done..]. cbn [form_code form_limit form_length] in *.
  by destruct (Z.ltb_spec (f_size f) 126); [|lia].
Qed.

Lemma head_size f tail : frame_ok f ->
  let N0 := form_code (f_form f) (f_size f) in
  let d := byte_at (of_bytes (frame_head f) +:+ tail) in
  (if (N0 <? 126)%Z then N0 else if (N0 =? 126)%Z then size16 d else size64 d)%Z = f_size f.
Proof.
  intros (_ & H & _). cbv zeta. rewrite head_split. unfold f_size in *.
  destruct (f_form f); cbn [form_code form_limit form_bytes] in *.
  - by destruct (Z.ltb_spec (Z.of_nat (len (f_data f))) 126); [|lia].
  - cbn [Z.ltb Z.eqb Z.compare Pos.compare Pos.compare_cont Pos.eqb]. apply size16_bytes; [lia| |];
      cbn [map app of_bytes String.append]; unfold byte_at; cbn [String.get]; apply byte_of_size_byte.
  - cbn [Z.ltb Z.eqb Z.compare Pos.compare Pos.compare_cont Pos.eqb]. apply size64_bytes; [lia|].
    cbn [map seq Nat.add app of_bytes String.append]. unfold byte_at. cbn [String.get].
    by rewrite !byte_of_size_byte.
Qed.

Lemma read_wire f rest : frame_ok f -> read_header (wire f +:+ rest) = Some (wire_header f).
Proof.
  intros Hf. pose proof (form_code_range f Hf) as Hc. pose proof (head_length f Hf) as Hl.
  pose proof (head_size f (frame_body f +:+ rest) Hf) as Hsize. pose proof (head_form f Hf) as Hform.
  destruct (opcode_bits (f_fin f) (f_opcode f) (proj1 Hf)) as [Hfin Hop].
  destruct (code_bits _ Hc) as (E1 & E2 & E3 & E4 & E5 & E6).
  unfold wire. rewrite sapp_assoc. set (tail := frame_body f +:+ rest) in *.
  set (s := of_bytes (frame_head f) +:+ tail) in *.
  assert (Hs : len s = length (frame_head f) + len tail) by (unfold s; by rewrite slength_app, of_bytes_length).
  assert (H0 : byte_at s 0 = byte (of_byte (Z.lor (if f_fin f then 0x80 else 0) (f_opcode f)))) by done.
  assert (H1 : byte_at s 1 = (form_code (f_form f) (f_size f) + match f_key f with Some _ => 128 | None => 0 end)%Z).
  { unfold s. rewrite head_split. unfold byte_at. cbn [app of_bytes String.append String.get].
    destruct (f_key f); [done|]. by rewrite Z.add_0_r. }
  assert (Hm : (Z.land (byte_at s 1) 128 =? 128)%Z = match f_key f with Some _ => true | None => false end).
  { rewrite H1. destruct (f_key f); [by rewrite E3|by rewrite Z.add_0_r, E4]. }
  assert (HN0 : Z.land (byte_at s 1) 127 = form_code (f_form f) (f_size f)).
  { rewrite H1. destruct (f_key f); [done|by rewrite Z.add_0_r]. }
  unfold read_header. cbv zeta in *. rewrite Hm, HN0, Hform, Hsize, H0, Hfin, Hop.
  assert (2 <= form_length (f_form f)) by (destruct (f_form f); cbn; lia).
  destruct (Nat.ltb_spec (len s) 2); [lia|].
  replace (form_length (f_form f) + (if match f_key f with Some _ => true | None => false end then 4 else 0))
    with (length (frame_head f)) by (rewrite Hl; by destruct (f_key f)).
  destruct (Nat.ltb_spec (len s) (length (frame_head f))); [lia|]. unfold wire_header. f_equal. f_equal.
  pose proof (proj2 (proj2 Hf)) as Hk. unfold s in *. clear -Hk. rewrite head_split.
  destruct (f_key f) as [k|]; [|done]. cbn [default]. apply key_bytes; [done|by destruct (f_form f)].
Qed.

Lemma wire_length f : len (wire f) = length (frame_head f) + len (f_data f).
Proof.
  unfold wire, frame_body. rewrite slength_app, of_bytes_length. by destruct (f_key f); [unfold masked; rewrite mask_length|].
Qed.

Lemma payload_read f : (match f_key f with Some k => masked (default [0; 0; 0; 0]%Z (f_key f)) (frame_body f) | None => frame_body f end) = f_data f.
Proof. unfold frame_body, masked. destruct (f_key f); [apply mask_involutive|done]. Qed.

(** A whole frame at the front of what has arrived is taken. *)
Lemma turn_wire f rest w : frame_ok f -> rxbuf w = wire f +:+ rest ->
  dispatch_turn w = Took (set_rx rest (take_frame (f_opcode f) (f_fin f) (f_data f) w).1)
                         (take_frame (f_opcode f) (f_fin f) (f_data f) w).2.
Proof.
  intros Hf Hw. unfold dispatch_turn. rewrite Hw, read_wire by done. cbn [N0 N header_size mask key opcode fin wire_header].
  pose proof (wire_length f) as Hl.
  assert (Hn : (0 <= f_size f < 2 ^ 63)%Z).
  { destruct Hf as (_ & H & _). unfold f_size in *. destruct (f_form f); cbn [form_limit] in H; lia. }
  replace (negb (Z.land (f_size f) 0x8000000000000000 =? 0)%Z) with false.
  2:{ change 0x8000000000000000%Z with (Z.shiftl 1 63). symmetry. apply negb_false_iff, Z.eqb_eq.
      apply Z.bits_inj'. intros i Hi. rewrite Z.land_spec, Z.bits_0, Z.shiftl_spec by done.
      destruct (Z.ltb_spec i 63); [by rewrite (Z.testbit_neg_r 1), andb_false_r by lia|].
      by rewrite <- (Z.mod_small (f_size f) (2 ^ 63)), Z.mod_pow2_bits_high by lia. }
  rewrite andb_false_r. unfold f_size. rewrite slength_app, Hl, Nat2Z.id.
  destruct (Z.ltb_spec (Z.of_nat (length (frame_head f) + len (f_data f) + len rest))
              (Z.of_nat (length (frame_head f)) + Z.of_nat (len (f_data f)))); [lia|].
  rewrite <- Hl, str_drop_app. unfold wire. rewrite sapp_assoc, <- (of_bytes_length (frame_head f)), str_drop_app.
  assert (Hb : len (f_data f) = len (frame_body f)).
  { unfold frame_body, masked. by destruct (f_key f); rewrite ?mask_length. }
  rewrite Hb, str_take_app.
  replace (if match f_key f with Some _ => true | None => false end then masked (default [0; 0; 0; 0]%Z (f_key f)) (frame_body f) else frame_body f)
    with (f_data f) by (rewrite <- payload_read at 1; by destruct (f_key f)).
  by destruct (take_frame _ _ _ w).
Qed.

(** ** Dispatching early *)

Definition grow (x : string) (w : websocket) : websocket := set_rx (rxbuf w +:+ x) w.

Lemma byte_at_app i a b : i < len a -> byte_at (a +:+ b) i = byte_at a i.
Proof.
  unfold byte_at. revert i. induction a as [|c a IH]; intros [|i]; cbn; intros H; try done; [lia..|]. apply IH. lia.
Qed.

Lemma read_header_more rx x h : read_header rx = Some h ->
  read_header (rx +:+ x) = Some h /\ 2 <= header_size h <= len rx /\ (0 <= N h)%Z.
Proof.
  unfold read_header. rewrite slength_app. destruct (Nat.ltb_spec (len rx) 2); [done|].
  destruct (Nat.ltb_spec (len rx + len x) 2); [lia|].
  rewrite (byte_at_app 0), (byte_at_app 1) by lia. cbv zeta.
  set (i := (if (_ <? 126)%Z then 2 else _)%nat). set (m := (_ =? 0x80)%Z).
  destruct (Nat.ltb_spec (len rx) (i + (if m then 4 else 0))); [done|].
  destruct (Nat.ltb_spec (len rx + len x) (i + (if m then 4 else 0))); [lia|].
  assert (Hpos : forall j k, (0 <= Z.shiftl (byte_at rx j) k)%Z).
  { intros j k. apply Z.shiftl_nonneg. unfold byte_at. destruct (String.get j rx); [apply byte_range|done]. }
  intros [= <-]. cbn [header_size N]. split_and!; [|subst i; repeat case_match; lia|done|].
  - f_equal. f_equal.
    + subst i. destruct (_ <? 126)%Z; [done|]. destruct (_ =? 126)%Z; unfold size16, size64; by rewrite !byte_at_app by lia.
    + subst m. case_match; [|done]. by rewrite !byte_at_app by lia.
  - assert (0 <= Z.land (byte_at rx 1) 127)%Z by (apply Z.land_nonneg; by right).
    destruct (_ <? 126)%Z; [done|].
    destruct (_ =? 126)%Z; unfold size16, size64; rewrite !Z.lor_nonneg; repeat split; apply Hpos.
Qed.

Lemma take_frame_grow x op f p w :
  take_frame op f p (grow x w) = (grow x (take_frame op f p w).1, (take_frame op f p w).2).
Proof.
  unfold take_frame, grow, sendData, close, is_open. by repeat (case_match; cbn in *; try done).
Qed.

Lemma take_frame_rx op f p w : rxbuf (take_frame op f p w).1 = rxbuf w /\
  isRxBad (take_frame op f p w).1 = isRxBad w.
Proof. unfold take_frame, sendData, close. by repeat (case_match; cbn in *; try done). Qed.

(** What a turn does does not depend on what comes later. *)
Lemma turn_more x w :
  match dispatch_turn w with
  | Wait => True
  | Stop w' => dispatch_turn (grow x w) = Stop (grow x w') /\ isRxBad w' = true
  | Took w' m => dispatch_turn (grow x w) = Took (grow x w') m /\
      len (rxbuf w') < len (rxbuf w) /\ isRxBad w' = isRxBad w
  end.
Proof.
  unfold dispatch_turn. destruct (read_header (rxbuf w)) as [h|] eqn:E; [|done].
  destruct (read_header_more _ x _ E) as (E' & Hh & HN). cbn [grow rxbuf set_rx]. rewrite E'.
  destruct (_ && _); [split; unfold grow, close, is_open, set_bad; cbn [readyState]; by destruct (negb _)|].
  rewrite slength_app. destruct (Z.ltb_spec (Z.of_nat (len (rxbuf w))) (Z.of_nat (header_size h) + N h)); [done|].
  destruct (Z.ltb_spec (Z.of_nat (len (rxbuf w) + len x)) (Z.of_nat (header_size h) + N h)); [lia|].
  rewrite (str_drop_app_le (header_size h)), str_take_app_le, (str_drop_app_le (_ + _))
    by (rewrite ?str_drop_length; lia).
  set (payload := if mask h then _ else _). fold (grow x w). rewrite take_frame_grow.
  destruct (take_frame_rx (opcode h) (fin h) payload w) as [Hr Hb].
  destruct (take_frame (opcode h) (fin h) payload w) as [w' m]. cbn in *.
  split_and!; [done|rewrite str_drop_length; lia|done].
Qed.

Lemma grow_nil w : grow EmptyString w = w.
Proof. unfold grow. rewrite sapp_nil_r. by destruct w. Qed.
Lemma grow_grow x y w : grow y (grow x w) = grow (x +:+ y) w.
Proof. unfold grow. cbn. by rewrite sapp_assoc. Qed.

Lemma turn_shrinks w w' m : dispatch_turn w = Took w' m -> len (rxbuf w') < len (rxbuf w) /\ isRxBad w' = isRxBad w.
Proof. intros E. pose proof (turn_more EmptyString w) as H. rewrite E in H. tauto. Qed.

Lemma loop_fuel n m w : len (rxbuf w) < n -> len (rxbuf w) < m -> dispatch_loop n w = dispatch_loop m w.
Proof.
  revert m w. induction n as [|n IH]; intros [|m] w Hn Hm; try lia. cbn [dispatch_loop].
  destruct (dispatch_turn w) as [|w'|w' o] eqn:E; [done..|]. apply turn_shrinks in E as [E _].
  by rewrite (IH m) by lia.
Qed.

Lemma dispatch_eq w : isRxBad w = false ->
  dispatchBinary w =
  match dispatch_turn w with
  | Wait => Ok ([], w)
  | Stop w' => Ok ([], w')
  | Took w' m => let? r := dispatchBinary w' in Ok (option_list m ++ r.1, r.2)
  end.
Proof.
  intros Hb. unfold dispatchBinary. rewrite Hb. cbn [dispatch_loop].
  destruct (dispatch_turn w) as [|w'|w' m] eqn:E; [done..|]. apply turn_shrinks in E as [E Hb'].
  rewrite Hb', Hb. by rewrite (loop_fuel (len (rxbuf w)) (S (len (rxbuf w')))) by lia.
Qed.

Lemma dispatch_bad w : isRxBad w = true -> dispatchBinary w = Ok ([], w).
Proof. intros H. unfold dispatchBinary. by rewrite H. Qed.

(** Induction over the turns of a dispatch *)
Lemma dispatch_ind (P : websocket -> Prop) :
  (forall w, isRxBad w = true -> P w) ->
  (forall w, isRxBad w = false -> dispatch_turn w = Wait -> P w) ->
  (forall w w', isRxBad w = false -> dispatch_turn w = Stop w' -> P w) ->
  (forall w w' m, isRxBad w = false -> dispatch_turn w = Took w' m -> P w' -> P w) ->
  forall w, P w.
Proof.
  intros Hbad Hwait Hstop Htook w. remember (len (rxbuf w)) as n eqn:Hn. revert w Hn.
  induction n as [n IH] using lt_wf_ind. intros w ->. destruct (isRxBad w) eqn:Hb; [by apply Hbad|].
  destruct (dispatch_turn w) as [|w'|w' m] eqn:E; [by apply Hwait|by eapply Hstop|].
  eapply Htook; [done..|]. eapply IH; [|done]. by apply turn_shrinks in E as [E _].
Qed.

Lemma dispatch_total w : exists ms w', dispatchBinary w = Ok (ms, w').
Proof.
  induction w as [w Hb|w Hb E|w w' Hb E|w w' m Hb E (ms & w1 & IH)] using dispatch_ind.
  - rewrite dispatch_bad by done. eauto.
  - rewrite dispatch_eq, E by done. eauto.
  - rewrite dispatch_eq, E by done. eauto.
  - rewrite dispatch_eq, E, IH by done. cbn. eauto.
Qed.

(** A dispatch now and one when more has arrived are one dispatch of it all. *)
Lemma dispatch_app x w :
  dispatchBinary (grow x w) =
  (let? r := dispatchBinary w in let? r' := dispatchBinary (grow x r.2) in Ok (r.1 ++ r'.1, r'.2)).
Proof.
  induction w as [w Hb|w Hb E|w w' Hb E|w w' m Hb E IH] using dispatch_ind.
  - rewrite (dispatch_bad w), (dispatch_bad (grow x w)) by done. cbn. by rewrite dispatch_bad.
  - rewrite (dispatch_eq w), E by done. cbn. by destruct (dispatch_total (grow x w)) as (? & ? & ->).
  - pose proof (turn_more x w) as Hm. rewrite E in Hm. destruct Hm as [Hm Hb'].
    rewrite (dispatch_eq w), (dispatch_eq (grow x w)), E, Hm by done. cbn. by rewrite dispatch_bad.
  - pose proof (turn_more x w) as Hm. rewrite E in Hm. destruct Hm as [Hm _].
    rewrite (dispatch_eq w), (dispatch_eq (grow x w)), E, Hm, IH by done.
    destruct (dispatch_total w') as (ms & w1 & ->). cbn.
    destruct (dispatch_total (grow x w1)) as (? & ? & ->). cbn. by rewrite app_assoc.
Qed.

Lemma recv_calls_grow l w : never_fails l = true -> recv_calls l w = grow (given l) w.
Proof.
  revert w. induction l as [|[| |[|c b]] l IH]; intros w H; try done; cbn [recv_calls given]; try (by rewrite grow_nil).
  rewrite IH by done. apply grow_grow.
Qed.

(** Dispatches in between change nothing of what a last one leaves. *)
Lemma run_dispatched es w : undisturbed es = true ->
  run (es ++ [Dispatches]) w = dispatchBinary (grow (arrived es) w).
Proof.
  revert w. induction es as [|[l|] es IH]; intros w H; cbn [run app arrived foldr].
  - rewrite grow_nil. destruct (dispatch_total w) as (? & ? & ->). cbn. by rewrite app_nil_r.
  - cbn in H. apply andb_true_iff in H as [Hl Hes]. fold (arrived es).
    by rewrite recv_calls_grow, IH, grow_grow by done.
  - fold (arrived es). rewrite (dispatch_app (arrived es)). destruct (dispatch_total w) as (? & ? & ->). cbn. by rewrite IH.
Qed.

(** ** Streams of frames *)

Lemma sendData_wire op m w : sendData op m w =
  if is_open w then set_tx (txbuf w +:+ wire (own_frame (useMask w) op m)) w else w.
Proof.
  unfold sendData. destruct (is_open w); [|done]. do 2 f_equal. unfold wire. f_equal; [|by destruct (useMask w)].
  f_equal. unfold frame_header, frame_head, own_frame, size_form_of. cbn [f_fin f_opcode f_form f_key f_data f_size].
  f_equal. unfold f_size. cbn [f_data].
  destruct (Z.ltb_spec (Z.of_nat (len m)) 126).
  - change 0xff%Z with (Z.ones 8). rewrite Z.land_ones, Z.mod_small by lia. by destruct (useMask w).
  - change (2 ^ 16)%Z with 65536%Z. destruct (_ <? 65536)%Z; by destruct (useMask w).
Qed.

Lemma own_frame_ok ma op m : (0 <= op < 16)%Z -> (Z.of_nat (len m) < 2 ^ 63)%Z -> frame_ok (own_frame ma op m).
Proof.
  intros Hop Hm. split; [exact Hop|split].
  - cbn [f_form own_frame]. unfold f_size, size_form_of. cbn [f_data].
    destruct (Z.ltb_spec (Z.of_nat (len m)) 126); [done|]. by destruct (Z.ltb_spec (Z.of_nat (len m)) (2 ^ 16)).
  - destruct ma; [|done]. split; [done|]. by repeat constructor.
Qed.

(** The state a stream of whole frames leads to *)
Definition streamed (fs : list frame) (w : websocket) : websocket := {|
  rxbuf := EmptyString;
  txbuf := txbuf w +:+ (if is_open w then answers (useMask w) fs else EmptyString);
  receivedData := unfinished (receivedData w) fs;
  readyState := if is_open w && existsb ends_stream fs then CLOSING else readyState w;
  useMask := useMask w;
  isRxBad := isRxBad w |}.

Lemma streamed_cons f fs w : frame_ok f ->
  let t := take_frame (f_opcode f) (f_fin f) (f_data f) w in
  option_list t.2 ++ messages (receivedData t.1) fs = messages (receivedData w) (f :: fs) /\
  streamed fs t.1 = streamed (f :: fs) w.
Proof.
  intros (Hop & _). unfold take_frame, streamed. cbn [messages unfinished answers existsb]. unfold ends_stream, is_ping, carries_data.
  assert (Hd : (f_opcode f =? TEXT_FRAME)%Z || (f_opcode f =? BINARY_FRAME)%Z || (f_opcode f =? CONTINUATION)%Z
    = (f_opcode f <=? 2)%Z) by (unfold TEXT_FRAME, BINARY_FRAME, CONTINUATION; lia).
  rewrite Hd. destruct (f_opcode f <=? 2)%Z eqn:E2; cbn [orb negb].
  { assert ((f_opcode f =? PING)%Z = false) as -> by (unfold PING; lia). by destruct (f_fin f). }
  destruct (f_opcode f =? PING)%Z eqn:E9; cbn [orb negb].
  { rewrite sendData_wire. cbn [fst snd option_list]. destruct (is_open w) eqn:Ho; [|by rewrite Ho].
    cbn. unfold is_open in *. cbn. by rewrite Ho, sapp_assoc. }
  destruct (f_opcode f =? PONG)%Z; cbn [orb negb fst snd option_list]; [done|]. unfold close.
  destruct (is_open w) eqn:Ho; cbn; [|by rewrite Ho]. split; [done|].
  change (is_open (set_tx (txbuf w +:+ of_bytes closeFrame) (set_ready CLOSING w))) with false. cbn.
  by rewrite sapp_nil_r.
Qed.

Lemma dispatch_wires fs w : Forall frame_ok fs -> rxbuf w = wires fs -> isRxBad w = false ->
  dispatchBinary w = Ok (messages (receivedData w) fs, streamed fs w).
Proof.
  intros Hfs. revert w. induction Hfs as [|f fs Hf Hfs IH]; intros w Hw Hb; rewrite dispatch_eq by done.
  - assert (dispatch_turn w = Wait) as -> by (unfold dispatch_turn; by rewrite Hw).
    cbn. f_equal. f_equal. destruct w. unfold streamed. cbn in *. by case_match; subst; rewrite sapp_nil_r, ?andb_false_r.
  - rewrite (turn_wire f (wires fs)) by done. destruct (streamed_cons f fs w Hf) as [<- <-].
    destruct (take_frame_rx (f_opcode f) (f_fin f) (f_data f) w) as [_ Hb'].
    set (t := take_frame _ _ _ _) in *. rewrite IH; [done|done|]. cbn. congruence.
Qed.

(** ** Polls in between *)

Definition undo (sent : string) (w : websocket) : websocket := set_tx (sent +:+ txbuf w) w.

Lemma undo_nil w : undo EmptyString w = w.
Proof. by destruct w. Qed.
Lemma undo_undo a b w : undo a (undo b w) = undo (a +:+ b) w.
Proof. unfold undo. cbn. by rewrite sapp_assoc. Qed.
Lemma undo_grow p x w : undo p (grow x w) = grow x (undo p w).
Proof. done. Qed.

Lemma sendData_undo p op m w : sendData op m (undo p w) = undo p (sendData op m w).
Proof. rewrite !sendData_wire. unfold is_open, undo. cbn. case_match; [|done]. cbn. by rewrite sapp_assoc. Qed.

Lemma take_frame_undo x op f p w :
  take_frame op f p (undo x w) = (undo x (take_frame op f p w).1, (take_frame op f p w).2).
Proof.
  unfold take_frame. cbn [receivedData undo set_tx]. rewrite sendData_undo. unfold undo, close, is_open.
  by repeat (case_match; cbn in *; rewrite ?sapp_assoc in *; try done).
Qed.

Lemma turn_undo p w : dispatch_turn (undo p w) =
  match dispatch_turn w with Wait => Wait | Stop w' => Stop (undo p w') | Took w' m => Took (undo p w') m end.
Proof.
  unfold dispatch_turn. cbn [undo rxbuf set_tx]. destruct (read_header (rxbuf w)) as [h|]; [|done].
  case_match; [|case_match; [done|]].
  - unfold close, is_open, undo, set_bad. cbn. by case_match; cbn; rewrite ?sapp_assoc.
  - set (payload := if mask h then _ else _). fold (undo p w). rewrite take_frame_undo.
    by destruct (take_frame (opcode h) (fin h) payload w).
Qed.

Lemma dispatch_undo p w : dispatchBinary (undo p w) = (let? r := dispatchBinary w in Ok (r.1, undo p r.2)).
Proof.
  induction w as [w Hb|w Hb E|w w' Hb E|w w' m Hb E IH] using dispatch_ind.
  - by rewrite !dispatch_bad.
  - by rewrite !dispatch_eq, turn_undo, E.
  - by rewrite !dispatch_eq, turn_undo, E.
  - rewrite !dispatch_eq, turn_undo, E, IH by done. by destruct (dispatch_total w') as (? & ? & ->).
Qed.

Lemma turn_open w : match dispatch_turn w with
  | Wait => True | Stop w' | Took w' _ => readyState w' = OPEN -> readyState w = OPEN end.
Proof.
  unfold dispatch_turn, take_frame, sendData, close, is_open, set_bad. by repeat (case_match; simplify_eq; cbn in *; try done).
Qed.

Lemma dispatch_open w : forall ms w', dispatchBinary w = Ok (ms, w') -> readyState w' = OPEN -> readyState w = OPEN.
Proof.
  induction w as [w Hb|w Hb E|w w1 Hb E|w w1 m Hb E IH] using dispatch_ind; intros ms w' H Ho;
    pose proof (turn_open w) as Ht; try rewrite E in Ht.
  - rewrite dispatch_bad in H by done. by simplify_eq.
  - rewrite dispatch_eq, E in H by done. by simplify_eq.
  - rewrite dispatch_eq, E in H by done. simplify_eq. auto.
  - rewrite dispatch_eq, E in H by done. destruct (dispatch_total w1) as (ms1 & w2 & E1). rewrite E1 in H.
    cbn in H. simplify_eq. eauto.
Qed.

Lemma send_calls_undo l w : sends_fine l = true ->
  undo (send_calls l w).1 (send_calls l w).2 = w /\ readyState (send_calls l w).2 = readyState w.
Proof.
  revert w. induction l as [|[| |[|n]] l IH]; intros w H; try done; cbn [send_calls];
    destruct (txbuf w) as [|c t] eqn:E; try (by rewrite undo_nil).
  specialize (IH (set_tx (str_drop (S n) (String c t)) w) H). cbn [forallb] in H.
  destruct (send_calls l _) as [sent w']. cbn [fst snd] in *. destruct IH as [Hu Hr]. split; [|done].
  rewrite <- undo_undo, Hu. unfold undo. cbn [txbuf set_tx]. rewrite str_take_drop, <- E. by destruct w.
Qed.

Lemma poll_fine r s w : never_fails r = true -> sends_fine s = true -> readyState w = OPEN ->
  undo (poll r s w).1 (poll r s w).2 = grow (given r) w /\ readyState (poll r s w).2 = OPEN.
Proof.
  intros Hr Hs Ho. unfold poll. rewrite Ho, recv_calls_grow by done. cbn [bool_decide].
  destruct (send_calls_undo s (grow (given r) w) Hs) as [Hu Hrs].
  rewrite bool_decide_false by done. destruct (send_calls s _) as [sent w']. cbn [fst snd] in *. rewrite <- Hu.
  cbn [grow readyState set_rx] in Hrs. rewrite Ho in Hrs.
  destruct (txbuf w'); rewrite ?Hrs; cbn [fst snd]; by rewrite ?bool_decide_false.
Qed.

Lemma acts_received l w ms w' : forallb receiver l = true -> polls_fine l = true ->
  dispatchBinary (grow (received l) w) = Ok (ms, w') -> readyState w' = OPEN ->
  exists out w1, acts (l ++ [Dispatch]) w = Ok (ms, out, w1) /\ undo out w1 = w'.
Proof.
  revert w ms w'. induction l as [|[m|m| |r s|] l IH]; intros w ms w' Hl Hp H Ho; try done;
    cbn [received foldr] in H; try fold (received l) in H; cbn [app acts act].
  - rewrite grow_nil in H. rewrite H. cbn. rewrite app_nil_r. eauto using undo_nil.
  - cbn in Hp. rewrite !andb_true_iff in Hp. destruct Hp as [[Hr Hs] Hp].
    assert (readyState w = OPEN) as Hw by (exact (dispatch_open _ _ _ H Ho)).
    destruct (poll_fine r s w Hr Hs Hw) as [Hu Hopen]. destruct (poll r s w) as [sent w1]. cbn [fst snd] in *.
    rewrite <- grow_grow, <- Hu, <- undo_grow, dispatch_undo in H.
    destruct (dispatch_total (grow (received l) w1)) as (ms1 & w2 & E). rewrite E in H. cbn in H. injection H as <- <-.
    destruct (IH w1 ms1 w2 Hl Hp E) as (out & w3 & Ha & Hw3); [done|]. cbn. rewrite Ha. cbn.
    eexists _, _. split; [done|]. by rewrite <- undo_undo, Hw3.
  - rewrite dispatch_app in H. destruct (dispatch_total w) as (ms1 & w1 & E). rewrite E in *. cbn in H.
    destruct (dispatch_total (grow (received l) w1)) as (ms2 & w2 & E2). rewrite E2 in H. cbn in H. injection H as <- <-.
    destruct (IH w1 ms2 w2 Hl Hp E2 Ho) as (out & w3 & Ha & Hw3). cbn. rewrite Ha. cbn. eauto.
Qed.

Lemma sendData_open op m w : readyState w = OPEN ->
  readyState (sendData op m w) = OPEN /\ useMask (sendData op m w) = useMask w /\
  txbuf (sendData op m w) = txbuf w +:+ wire (own_frame (useMask w) op m).
Proof. intros Ho. rewrite sendData_wire. unfold is_open. by rewrite Ho. Qed.

Lemma acts_sent l w : forallb sender l = true -> polls_fine l = true -> readyState w = OPEN ->
  exists out a, acts l w = Ok ([], out, a) /\ readyState a = OPEN /\
    out +:+ txbuf a = txbuf w +:+ wires (sent_frames (useMask w) l).
Proof.
  revert w. induction l as [|x l IH]; intros w Hl Hp Ho.
  { exists EmptyString, w. cbn. by rewrite sapp_nil_r. }
  assert (Hsend : forall op m, forallb sender l = true -> polls_fine l = true ->
    exists out a, acts l (sendData op m w) = Ok ([], out, a) /\ readyState a = OPEN /\
      out +:+ txbuf a = txbuf w +:+ wire (own_frame (useMask w) op m) +:+ wires (sent_frames (useMask w) l)).
  { intros op m Hl' Hp'. destruct (sendData_open op m w Ho) as (Hr & Hu & Ht).
    destruct (IH (sendData op m w)) as (out & a & E & Ha & Hout); [done..|].
    exists out, a. by rewrite Hout, Hu, Ht, sapp_assoc. }
  destruct x as [m|m| |r s|]; try done; cbn [acts act].
  - destruct (Hsend TEXT_FRAME m) as (out & a & E & H); [done..|]. cbn [obind fst snd]. unfold send. rewrite E. cbn. eauto.
  - destruct (Hsend BINARY_FRAME m) as (out & a & E & H); [done..|]. cbn [obind fst snd]. unfold sendBinary. rewrite E. cbn. eauto.
  - destruct (Hsend PING EmptyString) as (out & a & E & H); [done..|]. cbn [obind fst snd]. unfold sendPing. rewrite E. cbn. eauto.
  - cbn in Hp. rewrite !andb_true_iff in Hp. destruct Hp as [[Hr Hs] Hp].
    destruct (poll_fine r s w Hr Hs Ho) as [Hu Hopen]. destruct (poll r s w) as [sent w1]. cbn [fst snd] in *.
    destruct (IH w1) as (out & a & E & Ha & Hout); try done. cbn. rewrite E. cbn. eexists _, _.
    split_and!; [done|done|]. rewrite sapp_assoc, Hout.
    assert (txbuf w = sent +:+ txbuf w1) as -> by (by apply (f_equal txbuf) in Hu).
    assert (useMask w1 = useMask w) as -> by (by apply (f_equal useMask) in Hu). by rewrite sapp_assoc.
Qed.

(** ** Properties *)

(** C31. However the bytes of a stream of frames arrive, cut anywhere and dispatched
    in between at any time, the callback gets the messages of the stream, the
    fragments of each put together and unmasked, in their order; the pings are
    answered by pongs with their payload up to the first close (or unknown)
    frame, which is answered by a close frame and leaves the connection closing;
    nothing of the stream stays behind but the fragments of an unfinished
    message. *)
Theorem frames_received useMask fs es :
  Forall frame_ok fs -> undisturbed es = true -> arrived es = wires fs ->
  run (es ++ [Dispatches]) (new_socket useMask) =
  Ok (messages EmptyString fs,
      {| rxbuf := EmptyString;
         txbuf := answers useMask fs;
         receivedData := unfinished EmptyString fs;
         readyState := if existsb ends_stream fs then CLOSING else OPEN;
         useMask := useMask;
         isRxBad := false |}).
Proof.
  intros Hfs Hes He. rewrite run_dispatched, He by done. by rewrite (dispatch_wires fs).
Qed.

Lemma sent_frames_ok ma l : Forall (fun m => Z.of_nat (len m) < 2 ^ 63)%Z (sent_messages l) ->
  Forall frame_ok (sent_frames ma l).
Proof.
  unfold sent_messages, sent_frames. induction l as [|[m|m| |r s|] l IH]; cbn; intros H; rewrite ?Forall_cons in *;
    try (split; [apply own_frame_ok; [done|tauto || done]|]); tauto || auto.
Qed.

Lemma sent_frames_messages ma l : messages EmptyString (sent_frames ma l) = sent_messages l /\
  existsb ends_stream (sent_frames ma l) = false /\ unfinished EmptyString (sent_frames ma l) = EmptyString.
Proof.
  unfold sent_messages, sent_frames. induction l as [|[m|m| |r s|] l (IH1 & IH2 & IH3)]; cbn; rewrite ?IH1, ?IH2, ?IH3; done.
Qed.

(** C32. What one end sends, masked or not, as text or binary messages or pings, and
    whatever polls push it out in, the other end gives to its callback message
    by message in that order, at the latest with a dispatch after the last byte;
    it has sent, or keeps to send, a pong for every ping, and both ends stay
    open. *)
Theorem messages_carried ma mb la lb :
  forallb sender la = true -> forallb receiver lb = true -> polls_fine la = true -> polls_fine lb = true ->
  Forall (fun m => Z.of_nat (len m) < 2 ^ 63)%Z (sent_messages la) ->
  exists out a, acts la (new_socket ma) = Ok ([], out, a) /\ readyState a = OPEN /\
    (txbuf a = EmptyString -> received lb = out ->
     exists out' b, acts (lb ++ [Dispatch]) (new_socket mb) = Ok (sent_messages la, out', b) /\
       out' +:+ txbuf b = answers mb (sent_frames ma la) /\
       readyState b = OPEN /\ rxbuf b = EmptyString).
Proof.
  intros Hla Hlb Hpa Hpb Hm. destruct (acts_sent la (new_socket ma) Hla Hpa eq_refl) as (out & a & E & Ha & Hout).
  exists out, a. split_and!; [done..|]. intros Ht Hr. rewrite Ht, sapp_nil_r in Hout. cbn in Hout.
  destruct (sent_frames_messages ma la) as (Hms & Hend & Hun).
  assert (Hd : dispatchBinary (grow (received lb) (new_socket mb)) =
    Ok (sent_messages la, streamed (sent_frames ma la) (grow (received lb) (new_socket mb)))).
  { rewrite (dispatch_wires (sent_frames ma la)); [by rewrite <- Hms|by apply sent_frames_ok| |done].
    cbn. congruence. }
  destruct (acts_received lb _ _ _ Hlb Hpb Hd) as (out' & b & Hb & Hu); [unfold streamed; cbn; by rewrite Hend|].
  exists out', b. split_and!; [done|by apply (f_equal txbuf) in Hu| |by apply (f_equal rxbuf) in Hu].
  apply (f_equal readyState) in Hu. cbn in Hu. rewrite Hu, Hend. done.
Qed.

(** *** Witnesses *)

(** A message of two masked fragments with a ping between them, then a close,
    arriving in three pieces *)
Definition example_frames : list frame :=
  [ {| f_fin := false; f_opcode := TEXT_FRAME; f_form := Seven; f_key := Some [1; 2; 3; 4]%Z; f_data := "hel" |};
    {| f_fin := true; f_opcode := PING; f_form := Seven; f_key := None; f_data := "?" |};
    {| f_fin := true; f_opcode := CONTINUATION; f_form := Sixteen; f_key := Some [9; 8; 7; 6]%Z; f_data := "lo" |};
    {| f_fin := true; f_opcode := CLOSE; f_form := Seven; f_key := None; f_data := EmptyString |} ].
Definition example_events : list event :=
  [Receives [Gives (str_take 4 (wires example_frames)); WouldBlock]; Dispatches;
   Receives [Gives (str_take 11 (str_drop 4 (wires example_frames))); WouldBlock]; Dispatches;
   Receives [Gives (str_drop 15 (wires example_frames)); WouldBlock]].

Lemma frames_received_witness :
  is_ok (run (example_events ++ [Dispatches]) (new_socket true)) = true /\
  messages EmptyString example_frames = ["hello"].
Proof.
  split; [|done]. rewrite (frames_received true example_frames example_events); [done| | |].
  - repeat constructor; done.
  - by vm_compute.
  - by vm_compute.
Defined.

Definition example_sends : list action := [Text "ab"; Ping; Poll [] [Gives 5%nat]; Binary "c"; Poll [] [Gives 100%nat]].
Definition example_out : string := wires (sent_frames true example_sends).
Definition example_receives : list action :=
  [Poll [Gives (str_take 3 example_out)] []; Dispatch; Poll [Gives (str_drop 3 example_out); WouldBlock] [Gives 7%nat]].

Lemma messages_carried_witness :
  exists out' b, acts (example_receives ++ [Dispatch]) (new_socket false) = Ok (["ab"; "c"], out', b) /\
    readyState b = OPEN.
Proof.
  destruct (messages_carried true false example_sends example_receives) as (out & a & E & _ & H);
    [done|done|done|done|by repeat constructor|].
  vm_compute in E. injection E as <- <-.
  destruct H as (out' & b & E' & _ & Hr & _); [done|by vm_compute|]. exists out', b. split; [exact E'|exact Hr].
Defined.
