(* ===== verification/WsOpen.v ===== *)
(** * Opening a web socket

    [from_url] of src/src/easywsclient.cpp: the URL taken apart by patterns of
    [sscanf], the request of the handshake, and the answer read byte by byte.

    The connection is what [hostname_connect] gives, and the peer a text: the
    bytes it sends before it closes.  An error of [recv] in the handshake, which
    the code takes for a byte, is left out, and [send] takes the lines of the
    request whole. *)

From Stdlib Require Import DecimalString.
From S2P Require Import Prelude HttpClient WsClient.
Local Open Scope quarks_scope.

(** ** Patterns of [sscanf] *)

Inductive directive :=
  | Literal (s : string)
  | Spaces
  | Host         (* %[^:/] *)
  | Int          (* %d *)
  | Word.        (* %s *)
Inductive scanned := SText (s : string) | SInt (z : Z).

(** The longest prefix of characters in a set, and the rest *)
Fixpoint scan_set (f : ascii -> bool) (s : string) : string * string :=
  match s with
  | String c s' => if f c then let '(a, b) := scan_set f s' in (String c a, b) else (EmptyString, s)
  | EmptyString => (EmptyString, EmptyString)
  end.

Definition host_char (c : ascii) : bool := negb (Ascii.eqb c ":" || Ascii.eqb c "/").
Definition word_char (c : ascii) : bool := negb (is_space c).

(** The number and the rest.  One that is no [int] is undefined behaviour. *)
Definition scan_int (s : string) : option (outcome Z * string) :=
  let s := skip_space s in
  let '(neg, s) := match s with
                   | String "-" s' => (true, s')
                   | String "+" s' => (false, s')
                   | _ => (false, s)
                   end in
  let '(digits, rest) := scan_set is_digit s in
  match digits with
  | EmptyString => None
  | _ =>
      let v := (if neg : bool then - digits_value 0 digits else digits_value 0 digits)%Z in
      Some (if decide (in_int32 v) then Ok v else Undef, rest)
  end.

(** The values assigned; their number is what [sscanf] returns.  Nothing that is
    assigned is empty. *)
Fixpoint sscanf (format : list directive) (s : string) : outcome (list scanned) :=
  match format with
  | [] => Ok []
  | Literal t :: format => if starts_with t s then sscanf format (str_drop (len t) s) else Ok []
  | Spaces :: format => sscanf format (skip_space s)
  | Host :: format =>
      let '(t, rest) := scan_set host_char s in
      match t with
      | EmptyString => Ok []
      | _ => let? l := sscanf format rest in Ok (SText t :: l)
      end
  | Word :: format =>
      let '(t, rest) := scan_set word_char (skip_space s) in
      match t with
      | EmptyString => Ok []
      | _ => let? l := sscanf format rest in Ok (SText t :: l)
      end
  | Int :: format =>
      match scan_int s with
      | None => Ok []
      | Some (v, rest) => let? v := v in let? l := sscanf format rest in Ok (SInt v :: l)
      end
  end.

(** The four patterns, tried one after the other *)
Definition parse_url (url : string) : outcome (option (string * Z * string)) :=
  let url := c_str url in
  let? l := sscanf [Literal "ws://"; Host; Literal ":"; Int; Literal "/"; Word] url in
  match l with
  | [SText host; SInt port; SText path] => Ok (Some (host, port, path))
  | _ =>
  let? l := sscanf [Literal "ws://"; Host; Literal "/"; Word] url in
  match l with
  | [SText host; SText path] => Ok (Some (host, 80%Z, path))
  | _ =>
  let? l := sscanf [Literal "ws://"; Host; Literal ":"; Int] url in
  match l with
  | [SText host; SInt port] => Ok (Some (host, port, EmptyString))
  | _ =>
  let? l := sscanf [Literal "ws://"; Host] url in
  match l with
  | [SText host] => Ok (Some (host, 80%Z, EmptyString))
  | _ => Ok None
  end end end end.

(** ** The handshake *)

Definition CR : ascii := "013".
Definition LF : ascii := "010".
Definition line (s : string) : string := s +:+ String CR (String LF EmptyString).

Definition handshake_request (host : string) (port : Z) (path origin : string) : string :=
  line ("GET /" +:+ path +:+ " HTTP/1.1") +:+
  line ("Host: " +:+ if (port =? 80)%Z then host else host +:+ ":" +:+ to_string port) +:+
  line "Upgrade: websocket" +:+
  line "Connection: Upgrade" +:+
  (match origin with EmptyString => EmptyString | _ => line ("Origin: " +:+ origin) end) +:+
  line "Sec-WebSocket-Key: x3JJHMbDL1EzLkh9GBhXDw==" +:+
  line "Sec-WebSocket-Version: 13" +:+
  line EmptyString.

Definition is_char (c : ascii) (i : nat) (line : string) : bool :=
  match String.get i line with Some d => Ascii.eqb d c | None => false end.

(** The condition of the loop that reads a line *)
Definition goes_on (line : string) : bool :=
  let i := len line in
  (i <? 2)%nat || ((i <? 1023)%nat && negb (is_char CR (i - 2) line) && negb (is_char LF (i - 1) line)).

(** A line, after the part [line] of it, and what is not read; nothing when the
    peer closes the connection first *)
Fixpoint recv_line (line : string) (bytes : string) : option (string * string) :=
  if goes_on line then
    match bytes with
    | String c bytes => recv_line (line +:+ String c EmptyString) bytes
    | EmptyString => None
    end
  else Some (line, bytes).

Fixpoint recv_headers (fuel : nat) (bytes : string) : outcome (option string) :=
  match fuel with
  | O => Fuel
  | S fuel =>
      match recv_line EmptyString bytes with
      | None => Ok None
      | Some (line, bytes) =>
          if is_char CR 0 line && is_char LF 1 line then Ok (Some bytes) else recv_headers fuel bytes
      end
  end.

(** The bytes behind a handshake that is accepted *)
Definition handshake (bytes : string) : outcome (option string) :=
  match recv_line EmptyString bytes with
  | None => Ok None
  | Some (line, bytes) =>
      if (len line =? 1023)%nat then Ok None
      else
        let? l := sscanf [Literal "HTTP/1.1"; Spaces; Int] (c_str line) in
        match l with
        | [SInt 101] => recv_headers (S (len bytes)) bytes
        | _ => Ok None
        end
  end.

(** The addresses of a name: one for which there is no socket, one that does not
    accept, one that does *)
Inductive attempt := NoSocket | NoConnection | Accepts.

Inductive connected := Unresolved | Refused | Connected.

Fixpoint first_accepting (l : list attempt) : connected :=
  match l with
  | [] => Refused
  | Accepts :: _ => Connected
  | _ :: l => first_accepting l
  end.

(** [hostname_connect], given what [getaddrinfo] finds.  For a name that is not
    known it returns 1, which is taken for a socket; its calls fail, and the last
    text meant to be sent is taken for the answer, which it is not. *)
Definition hostname_connect (resolved : option (list attempt)) : connected :=
  match resolved with
  | None => Unresolved
  | Some l => first_accepting l
  end.

(** [from_url]: the bytes handed to [send], whose results the code does not look
    at (a call that takes a part of its line loses the rest), and the connection
    with the bytes that are left to read *)
Definition from_url (url : string) (useMask : bool) (origin : string) (getaddrinfo : string -> Z -> option (list attempt))
    (bytes : string) : outcome (string * option (websocket * string)) :=
  if (512 <=? len url)%nat || (200 <=? len origin)%nat then Ok (EmptyString, None)
  else
    let? target := parse_url url in
    match target with
    | None => Ok (EmptyString, None)
    | Some (host, port, path) =>
        match hostname_connect (getaddrinfo host port) with
        | Connected =>
            let? rest := handshake bytes in
            Ok (handshake_request host port path (c_str origin),
                match rest with Some rest => Some (new_socket useMask, rest) | None => None end)
        | _ => Ok (EmptyString, None)
        end
    end.

(** ** URLs and answers in their usual form *)

Definition all_chars (f : ascii -> bool) (s : string) : Prop := Forall (fun c => f c = true) (list_ascii_of_string s).

Lemma scan_set_app f a b : all_chars f a -> (match b with String c _ => f c = false | EmptyString => True end) ->
  scan_set f (a +:+ b) = (a, b).
Proof.
  unfold all_chars. intros Ha Hb. induction a as [|c a IH]; cbn in *.
  - destruct b as [|c b]; cbn; [done|]. by rewrite Hb.
  - apply Forall_cons in Ha as [Hc Ha]. by rewrite Hc, (IH Ha).
Qed.

(** The address of a host, with a port or not, with a path or not *)
Definition url_text (host : string) (port : option nat) (path : option string) : string :=
  "ws://" +:+ host +:+
  (match port with Some p => ":" +:+ to_string (Z.of_nat p) | None => EmptyString end) +:+
  (match path with Some s => "/" +:+ s | None => EmptyString end).

Record url_ok (host : string) (port : option nat) (path : option string) : Prop := {
  host_chars : host <> EmptyString /\ all_chars host_char host /\ no_nul host = true;
  port_range : match port with Some p => (Z.of_nat p < 65536)%Z | None => True end;
  path_chars : match path with Some s => s <> EmptyString /\ all_chars word_char s /\ no_nul s = true | None => True end
}.

Lemma no_nul_nat n : no_nul (to_string (Z.of_nat n)) = true.
Proof. destruct (nat_text n) as (d & -> & _ & _). destruct d; try done; apply no_nul_uint. Qed.

Lemma skip_space_word s : all_chars word_char s -> s <> EmptyString -> forall r, skip_space (s +:+ r) = s +:+ r.
Proof.
  unfold all_chars, word_char. destruct s as [|c s]; [done|]. intros H _ r. cbn in *.
  apply Forall_cons in H as [Hc _]. apply negb_true_iff in Hc. by rewrite Hc.
Qed.

Lemma scan_nat n r : (Z.of_nat n < 2 ^ 31)%Z -> (match r with String c _ => is_digit c = false | EmptyString => True end) ->
  scan_int (to_string (Z.of_nat n) +:+ r) = Some (Ok (Z.of_nat n), r).
Proof.
  intros Hn Hr. destruct (nat_text n) as (d & Ed & Hd & Ha). rewrite Ed.
  pose proof (string_of_uint_digit d) as [Hp Hv]. set (t := DecimalString.NilZero.string_of_uint d) in *.
  assert (Hs : skip_space (t +:+ r) = t +:+ r /\ t <> EmptyString /\
    (match t +:+ r with String "-" s' => (true, s') | String "+" s' => (false, s') | _ => (false, t +:+ r) end) = (false, t +:+ r)).
  { clear -Hp. destruct t as [|c t]; [by vm_compute in Hp|]. cbn in Hp.
    destruct (digit_solid c Hp) as [_ Hsp]. cbn. rewrite Hsp. split_and!; [done..|].
    destruct c as [[] [] [] [] [] [] [] []]; done. }
  destruct Hs as (Hs & Hne & Hsign). unfold scan_int. rewrite Hs, Hsign, (scan_set_app is_digit t r Ha Hr).
  rewrite Hv, Hd. destruct t; [done|]. rewrite decide_True; [done|]. unfold in_int32, INT_MIN, INT_MAX. lia.
Qed.

Lemma host_word_empty_literal t r l : match r with String c _ => peek t <> c | EmptyString => True end -> t <> EmptyString ->
  sscanf (Literal t :: l) r = Ok [].
Proof.
  intros Hr Ht. cbn [sscanf]. destruct t as [|d t]; [done|]. destruct r as [|c r]; [done|]. cbn in *.
  destruct (Ascii.eqb_spec d c) as [->|]; [done|]. done.
Qed.

Lemma scan_literal t r l : sscanf (Literal t :: l) (t +:+ r) = sscanf l r.
Proof. cbn [sscanf]. by rewrite starts_with_app, str_drop_app. Qed.

Lemma scan_host h r l : h <> EmptyString -> all_chars host_char h ->
  match r with String c _ => host_char c = false | EmptyString => True end ->
  sscanf (Host :: l) (h +:+ r) = (let? x := sscanf l r in Ok (SText h :: x)).
Proof. intros Hne Hh Hr. cbn [sscanf]. rewrite scan_set_app by done. by destruct h. Qed.

Lemma scan_word w r l : w <> EmptyString -> all_chars word_char w ->
  match r with String c _ => word_char c = false | EmptyString => True end ->
  sscanf (Word :: l) (w +:+ r) = (let? x := sscanf l r in Ok (SText w :: x)).
Proof.
  intros Hne Hw Hr. cbn [sscanf]. rewrite skip_space_word, scan_set_app by done. by destruct w.
Qed.

Lemma scan_number n r l : (Z.of_nat n < 65536)%Z ->
  match r with String c _ => is_digit c = false | EmptyString => True end ->
  sscanf (Int :: l) (to_string (Z.of_nat n) +:+ r) = (let? x := sscanf l r in Ok (SInt (Z.of_nat n) :: x)).
Proof. intros Hn Hr. cbn [sscanf]. by rewrite scan_nat by (done || lia). Qed.

(** Every form of address is understood. *)
Lemma url_parsed host port path : url_ok host port path ->
  parse_url (url_text host port path) = Ok (Some (host, from_option Z.of_nat 80%Z port, default EmptyString path)).
Proof.
  intros [(Hhne & Hh & Hhn) Hp Hpath]. unfold parse_url. rewrite c_str_id.
  2:{ unfold url_text. rewrite !no_nul_app, Hhn. destruct port; rewrite ?no_nul_app, ?no_nul_nat;
      destruct path; cbn [no_nul]; try done; destruct Hpath as (_ & _ & Hn); cbn; done. }
  unfold url_text. set (pp := match port with Some _ => _ | None => _ end). set (pa := match path with Some _ => _ | None => _ end).
  assert (Hend : forall l, sscanf (Literal "ws://" :: Host :: l) ("ws://" +:+ host +:+ pp +:+ pa) =
    (let? x := sscanf l (pp +:+ pa) in Ok (SText host :: x))).
  { intros l. rewrite scan_literal. apply scan_host; [done..|]. subst pp pa. by destruct port, path. }
  rewrite !Hend. destruct port as [n|]; cbn [from_option] in *.
  - assert (Hport : forall l, sscanf (Literal ":" :: Int :: l) (pp +:+ pa) =
      (let? x := sscanf l pa in Ok (SInt (Z.of_nat n) :: x))).
    { intros l. subst pp. rewrite sapp_assoc, scan_literal. apply scan_number; [done|]. subst pa. by destruct path. }
    assert (Hslash : forall l, sscanf (Literal "/" :: l) (pp +:+ pa) = Ok []).
    { intros l. by apply host_word_empty_literal. }
    rewrite !Hport, !Hslash. destruct path as [s|]; subst pa; cbn [default].
    + destruct Hpath as (Hsne & Hs & _). rewrite scan_literal. rewrite <- (sapp_nil_r s) at 1. by rewrite scan_word.
    + done.
  - subst pp. assert (Hcolon : forall l, sscanf (Literal ":" :: l) (EmptyString +:+ pa) = Ok []).
    { intros l. apply host_word_empty_literal; [|done]. subst pa. by destruct path. }
    rewrite !Hcolon. destruct path as [s|]; subst pa; cbn [default String.append obind].
    + destruct Hpath as (Hsne & Hs & _). change (String "/" s) with ("/" +:+ s). rewrite scan_literal. rewrite <- (sapp_nil_r s) at 1. by rewrite scan_word.
    + done.
Qed.

(** A line without line ends in it *)
Definition line_char (c : ascii) : bool := negb (Ascii.eqb c CR || Ascii.eqb c LF).
Definition plain_line (s : string) : Prop := all_chars line_char s /\ len s <= 1021.

Lemma get_last a c : String.get (len a) (a +:+ String c EmptyString) = Some c.
Proof. induction a as [|d a IH]; [done|]. exact IH. Qed.
Lemma get_early a b i : i < len a -> String.get i (a +:+ b) = String.get i a.
Proof.
  revert i. induction a as [|d a IH]; intros [|i] H; cbn in *; try done; [lia..|]. apply IH. lia.
Qed.

Lemma plain_char s i c : all_chars line_char s -> c = CR \/ c = LF -> is_char c i s = false.
Proof.
  unfold all_chars, is_char. revert i. induction s as [|d s IH]; intros [|i] H Hc; cbn in *; try done.
  - apply Forall_cons in H as [H _]. unfold line_char in H. apply negb_true_iff, orb_false_iff in H as [H1 H2].
    by destruct Hc as [-> | ->].
  - apply Forall_cons in H as [_ H]. by apply IH.
Qed.

Lemma all_chars_app f a b : all_chars f (a +:+ b) <-> all_chars f a /\ all_chars f b.
Proof.
  unfold all_chars. induction a as [|c a IH]; cbn.
  - split; [intros H; split; [constructor|done]|by intros [_ H]].
  - rewrite !Forall_cons, IH. tauto.
Qed.

Lemma goes_on_plain s : all_chars line_char s -> len s < 1023 -> goes_on s = true.
Proof.
  intros Hs Hl. unfold goes_on. rewrite !(plain_char s) by auto.
  destruct (Nat.ltb_spec (len s) 2); [done|]. destruct (Nat.ltb_spec (len s) 1023); [done|lia].
Qed.

Lemma goes_on_cr s : all_chars line_char s -> len s <= 1021 -> goes_on (s +:+ String CR EmptyString) = true.
Proof.
  intros Hs Hl. unfold goes_on, is_char. rewrite slength_app. cbn [String.length].
  destruct (Nat.ltb_spec (len s + 1) 2); [done|]. destruct (Nat.ltb_spec (len s + 1) 1023); [|lia].
  replace (len s + 1 - 1) with (len s) by lia. rewrite get_last.
  rewrite get_early by lia. pose proof (plain_char s (len s + 1 - 2) CR Hs (or_introl eq_refl)) as H'.
  unfold is_char in H'. by rewrite H'.
Qed.

Lemma goes_on_line s : goes_on (line s) = false.
Proof.
  unfold goes_on, is_char, line. rewrite slength_app. cbn [String.length].
  destruct (Nat.ltb_spec (len s + 2) 2); [lia|]. cbn [orb].
  replace (len s + 2 - 2) with (len s) by lia.
  replace (s +:+ String CR (String LF EmptyString)) with ((s +:+ String CR EmptyString) +:+ String LF EmptyString)
    by (by rewrite sapp_assoc).
  rewrite get_early by (rewrite slength_app; cbn; lia). rewrite get_last. by destruct (len s + 2 <? 1023)%nat.
Qed.

Lemma recv_plain acc s r : all_chars line_char (acc +:+ s) -> len (acc +:+ s) <= 1021 ->
  recv_line acc (line s +:+ r) = Some (line (acc +:+ s), r).
Proof.
  revert acc. induction s as [|c s IH]; intros acc Hs Hl; cbn [line String.append].
  - rewrite sapp_nil_r in *. cbn [recv_line]. rewrite goes_on_plain by (done || lia).
    rewrite goes_on_cr by done. cbn [recv_line].
    replace ((acc +:+ String CR EmptyString) +:+ String LF EmptyString) with (line acc) by (unfold line; by rewrite sapp_assoc).
    by destruct r; cbn [recv_line]; rewrite goes_on_line.
  - assert (Hacc : all_chars line_char acc).
    { by apply all_chars_app in Hs as [? _]. }
    rewrite slength_app in Hl. cbn in Hl.
    cbn [recv_line]. rewrite goes_on_plain by (done || lia). fold (line s).
    change ((s +:+ String CR (String LF EmptyString)) +:+ r) with (line s +:+ r).
    replace (acc +:+ String c s) with ((acc +:+ String c EmptyString) +:+ s) in * by (by rewrite sapp_assoc).
    rewrite IH; [done|done|]. rewrite !slength_app. cbn. lia.
Qed.

Lemma recv_whole s r : plain_line s -> recv_line EmptyString (line s +:+ r) = Some (line s, r).
Proof. intros [Hs Hl]. by apply recv_plain. Qed.

Definition lines (hs : list string) : string := foldr (fun h s => line h +:+ s) EmptyString hs.

Lemma recv_headers_step fuel bytes : recv_headers (S fuel) bytes =
  match recv_line EmptyString bytes with
  | None => Ok None
  | Some (line, bytes) =>
      if is_char CR 0 line && is_char LF 1 line then Ok (Some bytes) else recv_headers fuel bytes
  end.
Proof. done. Qed.

Lemma headers_read fuel hs r : Forall (fun h => plain_line h /\ h <> EmptyString) hs ->
  length hs < fuel -> recv_headers fuel (lines hs +:+ line EmptyString +:+ r) = Ok (Some r).
Proof.
  revert fuel. induction hs as [|h hs IH]; intros [|fuel] Hhs Hf; cbn in Hf; try lia; rewrite recv_headers_step.
  - change (lines [] +:+ ?r) with r. rewrite (recv_whole EmptyString) by (by split; [constructor|cbn; lia]). done.
  - apply Forall_cons in Hhs as [[Hh Hne] Hhs]. 
    change (lines (h :: hs)) with (line h +:+ lines hs). rewrite sapp_assoc, recv_whole by done.
    assert (is_char CR 0 (line h) = false) as ->.
    { unfold is_char. destruct h as [|c h]; [done|]. cbn. destruct Hh as [Hh _]. apply Forall_cons in Hh as [Hc _].
      unfold line_char in Hc. by apply negb_true_iff, orb_false_iff in Hc as [-> _]. }
    apply IH; [done|lia].
Qed.

Lemma lines_length hs : length hs <= len (lines hs).
Proof.
  induction hs as [|h hs IH]; cbn; [lia|]. fold (lines hs). unfold line. rewrite !slength_app. cbn. lia.
Qed.

Lemma status_read more : no_nul more = true -> (match more with String c _ => is_digit c = false | EmptyString => True end) ->
  sscanf [Literal "HTTP/1.1"; Spaces; Int] (c_str (line ("HTTP/1.1 101" +:+ more))) = Ok [SInt 101].
Proof.
  intros Hn Hm. rewrite c_str_id; [|unfold line; by rewrite !no_nul_app, Hn].
  unfold line. rewrite sapp_assoc. set (rest := more +:+ _).
  change ("HTTP/1.1 101" +:+ rest) with ("HTTP/1.1" +:+ " 101" +:+ rest). rewrite scan_literal.
  change (sscanf [Spaces; Int] (" 101" +:+ rest)) with (sscanf [Int] (to_string (Z.of_nat 101) +:+ rest)).
  rewrite (scan_number 101); [done|done|]. subst rest. by destruct more.
Qed.

(** C33. Opening a connection.  For a host, a port and a path in any of the forms
    an address has, the request of the handshake is sent for that host and path,
    and when the peer answers with the status 101, any headers and the empty
    line, the connection is open, has its mask as asked for, and what the peer
    sends behind the empty line is left for it to read. *)
Theorem socket_opened host port path useMask origin getaddrinfo more headers rest :
  url_ok host port path -> len (url_text host port path) < 512 -> len origin < 200 ->
  let p := from_option Z.of_nat 80%Z port in
  hostname_connect (getaddrinfo host p) = Connected ->
  plain_line ("HTTP/1.1 101" +:+ more) -> len ("HTTP/1.1 101" +:+ more) <= 1020 -> no_nul more = true ->
  match more with String c _ => is_digit c = false | EmptyString => True end ->
  Forall (fun h => plain_line h /\ h <> EmptyString) headers ->
  from_url (url_text host port path) useMask origin getaddrinfo
    (line ("HTTP/1.1 101" +:+ more) +:+ lines headers +:+ line EmptyString +:+ rest) =
  Ok (handshake_request host p (default EmptyString path) (c_str origin), Some (new_socket useMask, rest)).
Proof.
  intros Hurl Hl Ho p Hc Hs Hs' Hn Hm Hh. unfold from_url.
  destruct (Nat.leb_spec 512 (len (url_text host port path))); [lia|].
  destruct (Nat.leb_spec 200 (len origin)); [lia|]. cbn [orb]. rewrite url_parsed by done. cbn [obind].
  subst p. rewrite Hc. unfold handshake. rewrite recv_whole by done.
  destruct (Nat.eqb_spec (len (line ("HTTP/1.1 101" +:+ more))) 1023) as [E|_].
  { unfold line in E. rewrite slength_app in E. cbn [len] in E. lia. }
  rewrite status_read by done. cbn [obind]. rewrite headers_read; [done|done|].
  pose proof (lines_length headers). rewrite slength_app. lia.
Qed.

(** *** Witness *)

Definition example_url : string := "ws://localhost:4000/foo".
Theorem socket_opened_witness :
  from_url example_url true EmptyString (fun _ _ => Some [NoConnection; Accepts])
    (line "HTTP/1.1 101 Switching Protocols" +:+ lines ["Upgrade: websocket"] +:+ line EmptyString +:+ "x") =
  Ok (handshake_request "localhost" 4000 "foo" EmptyString, Some (new_socket true, "x")).
Proof.
  apply (socket_opened "localhost" (Some 4000) (Some "foo") true EmptyString (fun _ _ => Some [NoConnection; Accepts])
           " Switching Protocols" ["Upgrade: websocket"] "x").
  - split; [split; [done|split; [by repeat constructor|done]]|cbn; lia|split; [done|split; [by repeat constructor|done]]].
  - vm_compute. lia.
  - vm_compute. lia.
  - done.
  - split; [by repeat constructor|vm_compute; lia].
  - vm_compute. lia.
  - done.
  - done.
  - constructor; [split; [split; [by repeat constructor|vm_compute; lia]|done]|constructor].
Defined.
