(* ===== verification/TaskQueue.v ===== *)
(** * The task queue

    [TaskQueue], [WorkerThread] and [startTaskQueueService]
    (src/include/quarkstaskqueue.hpp, src/src/quarkstaskqueue.cpp): workers that
    wait on a condition variable for tasks or for the end, and the thread that
    pushes the tasks, stops the queue and joins the workers.  A section under
    [m_Mutex] is one action; so is a line written under [m_CoutMutex], a
    notification, and the assignment of [StopQueue], which takes no lock. *)

From S2P Require Import Prelude.
Local Open Scope quarks_scope.

(** ** Tasks and the queue *)

Record Task := { m_Id : Z; m_Duration : Z }.
Definition GetId (t : Task) : Z := m_Id t.

Record TaskQueue := { m_QueueIsStopped : bool; m_Queue : list Task }.
Definition empty_queue : TaskQueue := {| m_QueueIsStopped := false; m_Queue := [] |}.

Definition IsQueueStopped (q : TaskQueue) : bool := m_QueueIsStopped q.
Definition HasPendingTask (q : TaskQueue) : bool := match m_Queue q with [] => false | _ => true end.

(** The section of [PushTask], of [PushTasks], and [StopQueue] *)
Definition push_task (t : Task) (q : TaskQueue) : TaskQueue :=
  {| m_QueueIsStopped := m_QueueIsStopped q; m_Queue := m_Queue q ++ [t] |}.
Definition push_tasks (ts : list Task) (q : TaskQueue) : TaskQueue :=
  {| m_QueueIsStopped := m_QueueIsStopped q; m_Queue := m_Queue q ++ ts |}.
Definition StopQueue (q : TaskQueue) : TaskQueue :=
  {| m_QueueIsStopped := true; m_Queue := m_Queue q |}.

(** [front] and [pop]; undefined on an empty queue *)
Definition GetNextTask (q : TaskQueue) : outcome (Task * TaskQueue) :=
  match m_Queue q with
  | [] => Undef
  | t :: l => Ok (t, {| m_QueueIsStopped := m_QueueIsStopped q; m_Queue := l |})
  end.

(** The lines written *)
Definition announcement (workerId : nat) (t : Task) : string :=
  "Worker {" +:+ to_string (Z.of_nat workerId) +:+ "} is executing task {" +:+ to_string (GetId t)
  +:+ "}." +:+ String "010" EmptyString.
Definition report (t : Task) : string :=
  "Task {" +:+ to_string (m_Id t) +:+ "} finished in " +:+ to_string (m_Duration t) +:+ "ms."
  +:+ String "010" EmptyString.

(** ** Workers *)

(** At the head of the loop; asleep in [wait]; with a task before its
    announcement; executing it; behind the loop; behind undefined behaviour *)
Inductive worker :=
  | AtWait
  | Asleep
  | Announcing (t : Task)
  | Executing (t : Task)
  | Ended
  | Broken.

(** What the thread that started the service does next *)
Inductive call :=
  | PushTask (t : Task)
  | PushTasks (ts : list Task)
  | Stop
  | Join.
Inductive notification := NotifyOne | NotifyAll.

Record service := {
  queue : TaskQueue;
  workers : list worker;
  cout : list string;
  notify : option notification;     (* behind a section, before the notification *)
  calls : list call
}.

Definition set_queue (q : TaskQueue) (s : service) : service := {|
  queue := q; workers := workers s; cout := cout s; notify := notify s; calls := calls s |}.
Definition set_worker (i : nat) (t : worker) (s : service) : service := {|
  queue := queue s; workers := <[i := t]> (workers s); cout := cout s; notify := notify s;
  calls := calls s |}.
Definition print (line : string) (s : service) : service := {|
  queue := queue s; workers := workers s; cout := cout s ++ [line]; notify := notify s;
  calls := calls s |}.
Definition main_at (n : option notification) (l : list call) (s : service) : service := {|
  queue := queue s; workers := workers s; cout := cout s; notify := n; calls := l |}.

(** A task is taken from the queue; its execution ends. *)
Inductive event := Took (t : Task) | Ran (t : Task).

(** One turn of [cv.wait(l, pred)], and the task taken behind it *)
Definition wait_turn (i : nat) (s : service) : service * option event :=
  let q := queue s in
  if IsQueueStopped q || HasPendingTask q then
    if IsQueueStopped q then (set_worker i Ended s, None)
    else match GetNextTask q with
         | Ok (t, q) => (set_worker i (Announcing t) (set_queue q s), Some (Took t))
         | _ => (set_worker i Broken s, None)
         end
  else (set_worker i Asleep s, None).

(** An action of a worker; [None] when it cannot move. *)
Definition worker_act (i : nat) (s : service) : option (service * option event) :=
  match workers s !! i with
  | Some AtWait => Some (wait_turn i s)
  | Some (Announcing t) => Some (set_worker i (Executing t) (print (announcement i t) s), None)
  | Some (Executing t) => Some (set_worker i AtWait (print (report t) s), Some (Ran t))
  | _ => None
  end.

(** A sleeping worker is woken. *)
Definition wake (t : worker) : worker := match t with Asleep => AtWait | _ => t end.
Definition asleep (t : worker) : bool := match t with Asleep => true | _ => false end.
Definition ended (t : worker) : bool := match t with Ended => true | _ => false end.

Definition wake_worker (i : nat) (s : service) : option (service * option event) :=
  match workers s !! i with
  | Some Asleep => Some (set_worker i AtWait s, None)
  | _ => None
  end.

Definition wake_all (s : service) : service := {|
  queue := queue s; workers := wake <$> workers s; cout := cout s; notify := None; calls := calls s |}.

(** An action of the thread that started the service: the pending notification,
    which wakes the worker [k] if one is to be woken, or the next call. *)
Definition main_act (k : nat) (s : service) : option (service * option event) :=
  match notify s with
  | Some NotifyAll => Some (wake_all s, None)
  | Some NotifyOne =>
      if existsb asleep (workers s) then wake_worker k (main_at None (calls s) s)
      else Some (main_at None (calls s) s, None)
  | None =>
      match calls s with
      | [] => None
      | PushTask t :: l => Some (main_at (Some NotifyOne) l (set_queue (push_task t (queue s)) s), None)
      | PushTasks ts :: l => Some (main_at (Some NotifyAll) l (set_queue (push_tasks ts (queue s)) s), None)
      | Stop :: l => Some (main_at None l (set_queue (StopQueue (queue s)) s), None)
      | Join :: l => if forallb ended (workers s) then Some (main_at None l s, None) else None
      end
  end.

(** Who acts: a worker, the main thread (its notification waking worker [k]), or
    the system, which may wake a waiting thread for no reason *)
Inductive action := Worker (i : nat) | Main (k : nat) | Spurious (i : nat).

Definition act (a : action) (s : service) : option (service * option event) :=
  match a with
  | Worker i => worker_act i s
  | Main k => main_act k s
  | Spurious i => wake_worker i s
  end.

(** An execution, with its events *)
Inductive exec : service -> list action -> list event -> service -> Prop :=
  | exec_nil s : exec s [] [] s
  | exec_act a s s1 o l tr s2 :
      act a s = Some (s1, o) -> exec s1 l tr s2 -> exec s (a :: l) (option_list o ++ tr) s2.

Definition took (tr : list event) : list Task := omap (fun e => match e with Took t => Some t | _ => None end) tr.
Definition ran (tr : list event) : list Task := omap (fun e => match e with Ran t => Some t | _ => None end) tr.

(** ** The service *)

(** [hardware_concurrency() - 1] of an [unsigned int]; the assertion *)
Definition thread_pool_size (hardware_concurrency : Z) : option nat :=
  let n := ((hardware_concurrency - 1) mod 4294967296)%Z in
  if (0 <? n)%Z then Some (Z.to_nat n) else None.

(** The calls of [startTaskQueueService]; [duration i] is what the generator
    draws for task [i]. *)
Definition numbered (duration : Z -> Z) (l : list Z) : list Task :=
  (fun i => {| m_Id := i; m_Duration := duration i |}) <$> l.
Definition service_calls (duration : Z -> Z) : list call :=
  (PushTask <$> numbered duration [0; 1; 2; 3; 4]%Z)
  ++ [PushTasks (numbered duration [5; 6; 7; 8; 9]%Z); Stop; Join].

Definition startTaskQueueService (hardware_concurrency : Z) (duration : Z -> Z) : option service :=
  n ← thread_pool_size hardware_concurrency;
  Some {| queue := empty_queue; workers := replicate n AtWait; cout := []; notify := None;
          calls := service_calls duration |}.

(** ** Every task is taken in order and run once *)

Definition pushes (l : list call) : list Task :=
  flat_map (fun c => match c with PushTask t => [t] | PushTasks ts => ts | _ => [] end) l.
(** The task a worker holds *)
Definition held (t : worker) : list Task :=
  match t with Announcing t | Executing t => [t] | _ => [] end.


Lemma held_insert ws i t t' : ws !! i = Some t ->
  held t ++ flat_map held (<[i := t']> ws) ≡ₚ held t' ++ flat_map held ws.
Proof.
  intros H. pose proof (lookup_lt_Some _ _ _ H) as Hi.
  rewrite insert_take_drop by done. rewrite <- (take_drop_middle ws i t H) at 3.
  rewrite !flat_map_app. cbn [flat_map]. rewrite !(Permutation_app_swap_app (flat_map held (take i ws))).
  apply Permutation_app_swap_app.
Qed.

Lemma held_wake ws : flat_map held (wake <$> ws) = flat_map held ws.
Proof. induction ws as [|t ws IH]; [done|]. cbn. rewrite IH. by destruct t. Qed.

(** What one action does to the queue, to the calls left and to the tasks held *)
Definition books (s s1 : service) (tr : list event) : Prop :=
  exists done, calls s = done ++ calls s1 /\
    took tr ++ m_Queue (queue s1) = m_Queue (queue s) ++ pushes done /\
    ran tr ++ flat_map held (workers s1) ≡ₚ flat_map held (workers s) ++ took tr.

Lemma books_step s i t t' q line tr : workers s !! i = Some t ->
  took tr ++ m_Queue q = m_Queue (queue s) ->
  ran tr ++ held t' ≡ₚ held t ++ took tr ->
  books s {| queue := q; workers := <[i := t']> (workers s); cout := line; notify := notify s;
             calls := calls s |} tr.
Proof.
  intros Hi Hq Ht. exists []. split; [done|]. split; [by rewrite app_nil_r|]. cbn [workers].
  apply (Permutation_app_inv_l (held t)). rewrite Permutation_app_swap_app, held_insert by done.
  rewrite !app_assoc, Ht. rewrite <- !app_assoc. apply Permutation_app_head, Permutation_app_comm.
Qed.

Lemma wait_books i s : workers s !! i = Some AtWait ->
  books s (wait_turn i s).1 (option_list (wait_turn i s).2).
Proof.
  intros Hi. unfold wait_turn, HasPendingTask, GetNextTask. destruct (IsQueueStopped (queue s)); cbn [orb].
  { by apply (books_step s i AtWait). }
  destruct (m_Queue (queue s)) as [|t l] eqn:Eq; [by apply (books_step s i AtWait)|].
  by apply (books_step s i AtWait (Announcing t) _ _ [Took t]).
Qed.

Lemma wake_books i s r : wake_worker i s = Some r -> books s r.1 (option_list r.2).
Proof.
  unfold wake_worker. destruct (workers s !! i) as [[]|] eqn:Hi; try done. intros [= <-].
  by apply (books_step s i Asleep).
Qed.

Lemma main_books k s r : main_act k s = Some r -> books s r.1 (option_list r.2).
Proof.
  unfold main_act. destruct (notify s) as [[]|].
  - destruct (existsb asleep (workers s)).
    + apply (wake_books k (main_at None (calls s) s)).
    + intros [= <-]. exists []. by rewrite !app_nil_r.
  - intros [= <-]. exists []. cbn. by rewrite held_wake, !app_nil_r.
  - destruct (calls s) as [|[t|ts| |] l] eqn:Ec; try done.
    + intros [= <-]. exists [PushTask t]. cbn. by rewrite !app_nil_r.
    + intros [= <-]. exists [PushTasks ts]. cbn. by rewrite !app_nil_r.
    + intros [= <-]. exists [Stop]. cbn. by rewrite !app_nil_r.
    + destruct (forallb _ _); [|done]. intros [= <-]. exists [Join]. cbn. by rewrite !app_nil_r.
Qed.

Lemma act_books a s s1 o : act a s = Some (s1, o) -> books s s1 (option_list o).
Proof.
  destruct a as [i|k|i]; cbn [act].
  - unfold worker_act. destruct (workers s !! i) as [[| |t|t| |]|] eqn:Hi; try done.
    + intros [= E]. pose proof (wait_books i s Hi) as H. by rewrite E in H.
    + intros [= <- <-]. by apply (books_step s i (Announcing t)).
    + intros [= <- <-]. by apply (books_step s i (Executing t)).
  - apply (main_books k s (s1, o)).
  - apply (wake_books i s (s1, o)).
Qed.

Lemma took_app a b : took (a ++ b) = took a ++ took b.
Proof. apply omap_app. Qed.
Lemma ran_app a b : ran (a ++ b) = ran a ++ ran b.
Proof. apply omap_app. Qed.

Lemma exec_books s l tr s' : exec s l tr s' -> books s s' tr.
Proof.
  induction 1 as [s|a s s1 o l tr s2 Ha _ (d2 & C2 & Q2 & H2)].
  { exists []. cbn. by rewrite !app_nil_r. }
  destruct (act_books _ _ _ _ Ha) as (d1 & C1 & Q1 & H1).
  exists (d1 ++ d2). rewrite C1, C2, <- app_assoc, took_app, ran_app. split; [done|]. split.
  - rewrite <- app_assoc, Q2. unfold pushes in *. by rewrite flat_map_app, !app_assoc, Q1.
  - rewrite <- app_assoc, H2, app_assoc, H1. by rewrite <- app_assoc.
Qed.

(** ** No task waits while every worker sleeps *)

Definition may_move (t : worker) : bool :=
  match t with AtWait | Announcing _ | Executing _ => true | _ => false end.
Definition works (t : worker) : Prop := t <> Ended /\ t <> Broken.

Record alert (s : service) : Prop := {
  some_worker : workers s <> [];
  none_broken : Broken ∉ workers s;
  none_ended : IsQueueStopped (queue s) = false -> Ended ∉ workers s;
  one_awake : IsQueueStopped (queue s) = false -> HasPendingTask (queue s) = true ->
    notify s = None -> exists t, t ∈ workers s /\ may_move t = true
}.

Lemma insert_not_in {A} (l : list A) i x y : y <> x -> y ∉ l -> y ∉ <[i := x]> l.
Proof.
  intros Hne Hl [j Hj]%list_elem_of_lookup. apply Hl, list_elem_of_lookup.
  destruct (decide (i = j)) as [->|Hij].
  - apply list_lookup_insert_Some in Hj as [(_ & -> & _)|(? & _)]; done.
  - rewrite list_lookup_insert_ne in Hj by done. by exists j.
Qed.

Lemma insert_in {A} (l : list A) i x y : l !! i = Some y -> x ∈ <[i := x]> l.
Proof.
  intros H. apply list_elem_of_lookup. exists i. apply list_lookup_insert_eq. by eapply lookup_lt_Some.
Qed.

(** A worker moves to a state in which it can move again. *)
Lemma alert_active s i t t' q line n l : alert s -> workers s !! i = Some t -> may_move t' = true ->
  m_QueueIsStopped q = m_QueueIsStopped (queue s) ->
  alert {| queue := q; workers := <[i := t']> (workers s); cout := line; notify := n; calls := l |}.
Proof.
  intros [H1 H2 H3 H4] Hi Ht Hq. split; cbn [workers queue]; unfold IsQueueStopped in *.
  - intros E. apply (f_equal length) in E. rewrite length_insert in E. by destruct (workers s).
  - apply insert_not_in; [by destruct t'|done].
  - rewrite Hq. intros Hs. apply insert_not_in; [by destruct t'|auto].
  - intros _ _ _. exists t'. split; [by eapply insert_in|done].
Qed.

Lemma alert_wait i s : alert s -> workers s !! i = Some AtWait -> alert (wait_turn i s).1.
Proof.
  intros Ha Hi. pose proof Ha as [H1 H2 H3 H4]. unfold wait_turn.
  assert (forall t, <[i := t]> (workers s) <> []) as Hne.
  { intros t E. apply (f_equal length) in E. rewrite length_insert in E. by destruct (workers s). }
  destruct (IsQueueStopped (queue s)) eqn:Es; cbn [orb].
  { split; cbn; [done|by apply insert_not_in|congruence..]. }
  unfold GetNextTask. destruct (HasPendingTask (queue s)) eqn:Ep; unfold HasPendingTask in Ep.
  - destruct (m_Queue (queue s)) as [|t l]; [done|]. by apply (alert_active s i AtWait).
  - split; cbn; [done|by apply insert_not_in|intros _; apply insert_not_in; auto|].
    intros _. unfold HasPendingTask. by rewrite Ep.
Qed.

Lemma alert_wake i s r : alert s -> wake_worker i s = Some r -> alert r.1.
Proof.
  intros Ha. unfold wake_worker. destruct (workers s !! i) as [[]|] eqn:Hi; try done. intros [= <-].
  by apply (alert_active s i Asleep).
Qed.

Lemma all_awake ws : existsb asleep ws = false -> Broken ∉ ws -> Ended ∉ ws -> ws <> [] ->
  exists t, t ∈ ws /\ may_move t = true.
Proof.
  destruct ws as [|t ws]; [done|]. cbn. intros [Ht _]%orb_false_iff Hb He _. exists t.
  split; [by left|]. destruct t; try done; [by destruct He; left|by destruct Hb; left].
Qed.

Lemma wake_in (ws : list worker) t : t <> Asleep -> t <> AtWait -> t ∈ wake <$> ws -> t ∈ ws.
Proof. intros H1 H2 (u & -> & Hu)%list_elem_of_fmap. by destruct u. Qed.

Lemma alert_main k s r : alert s -> main_act k s = Some r -> alert r.1.
Proof.
  intros Ha. pose proof Ha as [H1 H2 H3 H4]. unfold main_act. destruct (notify s) as [[]|] eqn:En.
  - destruct (existsb asleep (workers s)) eqn:Ee.
    + unfold wake_worker. cbn [workers main_at]. destruct (workers s !! k) as [[]|] eqn:Hk; try done.
      intros [= <-]. by apply (alert_active s k Asleep).
    + intros [= <-]. split; cbn; try done. intros Hs _ _. apply all_awake; auto.
  - intros [= <-]. split; cbn.
    + by intros E%fmap_nil_inv.
    + intros H. by apply H2, wake_in.
    + intros Hs H. by apply (H3 Hs), wake_in.
    + intros Hs _ _. assert (existsb asleep (wake <$> workers s) = false) as Hw.
      { clear. induction (workers s) as [|t ws IH]; [done|]. cbn. rewrite IH. by destruct t. }
      apply all_awake; [done| | |by intros E%fmap_nil_inv].
      * intros H. by apply H2, wake_in.
      * intros H. by apply (H3 Hs), wake_in.
  - destruct (calls s) as [|[t|ts| |] l] eqn:Ec; try done; try (by intros [= <-]; split; cbn).
    destruct (forallb ended (workers s)) eqn:Ee; [|done]. by intros [= <-]; split; cbn.
Qed.

Lemma exec_alert s l tr s' : exec s l tr s' -> alert s -> alert s'.
Proof.
  induction 1 as [s|a s s1 o l tr s2 Ha _ IH]; [done|]. intros Hs. apply IH. clear IH.
  destruct a as [i|k|i]; cbn [act] in Ha.
  - unfold worker_act in Ha. destruct (workers s !! i) as [[| |t|t| |]|] eqn:Hi; try done.
    + injection Ha as E. pose proof (alert_wait i s Hs Hi) as H. by rewrite E in H.
    + injection Ha as <- <-. by apply (alert_active s i (Announcing t)).
    + injection Ha as <- <-. by apply (alert_active s i (Executing t)).
  - by apply (alert_main k s (s1, o)).
  - by apply (alert_wake i s (s1, o)).
Qed.

(** ** The workers empty the queue *)

Definition cost (t : worker) : nat :=
  match t with AtWait => 1 | Executing _ => 2 | Announcing _ => 3 | _ => 0 end.
Definition left_to_do (s : service) : nat :=
  3 * length (m_Queue (queue s)) + list_sum (cost <$> workers s).

Lemma cost_insert ws i t t' : ws !! i = Some t ->
  list_sum (cost <$> <[i := t']> ws) + cost t = list_sum (cost <$> ws) + cost t'.
Proof.
  intros H. rewrite insert_take_drop by (by eapply lookup_lt_Some).
  rewrite <- (take_drop_middle ws i t H) at 3. rewrite !fmap_app, !list_sum_app. cbn. lia.
Qed.

Lemma work_costs i s s1 o : worker_act i s = Some (s1, o) -> left_to_do s1 < left_to_do s.
Proof.
  unfold worker_act, left_to_do. destruct (workers s !! i) as [t|] eqn:Hi; [|done].
  pose proof (fun t' => cost_insert _ _ _ t' Hi) as Hc.
  destruct t as [| |t|t| |]; try done.
  - intros [= E]. unfold wait_turn, HasPendingTask, GetNextTask in E.
    destruct (IsQueueStopped (queue s)); cbn [orb] in E.
    { injection E as <- <-. specialize (Hc Ended). cbn [queue workers set_worker set_queue print m_Queue length cost] in *. lia. }
    destruct (m_Queue (queue s)) as [|t l] eqn:Eq.
    { injection E as <- <-. specialize (Hc Asleep). cbn [queue workers set_worker set_queue print m_Queue length cost] in *. rewrite Eq. cbn [length]. lia. }
    injection E as <- <-. specialize (Hc (Announcing t)). cbn [queue workers set_worker set_queue print m_Queue length cost] in *. lia.
  - intros [= <- <-]. specialize (Hc (Executing t)). cbn [queue workers set_worker set_queue print m_Queue length cost] in *. lia.
  - intros [= <- <-]. specialize (Hc AtWait). cbn [queue workers set_worker set_queue print m_Queue length cost] in *. lia.
Qed.

Definition by_workers (l : list action) : Prop :=
  Forall (fun a => match a with Worker _ => True | _ => False end) l.

(** What the workers alone leave as it is *)
Lemma work_keeps i s s1 o : worker_act i s = Some (s1, o) ->
  notify s1 = notify s /\ calls s1 = calls s /\ IsQueueStopped (queue s1) = IsQueueStopped (queue s).
Proof.
  unfold worker_act. destruct (workers s !! i) as [[| |t|t| |]|]; try done; [|by intros [= <- <-]..].
  intros [= E]. unfold wait_turn, HasPendingTask, GetNextTask, IsQueueStopped in *.
  destruct (m_QueueIsStopped (queue s)) eqn:Es; cbn [orb] in E; [by injection E as <- <-|].
  destruct (m_Queue (queue s)) eqn:Eq; by injection E as <- <-.
Qed.

Lemma works_out l s tr s' : by_workers l -> exec s l tr s' ->
  length l + left_to_do s' <= left_to_do s /\ notify s' = notify s /\ calls s' = calls s /\
  IsQueueStopped (queue s') = IsQueueStopped (queue s).
Proof.
  intros Hl H. induction H as [s|a s s1 o l tr s2 Ha _ IH]; [cbn; by split_and!|].
  apply Forall_cons in Hl as [Hw Hl]. destruct a as [i|k|i]; [|done..]. cbn [act] in Ha.
  destruct (IH Hl) as (I1 & I2 & I3 & I4). destruct (work_keeps _ _ _ _ Ha) as (K1 & K2 & K3).
  pose proof (work_costs _ _ _ _ Ha). cbn [length]. split_and!; try congruence. lia.
Qed.

(** Started: no task yet, every worker at the head of its loop *)
Definition started (n : nat) (l : list call) : service := {|
  queue := empty_queue; workers := replicate n AtWait; cout := []; notify := None; calls := l |}.

Lemma held_start n : flat_map held (replicate n AtWait) = [].
Proof. induction n as [|n IH]; [done|]. cbn. by rewrite IH. Qed.

Lemma started_alert n l : alert (started (S n) l).
Proof.
  split; cbn; try done.
  - intros H. apply elem_of_cons in H as [|H]; [done|]. apply elem_of_replicate in H as [? _]. done.
  - intros _ H. apply elem_of_cons in H as [|H]; [done|]. apply elem_of_replicate in H as [? _]. done.
Qed.

Lemma stuck_workers s : alert s -> IsQueueStopped (queue s) = false -> notify s = None ->
  (forall i, worker_act i s = None) -> m_Queue (queue s) = [] /\ flat_map held (workers s) = [].
Proof.
  intros [H1 H2 H3 H4] Hs Hn Hst.
  assert (forall t, t ∈ workers s -> may_move t = false) as Hall.
  { intros t [i Hi]%list_elem_of_lookup. specialize (Hst i). unfold worker_act in Hst.
    rewrite Hi in Hst. by destruct t. }
  split.
  - destruct (m_Queue (queue s)) eqn:Eq; [done|]. destruct H4 as (u & Ht & Hm); [done| |done|].
    + unfold HasPendingTask. by rewrite Eq.
    + by rewrite Hall in Hm.
  - revert Hall. clear. induction (workers s) as [|t ws IH]; intros H; [done|]. cbn.
    rewrite IH by (intros u Hu; apply H; by right). specialize (H t ltac:(by left)). by destruct t.
Qed.

Lemma exec_app s l1 tr1 s1 l2 tr2 s2 : exec s l1 tr1 s1 -> exec s1 l2 tr2 s2 ->
  exec s (l1 ++ l2) (tr1 ++ tr2) s2.
Proof.
  induction 1 as [|a s s1 o l tr s2' Ha _ IH]; [done|]. intros H. cbn. rewrite <- app_assoc.
  econstructor; [done|by apply IH].
Qed.

(** The queue under any interleaving of its workers, its owner and spurious
    wake-ups: tasks are taken in the order they were pushed, the tasks that
    have run and those that workers hold are the tasks taken (so none runs
    twice), and no worker takes from an empty queue. *)
Theorem tasks_in_order n l acts tr s : exec (started (S n) l) acts tr s ->
  (exists done, l = done ++ calls s /\ took tr ++ m_Queue (queue s) = pushes done) /\
  ran tr ++ flat_map held (workers s) ≡ₚ took tr /\ Broken ∉ workers s.
Proof.
  intros H. pose proof (exec_alert _ _ _ _ H (started_alert n l)) as [_ Hb _ _].
  destruct (exec_books _ _ _ _ H) as (done & C & Q & P). cbn [started calls queue workers] in *.
  split; [by exists done|]. split; [|done].
  by rewrite P, held_start.
Qed.

(** No task is forgotten before the queue is stopped: from any moment
    between two calls of the owner, the workers alone stop moving after three
    actions for a task in the queue or in hand and one for a worker, and when
    none can move the queue is empty and every task taken has run. *)
Theorem queue_drained n l acts tr s : exec (started (S n) l) acts tr s ->
  IsQueueStopped (queue s) = false -> notify s = None ->
  forall more tr' s', by_workers more -> exec s more tr' s' ->
  length more <= left_to_do s /\
  ((forall i, worker_act i s' = None) ->
   m_Queue (queue s') = [] /\ took tr' = m_Queue (queue s) /\ ran (tr ++ tr') ≡ₚ took (tr ++ tr')).
Proof.
  intros H Hs Hn more tr' s' Hw H'. destruct (works_out _ _ _ _ Hw H') as (W1 & W2 & W3 & W4).
  split; [lia|]. intros Hst.
  pose proof (exec_alert _ _ _ _ (exec_app _ _ _ _ _ _ _ H H') (started_alert n l)) as Ha.
  destruct (stuck_workers s' Ha) as [Eq Eh]; [congruence..|done|].
  destruct (exec_books _ _ _ _ H') as (done & C & Q & _).
  destruct (exec_books _ _ _ _ (exec_app _ _ _ _ _ _ _ H H')) as (done' & _ & _ & P).
  assert (done = []) as ->.
  { rewrite W3 in C. apply (f_equal length) in C. rewrite length_app in C. destruct done; cbn in C; [done|lia]. }
  rewrite Eq, !app_nil_r in Q. rewrite Eh, app_nil_r in P. split; [done|]. split; [done|].
  rewrite P. cbn [started workers]. by rewrite held_start.
Qed.

(** ** Stopping *)

(** [StopQueue] neither takes the lock nor notifies: what it leaves of a stopped
    queue with nothing more to push *)
Definition closing (s : service) : Prop :=
  IsQueueStopped (queue s) = true /\ notify s = None /\ calls s = [Join].

Definition woken (i : nat) (a : action) : bool :=
  match a with Spurious j => (i =? j)%nat | _ => false end.

Lemma sleeps_on i a s s1 o : closing s -> workers s !! i = Some Asleep -> woken i a = false ->
  act a s = Some (s1, o) ->
  closing s1 /\ workers s1 !! i = Some Asleep /\ took (option_list o) = [].
Proof.
  intros (Hs & Hn & Hc) Hi Hw Ha. destruct a as [j|k|j]; cbn [act] in Ha.
  - destruct (work_keeps _ _ _ _ Ha) as (K1 & K2 & K3). split; [by split_and!; congruence|].
    unfold worker_act in Ha. destruct (decide (j = i)) as [->|Hj]; [by rewrite Hi in Ha|].
    destruct (workers s !! j) as [[| |t|t| |]|]; try done.
    + injection Ha as E. unfold wait_turn in E. rewrite Hs in E. cbn [orb] in E. injection E as <- <-.
      split; [|done]. cbn. by rewrite list_lookup_insert_ne.
    + injection Ha as <- <-. split; [|done]. cbn. by rewrite list_lookup_insert_ne.
    + injection Ha as <- <-. split; [|done]. cbn. by rewrite list_lookup_insert_ne.
  - unfold main_act in Ha. rewrite Hn, Hc in Ha.
    destruct (forallb ended (workers s)) eqn:Ee; [|done]. rewrite forallb_forall in Ee.
    specialize (Ee Asleep). rewrite <- list_elem_of_In in Ee. by specialize (Ee (list_elem_of_lookup_2 _ _ _ Hi)).
  - unfold wake_worker in Ha. cbn in Hw. apply Nat.eqb_neq in Hw.
    destruct (workers s !! j) as [[]|]; try done. injection Ha as <- <-.
    split; [by split_and!|]. split; [|done]. cbn. by rewrite list_lookup_insert_ne.
Qed.

(** The end of the service: once the queue is stopped no task is taken any
    more, whatever is still queued; and a worker asleep at that moment sleeps on
    until the system wakes it for no reason, so that [join] never returns. *)
Theorem stop_never_joins i s acts tr s' : closing s -> workers s !! i = Some Asleep ->
  exec s acts tr s' -> Forall (fun a => woken i a = false) acts ->
  calls s' = [Join] /\ workers s' !! i = Some Asleep /\ took tr = [] /\ m_Queue (queue s') = m_Queue (queue s).
Proof.
  intros Hc Hi H Hw. enough (closing s' /\ workers s' !! i = Some Asleep /\ took tr = []) as (C & W & T).
  { split_and!; [apply C|done|done|]. destruct (exec_books _ _ _ _ H) as (done & E & Q & _).
    destruct Hc as (_ & _ & Hc), C as (_ & _ & C). rewrite Hc, C in E.
    destruct done as [|c done]; [by rewrite T, app_nil_r in Q|].
    apply (f_equal length) in E. rewrite length_app in E. cbn in E. lia. }
  induction H as [s|a s s1 o l tr s2 Ha _ IH]; [done|].
  apply Forall_cons in Hw as [Hwa Hw]. destruct (sleeps_on i a s s1 o Hc Hi Hwa Ha) as (C1 & W1 & T1).
  rewrite took_app, T1. by apply IH.
Qed.

(** ** A run of the service *)

Section queue_witnesses.

(** The actions of a list, those that cannot be done left out *)
Fixpoint perform (l : list action) (s : service) : list action * list event * service :=
  match l with
  | [] => ([], [], s)
  | a :: l =>
      match act a s with
      | Some (s1, o) =>
          let '(acts, tr, s2) := perform l s1 in (a :: acts, option_list o ++ tr, s2)
      | None => perform l s
      end
  end.
Lemma perform_exec l s : exec s (perform l s).1.1 (perform l s).1.2 (perform l s).2.
Proof.
  revert s. induction l as [|a l IH]; intros s; cbn [perform]; [constructor|].
  destruct (act a s) as [[s1 o]|] eqn:Ha; [|apply IH]. specialize (IH s1).
  destruct (perform l s1) as [[acts tr] s2]. cbn [fst snd] in *. by econstructor.
Qed.

(** Three processors; the two workers and the owner in turn *)
Definition turns (n : nat) : list action := concat (replicate n [Worker 0; Main 0; Main 1; Worker 1]).
Definition demo_calls : list call := service_calls (fun i => (100 * i)%Z).
Definition demo : list action * list event * service :=
  perform (turns 3 ++ [Main 0]) (started 2 demo_calls).

Lemma demo_start : startTaskQueueService 3 (fun i => (100 * i)%Z) = Some (started 2 demo_calls).
Proof. reflexivity. Qed.

Theorem tasks_in_order_witness :
  m_Id <$> took demo.1.2 = [0; 1]%Z /\
  ran demo.1.2 ++ flat_map held (workers demo.2) ≡ₚ took demo.1.2.
Proof.
  split; [reflexivity|].
  apply (tasks_in_order 1 demo_calls demo.1.1 demo.1.2 demo.2), perform_exec.
Defined.

(** Workers alone after the owner has pushed the first tasks *)
Definition drain : list action * list event * service :=
  perform (concat (replicate 30 [Worker 0; Worker 1])) demo.2.

Theorem queue_drained_witness :
  0 < length (m_Queue (queue demo.2)) /\ m_Queue (queue drain.2) = [] /\
  took drain.1.2 = m_Queue (queue demo.2).
Proof.
  split; [apply Nat.ltb_lt; reflexivity|].
  destruct (queue_drained 1 demo_calls demo.1.1 demo.1.2 demo.2 (perform_exec _ _)
    eq_refl eq_refl drain.1.1 drain.1.2 drain.2) as [_ H].
  - repeat constructor.
  - apply perform_exec.
  - destruct H as (H1 & H2 & _); [|by split].
    intros [|[|i]]; reflexivity.
Defined.

(** Both workers sleep when the owner stops the queue. *)
Theorem stop_never_joins_witness :
  let s := main_at None [Join] (set_queue (StopQueue empty_queue) (set_worker 0 Asleep (set_worker 1 Asleep (started 2 [])))) in
  let r := perform (concat (replicate 20 [Main 0; Worker 0; Worker 1; Spurious 1])) s in
  0 < length r.1.1 /\ calls r.2 = [Join] /\ workers r.2 !! 0 = Some Asleep.
Proof.
  intros s r. split; [apply Nat.ltb_lt; reflexivity|].
  destruct (stop_never_joins 0 s r.1.1 r.1.2 r.2) as (H1 & H2 & _).
  - by split_and!.
  - reflexivity.
  - apply perform_exec.
  - repeat constructor.
  - by split.
Defined.
End queue_witnesses.
