(* ===== verification/Tcp.v ===== *)
(** * Routes of the TCP transport

    src/include/routing.hpp and src/src/routing.cpp: a request is a JSON text
    with the path in "query"; the router looks for a callback under the path and
    its text is the answer.  src/include/quarkstcp.hpp: the connection handler
    gives what it has read to the router; the connections are in TcpServer.v.
    The callbacks that write a file, open a socket or sleep are in TcpSite.v. *)

From S2P Require Import Prelude SortedMap Wildcmp Json Store World Scan Frames Cache CoreRead CoreWrite.
From S2P Require Import CoreLists Orm Geohash Geo Http.
Local Open Scope quarks_scope.

Section tcp.
Context {plat : Platform} {R : RocksDB} {A : Arithmetic}.

(** The parameters of Http.v *)
Context (fuel : nat) (uuid : string)
  (std_sort : (rvalue -> rvalue -> outcome bool) -> list rvalue -> outcome (list rvalue))
  (create : option DB -> string -> bool)
  (getKeysMulti : world -> string -> Z -> Z -> SM (list wvalue) bool).

(** ** Requests *)

Record tcp_request := {
  query : string;
  body : string;
  skip : Z;
  limit : Z;
  reverse : bool;
  req : rvalue
}.

(** [if(! (req["body"].size())) body = req["body"].s();] *)
Definition read_body (v : rvalue) : outcome string :=
  let? n := r_size v in
  if (n =? 0)%Z then r_s v else Ok EmptyString.

(** [Request(request)] *)
Definition Request (request : string) : outcome tcp_request :=
  match load request with
  | None => Ok {| query := EmptyString; body := EmptyString; skip := 0; limit := -1;
                  reverse := false; req := None |}
  | x =>
      let? query := member x "query" r_s in
      let? body := member x "body" read_body in
      let? skip := member x "skip" r_i in
      let? limit := member x "limit" r_i in
      let? reverse := member x "reverse" r_b in
      Ok {| query := default EmptyString query; body := default EmptyString body;
            skip := from_option int32 0%Z skip; limit := from_option int32 (-1)%Z limit;
            reverse := default false reverse; req := x |}
  end.

Definition attribute (r : tcp_request) (attrib : string) : outcome string :=
  let? res := member (req r) attrib r_s in Ok (default EmptyString res).
Definition wild_of (r : tcp_request) : outcome string := attribute r "keys".
Definition bodyJson (r : tcp_request) : outcome rvalue :=
  let? x := member (req r) "body" r_copy in Ok (default None x).

(** ** Callbacks *)

#[local] Abbreviation handler := (SM world).

(** [std::string out; op(out); return out;] *)
Definition text_result (op : SM (string * world) bool) : handler string :=
  returning EmptyString (do! op; ret tt).

Definition tcp_put (r : tcp_request) : handler string := text_result (put (body r)).
Definition tcp_existkey (r : tcp_request) : handler string := text_result (exists_ (body r)).
Definition tcp_removeatom (r : tcp_request) : handler string := text_result (removeAtom_body (body r)).
Definition tcp_putjson (r : tcp_request) : handler string := text_result (put (body r)).
Definition tcp_postjson (r : tcp_request) : handler string := text_result (post (body r)).
Definition tcp_putatom (r : tcp_request) : handler string := text_result (putAtom_body (body r)).
Definition tcp_atom (r : tcp_request) : handler string := text_result (atom fuel (body r)).
Definition tcp_incrvalue (r : tcp_request) : handler string := text_result (incrementValue (body r)).
Definition tcp_ping (r : tcp_request) : handler string := ret "pong".

Definition tcp_get (r : tcp_request) : handler string :=
  returning EmptyString
    (try_runtime
       (let! key := lift (attribute r "key") in
        let! (_, value) := outer (get key EmptyString) in set_out value)
       (fun _ => set_out parsing_error)).

Definition tcp_getall (r : tcp_request) : handler wvalue :=
  with_locals WNull
    (try_runtime
       (results_of
          (let! wild := lift (wild_of r) in
           reads (fun w => getAll fuel w wild (skip r) (limit r))))
       handle_runtime_error).

Definition tcp_getsorted (r : tcp_request) : handler wvalue :=
  with_locals WNull
    (try_runtime
       (let! sortby := lift (attribute r "sortby") in
        let! filterBy := lift (attribute r "filter") in
        let! descending := lift (attribute r "des") in
        let! wild := lift (wild_of r) in
        match wild with
        | EmptyString => set_member "error" err_keys
        | _ =>
            let ascending := negb (String.eqb descending "true") in
            results_of (reads (fun w =>
              getSorted fuel std_sort w wild sortby ascending (skip r) (limit r) filterBy))
        end)
       handle_runtime_error).

Definition tcp_getkeys (r : tcp_request) : handler string :=
  returning EmptyString
    (try_runtime
       (let! wild := lift (wild_of r) in
        match wild with
        | EmptyString => ret tt
        | _ =>
            let! ok := reads (fun w =>
              if reverse r then getKeysReversed_out fuel w wild (skip r) (limit r)
              else getKeys_out fuel w wild (skip r) (limit r)) in
            if ok : bool then ret tt else keys_error
        end)
       handle_runtime_error_text).

Definition tcp_getkeysmulti (r : tcp_request) : handler wvalue :=
  with_locals WNull
    (try_runtime
       (match body r with
        | EmptyString =>
            set_member "error" (WStr (q "{`error`:`parameter 'body' missing or has no content`}"))
        | body => results_of (reads (fun w => getKeysMulti w body (skip r) (limit r)))
        end)
       handle_runtime_error).

(** What is written first is overwritten when the count failed, a missing
    pattern included. *)
Definition tcp_getcount (r : tcp_request) : handler string :=
  returning EmptyString
    (try_runtime
       (let! wild := lift (wild_of r) in
        let! ok :=
          match wild with
          | EmptyString => do! set_out err_key; ret false
          | _ =>
              let! (ok, count) := outer (fun w =>
                let '(o, count) := getCount fuel w wild (skip r) (limit r) 0%Z in
                (let? ok := o in Ok (ok, count), w)) in
              do! set_out (to_string count); ret ok
          end in
        if ok : bool then ret tt else set_out (q "{`error` : `counting error`}"))
       set_out).

Definition tcp_iter (r : tcp_request) : handler wvalue :=
  with_locals WNull
    (try_runtime (results_of (reads (fun w => iter fuel w (skip r) (limit r))))
       handle_runtime_error).

Definition tcp_removekey (r : tcp_request) : handler string :=
  returning EmptyString
    (try_runtime
       (let! key := lift (attribute r "key") in
        match key with
        | EmptyString => set_out err_key
        | _ => do! remove key; ret tt
        end)
       set_out).

Definition tcp_removekeys (r : tcp_request) : handler wvalue :=
  returning WNull
    (try_runtime
       (let! wild := lift (wild_of r) in
        match wild with
        | EmptyString => set_member "error" err_keys
        | _ =>
            let! removeCount := outer (removeAll fuel wild (skip r) (limit r)) in
            set_member "result" (w_int removeCount)
        end)
       (fun what => set_member "error" (WStr what))).

Definition tcp_make (r : tcp_request) : handler wvalue :=
  returning WNull
    (try_runtime (do! makePair uuid (body r); ret tt)
       (fun _ => set_member "error" (WStr "runtime error"))).

(** [auto x = req.bodyJson(); if(!x) { ... }] *)
Definition with_body {B} (r : tcp_request) (invalid : B) (k : rvalue -> handler B) : handler B :=
  let! x := lift (bodyJson r) in
  match x with None => ret invalid | x => k x end.

Definition tcp_getjson (r : tcp_request) : handler wvalue :=
  with_body r (w_set "error" (WStr "invalid parameters") WNull) (fun x =>
    returning WNull
      (try_runtime
         (let! key := lift (r_at_s x "key") in do! getJson key; ret tt)
         (fun _ => set_member "error" (WStr "parameter 'key' missing")))).

Definition tcp_getlist (r : tcp_request) : handler string :=
  with_body r (q "{`result`:[],`error`:`invalid json body`}") (fun x =>
    text_result (getList_out x (skip r) (limit r))).

Definition invalid_parameters : wvalue := w_set "error" (WStr "invalid parameters") no_result.

Definition tcp_getitems (r : tcp_request) : handler wvalue :=
  with_body r invalid_parameters (fun x =>
    with_locals no_result
      (let! ok := (fun '(out, (rs, w)) =>
                     let '(o, out) := getItems w x (skip r) (limit r) out in (o, (out, (rs, w)))) in
       if ok : bool then ret tt
       else set_member "error"
              (WStr "One or more keys did not retrieve the corresponding item"))).

Definition tcp_list (r : tcp_request) (op : rvalue -> SM (list wvalue * world) bool)
    : handler wvalue :=
  with_body r invalid_parameters (fun x =>
    with_locals no_result
      (let! ok := outer (op x) in
       do! move_results;
       if ok : bool then ret tt else set_member "error" (WStr "runtime error"))).

Definition tcp_getjoinedmap (r : tcp_request) : handler wvalue :=
  tcp_list r (fun x => reads (fun w => getJoinedMap fuel w x (skip r) (limit r))).
Definition tcp_getkeysafter (r : tcp_request) : handler wvalue :=
  tcp_list r (fun x => reads (fun w => getKeysAfter fuel w x (skip r) (limit r))).
Definition tcp_getkeyslast (r : tcp_request) : handler wvalue :=
  tcp_list r (fun x => reads (fun w => getKeysLast fuel w x)).

Definition tcp_searchjson (r : tcp_request) : handler wvalue :=
  with_body r invalid_parameters (fun x =>
    with_locals no_result
      (do! outer (searchJson fuel x (skip r) (limit r)); move_some_results)).

Definition tcp_incr (r : tcp_request) : handler string :=
  with_body r (q "{`error`:`invalid parameters`}") (fun x =>
    let! key := lift (r_at_s x "key") in
    let! stepBy := lift (let? v := r_at x "step" in r_i v) in
    text_result (increment key (int32 stepBy))).

Definition tcp_backup (r : tcp_request) : handler string :=
  with_body r (q "{`result`:false, `error`:`invalid parameters`}") (fun p =>
    let! path := lift (member p "path" r_s) in
    let! ok := backup create (default EmptyString path) in
    ret (if ok : bool then result_true else result_false)).

Definition tcp_log (r : tcp_request) : handler string :=
  let! ok := setLogger (c_str (body r)) in
  ret (if ok : bool then result_true else result_false).

(** ** The router *)

(** The two tables: callbacks that give a text, and a JSON value *)
Inductive tcp_route :=
  | ToString (callback : tcp_request -> handler string)
  | ToJson (callback : tcp_request -> handler wvalue).

Definition tcp_routes : list (string * tcp_route) := [
  ("/put", ToString tcp_put);
  ("/exists", ToString tcp_existkey);
  ("/get", ToString tcp_get);
  ("/getall", ToJson tcp_getall);
  ("/getsorted", ToJson tcp_getsorted);
  ("/getkeys", ToString tcp_getkeys);
  ("/getkeysmulti", ToJson tcp_getkeysmulti);
  ("/getcount", ToString tcp_getcount);
  ("/iter", ToJson tcp_iter);
  ("/remove", ToString tcp_removekey);
  ("/removeall", ToJson tcp_removekeys);
  ("/remove/atom", ToString tcp_removeatom);
  ("/putjson", ToString tcp_putjson);
  ("/postjson", ToString tcp_postjson);
  ("/put/atom", ToString tcp_putatom);
  ("/atom", ToString tcp_atom);
  ("/make", ToJson tcp_make);
  ("/getjson", ToJson tcp_getjson);
  ("/getlist", ToString tcp_getlist);
  ("/getitems", ToJson tcp_getitems);
  ("/getjoinedmap", ToJson tcp_getjoinedmap);
  ("/getkeysafter", ToJson tcp_getkeysafter);
  ("/getkeyslast", ToJson tcp_getkeyslast);
  ("/incr", ToString tcp_incr);
  ("/incrval", ToString tcp_incrvalue);
  ("/searchjson", ToJson tcp_searchjson);
  ("/backup", ToString tcp_backup);
  ("/log", ToString tcp_log);
  ("/ping", ToString tcp_ping)
].

(** [dispatch]: a path under no callback is answered by an empty text. *)
Definition dispatch (requestStr : string) : handler string :=
  try_runtime
    (let! r := lift (Request requestStr) in
     match assoc (query r) tcp_routes with
     | Some (ToString callback) => callback r
     | Some (ToJson callback) => let! w := callback r in ret (dump w)
     | None => ret EmptyString
     end)
    (fun _ => ret (q "{`error`:`dispatch error`}")).

(** ** The connection *)

Definition max_length : Z := 1024 * 1024.

(** [handle_read] for the bytes transferred: the message to write, and whether
    the server is told to stop.  The zero behind the bytes must be in the
    block. *)
Definition handle_read (data : string) : handler (string * bool) :=
  if (Z.of_nat (String.length data) <? max_length)%Z then
    if String.eqb (c_str data) "quit" then ret ("quit", true)
    else let! message := dispatch (c_str data) in ret (message, false)
  else undef.
End tcp.

(** ** The body of a request *)

Section bodies.
Context {plat : Platform}.

Lemma read_body_empty v s : read_body v = Ok s -> s = EmptyString.
Proof.
  unfold read_body. destruct v as [[| | |t|raw|l|ms]|]; cbn [r_size obind]; try done.
  - destruct (Z.eqb_spec (Z.of_nat (String.length (unescape raw))) 0) as [E|]; [|by intros [= <-]].
    cbn. intros [= <-]. by destruct (unescape raw).
  - by destruct (_ =? _)%Z; [|intros [= <-]].
  - by destruct (_ =? _)%Z; [|intros [= <-]].
Qed.

(** A request never has a body: the text is read only when it is empty. *)
Lemma Request_body s r : Request s = Ok r -> body r = EmptyString.
Proof.
  unfold Request. destruct (load s) as [x|]; [|by intros [= <-]].
  destruct (member (Some x) "query" r_s) as [qu| | |]; try done. cbn [obind].
  destruct (member (Some x) "body" read_body) as [b| | |] eqn:Eb; try done. cbn [obind].
  destruct (member (Some x) "skip" r_i) as [sk| | |]; try done. cbn [obind].
  destruct (member (Some x) "limit" r_i) as [li| | |]; try done. cbn [obind].
  destruct (member (Some x) "reverse" r_b) as [re| | |]; try done. intros [= <-]. cbn [body].
  unfold member in Eb. destruct (r_has (Some x) "body") as [[]| | |]; try done; cbn [obind] in Eb.
  - destruct (r_at (Some x) "body") as [v| | |]; try done. cbn [obind] in Eb.
    destruct (read_body v) as [t| | |] eqn:Et; try done. injection Eb as <-.
    by apply read_body_empty in Et.
  - by injection Eb as <-.
Qed.
End bodies.

Section tcp_frames.
Context {plat : Platform} {R : RocksDB} {A : Arithmetic}.
Context (fuel : nat) (uuid : string)
  (std_sort : (rvalue -> rvalue -> outcome bool) -> list rvalue -> outcome (list rvalue))
  (create : option DB -> string -> bool)
  (getKeysMulti : world -> string -> Z -> Z -> SM (list wvalue) bool).
Context (w0 : world).
#[local] Abbreviation I := (same_store w0).
#[local] Abbreviation dispatching := (dispatch fuel uuid std_sort create getKeysMulti).
#[local] Abbreviation routes := (tcp_routes fuel uuid std_sort create getKeysMulti).

(** The paths of the changes that need no body, and of the logger *)
Definition changing_paths : list string := ["/remove"; "/removeall"; "/incr"; "/log"].

Lemma reads_text_result op : preserves (behind I) op -> preserves I (text_result op).
Proof. intros H. unfold text_result. eauto 12 with frames. Qed.

Lemma reads_with_body {B} r (b : B) k : (forall x, preserves I (k x)) -> preserves I (with_body r b k).
Proof.
  intros H. unfold with_body. apply preserves_bind; [auto with frames|]. intros [x|]; auto with frames.
Qed.

Lemma reads_tcp_list r op : (forall x, preserves (behind I) (op x)) -> preserves I (tcp_list r op).
Proof. intros H. apply reads_with_body. intros x. eauto 20 with frames. Qed.
Hint Resolve reads_text_result reads_with_body reads_tcp_list : frames.

(** The operations on a body do nothing with an empty one. *)
Lemma reads_no_body op : (forall w, (op (EmptyString, w)).2.2 = w) -> preserves I (text_result op).
Proof.
  intros H w Hw. unfold text_result, returning, bind. specialize (H w).
  destruct (op (EmptyString, w)) as [[| | |] [out w']]; cbn in *; by subst.
Qed.

Lemma reads_tcp_get r : preserves I (tcp_get r).
Proof. unfold tcp_get. eauto 20 with frames. Qed.

Lemma reads_tcp_getall r : preserves I (tcp_getall fuel r).
Proof. unfold tcp_getall. eauto 20 with frames. Qed.

Lemma reads_tcp_getsorted r : preserves I (tcp_getsorted fuel std_sort r).
Proof.
  unfold tcp_getsorted. apply reads_with_locals, preserves_try; [|auto with frames].
  do 4 (apply preserves_bind; [auto with frames|]; intros ?).
  match goal with |- context [match ?x with _ => _ end] => destruct x end; auto with frames.
Qed.

Lemma reads_tcp_getkeys r : preserves I (tcp_getkeys fuel r).
Proof.
  unfold tcp_getkeys. apply preserves_returning, preserves_try; [|auto with frames].
  apply preserves_bind; [auto with frames|]. intros []; [auto with frames|].
  apply preserves_bind; [auto with frames|]. intros []; auto with frames.
Qed.

Lemma reads_tcp_getkeysmulti r : preserves I (tcp_getkeysmulti getKeysMulti r).
Proof.
  unfold tcp_getkeysmulti. apply reads_with_locals, preserves_try; [|auto with frames].
  destruct (body r); auto with frames.
Qed.

Lemma reads_tcp_getcount r : preserves I (tcp_getcount fuel r).
Proof.
  unfold tcp_getcount. apply preserves_returning, preserves_try; [|auto with frames].
  apply preserves_bind; [auto with frames|]. intros wild.
  apply preserves_bind; [|intros []; auto with frames]. destruct wild; [eauto with frames|].
  apply preserves_bind; [|intros []; eauto with frames].
  apply preserves_outer. intros w Hw. by destruct (getCount _ _ _ _ _ _).
Qed.

Lemma reads_tcp_iter r : preserves I (tcp_iter fuel r).
Proof. unfold tcp_iter. eauto 20 with frames. Qed.

Lemma reads_tcp_make r : body r = EmptyString -> preserves I (tcp_make uuid r).
Proof. intros E w Hw. unfold tcp_make. by rewrite E. Qed.

Lemma reads_tcp_getjson r : preserves I (tcp_getjson r).
Proof. apply reads_with_body. intros x. eauto 20 with frames. Qed.

Lemma reads_tcp_getlist r : preserves I (tcp_getlist r).
Proof. apply reads_with_body. intros x. auto with frames. Qed.

Lemma reads_tcp_getitems r : preserves I (tcp_getitems r).
Proof.
  apply reads_with_body. intros x. apply reads_with_locals.
  apply preserves_bind; [|intros []; auto with frames].
  intros [out [rs w]] H. by destruct (getItems w x (skip r) (limit r) out).
Qed.

Lemma reads_tcp_searchjson r : preserves I (tcp_searchjson fuel r).
Proof. apply reads_with_body. intros x. eauto 20 with frames. Qed.

Lemma reads_tcp_backup r : preserves I (tcp_backup create r).
Proof. apply reads_with_body. intros x. unfold backup. eauto 20 with frames. Qed.
Hint Resolve reads_tcp_get reads_tcp_getall reads_tcp_getsorted reads_tcp_getkeys
  reads_tcp_getkeysmulti reads_tcp_getcount reads_tcp_iter reads_tcp_make reads_tcp_getjson
  reads_tcp_getlist reads_tcp_getitems reads_tcp_searchjson reads_tcp_backup : frames.

Definition callback_of (rt : tcp_route) (r : tcp_request) : SM world string :=
  match rt with
  | ToString callback => callback r
  | ToJson callback => let! w := callback r in ret (dump w)
  end.

Lemma reads_route path rt r : (path, rt) ∈ routes -> path ∉ changing_paths ->
  body r = EmptyString -> preserves I (callback_of rt r).
Proof.
  intros Hr Hp Hb. apply list_elem_of_In in Hr. cbn in Hr.
  repeat (destruct Hr as [[= <- <-]|Hr]; [
    try (by destruct Hp; apply (bool_decide_unpack _)); clear Hp; cbn [callback_of];
    solve [apply reads_no_body; intros w; by rewrite Hb|apply reads_text_result, reads_exists
          |apply preserves_ret|eauto 12 with frames]|]).
  done.
Qed.
End tcp_frames.

(** ** The properties *)

Section tcp_properties.
Context {plat : Platform} {R : RocksDB} {A : Arithmetic}.
Context (usable : Z -> Z) (fuel : nat) (uuid : string)
  (std_sort : (rvalue -> rvalue -> outcome bool) -> list rvalue -> outcome (list rvalue))
  (create : option DB -> string -> bool)
  (getKeysMulti : world -> string -> Z -> Z -> SM (list wvalue) bool).
#[local] Abbreviation dispatching := (dispatch fuel uuid std_sort create getKeysMulti).
#[local] Abbreviation routes := (tcp_routes fuel uuid std_sort create getKeysMulti).
#[local] Abbreviation serving := (serve usable fuel uuid std_sort create getKeysMulti).

Lemma assoc_in {T} k (l : list (string * T)) v : assoc k l = Some v -> (k, v) ∈ l.
Proof.
  induction l as [|[k' v'] l IH]; cbn; [done|]. destruct (decide (k = k')) as [->|].
  - intros [= ->]. by left.
  - intros H. right. by apply IH.
Qed.

(** What a router does after it has read the request *)
Lemma dispatch_route data r w : Request data = Ok r ->
  dispatching data w =
  try_runtime (match assoc (query r) routes with
               | Some rt => callback_of rt r
               | None => ret EmptyString
               end) (fun _ => ret (q "{`error`:`dispatch error`}")) w.
Proof.
  intros E. unfold dispatch. unfold try_runtime at 1. erewrite bind_lift_ok by exact E.
  by destruct (assoc (query r) routes) as [[]|].
Qed.

(** a request to the TCP server has no body, whatever its text: the router
    reads the body only when its text is empty.  So the requests that store
    something from their body are refused, and nothing but the removals,
    [/incr], which takes an object from the request, and [/log] changes the
    store, the options or what is sent to other nodes. *)
Theorem tcp_without_body (data : string) (r : tcp_request) (w : world) :
  Request data = Ok r ->
  body r = EmptyString /\
  (query r ∈ ["/put"; "/putjson"; "/postjson"] ->
   dispatching data w = (Ok (q "{`error`: `Invalid put body`}"), w)) /\
  (query r ∉ changing_paths -> same_store w (dispatching data w).2).
Proof.
  intros E. pose proof (Request_body _ _ E) as Hb. rewrite (dispatch_route _ r) by done.
  split; [done|]. split.
  - intros Hq. destruct r as [qu b sk li re rq]. cbn [body query] in *. subst b.
    repeat (apply elem_of_cons in Hq as [->|Hq]; [reflexivity|]). by apply elem_of_nil in Hq.
  - intros Hq. destruct (assoc (query r) routes) as [rt|] eqn:Ert; [|done].
    apply assoc_in in Ert.
    assert (preserves (same_store w) (try_runtime (callback_of rt r)
      (fun _ => ret (q "{`error`:`dispatch error`}")))) as H.
    { apply preserves_try; [|auto with frames]. by eapply reads_route. }
    by apply (H w).
Qed.

(** The requests that mean the same: the window, the pattern or the key, and for
    [/getsorted] the criteria.  ([/iter] over TCP only goes forwards.) *)
Definition same_criteria (h : request) (r : tcp_request) : Prop :=
  attribute r "sortby" = Ok (param_or h "sortby" EmptyString) /\
  attribute r "filter" = Ok (param_or h "filter" EmptyString) /\
  exists des, attribute r "des" = Ok des /\
    String.eqb des "true" = String.eqb (param_or h "des" "false") "true".
Definition pattern_paths : list string :=
  ["/getall"; "/getkeys"; "/getcount"; "/removeall"; "/getsorted"].
Definition key_paths : list string := ["/get"; "/remove"].
Definition same_query (h : request) (r : tcp_request) : Prop :=
  url h = query r /\ method h = GET /\ window (Parse h) = Ok (skip r, limit r) /\
  reversed h = reverse r /\
  (query r ∈ pattern_paths -> wild_of r = Ok (wild (Parse h)) /\ wild (Parse h) <> EmptyString) /\
  (query r ∈ key_paths -> attribute r "key" = Ok (key_of h) /\ key_of h <> EmptyString) /\
  (query r = "/getsorted" -> same_criteria h r) /\
  (query r = "/iter" -> reverse r = false).

Definition common_paths : list string := pattern_paths ++ key_paths ++ ["/iter"; "/ping"].

(** A callback of HTTP that gives the result of one of TCP as an answer *)
Definition answers_as {B} (route : SM world answer) (f : B -> answer) (t : SM world B) (w : world)
    : Prop :=
  route w = let '(o, w1) := t w in (let? v := o in Ok (f v), w1).

Lemma agree {B} route (f : B -> answer) t w w' resp : answers_as route f t w ->
  guarded route w = (Ok resp, w') -> code resp = 200%Z ->
  try_runtime (let! v := t in ret (text (answer_response (f v))))
    (fun _ => ret (q "{`error`:`dispatch error`}")) w = (Ok (text resp), w').
Proof.
  intros Ha Hg Hc. unfold answers_as in Ha. unfold guarded in Hg. rewrite Ha in Hg.
  unfold try_runtime, bind, ret.
  destruct (t w) as [[v|e| |] w1]; cbn [obind] in Hg; try done; [by injection Hg as <- <-|].
  by injection Hg as <- <-.
Qed.

Section agreement.
Context (h : request) (r : tcp_request) (w : world).
Hypothesis (Hwin : window (Parse h) = Ok (skip r, limit r)) (Hrev : reversed h = reverse r).

Section pattern.
Hypothesis (Hw : wild_of r = Ok (wild (Parse h))) (Hne : wild (Parse h) <> EmptyString).

Lemma agree_getall : answers_as (route_core_getall fuel h) Json (tcp_getall fuel r) w.
Proof.
  unfold answers_as, route_core_getall, wild_route, tcp_getall.
  destruct (wild (Parse h)) as [|c wd]; [done|].
  unfold with_locals, results_of, try_runtime, local, returning, outer, reads, bind, lift.
  rewrite Hwin, Hw. by destruct (getAll _ _ _ _ _ _) as [[[]|[]| |] ?].
Qed.

Lemma agree_getsorted : same_criteria h r ->
  answers_as (route_core_getsorted fuel std_sort h) Json (tcp_getsorted fuel std_sort r) w.
Proof.
  intros (H1 & H2 & des & H3 & H4).
  unfold answers_as, route_core_getsorted, wild_route, tcp_getsorted.
  destruct (wild (Parse h)) as [|c wd]; [done|].
  unfold with_locals, results_of, try_runtime, local, returning, outer, reads, bind, lift.
  rewrite Hwin, Hw, H1, H2, H3, H4.
  by destruct (getSorted _ _ _ _ _ _ _ _ _ _) as [[[]|[]| |] ?].
Qed.

Lemma agree_getkeys : answers_as (route_core_getkeys fuel h) Response (tcp_getkeys fuel r) w.
Proof.
  unfold answers_as, route_core_getkeys, tcp_getkeys.
  destruct (wild (Parse h)) as [|c wd]; [done|].
  unfold try_runtime, returning, reads, bind, lift. rewrite Hwin, Hw, Hrev.
  destruct (reverse r);
    [destruct (getKeysReversed_out _ _ _ _ _ _) as [[[]|[]| |] o]
    |destruct (getKeys_out _ _ _ _ _ _) as [[[]|[]| |] o]];
    unfold keys_error; by try destruct (set_last _ o).
Qed.

Lemma agree_getcount : answers_as (route_core_getcount fuel h) Text (tcp_getcount fuel r) w.
Proof.
  unfold answers_as, route_core_getcount, tcp_getcount.
  destruct (wild (Parse h)) as [|c wd]; [done|].
  unfold try_runtime, returning, outer, bind, lift. rewrite Hwin, Hw.
  by destruct (getCount _ _ _ _ _ _) as [[[]|[]| |] n].
Qed.

Lemma agree_removeall : answers_as (route_core_removekeys fuel h) Json (tcp_removekeys fuel r) w.
Proof.
  unfold answers_as, route_core_removekeys, tcp_removekeys.
  destruct (wild (Parse h)) as [|c wd]; [done|].
  unfold try_runtime, returning, outer, bind, lift. rewrite Hwin, Hw.
  by destruct (removeAll _ _ _ _ _) as [[n|[]| |] w1].
Qed.
End pattern.

Lemma agree_iter : reverse r = false ->
  answers_as (route_core_iter fuel h) (fun out => Response (dump out)) (tcp_iter fuel r) w.
Proof.
  intros E. unfold answers_as, route_core_iter, tcp_iter.
  unfold with_locals, results_of, try_runtime, local, returning, outer, reads, bind, lift.
  rewrite Hwin, Hrev, E. by destruct (iter _ _ _ _ _) as [[[]|[]| |] ?].
Qed.

Section key.
Hypothesis (Hk : attribute r "key" = Ok (key_of h)) (Hne : key_of h <> EmptyString).

Lemma agree_get : answers_as (route_core_get h) Text (tcp_get r) w.
Proof.
  unfold answers_as, route_core_get, key_route, tcp_get. rewrite Hk.
  destruct (key_of h) as [|c k]; [done|].
  unfold try_runtime, returning, outer, bind, lift.
  by destruct (get _ _ _) as [[[]|[]| |] ?].
Qed.

Lemma agree_remove : answers_as (route_core_removekey h) Text (tcp_removekey r) w.
Proof.
  unfold answers_as, route_core_removekey, key_route, tcp_removekey. rewrite Hk.
  destruct (key_of h) as [|c k]; [done|].
  unfold try_runtime, returning, outer, bind, lift.
  by destruct (remove _ _) as [[[]|[]| |] [? ?]].
Qed.
End key.
End agreement.

Lemma agree_text {B} route (f : B -> answer) t w w' resp (g : B -> string) :
  (forall v, text (answer_response (f v)) = g v) -> answers_as route f t w ->
  guarded route w = (Ok resp, w') -> code resp = 200%Z ->
  try_runtime (let! v := t in ret (g v))
    (fun _ => ret (q "{`error`:`dispatch error`}")) w = (Ok (text resp), w').
Proof.
  intros Hg Ha Hr Hc. rewrite <- (agree _ f _ w w' resp Ha Hr Hc).
  unfold try_runtime, bind, ret. destruct (t w) as [[v|[]| |] ?]; try done. by rewrite Hg.
Qed.

Lemma agree_plain route f (t : SM world string) w w' resp :
  (forall v, text (answer_response (f v)) = v) -> answers_as route f t w ->
  guarded route w = (Ok resp, w') -> code resp = 200%Z ->
  try_runtime t (fun _ => ret (q "{`error`:`dispatch error`}")) w = (Ok (text resp), w').
Proof.
  intros Hg Ha Hr Hc. rewrite <- (agree_text _ f _ w w' resp id Hg Ha Hr Hc).
  unfold try_runtime, bind, ret. by destruct (t w) as [[v|[]| |] ?].
Qed.

(** C24: the transports give the same answers to the queries that both have and
    need no body: [/getall], [/getkeys], [/getsorted], [/getcount] and
    [/removeall] with a pattern that is not empty, [/get] and [/remove] with a
    key that is not empty, [/iter] forwards, and [/ping].  Where HTTP answers with code
    200, TCP answers the same query with the same text, and leaves the process
    as HTTP does.  (TCP never reads a body, so the other paths differ.) *)
Theorem transports_agree (h : request) (data : string) (r : tcp_request) (w w' : world)
    (resp : response) :
  Request data = Ok r -> same_query h r -> query r ∈ common_paths ->
  serving h w = (Ok resp, w') -> code resp = 200%Z ->
  dispatching data w = (Ok (text resp), w').
Proof.
  intros E (Hu & Hm & Hwin & Hrev & Hp & Hk & Hs & Hi) Hq Hr Hc.
  rewrite (dispatch_route _ r) by done. unfold serve, find_rule in Hr. rewrite Hu, Hm in Hr.
  unfold common_paths, pattern_paths, key_paths in *. cbn [app] in Hq.
  repeat (apply elem_of_cons in Hq as [Hq|Hq]; [rewrite Hq in Hr, Hp, Hk, Hs, Hi |- *|]);
    [..|by apply elem_of_nil in Hq];
    first [destruct (Hp ltac:(by apply (bool_decide_unpack _))) as [Hw Hne]
          |destruct (Hk ltac:(by apply (bool_decide_unpack _))) as [Hw Hne]|idtac]; clear Hp Hk.
  - exact (agree_text _ Json _ w w' resp dump (fun _ => eq_refl)
             (agree_getall h r w Hwin Hw Hne) Hr Hc).
  - exact (agree_plain _ Response _ w w' resp (fun _ => eq_refl)
             (agree_getkeys h r w Hwin Hrev Hw Hne) Hr Hc).
  - exact (agree_plain _ Text _ w w' resp (fun _ => eq_refl)
             (agree_getcount h r w Hwin Hw Hne) Hr Hc).
  - exact (agree_text _ Json _ w w' resp dump (fun _ => eq_refl)
             (agree_removeall h r w Hwin Hw Hne) Hr Hc).
  - exact (agree_text _ Json _ w w' resp dump (fun _ => eq_refl)
             (agree_getsorted h r w Hwin Hw Hne (Hs eq_refl)) Hr Hc).
  - exact (agree_plain _ Text _ w w' resp (fun _ => eq_refl) (agree_get h r w Hw Hne) Hr Hc).
  - exact (agree_plain _ Text _ w w' resp (fun _ => eq_refl) (agree_remove h r w Hw Hne) Hr Hc).
  - exact (agree_text _ (fun out => Response (dump out)) _ w w' resp dump (fun _ => eq_refl)
             (agree_iter h r w Hwin Hrev (Hi eq_refl)) Hr Hc).
  - exact (agree_plain _ Text (tcp_ping r) w w' resp (fun _ => eq_refl) eq_refl Hr Hc).
Qed.

Lemma try_caught {S B} (m : SM S B) v s what :
  (try_runtime m (fun _ => ret v) s).1 <> Throw (RuntimeError what).
Proof. unfold try_runtime. by destruct (m s) as [[|[]| |] ?]. Qed.

Lemma dispatch_caught data w what : (dispatching data w).1 <> Throw (RuntimeError what).
Proof. apply try_caught. Qed.

(** what a connection does with what it has read.  The text [quit] stops the
    server.  A block that is full leaves no room for the zero behind it.  No
    [std::runtime_error] leaves the router, but other exceptions do, and end
    the server: the one for a number that cannot be read among them. *)
Theorem connection_read (data : string) (w : world) :
  let reading := handle_read fuel uuid std_sort create getKeysMulti in
  (Z.of_nat (String.length data) = max_length -> reading data w = (Undef, w)) /\
  ((Z.of_nat (String.length data) < max_length)%Z -> c_str data = "quit" ->
   reading data w = (Ok ("quit", true), w)) /\
  (forall what, (reading data w).1 <> Throw (RuntimeError what)) /\
  ((Z.of_nat (String.length data) < max_length)%Z -> c_str data <> "quit" ->
   Request (c_str data) = Throw BadLexicalCast -> reading data w = (Throw BadLexicalCast, w)).
Proof.
  intros reading. subst reading. unfold handle_read.
  destruct (Z.ltb_spec (Z.of_nat (String.length data)) max_length) as [Hl|Hl];
    [|by repeat split; try (intros; lia)].
  destruct (String.eqb_spec (c_str data) "quit") as [->|Hq]; [by split; [lia|split]|].
  split; [lia|]. split; [done|]. unfold bind, ret. split.
  - intros what. pose proof (dispatch_caught (c_str data) w what) as H.
    destruct (dispatching (c_str data) w) as [[message|e| |] w1]; try done. intros [= ->]. by apply H.
  - intros _ _ E. unfold dispatch, try_runtime, bind, lift. by rewrite E.
Qed.
End tcp_properties.

Section tcp_witnesses.
Import Demo.
#[local] Existing Instance int_arithmetic.
#[local] Abbreviation demo_dispatch := (dispatch 10 "id" kept_order no_checkpoint no_threads).
#[local] Abbreviation demo_read := (handle_read 10 "id" kept_order no_checkpoint no_threads).
#[local] Abbreviation demo_serve :=
  (serve (fun n => n) 10 "id" kept_order no_checkpoint no_threads).

Definition put_text : string := q "{`query`:`/put`,`body`:`{}`}".
Definition keys_text : string := q "{`query`:`/getkeys`,`keys`:`user_*`,`skip`:2}".

Theorem tcp_without_body_witness :
  demo_dispatch put_text w = (Ok (q "{`error`: `Invalid put body`}"), w) /\
  same_store w (demo_dispatch keys_text w).2.
Proof.
  split.
  - destruct (Request put_text) as [r| | |] eqn:E; try discriminate E.
    destruct (tcp_without_body 10 "id" kept_order no_checkpoint no_threads put_text r w E)
      as (_ & H & _). apply H. injection E as <-. left.
  - destruct (Request keys_text) as [r| | |] eqn:E; try discriminate E.
    destruct (tcp_without_body 10 "id" kept_order no_checkpoint no_threads keys_text r w E)
      as (_ & _ & H). apply H. injection E as <-. by apply (bool_decide_unpack _).
Defined.

Theorem transports_agree_witness :
  demo_dispatch keys_text w = (Ok (q "{`result`:[{`key`:`user_3`,`value`:plain}]}"), w).
Proof.
  destruct (Request keys_text) as [r| | |] eqn:E; try discriminate E.
  apply (transports_agree (fun n => n) 10 "id" kept_order no_checkpoint no_threads
           (keys_request "user_*" "2") keys_text r w w
           {| code := 200; any_origin := true;
              text := q "{`result`:[{`key`:`user_3`,`value`:plain}]}" |} E);
    injection E as <-; [|by apply (bool_decide_unpack _)|vm_compute; reflexivity|reflexivity].
  unfold same_query. split_and!; try reflexivity; try (by intros H%(bool_decide_pack _)).
Defined.

Theorem connection_read_witness :
  demo_read (q "{`query`:`/ping`,`skip`:`x`}") w = (Throw BadLexicalCast, w) /\
  demo_read "quit" w = (Ok ("quit", true), w).
Proof.
  split.
  - apply (connection_read 10 "id" kept_order no_checkpoint no_threads); [reflexivity|discriminate|].
    vm_compute. reflexivity.
  - apply (connection_read 10 "id" kept_order no_checkpoint no_threads); reflexivity.
Defined.
End tcp_witnesses.
