(* ===== verification/TcpSite.v ===== *)
(** * The other routes of the TCP transport

    src/src/routing.cpp: the routes that do not call the core (the file transfer,
    the socket, waiting, the placeholder), and [DispatchRequest] over all routes.
    They are copies of the handlers of Pages.v that get a TCP request.  The
    filters of the plugins, which call OpenCV, are left out. *)

From S2P Require Import Prelude SortedMap Json Store World Scan CoreRead Orm Geo Http Tcp Upload Pages.
Local Open Scope quarks_scope.

Section site.
Context {plat : Platform} {R : RocksDB} {A : Arithmetic}.
Context (fuel : nat) (uuid : string)
  (std_sort : (rvalue -> rvalue -> outcome bool) -> list rvalue -> outcome (list rvalue))
  (create : option DB -> string -> bool)
  (getKeysMulti : world -> string -> Z -> Z -> SM (list wvalue) bool).
(** As in Pages.v *)
Context (can_transfer : bool) (taken : nat -> nat) (port_1234 : peer).

Definition tcp_filetransfer (r : tcp_request) : SM disk string := fun d =>
  let not_transferred := q "{`error`:`not transferred`}" in
  if negb can_transfer then (Ok not_transferred, d)
  else
    let n := Nat.min (taken (String.length (body r))) (String.length (body r)) in
    (Ok (if (0 <? n)%nat then q "{`result`:`transferred`}" else not_transferred),
     {| uploads_exists := uploads_exists d;
        files := assoc_set "transferred.data" (str_take n (body r)) (files d) |}).

Definition tcp_opentcpsocket (r : tcp_request) : SM disk string :=
  let! ret' := lift (openTCPSocketClient port_1234) in
  ret (if ret' : bool then q "{`result`:`opened socket`}" else q "{`error`:`socket closed`}").

(** The seconds the server sleeps, with all its connections, and the answer *)
Definition tcp_test (r : tcp_request) : outcome (Z * string) :=
  let? timeout := attribute r "timeout" in
  let? seconds := stoi timeout in
  Ok ((seconds mod 4294967296)%Z, q "{`result`:true}").

Definition tcp_ai (r : tcp_request) : SM disk string := ret "Feature not available".

Definition other_routes : list (string * (tcp_request -> SM disk string)) := [
  ("/filetransfer", tcp_filetransfer);
  ("/opentcpsocket", tcp_opentcpsocket);
  ("/test", fun r => let! a := lift (tcp_test r) in ret a.2);
  ("/ai", tcp_ai)
].

Definition on_disk {T} (m : SM disk T) : SM (world * disk) T := fun '(w, d) =>
  let '(o, d) := m d in (o, (w, d)).
Definition on_core {T} (m : SM world T) : SM (world * disk) T := fun '(w, d) =>
  let '(o, w) := m w in (o, (w, d)).

#[local] Abbreviation core_dispatch := (dispatch fuel uuid std_sort create getKeysMulti).
#[local] Abbreviation core_routes := (tcp_routes fuel uuid std_sort create getKeysMulti).

(** [Routing::DispatchRequest] *)
Definition DispatchRequest (data : string) : SM (world * disk) string :=
  try_runtime
    (let! r := lift (Request data) in
     match assoc (query r) other_routes with
     | Some callback => on_disk (callback r)
     | None => on_core (core_dispatch data)
     end)
    (fun _ => ret (q "{`error`:`dispatch error`}")).

(** The paths are apart from those of the core. *)
Lemma paths_apart : forallb (fun p => negb (bool_decide (p ∈ core_routes.*1))) other_routes.*1 = true.
Proof. by vm_compute. Qed.

Lemma site_caught data s what : (DispatchRequest data s).1 <> Throw (RuntimeError what).
Proof. apply try_caught. Qed.

(** A request for a path of the core is answered by the core. *)
Lemma site_core data r w d : Request data = Ok r -> assoc (query r) other_routes = None ->
  DispatchRequest data (w, d) = ((core_dispatch data w).1, ((core_dispatch data w).2, d)).
Proof.
  intros Hr Ho. unfold DispatchRequest, try_runtime, bind, lift. rewrite Hr, Ho. unfold on_core.
  pose proof (dispatch_caught fuel uuid std_sort create getKeysMulti data w) as Hc.
  destruct (core_dispatch data w) as [[|[what| | | | | |]| |] w1]; try done. by destruct (Hc what).
Qed.

Lemma site_other data r cb w d : Request data = Ok r -> assoc (query r) other_routes = Some cb ->
  (forall what, (cb r d).1 <> Throw (RuntimeError what)) ->
  DispatchRequest data (w, d) = ((cb r d).1, (w, (cb r d).2)).
Proof.
  intros Hr Ho Hc. unfold DispatchRequest, try_runtime, bind, lift. rewrite Hr, Ho. unfold on_disk.
  destruct (cb r d) as [[|[what| | | | | |]| |] d1]; try done. by destruct (Hc what).
Qed.

(** What the routes outside of the core do over TCP.  A file transfer, which
    never has a body, only empties the file and is answered as failed; a wait for
    a time that is missing, empty or no number throws what nothing in the server
    catches; the core is not touched. *)
Theorem tcp_other_routes data r (w : world) (d : disk) : Request data = Ok r ->
  (query r = "/filetransfer" ->
   DispatchRequest data (w, d) =
   (Ok (q "{`error`:`not transferred`}"),
    (w, if can_transfer
        then {| uploads_exists := uploads_exists d; files := assoc_set "transferred.data" EmptyString (files d) |}
        else d))) /\
  (query r = "/test" -> forall timeout e, attribute r "timeout" = Ok timeout -> stoi timeout = Throw e ->
   DispatchRequest data (w, d) = (Throw e, (w, d)) /\ (e = InvalidArgument \/ e = OutOfRange)) /\
  (query r = "/test" -> attribute r "timeout" = Ok EmptyString ->
   DispatchRequest data (w, d) = (Throw InvalidArgument, (w, d))) /\
  (query r = "/ai" -> DispatchRequest data (w, d) = (Ok "Feature not available", (w, d))).
Proof.
  intros Hr. pose proof (Request_body data r Hr) as Hb. split_and!.
  - intros Hq. rewrite (site_other data r tcp_filetransfer); [|done|by rewrite Hq|].
    + unfold tcp_filetransfer. rewrite Hb. cbn [String.length]. rewrite Nat.min_0_r. by destruct can_transfer.
    + intros what. unfold tcp_filetransfer. by destruct (negb can_transfer).
  - intros Hq timeout e Ht Hs. assert (He : e = InvalidArgument \/ e = OutOfRange).
    { pose proof (stoi_outcome timeout) as H. rewrite Hs in H. destruct H as [(z & [=] & _)|[[= ->]|[= ->]]]; auto. }
    split; [|done]. erewrite (site_other data r); [|done|by rewrite Hq|];
      unfold bind, lift, tcp_test; rewrite Ht; cbn; rewrite Hs; cbn; [done|].
    intros what. by destruct He as [-> | ->].
  - intros Hq Ht. erewrite (site_other data r); [|done|by rewrite Hq|];
      unfold bind, lift, tcp_test; rewrite Ht; cbn; done.
  - intros Hq. by erewrite (site_other data r); [|done|by rewrite Hq|].
Qed.
End site.

Section site_witnesses.
Import Demo.
#[local] Existing Instance int_arithmetic.

Definition wait_text : string := q "{`query`:`/test`}".
Definition transfer_text : string := q "{`query`:`/filetransfer`,`body`:``}".
Definition empty_disk : disk := {| uploads_exists := true; files := [("transferred.data", "old")] |}.

Theorem tcp_other_routes_witness :
  (DispatchRequest 10 "id" kept_order no_checkpoint no_threads true id silent_peer wait_text (w, empty_disk)).1
    = Throw InvalidArgument.
Proof.
  destruct (Request wait_text) as [r| | |] eqn:E; try discriminate E.
  destruct (tcp_other_routes 10 "id" kept_order no_checkpoint no_threads true id silent_peer wait_text r w empty_disk E)
    as (_ & _ & H & _).
  injection E as <-. rewrite H; reflexivity.
Defined.
End site_witnesses.
