(* ===== verification/TcpServer.v ===== *)
(** * The TCP server

    src/include/quarkstcp.hpp and src/src/quarkstcp.cpp: the connections of the
    server as handlers of the events the system reports, the loop that calls
    them and ends with their exceptions, and the start of the server and of the
    demonstration client from a URL.  The routes a connection calls are those of
    Tcp.v.

    boost::asio is the list of the events: which connections are accepted, which
    blocks arrive, how much of a message the system takes.  As it documents, the
    memory of an operation must stay as it is until the handler of the operation
    is called; a change of it is undefined behaviour here. *)

From stdpp Require Import gmap.
From S2P Require Import Prelude SortedMap Json Store World Scan CoreRead Orm Geo Http Tcp Upload Pages TcpSite.
Local Open Scope quarks_scope.

(** ** Connections and events *)

(** [tcp_con_handler]: the operations under way are a read and a write of
    [message]; [taken] is what the system has taken for the peer. *)
Record tcp_con_handler := {
  message : string;
  notifyStop : bool;
  reads : bool;
  writes : bool;
  closed : bool;
  taken : string
}.

(** [listen], of a connection that has been accepted *)
Definition listen : tcp_con_handler := {|
  message := EmptyString; notifyStop := false; reads := true; writes := false; closed := false;
  taken := EmptyString |}.

Inductive io_event :=
  | Accepted (c : nat)
  | AcceptFailed
  | Read (c : nat) (data : string)
  | ReadFailed (c : nat)
  | Wrote (c : nat) (bytes_transferred : nat)
  | WriteFailed (c : nat).

Section server.
(** The process, and [TCPRouting::DispatchRequest], which catches every
    [std::runtime_error] *)
Context {P : Type} (DispatchRequest : string -> SM P string).
Context (caught : forall data p what, (DispatchRequest data p).1 <> Throw (RuntimeError what)).

(** [handle_read] for the bytes it has read: the message to write, and whether
    the server is told to stop.  The zero behind the bytes must be in the
    block. *)
Definition handle_read (data : string) : SM P (string * bool) :=
  if (Z.of_nat (String.length data) <? max_length)%Z then
    if String.eqb (c_str data) "quit" then ret ("quit", true)
    else let! message := DispatchRequest (c_str data) in ret (message, false)
  else undef.
#[local] Abbreviation reading := handle_read.

Record TCPServer := {
  connections : gmap nat tcp_con_handler;
  core : P
}.

Definition set_connection (c : nat) (k : tcp_con_handler) (s : TCPServer) : TCPServer := {|
  connections := <[c := k]> (connections s); core := core s |}.

Definition forced_to_quit : exn := RuntimeError "TCP: Server forced to quit!!".

(** Operations that are under way on a socket that is closed fail; one that has
    ended before is the event in front of the closing. *)
Definition can (s : TCPServer) (e : io_event) : bool :=
  match e with
  | Accepted c => bool_decide (connections s !! c = None)
  | AcceptFailed => true
  | Read c data =>
      match connections s !! c with
      | Some k => reads k && negb (closed k) && negb (String.eqb data EmptyString) &&
                  (Z.of_nat (String.length data) <=? max_length)%Z
      | None => false
      end
  | ReadFailed c => match connections s !! c with Some k => reads k | None => false end
  | Wrote c n =>
      match connections s !! c with
      | Some k => writes k && negb (closed k) && (n <=? String.length (message k))%nat &&
                  ((0 <? n)%nat || String.eqb (message k) EmptyString)
      | None => false
      end
  | WriteFailed c => match connections s !! c with Some k => writes k | None => false end
  end.


(** [handle_read] with its operations: [message] is assigned while the write of
    the last one may still be under way. *)
Definition on_read (c : nat) (data : string) (k : tcp_con_handler) : SM TCPServer unit := fun s =>
  let '(r, w) := reading data (core s) in
  let s := {| connections := connections s; core := w |} in
  match r with
  | Ok (m, stop) =>
      if writes k then (Undef, s)
      else
        let stop := notifyStop k || stop in
        (Ok tt, set_connection c {| message := m; notifyStop := stop; reads := negb stop; writes := true;
                                    closed := closed k; taken := taken k |} s)
  | Throw e => (Throw e, s)
  | Undef => (Undef, s)
  | Fuel => (Fuel, s)
  end.
Definition on_read_failed (c : nat) (k : tcp_con_handler) : SM TCPServer unit :=
  modify (set_connection c {| message := message k; notifyStop := notifyStop k; reads := false;
                              writes := writes k; closed := true; taken := taken k |}).

(** [handle_write]: whatever part of the message was taken, no more is written. *)
Definition on_write (c : nat) (sent : option nat) (k : tcp_con_handler) : SM TCPServer unit :=
  do! modify (set_connection c
        {| message := message k; notifyStop := notifyStop k; reads := reads k; writes := false;
           closed := match sent with Some _ => closed k | None => true end;
           taken := taken k +:+ match sent with Some n => str_take n (message k) | None => EmptyString end |});
  if notifyStop k then throw forced_to_quit else ret tt.

(** The handler of an event; [handle_accept] goes on to accept in any case. *)
Definition handle (e : io_event) : SM TCPServer unit := fun s =>
  let at_connection c f := match connections s !! c with Some k => f k s | None => (Ok tt, s) end in
  match e with
  | Accepted c => (Ok tt, set_connection c listen s)
  | AcceptFailed => (Ok tt, s)
  | Read c data => at_connection c (on_read c data)
  | ReadFailed c => at_connection c (on_read_failed c)
  | Wrote c n => at_connection c (on_write c (Some n))
  | WriteFailed c => at_connection c (on_write c None)
  end.

(** [io_service.run()] over the events, up to the first exception *)
Fixpoint io_run (es : list io_event) : SM TCPServer unit :=
  match es with
  | [] => ret tt
  | e :: es => do! handle e; io_run es
  end.

(** Events that can happen, one after the other *)
Fixpoint possible (es : list io_event) (s : TCPServer) : Prop :=
  match es with
  | [] => True
  | e :: es =>
      can s e = true /\
      match handle e s with (Ok _, s') => possible es s' | _ => True end
  end.

(** *** Start *)

(** [static int tcp_port] *)
Definition tcp_port : Z := 18071.

(** A port is an unsigned short. *)
Definition port_number (p : Z) : Z := (p mod 65536)%Z.

(** The port of [tcpUrl]: what stands behind the first colon *)
Definition server_port (tcpUrl : string) : outcome Z :=
  match tokenize tcpUrl ":" with
  | _ :: p :: _ => stoi p
  | _ => Ok tcp_port
  end.

Inductive server_end :=
  | Serves                 (* the loop waits for events *)
  | Returns (code : Z)
  | Undefined.

(** [tcpServerStart(tcpUrl)], the ports that can be bound, and the events: what
    becomes of the call, of [tcp_server_running], and of the process.  A
    [std::runtime_error] of a handler ends the loop, any other exception the
    call. *)
Definition tcpServerStart (tcpUrl : string) (can_bind : Z -> bool) (es : list io_event) (w : P) :
    server_end * bool * TCPServer :=
  let s := {| connections := ∅; core := w |} in
  match server_port (c_str tcpUrl) with
  | Ok port =>
      if can_bind (port_number port) then
        match io_run es s with
        | (Ok _, s) => (Serves, true, s)
        | (Throw (RuntimeError _), s) => (Returns 0, false, s)
        | (Throw _, s) => (Returns 1, false, s)
        | (_, s) => (Undefined, true, s)
        end
      else (Returns 1, false, s)
  | _ => (Returns 1, false, s)
  end.

(** *** The demonstration client *)

(** What a [read_some] gives: a block, an error code, or nothing, for ever *)
Inductive reading_result := Arrives (data : string) | Error | Never.

Definition client_target (tcpUrl : string) : outcome (string * Z) :=
  match tokenize tcpUrl ":" with
  | a :: p :: _ => let? port := stoi p in Ok (a, port)
  | _ => Ok ("127.0.0.1", tcp_port)
  end.

Definition hello (i : Z) : string := "Hello " +:+ to_string i +:+ (" from Client!" +:+ String "010" EmptyString).

(** The texts written, and whether the call returns: error codes are only
    logged, but a wait without an end is one. *)
Fixpoint client_turns (n : nat) (i : Z) (answers : list reading_result) : list string * bool :=
  match n with
  | O => (["quit"], true)
  | S n =>
      match answers with
      | Never :: _ | [] => ([hello i], false)
      | _ :: answers => let '(l, ends) := client_turns n (i + 1) answers in (hello i :: l, ends)
      end
  end.

(** [tcpClientStart(tcpUrl)], which addresses are well-formed, and who can be
    connected to.  No exception is caught. *)
Definition tcpClientStart (tcpUrl : string) (is_address : string -> bool)
    (can_connect : string -> Z -> bool) (answers : list reading_result) : outcome (list string * bool) :=
  let? target := client_target (c_str tcpUrl) in
  if is_address target.1 then
    if can_connect target.1 (port_number target.2) then Ok (client_turns 2 0 answers)
    else Throw (RuntimeError "connect: Connection refused")
  else Throw (RuntimeError "Invalid argument").

(** ** What the connections get *)

(** The answers to the blocks, in their order *)
Fixpoint replies (es : list io_event) : SM P (list (nat * string)) :=
  match es with
  | [] => ret []
  | Read c data :: es =>
      let! r := reading data in
      let! l := replies es in
      ret ((c, r.1) :: l)
  | _ :: es => replies es
  end.
Definition replies_to (c : nat) (l : list (nat * string)) : string :=
  foldr (fun r s => if decide (r.1 = c) then r.2 +:+ s else s) EmptyString l.

(** The system takes each message as a whole. *)
Fixpoint whole (es : list io_event) (s : TCPServer) : Prop :=
  match es with
  | [] => True
  | e :: es =>
      match e with
      | Wrote c n => forall k, connections s !! c = Some k -> n = String.length (message k)
      | _ => True
      end /\
      match handle e s with (Ok _, s') => whole es s' | _ => True end
  end.

(** What a connection has, or is going to have *)
Definition given_to (k : tcp_con_handler) : string :=
  taken k +:+ if writes k then message k else EmptyString.

(** From [s] to [s'] every connection that is open goes on from what it had by
    its replies. *)
Definition carries (s s' : TCPServer) (l : list (nat * string)) : Prop := forall c,
  match connections s' !! c with
  | Some k' => closed k' = false ->
      from_option closed false (connections s !! c) = false /\
      given_to k' = from_option given_to EmptyString (connections s !! c) +:+ replies_to c l
  | None => connections s !! c = None /\ replies_to c l = EmptyString
  end.

Lemma carries_refl s : carries s s [].
Proof. intros c. destruct (connections s !! c); cbn; rewrite ?sapp_nil_r; done. Qed.

Lemma replies_to_app c l l' : replies_to c (l ++ l') = replies_to c l +:+ replies_to c l'.
Proof.
  unfold replies_to. rewrite foldr_app. induction l as [|r l IH]; cbn; [done|].
  rewrite IH. by case_decide; rewrite ?sapp_assoc.
Qed.

Lemma carries_trans s s1 s' l l' : carries s s1 l -> carries s1 s' l' -> carries s s' (l ++ l').
Proof.
  intros H1 H2 c. specialize (H1 c). specialize (H2 c). rewrite replies_to_app.
  destruct (connections s' !! c) as [k'|].
  - intros Hk. destruct (H2 Hk) as [Hc ->]. destruct (connections s1 !! c) as [k1|]; cbn in *.
    + destruct (H1 Hc) as [Hc1 ->]. by rewrite sapp_assoc.
    + destruct H1 as [-> ->]. done.
  - destruct H2 as [E ->]. rewrite E in H1. by rewrite sapp_nil_r.
Qed.

(** A change of one connection *)
Lemma carries_set s c k' w l :
  (closed k' = false ->
    from_option closed false (connections s !! c) = false /\
    given_to k' = from_option given_to EmptyString (connections s !! c) +:+ replies_to c l) ->
  (forall d, d <> c -> replies_to d l = EmptyString) ->
  carries s {| connections := <[c := k']> (connections s); core := w |} l.
Proof.
  intros Hc Hd d. cbn [connections]. destruct (decide (d = c)) as [->|Hne].
  - by rewrite lookup_insert_eq.
  - rewrite lookup_insert_ne, (Hd d) by done. destruct (connections s !! d); cbn; rewrite ?sapp_nil_r; done.
Qed.

Lemma handle_carries e s s1 : can s e = true -> handle e s = (Ok tt, s1) -> whole [e] s ->
  exists l, replies [e] (core s) = (Ok l, core s1) /\ carries s s1 l.
Proof.
  destruct e as [c| |c data|c|c n|c]; cbn [can handle replies whole]; intros Hcan He [Hw _].
  - injection He as <-. exists []. split; [done|]. apply carries_set; [|done].
    apply bool_decide_eq_true in Hcan. rewrite Hcan. done.
  - injection He as <-. exists []. split; [done|apply carries_refl].
  - destruct (connections s !! c) as [k|] eqn:Ek; [|done].
    unfold on_read in He. destruct (reading data (core s)) as [[[m stop]|e| |] w] eqn:E; try done.
    destruct (writes k) eqn:Ew; [done|]. injection He as <-. exists [(c, m)]. unfold bind. rewrite E. split; [done|].
    unfold set_connection. cbn [connections core]. apply carries_set; cbn.
    + intros Hc. rewrite Ek. cbn. split; [done|]. unfold given_to. cbn. rewrite Ew, decide_True by done.
      by rewrite !sapp_nil_r.
    + intros d Hd. by rewrite decide_False.
  - destruct (connections s !! c) as [k|] eqn:Ek; [|done]. injection He as <-. exists []. split; [done|].
    by apply carries_set.
  - destruct (connections s !! c) as [k|] eqn:Ek; [|done]. rewrite (Hw k eq_refl) in He.
    unfold on_write, bind, modify in He. destruct (notifyStop k); [done|]. injection He as <-.
    exists []. split; [done|]. apply carries_set; [|done]. rewrite Ek. cbn. intros Hc. split; [done|].
    unfold given_to. cbn. apply andb_true_iff in Hcan as [[[-> _]%andb_true_iff _]%andb_true_iff _].
    by rewrite str_take_all, !sapp_nil_r.
  - destruct (connections s !! c) as [k|] eqn:Ek; [|done].
    unfold on_write, bind, modify in He. destruct (notifyStop k); [done|]. injection He as <-.
    exists []. split; [done|]. by apply carries_set.
Qed.

Lemma replies_cons e es w l w1 : replies [e] w = (Ok l, w1) ->
  replies (e :: es) w = (let! l' := replies es in ret (l ++ l')) w1.
Proof.
  unfold bind, ret. destruct e as [| |c data| | |]; cbn [replies]; unfold bind, ret; try (intros [= <- <-]; by destruct (replies es w) as [[] ?]).
  destruct (reading data w) as [[[m stop]|e| |] w2]; try done. intros [= <- <-].
  by destruct (replies es w2) as [[] ?].
Qed.

Lemma run_carries es s s' : possible es s -> whole es s -> io_run es s = (Ok tt, s') ->
  exists l, replies es (core s) = (Ok l, core s') /\ carries s s' l.
Proof.
  revert s. induction es as [|e es IH]; intros s Hp Hw Hr.
  { injection Hr as <-. exists []. split; [done|apply carries_refl]. }
  cbn [possible whole io_run] in *. destruct Hp as [Hcan Hp]. destruct Hw as [Hwe Hw]. unfold bind in Hr.
  destruct (handle e s) as [[[]|x| |] s1] eqn:E; try done.
  destruct (handle_carries e s s1 Hcan E) as (l & Hl & Hc); [split; [done|by rewrite E]|].
  destruct (IH s1 Hp Hw Hr) as (l' & Hl' & Hc'). exists (l ++ l'). split; [|by eapply carries_trans].
  rewrite (replies_cons _ _ _ _ _ Hl). unfold bind. by rewrite Hl'.
Qed.

Lemma on_read_ok c data k s s' : on_read c data k s = (Ok tt, s') ->
  exists m stop w, reading data (core s) = (Ok (m, stop), w) /\ writes k = false /\
    s' = {| connections := <[c := {| message := m; notifyStop := notifyStop k || stop;
                                     reads := negb (notifyStop k || stop); writes := true;
                                     closed := closed k; taken := taken k |}]> (connections s);
            core := w |}.
Proof.
  unfold on_read. destruct (reading data (core s)) as [[[m stop]|e| |] w] eqn:E; try done.
  destruct (writes k) eqn:Ew; [done|]. intros [= <-]. by exists m, stop, w.
Qed.

(** *** How the server ends *)

(** The connection [c] has been told to quit. *)
Definition told (es : list io_event) (c : nat) : Prop := exists data, In (Read c data) es /\ c_str data = "quit".

Lemma reading_stop data w m stop w' : reading data w = (Ok (m, stop), w') ->
  stop = true <-> c_str data = "quit".
Proof.
  unfold handle_read. destruct (_ <? _)%Z; [|done]. destruct (String.eqb_spec (c_str data) "quit") as [->|Hn].
  - by intros [= <- <- <-].
  - unfold bind, ret. destruct (DispatchRequest (c_str data) w) as [[]]; try done. by intros [= <- <- <-].
Qed.

Lemma reading_not_runtime data w what : (reading data w).1 <> Throw (RuntimeError what).
Proof.
  unfold handle_read. destruct (_ <? _)%Z; [|done]. destruct (String.eqb _ _); [done|].
  pose proof (caught (c_str data) w what) as H.
  unfold bind, ret. destruct (DispatchRequest (c_str data) w) as [[]]; try done. cbn in *. by intros [= ->].
Qed.

(** A connection that was told to quit only waits for its last write. *)
Definition quitting (k : tcp_con_handler) : Prop := notifyStop k = true /\ writes k = true.
Definition orderly (s : TCPServer) : Prop :=
  forall c k, connections s !! c = Some k -> notifyStop k = true -> writes k = true.

Lemma orderly_set s c k w : orderly s -> (notifyStop k = true -> writes k = true) ->
  orderly {| connections := <[c := k]> (connections s); core := w |}.
Proof.
  intros Hs Hk d k'. cbn. destruct (decide (d = c)) as [->|Hne].
  - rewrite lookup_insert_eq. by intros [= <-].
  - rewrite lookup_insert_ne by done. apply Hs.
Qed.

(** A handler that returns forgets no quit, and adds those of its event. *)
Definition keeps_quits (e : io_event) (s s1 : TCPServer) : Prop :=
  orderly s1 /\
  forall d,
    (exists k, connections s1 !! d = Some k /\ notifyStop k = true) <->
    ((exists k, connections s !! d = Some k /\ notifyStop k = true) \/ told [e] d).

Definition not_read (e : io_event) : Prop := match e with Read _ _ => False | _ => True end.
Lemma not_read_told e d : not_read e -> ~ told [e] d.
Proof. destruct e; try done; by intros _ (? & [[= ]|[]] & _). Qed.

Lemma quits_same s e : orderly s -> not_read e -> keeps_quits e s s.
Proof. intros Hs He. split; [done|]. intros d. pose proof (not_read_told e d He). tauto. Qed.

Lemma quits_set s e c k1 w : orderly s -> (notifyStop k1 = true -> writes k1 = true) ->
  (notifyStop k1 = true <-> (exists k, connections s !! c = Some k /\ notifyStop k = true) \/ told [e] c) ->
  (forall d, told [e] d -> d = c) ->
  keeps_quits e s {| connections := <[c := k1]> (connections s); core := w |}.
Proof.
  intros Hs Hw Hc Ht. split; [by apply orderly_set|]. intros d. cbn. destruct (decide (d = c)) as [->|Hne].
  - rewrite lookup_insert_eq. rewrite <- Hc. split; [by intros (k & [= <-] & H)|eauto].
  - rewrite lookup_insert_ne by done. specialize (Ht d). tauto.
Qed.

Lemma quits_kept s e c k k1 w : orderly s -> not_read e -> connections s !! c = Some k ->
  notifyStop k1 = notifyStop k -> (notifyStop k = true -> writes k1 = true) ->
  keeps_quits e s {| connections := <[c := k1]> (connections s); core := w |}.
Proof.
  intros Hs He Hk Hn Hw. pose proof (fun d => not_read_told e d He) as Ht.
  apply quits_set; [done|by rewrite Hn| |by intros d Hd%Ht].
  rewrite Hn, Hk. split; [eauto|]. intros [(k' & [= <-] & H)|H%Ht]; done.
Qed.

Lemma handle_quits e s s1 : orderly s -> can s e = true -> handle e s = (Ok tt, s1) -> keeps_quits e s s1.
Proof.
  intros Ho Hcan He. destruct e as [c| |c data|c|c n|c]; cbn [can handle] in *;
    [injection He as <-|injection He as <-; by apply quits_same|destruct (connections s !! c) as [k|] eqn:Ek; [|done]..].
  - apply bool_decide_eq_true in Hcan. apply quits_set; [done..| |].
    + cbn. split; [done|]. rewrite Hcan. intros [(k & [= ] & _)|H]. by apply not_read_told in H.
    + intros d H. by apply not_read_told in H.
  - apply on_read_ok in He as (m & stop & w & Hr & Hw & ->). apply reading_stop in Hr. apply quits_set; [done..| |].
    + cbn. rewrite orb_true_iff, Hr, Ek. split.
      * intros [H|H]; [left; eauto|]. right. exists data. split; [by left|done].
      * intros [(k' & [= <-] & H')|(data' & [[= <-]|[]] & H')]; tauto.
    + by intros d (data' & [[= <-]|[]] & _).
  - injection He as <-. apply (quits_kept s _ c k); try done. cbn. eauto.
  - unfold on_write, bind, modify in He. destruct (notifyStop k) eqn:En; [done|]. injection He as <-.
    apply (quits_kept s _ c k); try done. congruence.
  - unfold on_write, bind, modify in He. destruct (notifyStop k) eqn:En; [done|]. injection He as <-.
    apply (quits_kept s _ c k); try done. congruence.
Qed.

Lemma told_app es es' d : told (es ++ es') d <-> told es d \/ told es' d.
Proof.
  unfold told. setoid_rewrite in_app_iff. split.
  - intros (x & [H|H] & Hq); [left|right]; by exists x.
  - intros [(x & H & Hq)|(x & H & Hq)]; exists x; tauto.
Qed.

(** After a run that has not ended *)
Lemma run_quits es s s' : orderly s -> possible es s -> io_run es s = (Ok tt, s') ->
  orderly s' /\
  forall d, (exists k, connections s' !! d = Some k /\ notifyStop k = true) <->
    ((exists k, connections s !! d = Some k /\ notifyStop k = true) \/ told es d).
Proof.
  revert s. induction es as [|e es IH]; intros s Ho Hp Hr.
  { injection Hr as <-. split; [done|]. intros d. split; [auto|]. intros [H|(? & [] & _)]; done. }
  cbn [possible io_run] in *. destruct Hp as [Hcan Hp]. unfold bind in Hr.
  destruct (handle e s) as [[[]|x| |] s1] eqn:E; try done. destruct (handle_quits e s s1 Ho Hcan E) as [Ho1 H1].
  destruct (IH s1 Ho1 Hp Hr) as [Ho' H']. split; [done|]. intros d. rewrite H', H1.
  change (e :: es) with ([e] ++ es). rewrite told_app. tauto.
Qed.

(** The event at which a run ends *)
Lemma run_ended es s o s' : io_run es s = (o, s') -> o <> Ok tt -> exists pre e post s1,
  es = pre ++ e :: post /\ io_run pre s = (Ok tt, s1) /\ handle e s1 = (o, s').
Proof.
  revert s. induction es as [|e es IH]; intros s Hr Ho; [by injection Hr as <- _|].
  cbn [io_run] in Hr. unfold bind in Hr. destruct (handle e s) as [[[]|x| |] s1] eqn:E;
    try (injection Hr as <- <-; by exists [], e, es, s).
  destruct (IH s1 Hr Ho) as (pre & e' & post & s2 & -> & Hpre & He). exists (e :: pre), e', post, s2.
  split_and!; [done| |done]. cbn [io_run]. unfold bind. by rewrite E.
Qed.

Lemma possible_app pre es s s1 : possible (pre ++ es) s -> io_run pre s = (Ok tt, s1) -> possible pre s /\ possible es s1.
Proof.
  revert s. induction pre as [|e pre IH]; intros s Hp Hr; cbn in *; [by injection Hr as <-|].
  destruct Hp as [Hc Hp]. unfold bind in Hr. destruct (handle e s) as [[[]|x| |] s2]; try done.
  destruct (IH s2 Hp Hr). done.
Qed.

Lemma handle_throws e s x s' : handle e s = (Throw x, s') ->
  (exists c, x = forced_to_quit /\ exists k, connections s !! c = Some k /\ notifyStop k = true /\
     ((exists n, e = Wrote c n) \/ e = WriteFailed c)) \/
  (exists c data, e = Read c data /\ (reading data (core s)).1 = Throw x /\ forall what, x <> RuntimeError what).
Proof.
  destruct e as [c| |c data|c|c n|c]; cbn [handle]; try done;
    (destruct (connections s !! c) as [k|] eqn:Ek; [|done]); unfold on_read, on_write, bind, modify, ret.
  - pose proof (reading_not_runtime data (core s)) as Hr.
    destruct (reading data (core s)) as [[[m stop]|y| |] w] eqn:E; try done; [by destruct (writes k)|].
    intros [= <- _]. right. exists c, data. rewrite E. split_and!; [done..|]. intros what ->. by apply (Hr what).
  - done.
  - destruct (notifyStop k) eqn:En; [|done]. intros [= <- _]. left. exists c. split; [done|]. exists k. eauto.
  - destruct (notifyStop k) eqn:En; [|done]. intros [= <- _]. left. exists c. split; [done|]. exists k. eauto.
Qed.

Lemma handle_undefined e s o s' : handle e s = (o, s') -> o = Undef \/ o = Fuel ->
  exists c data, e = Read c data /\ exists k, connections s !! c = Some k /\
    (writes k = true \/ (reading data (core s)).1 = Undef \/ (reading data (core s)).1 = Fuel).
Proof.
  intros H Ho. assert (Hno : forall o', o' = o -> (is_ok o' || match o' with Throw _ => true | _ => false end) = true -> False).
  { intros o' <- Hb. by destruct Ho as [-> | ->]. }
  destruct e as [c| |c data|c|c n|c]; cbn [handle] in H; try (exfalso; exact (Hno _ (f_equal fst H) eq_refl));
    (destruct (connections s !! c) as [k|] eqn:Ek; [|exfalso; exact (Hno _ (f_equal fst H) eq_refl)]);
    unfold on_read, on_read_failed, on_write, bind, modify, ret, throw in H;
    try (exfalso; exact (Hno _ (f_equal fst H) eq_refl));
    try (destruct (notifyStop k); exfalso; exact (Hno _ (f_equal fst H) eq_refl)).
  exists c, data. split; [done|]. exists k. split; [done|].
  destruct (reading data (core s)) as [[[m stop]|y| |] w] eqn:E; cbn; auto.
  - destruct (writes k); [auto|]. injection H as <- _. by destruct Ho.
  - injection H as <- _. by destruct Ho.
Qed.

Definition at_start (w : P) : TCPServer := {| connections := ∅; core := w |}.

Lemma start_quits es w s1 : possible es (at_start w) -> io_run es (at_start w) = (Ok tt, s1) ->
  orderly s1 /\ forall d, (exists k, connections s1 !! d = Some k /\ notifyStop k = true) <-> told es d.
Proof.
  intros Hp Hr. destruct (run_quits es (at_start w) s1) as [Ho Hq]; [|done..|].
  { intros c k. unfold at_start. cbn. by rewrite lookup_empty. }
  split; [done|]. intros d. rewrite Hq. cbn. rewrite lookup_empty. split; [intros [(k & [=] & _)|H]; done|auto].
Qed.

Lemma start_carries es w s1 : possible es (at_start w) -> whole es (at_start w) ->
  io_run es (at_start w) = (Ok tt, s1) -> exists l, replies es w = (Ok l, core s1) /\
    forall c k, connections s1 !! c = Some k -> closed k = false -> given_to k = replies_to c l.
Proof.
  intros Hp Hw Hr. destruct (run_carries es _ _ Hp Hw Hr) as (l & Hl & Hc). exists l. split; [done|].
  intros c k Hk Hcl. specialize (Hc c). rewrite Hk in Hc. destruct (Hc Hcl) as [_ ->]. cbn. by rewrite lookup_empty.
Qed.

(** C37. The connections of a server that runs.  Whatever order the events come
    in: the process is in the state that the blocks, all of them one after the
    other, lead to, and every connection that is open has been given, or is just
    being given, the replies to its own blocks in their order, as long as the
    system takes each message as a whole; exactly those that have sent quit wait
    for their last write only. *)
Theorem blocks_answered tcpUrl can_bind es (w : P) s :
  possible es (at_start w) -> whole es (at_start w) ->
  tcpServerStart tcpUrl can_bind es w = (Serves, true, s) ->
  exists l, replies es w = (Ok l, core s) /\
    forall c k, connections s !! c = Some k ->
      (closed k = false -> given_to k = replies_to c l) /\
      (notifyStop k = true <-> told es c) /\ (notifyStop k = true -> writes k = true).
Proof.
  unfold tcpServerStart. fold (at_start w). intros Hp Hw. destruct (server_port _); try done. destruct (can_bind _); [|done].
  destruct (io_run es _) as [[[]|[]| |] s1] eqn:E; try done. intros [= <-].
  destruct (start_carries es w s1 Hp Hw E) as (l & Hl & Hc). destruct (start_quits es w s1 Hp E) as [Ho Hq].
  exists l. split; [done|]. intros c k Hk. split; [exact (Hc c k Hk)|split; [|exact (Ho c k Hk)]].
  specialize (Hq c). rewrite Hk in Hq. rewrite <- Hq. split; [eauto|]. by intros (k0 & [= <-] & H).
Qed.

(** C38. How the server ends.  With 0 only after some client, any, has sent quit,
    with the end of the write that answers it; with 1 when there is no port to
    listen on, or an exception that is no [std::runtime_error] leaves the
    router, with which one block of one client takes all the others down; it is
    undefined where a block arrives before the last answer has been written, or
    where the block fills the buffer or the router is undefined itself. *)
Theorem server_ended tcpUrl can_bind es (w : P) r flag s :
  possible es (at_start w) ->
  tcpServerStart tcpUrl can_bind es w = (r, flag, s) ->
  match r with
  | Serves => flag = true
  | Returns code =>
      flag = false /\
      ((code = 0%Z /\ exists pre e post c, es = pre ++ e :: post /\ told pre c /\
          ((exists n, e = Wrote c n) \/ e = WriteFailed c)) \/
       (code = 1%Z /\
          ((forall p, server_port (c_str tcpUrl) = Ok p -> can_bind (port_number p) = false) \/
           exists pre c data post s1 x, es = pre ++ Read c data :: post /\
             io_run pre (at_start w) = (Ok tt, s1) /\
             (reading data (core s1)).1 = Throw x)))
  | Undefined =>
      exists pre c data post s1 k, es = pre ++ Read c data :: post /\
        io_run pre (at_start w) = (Ok tt, s1) /\ connections s1 !! c = Some k /\
        (writes k = true \/ (reading data (core s1)).1 = Undef \/ (reading data (core s1)).1 = Fuel)
  end.
Proof.
  unfold tcpServerStart. fold (at_start w). intros Hp H. destruct (server_port (c_str tcpUrl)) as [p|x| |] eqn:Eu;
    try (injection H as <- <- _; split; [done|right; split; [done|left; intros p [=]]]).
  destruct (can_bind (port_number p)) eqn:Eb.
  2:{ injection H as <- <- _. split; [done|right]. split; [done|left]. by intros p' [= <-]. }
  destruct (io_run es _) as [o s1] eqn:E. destruct o as [[]|x| |]; [by injection H as <- <- _|..];
    (destruct (run_ended es _ _ _ E) as (pre & e & post & s2 & -> & Hpre & He); [done|]).
  - destruct (handle_throws _ _ _ _ He) as [(c & -> & k & Hk & Hn & Hwr)|(c & data & -> & Hx & Hnot)].
    + injection H as <- <- _. split; [done|left; split; [done|]].
      destruct (possible_app _ _ _ _ Hp Hpre) as [Hpp _].
      destruct (start_quits pre w s2 Hpp Hpre) as [_ Hq]. exists pre, e, post, c. split_and!; [done| |done].
      apply Hq. eauto.
    + assert (r = Returns 1 /\ flag = false) as [-> ->] by (destruct x as [what| | | | | |]; [by destruct (Hnot what)|by injection H as <- <- _..]).
      split; [done|right; split; [done|right]]. exists pre, c, data, post, s2, x. done.
  - injection H as <- <- _. destruct (handle_undefined _ _ _ _ He) as (c & data & -> & k & Hk & Hw); [auto|].
    exists pre, c, data, post, s2, k. done.
  - injection H as <- <- _. destruct (handle_undefined _ _ _ _ He) as (c & data & -> & k & Hk & Hw); [auto|].
    exists pre, c, data, post, s2, k. done.
Qed.

(** The next end of a write of a connection that was told to quit ends the
    server. *)
Lemma quit_ends s c k e : connections s !! c = Some k -> notifyStop k = true ->
  (exists n, e = Wrote c n) \/ e = WriteFailed c -> (handle e s).1 = Throw forced_to_quit.
Proof.
  intros Hk Hn [[n ->]| ->]; cbn [handle]; rewrite Hk; unfold on_write, bind, modify; by rewrite Hn.
Qed.

Lemma client_waits tcpUrl is_address can_connect a p :
  client_target (c_str tcpUrl) = Ok (a, p) -> is_address a = true -> can_connect a (port_number p) = true ->
  tcpClientStart tcpUrl is_address can_connect [Never] = Ok ([hello 0], false).
Proof. unfold tcpClientStart. intros -> Ha Hc. cbn. by rewrite Ha, Hc. Qed.
End server.

(** The demonstration client's greeting is no request, and its answer is empty:
    nothing is ever sent to the client, which waits for it. *)
Section greeting.
Context {plat : Platform} {R : RocksDB} {A : Arithmetic}.
Context (fuel : nat) (uuid : string)
  (std_sort : (rvalue -> rvalue -> outcome bool) -> list rvalue -> outcome (list rvalue))
  (create : option DB -> string -> bool)
  (getKeysMulti : world -> string -> Z -> Z -> SM (list wvalue) bool)
  (can_transfer : bool) (taken_by_disk : nat -> nat) (port_1234 : peer).

Lemma greeting_unanswered p :
  handle_read (DispatchRequest fuel uuid std_sort create getKeysMulti can_transfer taken_by_disk port_1234)
    (hello 0) p = (Ok (EmptyString, false), p).
Proof. by destruct p. Qed.
End greeting.

(** *** Witnesses *)

Section witnesses.
Import Demo.
#[local] Existing Instance int_arithmetic.
Definition demo_site : string -> SM (world * disk) string :=
  DispatchRequest 10 "id" kept_order no_checkpoint no_threads true id silent_peer.
Lemma demo_caught data p what : (demo_site data p).1 <> Throw (RuntimeError what).
Proof. apply site_caught. Qed.
#[local] Abbreviation demo_start := (tcpServerStart demo_site).
Definition demo_process : world * disk := (w, empty_disk).

Definition count_text : string := q "{`query`:`/getcount`,`keys`:`user_*`}".
(** Two clients whose events are interleaved; the second one quits. *)
Definition some_events : list io_event :=
  [Accepted 0; Read 0 count_text; Accepted 1; Wrote 0 1; Read 1 "quit"].
Definition no_time : string := q "{`query`:`/test`}".

Lemma some_events_possible : possible demo_site some_events (at_start demo_process).
Proof. vm_compute. repeat split. Qed.
Lemma some_events_whole : whole demo_site some_events (at_start demo_process).
Proof. vm_compute. repeat split. intros k [= <-]. done. Qed.

Theorem blocks_answered_witness :
  exists s, demo_start "127.0.0.1:8000" (fun _ => true) some_events demo_process = (Serves, true, s) /\
    replies demo_site some_events demo_process = (Ok [(0, "3"); (1, "quit")], core s).
Proof.
  destruct (demo_start "127.0.0.1:8000" (fun _ => true) some_events demo_process) as [[r f] s] eqn:E.
  assert (Hs : (r, f) = (Serves, true)) by (apply (f_equal fst) in E; vm_compute in E; by rewrite E).
  injection Hs as -> ->. exists s. split; [done|].
  destruct (blocks_answered demo_site "127.0.0.1:8000" (fun _ => true) some_events demo_process s
    some_events_possible some_events_whole E) as (l & Hl & _).
  pose proof (f_equal fst Hl) as Hl2. vm_compute in Hl2. injection Hl2 as <-. exact Hl.
Defined.

(** A request for a wait without a time, from one client, ends the server. *)
Definition bad_events : list io_event := [Accepted 0; Accepted 1; Read 0 count_text; Read 1 no_time].

Theorem server_ended_witness :
  (demo_start "127.0.0.1:8000" (fun _ => true) bad_events demo_process).1 = (Returns 1, false).
Proof.
  destruct (demo_start "127.0.0.1:8000" (fun _ => true) bad_events demo_process) as [[r f] s] eqn:E.
  assert (Hr : r = Returns 1) by (apply (f_equal (fst ∘ fst)) in E; vm_compute in E; by rewrite E).
  subst r. destruct (server_ended demo_site demo_caught "127.0.0.1:8000" (fun _ => true)
    bad_events demo_process (Returns 1) f s) as [-> _]; [vm_compute; repeat split|done|done].
Defined.

(** What the system does not take at once is never sent. *)
Definition keys_block : string := q "{`query`:`/getkeys`,`keys`:`user_*`,`skip`:2}".
Lemma partial_write :
  (fun k => (taken k, writes k)) <$>
  connections (io_run demo_site
    [Accepted 0; Read 0 keys_block; Wrote 0 10] (at_start demo_process)).2 !! 0 = Some (q "{`result`:", false).
Proof. vm_compute. reflexivity. Qed.
End witnesses.
