(* ===== verification/Start.v ===== *)
(** * Start and end of the program

    src/src/main.cpp, with the end of [Core] in src/src/quarks.cpp: what [main]
    sets up, the threads it starts and waits for, and how the TCP server is told
    to end.  Steps of the program's own threads are apart from what happens
    outside: a signal that ends the HTTP server or the node, and what the clients
    of the TCP server do.

    The TCP server is seen from outside here: a connection that was told to quit
    ends it ([TcpServer.quit_ends]), and so does a block whose request throws. *)

From stdpp Require Import gmap relations.
From S2P Require Import Prelude SortedMap Json Store World Http Searcher Pages TcpServer.
Local Open Scope quarks_scope.

(** ** Setting up *)

(** [Core::isANode] *)
Definition isANode (c : config) : bool := broker c || writer c || reader c.

(** The seconds of the queue of timers of the HTTP server, [tick] *)
Definition initial_tick : Z := 5.
Definition tick (c : config) : Z := if (0 <? timeout c)%Z then timeout c else initial_tick.

(** The answer of the route /sse *)
Definition route_sse : list (string * string) * string :=
  ([("Access-Control-Allow-Origin", "*"); ("Content-Type", "text/event-stream");
    ("Cache-Control", "no-cache"); ("Keep-Alive", "timeout=10, max=1000")],
   String "010" ("data:" +:+ String "010" EmptyString)).

Section rules.
Context {plat : Platform} {R : RocksDB} {A : Geo.Arithmetic}.
Context (search : list (string * (request -> SM QSearch wvalue))) (core : list rule) (pages : list page_rule).

(** The patterns of all rules, in the order in which [main] adds them *)
Definition all_patterns : list pattern :=
  map Fixed search.*1 ++ map (fun r => Fixed (path r)) core ++ map rule_pattern pages ++
  [Fixed "/ws"; Fixed "/sse"].
End rules.

(** ** Threads *)

(** The thread of the TCP server: none, before its port is bound, with the port
    bound and [tcp_server_running] not set, with it set, told to quit, ended *)
Inductive server_at := NoServer | Starting | Bound | Serving | Quitting | ServerEnded.

(** The thread of the demonstration client *)
Inductive client_at := NoClient | Connecting | Waiting | ClientEnded.

(** [main]: about to start the threads, in [Core::run], in the HTTP server, about
    to read [tcp_server_running] in [tcpServerQuit], about to connect there, in
    the joins, in the clean-up, at [exit(-1)]; or ended by an exception that
    nothing catches *)
Inductive main_at := Launching | InCore | InHttp | Quits | Connects | Joins | CleansUp | Exits | Terminated.

Record program := {
  main : main_at;
  server : server_at;
  client : client_at;
  tcp_server_running : bool;
  quit_sent : bool   (* the connection of [tcpServerQuit] that the server has not yet read *)
}.

Definition at_main (m : main_at) (p : program) : program := {|
  main := m; server := server p; client := client p; tcp_server_running := tcp_server_running p;
  quit_sent := quit_sent p |}.
Definition at_server (s : server_at) (p : program) : program := {|
  main := main p; server := s; client := client p;
  tcp_server_running := match s with Serving | Quitting => true | _ => false end;
  quit_sent := match s with ServerEnded => false | _ => quit_sent p end |}.
Definition at_client (k : client_at) (p : program) : program := {|
  main := main p; server := server p; client := k; tcp_server_running := tcp_server_running p;
  quit_sent := quit_sent p |}.
Definition send_quit (p : program) : program := {|
  main := main p; server := server p; client := client p; tcp_server_running := tcp_server_running p;
  quit_sent := true |}.

Definition listening (s : server_at) : bool := match s with Bound | Serving | Quitting => true | _ => false end.
Definition server_done (s : server_at) : bool := match s with NoServer | ServerEnded => true | _ => false end.
Definition client_done (k : client_at) : bool := match k with NoClient | ClientEnded => true | _ => false end.

Definition launched : program := {|
  main := Launching; server := NoServer; client := NoClient; tcp_server_running := false; quit_sent := false |}.

(** [main] up to the launch: an exception of [setEnvironment] ends it. *)
Definition configure {R : RocksDB} (fuel : nat) (Open : string -> option DB) (argv : list string) (w : world) :
    outcome (config * program) :=
  match setEnvironment fuel Open argv w with
  | (Ok _, w) => Ok (cfg w, launched)
  | (Throw _, w) => Ok (cfg w, at_main Terminated launched)
  | (Undef, _) => Undef
  | (Fuel, _) => Fuel
  end.

(** [closeDB]: the block of the database is released.  The pointer and the status
    stay, so what uses the database afterwards is undefined. *)
Definition closeDB {R : RocksDB} (schemaname : string) : SM world unit :=
  modify (fun w => {| db := None; dbStatus_ok := dbStatus_ok w; cfg := cfg w; CacheMap := CacheMap w;
                      events := events w |}).

(** [Core::shutDown]; the name is only logged, and [back] needs an argument. *)
Definition shutDown {R : RocksDB} (argv : list string) : SM world unit :=
  match last argv with Some schemaname => closeDB schemaname | None => undef end.

(** A request that a thread of the HTTP server of a node still serves *)
Lemma served_after_shutdown {R : RocksDB} argv key w w' : shutDown argv w = (Ok tt, w') -> dbStatus_ok w = true ->
  (getKeyValuePair key w').1 = Undef.
Proof.
  unfold shutDown. destruct (last argv) as [name|]; [|done]. intros [= <-] Hs.
  unfold getKeyValuePair, Get, the_db, bind, get_st. cbn. by rewrite Hs.
Qed.

Section program.
Context (c : config) (can_bind : Z -> bool) (is_address : string -> bool).

(** The start of the services *)
Definition launch (p : program) : program := {|
  main := InCore;
  server := if tcpServer c then Starting else NoServer;
  client := if tcpClient c then Connecting else NoClient;
  tcp_server_running := false;
  quit_sent := false |}.

(** [Core::run] returns at once for a process that is no node; what the cloud
    library does before it returns is an event from outside. *)
Definition core_runs : main_at :=
  match run c with
  | Ok (_, None) => InHttp
  | Ok (_, Some _) => InCore
  | _ => Terminated
  end.

Definition server_starts : server_at :=
  match server_port (c_str (tcpUrl c)) with
  | Ok p => if can_bind (port_number p) then Bound else ServerEnded
  | _ => ServerEnded
  end.

Definition client_starts (own_server : server_at) (others_listen : bool) (p : program) : program :=
  match client_target (c_str (tcpUrl c)) with
  | Ok (a, _) =>
      if is_address a && (if tcpServer c then listening own_server else others_listen)
      then at_client Waiting p
      else at_main Terminated p
  | _ => at_main Terminated p
  end.

(** Steps of the program's threads.  The server reads the quit of
    [tcpServerQuit] like that of any client. *)
Inductive own_step : program -> program -> Prop :=
  | step_launch p : main p = Launching -> own_step p (launch p)
  | step_core p : main p = InCore -> core_runs <> InCore -> own_step p (at_main core_runs p)
  | step_not_running p : main p = Quits -> tcp_server_running p = false -> own_step p (at_main Joins p)
  | step_running p : main p = Quits -> tcp_server_running p = true -> own_step p (at_main Connects p)
  | step_connect p : main p = Connects -> listening (server p) = true ->
      own_step p (send_quit (at_main Joins p))
  | step_refused p : main p = Connects -> listening (server p) = false -> own_step p (at_main Terminated p)
  | step_joined p : main p = Joins -> server_done (server p) = true -> client_done (client p) = true ->
      own_step p (at_main CleansUp p)
  | step_exit p : main p = CleansUp -> own_step p (at_main Exits p)
  | step_bind p : main p <> Exits -> main p <> Terminated -> server p = Starting ->
      own_step p (at_server server_starts p)
  | step_serve p : main p <> Exits -> main p <> Terminated -> server p = Bound ->
      own_step p (at_server Serving p)
  | step_told p : main p <> Exits -> main p <> Terminated -> server p = Serving -> quit_sent p = true ->
      own_step p (at_server Quitting p)
  | step_server_ends p : main p <> Exits -> main p <> Terminated -> server p = Quitting ->
      own_step p (at_server ServerEnded p)
  | step_client p others : main p <> Exits -> main p <> Terminated -> client p = Connecting ->
      own_step p (client_starts (server p) others p)
  | step_client_lost p : main p <> Exits -> main p <> Terminated -> client p = Waiting ->
      tcpServer c = true -> server p = ServerEnded -> own_step p (at_client ClientEnded p).

(** What happens outside *)
Inductive outside_step : program -> program -> Prop :=
  | out_node p : main p = InCore -> core_runs = InCore -> outside_step p (at_main Quits p)
  | out_http p : main p = InHttp -> outside_step p (at_main Quits p)
  | out_quit p : main p <> Exits -> main p <> Terminated -> server p = Serving ->
      outside_step p (at_server Quitting p)
  | out_block p : main p <> Exits -> main p <> Terminated -> server p = Serving ->
      outside_step p (at_server ServerEnded p)
  | out_peer p : main p <> Exits -> main p <> Terminated -> client p = Waiting -> tcpServer c = false ->
      outside_step p (at_client ClientEnded p).

Definition any_step (p p' : program) : Prop := own_step p p' \/ outside_step p p'.
Definition reachable (p : program) : Prop := rtc any_step launched p.
Definition final (p : program) : Prop := forall p', ~ own_step p p'.

(** *** What holds in every state *)

Definition running_of (s : server_at) : bool := match s with Serving | Quitting => true | _ => false end.
Definition before_join (m : main_at) : bool :=
  match m with Launching | InCore | InHttp | Quits | Connects => true | _ => false end.

Record consistent (p : program) : Prop := {
  flag_consistent : tcp_server_running p = running_of (server p);
  quit_consistent : quit_sent p = true -> before_join (main p) = false;
  client_consistent : tcpClient c = false -> client p = NoClient
}.

Lemma core_runs_cases : core_runs = InCore \/ core_runs = InHttp \/ core_runs = Terminated.
Proof. unfold core_runs. destruct (run c) as [[? [?|]]|?| |]; auto. Qed.
Lemma server_starts_cases : server_starts = Bound \/ server_starts = ServerEnded.
Proof. unfold server_starts. destruct (server_port _); [destruct (can_bind _)|..]; auto. Qed.
Lemma client_starts_cases s o p : client_starts s o p = at_client Waiting p \/ client_starts s o p = at_main Terminated p.
Proof. unfold client_starts. destruct (client_target _) as [[a ?]|?| |]; auto. destruct (_ && _); auto. Qed.

(** The cases of a step, with the state it leads to *)
Ltac step_cases :=
  match goal with
  | H : own_step _ _ |- _ => inversion H; subst; clear H
  | H : outside_step _ _ |- _ => inversion H; subst; clear H
  end;
  try (destruct core_runs_cases as [E|[E|E]]; rewrite E in *; try done);
  try (destruct server_starts_cases as [E|E]; rewrite E in *);
  try (match goal with |- context [client_starts ?s ?o ?p] => destruct (client_starts_cases s o p) as [E|E]; rewrite E in * end).

Lemma any_consistent p p' : any_step p p' -> consistent p -> consistent p'.
Proof.
  intros [H|H] [Hf Hq Hk]; step_cases; split; cbn in *;
    repeat match goal with H : main _ = _ |- _ => rewrite H in * end;
    repeat match goal with H : server _ = _ |- _ => rewrite H in * end; cbn in *; try done; try congruence; try auto.
  - by destruct (tcpServer c).
  - by intros ->.
  - intros Hc. specialize (Hk Hc). congruence.
  - intros Hc. specialize (Hk Hc). congruence.
  - intros Hc. specialize (Hk Hc). congruence.
Qed.

Lemma reachable_consistent p : reachable p -> consistent p.
Proof.
  unfold reachable. apply rtc_ind_r; [by split|]. intros p1 p2 _ Hs Hc. by eapply any_consistent.
Qed.

(** Every step of the program's own is one towards its end. *)
Definition main_rank (m : main_at) : nat :=
  match m with
  | Launching => 20 | InCore => 6 | InHttp => 5 | Quits => 4 | Connects => 3 | Joins => 2 | CleansUp => 1
  | Exits | Terminated => 0
  end.
Definition server_rank (s : server_at) : nat :=
  match s with Starting => 4 | Bound => 3 | Serving => 2 | Quitting => 1 | NoServer | ServerEnded => 0 end.
Definition client_rank (k : client_at) : nat :=
  match k with Connecting => 2 | Waiting => 1 | NoClient | ClientEnded => 0 end.
Definition rank (p : program) : nat := main_rank (main p) + server_rank (server p) + client_rank (client p).

Lemma own_rank p p' : own_step p p' -> rank p' < rank p.
Proof.
  intros H. unfold rank. step_cases; cbn;
    repeat match goal with H : main _ = _ |- _ => rewrite H in * end;
    repeat match goal with H : server _ = _ |- _ => rewrite H in * end;
    repeat match goal with H : client _ = _ |- _ => rewrite H in * end; cbn; try lia.
  - destruct (tcpServer c), (tcpClient c); cbn; lia.
  - destruct (main p); cbn; try done; lia.
Qed.

Lemma own_ends p : sn own_step p.
Proof.
  remember (rank p) as n eqn:En. revert p En. induction n as [n IH] using lt_wf_ind. intros p ->.
  constructor. intros p' H. eapply IH; [|done]. by apply own_rank.
Qed.

(** From the moment [main] is about to read [tcp_server_running] in [p0] *)
Record quitting_from (p0 p : program) : Prop := {
  q_consistent : consistent p;
  q_late : match main p with Launching | InCore | InHttp => False | _ => True end;
  q_terminated : main p = Terminated -> server p0 = Quitting;
  q_early : before_join (main p) = true -> server p = Quitting -> server p0 = Quitting;
  q_connects : main p = Connects -> server p0 = Quitting \/ server p = Serving;
  q_flag : tcp_server_running p0 = true -> running_of (server p) = true \/ server p = ServerEnded;
  q_joins : tcp_server_running p0 = true -> main p = Joins -> server p = Serving -> quit_sent p = true;
  q_done : main p = CleansUp \/ main p = Exits -> server_done (server p) = true
}.

Lemma quitting_start p : consistent p -> main p = Quits -> quitting_from p p.
Proof.
  intros Hc Hm. split; rewrite ?Hm; try done.
  - rewrite (flag_consistent _ Hc). auto.
  - by intros [|].
Qed.

Lemma quitting_step p0 p p' : tcpClient c = false -> own_step p p' -> quitting_from p0 p -> quitting_from p0 p'.
Proof.
  intros Hc Hs [Hcons Hl Ht He Hco Hf Hj Hd]. pose proof (client_consistent _ Hcons Hc) as Hk.
  assert (Hcons' : consistent p') by (eapply any_consistent; [by left|done]).
  destruct Hcons as [Hrun Hq _]. split; [done|..]; clear Hcons'; step_cases; cbn in *;
    repeat match goal with H : main _ = _ |- _ => rewrite H in * end;
    repeat match goal with H : server _ = _ |- _ => rewrite H in * end; cbn in *; try done; try congruence.
  all: intros; try (intuition congruence).
  - destruct (Hco eq_refl) as [|Hs]; [done|]. by rewrite Hs in *.
  - destruct (server p) eqn:Es; cbn in *; try congruence; auto.
  - specialize (Hq H2). by rewrite H3 in Hq.
Qed.

Lemma quitting_steps p0 p p' : tcpClient c = false -> rtc own_step p p' -> quitting_from p0 p -> quitting_from p0 p'.
Proof. intros Hc. induction 1 as [|p p1 p' Hs _ IH]; [done|]. intros H. apply IH. by eapply quitting_step. Qed.

(** What can still be done *)
Lemma final_cases p : final p -> client p = NoClient ->
  match main p with
  | Exits | Terminated => True
  | Joins => server p = Serving /\ quit_sent p = false
  | InCore => core_runs = InCore
  | InHttp => True
  | _ => False
  end.
Proof.
  intros Hf Hk. destruct (main p) eqn:Em; try done.
  - eapply Hf. by apply step_launch.
  - destruct core_runs eqn:Ec; try done; exfalso; (eapply Hf; apply step_core; [done|]; by rewrite Ec).
  - destruct (tcp_server_running p) eqn:Er; eapply Hf; [by apply step_running|by apply step_not_running].
  - destruct (listening (server p)) eqn:El; eapply Hf; [by apply step_connect|by apply step_refused].
  - destruct (server p) eqn:Es; try (exfalso; eapply Hf; apply step_joined; rewrite ?Es, ?Hk; done).
    + exfalso. eapply Hf. apply step_bind; congruence.
    + exfalso. eapply Hf. apply step_serve; congruence.
    + split; [done|]. destruct (quit_sent p) eqn:Eq; [|done]. exfalso. eapply Hf. apply step_told; congruence.
    + exfalso. eapply Hf. apply step_server_ends; congruence.
  - eapply Hf. by apply step_exit.
Qed.

(** C39. How the program ends, from the moment [main] is about to read
    [tcp_server_running] (with no demonstration client): whatever order its
    threads take turns in, they come to rest.  Then the process has exited with
    the server ended before it, except when the flag was not set yet: then
    [main] may wait for ever in the joins for a server that goes on serving, and
    only a client could end it; and except when a client's quit was already
    under way: then an exception of the connection may end the process. *)
Theorem shutdown p :
  reachable p -> main p = Quits -> tcpClient c = false ->
  sn own_step p /\
  forall p', rtc own_step p p' -> final p' ->
    match main p' with
    | Exits => server_done (server p') = true
    | Joins => server p' = Serving /\ quit_sent p' = false /\ tcp_server_running p = false
    | Terminated => server p = Quitting
    | _ => False
    end.
Proof.
  intros Hr Hm Hc. split; [apply own_ends|]. intros p' Hp Hf.
  pose proof (quitting_start p (reachable_consistent p Hr) Hm) as H0.
  destruct (quitting_steps p p p' Hc Hp H0) as [Hcons Hl Ht _ _ _ Hj Hd].
  pose proof (final_cases p' Hf (client_consistent _ Hcons Hc)) as H. destruct (main p'); try done; auto.
  destruct H as [Hs Hq]. split_and!; [done..|]. destruct (tcp_server_running p); [|done].
  specialize (Hj eq_refl eq_refl Hs). congruence.
Qed.
End program.

(** ** The rules are distinct

    Crow throws when two rules have one path, and [main] does not catch it. *)
Section distinct.
Context {plat : Platform} {R : RocksDB} {A : Geo.Arithmetic}.
Context (page_size : nat) (past_eof : string -> string)
  (place : ascii -> Trie.TrieNode -> list (ascii * Trie.TrieNode) -> list (ascii * Trie.TrieNode)).
Context (usable : Z -> Z) (fuel : nat) (uuid : string)
  (std_sort : (rvalue -> rvalue -> outcome bool) -> list rvalue -> outcome (list rvalue))
  (create : option DB -> string -> bool)
  (getKeysMulti : world -> string -> Z -> Z -> SM (list wvalue) bool).
Context (directory : string -> option Z) (can_allocate : Z -> bool) (servername : string) (turns : nat)
  (can_transfer : bool) (taken : nat -> nat) (create_directory : bool) (can_open : string -> bool)
  (what : exn -> string) (uniquePrefix : nat -> string) (content_type_of : request -> string)
  (port_1234 : peer).

#[export] Instance pattern_eq_dec : EqDecision pattern.
Proof. solve_decision. Defined.

Lemma patterns_distinct :
  NoDup (all_patterns (search_rules page_size past_eof place)
           (rules usable fuel uuid std_sort create getKeysMulti)
           (page_rules directory can_allocate servername turns can_transfer taken create_directory can_open
              what uniquePrefix content_type_of port_1234)).
Proof. apply (bool_decide_unpack _). vm_compute. exact I. Qed.
End distinct.

(** *** Witnesses *)

Definition tcp_config : config :=
  set_urls "127.0.0.1:8000" EmptyString EmptyString EmptyString EmptyString EmptyString EmptyString EmptyString
    (set_switches true false false false true false false false initial_config).
Definition any_port (p : Z) : bool := true.
Definition any_address (a : string) : bool := true.

(** The HTTP server ends while the TCP server has its port and no flag yet. *)
Definition early_end : program := {|
  main := Quits; server := Bound; client := NoClient; tcp_server_running := false; quit_sent := false |}.

Lemma early_end_reachable : reachable tcp_config any_port any_address early_end.
Proof.
  unfold reachable. eapply rtc_l; [left; by apply step_launch|].
  eapply rtc_l; [left; by apply step_core|]. eapply rtc_l; [left; by apply step_bind|].
  eapply rtc_l; [right; by apply out_http|]. apply rtc_refl.
Qed.

(** [main] waits for ever. *)
Definition hung : program := {|
  main := Joins; server := Serving; client := NoClient; tcp_server_running := true; quit_sent := false |}.
Lemma early_end_hangs : rtc (own_step tcp_config any_port any_address) early_end hung.
Proof.
  eapply rtc_l; [by apply step_not_running|]. eapply rtc_l; [by apply step_serve|]. apply rtc_refl.
Qed.

Theorem shutdown_witness :
  sn (own_step tcp_config any_port any_address) early_end /\
  (final tcp_config any_port any_address hung -> tcp_server_running early_end = false).
Proof.
  destruct (shutdown tcp_config any_port any_address early_end early_end_reachable) as [Hsn H]; [done|done|].
  split; [exact Hsn|]. intros Hf. exact (proj2 (proj2 (H hung early_end_hangs Hf))).
Defined.
