(* ===== verification/WrenHost.v ===== *)
(** * The host side of the script machines

    src/include/Wren++.hpp and src/src/Wren++.cpp: how a call of a script's
    method passes its arguments and gets its result, how a function of the host
    gets its arguments from a script, which objects own the handles of a machine,
    and how the text of a module is loaded.

    The machine is behind the class [Wren]: its operations are those of wren.h,
    its laws what that header says of the slots.  Classes of the host are bound
    by no part of the program, and their templates are left out.  The program is
    built in release mode: assertions are not checked. *)

From stdpp Require Import gmap.
From S2P Require Import Prelude.
Local Open Scope quarks_scope.
#[local] Set Warnings "-clear-no-such-hyp".

(** ** Slots *)

(** What a slot holds; the numbers of scripts are doubles *)
Inductive slot_value (D H : Type) :=
  | WNull | WBool (b : bool) | WNum (d : D) | WString (s : string) | WForeign (object : nat)
  | WHandle (h : H)       (* the receiver a handle stands for *)
  | WOther.               (* a list, a map, anything else *)
Arguments WNull {D H}.
Arguments WBool {D H} b.
Arguments WNum {D H} d.
Arguments WString {D H} s.
Arguments WForeign {D H} object.
Arguments WHandle {D H} h.
Arguments WOther {D H}.

Class Wren (D H : Type) := {
  wrenVM : Type;
  slotCount : wrenVM -> nat;
  slot : wrenVM -> nat -> slot_value D H;
  wrenEnsureSlots : nat -> wrenVM -> wrenVM;
  wrenSetSlot : nat -> slot_value D H -> wrenVM -> wrenVM;
  (** Whether the call ended without an error; its result is in slot 0 *)
  wrenCall : H -> wrenVM -> bool * wrenVM
}.

Class WrenLaws (D H : Type) {W : Wren D H} := {
  ensure_count n m : slotCount (wrenEnsureSlots n m) = Nat.max n (slotCount m);
  set_count i v m : slotCount (wrenSetSlot i v m) = slotCount m;
  set_same i v m : i < slotCount m -> slot (wrenSetSlot i v m) i = v;
  set_other i j v m : i <> j -> slot (wrenSetSlot i v m) j = slot m j
}.

Section calls.
Context {D H : Type} {W : Wren D H} {L : WrenLaws D H}.

(** [Value]: what a method gives back *)
Inductive Value := VNull | VBool (b : bool) | VNum (d : D) | VString (s : string) | VForeign (object : nat).

(** [as<const char*>()] without its assertion: the null pointer for no text *)
Definition as_char (v : Value) : option string := match v with VString s => Some s | _ => None end.

(** [passArgumentsToWren]: the arguments from slot 1 on *)
Fixpoint passArgumentsToWren (i : nat) (args : list (slot_value D H)) (m : wrenVM) : wrenVM :=
  match args with
  | [] => m
  | v :: args => passArgumentsToWren (S i) args (wrenSetSlot i v m)
  end.

(** The text of a [std::string] goes through [c_str()]. *)
Definition text_argument (s : string) : slot_value D H := WString (c_str s).

(** The slots when the machine is called *)
Definition prepared (variable : H) (args : list (slot_value D H)) (m : wrenVM) : wrenVM :=
  passArgumentsToWren 1 args (wrenSetSlot 0 (WHandle variable) (wrenEnsureSlots (S (length args)) m)).

(** [Method::operator()] for a method whose pointers are set *)
Definition call_method (method variable : H) (args : list (slot_value D H)) (m : wrenVM) : Value * wrenVM :=
  let '(ok, m) := wrenCall method (prepared variable args m) in
  if ok then
    (match slot m 0 with
     | WBool b => VBool b
     | WNum d => VNum d
     | WString s => VString (c_str s)
     | WForeign o => VForeign o
     | _ => VNull
     end, m)
  else (VNull, m).

(** [invokeHelper] for a function of [n] arguments: the slots from 1 on *)
Definition invokeHelper {B} (n : nat) (f : list (slot_value D H) -> B) (m : wrenVM) : B :=
  f (map (fun i => slot m (S i)) (seq 0 n)).

(** [ForeignMethodWrapper::call]: the result, of a function that has one, goes to
    slot 0. *)
Definition foreign_call (n : nat) (f : list (slot_value D H) -> option (slot_value D H)) (m : wrenVM) : wrenVM :=
  match invokeHelper n f m with
  | Some v => wrenSetSlot 0 v m
  | None => m
  end.

Lemma pass_count i args m : slotCount (passArgumentsToWren i args m) = slotCount m.
Proof. revert i m. induction args as [|v args IH]; intros i m; cbn; [done|]. by rewrite IH, set_count. Qed.

Lemma pass_below i args m j : j < i -> slot (passArgumentsToWren i args m) j = slot m j.
Proof.
  revert i m. induction args as [|v args IH]; intros i m Hj; cbn; [done|].
  rewrite IH by lia. apply set_other. lia.
Qed.

Lemma pass_slots i args m : i + length args <= slotCount m ->
  map (fun j => slot (passArgumentsToWren i args m) (i + j)) (seq 0 (length args)) = args.
Proof.
  revert i m. induction args as [|v args IH]; intros i m Hl; cbn in *; [done|]. f_equal.
  - rewrite Nat.add_0_r, pass_below by lia. apply set_same. lia.
  - rewrite <- seq_shift, map_map. rewrite <- (IH (S i) (wrenSetSlot i v m)) at 2 by (rewrite set_count; lia).
    apply map_ext. intros j. f_equal. lia.
Qed.

(** What a script's method is called with is what a function of the host behind
    it is called with, in that order, whatever the slots held before; the method
    is called on its variable. *)
Lemma arguments_passed variable args m :
  slot (prepared variable args m) 0 = WHandle variable /\
  forall f, foreign_call (length args) f (prepared variable args m) =
    match f args with Some v => wrenSetSlot 0 v (prepared variable args m) | None => prepared variable args m end.
Proof.
  assert (Hc : S (length args) <= slotCount (wrenSetSlot 0 (WHandle variable) (wrenEnsureSlots (S (length args)) m))).
  { rewrite set_count, ensure_count. lia. }
  unfold prepared. split.
  - rewrite pass_below by lia. apply set_same. rewrite ensure_count. lia.
  - intros f. unfold foreign_call, invokeHelper. by rewrite (pass_slots 1) by lia.
Qed.
End calls.

(** ** Who owns the handles *)

(** A [VM] is the pointer to its machine; a [Method] has the address of a [VM]
    and the handles of a method and of a variable. *)
Record MethodObj := { vm_ : option nat; method_ : option nat; variable_ : option nat }.
Definition no_method : MethodObj := {| vm_ := None; method_ := None; variable_ := None |}.

(** The objects by their addresses, the machines that run, and the handles that
    were not released with the machine each belongs to *)
Record host := {
  vms : gmap nat (option nat);
  machines : gset nat;
  handles : gmap nat nat;
  methods_ : gmap nat MethodObj
}.
Definition no_host : host := {| vms := ∅; machines := ∅; handles := ∅; methods_ := ∅ |}.
Definition with_vms f (h : host) : host :=
  {| vms := f (vms h); machines := machines h; handles := handles h; methods_ := methods_ h |}.
Definition with_handles f (h : host) : host :=
  {| vms := vms h; machines := machines h; handles := f (handles h); methods_ := methods_ h |}.
Definition with_methods f (h : host) : host :=
  {| vms := vms h; machines := machines h; handles := handles h; methods_ := f (methods_ h) |}.

(** What is done with the two classes; the first address is the object's own *)
Inductive deed :=
  | VM_new (a w : nat)                     (* [VM()]; [w] is what [wrenNewVM] gives *)
  | VM_move (a b : nat)                    (* [VM(VM&&)] *)
  | VM_assign (a b : nat)                  (* [operator=(VM&&)] *)
  | VM_delete (a : nat)                    (* [~VM()] *)
  | VM_method (x a variable method : nat)  (* [VM::method]; the two handles wren.h gives *)
  | Method_new (x : nat)                   (* [Method()] *)
  | Method_move (x y : nat)                (* [Method(Method&&)] *)
  | Method_assign (x y : nat)              (* [operator=(Method&&)] *)
  | Method_delete (x : nat).               (* [~Method()] *)

(** [vm->ptr()]: the [VM] must be there *)
Definition ptr (a : nat) (h : host) : outcome nat :=
  match vms h !! a with Some (Some w) => Ok w | _ => Undef end.

(** [wrenReleaseHandle]: a handle of this machine that was not released *)
Definition wrenReleaseHandle (w : nat) (handle : option nat) : SM host unit := fun h =>
  match handle with
  | None => (Undef, h)
  | Some k =>
      match handles h !! k with
      | Some w' => if (w' =? w)%nat then (Ok tt, with_handles (delete k) h) else (Undef, h)
      | None => (Undef, h)
      end
  end.

Definition the_method (x : nat) : SM host MethodObj := fun h =>
  (match methods_ h !! x with Some m => Ok m | None => Undef end, h).
Definition put_method (x : nat) (m : MethodObj) : SM host unit := modify (with_methods <[x := m]>).

(** [VM::VM], [VM::VM(VM&&)], [VM::operator=] and [VM::~VM] *)
Definition vm_new (a w : nat) : SM host unit := fun h =>
  (Ok tt, {| vms := <[a := Some w]> (vms h); machines := machines h ∪ {[w]};
             handles := handles h; methods_ := methods_ h |}).
Definition vm_move (a b : nat) : SM host unit := fun h =>
  match vms h !! b with
  | Some p => (Ok tt, with_vms (fun v => <[b := None]> (<[a := p]> v)) h)
  | None => (Undef, h)
  end.
Definition vm_assign (a b : nat) : SM host unit := fun h =>
  match vms h !! b with
  | Some p => (Ok tt, if (a =? b)%nat then h else with_vms (fun v => <[b := None]> (<[a := p]> v)) h)
  | None => (Undef, h)
  end.
Definition vm_delete (a : nat) : SM host unit := fun h =>
  match vms h !! a with
  | None => (Undef, h)
  | Some None => (Ok tt, with_vms (delete a) h)
  | Some (Some w) =>
      if decide (w ∈ machines h) then
        (Ok tt, {| vms := delete a (vms h); machines := machines h ∖ {[w]};
                   handles := filter (fun kw => kw.2 <> w) (handles h); methods_ := methods_ h |})
      else (Undef, h)
  end.

(** [VM::method] *)
Definition vm_method (x a variable method : nat) : SM host unit :=
  let! h := get_st in
  let! w := lift (ptr a h) in
  do! modify (with_handles (fun hs => <[method := w]> (<[variable := w]> hs)));
  put_method x {| vm_ := Some a; method_ := Some method; variable_ := Some variable |}.

(** [Method::Method(Method&&)], [Method::operator=] and [Method::~Method] *)
Definition method_move (x y : nat) : SM host unit :=
  let! m := the_method y in
  do! put_method x m;
  put_method y no_method.
Definition method_assign (x y : nat) : SM host unit :=
  let! m := the_method y in
  if (x =? y)%nat then ret tt
  else
    do! put_method x m;
    put_method y no_method.
Definition method_delete (x : nat) : SM host unit :=
  let! m := the_method x in
  do! (match vm_ m with
       | None => ret tt
       | Some a =>
           let! h := get_st in
           let! w := lift (ptr a h) in
           do! wrenReleaseHandle w (method_ m);
           wrenReleaseHandle w (variable_ m)
       end);
  modify (with_methods (delete x)).

Definition do_deed (d : deed) : SM host unit :=
  match d with
  | VM_new a w => vm_new a w
  | VM_move a b => vm_move a b
  | VM_assign a b => vm_assign a b
  | VM_delete a => vm_delete a
  | VM_method x a variable method => vm_method x a variable method
  | Method_new x => put_method x no_method
  | Method_move x y => method_move x y
  | Method_assign x y => method_assign x y
  | Method_delete x => method_delete x
  end.
Ltac open_deed :=
  unfold do_deed, vm_new, vm_move, vm_assign, vm_delete, vm_method, method_move, method_assign, method_delete.

Definition do_deeds (ds : list deed) : SM host unit :=
  foldr (fun d rest => do! do_deed d; rest) (ret tt) ds.

(** The handles the [Method]s have *)
Definition handles_of (m : MethodObj) : list nat :=
  match m with {| method_ := Some k; variable_ := Some v |} => [k; v] | _ => [] end.
Definition held (ms : gmap nat MethodObj) : list nat := map_to_list ms ≫= fun xm => handles_of xm.2.

(** The handles nothing has any more: those of a [Method] that is assigned to
    stay behind, until the machine is freed. *)
Definition lost_after (d : deed) (h : host) (lost : list nat) : list nat :=
  match d with
  | Method_assign x y =>
      if (x =? y)%nat then lost else from_option handles_of [] (methods_ h !! x) ++ lost
  | VM_delete a =>
      match vms h !! a with
      | Some (Some w) => filter (fun k => handles h !! k <> Some w) lost
      | _ => lost
      end
  | _ => lost
  end.
Fixpoint lost_by (ds : list deed) (h : host) (lost : list nat) : list nat :=
  match ds with
  | [] => lost
  | d :: ds => lost_by ds (do_deed d h).2 (lost_after d h lost)
  end.

(** What the language, wren.h and the comment before [Method] ask for: a new
    object has an address of its own, a new machine and new handles are none that
    are there, and a [VM] is not moved and does not end while a [Method] stores
    its address. *)
Definition unused (a : nat) (h : host) : Prop := map_Forall (fun _ m => vm_ m <> Some a) (methods_ h).
Definition fair (d : deed) (h : host) : Prop :=
  match d with
  | VM_new a w => vms h !! a = None /\ w ∉ machines h
  | VM_move a b => vms h !! a = None /\ is_Some (vms h !! b) /\ unused b h
  | VM_assign a b => is_Some (vms h !! a) /\ is_Some (vms h !! b) /\ unused a h /\ unused b h
  | VM_delete a => is_Some (vms h !! a) /\ unused a h
  | VM_method x a variable method =>
      methods_ h !! x = None /\ is_Some (default None (vms h !! a)) /\
      handles h !! variable = None /\ handles h !! method = None /\ variable <> method
  | Method_new x => methods_ h !! x = None
  | Method_move x y => methods_ h !! x = None /\ is_Some (methods_ h !! y)
  | Method_assign x y => is_Some (methods_ h !! x) /\ is_Some (methods_ h !! y)
  | Method_delete x => is_Some (methods_ h !! x)
  end.
#[export] Instance fair_dec d h : Decision (fair d h).
Proof. destruct d; cbn; unfold unused; apply _. Defined.
Fixpoint fair_all (ds : list deed) (h : host) : Prop :=
  match ds with [] => True | d :: ds => fair d h /\ fair_all ds (do_deed d h).2 end.
#[export] Instance fair_all_dec ds h : Decision (fair_all ds h).
Proof. revert h. induction ds; intros h; cbn; apply _. Defined.

(** *** The invariant *)

Definition sound (h : host) (m : MethodObj) : Prop :=
  m = no_method \/
  exists a w k v, m = {| vm_ := Some a; method_ := Some k; variable_ := Some v |} /\
    vms h !! a = Some (Some w) /\ handles h !! k = Some w /\ handles h !! v = Some w.

Record owned (h : host) (lost : list nat) : Prop := {
  own_once : NoDup (held (methods_ h) ++ lost);
  own_live k : k ∈ held (methods_ h) ++ lost <-> is_Some (handles h !! k);
  own_sound : map_Forall (fun _ m => sound h m) (methods_ h);
  own_runs a w : vms h !! a = Some (Some w) -> w ∈ machines h;
  own_apart a b w : vms h !! a = Some (Some w) -> vms h !! b = Some (Some w) -> a = b
}.

Lemma held_take ms x m : ms !! x = Some m -> held ms ≡ₚ handles_of m ++ held (delete x ms).
Proof. intros Hx. unfold held. by rewrite <- (map_to_list_delete ms x m Hx). Qed.

Lemma held_put ms x m : held (<[x := m]> ms) ≡ₚ handles_of m ++ held (delete x ms).
Proof. rewrite (held_take _ x m) by apply lookup_insert_eq. by rewrite delete_insert_eq. Qed.

Lemma held_new ms x m : ms !! x = None -> held (<[x := m]> ms) ≡ₚ handles_of m ++ held ms.
Proof. intros Hx. by rewrite held_put, delete_id. Qed.

(** Taking over from [y]: what [x] had is no longer held. *)
Lemma held_given ms x y m : x <> y -> ms !! y = Some m ->
  from_option handles_of [] (ms !! x) ++ held (<[y := no_method]> (<[x := m]> ms)) ≡ₚ held ms.
Proof.
  intros Hxy Hy. rewrite held_put, delete_insert_ne, held_put by done. cbn [handles_of no_method app].
  destruct (ms !! x) as [m'|] eqn:Hx; cbn.
  - rewrite (held_take ms x m' Hx), (held_take (delete x ms) y m) by by rewrite lookup_delete_ne.
    by rewrite delete_delete.
  - rewrite (held_take ms y m Hy). by rewrite (delete_id (delete y ms)) by by rewrite lookup_delete_ne.
Qed.

Lemma held_elem ms x m k : ms !! x = Some m -> k ∈ handles_of m -> k ∈ held ms.
Proof. intros Hx Hk. rewrite (held_take ms x m Hx). apply elem_of_app. by left. Qed.

Lemma sound_same h h' m : sound h m ->
  (forall a, vm_ m = Some a -> vms h' !! a = vms h !! a) ->
  (forall k, k ∈ handles_of m -> handles h' !! k = handles h !! k) -> sound h' m.
Proof.
  intros [->|(a & w & k & v & -> & Ha & Hk & Hv)] Hvm Hh; [by left|]. right. exists a, w, k, v.
  split; [done|]. by rewrite Hvm, !Hh by (done || cbn; set_solver).
Qed.

(** Only the objects change hands. *)
Lemma owned_methods f h lost lost' : owned h lost ->
  held (f (methods_ h)) ++ lost' ≡ₚ held (methods_ h) ++ lost ->
  map_Forall (fun _ m => sound h m) (f (methods_ h)) -> owned (with_methods f h) lost'.
Proof.
  intros [Ho Hl _ Hr Ha] Hp Hs. split; cbn; [by rewrite Hp| |exact Hs|done..].
  intros k. by rewrite Hp.
Qed.

(** A [VM] gives its machine to another one that no [Method] stores. *)
Lemma owned_vm_moved a b p h lost : owned h lost -> vms h !! b = Some p -> a <> b ->
  unused a h -> unused b h -> owned (with_vms (fun v => <[b := None]> (<[a := p]> v)) h) lost.
Proof.
  intros [Ho Hl Hs Hr Ha] Hb Hab Hua Hub.
  assert (Hv : forall c w, <[b := None]> (<[a := p]> (vms h)) !! c = Some (Some w) ->
    (c = a /\ p = Some w) \/ (c <> a /\ c <> b /\ vms h !! c = Some (Some w))).
  { intros c w Hc. apply lookup_insert_Some in Hc as [[_ Hc]|[Hcb Hc]]; [done|].
    apply lookup_insert_Some in Hc as [[<- Hc]|[Hca Hc]]; [by left|by right]. }
  split; cbn; [done|done| | |].
  - intros x m Hx. eapply sound_same; [by eapply Hs| |done]. intros c Hc.
    cbn. rewrite !lookup_insert_ne; [done| |]; intros ->.
    + by eapply Hua.
    + by eapply Hub.
  - intros c w Hc. apply Hv in Hc as [[-> ->]|(_ & _ & Hc)]; eauto.
  - intros c c' w Hc Hc'. apply Hv in Hc as [[-> ->]|(? & ? & Hc)]; apply Hv in Hc' as [[-> Hp]|(? & ? & Hc')];
      try done; simplify_eq.
    + by pose proof (Ha _ _ _ Hb Hc').
    + by pose proof (Ha _ _ _ Hb Hc).
    + eauto.
Qed.

Lemma unused_new a h lost : owned h lost -> vms h !! a = None -> unused a h.
Proof.
  intros Ho Ha x m Hx. destruct (own_sound _ _ Ho x m Hx) as [->|(b & w & k & v & -> & Hb & _)]; [done|].
  cbn. intros [= ->]. congruence.
Qed.

Lemma owned_vm_new a w h lost : owned h lost -> fair (VM_new a w) h ->
  owned (do_deed (VM_new a w) h).2 lost.
Proof.
  intros Hh [Ha Hw]. pose proof (unused_new _ _ _ Hh Ha) as Hu. destruct Hh as [Ho Hl Hs Hr Hd].
  assert (Hv : forall c u, <[a := Some w]> (vms h) !! c = Some (Some u) ->
    (c = a /\ u = w) \/ (u <> w /\ vms h !! c = Some (Some u))).
  { intros c u Hc. apply lookup_insert_Some in Hc as [[<- [= ->]]|[_ Hc]]; [by left|right].
    split; [|done]. intros ->. by apply Hw, (Hr c). }
  split; cbn; [done|done| | |].
  - intros x m Hx. eapply sound_same; [by eapply Hs| |done]. intros c Hc. cbn.
    rewrite lookup_insert_ne; [done|]. intros ->. by eapply Hu.
  - intros c u [[-> ->]|[_ Hc]]%Hv; [set_solver|]. apply elem_of_union_l. eauto.
  - intros c c' u [[-> ->]|[? Hc]]%Hv [[-> Hu']|[? Hc']]%Hv; [done..|eauto].
Qed.

Lemma elem_held ms k : k ∈ held ms -> exists x m, ms !! x = Some m /\ k ∈ handles_of m.
Proof.
  unfold held. rewrite list_elem_of_bind. intros ([x m] & Hk & Hx). exists x, m.
  by rewrite elem_of_map_to_list in Hx.
Qed.

(** The end of a [VM] frees what its machine lost. *)
Lemma owned_vm_delete a w h lost : owned h lost -> vms h !! a = Some (Some w) -> unused a h ->
  owned (do_deed (VM_delete a) h).2 (lost_after (VM_delete a) h lost).
Proof.
  intros [Ho Hl Hs Hr Hd] Ha Hu. open_deed. cbn. rewrite Ha. rewrite decide_True by eauto. cbn.
  assert (Hheld : forall x m k, methods_ h !! x = Some m -> k ∈ handles_of m ->
    exists w', handles h !! k = Some w' /\ w' <> w).
  { intros x m k Hx Hk. destruct (Hs x m Hx) as [->|(b & w' & k1 & k2 & -> & Hb & H1 & H2)]; [by apply elem_of_nil in Hk|].
    exists w'. split; [cbn in Hk; set_solver|]. intros ->. eapply Hu; [exact Hx|]. cbn. f_equal. eauto. }
  split; cbn.
  - eapply sublist_NoDup; [exact Ho|]. apply sublist_app; [done|]. apply sublist_filter.
  - intros k. rewrite elem_of_app, list_elem_of_filter. split.
    + intros [Hk|[Hw Hk]].
      * destruct (elem_held _ _ Hk) as (x & m & Hx & Hk'). destruct (Hheld x m k Hx Hk') as (w' & Hw' & Hne).
        exists w'. by apply map_lookup_filter_Some.
      * destruct (proj1 (Hl k)) as [w' Hw']; [apply elem_of_app; by right|]. exists w'.
        apply map_lookup_filter_Some. split; [done|]. cbn. congruence.
    + intros [w' Hf]. apply map_lookup_filter_Some in Hf as [Hk Hw]. cbn in Hw.
      assert (Hin : k ∈ held (methods_ h) ++ lost) by (apply Hl; eauto).
      apply elem_of_app in Hin as [?|?]; [by left|right].
      split; [congruence|done].
  - intros x m Hx. eapply sound_same; [by eapply Hs| |].
    + intros c Hc. cbn. rewrite lookup_delete_ne; [done|]. intros ->. by eapply Hu.
    + intros k Hk. destruct (Hheld x m k Hx Hk) as (w' & Hw' & Hne). cbn. rewrite Hw'.
      by apply map_lookup_filter_Some.
  - intros c u [Hca Hc]%lookup_delete_Some. apply elem_of_difference. split; [eauto|].
    intros ->%elem_of_singleton. eauto.
  - intros c c' u [_ Hc]%lookup_delete_Some [_ Hc']%lookup_delete_Some. eauto.
Qed.

Lemma owned_vm_method x a variable method h lost : owned h lost -> fair (VM_method x a variable method) h ->
  exists h', do_deed (VM_method x a variable method) h = (Ok tt, h') /\ owned h' lost.
Proof.
  intros Hh (Hx & [w Ha] & Hv & Hk & Hvk). open_deed.
  destruct (vms h !! a) as [p|] eqn:Hp; [|done]. cbn in Ha. subst p.
  unfold bind, get_st, lift, ptr, put_method, modify. rewrite Hp. cbn. eexists. split; [done|].
  destruct Hh as [Ho Hl Hs Hr Hd].
  assert (Hfresh : forall k, handles h !! k = None -> k ∉ held (methods_ h) ++ lost).
  { intros k Hn Hin. apply Hl in Hin as [? ?]. congruence. }
  split; cbn.
  - rewrite held_new by done. cbn. apply NoDup_cons. rewrite NoDup_cons.
    pose proof (Hfresh _ Hv). pose proof (Hfresh _ Hk). split_and!; [set_solver|done|done].
  - intros k. rewrite held_new by done. cbn. rewrite !elem_of_cons, Hl.
    destruct (decide (k = method)) as [->|Hkm]; [rewrite lookup_insert_eq; clear; naive_solver|].
    rewrite lookup_insert_ne by done.
    destruct (decide (k = variable)) as [->|Hkv]; [rewrite lookup_insert_eq; clear; naive_solver|].
    rewrite lookup_insert_ne by done. clear -Hkm Hkv. naive_solver.
  - intros y m Hy. apply lookup_insert_Some in Hy as [[<- <-]|[Hxy Hy]].
    + right. exists a, w, method, variable. cbn. rewrite lookup_insert_eq, lookup_insert_ne, lookup_insert_eq by done. done.
    + eapply sound_same; [by eapply Hs|done|]. intros k Hkin. cbn.
      assert (k ∈ held (methods_ h) ++ lost) as Hin by (apply elem_of_app; left; exact (held_elem _ _ _ _ Hy Hkin)).
      rewrite !lookup_insert_ne; [done|intros <-; by apply (Hfresh variable)|intros <-; by apply (Hfresh method)].
  - done.
  - done.
Qed.

Lemma release_ok w k h : handles h !! k = Some w ->
  wrenReleaseHandle w (Some k) h = (Ok tt, with_handles (delete k) h).
Proof. intros Hk. cbn. by rewrite Hk, Nat.eqb_refl. Qed.

Lemma owned_method_delete x h lost : owned h lost -> is_Some (methods_ h !! x) ->
  exists h', do_deed (Method_delete x) h = (Ok tt, h') /\ owned h' lost.
Proof.
  intros Hh [m Hx]. open_deed. unfold bind, the_method, get_st, lift, modify. rewrite Hx.
  pose proof (held_take _ _ _ Hx) as Ht. destruct (own_sound _ _ Hh x m Hx) as [->|(a & w & k & v & -> & Ha & Hk & Hv)].
  - cbn. eexists. split; [done|]. eapply owned_methods; [done|by rewrite Ht|].
    apply map_Forall_delete, (own_sound _ _ Hh).
  - cbn [vm_ method_ variable_]. unfold ptr. rewrite Ha. destruct Hh as [Ho Hl Hs Hr Hd].
    assert (Hn : k ∉ v :: held (delete x (methods_ h)) ++ lost /\ v ∉ held (delete x (methods_ h)) ++ lost /\
      NoDup (held (delete x (methods_ h)) ++ lost)).
    { rewrite Ht in Ho. cbn in Ho. apply NoDup_cons in Ho as [? Ho]. by apply NoDup_cons in Ho. }
    destruct Hn as (Hkn & Hvn & Hnd).
    rewrite release_ok by done. rewrite release_ok by (cbn; rewrite lookup_delete_ne; [done|set_solver]).
    eexists. split; [done|]. split; cbn; [done| | |done|done].
    + intros j. specialize (Hl j). rewrite Ht in Hl. cbn in Hl. rewrite !elem_of_cons in Hl.
      destruct (decide (j = v)) as [->|Hjv].
      { rewrite lookup_delete_eq. split; [done|by intros []]. }
      rewrite lookup_delete_ne by done. destruct (decide (j = k)) as [->|Hjk].
      { rewrite lookup_delete_eq. split; [set_solver|by intros []]. }
      rewrite lookup_delete_ne, <- Hl by done. clear -Hjv Hjk. naive_solver.
    + intros y m' Hy. apply (sound_same h); [|done|].
      { apply lookup_delete_Some in Hy as [_ Hy]. by eapply Hs. }
      intros j Hj. assert (j ∈ held (delete x (methods_ h)) ++ lost) as Hin.
      { apply elem_of_app. left. exact (held_elem _ _ _ _ Hy Hj). }
      cbn. rewrite !lookup_delete_ne; [done| |]; intros <-; set_solver.
Qed.

(** Moving from [y] to [x] hands the handles over and loses those of [x]. *)
Lemma owned_given x y m h lost : owned h lost -> methods_ h !! y = Some m -> x <> y ->
  owned (with_methods <[y := no_method]> (with_methods <[x := m]> h))
    (from_option handles_of [] (methods_ h !! x) ++ lost).
Proof.
  intros Hh Hy Hxy.
  apply (owned_methods (fun ms => <[y := no_method]> (<[x := m]> ms)) h lost); [done| |].
  - rewrite <- (held_given _ _ _ _ Hxy Hy), !app_assoc. by rewrite (Permutation_app_comm (held _)).
  - apply map_Forall_insert_2; [by left|]. apply map_Forall_insert_2; [by apply (own_sound _ _ Hh y)|].
    apply (own_sound _ _ Hh).
Qed.

Lemma deed_owned d h lost : owned h lost -> fair d h ->
  exists h', do_deed d h = (Ok tt, h') /\ owned h' (lost_after d h lost).
Proof.
  intros Hh Hf. destruct d as [a w|a b|a b|a|x a v k|x|x y|x y|x].
  - eexists. split; [done|]. by apply (owned_vm_new a w).
  - destruct Hf as (Ha & [p Hb] & Hu). open_deed. rewrite Hb. eexists. split; [done|].
    apply (owned_vm_moved a b p); [done..|congruence|by eapply unused_new|done].
  - destruct Hf as (_ & [p Hb] & Hua & Hub). cbn. open_deed. rewrite Hb. destruct (Nat.eqb_spec a b); eexists; (split; [done|]).
    + done.
    + by apply (owned_vm_moved a b p).
  - destruct Hf as ([[w|] Ha] & Hu).
    + pose proof (owned_vm_delete a w h lost Hh Ha Hu) as Hd. revert Hd. open_deed. cbn. rewrite Ha.
      rewrite decide_True by by eapply own_runs. eauto.
    + open_deed. cbn. rewrite Ha. eexists. split; [done|]. destruct Hh as [Ho Hl Hs Hr Hd]. split; cbn; [done|done| | |].
      * intros x m Hx. eapply sound_same; [by eapply Hs| |done]. intros c Hc. cbn.
        rewrite lookup_delete_ne; [done|]. intros ->. by eapply Hu.
      * intros c u [_ Hc]%lookup_delete_Some. eauto.
      * intros c c' u [_ Hc]%lookup_delete_Some [_ Hc']%lookup_delete_Some. eauto.
  - by apply owned_vm_method.
  - eexists. split; [done|]. apply (owned_methods <[x := no_method]> h lost); [done| |].
    + by rewrite (held_new _ x no_method Hf).
    + apply map_Forall_insert_2; [by left|]. apply (own_sound _ _ Hh).
  - destruct Hf as (Hx & [m Hy]). open_deed. unfold bind, the_method. rewrite Hy. eexists. split; [done|].
    pose proof (owned_given x y m h lost Hh Hy) as Hg. rewrite Hx in Hg. apply Hg. congruence.
  - destruct Hf as (_ & [m Hy]). cbn. open_deed. unfold bind, the_method. rewrite Hy.
    destruct (Nat.eqb_spec x y) as [->|Hxy]; (eexists; split; [done|]); [done|]. by apply owned_given.
  - by apply owned_method_delete.
Qed.

Lemma deeds_owned ds h lost : owned h lost -> fair_all ds h ->
  exists h', do_deeds ds h = (Ok tt, h') /\ owned h' (lost_by ds h lost).
Proof.
  revert h lost. induction ds as [|d ds IH]; intros h lost Hh Hf; cbn in *; [by eauto|].
  destruct Hf as [Hd Hf]. destruct (deed_owned d h lost Hh Hd) as (h' & He & Hh').
  rewrite He in *. unfold bind. rewrite He. by apply IH.
Qed.

Lemma owned_none : owned no_host [].
Proof.
  split; cbn; [by constructor| |by apply map_Forall_empty|done|done].
  intros k. split; [by intros ?%elem_of_nil|by intros []].
Qed.

Lemma lost_nothing ds h :
  (forall x y, Method_assign x y ∈ ds -> x = y) -> lost_by ds h [] = [].
Proof.
  revert h. induction ds as [|d ds IH]; intros h Hn; cbn; [done|].
  assert (lost_after d h [] = []) as ->.
  { destruct d as [| | |a| | | |x y|]; cbn; try done.
    - by destruct (vms h !! a) as [[]|].
    - rewrite (Hn x y), Nat.eqb_refl by by left. done. }
  apply IH. intros x y Hxy. apply Hn. by right.
Qed.

(** As long as the two classes are used as their comments ask for, no handle is
    released twice or after its machine: each deed succeeds, a [Method] that has
    handles has two that live in the machine of its [VM], and the handles not
    released are those of the [Method]s together with those of the [Method]s that
    were assigned to - which nothing releases until the machine is freed.  When no
    [Method] is assigned to there are no others. *)
Theorem handles_owned ds : fair_all ds no_host ->
  exists h, do_deeds ds no_host = (Ok tt, h) /\
    map_Forall (fun _ m => sound h m) (methods_ h) /\
    elements (dom (handles h)) ≡ₚ held (methods_ h) ++ lost_by ds no_host [] /\
    ((forall x y, Method_assign x y ∈ ds -> x = y) -> elements (dom (handles h)) ≡ₚ held (methods_ h)).
Proof.
  intros Hf. destruct (deeds_owned ds no_host [] owned_none Hf) as (h & He & [Ho Hl Hs Hr Hd]).
  assert (Hp : elements (dom (handles h)) ≡ₚ held (methods_ h) ++ lost_by ds no_host []).
  { apply NoDup_Permutation; [apply NoDup_elements|done|]. intros k.
    by rewrite elem_of_elements, elem_of_dom, Hl. }
  exists h. split; [done|]. split; [done|]. split; [done|].
  intros Hn. by rewrite Hp, (lost_nothing _ _ Hn), app_nil_r.
Qed.

(** A machine moved into its place, two methods, one moved twice *)
Definition some_deeds : list deed := [
  VM_new 0 7; VM_move 1 0; VM_delete 0;
  VM_method 10 1 100 101; Method_move 11 10; Method_delete 10;
  Method_new 12; Method_assign 12 11; Method_delete 11;
  VM_method 13 1 102 103; Method_assign 12 13
].

Lemma handles_owned_witness : exists h, do_deeds some_deeds no_host = (Ok tt, h) /\
  map_Forall (fun _ m => sound h m) (methods_ h) /\
  elements (dom (handles h)) ≡ₚ held (methods_ h) ++ [101; 100] /\
  held (methods_ h) = [103; 102].
Proof.
  destruct (handles_owned some_deeds) as (h & He & Hs & Hp & _).
  { apply (bool_decide_unpack _). vm_compute. exact I. }
  exists h. split; [exact He|]. split; [exact Hs|]. split; [exact Hp|].
  vm_compute in He. injection He as <-. vm_compute. reflexivity.
Defined.

(** A [VM] that is moved while a [Method] stores its address *)
Lemma moved_away : (do_deeds [VM_new 0 7; VM_method 10 0 100 101; VM_move 1 0; Method_delete 10] no_host).1 = Undef.
Proof. vm_compute. reflexivity. Qed.

(** ** Modules *)

(** [fileToString]: a zero is printed behind the contents, except that printing
    an empty file makes the stream refuse the zero. *)
Definition fileToString (file : option string) : outcome string :=
  match file with
  | None => Throw (RuntimeError "file not found!")
  | Some EmptyString => Ok EmptyString
  | Some contents => Ok (contents +:+ String NUL EmptyString)
  end.

(** [VM::loadModuleFn]: a block of the size of the text, which is the text as a
    [char*]; a file that cannot be read gives the empty text. *)
Definition loadModuleFn (files : string -> option string) (mod_ : string) : string :=
  match fileToString (files (c_str mod_ +:+ ".wren")) with
  | Ok source => source
  | _ => String NUL EmptyString
  end.

(** A [std::string] made from a block: the zero must be in it. *)
Definition from_block (block : string) : outcome string :=
  if no_nul block then Undef else Ok (c_str block).

Inductive Result := Success | CompileError | RuntimeError_.

(** [VM::executeModule], given what the interpreter makes of a text *)
Definition executeModule {V : Type} (files : string -> option string)
    (wrenInterpret : string -> string -> V -> Result * V) (mod_ : string) (m : V) : outcome (Result * V) :=
  let? source := from_block (loadModuleFn files mod_) in
  Ok (wrenInterpret (c_str mod_) source m).

Lemma module_executed {V} files (interpret : string -> string -> V -> Result * V) mod_ m :
  executeModule files interpret mod_ m =
  match files (c_str mod_ +:+ ".wren") with
  | None => Ok (interpret (c_str mod_) EmptyString m)
  | Some EmptyString => Undef
  | Some contents => Ok (interpret (c_str mod_) (c_str contents) m)
  end.
Proof.
  unfold executeModule, loadModuleFn, fileToString, from_block.
  destruct (files _) as [[|c s]|]; [done| |done].
  assert (Hn : no_nul (String c s +:+ String NUL EmptyString) = false).
  { rewrite no_nul_app. by rewrite andb_false_r. }
  rewrite Hn. cbn [obind]. f_equal. f_equal. clear Hn. generalize (String c s). clear.
  induction s as [|c s IH]; [done|]. cbn. by destruct (Ascii.eqb c NUL); [|rewrite IH].
Qed.
