(* ===== verification/ScriptEngine.v ===== *)
(** * The script engine

    src/include/wrenengine.hpp, src/include/plugins.hpp and the part of
    src/src/Wren++.cpp that registers and finds the functions scripts may call:
    the machines and the threads that use them, the routes scripts add, the
    plugins they load, the functions of the core they see, and the handler that
    runs before the routes of crow.

    The interpreter and the dynamic loader are parameters.  The program is built
    in release mode, so that its assertions are not checked. *)

From stdpp Require Import gmap strings list.
From S2P Require Import Prelude Json Store World Scan CoreRead CoreWrite Http Tcp.
Local Open Scope quarks_scope.

(** ** Functions for scripts (Wren++.cpp) *)

Section bindings.
(** [std::hash<std::string>], and the addresses of functions *)
Context (hash : string -> Z) {F : Type}.

Definition hashMethodSignature (module className : string) (isStatic : bool) (signature : string) : Z :=
  hash (module +:+ className +:+ signature +:+ if isStatic then "s" else EmptyString).

(** [BoundState::methods]; [insert] keeps an entry that is there. *)
Definition methods : Type := list (Z * F).
Definition lookup_hash (k : Z) (ms : methods) : option F :=
  snd <$> List.find (fun kv => (kv.1 =? k)%Z) ms.

Definition registerFunction (module className : string) (isStatic : bool) (sig : string) (f : F)
    (ms : methods) : methods :=
  let k := hashMethodSignature module className isStatic sig in
  match lookup_hash k ms with Some _ => ms | None => ms ++ [(k, f)] end.

Definition foreignMethodProvider (ms : methods) (module className : string) (isStatic : bool)
    (signature : string) : option F :=
  lookup_hash (hashMethodSignature module className isStatic signature) ms.

(** [bindFunction] for a list of classes of one module, all of them static *)
Definition bind_class (module : string) (ms : methods) (c : string * list (string * F)) : methods :=
  foldl (fun ms b => registerFunction module c.1 true b.1 b.2 ms) ms c.2.
Definition bind_module (module : string) (cs : list (string * list (string * F))) : methods :=
  foldl (bind_class module) [] cs.
End bindings.

(** The functions [wrenEngineInitialize] binds *)
Inductive native :=
  | Vm_dispatch | Vm_get | Vm_getkeys | Vm_getkeys_r | Vm_put | Vm_incrval
  | Vm_envget | LoadPlugin | UnloadPlugin | ExecutePluginFn
  | Vm_setroute | Vm_getheader | Vm_getparam.

Definition engine_module : string := "wren/scripts/modules/quarks".
Definition engine_classes : list (string * list (string * native)) := [
  ("QuarksAPI", [("dispatch(_)", Vm_dispatch); ("get(_)", Vm_get); ("getkeys(_,_,_)", Vm_getkeys);
                 ("getkeysr(_,_,_)", Vm_getkeys_r); ("put(_)", Vm_put); ("incrval(_)", Vm_incrval)]);
  ("QuarksEnv", [("get(_)", Vm_envget); ("loadplugin(_)", LoadPlugin);
                 ("unloadplugin(_)", UnloadPlugin); ("callplugin(_,_,_)", ExecutePluginFn)]);
  ("Request", [("on(_,_)", Vm_setroute); ("getheader(_)", Vm_getheader); ("getparam(_)", Vm_getparam)])
].

(** ** Plugins (plugins.hpp) *)

Section plugins.
(** Which paths can be opened as libraries, and what the function execute of a
    library does, when it has one *)
Context (is_library : string -> bool)
  (execute : string -> option (string -> string -> outcome string)).












End plugins.

(** ** Machines and threads *)

Section machines.
Context {request : Type}.

(** [VMs] with the [context] of each, and the statics of [getCurrentVM]; a null
    context is [None]. *)
Record pool := {
  VMs : list (option request);
  assignedIndex : nat;
  vmIndex : gmap nat nat
}.

Definition new_pool (concurrency : nat) : pool := {|
  VMs := replicate (Nat.max 1 concurrency) None; assignedIndex := 0; vmIndex := ∅ |}.

(** The machine of the thread [this_id]; the whole function holds [vmMutex]. *)
Definition getCurrentVM (this_id : nat) : SM pool nat := fun p =>
  let vmSize := length (VMs p) in
  match vmIndex p !! this_id with
  | Some i => (if (i <? vmSize)%nat then Ok i else Undef, p)
  | None =>
      let a := if (vmSize <=? assignedIndex p)%nat then 0 else assignedIndex p in
      (if (a <? vmSize)%nat then Ok a else Undef,
       {| VMs := VMs p; assignedIndex := S a; vmIndex := <[this_id := a]> (vmIndex p) |})
  end.

Definition vmGetCurrentReqContext (this_id : nat) : SM pool (option request) :=
  let! i := getCurrentVM this_id in
  let! p := get_st in
  ret (default None (VMs p !! i)).

Definition vmSetCurrentReqContext (this_id : nat) (ctx : request) : SM pool nat :=
  let! i := getCurrentVM this_id in
  do! modify (fun p => {| VMs := <[i := Some ctx]> (VMs p); assignedIndex := assignedIndex p;
                          vmIndex := vmIndex p |});
  ret i.

(** What threads do with the pool: a handler begins with a request, or a script
    asks for it *)
Inductive vm_event := Begins (this_id : nat) (ctx : request) | Asks (this_id : nat).
Definition thread_of (e : vm_event) : nat := match e with Begins t _ | Asks t => t end.

(** The answers, in their order *)
Fixpoint vm_answers (es : list vm_event) : SM pool (list (option request)) :=
  match es with
  | [] => ret []
  | Begins t r :: es => do! vmSetCurrentReqContext t r; vm_answers es
  | Asks t :: es =>
      let! r := vmGetCurrentReqContext t in
      let! rs := vm_answers es in
      ret (r :: rs)
  end.

(** Each thread's own last request *)
Fixpoint own_answers (own : gmap nat request) (es : list vm_event) : list (option request) :=
  match es with
  | [] => []
  | Begins t r :: es => own_answers (<[t := r]> own) es
  | Asks t :: es => (own !! t) :: own_answers own es
  end.
End machines.
Arguments pool : clear implicits.
Arguments vm_event : clear implicits.

(** ** What scripts see, and the handler before the routes *)

Section engine.
Context {plat : Platform} {R : RocksDB}.

(** A value of the interpreter: only texts are told apart here *)
Inductive Value := VString (s : string) | VOther.

(** [code.as<const char *>()] into a [std::string]: without assertions a value
    that is no text gives the null pointer. *)
Definition as_text (v : Value) : outcome string :=
  match v with
  | VString s => Ok (c_str s)
  | VOther => Throw (LogicError "basic_string: construction from null is not valid")
  end.

(** The request a handler gets *)
Record script_request := {
  base : Http.request;
  headers : list (string * string);
  params_text : string   (* what [<<] prints of [url_params] *)
}.

Record engine := {
  process : world;
  vm_routes : gmap string string;
  machines : pool script_request
}.

Definition on_process {A} (m : SM world A) : SM engine A := fun e =>
  let '(o, w) := m (process e) in
  (o, {| process := w; vm_routes := vm_routes e; machines := machines e |}).
Definition on_machines {A} (m : SM (pool script_request) A) : SM engine A := fun e =>
  let '(o, p) := m (machines e) in
  (o, {| process := process e; vm_routes := vm_routes e; machines := p |}).

Definition vm_setroute (url handler : string) : SM engine string :=
  do! modify (fun e => {| process := process e; vm_routes := <[url := handler]> (vm_routes e);
                          machines := machines e |});
  ret handler.
Definition vm_findroute (url : string) (e : engine) : option string := vm_routes e !! url.

(** [req->get_header_value(key)] is empty for a header that is absent. *)
Definition vm_getheader (this_id : nat) (key : string) : SM engine string :=
  let! req := on_machines (vmGetCurrentReqContext this_id) in
  ret (match req with
       | Some r => default EmptyString (assoc key (headers r))
       | None => "not found"
       end).

(** [req->url_params.get(key)] is null for a parameter that is absent, and a
    string is assigned from it. *)
Definition vm_getparam (this_id : nat) (key : string) : SM engine string :=
  let! req := on_machines (vmGetCurrentReqContext this_id) in
  match req with
  | Some r => match url_param (base r) key with Some v => ret v | None => undef end
  | None => ret "not found"
  end.

Definition vm_get (key : string) : SM engine string :=
  match key with
  | EmptyString => ret (q "{`error`: `parameter 'key' missing`}")
  | _ => on_process (let! r := CoreWrite.get key EmptyString in ret r.2)
  end.

(** [std::string out; op(out); return out;] *)
Definition vm_text (op : SM (string * world) bool) : SM engine string :=
  on_process (returning EmptyString (do! op; ret tt)).
Definition vm_put (body : string) : SM engine string := vm_text (put body).
Definition vm_incrval (body : string) : SM engine string := vm_text (incrementValue body).

(** The turns of the loops over the store *)
Context (fuel : nat).
Definition vm_getkeys (wild : string) (skip limit : Z) : SM engine string :=
  vm_text (reads (fun w => getKeys_out fuel w wild skip limit)).
Definition vm_getkeys_r (wild : string) (skip limit : Z) : SM engine string :=
  vm_text (reads (fun w => getKeysReversed_out fuel w wild skip limit)).

(** The dispatcher of Tcp.v, with its parameters *)
Context (DispatchRequest : string -> SM world string).
Definition vm_dispatch (body : string) : SM engine string := on_process (DispatchRequest (c_str body)).
Definition vm_envget (_ : string) : SM engine string := ret "Quarks ENV Request Not Implemented Yet!".

(** What the interpreter makes of a method of the class App with texts for
    arguments, on a machine *)
Context (call : nat -> string -> list string -> SM engine Value).

Record script_response := { res_body : string; res_code : Z; completed : bool }.
Definition set_body (s : string) (r : script_response) : script_response :=
  {| res_body := s; res_code := res_code r; completed := completed r |}.
Definition set_code (c : Z) (r : script_response) : script_response :=
  {| res_body := res_body r; res_code := c; completed := completed r |}.
Definition end_response (r : script_response) : script_response :=
  {| res_body := res_body r; res_code := res_code r; completed := true |}.

Definition on_response (f : script_response -> script_response) : SM (script_response * engine) unit :=
  fun '(r, e) => (Ok tt, (f r, e)).

(** The answer of a script: the members result and code of its text *)
Definition take_result (result : string) : SM (script_response * engine) unit :=
  let jsonResult := load result in
  let! s := lift (r_at_s jsonResult "result") in
  do! on_response (set_body s);
  let! d := lift (let? c := r_at jsonResult "code" in r_d c) in
  do! on_response (set_code (int_of_double d));
  on_response end_response.

(** [catch(std::exception&)] *)
Definition caught {S} (m : SM S unit) : SM S unit := fun s =>
  match m s with
  | (Throw _, s) => (Ok tt, s)
  | other => other
  end.

Definition before_handler (this_id : nat) (req : script_request) : SM (script_response * engine) unit :=
  let! vm := outer (on_machines (vmSetCurrentReqContext this_id req)) in
  do! caught
    (let! code := outer (call vm "handleRequest(_,_,_)"
                           (c_str <$> [url (base req); params_text req; req_body (base req)])) in
     let! result := lift (as_text code) in
     match result with EmptyString => ret tt | _ => take_result result end);
  let! handler := outer (fun e => (Ok (vm_findroute (url (base req)) e), e)) in
  match handler with
  | None => ret tt
  | Some handler =>
      let! code := outer (call vm (c_str handler) (c_str <$> [params_text req; req_body (base req)])) in
      let! handlerResult := lift (as_text code) in
      take_result handlerResult
  end.
End engine.

(** ** Every thread has a machine, and up to as many threads as machines their own *)

Section isolation.
Context {request : Type} (n : nat).

Definition with_room (p : pool request) : Prop :=
  forall t i, vmIndex p !! t = Some i -> i < length (VMs p).

(** The machines are found within the vector, whatever the number of threads,
    and a thread keeps its machine. *)
Lemma getCurrentVM_in_range t p : 0 < length (VMs p) -> with_room p ->
  exists i p', getCurrentVM t p = (Ok i, p') /\ i < length (VMs p) /\ VMs p' = VMs p /\ with_room p' /\
    getCurrentVM t p' = (Ok i, p').
Proof.
  intros Hn Hr. unfold getCurrentVM. destruct (vmIndex p !! t) as [i|] eqn:E.
  - pose proof (Hr _ _ E). destruct (Nat.ltb_spec i (length (VMs p))); [|lia].
    exists i, p. split_and!; try done. rewrite E. by destruct (Nat.ltb_spec i (length (VMs p))); [|lia].
  - set (a := if (length (VMs p) <=? assignedIndex p)%nat then 0 else assignedIndex p).
    assert (a < length (VMs p)) as Ha by (unfold a; destruct (Nat.leb_spec (length (VMs p)) (assignedIndex p)); lia).
    destruct (Nat.ltb_spec a (length (VMs p))); [|lia].
    eexists a, _. split; [done|]. split_and!; try done.
    + intros t' i. cbn. destruct (decide (t' = t)) as [->|Hne];
        [rewrite lookup_insert_eq; congruence|rewrite lookup_insert_ne by done; apply Hr].
    + cbn [vmIndex VMs]. rewrite lookup_insert_eq. by destruct (Nat.ltb_spec a (length (VMs p))); [|lia].
Qed.

(** The threads that have a machine, each its own, and what it holds *)
Record separate (p : pool request) (own : gmap nat request) : Prop := {
  sep_size : size (vmIndex p) = assignedIndex p;
  sep_below t i : vmIndex p !! t = Some i -> i < assignedIndex p;
  sep_apart t u i : vmIndex p !! t = Some i -> vmIndex p !! u = Some i -> t = u;
  sep_context t i : vmIndex p !! t = Some i -> VMs p !! i = Some (own !! t);
  sep_free i : assignedIndex p <= i -> i < length (VMs p) -> VMs p !! i = Some None;
  sep_known t : is_Some (own !! t) -> is_Some (vmIndex p !! t);
  sep_room : assignedIndex p <= length (VMs p)
}.

Lemma separate_current p own t : separate p own ->
  size ({[t]} ∪ dom (vmIndex p)) <= length (VMs p) ->
  exists i p', getCurrentVM t p = (Ok i, p') /\ separate p' own /\ VMs p' = VMs p /\
    dom (vmIndex p') = {[t]} ∪ dom (vmIndex p) /\ vmIndex p' !! t = Some i.
Proof.
  intros [Hs Hb Ha Hc Hf Hk Hr] Hl. unfold getCurrentVM. destruct (vmIndex p !! t) as [i|] eqn:E.
  - pose proof (Hb _ _ E). destruct (Nat.ltb_spec i (length (VMs p))); [|lia].
    exists i, p. split_and!; try done. apply elem_of_dom_2 in E. set_solver.
  - apply not_elem_of_dom in E as Hd.
    assert (assignedIndex p < length (VMs p)) as Hlt.
    { rewrite size_union in Hl by set_solver. rewrite size_singleton, size_dom, Hs in Hl. lia. }
    destruct (Nat.leb_spec (length (VMs p)) (assignedIndex p)); [lia|].
    destruct (Nat.ltb_spec (assignedIndex p) (length (VMs p))); [|lia].
    assert (own !! t = None) as Ho.
    { destruct (own !! t) eqn:Eo; [|done].
      assert (is_Some (vmIndex p !! t)) as [? ?]; [apply Hk; by rewrite Eo|congruence]. }
    eexists _, _. split; [done|]. cbn. split_and!; [|done|by rewrite dom_insert_L|by rewrite lookup_insert_eq].
    split; cbn.
    + rewrite map_size_insert_None by done. by rewrite Hs.
    + intros t' i. destruct (decide (t' = t)) as [->|]; [rewrite lookup_insert_eq; intros [= <-]; lia|].
      rewrite lookup_insert_ne by done. intros H'. apply Hb in H'. lia.
    + intros t' u i. destruct (decide (t' = t)) as [->|], (decide (u = t)) as [->|]; try done;
        rewrite ?lookup_insert_eq, ?lookup_insert_ne by done.
      * intros [= <-] H'. apply Hb in H'. lia.
      * intros H' [= <-]. apply Hb in H'. lia.
      * apply Ha.
    + intros t' i. destruct (decide (t' = t)) as [->|]; [rewrite lookup_insert_eq; intros [= <-]|];
        [rewrite Ho; by apply Hf|]. rewrite lookup_insert_ne by done. apply Hc.
    + intros i H1 H2. apply Hf; lia.
    + intros t' Ht. destruct (decide (t' = t)) as [->|]; [by rewrite lookup_insert_eq|].
      rewrite lookup_insert_ne by done. by apply Hk.
    + lia.
Qed.

Lemma answers_own es p own (ts : gset nat) : separate p own -> dom (vmIndex p) ⊆ ts ->
  (forall e, e ∈ es -> thread_of e ∈ ts) -> size ts <= length (VMs p) ->
  (vm_answers es p).1 = Ok (own_answers own es).
Proof.
  intros Hp Hd He Hs. revert p own Hp Hd Hs. induction es as [|e es IH]; intros p own Hp Hd Hs; [done|].
  assert (thread_of e ∈ ts) as Ht by (apply He; by left).
  specialize (IH ltac:(intros e' H'; apply He; by right)).
  destruct (separate_current p own (thread_of e) Hp) as (i & p' & Hg & Hp' & Hv & Hd' & Hi).
  { etrans; [|exact Hs]. apply subseteq_size. set_solver. }
  destruct e as [t r|t]; cbn [vm_answers own_answers thread_of] in *.
  - unfold vmSetCurrentReqContext, bind at 1 2. rewrite Hg. unfold bind, modify, ret.
    apply IH; cbn; [|by rewrite Hd'; set_solver|by rewrite length_insert, Hv].
    destruct Hp' as [H1 H2 H3 H4 H5 H6 H7]. split; cbn; try done.
    + intros u j Hu. destruct (decide (u = t)) as [->|Hne].
      * rewrite lookup_insert_eq. assert (i = j) as <- by congruence. apply list_lookup_insert_eq.
        apply H2 in Hi. lia.
      * rewrite lookup_insert_ne by done. rewrite list_lookup_insert_ne; [by apply H4|].
        intros ->. apply Hne. by eapply H3.
    + intros j Hj Hl. rewrite length_insert in Hl. apply H2 in Hi.
      rewrite list_lookup_insert_ne by lia. by apply H5.
    + intros u Hu. destruct (decide (u = t)) as [->|]; [by rewrite Hi|].
      rewrite lookup_insert_ne in Hu by done. by apply H6.
    + by rewrite length_insert.
  - unfold vmGetCurrentReqContext, bind at 1 2. rewrite Hg. unfold bind, get_st, ret.
    specialize (IH p' own Hp' ltac:(rewrite Hd'; set_solver) ltac:(by rewrite Hv)).
    destruct Hp' as [_ _ _ H4 _ _ _]. rewrite (H4 _ _ Hi). cbn [default].
    destruct (vm_answers es p') as [o p'']. cbn [fst] in IH. by rewrite IH.
Qed.

Lemma separate_start : separate (new_pool n) ∅.
Proof.
  assert (forall t i, (∅ : gmap nat nat) !! t = Some i -> False) as He by (intros t i; by rewrite lookup_empty).
  split; cbn [new_pool vmIndex VMs assignedIndex].
  - apply map_size_empty.
  - by intros t i ?%He.
  - by intros t u i ?%He.
  - by intros t i ?%He.
  - intros i _ Hi. rewrite length_replicate in Hi. by rewrite lookup_replicate_2.
  - intros t [? Ht]. by rewrite lookup_empty in Ht.
  - lia.
Qed.
End isolation.

(** ** Plugins that are still open *)

Section plugin_facts.
Context (is_library : string -> bool) (execute : string -> option (string -> string -> outcome string)).










End plugin_facts.

(** ** Functions are found *)

Section binding_facts.
Context (hash : string -> Z) {F : Type}.

Lemma lookup_hash_none k (ms : methods) : (forall kv, kv ∈ ms -> kv.1 <> k) -> lookup_hash (F := F) k ms = None.
Proof.
  intros H. unfold lookup_hash. destruct (List.find _ ms) as [kv|] eqn:E; [|done].
  apply List.find_some in E as [Hi E%Z.eqb_eq]. apply list_elem_of_In in Hi. by destruct (H _ Hi).
Qed.

Lemma lookup_hash_app k (a b : methods) : lookup_hash (F := F) k (a ++ b) =
  match lookup_hash k a with Some f => Some f | None => lookup_hash k b end.
Proof.
  unfold lookup_hash. induction a as [|kv a IH]; cbn; [done|]. by destruct (kv.1 =? k)%Z.
Qed.

(** The texts under which the static functions of a module are registered *)
Definition qualified (module : string) (cs : list (string * list (string * F))) : list (string * F) :=
  cs ≫= (fun c => (fun b => (module +:+ c.1 +:+ b.1 +:+ "s", b.2)) <$> c.2).

Definition register_text (ms : methods) (b : string * F) : methods :=
  match lookup_hash (hash b.1) ms with Some _ => ms | None => ms ++ [(hash b.1, b.2)] end.

Lemma bind_module_texts module cs : bind_module hash module cs = foldl register_text [] (qualified module cs).
Proof.
  unfold bind_module, qualified. generalize (@nil (Z * F)). induction cs as [|c cs IH]; intros ms; [done|].
  cbn [foldl mbind list_bind]. rewrite foldl_app, IH. f_equal. unfold bind_class. generalize ms. clear.
  induction c.2 as [|b l IH]; intros ms; [done|]. cbn. by rewrite IH.
Qed.

Lemma register_texts l ms b : NoDup l.*1 ->
  (forall x y, x ∈ l.*1 -> y ∈ l.*1 -> hash x = hash y -> x = y) ->
  (forall x, x ∈ l.*1 -> lookup_hash (hash x) ms = None) -> b ∈ l ->
  lookup_hash (hash b.1) (foldl register_text ms l) = Some b.2.
Proof.
  revert ms. induction l as [|c l IH]; intros ms Hn Hh Hf Hb; [by apply elem_of_nil in Hb|].
  cbn in *. apply NoDup_cons in Hn as [Hc Hn].
  assert (register_text ms c = ms ++ [(hash c.1, c.2)]) as E by (unfold register_text; by rewrite Hf by by left).
  rewrite E. apply elem_of_cons in Hb as [-> | Hb].
  - assert (forall r, lookup_hash (hash c.1) r = Some c.2 -> forall l', lookup_hash (hash c.1) (foldl register_text r l') = Some c.2) as Hkeep.
    { intros r Hr l'. revert r Hr. induction l' as [|x l' IHl]; intros r Hr; [done|]. cbn. apply IHl.
      unfold register_text. destruct (lookup_hash (hash x.1) r); [done|]. by rewrite lookup_hash_app, Hr. }
    apply Hkeep. rewrite lookup_hash_app, Hf by by left. unfold lookup_hash. cbn. by rewrite Z.eqb_refl.
  - apply IH; try done.
    + intros x y Hx Hy. apply Hh; by right.
    + intros x Hx. rewrite lookup_hash_app, Hf by by right. apply lookup_hash_none.
      intros kv ->%list_elem_of_singleton. cbn. intros Eh. apply Hc. rewrite (Hh c.1 x); try done; [by left|by right].
Qed.
End binding_facts.

(** The texts of the thirteen functions have different hashes: then every one of
    them is found under its class and signature. *)
Lemma engine_bindings (hash : string -> Z) :
  (let texts := (qualified engine_module engine_classes).*1 in
   forall x y, x ∈ texts -> y ∈ texts -> hash x = hash y -> x = y) ->
  Forall (fun c => Forall (fun b =>
    foreignMethodProvider hash (bind_module hash engine_module engine_classes) engine_module c.1 true b.1
      = Some b.2) c.2) engine_classes.
Proof.
  intros Hh. apply Forall_forall. intros c Hc. apply Forall_forall. intros b Hb.
  unfold foreignMethodProvider, hashMethodSignature. rewrite bind_module_texts.
  apply (register_texts hash (qualified engine_module engine_classes) [] (engine_module +:+ c.1 +:+ b.1 +:+ "s", b.2)).
  - apply (bool_decide_unpack _). vm_compute. exact I.
  - exact Hh.
  - done.
  - unfold qualified. apply list_elem_of_bind. exists c. split; [|done].
    apply list_elem_of_fmap. by exists b.
Qed.

(** ** The properties *)

(** C34. Requests and scripts: while at most as many threads as there are machines
    handle requests, in any interleaving, a script that asks for the request is
    given the last one that its own thread began. *)
Theorem scripts_isolated {request : Type} (concurrency : nat) (ts : gset nat) (es : list (vm_event request)) :
  (forall e, e ∈ es -> thread_of e ∈ ts) -> size ts <= Nat.max 1 concurrency ->
  (vm_answers es (new_pool concurrency)).1 = Ok (own_answers ∅ es).
Proof.
  intros He Hs. apply (answers_own es _ ∅ ts); [apply separate_start|cbn; rewrite dom_empty_L; set_solver|done|].
  cbn. by rewrite length_replicate.
Qed.


Section handler_facts.
Context {plat : Platform} {R : RocksDB}.

(** The text of a script that answers with a body and a code *)
Definition answers_with (s body : string) (code : Z) : Prop :=
  r_at_s (load s) "result" = Ok body /\
  exists d, (let? c := r_at (load s) "code" in r_d c) = Ok d /\ code = int_of_double d.

Lemma take_result_answer s body code r (e : engine) : answers_with s body code ->
  take_result s (r, e) = (Ok tt, ({| res_body := body; res_code := code; completed := true |}, e)).
Proof.
  intros [Hb (d & Hd & ->)]. unfold take_result, bind, lift, on_response. rewrite Hb. cbn beta iota.
  by rewrite Hd.
Qed.

(** What the script for all requests makes of the response: nothing when it
    fails, gives no text or an empty one; its answer; or as much of an answer as
    was taken before its text was refused *)
Inductive settled (r : script_response) (e : engine) : outcome Value -> script_response -> Prop :=
  | settled_failed x : settled r e (Throw x) r
  | settled_other : settled r e (Ok VOther) r
  | settled_empty s : c_str s = EmptyString -> settled r e (Ok (VString s)) r
  | settled_answer s body code : c_str s <> EmptyString -> answers_with (c_str s) body code ->
      settled r e (Ok (VString s)) {| res_body := body; res_code := code; completed := true |}
  | settled_refused s x r' : c_str s <> EmptyString -> take_result (c_str s) (r, e) = (Throw x, (r', e)) ->
      settled r e (Ok (VString s)) r'.

Lemma script_settled o r r' (e e0 : engine) call : settled r e o r' -> call e0 = (o, e) ->
  caught (let! code := outer call in
          let! result := lift (as_text code) in
          match result with EmptyString => ret tt | _ => take_result result end) (r, e0) = (Ok tt, (r', e)).
Proof.
  intros H Hc. unfold caught, bind, outer, lift. rewrite Hc.
  destruct H as [x| |s Hs|s body code Hn Ha|s x r' Hn Ha]; cbn [as_text]; try done.
  - by rewrite Hs.
  - destruct (c_str s) eqn:E; [done|]. by rewrite (take_result_answer _ body code).
  - destruct (c_str s) eqn:E; [done|]. by rewrite Ha.
Qed.

(** The handler that runs before the routes: a route that a script has set
    for the path decides the answer, whatever the script for all requests did
    and even if it failed; without one that script's answer, its failure or its
    empty text leave the response to be sent or to the routes of crow. *)
Theorem script_answers (call : nat -> string -> list string -> SM engine Value) (this_id i : nat)
    (req : script_request) (m : pool script_request) (e e2 : engine) (o : outcome Value) (r r' : script_response) :
  vmSetCurrentReqContext this_id req (machines e) = (Ok i, m) ->
  call i "handleRequest(_,_,_)" (c_str <$> [url (base req); params_text req; req_body (base req)])
    {| process := process e; vm_routes := vm_routes e; machines := m |} = (o, e2) ->
  settled r e2 o r' ->
  match vm_findroute (url (base req)) e2 with
  | None => before_handler call this_id req (r, e) = (Ok tt, (r', e2))
  | Some handler =>
      forall s e3 body code,
      call i (c_str handler) (c_str <$> [params_text req; req_body (base req)]) e2 = (Ok (VString s), e3) ->
      answers_with (c_str s) body code ->
      before_handler call this_id req (r, e) =
      (Ok tt, ({| res_body := body; res_code := code; completed := true |}, e3))
  end.
Proof.
  intros Hset Hcall Ho. pose proof (script_settled _ _ _ _ _ _ Ho Hcall) as Hs.
  assert (before_handler call this_id req (r, e) =
    match vm_findroute (url (base req)) e2 with
    | None => (Ok tt, (r', e2))
    | Some handler =>
        (let! code := outer (call i (c_str handler) (c_str <$> [params_text req; req_body (base req)])) in
         let! handlerResult := lift (as_text code) in take_result handlerResult) (r', e2)
    end) as ->.
  { unfold before_handler. unfold bind at 1, outer at 1, on_machines at 1. rewrite Hset. cbn beta iota.
    unfold bind at 1. rewrite Hs. cbn beta iota. by destruct (vm_findroute _ e2) eqn:E; unfold bind, outer; rewrite E. }
  destruct (vm_findroute _ e2) as [handler|]; [|done]. intros s e3 body code Hh Ha.
  unfold bind, outer, lift. rewrite Hh. cbn [as_text]. by apply take_result_answer.
Qed.
End handler_facts.

(** ** Concrete scripts *)

Section script_witnesses.
Import Demo.

(** Two threads on two machines, then three threads on two *)
Definition two_threads : list (vm_event string) := [
  Begins 7 "a"; Asks 7; Begins 8 "b"; Asks 7; Asks 8; Begins 7 "c"; Asks 8; Asks 7].
Theorem scripts_isolated_witness :
  (vm_answers two_threads (new_pool 2)).1 = Ok [Some "a"; Some "a"; Some "b"; Some "b"; Some "c"].
Proof.
  rewrite (scripts_isolated 2 {[7; 8]} two_threads); [vm_compute; reflexivity| |vm_compute; lia].
  intros e He. unfold two_threads in He. rewrite !elem_of_cons, elem_of_nil in He.
  destruct He as [-> | [-> | [-> | [-> | [-> | [-> | [-> | [-> | []]]]]]]]]; cbn; set_solver.
Defined.

(** The third thread shares the machine of the first: its request is what the
    script of the first thread sees. *)
Lemma shared_machine :
  (vm_answers [Begins 7 "a"; Begins 8 "b"; Begins 9 "c"; Asks 7] (new_pool 2)).1 = Ok [Some "c"].
Proof. vm_compute. reflexivity. Qed.



(** A script that stores the body of one path, and has set a route for another *)
Definition app (vm : nat) (method : string) (args : list string) : SM engine Value :=
  match args with
  | [url; params; body] =>
      if String.eqb url "/setuserinfo" then
        do! vm_put body; ret (VString (q "{`code`:201,`result`:`stored`}"))
      else ret (VString EmptyString)
  | _ => ret (VString (q "{`code`:200,`result`:`" +:+ method +:+ q "`}"))
  end.

Definition engine_start : engine := {|
  process := w; vm_routes := {["/feed" := "getFeed(_,_)"]}; machines := new_pool 2 |}.
Definition script_post (url body : string) : script_request := {|
  base := {| Http.method := POST; Http.url := url; url_params := []; req_body := body |};
  headers := []; params_text := "[  ]" |}.
Definition no_response : script_response := {| res_body := EmptyString; res_code := 200; completed := false |}.

Theorem script_answers_witness :
  exists e, before_handler app 4 (script_post "/feed" "{}") (no_response, engine_start) =
  (Ok tt, ({| res_body := "getFeed(_,_)"; res_code := 200; completed := true |}, e)).
Proof.
  destruct (vmSetCurrentReqContext 4 (script_post "/feed" "{}") (machines engine_start)) as [o m] eqn:E.
  assert (o = Ok 0) as -> by (apply (f_equal fst) in E; by vm_compute in E).
  set (e := {| process := w; vm_routes := {["/feed" := "getFeed(_,_)"]}; machines := m |}).
  exists e. pose proof (script_answers app 4 0 (script_post "/feed" "{}") m engine_start e (Ok (VString EmptyString))
    no_response no_response E eq_refl ltac:(by constructor)) as H.
  change (vm_findroute (url (base (script_post "/feed" "{}"))) e) with (Some "getFeed(_,_)") in H.
  apply (H (q "{`code`:200,`result`:`getFeed(_,_)`}")); [reflexivity|].
  split; [vm_compute; reflexivity|]. eexists. split; vm_compute; reflexivity.
Defined.

(** The same process stores what a script puts. *)
Lemma script_stores : exists r e, before_handler app 4 (script_post "/setuserinfo" (q "{`key`:`k`,`value`:5}"))
  (no_response, engine_start) = (Ok tt, (r, e)) /\ res_code r = 201%Z /\  (CoreWrite.get "k" EmptyString (process e)).1 = Ok (true, "5").
Proof. eexists _, _. split; [reflexivity|]. split; vm_compute; reflexivity. Qed.

(** A script that asks for a parameter the request does not have *)
Lemma missing_parameter : (vm_getparam 4 "skip"
  (on_machines (vmSetCurrentReqContext 4 (script_post "/feed" "{}")) engine_start).2).1 = Undef.
Proof. reflexivity. Qed.
End script_witnesses.
