(* ===== verification/Cloud.v ===== *)
(** * Replication between nodes

    src/include/quarkscloud.hpp: the frames of the messages, and the broker,
    writer and reader nodes.  The loop of a node is written as the actions it
    takes at its sockets; ZeroMQ (not under src/) is the step relation of a
    line of nodes, each connected to the next: PUSH to PULL and REQ to REP keep
    the messages and their order, PUB to SUB may lose some.  The artificial
    delays, the messages on the console and the addresses of the sockets have
    no part in the steps; a blocking call that a signal interrupts ends the
    node. *)

From stdpp Require Import relations.
From S2P Require Import Prelude SortedMap Wildcmp Json Store World Scan CoreWrite.
Local Open Scope quarks_scope.

(** ** Frames

    [EncodedMsg]: the size of the message in the eight bytes of a [size_t], then
    its bytes; [DecodedMsg]: the message of a frame. *)

(** The bytes of a [size_t], the lowest first *)
Fixpoint size_bytes (n : nat) (s : Z) : string :=
  match n with
  | O => EmptyString
  | S n => String (of_byte s) (size_bytes n (s / 256))
  end.

Fixpoint size_of (n : nat) (m : string) : option (Z * string) :=
  match n, m with
  | O, _ => Some (0%Z, m)
  | S n, EmptyString => None
  | S n, String c m =>
      match size_of n m with
      | Some (s, rest) => Some ((byte c + 256 * s)%Z, rest)
      | None => None
      end
  end.

(** [std::cout << (char* ) data]: the bytes up to a zero; there is none behind
    the block. *)
Definition shown (data : string) : outcome unit := if no_nul data then Undef else Ok tt.

(** [new char\[sz\]] with [sz] wrapped around is too small for the message. *)
Definition encode (msg : string) : outcome string :=
  let s := Z.of_nat (String.length msg) in
  let sz := ((8 + s) mod 2 ^ 64)%Z in
  if (sz <? 8 + s)%Z then Undef
  else let? _ := shown msg in Ok (size_bytes 8 s +:+ msg).

Definition decode (m : string) : outcome string :=
  match size_of 8 m with
  | Some (sz, msg) =>
      if (sz <=? Z.of_nat (String.length msg))%Z then
        let data := str_take (Z.to_nat sz) msg in
        let? _ := shown data in Ok data
      else Undef
  | None => Undef
  end.

(** ** The nodes *)

Inductive ReadType := unknonwn | broker_ | save | publish.

(** The sockets of the three kinds of nodes, by their variables: the broker's
    [socket] (REP), [receiver] (PULL) and [publisher] (PUB), the writer's
    [producer], [chainedWriter], [sender] (PUSH), [consumer] (PULL) and [broker]
    (REQ), the reader's [subscriber] (SUB). *)
Inductive port :=
  | p_socket | p_receiver | p_publisher
  | p_producer | p_consumer | p_chainedWriter | p_sender | p_broker
  | p_subscriber.

(** What a node does until the end of a turn of its loop.  [Exit]: it was
    interrupted and has left the loop. *)
Inductive proc :=
  | Done
  | Exit
  | Crash
  | Recv (p : port) (k : string -> proc)
  | Send (p : port) (m : string) (k : proc)
  | OnRead (t : ReadType) (data : string) (k : proc).

Definition need {T} (o : outcome T) (k : T -> proc) : proc :=
  match o with Ok x => k x | _ => Crash end.

(** [p.recv(&m); DecodedMsg req(m.data());] *)
Definition receive (p : port) (k : string -> proc) : proc := Recv p (fun m => need (decode m) k).

(** [EncodedMsg e(data, size); ... p.send(message);] *)
Definition dispatch (p : port) (data : string) (k : proc) : proc :=
  need (encode data) (fun m => Send p m k).

Definition zero_ended (s : string) : string := s +:+ String NUL EmptyString.
Definition BROKER_OK : string := "brokerok".

(** A node: the actions before its loop and those of one turn *)
Record node := { setup : proc; turn : proc }.

Definition broker_turn (sinkMode : bool) : proc :=
  if sinkMode then receive p_receiver (fun req => dispatch p_publisher req Done)
  else
    receive p_socket (fun req =>
      dispatch p_publisher req (dispatch p_socket (zero_ended BROKER_OK) Done)).

Definition broker_node (sinkUrl : string) : node := {|
  setup := Done;
  turn := broker_turn (negb (String.eqb sinkUrl EmptyString)) |}.

Record links := {
  consumerConnected : bool;
  writerChain : bool;
  firstInChain : bool;
  lastInChain : bool;
  sinkConnected : bool;
  brokerConnected : bool
}.

Definition writer_links (brokerUrl consumerUrl sinkUrl : string) : links :=
  let first := String.eqb brokerUrl "-" in
  let next := String.eqb brokerUrl "+" in
  let last := String.eqb brokerUrl "." in
  let sinkUrl := if first || next then EmptyString else sinkUrl in
  let chain := first || next || last in
  {| consumerConnected := negb (String.eqb consumerUrl "!");
     writerChain := chain; firstInChain := first; lastInChain := last;
     sinkConnected := negb (String.eqb sinkUrl EmptyString);
     brokerConnected := negb chain && negb (String.eqb brokerUrl "!") |}.

(** A request to the broker and what follows its reply *)
Definition ask_broker (data : string) : proc :=
  dispatch p_broker data (receive p_broker (fun rep => OnRead broker_ rep Done)).

Definition writer_turn (l : links) : proc :=
  if consumerConnected l then
    receive p_consumer (fun req =>
      if brokerConnected l then ask_broker req
      else
        let to_sink := if sinkConnected l then dispatch p_sender req Done else Done in
        if writerChain l then
          let onward := if lastInChain l then to_sink
                        else dispatch p_chainedWriter req to_sink in
          if firstInChain l then onward else OnRead save req onward
        else to_sink)
  else Done.

Definition writer_node (brokerUrl consumerUrl sinkUrl : string) : node :=
  let l := writer_links brokerUrl consumerUrl sinkUrl in
  {| setup := if brokerConnected l then ask_broker (zero_ended "reportwriter") else Done;
     turn := writer_turn l |}.

Definition reader_node (subscriberUrl : string) : node := {|
  setup := Done;
  turn := if String.eqb subscriberUrl "!" then Done
          else receive p_subscriber (fun msg => OnRead save msg Done) |}.

(** The node a call of [Core::run] starts *)
Definition node_of (c : node_call) : node :=
  match c with
  | runBroker _ _ sinkUrl => broker_node sinkUrl
  | runWriter brokerUrl _ consumerUrl sinkUrl => writer_node brokerUrl consumerUrl sinkUrl
  | runReader subscriberUrl => reader_node subscriberUrl
  end.

(** [Interface::write]: the frame, when [setProducer] was called *)
Definition write (producer : bool) (data : string) : outcome (option string) :=
  let? e := encode data in Ok (if producer then Some e else None).

(** ** Frames and messages *)

(** A message as the program writes it: bytes with a zero among them, which fit
    in a frame *)
Definition message (msg : string) : Prop :=
  no_nul msg = false /\ (Z.of_nat (String.length msg) < 2 ^ 64 - 8)%Z.
Definition frame (msg : string) : string :=
  size_bytes 8 (Z.of_nat (String.length msg)) +:+ msg.

Lemma size_of_bytes n s rest : (0 <= s < 256 ^ Z.of_nat n)%Z ->
  size_of n (size_bytes n s +:+ rest) = Some (s, rest).
Proof.
  revert s. induction n as [|n IH]; intros s Hs; cbn [size_bytes size_of String.append].
  { assert (s = 0)%Z as -> by lia. done. }
  rewrite Nat2Z.inj_succ, Z.pow_succ_r in Hs by lia.
  rewrite IH by (split; [apply Z.div_pos|apply Z.div_lt_upper_bound]; lia).
  rewrite byte_of_byte. do 2 f_equal. pose proof (Z.div_mod s 256). lia.
Qed.

Lemma size_bytes_length n s : String.length (size_bytes n s) = n.
Proof. revert s. induction n as [|n IH]; intros s; cbn; [done|by rewrite IH]. Qed.

Lemma encode_frame msg : message msg -> encode msg = Ok (frame msg).
Proof.
  intros [Hn Hl]. unfold encode, shown. rewrite Hn, Z.mod_small by lia.
  by rewrite Z.ltb_irrefl.
Qed.

Lemma decode_frame msg : message msg -> decode (frame msg) = Ok msg.
Proof.
  intros [Hn Hl]. unfold decode, frame. rewrite size_of_bytes by lia.
  pose proof (str_take_app msg EmptyString) as Ht. rewrite sapp_nil_r in Ht.
  rewrite Z.leb_refl, Nat2Z.id, Ht. unfold shown. by rewrite Hn.
Qed.

Lemma size_of_short n m : String.length m < n -> size_of n m = None.
Proof.
  revert m. induction n as [|n IH]; intros [|c m]; simpl; intros H; [lia..|done|].
  by rewrite IH by lia.
Qed.


(** a message with a zero among its bytes is what its frame is decoded to;
    for the other messages, and for a frame that is cut anywhere, bytes
    outside of a block are read. *)
Theorem frame_roundtrip (msg : string) :
  (Z.of_nat (String.length msg) < 2 ^ 64 - 8)%Z ->
  if no_nul msg then encode msg = Undef
  else exists f, encode msg = Ok f /\ String.length f = 8 + String.length msg /\
       decode f = Ok msg /\
       forall m t, f = m +:+ t -> t <> EmptyString -> decode m = Undef.
Proof.
  intros Hl. destruct (no_nul msg) eqn:Hn.
  { unfold encode, shown. by rewrite Hn, Z.mod_small, Z.ltb_irrefl by lia. }
  assert (message msg) as Hm by done. exists (frame msg). split; [by apply encode_frame|].
  split; [unfold frame; by rewrite slength_app, size_bytes_length|].
  split; [by apply decode_frame|]. intros m t Hf Ht. unfold decode.
  destruct (decide (String.length m < 8)) as [|H8]; [by rewrite size_of_short|].
  rewrite <- (str_take_drop 8 m) in Hf |- *. unfold frame in Hf. rewrite sapp_assoc in Hf.
  apply sapp_inj_length in Hf as [E1 E2];
    [|rewrite size_bytes_length, str_take_length; lia].
  rewrite <- E1, size_of_bytes, E2, slength_app by lia.
  destruct (Z.leb_spec (Z.of_nat (String.length (str_drop 8 m) + String.length t))
              (Z.of_nat (String.length (str_drop 8 m)))); [|done].
  destruct t; [done|]. simpl in *. lia.
Qed.


Lemma encode_message m f : encode m = Ok f -> message m /\ f = frame m.
Proof.
  unfold encode, shown, message. set (s := Z.of_nat (String.length m)).
  destruct (Z.ltb_spec ((8 + s) mod 2 ^ 64) (8 + s)) as [|H]; [done|].
  destruct (no_nul m) eqn:En; [done|]. intros [= <-]. split; [|done]. split; [done|].
  pose proof (Z.mod_pos_bound (8 + s) (2 ^ 64) ltac:(lia)). lia.
Qed.

(** The message of a frame *)
Lemma frame_drop m : str_drop 8 (frame m) = m.
Proof. unfold frame. rewrite <- (size_bytes_length 8 (Z.of_nat (String.length m))). apply str_drop_app. Qed.

Lemma frame_drops (ms : list string) : str_drop 8 <$> (frame <$> ms) = ms.
Proof. induction ms as [|m ms IH]; [done|]. rewrite !fmap_cons. by rewrite frame_drop, IH. Qed.

(** ** A line of nodes

    Every node is connected to the next one of the line.  A stage is a node at
    a point of its turn, with the frames that wait for it, those of its inputs
    and the replies to its requests; and its past: the frames it took, those it
    passed on, and the messages it handed to [onRead] to be saved. *)

Record stage := {
  call : node_call;
  current : proc;
  inbox : list string;
  replies : list string;
  got : list string;
  sent : list string;
  saved : list string
}.

Definition start (c : node_call) : stage := {|
  call := c; current := setup (node_of c);
  inbox := []; replies := []; got := []; sent := []; saved := [] |}.

Definition goto (k : proc) (s : stage) : stage := {|
  call := call s; current := k; inbox := inbox s; replies := replies s;
  got := got s; sent := sent s; saved := saved s |}.
Definition set_inbox (ms : list string) (s : stage) : stage := {|
  call := call s; current := current s; inbox := ms; replies := replies s;
  got := got s; sent := sent s; saved := saved s |}.
Definition set_replies (ms : list string) (s : stage) : stage := {|
  call := call s; current := current s; inbox := inbox s; replies := ms;
  got := got s; sent := sent s; saved := saved s |}.
Definition note_got (m : string) (s : stage) : stage := {|
  call := call s; current := current s; inbox := inbox s; replies := replies s;
  got := got s ++ [m]; sent := sent s; saved := saved s |}.
Definition note_sent (m : string) (s : stage) : stage := {|
  call := call s; current := current s; inbox := inbox s; replies := replies s;
  got := got s; sent := sent s ++ [m]; saved := saved s |}.
Definition note_saved (m : string) (s : stage) : stage := {|
  call := call s; current := current s; inbox := inbox s; replies := replies s;
  got := got s; sent := sent s; saved := saved s ++ [m] |}.

(** The sockets a node is fed by, and those it passes messages on by *)
Definition is_input (p : port) : bool :=
  match p with p_socket | p_receiver | p_consumer | p_subscriber => true | _ => false end.
Definition is_output (p : port) : bool :=
  match p with p_publisher | p_chainedWriter | p_sender | p_broker => true | _ => false end.

(** A step of one node *)
Inductive local_step (s : stage) : stage -> Prop :=
  | step_turn : current s = Done -> local_step s (goto (turn (node_of (call s))) s)
  | step_recv p k m ms : current s = Recv p k -> is_input p = true -> inbox s = m :: ms ->
      local_step s (goto (k m) (note_got m (set_inbox ms s)))
  | step_reply k m ms : current s = Recv p_broker k -> replies s = m :: ms ->
      local_step s (goto (k m) (set_replies ms s))
  | step_save data k : current s = OnRead save data k ->
      local_step s (goto k (note_saved data s))
  | step_read t data k : current s = OnRead t data k -> t <> save -> local_step s (goto k s).

(** A step of the line: of one node; of two neighbours, a message passed on or
    a reply *)
Inductive line_step : list stage -> list stage -> Prop :=
  | step_here s s' l : local_step s s' -> line_step (s :: l) (s' :: l)
  | step_pass s t l p m k : current s = Send p m k -> is_output p = true ->
      line_step (s :: t :: l) (goto k (note_sent m s) :: set_inbox (inbox t ++ [m]) t :: l)
  | step_answer s t l m k : current t = Send p_socket m k ->
      line_step (s :: t :: l) (set_replies (replies s ++ [m]) s :: goto k t :: l)
  | step_there s l l' : line_step l l' -> line_step (s :: l) (s :: l').

(** Losses: a message on its way, a node *)
Inductive loss : list stage -> list stage -> Prop :=
  | lose_message s l ms m ms' : inbox s = ms ++ m :: ms' ->
      loss (s :: l) (set_inbox (ms ++ ms') s :: l)
  | lose_node s l : loss (s :: l) (goto Exit s :: l)
  | lose_there s l l' : loss l l' -> loss (s :: l) (s :: l').

(** The states of a line of nodes, after messages were written to the first;
    [lossy]: with losses *)
Inductive reach (lossy : bool) (ns : list node_call) : list string -> list stage -> Prop :=
  | reach_start : reach lossy ns [] (start <$> ns)
  | reach_step ps l l' : reach lossy ns ps l -> line_step l l' -> reach lossy ns ps l'
  | reach_write ps s l m f : reach lossy ns ps (s :: l) -> write true m = Ok (Some f) ->
      reach lossy ns (ps ++ [m]) (set_inbox (inbox s ++ [f]) s :: l)
  | reach_loss ps l l' : lossy = true -> reach lossy ns ps l -> loss l l' ->
      reach lossy ns ps l'.

(** ** What a node is meant to do

    It passes messages on, as requests or not, after some of its own; it saves
    them; it answers requests. *)

Record kind := {
  forwards : bool;
  asks : bool;
  own : list string;
  saves : bool;
  answers : bool
}.

Definition kind_of (c : node_call) : kind :=
  match c with
  | runBroker _ _ sinkUrl =>
      {| forwards := true; asks := false; own := []; saves := false;
         answers := String.eqb sinkUrl EmptyString |}
  | runWriter brokerUrl _ consumerUrl sinkUrl =>
      let l := writer_links brokerUrl consumerUrl sinkUrl in
      {| forwards := brokerConnected l || sinkConnected l ||
                     (writerChain l && negb (lastInChain l));
         asks := brokerConnected l;
         own := if brokerConnected l then [zero_ended "reportwriter"] else [];
         saves := writerChain l && negb (firstInChain l);
         answers := false |}
  | runReader _ => {| forwards := false; asks := false; own := []; saves := true; answers := false |}
  end.

(** It takes messages. *)
Definition consumes (c : node_call) : bool :=
  match c with
  | runBroker _ _ _ => true
  | runWriter _ _ consumerUrl _ => negb (String.eqb consumerUrl "!")
  | runReader subscriberUrl => negb (String.eqb subscriberUrl "!")
  end.

(** Every node takes messages, passes them on except the last, and asks exactly
    the nodes that answer. *)
Fixpoint wired (asked : bool) (ns : list node_call) : bool :=
  match ns with
  | [] => true
  | c :: ns =>
      consumes c && Bool.eqb (answers (kind_of c)) asked &&
      Bool.eqb (forwards (kind_of c)) (match ns with [] => false | _ => true end) &&
      wired (asks (kind_of c)) ns
  end.

(** ** What is left of a turn *)

(** The steps of a turn after its input are fewer. *)
Definition turn_bound : nat := 5.

Section duties.
Context (lossy : bool) (c : kind).

(** [doing n hf hs a o p]: from [p] on the node takes [n] steps until it waits
    for input; it passes on the frames [hf], saves the messages [hs], takes the
    replies to [a] requests already sent and gives [o] replies. *)
Inductive doing : nat -> list string -> list string -> nat -> nat -> proc -> Prop :=
  | doing_done : doing 1 [] [] 0 0 Done
  | doing_exit : lossy = true -> doing 0 [] [] 0 0 Exit
  | doing_input p k (steps : string -> nat) : is_input p = true ->
      (forall m, steps m < turn_bound) ->
      (forall m, message m ->
         doing (steps m) (if forwards c then [frame m] else []) (if saves c then [m] else [])
           0 (if answers c then 1 else 0) (k (frame m))) ->
      doing 0 [] [] 0 0 (Recv p k)
  | doing_reply n hf hs a o k : doing n hf hs a o (k (frame (zero_ended BROKER_OK))) ->
      doing (S n) hf hs (S a) o (Recv p_broker k)
  | doing_pass n p m hf hs a o k : is_output p = true -> p <> p_broker -> asks c = false ->
      doing n hf hs a o k -> doing (S n) (m :: hf) hs a o (Send p m k)
  | doing_ask n m hf hs a o k : asks c = true ->
      doing n hf hs (S a) o k -> doing (S n) (m :: hf) hs a o (Send p_broker m k)
  | doing_answer n hf hs a o k : doing n hf hs a o k ->
      doing (S n) hf hs a (S o) (Send p_socket (frame (zero_ended BROKER_OK)) k)
  | doing_save n hf hs a o m k : message m -> doing n hf hs a o k ->
      doing (S n) hf (m :: hs) a o (OnRead save m k)
  | doing_read n hf hs a o t m k : t <> save -> doing n hf hs a o k ->
      doing (S n) hf hs a o (OnRead t m k).

Definition minded (nd : node) : Prop :=
  doing 0 [] [] 0 0 (turn nd) /\
  exists n, doing n (frame <$> own c) [] 0 0 (setup nd).
End duties.

(** The duty of a sequence of actions *)
Ltac duties := cbn [kind_of forwards asks saves answers own]; repeat match goal with
  | |- doing _ _ _ _ _ _ _ Done => apply doing_done
  | |- doing _ _ _ _ _ _ _ (Send p_socket _ _) => apply doing_answer
  | |- doing _ _ _ _ _ _ _ (Send _ _ _) => apply doing_pass; [done|done|done|]
  | |- doing _ _ _ _ _ _ _ (OnRead save _ _) => apply doing_save; [done|]
  | |- doing _ _ _ _ _ _ _ (OnRead _ _ _) => apply doing_read; [done|]
  end.

Lemma message_zero_ended s : (Z.of_nat (String.length s) < 2 ^ 64 - 9)%Z -> message (zero_ended s).
Proof.
  intros H. unfold message, zero_ended. rewrite slength_app. cbn [String.length].
  split; [|lia]. rewrite no_nul_app. by rewrite andb_false_r.
Qed.

Lemma message_ok : message (zero_ended BROKER_OK) /\ message (zero_ended "reportwriter").
Proof. by split; apply message_zero_ended. Qed.

Lemma dispatch_frame p m k : message m -> dispatch p m k = Send p (frame m) k.
Proof. intros Hm. unfold dispatch. by rewrite encode_frame. Qed.

Lemma doing_ask_broker lossy c m : message m -> asks c = true ->
  doing lossy c 4 [frame m] [] 0 0 (ask_broker m).
Proof.
  intros Hm Hc. unfold ask_broker. rewrite dispatch_frame by done.
  apply doing_ask; [done|]. apply doing_reply. rewrite decode_frame by apply message_ok.
  cbn [need]. by apply doing_read; [|constructor].
Qed.

Lemma doing_receive lossy c p k n : is_input p = true -> n < turn_bound ->
  (forall m, message m ->
     doing lossy c n (if forwards c then [frame m] else []) (if saves c then [m] else [])
       0 (if answers c then 1 else 0) (k m)) ->
  doing lossy c 0 [] [] 0 0 (receive p k).
Proof.
  intros Hp Hn Hk. apply (doing_input _ _ _ _ (fun _ => n)); [done..|]. intros m Hm.
  rewrite decode_frame by done. by apply Hk.
Qed.

(** A writer in a chain that is not its end has no sink. *)
Lemma writer_links_ok b u s : let l := writer_links b u s in
  (brokerConnected l = true -> writerChain l = false) /\
  (writerChain l = true -> lastInChain l = false -> sinkConnected l = false) /\
  (lastInChain l = true -> firstInChain l = false).
Proof.
  cbn. destruct (String.eqb_spec b "-") as [->|]; [by split_and!|].
  destruct (String.eqb_spec b "+") as [->|]; [by split_and!|]. cbn [orb].
  destruct (String.eqb b "."); by split_and!.
Qed.

Lemma writer_minded lossy b p u s : let l := writer_links b u s in
  let c := kind_of (runWriter b p u s) in
  exists n, n < turn_bound /\ forall m, message m ->
    doing lossy c n (if forwards c then [frame m] else [])
      (if saves c then [m] else []) 0 (if answers c then 1 else 0)
      (if brokerConnected l then ask_broker m
       else
         let to_sink := if sinkConnected l then dispatch p_sender m Done else Done in
         if writerChain l then
           let onward := if lastInChain l then to_sink
                         else dispatch p_chainedWriter m to_sink in
           if firstInChain l then onward else OnRead save m onward
         else to_sink).
Proof.
  intros l c. destruct (writer_links_ok b u s) as (H1 & H2 & H3). fold l in H1, H2, H3.
  unfold c, turn_bound. cbn [kind_of forwards saves answers]. fold l.
  destruct (brokerConnected l) eqn:Eb.
  { rewrite H1 by done. exists 4. split; [lia|]. intros m Hm.
    apply doing_ask_broker; [done|]. by cbn. }
  assert (asks c = false) as Hc by done.
  exists (1 + (if writerChain l && negb (firstInChain l) then 1 else 0) +
          (if sinkConnected l || writerChain l && negb (lastInChain l) then 1 else 0)).
  split; [destruct (_ && _), (_ || _); lia|]. intros m Hm. rewrite !(dispatch_frame _ m) by done.
  destruct (writerChain l), (lastInChain l); rewrite ?H3, ?H2 by done; cbn [negb andb orb];
    [destruct (sinkConnected l)|destruct (firstInChain l)|destruct (sinkConnected l)..];
    cbn [negb Nat.add]; by duties.
Qed.

(** Every node that takes messages does what it is meant to. *)
Lemma node_minded lossy c : consumes c = true -> minded lossy (kind_of c) (node_of c).
Proof.
  destruct c as [b p s|b p u s|u]; cbn [consumes]; intros Hc.
  - split; [|by eexists; constructor]. unfold node_of, broker_node, broker_turn. cbn [turn].
    destruct (String.eqb s EmptyString) eqn:Es; cbn [negb].
    + apply (doing_receive _ _ _ _ 3); [done|unfold turn_bound; lia|]. intros m Hm.
      cbn [kind_of forwards saves answers]. rewrite Es, !dispatch_frame by (done || apply message_ok).
      by duties.
    + apply (doing_receive _ _ _ _ 2); [done|unfold turn_bound; lia|]. intros m Hm.
      cbn [kind_of forwards saves answers]. rewrite Es, !dispatch_frame by done. by duties.
  - set (l := writer_links b u s). assert (consumerConnected l = true) as Hl by done. split.
    + cbn [node_of writer_node turn]. fold l. unfold writer_turn. rewrite Hl.
      destruct (writer_minded lossy b p u s) as (n & Hn & Hk). fold l in Hk.
      by eapply doing_receive.
    + cbn [node_of writer_node setup kind_of own]. fold l. destruct (brokerConnected l) eqn:Eb.
      * exists 4. apply doing_ask_broker; [apply message_ok|]. cbn. by fold l.
      * exists 1. constructor.
  - split; [|by eexists; constructor]. cbn [node_of reader_node turn].
    destruct (String.eqb u "!"); [done|].
    apply (doing_receive _ _ _ _ 2); [done|unfold turn_bound; lia|]. intros m Hm. by duties.
Qed.

(** ** The invariant of a line *)

(** With losses what remains of a list, in its order; otherwise all of it *)
Definition upto {T} (lossy : bool) (l1 l2 : list T) : Prop :=
  if lossy then sublist l1 l2 else l1 = l2.

Section upto.
Context {T : Type} (lossy : bool).
Implicit Types l : list T.

Lemma upto_refl l : upto lossy l l.
Proof. by destruct lossy. Qed.

Lemma upto_app l1 l1' l2 l2' : upto lossy l1 l1' -> upto lossy l2 l2' ->
  upto lossy (l1 ++ l2) (l1' ++ l2').
Proof. destruct lossy; cbn; [by apply sublist_app|by intros -> ->]. Qed.

Lemma upto_snoc l1 l2 x : upto lossy l1 l2 -> upto lossy (l1 ++ [x]) (l2 ++ [x]).
Proof. intros H. apply upto_app; [done|apply upto_refl]. Qed.

Lemma upto_lost l1 l2 l3 : lossy = true -> sublist l1 l2 -> upto lossy l2 l3 -> upto lossy l1 l3.
Proof. intros ->. cbn. by intros ->. Qed.
End upto.

Definition framed (f : string) : Prop := exists m, message m /\ f = frame m.

Section line.
Context (lossy : bool).

(** A stage fed with [src], with the duty [n], [hf], [hs], [a], [o] *)
Record fits (src : list string) (s : stage) (n : nat) (hf hs : list string) (a o : nat) : Prop := {
  f_doing : doing lossy (kind_of (call s)) n hf hs a o (current s);
  f_takes : consumes (call s) = true;
  f_in : upto lossy (got s ++ inbox s) src;
  f_sent : upto lossy (sent s ++ hf)
             (if forwards (kind_of (call s)) then (frame <$> own (kind_of (call s))) ++ got s else []);
  f_saved : upto lossy (frame <$> (saved s ++ hs)) (if saves (kind_of (call s)) then got s else []);
  f_replies : Forall (eq (frame (zero_ended BROKER_OK))) (replies s);
  f_held : Forall framed hf
}.

(** What a stage has left to do before [l] other nodes have stopped *)
Definition weight (n : nat) (hf : list string) (l : nat) (s : stage) : nat :=
  n + turn_bound * (S l * length (inbox s) + l * length hf).

(** The replies a stage still has to give *)
Definition owed (o : nat) (s : stage) : nat :=
  o + if answers (kind_of (call s)) then length (inbox s) else 0.

(** A node passes messages on to the next node, and asks it when it answers. *)
Definition linked (c : node_call) (next : list node_call) : Prop :=
  match next with
  | [] => forwards (kind_of c) = false
  | d :: _ => forwards (kind_of c) = true /\ asks (kind_of c) = answers (kind_of d)
  end.

(** The line from a stage that is fed with [src] and asked for [w] replies; the
    number bounds the steps until all have stopped. *)
Inductive flow : nat -> list string -> nat -> list stage -> Prop :=
  | flow_nil src : flow 0 src 0 []
  | flow_cons w src s l n hf hs a o w' steps :
      fits src s n hf hs a o -> Forall framed src ->
      linked (call s) (call <$> l) ->
      (lossy = false -> w = owed o s) ->
      (lossy = false -> a = length (replies s) + w') ->
      flow w' (sent s) steps l ->
      flow w src (weight n hf (length l) s + steps) (s :: l).

Lemma upto_forall (P : string -> Prop) l1 l2 : upto lossy l1 l2 -> Forall P l2 -> Forall P l1.
Proof.
  destruct lossy; cbn; [|by intros ->]. intros Hs. rewrite !Forall_forall. intros H x Hx.
  apply H. by eapply elem_of_sublist.
Qed.

Lemma fits_framed src s n hf hs a o : fits src s n hf hs a o -> Forall framed src ->
  Forall framed (got s ++ inbox s).
Proof. intros H. apply upto_forall, (f_in _ _ _ _ _ _ _ H). Qed.

(** A step of one node: neither its requests and replies in flight nor what it
    sent change, and less is left to do. *)
Lemma fits_local src s s' n hf hs a o : fits src s n hf hs a o -> Forall framed src ->
  local_step s s' -> exists n' hf' hs' a' o',
    fits src s' n' hf' hs' a' o' /\ call s' = call s /\ sent s' = sent s /\
    owed o' s' = owed o s /\ a' + length (replies s) = a + length (replies s') /\
    forall l, weight n' hf' l s' < weight n hf l s.
Proof.
  intros H Hsrc Hs. pose proof (fits_framed _ _ _ _ _ _ _ H Hsrc) as Hfr.
  destruct H as [Hd Ht Hin Hse Hsa Hr Hh]. destruct Hs as
    [E|p k m ms E Hp Ei|k m ms E Er|data k E|t data k E Hne]; rewrite E in Hd;
    inversion Hd; subst; try done.
  - exists 0, [], [], 0, 0. destruct (node_minded lossy _ Ht) as [Hturn _].
    split; [by constructor|]. unfold weight, owed, turn_bound. cbn. repeat split; lia.
  - rewrite Ei in Hin, Hfr. assert (framed m) as (d & Hdm & ->).
    { rewrite Forall_forall in Hfr. apply Hfr, elem_of_app. right. by left. }
    exists (steps d), (if forwards (kind_of (call s)) then [frame d] else []),
      (if saves (kind_of (call s)) then [d] else []), 0,
      (if answers (kind_of (call s)) then 1 else 0). split; [constructor; cbn; try done|].
    + match goal with Hk : forall m, message m -> _ |- _ => by apply Hk end.
    + by rewrite <- app_assoc.
    + rewrite app_nil_r in Hse. destruct (forwards _); [|by rewrite app_nil_r].
      rewrite app_assoc. by apply upto_snoc.
    + rewrite app_nil_r in Hsa. destruct (saves _); [|by rewrite app_nil_r].
      rewrite fmap_app. by apply upto_snoc.
    + destruct (forwards _); [|done]. apply Forall_singleton. by exists d.
    + unfold weight, owed. cbn. rewrite Ei. cbn [length].
      split; [done|]. split; [done|]. split; [destruct (answers _); lia|]. split; [lia|].
      intros l. match goal with Hn : forall m, steps m < _ |- _ => specialize (Hn d) end.
      unfold turn_bound in *. destruct (forwards _); cbn [length]; nia.
  - rewrite Er in Hr. apply Forall_cons in Hr as [<- Hr].
    exists n0, hf, hs, a0, o. split; [by constructor|]. unfold weight, owed. cbn. rewrite Er.
    cbn [length]. repeat split; lia.
  - exists n0, hf, hs0, a, o. split; [constructor; cbn; try done|].
    + by rewrite <- app_assoc.
    + unfold weight, owed. cbn. repeat split; lia.
  - exists n0, hf, hs, a, o. split; [by constructor|]. unfold weight, owed. cbn. repeat split; lia.
Qed.

Lemma local_call s s' : local_step s s' -> call s' = call s.
Proof. by destruct 1. Qed.

Lemma line_calls l l' : line_step l l' -> call <$> l' = call <$> l.
Proof.
  induction 1 as [s s' l Hs%local_call| | |s l l' _ IH]; rewrite ?fmap_cons; [by rewrite Hs|done..|].
  by rewrite IH.
Qed.

Lemma fits_pass src s n hf hs a o p m k : fits src s n hf hs a o ->
  current s = Send p m k -> is_output p = true ->
  exists n' hf', n = S n' /\ hf = m :: hf' /\ framed m /\
    fits src (goto k (note_sent m s)) n' hf' hs
      (if asks (kind_of (call s)) then S a else a) o.
Proof.
  intros [Hd Ht Hin Hse Hsa Hr Hh] E Hp. rewrite E in Hd.
  inversion Hd; subst; try done; apply Forall_cons in Hh as [Hm Hh];
    match goal with Ha : asks _ = _ |- _ => rewrite Ha end;
    eexists _, _; (split; [done|]); (split; [done|]); (split; [done|]); constructor; try done;
    cbn; by rewrite <- app_assoc.
Qed.

Lemma fits_answer src s n hf hs a o m k : fits src s n hf hs a o ->
  current s = Send p_socket m k ->
  exists n' o', n = S n' /\ o = S o' /\ m = frame (zero_ended BROKER_OK) /\
    fits src (goto k s) n' hf hs a o'.
Proof.
  intros [Hd Ht Hin Hse Hsa Hr Hh] E. rewrite E in Hd.
  inversion Hd; subst; try done. by eexists _, _.
Qed.

(** More for a stage, and a reply *)
Lemma fits_more src s n hf hs a o m : fits src s n hf hs a o ->
  fits (src ++ [m]) (set_inbox (inbox s ++ [m]) s) n hf hs a o.
Proof.
  intros [Hd Ht Hin Hse Hsa Hr Hh]. constructor; try done. cbn. rewrite app_assoc.
  by apply upto_snoc.
Qed.

Lemma fits_replied src s n hf hs a o : fits src s n hf hs a o ->
  fits src (set_replies (replies s ++ [frame (zero_ended BROKER_OK)]) s) n hf hs a o.
Proof.
  intros [Hd Ht Hin Hse Hsa Hr Hh]. constructor; try done. cbn. by apply Forall_app_2; [|constructor].
Qed.

(** Every step of the line keeps the invariant and brings its end nearer. *)
Lemma flow_step w src n l l' : flow w src n l -> line_step l l' ->
  exists n', n' < n /\ flow w src n' l'.
Proof.
  intros H Hs. revert w src n H. induction Hs as
    [s s' l Hs|s t l p m k E Hp|s t l m k E|s l l' Hs IH]; intros w src n H;
    inversion H as [|? ? ? ? n0 hf hs a o w' rest Hf Hsrc Hl Hw Ha Hfl]; subst.
  - destruct (fits_local _ _ _ _ _ _ _ _ Hf Hsrc Hs)
      as (n' & hf' & hs' & a' & o' & Hf' & Hc & Hse & Ho & Ha' & Hwt).
    exists (weight n' hf' (length l) s' + rest). split; [specialize (Hwt (length l)); lia|].
    apply (flow_cons _ _ _ _ n' hf' hs' a' o' w'); try done; rewrite ?Hc, ?Hse; try done.
    + intros E. rewrite Ho. auto.
    + intros E. specialize (Ha E). lia.
  - destruct (fits_pass _ _ _ _ _ _ _ _ _ _ Hf E Hp) as (n' & hf' & -> & -> & Hm & Hf').
    inversion Hfl as [|? ? ? ? n1 hf1 hs1 a1 o1 w1 rest1 Hf1 Hsrc1 Hl1 Hw1 Ha1 Hfl1]; subst.
    set (t' := set_inbox (inbox t ++ [m]) t).
    exists (weight n' hf' (length (t' :: l)) (goto k (note_sent m s)) +
            (weight n1 hf1 (length l) t' + rest1)).
    split; [unfold weight, t', turn_bound; cbn; rewrite length_app; cbn; lia|].
    apply (flow_cons _ _ _ _ n' hf' hs (if asks (kind_of (call s)) then S a else a) o
             (owed o1 t')); try done.
    + intros El. specialize (Ha El). specialize (Hw1 El). destruct Hl as [_ Hl]. cbn.
      unfold owed, t' in *. cbn in *. rewrite length_app. rewrite <- Hl in *.
      destruct (asks _); cbn; lia.
    + apply (flow_cons _ _ _ _ n1 hf1 hs1 a1 o1 w1); try done; [by apply fits_more|].
      apply Forall_app_2; [done|by constructor].
  - inversion Hfl as [|? ? ? ? n1 hf1 hs1 a1 o1 w1 rest1 Hf1 Hsrc1 Hl1 Hw1 Ha1 Hfl1]; subst.
    destruct (fits_answer _ _ _ _ _ _ _ _ _ Hf1 E) as (n' & o' & -> & -> & -> & Hf1').
    set (r := frame (zero_ended BROKER_OK)) in *. set (s' := set_replies (replies s ++ [r]) s).
    exists (weight n0 hf (length (goto k t :: l)) s' + (weight n' hf1 (length l) (goto k t) + rest1)).
    split; [unfold weight, s'; cbn; lia|].
    apply (flow_cons _ _ _ _ n0 hf hs a o (owed o' (goto k t))); try done; [by apply fits_replied| |].
    + intros El. specialize (Ha El). specialize (Hw1 El). unfold owed, s' in *. cbn in *.
      rewrite length_app. cbn. lia.
    + by apply (flow_cons _ _ _ _ n' hf1 hs1 a1 o' w1).
  - destruct (IH _ _ _ Hfl) as (n' & Hn & Hf').
    exists (weight n0 hf (length l) s + n'). split; [lia|].
    assert (length l' = length l) as <-.
    { rewrite <- !(length_fmap call). by rewrite (line_calls _ _ Hs). }
    eapply flow_cons; try done. by rewrite (line_calls _ _ Hs).
Qed.

(** More messages for the first node *)
Lemma flow_write w src n s l f : flow w src n (s :: l) -> framed f ->
  answers (kind_of (call s)) = false ->
  exists n', flow w (src ++ [f]) n' (set_inbox (inbox s ++ [f]) s :: l).
Proof.
  intros H Hfr Hans. inversion H as [|? ? ? ? n0 hf hs a o w' rest Hf Hsrc Hl Hw Ha Hfl]; subst.
  eexists. apply (flow_cons _ _ _ _ n0 hf hs a o w'); try done; [by apply fits_more|..].
  - apply Forall_app_2; [done|by constructor].
  - intros E. rewrite (Hw E). unfold owed. cbn. by rewrite Hans.
Qed.

Lemma loss_calls l l' : loss l l' -> call <$> l' = call <$> l.
Proof. induction 1 as [| |s l l' _ IH]; [done..|]. rewrite !fmap_cons. by rewrite IH. Qed.

Lemma flow_loss w src n l l' : lossy = true -> flow w src n l -> loss l l' ->
  exists n', flow w src n' l'.
Proof.
  intros E H Hs. revert w src n H. induction Hs as [s l ms m ms' Ei|s l|s l l' Hs IH];
    intros w src n H; inversion H as [|? ? ? ? n0 hf hs a o w' rest Hf Hsrc Hl Hw Ha Hfl]; subst.
  - eexists. apply (flow_cons _ _ _ _ n0 hf hs a o w'); try done; [|by rewrite E].
    destruct Hf as [Hd Ht Hin Hse Hsa Hr Hh]. constructor; try done. cbn. rewrite Ei in Hin.
    eapply upto_lost; [done| |exact Hin]. by apply sublist_app, sublist_app, sublist_cons.
  - eexists. apply (flow_cons _ _ _ _ 0 [] [] 0 0 w'); try done; [|by rewrite E..].
    destruct Hf as [Hd Ht Hin Hse Hsa Hr Hh]. constructor; try done; cbn.
    + by constructor.
    + eapply upto_lost; [done| |exact Hse]. by apply sublist_app, sublist_nil_l.
    + eapply upto_lost; [done| |exact Hsa]. by apply fmap_sublist, sublist_app, sublist_nil_l.
  - destruct (IH _ _ _ Hfl) as [n' Hf']. eexists. eapply flow_cons; try done.
    by rewrite (loss_calls _ _ Hs).
Qed.

Lemma fits_start c : consumes c = true -> exists n,
  fits [] (start c) n (frame <$> own (kind_of c)) [] 0 0.
Proof.
  intros Hc. destruct (node_minded lossy c Hc) as (_ & n & Hn). exists n.
  constructor; cbn [call start current inbox got sent saved replies app fmap list_fmap]; try done.
  - apply upto_refl.
  - rewrite app_nil_r. destruct c as [| b p u k|]; cbn [kind_of forwards own]; [apply upto_refl| |apply upto_refl].
    destruct (brokerConnected (writer_links b u k)); cbn [orb]; [apply upto_refl|].
    destruct (_ || _); apply upto_refl.
  - destruct (saves _); apply upto_refl.
  - destruct c as [| b p u k|]; cbn [kind_of own]; [done| |done].
    destruct (brokerConnected (writer_links b u k)); [|done].
    apply Forall_singleton. by exists (zero_ended "reportwriter"); split; [apply message_ok|].
Qed.

Lemma flow_start asked ns : wired asked ns = true -> exists n, flow 0 [] n (start <$> ns).
Proof.
  revert asked. induction ns as [|c ns IH]; intros asked; cbn [wired]; [by eexists; constructor|].
  intros [[[Hc Hans%Bool.eqb_prop]%andb_true_iff Hfw%Bool.eqb_prop]%andb_true_iff Hw]%andb_true_iff.
  destruct (IH _ Hw) as [n Hn]. destruct (fits_start c Hc) as [n0 Hf]. rewrite fmap_cons. eexists.
  eapply flow_cons; [exact Hf|done| | | |exact Hn]; [|by intros _; unfold owed; cbn; destruct (answers _)|done].
  cbn [call start]. destruct ns as [|d ns]; [done|]. split; [done|]. cbn [wired] in Hw.
  apply andb_true_iff in Hw as [[[_ E%Bool.eqb_prop]%andb_true_iff _]%andb_true_iff _].
  symmetry. exact E.
Qed.

Lemma reach_flow ns ps l : wired false ns = true -> reach lossy ns ps l ->
  call <$> l = ns /\ exists n, flow 0 (frame <$> ps) n l.
Proof.
  intros Hns. induction 1 as [|ps l l' _ [IHc [n IH]] Hs|ps s l m f _ [IHc [n IH]] Hm|ps l l' E _ [IHc [n IH]] Hs].
  - split; [|by apply (flow_start false)]. rewrite <- list_fmap_compose.
    by rewrite <- (list_fmap_id ns) at 2.
  - split; [by rewrite (line_calls _ _ Hs)|]. destruct (flow_step _ _ _ _ _ IH Hs) as (n' & _ & ?).
    by exists n'.
  - split; [done|]. unfold write in Hm. destruct (encode m) as [e| | |] eqn:Em; try done.
    injection Hm as <-. apply encode_message in Em as [Hmm ->]. rewrite fmap_app.
    apply (flow_write _ _ n); [done|by exists m|]. subst ns. cbn [fmap list_fmap wired] in Hns.
    by apply andb_true_iff in Hns as [[[_ ->%Bool.eqb_prop]%andb_true_iff _]%andb_true_iff _].
  - split; [by rewrite (loss_calls _ _ Hs)|]. by apply (flow_loss _ _ n l).
Qed.
End line.

(** ** What reaches the nodes *)

(** The messages each node is meant to take: those written, and what the nodes
    before add of their own, the first ahead. *)
Fixpoint feeds (ps : list string) (ns : list node_call) : list (list string) :=
  match ns with
  | [] => []
  | c :: ns => ps :: feeds (own (kind_of c) ++ ps) ns
  end.

(** With losses a part, otherwise a first part *)
Definition within (lossy : bool) (l1 l2 : list string) : Prop :=
  if lossy then sublist l1 l2 else l1 `prefix_of` l2.

Lemma within_refl lossy l : within lossy l l.
Proof. by destruct lossy. Qed.

Lemma within_trans lossy l1 l2 l3 : within lossy l1 l2 -> within lossy l2 l3 -> within lossy l1 l3.
Proof. destruct lossy; cbn; by intros ->. Qed.

Lemma within_upto lossy l1 l2 l3 : upto lossy (l1 ++ l2) l3 -> within lossy l1 l3.
Proof.
  destruct lossy; cbn; [|intros <-; by exists l2]. intros <-. by apply sublist_inserts_r.
Qed.

Lemma within_app lossy l l1 l2 : within lossy l1 l2 -> within lossy (l ++ l1) (l ++ l2).
Proof. destruct lossy; cbn; [by apply sublist_app|by apply prefix_app]. Qed.

Lemma within_fmap lossy (f : string -> string) l1 l2 :
  within lossy l1 l2 -> within lossy (f <$> l1) (f <$> l2).
Proof.
  destruct lossy; cbn; [by intros ->|]. intros [k ->]. rewrite fmap_app. by exists (f <$> k).
Qed.

Lemma flow_within lossy w src n l ps : flow lossy w src n l -> within lossy src (frame <$> ps) ->
  Forall2 (fun s fed => saves (kind_of (call s)) = true -> within lossy (saved s) fed)
    l (feeds ps (call <$> l)).
Proof.
  intros H. revert ps. induction H as [|w src s l n hf hs a o w' k Hf _ Hl _ _ _ IH]; intros ps Hps;
    cbn; constructor.
  - intros Hs. destruct Hf as [_ _ Hin _ Hsa _ _]. rewrite Hs, fmap_app in Hsa.
    rewrite <- (frame_drops (saved s)), <- (frame_drops ps). apply within_fmap.
    eapply within_trans; [by eapply within_upto|].
    eapply within_trans; [by eapply within_upto|exact Hps].
  - apply IH. destruct Hf as [_ _ Hin Hse _ _ _]. eapply within_trans; [by eapply within_upto|].
    destruct l as [|t l]; cbn in Hl.
    { rewrite Hl. destruct lossy; cbn; [apply sublist_nil_l|apply prefix_nil]. }
    destruct Hl as [-> _]. rewrite fmap_app. apply within_app.
    eapply within_trans; [by eapply within_upto|exact Hps].
Qed.

(** C15: in a line of connected nodes every node that saves messages saves, at any
    time, a first part of the messages written to the first node, in their
    order, behind what the nodes on the way send of their own (the
    [reportwriter] of a writer with a broker).  When messages or nodes may be
    lost it saves some of these messages, still in their order: none twice,
    none altered, no others. *)
Theorem saved_in_order (lossy : bool) (ns : list node_call) (ps : list string) (l : list stage) :
  wired false ns = true -> reach lossy ns ps l ->
  Forall2 (fun s fed => saves (kind_of (call s)) = true ->
             if lossy then sublist (saved s) fed else saved s `prefix_of` fed)
    l (feeds ps ns).
Proof.
  intros Hns Hr. destruct (reach_flow lossy ns ps l Hns Hr) as (<- & n & Hf).
  exact (flow_within _ _ _ _ _ _ Hf (within_refl _ _)).
Qed.

(** When no step is possible nothing is left to do. *)
Lemma flow_stuck w src n l : flow false w src n l -> (forall l', ~ line_step l l') ->
  match l with [] => True | t :: _ => forall m k, current t <> Send p_socket m k end ->
  n = 0 /\ w = 0.
Proof.
  induction 1 as [|w src s l n hf hs a o w' k Hf _ Hl Hw Ha _ IH]; intros Hst Hhd; [done|].
  assert (k = 0 /\ w' = 0) as [-> ->].
  { apply IH; [intros l' Hl'; by eapply Hst, step_there|].
    destruct l as [|t l]; [done|]. intros m p E. by eapply Hst, step_answer. }
  destruct Hf as [Hd _ Hin Hse Hsa Hr _]. cbn [upto] in *. specialize (Hw eq_refl).
  specialize (Ha eq_refl). unfold owed in Hw.
  assert (forall s', ~ local_step s s') as Hlo by (intros s' Hs; by eapply Hst, step_here).
  assert (forall p m q, current s = Send p m q -> is_output p = true -> l = []) as Hno.
  { intros p m q E Hp. destruct l; [done|]. exfalso. by eapply Hst, step_pass. }
  assert (l = [] -> hf = []) as Hnil.
  { intros ->. cbn in Hl. rewrite Hl in Hse. by apply app_eq_nil in Hse as [_ ?]. }
  inversion Hd as [|E|p q steps Hp|n' hf' hs' a' o' q|n' p m hf' hs' a' o' q Hp|n' m hf' hs' a' o' q| | |];
    subst; try done.
  - by edestruct Hlo; apply step_turn.
  - destruct (inbox s) as [|m ms] eqn:Ei; [|by edestruct Hlo; eapply step_recv].
    unfold weight. rewrite Ei. cbn. split; [lia|by destruct (answers _)].
  - destruct (replies s) as [|m ms] eqn:Er; [done|]. by edestruct Hlo; eapply step_reply.
  - match goal with E : _ = current s |- _ =>
      by specialize (Hnil (Hno _ _ _ (eq_sym E) Hp)) end.
  - match goal with E : _ = current s |- _ =>
      by specialize (Hnil (Hno _ _ _ (eq_sym E) eq_refl)) end.
  - match goal with E : _ = current s |- _ => by destruct (Hhd _ _ (eq_sym E)) end.
  - by edestruct Hlo; eapply step_save.
  - by edestruct Hlo; eapply step_read.
Qed.

(** A line with nothing left to do has delivered every message. *)
Lemma flow_delivered w src n l ps : flow false w src n l -> n = 0 -> src = frame <$> ps ->
  Forall2 (fun s fed => saves (kind_of (call s)) = true -> saved s = fed) l (feeds ps (call <$> l)).
Proof.
  intros H. revert ps. induction H as [|w src s l n hf hs a o w' k Hf _ Hl _ _ _ IH];
    intros ps Hn ->; [constructor|].
  destruct Hf as [Hd _ Hin Hse Hsa _ _]. cbn [upto] in *. unfold weight in Hn.
  assert (n = 0) as -> by lia. inversion Hd; subst; [done|].
  assert (inbox s = []) as Ei.
  { destruct (inbox s); [done|]. unfold turn_bound in Hn. cbn [length] in Hn. lia. }
  rewrite Ei, app_nil_r in Hin. rewrite Hin, app_nil_r in Hsa, Hse. constructor.
  - intros Hs. rewrite Hs in Hsa. by rewrite <- (frame_drops (saved s)), Hsa, frame_drops.
  - destruct l as [|t l]; [constructor|]. destruct Hl as [Hl _]. apply IH; [lia|].
    by rewrite Hse, Hl, fmap_app.
Qed.

Lemma stopped_delivered ns ps l : wired false ns = true -> reach false ns ps l ->
  (forall l', ~ line_step l l') ->
  Forall2 (fun s fed => saves (kind_of (call s)) = true -> saved s = fed) l (feeds ps ns).
Proof.
  intros Hns Hr Hst. destruct (reach_flow false ns ps l Hns Hr) as (Hc & n & Hf).
  rewrite <- Hc. destruct (flow_stuck _ _ _ _ Hf Hst) as [-> _].
  - destruct l as [|t l]; [done|]. intros m k E. subst ns. cbn in Hns.
    inversion Hf as [|? ? ? ? n0 hf hs a o w' rest Hft _ _ Hw _ _]; subst.
    destruct (fits_answer _ _ _ _ _ _ _ _ _ _ Hft E) as (? & o' & _ & -> & _).
    by specialize (Hw eq_refl).
  - by apply (flow_delivered _ _ _ _ _ Hf).
Qed.

(** C14: without losses a line of connected nodes stops by itself, whatever the
    order of the steps, when no more messages are written; and when it has
    stopped every node that saves messages has saved all those written, behind
    what the nodes on the way send of their own.  No node waits for ever for a
    message or a reply. *)
Theorem all_delivered (ns : list node_call) (ps : list string) (l : list stage) :
  wired false ns = true -> reach false ns ps l ->
  Acc (flip line_step) l /\
  ((forall l', ~ line_step l l') ->
   Forall2 (fun s fed => saves (kind_of (call s)) = true -> saved s = fed) l (feeds ps ns)).
Proof.
  intros Hns Hr. split; [|by apply stopped_delivered].
  destruct (reach_flow false ns ps l Hns Hr) as (Hc & n & Hf). clear Hr Hc.
  revert l Hf. induction (lt_wf n) as [n _ IH]. intros l Hf. constructor. intros l' Hs.
  destruct (flow_step _ _ _ _ _ _ Hf Hs) as (n' & Hn & Hf'). by apply (IH n').
Qed.

(** ** Replicas

    What the core publishes is written to the writer node; a node that saves a
    message hands it to [qcSave]. *)

Section replicas.
Context {plat : Platform} {R : RocksDB} {RL : RocksDBLaws}.

Inductive change := ChPut (key value : string) | ChRemove (key : string).

Definition perform (c : change) : SM (string * world) unit :=
  match c with
  | ChPut key value => do! dump_ key value; ret tt
  | ChRemove key => do! remove key; ret tt
  end.

(** The messages among the events *)
Definition written (es : list event) : list string :=
  omap (fun e => match e with EvWrite data => Some data | _ => None end) es.

(** [QCReader::onRead] and [QCWriter::onRead] of the messages to save *)
Definition replay (ms : list string) : SM world unit := for_all qcSave ms.

Lemma written_snoc es e :
  written (es ++ [e]) = written es ++ match e with EvWrite data => [data] | _ => [] end.
Proof. unfold written. rewrite omap_app. by destruct e. Qed.

Definition put_message (key value : string) : string :=
  zero_ended (dump (node_message value key "put")).
Definition remove_message (key : string) : string :=
  zero_ended (dump (node_message EmptyString key "remove")).

Lemma putRequest_written key value w : writer (cfg w) = true ->
  written (events (putRequest key value w).2) = written (events w) ++ [put_message key value].
Proof.
  intros Hw. unfold putRequest, bind, get_st, _PutCached, node_write, httpPost, modify, ret.
  rewrite Hw. destruct (CacheEnabled (cfg w)), (hasLogger (cfg w)); cbn;
    by rewrite !written_snoc, ?app_nil_r.
Qed.

Lemma removeRequest_written key w : writer (cfg w) = true ->
  written (events (removeRequest key w).2) = written (events w) ++ [remove_message key].
Proof.
  intros Hw. unfold removeRequest, bind, get_st, node_write, httpGet, modify, ret.
  rewrite Hw. destruct (hasLogger (cfg w)); cbn; by rewrite !written_snoc, ?app_nil_r.
Qed.

(** The store takes every write. *)
Definition healthy : Prop :=
  forall d key value, (db_Put d key value).1 = true /\ (db_Delete d key).1 = true.

(** [r] holds what [w] holds. *)
Definition same_contents (w r : world) : Prop :=
  exists d d', opened w d /\ opened r d' /\ contents d' = contents d.

Lemma replay_put key value r d : healthy -> opened r d -> exists d',
  qcSave (put_message key value) r = (Ok tt, set_db d' r) /\
  contents d' = sm_insert key value (contents d).
Proof.
  intros Hh Ho. exists (db_Put d key value).2.
  split; [unfold put_message, zero_ended; by rewrite (qcSave_message _ _ _ _ d)|].
  apply Put_law. pose proof (proj1 (Hh d key value)). by destruct (db_Put d key value); cbn in *; subst.
Qed.

Lemma replay_remove key r d : healthy -> opened r d -> exists d',
  qcSave (remove_message key) r = (Ok tt, set_db d' r) /\
  contents d' = sm_delete key (contents d).
Proof.
  intros Hh Ho. exists (db_Delete d key).2.
  split; [unfold remove_message, zero_ended; by rewrite (qcSave_message _ _ _ _ d)|].
  apply Delete_law. pose proof (proj2 (Hh d key EmptyString)).
  by destruct (db_Delete d key); cbn in *; subst.
Qed.

(** One change at the writer, and its messages at a replica *)
Lemma perform_followed c out w r : healthy -> writer (cfg w) = true -> same_contents w r ->
  exists out' w' ms r', perform c (out, w) = (Ok tt, (out', w')) /\ writer (cfg w') = true /\
    written (events w') = written (events w) ++ ms /\
    replay ms r = (Ok tt, r') /\ same_contents w' r'.
Proof.
  intros Hh Hw (d & dr & Ho & Hor & Hc). destruct c as [key value|key].
  - pose proof (proj1 (Hh d key value)) as Hp.
    destruct (putRequest_effect key value (set_db (db_Put d key value).2 w))
      as (w' & Hr & Hdb & Hs & Hcf & _).
    pose proof (putRequest_written key value (set_db (db_Put d key value).2 w) Hw) as He.
    rewrite Hr in He. destruct (replay_put key value r dr Hh Hor) as (d' & Hq & Hd').
    exists result_true, w', [put_message key value], (set_db d' r). split_and!; try done.
    + unfold perform, dump_, set_out, set_local, bind, outer, get_st. rewrite (proj2 Ho).
      rewrite (Put_opened w d), Hp by done. cbn. by rewrite Hr.
    + by rewrite Hcf.
    + unfold replay. cbn [for_all]. unfold bind. by rewrite Hq.
    + exists (db_Put d key value).2, d'. split; [split; [done|rewrite Hs; apply Ho]|].
      split; [by eapply opened_set_db|]. rewrite Hd', Hc. symmetry. apply Put_law.
      by destruct (db_Put d key value); cbn in *; subst.
  - unfold perform, remove, set_out, set_local, bind, outer, get_st.
    rewrite (proj2 Ho), (Get_opened w d) by done.
    destruct (sm_lookup key (contents d)) as [v|].
    + pose proof (proj2 (Hh d key EmptyString)) as Hp. rewrite (Delete_opened w d), Hp by done.
      destruct (removeRequest_effect key (set_db (db_Delete d key).2 w))
        as (w' & Hr & Hdb & Hs & Hcf & _).
      pose proof (removeRequest_written key (set_db (db_Delete d key).2 w) Hw) as He.
      rewrite Hr in He |- *. destruct (replay_remove key r dr Hh Hor) as (d' & Hq & Hd').
      eexists _, w', [remove_message key], (set_db d' r). split; [done|].
      split; [by rewrite Hcf|]. split; [done|]. split.
      { unfold replay. cbn [for_all]. unfold bind. by rewrite Hq. }
      exists (db_Delete d key).2, d'. split; [split; [done|rewrite Hs; apply Ho]|].
      split; [by eapply opened_set_db|]. rewrite Hd', Hc. symmetry. apply Delete_law.
      by destruct (db_Delete d key); cbn in *; subst.
    + eexists _, w, [], r. split; [done|]. split; [done|]. split; [by rewrite app_nil_r|].
      split; [done|]. by exists d, dr.
Qed.

Lemma for_all_app {X S} (emit : X -> SM S unit) l1 l2 s s' : for_all emit l1 s = (Ok tt, s') ->
  for_all emit (l1 ++ l2) s = for_all emit l2 s'.
Proof.
  revert s. induction l1 as [|x l1 IH]; intros s; cbn [for_all app]; [by intros [= ->]|].
  unfold bind. destruct (emit x s) as [[[]| | |] s1]; [apply IH|done..].
Qed.

Lemma changes_followed cs out w r : healthy -> writer (cfg w) = true -> same_contents w r ->
  exists out' w' ms r', for_all perform cs (out, w) = (Ok tt, (out', w')) /\
    written (events w') = written (events w) ++ ms /\
    replay ms r = (Ok tt, r') /\ same_contents w' r'.
Proof.
  revert out w r. induction cs as [|c cs IH]; intros out w r Hh Hw Hsame; cbn [for_all].
  { exists out, w, [], r. by rewrite app_nil_r. }
  destruct (perform_followed c out w r Hh Hw Hsame) as (out1 & w1 & ms1 & r1 & Hp & Hw1 & He & Hq & Hs).
  destruct (IH out1 w1 r1 Hh Hw1 Hs) as (out' & w' & ms & r' & Hp' & He' & Hq' & Hs').
  exists out', w', (ms1 ++ ms), r'. split; [unfold bind; by rewrite Hp|].
  split; [by rewrite He', He, app_assoc|]. split; [|done].
  unfold replay in *. by rewrite (for_all_app _ _ _ _ _ Hq).
Qed.

(** A node's own message is not JSON: nothing is saved. *)
Lemma replay_own rs r : Forall (eq (zero_ended "reportwriter")) rs -> replay rs r = (Ok tt, r).
Proof.
  induction 1 as [|x rs <- _ IH]; [done|]. unfold replay in *. cbn [for_all]. unfold bind. exact IH.
Qed.

Lemma feeds_own ps ns : Forall (fun fed => exists rs,
  fed = rs ++ ps /\ Forall (eq (zero_ended "reportwriter")) rs) (feeds ps ns).
Proof.
  enough (forall rs, Forall (eq (zero_ended "reportwriter")) rs ->
    Forall (fun fed => exists rs, fed = rs ++ ps /\ Forall (eq (zero_ended "reportwriter")) rs)
      (feeds (rs ++ ps) ns)) as H by exact (H [] (Forall_nil_2 _)).
  induction ns as [|c ns IH]; intros rs Hrs; cbn [feeds]; constructor; [by exists rs|].
  rewrite app_assoc. apply IH, Forall_app_2; [|done].
  destruct c as [|b p u k|]; cbn [kind_of own]; [done| |done]. destruct (brokerConnected _); [|done].
  by constructor.
Qed.

(** C13: a store that started with the contents of a writer node's has them again
    when the messages of the writer's changes have come through: after any
    sequence of puts and removals at the writer, in a line of nodes without
    losses that has stopped, every node that saves messages has saved what
    makes its store equal to the writer's. *)
Theorem replica_converges (ns : list node_call) (cs : list change) (out out1 : string)
    (o : outcome unit) (w w1 r : world) (l : list stage) (s : stage) :
  healthy -> wired false ns = true -> writer (cfg w) = true -> events w = [] ->
  same_contents w r ->
  for_all perform cs (out, w) = (o, (out1, w1)) ->
  reach false ns (written (events w1)) l -> (forall l', ~ line_step l l') ->
  s ∈ l -> saves (kind_of (call s)) = true ->
  o = Ok tt /\ exists r1, replay (saved s) r = (Ok tt, r1) /\ same_contents w1 r1.
Proof.
  intros Hh Hns Hw He Hsame Hp Hr Hst Hs Hsv.
  destruct (changes_followed cs out w r Hh Hw Hsame) as (out' & w' & ms & r1 & Hp' & Hms & Hq & Hs').
  rewrite Hp in Hp'. injection Hp' as -> -> ->. rewrite He in Hms. cbn in Hms.
  split; [done|]. exists r1. split; [|done].
  destruct (reach_flow false ns _ l Hns Hr) as (Hc & n & Hf).
  pose proof (stopped_delivered ns _ l Hns Hr Hst) as Hd.
  apply list_elem_of_lookup_1 in Hs as [i Hi].
  destruct (Forall2_lookup_l _ _ _ _ _ Hd Hi) as (fed & Hfed & E). rewrite E by done.
  pose proof (Forall_lookup_1 _ _ _ _ (feeds_own (written (events w')) ns) Hfed) as (rs & -> & Hrs).
  unfold replay. rewrite (for_all_app _ _ _ _ _ (replay_own rs r Hrs)). by rewrite Hms.
Qed.
End replicas.

(** ** Running a line

    A scheduler: the first step of the line that is possible. *)

Definition local_next (s : stage) : option stage :=
  match current s with
  | Done => Some (goto (turn (node_of (call s))) s)
  | Recv p k =>
      if is_input p then
        match inbox s with
        | m :: ms => Some (goto (k m) (note_got m (set_inbox ms s)))
        | [] => None
        end
      else
        match p, replies s with
        | p_broker, m :: ms => Some (goto (k m) (set_replies ms s))
        | _, _ => None
        end
  | OnRead save data k => Some (goto k (note_saved data s))
  | OnRead _ _ k => Some (goto k s)
  | _ => None
  end.

Definition pair_next (s t : stage) : option (stage * stage) :=
  match current s with
  | Send p m k =>
      if is_output p then Some (goto k (note_sent m s), set_inbox (inbox t ++ [m]) t) else None
  | _ => None
  end.

Definition answer_next (s t : stage) : option (stage * stage) :=
  match current t with
  | Send p_socket m k => Some (set_replies (replies s ++ [m]) s, goto k t)
  | _ => None
  end.

Fixpoint line_next (l : list stage) : option (list stage) :=
  match l with
  | [] => None
  | s :: rest =>
      match local_next s with
      | Some s' => Some (s' :: rest)
      | None =>
          match rest with
          | [] => None
          | t :: l =>
              match pair_next s t with
              | Some (s', t') => Some (s' :: t' :: l)
              | None =>
                  match answer_next s t with
                  | Some (s', t') => Some (s' :: t' :: l)
                  | None => cons s <$> line_next rest
                  end
              end
          end
      end
  end.

Lemma local_next_spec s :
  match local_next s with
  | Some s' => local_step s s'
  | None => forall s', ~ local_step s s'
  end.
Proof.
  unfold local_next. destruct (current s) as [| | |p k|p m k|t data k] eqn:E.
  - by apply step_turn.
  - by intros s' H; inversion H; congruence.
  - by intros s' H; inversion H; congruence.
  - destruct (is_input p) eqn:Hp.
    + destruct (inbox s) as [|m ms] eqn:Ei; [|by eapply step_recv].
      intros s' H; inversion H; try congruence.
      match goal with Hr : current s = Recv p_broker _ |- _ => rewrite E in Hr; injection Hr as -> -> end.
      done.
    + destruct p; try done; try (intros s' H; inversion H; congruence).
      destruct (replies s) as [|m ms] eqn:Er; [|by eapply step_reply].
      intros s' H; inversion H; congruence.
  - by intros s' H; inversion H; congruence.
  - by destruct t; (eapply step_save || eapply step_read).
Qed.

Lemma pair_next_step s t s' t' l : pair_next s t = Some (s', t') -> line_step (s :: t :: l) (s' :: t' :: l).
Proof.
  unfold pair_next. destruct (current s) as [| | |p k|p m k|ty data k] eqn:E; try done.
  destruct (is_output p) eqn:Hp; [|done]. intros [= <- <-]. by eapply step_pass.
Qed.

Lemma answer_next_step s t s' t' l : answer_next s t = Some (s', t') ->
  line_step (s :: t :: l) (s' :: t' :: l).
Proof.
  unfold answer_next. destruct (current t) as [| | |p k|[] m k|ty data k] eqn:E; try done.
  intros [= <- <-]. by eapply step_answer.
Qed.

(** It makes a step of the line, and stops only when there is none. *)
Lemma line_next_spec l :
  match line_next l with
  | Some l' => line_step l l'
  | None => forall l', ~ line_step l l'
  end.
Proof.
  induction l as [|s rest IH]; cbn [line_next]; [by intros l' H; inversion H|].
  pose proof (local_next_spec s) as Hlo. destruct (local_next s) as [s'|]; [by apply step_here|].
  destruct rest as [|t l].
  { intros l' H. inversion H as [? ? ? Hs| | |? ? ? Hs]; subst; [by eapply Hlo|inversion Hs]. }
  destruct (pair_next s t) as [[s' t']|] eqn:Ep; [by apply pair_next_step|].
  destruct (answer_next s t) as [[s' t']|] eqn:Ea; [by apply answer_next_step|].
  destruct (line_next (t :: l)) as [l'|] eqn:El; [by apply step_there|].
  intros l' H. inversion H as [? ? ? Hs|? ? ? p m k E Hp|? ? ? m k E|? ? ? Hs]; subst.
  - by eapply Hlo.
  - unfold pair_next in Ep. by rewrite E, Hp in Ep.
  - unfold answer_next in Ea. by rewrite E in Ea.
  - by eapply IH.
Qed.

Fixpoint run_line (fuel : nat) (l : list stage) : list stage :=
  match fuel with
  | O => l
  | S fuel => match line_next l with Some l' => run_line fuel l' | None => l end
  end.

Lemma reach_run lossy ns ps fuel l : reach lossy ns ps l -> reach lossy ns ps (run_line fuel l).
Proof.
  revert l. induction fuel as [|fuel IH]; intros l Hr; [done|]. cbn [run_line].
  pose proof (line_next_spec l) as Hs. destruct (line_next l) as [l'|]; [|done].
  apply IH. by eapply reach_step.
Qed.

(** Write a message to the first node. *)
Definition feed (m : string) (l : list stage) : list stage :=
  match l with s :: l => set_inbox (inbox s ++ [frame m]) s :: l | [] => [] end.

Lemma reach_feed lossy ns ps m l : message m -> l <> [] -> reach lossy ns ps l ->
  reach lossy ns (ps ++ [m]) (feed m l).
Proof.
  intros Hm Hl Hr. destruct l as [|s l]; [done|]. apply reach_write; [done|].
  unfold write. by rewrite encode_frame.
Qed.

Section cloud_witnesses.
Import Demo.

(** A writer with a broker, the broker and a reader *)
Definition cluster : list node_call := [
  runWriter "tcp://localhost:5555" "tcp://*:5557" "tcp://localhost:5557" EmptyString;
  runBroker "tcp://*:5555" "tcp://*:5556" EmptyString;
  runReader "tcp://localhost:5556"].

Definition changes : list change := [ChPut "k" "v"; ChRemove "user_1"; ChRemove "none"].
Definition after : world := (for_all perform changes (EmptyString, w)).2.2.
Definition messages : list string := written (events after).
Definition stopped : list stage := run_line 60 (foldl (fun l m => feed m l) (start <$> cluster) messages).

Lemma stopped_reached : reach false cluster messages stopped.
Proof.
  apply reach_run. change messages with (([] ++ [put_message "k" "v"]) ++ [remove_message "user_1"]).
  do 2 (apply reach_feed; [by apply message_zero_ended; vm_compute|done|]). apply reach_start.
Qed.

Lemma stopped_stuck l : ~ line_step stopped l.
Proof.
  pose proof (line_next_spec stopped) as H. assert (line_next stopped = None) as E by by vm_compute.
  rewrite E in H. apply H.
Qed.

Lemma demo_healthy : healthy.
Proof. by intros d0 key value. Qed.

Theorem frame_roundtrip_witness :
  encode "brokerok" = Undef /\
  exists f, encode (zero_ended "put") = Ok f /\ decode f = Ok (zero_ended "put").
Proof.
  split.
  - exact (frame_roundtrip "brokerok" eq_refl).
  - destruct (frame_roundtrip (zero_ended "put") eq_refl) as (f & He & _ & Hd & _).
    exists f. split; [exact He|exact Hd].
Defined.

Lemma stopped_calls : call <$> stopped = cluster.
Proof. by vm_compute. Qed.

(** The reader *)
Lemma stopped_reader : exists s, s ∈ stopped /\ call s = runReader "tcp://localhost:5556".
Proof.
  pose proof (f_equal (lookup 2) stopped_calls) as E. rewrite list_lookup_fmap in E.
  destruct (stopped !! 2) as [s|] eqn:Es; [|done]. injection E as E. exists s.
  split; [|done]. by eapply list_elem_of_lookup_2.
Qed.

Theorem saved_in_order_witness :
  Forall2 (fun s fed => saves (kind_of (call s)) = true -> saved s `prefix_of` fed)
    stopped (feeds messages cluster).
Proof. exact (saved_in_order false cluster messages stopped eq_refl stopped_reached). Defined.

Theorem all_delivered_witness :
  saved <$> stopped = [[]; []; zero_ended "reportwriter" :: messages] /\
  Forall2 (fun s fed => saves (kind_of (call s)) = true -> saved s = fed) stopped
    (feeds messages cluster).
Proof.
  split; [vm_compute; reflexivity|].
  apply (all_delivered cluster messages stopped eq_refl stopped_reached). exact stopped_stuck.
Defined.

Theorem replica_converges_witness :
  exists s r1, s ∈ stopped /\ replay (saved s) w = (Ok tt, r1) /\ same_contents after r1.
Proof.
  destruct stopped_reader as (s & Hs & Hc).
  destruct (replica_converges cluster changes EmptyString (q "{`result`:0}") (Ok tt) w after w stopped s)
    as (_ & r1 & Hq & Hr).
  - exact demo_healthy.
  - reflexivity.
  - reflexivity.
  - reflexivity.
  - exists d, d. repeat split.
  - vm_compute. reflexivity.
  - exact stopped_reached.
  - exact stopped_stuck.
  - exact Hs.
  - rewrite Hc. reflexivity.
  - exists s, r1. split; [exact Hs|]. split; [exact Hq|exact Hr].
Defined.
End cloud_witnesses.
